(* ===== verification/_CoqProject ===== *)
-Q . S2P
Prelude.v
ByteOrder.v
CoreError.v
Core.v
FeePolicy.v
Address.v
AddressLaws.v
Serialization.v
CryptoHash.v
Wire.v
Pmmr.v
Pow.v
PowLaws.v
Curve.v
Keys.v
Pedersen.v
Schnorr.v
RangeProof.v
RangeProve.v
Recovery.v
RecoveryLaws.v
Transaction.v
TransactionLaws.v
Slate.v
SlateLaws.v
BlockHeader.v
Consensus.v
ConsensusLaws.v
BlockExamples.v
Spend.v
SpendLaws.v
SlateFlow.v
SlateFlowLaws.v
Genesis.v
Utxo.v
Store.v
StoreLaws.v
Reorg.v
StateM.v
ChainUtxo.v
ChainState.v
ChainConnect.v
Ledger.v
ChainLaws.v
ReopenLaws.v
ReorgLaws.v
PromoteLaws.v
ChainTyping.v
ChainSafety.v
ChainExamples.v
Mempool.v
MempoolLaws.v
MempoolExamples.v
Ibd.v
IbdLaws.v
NodeSync.v
NodeSyncLaws.v
SyncExamples.v
WireLaws.v
Transport.v
TransportLaws.v
Handshake.v
HandshakeLaws.v
OrphanPool.v
OrphanLaws.v
Replay.v
ReplayLaws.v
