(* ===== verification/Prelude.v ===== *)
(** * DOM protocol: verification library

    A model of the DOM node and of the wallet protocol around it, with the theorems that make its parts
    correct.  Paths are under [src/crates/]; a definition keeps the name of the function it models, with
    a prefix where two types share a method name.

    ** The program

    DOM is a Mimblewimble chain.  An output is a Pedersen commitment [v*H + r*G] with a range proof; a
    transaction spends commitments into new ones and carries kernels, Schnorr signatures under the excess
    of the blindings, with the fee.  A block holds transactions and a coinbase, and its header commits to
    the three Merkle mountain ranges of its body.  Difficulty follows ASERT and work is RandomX.  A node
    keeps the chain in LMDB ([dom-store]), connects blocks and promotes heavier branches ([dom-chain]),
    holds unconfirmed transactions ([dom-mempool]), and talks to peers over a Noise session ([dom-wire],
    [dom-node]).  Wallets build transactions alone ([dom-tx]) or exchange slates ([dom-slate]).

    ** Files

    Foundations.  [Prelude.v]: results with errors and panics, machine integers, bytes, the tactics and
    hint databases.  [ByteOrder.v]: ordered byte keys.  [StateM.v]: methods on a mutable receiver, which
    keep what an error path has already changed.  [CoreError.v], [Core.v], [FeePolicy.v]: [dom-core]
    errors, constants, types and fees.  [Serialization.v]: [dom-serialization] and the class [Codec], the
    promise of an encodable type to the types built from it.

    Cryptography ([dom-crypto], [dom-pmmr], [dom-pow]).  [CryptoHash.v], [Keys.v], [Pedersen.v],
    [Schnorr.v], [RangeProof.v], [RangeProve.v], [Recovery.v] with [RecoveryLaws.v]; [Pmmr.v]; [Pow.v]
    with [PowLaws.v].  Third-party primitives are classes with their documented laws: [Blake2b256],
    [HmacSha256], [Secp256k1] ([Curve.v]), [HGenerator], [ZkpBackend], [ZkpProver], [RandomXHash],
    [RecoveryCrypto]; each has a concrete instance, so that the theorems are applied to concrete data.

    Consensus ([dom-consensus]).  [Transaction.v], [BlockHeader.v], [Consensus.v], laws in
    [TransactionLaws.v] and [ConsensusLaws.v], a block in [BlockExamples.v].

    Wallet side ([dom-core/src/address.rs], [dom-tx], [dom-slate]).  [Address.v], [Slate.v], [Spend.v],
    [SlateFlow.v], each with its laws.  Random draws are arguments.

    Storage and chain ([dom-store], [dom-chain]).  [Utxo.v], [Store.v] with [StoreLaws.v] (the class
    [Lmdb] says which database calls fail); [Genesis.v], [Reorg.v], [ChainUtxo.v], [ChainState.v],
    [ChainConnect.v].  [Ledger.v] is the abstract ledger; [ChainLaws.v], [ReopenLaws.v], [ReorgLaws.v],
    [PromoteLaws.v] relate the databases to it; [ChainTyping.v], [ChainSafety.v]; [ChainExamples.v].

    Mempool and synchronisation.  [Mempool.v], [MempoolLaws.v], [MempoolExamples.v] ([dom-mempool]);
    [Ibd.v], [IbdLaws.v] ([dom-chain/src/ibd.rs]); [NodeSync.v], [NodeSyncLaws.v], [SyncExamples.v]
    (the download session of [dom-node/src/node.rs]).

    Network.  [Wire.v], [WireLaws.v] ([dom-wire/src/message.rs]); [Transport.v], [TransportLaws.v]
    ([codec.rs] and the framing of [handshake.rs]); [Handshake.v], [HandshakeLaws.v] (the Noise handshake,
    [dom-node/src/prologue_prefs.rs] and the handshake loops of [node.rs]).  The [snow] crate is the pair
    of classes [NoiseTransport] and [NoiseHandshake], its documented behaviour [NoisePair] and [NoiseXX].

    Orphans.  [OrphanPool.v], [OrphanLaws.v] ([dom-node/src/orphan_pool.rs], [missing_block_tracker.rs]);
    [Replay.v], [ReplayLaws.v] ([reprocess_orphan_children] and [reconcile_mempool_after_connect] of
    [node.rs], over the models of chain, mempool, orphan pool and tracker).

    ** What the theorems show

    - Money: an accepted block creates no more than the subsidy and its fees, spends no output twice, and
      its header binds its body; issuance never exceeds the ceiling; validation accepts exactly what the
      rules say and never panics on decoded input.
    - Chain: connecting, promoting and reopening refine the abstract ledger, whichever database call
      fails; every reachable state is well typed; reorganisations are bounded and their walks end.
    - Commitments and work: the incremental mountain range computes its reference root and binds its
      leaves; the difficulty rule equals its closed form.
    - Wallets: spends and slate exchanges between honest parties are accepted, and whatever the other
      party sends, a finalized transaction is valid; recovery returns exactly what was stored.
    - Formats: blocks, slates, addresses, frames and payloads decode exactly their encodings.
    - Pool and synchronisation: the mempool indexes agree after any history, admission and selection do
      what they promise, and download sessions end.
    - Network: messages arrive in order and once under any splitting and cancellation of reads, buffers
      are bounded against any peer, errors of an honest connection are not blamed on the peer, and a
      handshake completes exactly between equal versions, networks and chains.
    - Orphans: the pool is consistent and bounded, replay ends and relays nothing twice, and the schedule
      of re-requests is exact on both sides: when a parent is asked for again and when it is starved.

    Some theorems prove that the code does not do what it means to: an output re-created by a
    disconnected block is not restored as before, rounds without progress hold a download session, and two
    nodes that remember different protocol versions for each other never connect.

    ** Bounds and fuel

    Loops that are not structural take fuel that is shown to be enough, or return [option].  Branch walks:
    one more than the number of stored blocks, since every step reaches a new one.  Eviction in the
    mempool and in the orphan pool: one more than the number of entries, since every turn removes one.
    Orphan replay: one more than the number of orphans, since every new parent was an orphan.  The locator
    walk: the tip height plus two.  A download session: five times the missing blocks plus four.  The
    deterministic nonce: 100 attempts, as in the code.  UTF-8 decoding and the split of a message into
    frames: the length of the input.  Outbound handshakes to one address: one
    more than the supported versions.

    ** Not modelled

    The RandomX cache pool ([dom-pow]) is a cache around a third-party function.  The peer manager,
    Dandelion routing, DNS seeds, rate limits, scoring, address exchange, port mapping, the queue of future
    blocks, the miner and the task supervision of [dom-node] and [dom-wire] are driven by clocks, sockets
    and random choices around the modelled operations.  Key generation of the transport draws random
    bytes.  RPC, explorer, faucet, command line and configuration are I/O.  Wallet files and applications
    ([dom-wallet*]), scriptless contracts ([dom-adaptor], [dom-scriptless-*], [dom-leg], [dom-vault]) and
    cross-chain settlement ([kaystra-core], [settlement-coordinator], [f6-engine], [route-*], [relay],
    [rfq], the actuators and adapters) are separate products on top of the chain.  In the modelled files
    the bodies of third-party functions, metrics, logging and the scheduling of tasks are left out. *)

From Stdlib Require Import ZArith Lia.
From stdpp Require Import base list strings pretty gmap sorting.

Declare Scope dom_scope.
Delimit Scope dom_scope with dom.
Global Open Scope Z_scope.

(** ** Results: the values of Rust functions that may fail or panic *)

(** [Ok] and [Err] are Rust's [Result]; [Panic] is an abort of the process
    (the workspace builds with [overflow-checks = true] and [panic = "abort"],
    so an unchecked overflow, a failed [expect] and an out-of-range index all
    end here). *)
Inductive result (E A : Type) : Type :=
| Ok (a : A)
| Err (e : E)
| Panic.
Arguments Ok {E A} a.
Arguments Err {E A} e.
Arguments Panic {E A}.

Definition rbind {E A B} (m : result E A) (k : A → result E B) : result E B :=
  match m with
  | Ok a => k a
  | Err e => Err e
  | Panic => Panic
  end.

Notation "'let?' x ':=' m 'in' k" := (rbind m (λ x, k))
  (at level 10, x pattern, m at level 200, k at level 200,
   format "'[v' 'let?'  x  ':='  m  'in' '/' k ']'") : dom_scope.
Global Open Scope dom_scope.

(** [r.map_err(f)] *)
Definition map_err {E A} (f : E → E) (m : result E A) : result E A :=
  match m with Err e => Err (f e) | _ => m end.

(** [r.map_err(f)] to another error type *)
Definition map_err_to {E E' A} (f : E → E') (m : result E A) : result E' A :=
  match m with Ok a => Ok a | Err e => Err (f e) | Panic => Panic end.

(** [o.ok_or_else(|| e)] *)
Definition ok_or {E A} (o : option A) (e : E) : result E A :=
  match o with Some a => Ok a | None => Err e end.

(** [o.expect("...")] *)
Definition expect {E A} (o : option A) : result E A :=
  match o with Some a => Ok a | None => Panic end.

Definition is_ok {E A} (m : result E A) : bool :=
  match m with Ok _ => true | _ => false end.

(** [for x in l { acc = f(acc, x)?; }] *)
Fixpoint try_fold {E A B} (f : A → B → result E A) (acc : A) (l : list B)
  : result E A :=
  match l with
  | [] => Ok acc
  | x :: t => let? acc' := f acc x in try_fold f acc' t
  end.

(** [for x in l { f(x)?; }] *)
Fixpoint try_each {E B} (f : B → result E unit) (l : list B) : result E unit :=
  match l with
  | [] => Ok tt
  | x :: t => let? _ := f x in try_each f t
  end.

(** [for (i, x) in l.iter().enumerate() { f(i, x)?; }] *)
Fixpoint try_eachi {E B} (f : Z → B → result E unit) (i : Z) (l : list B) : result E unit :=
  match l with
  | [] => Ok tt
  | x :: t => let? _ := f i x in try_eachi f (i + 1) t
  end.

(** [l.iter().map(f).collect::<Result<_, _>>()] *)
Fixpoint try_map {E A B} (f : A → result E B) (l : list A) : result E (list B) :=
  match l with
  | [] => Ok []
  | x :: t =>
      let? y := f x in
      let? ys := try_map f t in
      Ok (y :: ys)
  end.

(** [for x in l { if !seen.insert(x) { return Err(e); } }], threading the set *)
Fixpoint insert_distinct {E A} `{!EqDecision A} (e : E) (seen l : list A)
  : result E (list A) :=
  match l with
  | [] => Ok seen
  | x :: t => if bool_decide (x ∈ seen) then Err e else insert_distinct e (x :: seen) t
  end.

(** ** Fixed-width integers *)

Definition in_width (w v : Z) : Prop := 0 ≤ v < 2 ^ w.
Abbreviation u8_ok := (in_width 8).
Abbreviation u16_ok := (in_width 16).
Abbreviation u32_ok := (in_width 32).
Abbreviation u64_ok := (in_width 64).
Abbreviation u128_ok := (in_width 128).

Definition u8_max : Z := 2 ^ 8 - 1.
Definition u16_max : Z := 2 ^ 16 - 1.
Definition u32_max : Z := 2 ^ 32 - 1.
Definition u64_max : Z := 2 ^ 64 - 1.
Definition u128_max : Z := 2 ^ 128 - 1.

(** Unsigned [checked_add], [checked_sub] and [checked_mul] at width [w]. *)
Definition checked_add (w a b : Z) : option Z :=
  if a + b <? 2 ^ w then Some (a + b) else None.
Definition checked_sub (a b : Z) : option Z :=
  if b <=? a then Some (a - b) else None.
Definition checked_mul (w a b : Z) : option Z :=
  if a * b <? 2 ^ w then Some (a * b) else None.

(** Unsigned [saturating_add] and [saturating_sub]. *)
Definition saturating_add (w a b : Z) : Z := Z.min (a + b) (2 ^ w - 1).
Definition saturating_sub (a b : Z) : Z := Z.max 0 (a - b).

(** Signed 128-bit results: [Some] when the value fits [i128]. *)
Definition i128_ok (v : Z) : Prop := - 2 ^ 127 ≤ v < 2 ^ 127.
Definition i128_checked (v : Z) : option Z :=
  if (- 2 ^ 127 <=? v) && (v <? 2 ^ 127) then Some v else None.

(** [+] and [-] under [overflow-checks]: a panic where the width is exceeded. *)
Definition add_ovf {E} (w a b : Z) : result E Z := expect (checked_add w a b).
Definition sub_ovf {E} (a b : Z) : result E Z := expect (checked_sub a b).

(** ** Bytes *)

Abbreviation byte := Z (only parsing).
Abbreviation bytes := (list Z) (only parsing).

Definition bytes_ok (l : bytes) : Prop := Forall (in_width 8) l.

(** [slice.len()] as a [usize] *)
Definition zlen {A} (l : list A) : Z := Z.of_nat (length l).

(** [&l[a..b]] on indices already known to be in range *)
Definition slice {A} (l : list A) (a b : Z) : list A :=
  take (Z.to_nat (b - a)) (drop (Z.to_nat a) l).

(** [v.to_le_bytes()] for an [8 * n]-bit integer, and [from_le_bytes] *)
Fixpoint le_bytes (n : nat) (v : Z) : bytes :=
  match n with
  | O => []
  | S n' => v mod 256 :: le_bytes n' (v / 256)
  end.

Fixpoint le_val (l : bytes) : Z :=
  match l with
  | [] => 0
  | b :: t => b + 256 * le_val t
  end.

(** [v.to_be_bytes()] and [from_be_bytes] *)
Definition be_bytes (n : nat) (v : Z) : bytes := reverse (le_bytes n v).
Definition be_val (l : bytes) : Z := le_val (reverse l).

(** [str.as_bytes()] of an ASCII literal *)
Fixpoint str_bytes (s : string) : bytes :=
  match s with
  | EmptyString => []
  | String a t => Z.of_N (Ascii.N_of_ascii a) :: str_bytes t
  end.

(** [[b; n]] *)
Definition fill_bytes (n : nat) (b : byte) : bytes := replicate n b.

(** Lexicographic comparison of byte arrays ([Ord] on [[u8; N]]). *)
Fixpoint bytes_cmp (a b : bytes) : comparison :=
  match a, b with
  | [], [] => Eq
  | [], _ :: _ => Lt
  | _ :: _, [] => Gt
  | x :: a', y :: b' =>
      match x ?= y with
      | Eq => bytes_cmp a' b'
      | c => c
      end
  end.

Definition bytes_le (a b : bytes) : Prop := bytes_cmp a b ≠ Gt.

(** ** Formatting, for error messages *)

Definition hex_digit (d : Z) : string :=
  match String.get (Z.to_nat d) "0123456789abcdef" with
  | Some a => String a EmptyString
  | None => EmptyString
  end.

(** [format!("{:02x}")] of one byte *)
Definition hex_byte (b : byte) : string :=
  (hex_digit (b / 16) +:+ hex_digit (b mod 16))%string.

Fixpoint hex_concat (l : bytes) : string :=
  match l with
  | [] => EmptyString
  | b :: t => (hex_byte b +:+ hex_concat t)%string
  end.

(** [format!("{:08x}")] of a [u32] *)
Definition hex_u32 (v : Z) : string := hex_concat (be_bytes 4 v).

(** [format!("{}")] of an integer *)
Definition dec (v : Z) : string := pretty v.
(** [format!("{}")] of text given by its bytes *)
Fixpoint bytes_str (b : bytes) : string :=
  match b with
  | [] => EmptyString
  | c :: t => String (Ascii.ascii_of_N (Z.to_N c)) (bytes_str t)
  end.

(** [s.contains(pat)] *)
Fixpoint str_contains (pat s : string) : bool :=
  String.prefix pat s ||
  match s with
  | EmptyString => false
  | String _ t => str_contains pat t
  end.

(** ** Lemmas on results *)

Section results.
Context {E A B : Type}.

Lemma rbind_Ok (m : result E A) (k : A → result E B) b :
  rbind m k = Ok b ↔ ∃ a, m = Ok a ∧ k a = Ok b.
Proof. destruct m; simpl; naive_solver. Qed.

Lemma rbind_Panic (m : result E A) (k : A → result E B) :
  rbind m k = Panic ↔ m = Panic ∨ ∃ a, m = Ok a ∧ k a = Panic.
Proof. destruct m; simpl; naive_solver. Qed.

Lemma map_err_Ok (f : E → E) (m : result E A) a :
  map_err f m = Ok a ↔ m = Ok a.
Proof. destruct m; simpl; naive_solver. Qed.

Lemma map_err_to_Ok {E'} (f : E → E') (m : result E A) a :
  map_err_to f m = Ok a ↔ m = Ok a.
Proof. destruct m; simpl; naive_solver. Qed.

Lemma ok_or_Ok (o : option A) (e : E) a : ok_or o e = Ok a ↔ o = Some a.
Proof. destruct o; simpl; naive_solver. Qed.

Lemma expect_Ok (o : option A) a : expect (E := E) o = Ok a ↔ o = Some a.
Proof. destruct o; simpl; naive_solver. Qed.

End results.

Lemma try_each_Ok {E B} (f : B → result E unit) l :
  try_each f l = Ok tt ↔ Forall (λ x, f x = Ok tt) l.
Proof.
  induction l as [|x l IH]; simpl.
  - split; [constructor|done].
  - rewrite rbind_Ok, Forall_cons, <- IH. split.
    + intros ([] & ? & ?). done.
    + intros [? ?]. by exists tt.
Qed.

Lemma try_eachi_Ok {E B} (f : Z → B → result E unit) (P : B → Prop) i l :
  (∀ j x, f j x = Ok tt ↔ P x) → try_eachi f i l = Ok tt ↔ Forall P l.
Proof.
  intros Hf. revert i. induction l as [|x l IH]; intros i; simpl.
  - split; [constructor|done].
  - rewrite rbind_Ok, Forall_cons, <- (Hf i x), <- (IH (i + 1)). split.
    + intros ([] & ? & ?). done.
    + intros [? ?]. by exists tt.
Qed.

Lemma try_map_Ok {E A B} (f : A → result E B) l ys :
  try_map f l = Ok ys ↔ Forall2 (λ x y, f x = Ok y) l ys.
Proof.
  revert ys. induction l as [|x l IH]; intros ys; simpl.
  - split; [intros [= <-]; constructor|by inversion 1].
  - rewrite rbind_Ok. setoid_rewrite rbind_Ok. setoid_rewrite IH. split.
    + intros (y & Hy & zs & Hzs & [= <-]). by constructor.
    + inversion 1; subst. eauto.
Qed.

Lemma insert_distinct_Ok {E A} `{!EqDecision A} (e : E) (seen l s : list A) :
  insert_distinct e seen l = Ok s ↔
  NoDup l ∧ (∀ x, x ∈ l → x ∉ seen) ∧ s = reverse l ++ seen.
Proof.
  revert seen. induction l as [|x l IH]; intros seen; simpl.
  - split; [intros [= <-]|intros (_ & _ & ->)]; [|done].
    split_and!; [constructor|by intros ? ?%not_elem_of_nil|done].
  - case_bool_decide as Hx.
    + split; [done|]. intros (_ & H & _). destruct (H x); [left|done].
    + rewrite IH, NoDup_cons, reverse_cons, <- app_assoc. simpl.
      setoid_rewrite elem_of_cons. naive_solver.
Qed.

Lemma try_fold_app {E A B} (f : A → B → result E A) acc l1 l2 :
  try_fold f acc (l1 ++ l2) = rbind (try_fold f acc l1) (λ a, try_fold f a l2).
Proof.
  revert acc. induction l1 as [|x l1 IH]; intros acc; simpl; [done|].
  destruct (f acc x); simpl; auto.
Qed.

(** *** Absence of panics *)

Lemma rbind_no_panic {E A B} (m : result E A) (k : A → result E B) :
  m ≠ Panic → (∀ a, m = Ok a → k a ≠ Panic) → rbind m k ≠ Panic.
Proof. destruct m; simpl; naive_solver. Qed.

Lemma ok_or_no_panic {E A} (o : option A) (e : E) : ok_or o e ≠ Panic.
Proof. by destruct o. Qed.

Lemma map_err_no_panic {E A} (f : E → E) (m : result E A) : m ≠ Panic → map_err f m ≠ Panic.
Proof. by destruct m. Qed.

Lemma try_each_no_panic {E B} (f : B → result E unit) l :
  (∀ x, x ∈ l → f x ≠ Panic) → try_each f l ≠ Panic.
Proof.
  induction l as [|x l IH]; intros H; simpl; [done|].
  apply rbind_no_panic; [apply H; left|]. intros _ _. apply IH. intros y Hy. apply H. by right.
Qed.

Lemma try_eachi_no_panic {E B} (f : Z → B → result E unit) i l :
  (∀ j x, x ∈ l → f j x ≠ Panic) → try_eachi f i l ≠ Panic.
Proof.
  revert i. induction l as [|x l IH]; intros i H; simpl; [done|].
  apply rbind_no_panic; [apply H; left|]. intros _ _. apply IH. intros j y Hy. apply H. by right.
Qed.

Lemma try_map_no_panic {E A B} (f : A → result E B) l :
  (∀ x, x ∈ l → f x ≠ Panic) → try_map f l ≠ Panic.
Proof.
  induction l as [|x l IH]; intros H; simpl; [done|].
  apply rbind_no_panic; [apply H; left|]. intros y _.
  apply rbind_no_panic; [|done]. apply IH. intros z Hz. apply H. by right.
Qed.

Lemma try_fold_inv {E A B} (f : A → B → result E A) (P : A → Prop) acc l r :
  (∀ a x a', x ∈ l → P a → f a x = Ok a' → P a') → P acc → try_fold f acc l = Ok r → P r.
Proof.
  revert acc. induction l as [|x l IH]; intros acc Hf Ha H; cbn [try_fold] in H; [by injection H as <-|].
  destruct (f acc x) as [a|e|] eqn:Hx; [|done..]. cbn [rbind] in H.
  eapply IH; [|eapply Hf; [left|exact Ha|exact Hx]|exact H]. intros b y b' Hy. apply Hf. by right.
Qed.

Lemma try_fold_no_panic {E A B} (f : A → B → result E A) acc l :
  (∀ a x, x ∈ l → f a x ≠ Panic) → try_fold f acc l ≠ Panic.
Proof.
  revert acc. induction l as [|x l IH]; intros acc H; simpl; [done|].
  apply rbind_no_panic; [apply H; left|]. intros a _. apply IH. intros b y Hy. apply H. by right.
Qed.

Lemma insert_distinct_no_panic {E A} `{!EqDecision A} (e : E) (seen l : list A) :
  insert_distinct e seen l ≠ Panic.
Proof. revert seen. induction l; intros seen; simpl; [done|]. by case_bool_decide. Qed.

(** [no_panic] walks a computation down to the calls whose panics are not yet
    excluded, deciding every branch. *)
Ltac no_panic_step :=
  lazymatch goal with
  | |- Ok _ ≠ Panic => discriminate
  | |- Err _ ≠ Panic => discriminate
  | |- rbind _ _ ≠ Panic => apply rbind_no_panic; [|intros ? ?]
  | |- ok_or _ _ ≠ Panic => apply ok_or_no_panic
  | |- map_err _ _ ≠ Panic => apply map_err_no_panic
  | |- try_each _ _ ≠ Panic => apply try_each_no_panic; intros ? ?
  | |- try_eachi _ _ _ ≠ Panic => apply try_eachi_no_panic; intros ? ? ?
  | |- try_map _ _ ≠ Panic => apply try_map_no_panic; intros ? ?
  | |- try_fold _ _ _ ≠ Panic => apply try_fold_no_panic; intros ? ? ?
  | |- insert_distinct _ _ _ ≠ Panic => apply insert_distinct_no_panic
  | |- (if ?b then _ else _) ≠ Panic => destruct b eqn:?
  | |- (match ?x with _ => _ end) ≠ Panic => destruct x eqn:?
  end.
Ltac no_panic := repeat (no_panic_step; cbn beta); try done.

(** ** Lemmas on checked arithmetic *)

Lemma checked_add_Some w a b c :
  checked_add w a b = Some c ↔ c = a + b ∧ a + b < 2 ^ w.
Proof.
  unfold checked_add. destruct (Z.ltb_spec (a + b) (2 ^ w)); naive_solver lia.
Qed.

Lemma checked_add_None w a b :
  checked_add w a b = None ↔ 2 ^ w ≤ a + b.
Proof.
  unfold checked_add. destruct (Z.ltb_spec (a + b) (2 ^ w)); naive_solver lia.
Qed.

Lemma checked_sub_Some a b c :
  checked_sub a b = Some c ↔ c = a - b ∧ b ≤ a.
Proof. unfold checked_sub. destruct (Z.leb_spec b a); naive_solver lia. Qed.

Lemma checked_mul_Some w a b c :
  checked_mul w a b = Some c ↔ c = a * b ∧ a * b < 2 ^ w.
Proof.
  unfold checked_mul. destruct (Z.ltb_spec (a * b) (2 ^ w)); naive_solver lia.
Qed.

Lemma checked_sub_ok a b : b ≤ a → checked_sub a b = Some (a - b).
Proof. intros. unfold checked_sub. destruct (Z.leb_spec b a); [done|lia]. Qed.
Lemma checked_add_ok w a b : a + b < 2 ^ w → checked_add w a b = Some (a + b).
Proof. intros. unfold checked_add. destruct (Z.ltb_spec (a + b) (2 ^ w)); [done|lia]. Qed.
Lemma checked_mul_ok w a b : a * b < 2 ^ w → checked_mul w a b = Some (a * b).
Proof. intros. unfold checked_mul. destruct (Z.ltb_spec (a * b) (2 ^ w)); [done|lia]. Qed.

Lemma checked_mul_None w a b :
  checked_mul w a b = None ↔ 2 ^ w ≤ a * b.
Proof.
  unfold checked_mul. destruct (Z.ltb_spec (a * b) (2 ^ w)); naive_solver lia.
Qed.

Lemma i128_checked_Some v c :
  i128_checked v = Some c ↔ c = v ∧ i128_ok v.
Proof.
  unfold i128_checked, i128_ok.
  destruct (Z.leb_spec (- 2 ^ 127) v), (Z.ltb_spec v (2 ^ 127)); simpl;
    naive_solver lia.
Qed.

(** [res_inv] turns hypotheses that a computation succeeded into the facts its
    checks established. *)
Ltac res_step :=
  match goal with
  | H : rbind _ _ = Ok _ |- _ =>
      let a := fresh "a" in let H1 := fresh "Hm" in
      apply rbind_Ok in H; destruct H as (a & H1 & H); cbn beta in H
  | H : Ok _ = Ok _ |- _ => injection H as H
  | H : Err _ = Ok _ |- _ => discriminate H
  | H : Panic = Ok _ |- _ => discriminate H
  | H : ok_or _ _ = Ok _ |- _ => apply ok_or_Ok in H
  | H : expect _ = Ok _ |- _ => apply expect_Ok in H
  | H : add_ovf _ _ _ = Ok _ |- _ => apply expect_Ok in H
  | H : sub_ovf _ _ = Ok _ |- _ => apply expect_Ok in H
  | H : map_err _ _ = Ok _ |- _ => apply map_err_Ok in H
  | H : map_err_to _ _ = Ok _ |- _ => apply map_err_to_Ok in H
  | H : checked_add _ _ _ = Some _ |- _ => apply checked_add_Some in H as [? ?]
  | H : checked_sub _ _ = Some _ |- _ => apply checked_sub_Some in H as [? ?]
  | H : checked_mul _ _ _ = Some _ |- _ => apply checked_mul_Some in H as [? ?]
  | H : i128_checked _ = Some _ |- _ => apply i128_checked_Some in H as [? ?]
  | H : (let '(_, _) := ?p in _) = Ok _ |- _ => destruct p eqn:?
  | H : (if ?b then _ else _) = Ok _ |- _ => destruct b eqn:?
  | H : (_, _) = (_, _) |- _ => injection H as ? ?
  | u : unit |- _ => destruct u
  end.
Ltac res_inv := repeat (res_step; subst; try done).

(** [bool_inv] turns boolean comparisons into propositions. *)
Ltac bool_inv :=
  repeat match goal with
  | H : (_ && _) = true |- _ => apply andb_prop in H as [? ?]
  | H : (_ || _) = false |- _ => apply orb_false_elim in H as [? ?]
  | H : negb _ = true |- _ => apply negb_true_iff in H
  | H : negb _ = false |- _ => apply negb_false_iff in H
  | H : (_ <? _) = true |- _ => apply Z.ltb_lt in H
  | H : (_ <? _) = false |- _ => apply Z.ltb_ge in H
  | H : (_ <=? _) = true |- _ => apply Z.leb_le in H
  | H : (_ <=? _) = false |- _ => apply Z.leb_gt in H
  | H : (_ =? _) = true |- _ => apply Z.eqb_eq in H
  | H : (_ =? _) = false |- _ => apply Z.eqb_neq in H
  end.

(** [zbool] decides the boolean comparisons of a goal by arithmetic. *)
Ltac zbool :=
  repeat match goal with
  | |- context [?a <? ?b] => destruct (Z.ltb_spec a b)
  | |- context [?a <=? ?b] => destruct (Z.leb_spec a b)
  | |- context [?a =? ?b] => destruct (Z.eqb_spec a b)
  end; simpl.

(** ** Lemmas on bytes *)

Lemma zlen_nil {A} : zlen (A := A) [] = 0.
Proof. done. Qed.
Lemma zlen_cons {A} (x : A) l : zlen (x :: l) = 1 + zlen l.
Proof. unfold zlen. simpl length. lia. Qed.
Lemma zlen_app {A} (l1 l2 : list A) : zlen (l1 ++ l2) = zlen l1 + zlen l2.
Proof. unfold zlen. rewrite length_app. lia. Qed.
Lemma zlen_nonneg {A} (l : list A) : 0 ≤ zlen l.
Proof. unfold zlen. lia. Qed.
Lemma zlen_replicate {A} n (x : A) : zlen (replicate n x) = Z.of_nat n.
Proof. unfold zlen. by rewrite length_replicate. Qed.
Lemma zlen_to_nat {A} (l : list A) : Z.to_nat (zlen l) = length l.
Proof. unfold zlen. lia. Qed.
Lemma zlen_0_nil {A} (l : list A) : zlen l = 0 → l = [].
Proof. unfold zlen. destruct l; simpl; [done|lia]. Qed.
Lemma zlen_fmap {A B} (f : A → B) l : zlen (f <$> l) = zlen l.
Proof. unfold zlen. by rewrite length_fmap. Qed.

Create HintDb dom discriminated.
#[export] Hint Resolve zlen_nonneg : dom.
Create Rewrite HintDb zlen.
#[export] Hint Rewrite @zlen_nil @zlen_cons @zlen_app @zlen_replicate : zlen.

Lemma bytes_ok_app l1 l2 : bytes_ok (l1 ++ l2) ↔ bytes_ok l1 ∧ bytes_ok l2.
Proof. apply Forall_app. Qed.
Lemma bytes_ok_cons b l : bytes_ok (b :: l) ↔ u8_ok b ∧ bytes_ok l.
Proof. apply Forall_cons. Qed.
Lemma bytes_ok_nil : bytes_ok [].
Proof. constructor. Qed.
Lemma bytes_ok_reverse l : bytes_ok (reverse l) ↔ bytes_ok l.
Proof. unfold bytes_ok. by rewrite Forall_reverse. Qed.
Lemma bytes_ok_replicate n b : u8_ok b → bytes_ok (replicate n b).
Proof. intros. by apply Forall_replicate. Qed.
#[export] Hint Resolve bytes_ok_nil bytes_ok_replicate : dom.

Lemma length_le_bytes n v : length (le_bytes n v) = n.
Proof. revert v. induction n; intros; simpl; auto. Qed.
Lemma zlen_le_bytes n v : zlen (le_bytes n v) = Z.of_nat n.
Proof. unfold zlen. by rewrite length_le_bytes. Qed.
#[export] Hint Rewrite zlen_le_bytes : zlen.

Lemma le_bytes_ok n v : bytes_ok (le_bytes n v).
Proof.
  revert v. induction n; intros v; simpl; constructor; [|apply IHn].
  unfold in_width. change (2 ^ 8) with 256. apply Z.mod_pos_bound. lia.
Qed.
#[export] Hint Resolve le_bytes_ok : dom.

Lemma pow256_succ n : 256 ^ Z.of_nat (S n) = 256 * 256 ^ Z.of_nat n.
Proof. rewrite Nat2Z.inj_succ, Z.pow_succ_r by lia. done. Qed.

Lemma le_val_le_bytes n v : le_val (le_bytes n v) = v mod 256 ^ Z.of_nat n.
Proof.
  revert v. induction n; intros v.
  - simpl. by rewrite Z.mod_1_r.
  - cbn [le_bytes le_val]. rewrite IHn, pow256_succ.
    rewrite Z.rem_mul_r by lia. lia.
Qed.

Lemma le_val_le_bytes_id n v :
  in_width (8 * Z.of_nat n) v → le_val (le_bytes n v) = v.
Proof.
  intros Hv. rewrite le_val_le_bytes. apply Z.mod_small.
  unfold in_width in Hv. rewrite Z.pow_mul_r in Hv by lia. apply Hv.
Qed.

Lemma le_val_bound l : bytes_ok l → 0 ≤ le_val l < 256 ^ zlen l.
Proof.
  induction 1 as [|b l Hb Hl IH].
  - done.
  - cbn [le_val]. unfold zlen in *. simpl length. rewrite pow256_succ.
    unfold in_width in Hb. change (2 ^ 8) with 256 in Hb. lia.
Qed.

Lemma le_bytes_le_val l : bytes_ok l → le_bytes (length l) (le_val l) = l.
Proof.
  induction 1 as [|b l Hb Hl IH]; [done|].
  cbn [length le_bytes le_val].
  unfold in_width in Hb. change (2 ^ 8) with 256 in Hb.
  f_equal.
  - rewrite Z.mul_comm, Z.mod_add by lia. by apply Z.mod_small.
  - rewrite Z.mul_comm, Z.div_add, Z.div_small by lia. apply IH.
Qed.

Lemma le_bytes_inj n v v' :
  in_width (8 * Z.of_nat n) v → in_width (8 * Z.of_nat n) v' →
  le_bytes n v = le_bytes n v' → v = v'.
Proof.
  intros H H' Heq. rewrite <- (le_val_le_bytes_id n v), <- (le_val_le_bytes_id n v')
    by done. by rewrite Heq.
Qed.

Lemma length_be_bytes n v : length (be_bytes n v) = n.
Proof. unfold be_bytes. rewrite length_reverse. apply length_le_bytes. Qed.
Lemma zlen_be_bytes n v : zlen (be_bytes n v) = Z.of_nat n.
Proof. unfold zlen. by rewrite length_be_bytes. Qed.
#[export] Hint Rewrite zlen_be_bytes : zlen.
Lemma be_bytes_ok n v : bytes_ok (be_bytes n v).
Proof. apply bytes_ok_reverse, le_bytes_ok. Qed.
#[export] Hint Resolve be_bytes_ok : dom.

Lemma be_val_be_bytes n v :
  in_width (8 * Z.of_nat n) v → be_val (be_bytes n v) = v.
Proof.
  intros. unfold be_val, be_bytes. rewrite reverse_involutive.
  by apply le_val_le_bytes_id.
Qed.

Lemma be_bytes_be_val l : bytes_ok l → be_bytes (length l) (be_val l) = l.
Proof.
  intros H. unfold be_val, be_bytes.
  rewrite <- (length_reverse l), le_bytes_le_val, reverse_involutive; [done|].
  by apply bytes_ok_reverse.
Qed.

Lemma be_val_bound l : bytes_ok l → 0 ≤ be_val l < 256 ^ zlen l.
Proof.
  intros. unfold be_val.
  replace (zlen l) with (zlen (reverse l)) by (unfold zlen; by rewrite length_reverse).
  by apply le_val_bound, bytes_ok_reverse.
Qed.

Lemma le_val_app l1 l2 : le_val (l1 ++ l2) = le_val l1 + 256 ^ zlen l1 * le_val l2.
Proof.
  induction l1 as [|b l1 IH]; cbn [le_val app].
  - change (zlen (A := Z) []) with 0. lia.
  - rewrite IH. unfold zlen. cbn [length]. rewrite pow256_succ. lia.
Qed.

Lemma be_val_app l1 l2 : be_val (l1 ++ l2) = be_val l1 * 256 ^ zlen l2 + be_val l2.
Proof.
  unfold be_val. rewrite reverse_app, le_val_app.
  unfold zlen. rewrite length_reverse. lia.
Qed.

Lemma be_val_cons b l : be_val (b :: l) = b * 256 ^ zlen l + be_val l.
Proof.
  rewrite (be_val_app [b] l : be_val (b :: l) = _).
  by replace (be_val [b]) with b by (unfold be_val; simpl; lia).
Qed.

Lemma zlen_be_le {A} (l : list A) n : length l = n → zlen l = Z.of_nat n.
Proof. unfold zlen. by intros ->. Qed.

(** ** Slices *)

Lemma slice_app_l {A} (l l' : list A) a b : 0 ≤ a → b ≤ zlen l → slice (l ++ l') a b = slice l a b.
Proof.
  intros Ha Hb. unfold slice, zlen in *. destruct (decide (a ≤ b)).
  - rewrite drop_app_le by lia. rewrite take_app_le; [done|]. rewrite length_drop. lia.
  - replace (Z.to_nat (b - a)) with 0%nat by lia. done.
Qed.

Lemma slice_skip {A} (l l' : list A) a b :
  zlen l ≤ a → slice (l ++ l') a b = slice l' (a - zlen l) (b - zlen l).
Proof.
  intros Ha. unfold slice, zlen in *. rewrite drop_app_ge by lia.
  replace (b - Z.of_nat (length l) - (a - Z.of_nat (length l))) with (b - a) by lia. f_equal. f_equal. lia.
Qed.

Lemma slice_here {A} (l l' : list A) n : zlen l = n → slice (l ++ l') 0 n = l.
Proof.
  intros <-. unfold slice, zlen. rewrite Z.sub_0_r, Nat2Z.id, drop_0. apply take_app_length.
Qed.

Lemma slice_cat {A} (l : list A) a b c : 0 ≤ a ≤ b → b ≤ c → slice l a b ++ slice l b c = slice l a c.
Proof.
  intros Hab Hbc. unfold slice.
  replace (drop (Z.to_nat b) l) with (drop (Z.to_nat (b - a)) (drop (Z.to_nat a) l))
    by (rewrite drop_drop; f_equal; lia).
  replace (Z.to_nat (c - a)) with (Z.to_nat (b - a) + Z.to_nat (c - b))%nat by lia.
  generalize (drop (Z.to_nat a) l). intros k. revert k.
  induction (Z.to_nat (b - a)) as [|n IH]; intros [|x k]; cbn; [done..|by rewrite take_nil|]. f_equal. apply IH.
Qed.

Lemma slice_full {A} (l : list A) n : zlen l = n → slice l 0 n = l.
Proof. intros <-. unfold slice, zlen. cbn [Z.to_nat]. rewrite drop_0. apply take_ge. lia. Qed.

Lemma slice_one {A} (l : list A) i d : 0 ≤ i < zlen l → slice l i (i + 1) = [nth (Z.to_nat i) l d].
Proof.
  intros Hi. unfold slice, zlen in *. replace (Z.to_nat (i + 1 - i)) with 1%nat by lia.
  assert (Hlt : (Z.to_nat i < length l)%nat) by lia. revert Hlt. generalize (Z.to_nat i). clear Hi.
  induction l as [|x l IH]; intros n Hlt; cbn in Hlt; [lia|]. destruct n as [|n]; [done|]. apply IH. lia.
Qed.

Lemma zlen_slice {A} (l : list A) a b : 0 ≤ a ≤ b → b ≤ zlen l → zlen (slice l a b) = b - a.
Proof. intros. unfold slice, zlen in *. rewrite length_take, length_drop. lia. Qed.

Lemma slice_ok l a b : bytes_ok l → bytes_ok (slice l a b).
Proof. intros. by apply Forall_take, Forall_drop. Qed.

(** A finite check covers every value in its range. *)
Lemma below_all (f : Z → bool) n v : forallb f (seqZ 0 n) = true → 0 ≤ v < n → f v = true.
Proof. intros H Hv. apply (proj1 (forallb_forall _ _) H), list_elem_of_In, elem_of_seqZ. lia. Qed.
