(* ===== verification/ByteOrder.v ===== *)
(** * Ordered byte keys

    The order of byte arrays that [BTreeMap], [BTreeSet] and [sort_unstable] use, and
    the iteration of a map in key order. *)

From Stdlib Require Import ZArith Lia.
From stdpp Require Import base list gmap sorting.
From S2P Require Import Prelude.

Definition bytes_lt (a b : bytes) : Prop := bytes_cmp a b = Lt.

#[export] Instance bytes_le_dec : RelDecision bytes_le.
Proof. intros a b. unfold bytes_le. apply _. Defined.
#[export] Instance bytes_lt_dec : RelDecision bytes_lt.
Proof. intros a b. unfold bytes_lt. apply _. Defined.

Lemma bytes_cmp_refl a : bytes_cmp a a = Eq.
Proof. induction a as [|x a IH]; [done|]. simpl. by rewrite Z.compare_refl. Qed.

Lemma bytes_cmp_Eq a b : bytes_cmp a b = Eq ↔ a = b.
Proof.
  split; [|intros ->; apply bytes_cmp_refl].
  revert b. induction a as [|x a IH]; intros [|y b]; simpl; try done.
  destruct (Z.compare_spec x y); [|done..]. intros ?%IH. congruence.
Qed.

Lemma bytes_cmp_flip a b : bytes_cmp b a = CompOpp (bytes_cmp a b).
Proof.
  revert b. induction a as [|x a IH]; intros [|y b]; try done. simpl.
  rewrite (Z.compare_antisym x y). destruct (x ?= y); simpl; [apply IH|done..].
Qed.

Lemma bytes_cmp_trans a b c o : bytes_cmp a b = o → bytes_cmp b c = o → bytes_cmp a c = o.
Proof.
  revert b c. induction a as [|x a IH]; intros [|y b] [|z c]; simpl; try congruence.
  destruct (Z.compare_spec x y), (Z.compare_spec y z), (Z.compare_spec x z);
    subst; try congruence; try lia; eauto.
Qed.

#[export] Instance bytes_lt_trans : Transitive bytes_lt.
Proof. intros a b c. apply bytes_cmp_trans. Qed.
#[export] Instance bytes_lt_irrefl : Irreflexive bytes_lt.
Proof. intros a. unfold complement, bytes_lt. by rewrite bytes_cmp_refl. Qed.

Lemma bytes_le_lteq a b : bytes_le a b ↔ bytes_lt a b ∨ a = b.
Proof.
  unfold bytes_le, bytes_lt. rewrite <- (bytes_cmp_Eq a b).
  destruct (bytes_cmp a b); naive_solver.
Qed.

#[export] Instance bytes_le_refl : Reflexive bytes_le.
Proof. intros a. apply bytes_le_lteq. by right. Qed.
#[export] Instance bytes_le_trans : Transitive bytes_le.
Proof.
  intros a b c. rewrite !bytes_le_lteq. intros [H1| ->] [H2| ->]; auto.
  left. by etrans.
Qed.
#[export] Instance bytes_le_antisymm : AntiSymm (=) bytes_le.
Proof.
  intros a b. rewrite !bytes_le_lteq. intros [H1|H1] [H2|H2]; try done.
  exfalso. apply (irreflexivity bytes_lt a). by etrans.
Qed.
#[export] Instance bytes_le_total : Total bytes_le.
Proof.
  intros a b. unfold bytes_le. rewrite (bytes_cmp_flip a b). destruct (bytes_cmp a b); naive_solver.
Qed.

Lemma bytes_lt_nle a b : bytes_lt a b ↔ ¬ bytes_le b a.
Proof.
  unfold bytes_lt, bytes_le. rewrite (bytes_cmp_flip a b).
  destruct (bytes_cmp a b); naive_solver.
Qed.

(** ** Sorting by a byte key *)

Section sort_by_key.
Context {A : Type} (key : A → bytes).

Definition key_le (x y : A) : Prop := bytes_le (key x) (key y).
#[local] Instance key_le_dec : RelDecision key_le.
Proof. intros x y. unfold key_le. apply _. Defined.
#[local] Instance key_le_total : Total key_le.
Proof. intros x y. unfold key_le. apply (total bytes_le). Qed.
#[local] Instance key_le_trans : Transitive key_le.
Proof. intros x y z. unfold key_le. by etrans. Qed.

(** [l.sort_unstable_by_key(key)], on keys that are pairwise distinct wherever the code
    sorts, so that every sorting algorithm gives this list *)
Definition sort_by_key (l : list A) : list A := merge_sort key_le l.

Lemma sort_by_key_perm l : sort_by_key l ≡ₚ l.
Proof. apply merge_sort_Permutation. Qed.
Lemma sort_by_key_sorted l : StronglySorted key_le (sort_by_key l).
Proof. apply (StronglySorted_merge_sort key_le). Qed.
Lemma sort_by_key_elem l x : x ∈ sort_by_key l ↔ x ∈ l.
Proof. by rewrite sort_by_key_perm. Qed.

(** A list with distinct keys has one sorted arrangement. *)
Lemma sorted_unique l1 l2 :
  NoDup (key <$> l1) → StronglySorted key_le l1 → StronglySorted key_le l2 → l1 ≡ₚ l2 → l1 = l2.
Proof.
  intros Hnd H1 H2 Hp. revert l2 H2 Hp. induction H1 as [|x l1 H1 IH Hx]; intros l2 H2 Hp.
  - by apply Permutation_nil in Hp.
  - destruct H2 as [|y l2 H2 Hy]; [by apply Permutation_sym, Permutation_nil in Hp|].
    rewrite fmap_cons, NoDup_cons in Hnd. destruct Hnd as [Hxn Hnd].
    assert (x = y) as <-.
    { assert (Hyin : y ∈ x :: l1) by (rewrite Hp; left).
      assert (Hxin : x ∈ y :: l2) by (rewrite <- Hp; left).
      apply elem_of_cons in Hyin as [->|Hyin]; [done|].
      apply elem_of_cons in Hxin as [->|Hxin]; [done|].
      rewrite Forall_forall in Hx, Hy. exfalso. apply Hxn.
      rewrite (anti_symm bytes_le (key x) (key y) (Hx y Hyin) (Hy x Hxin)).
      by apply list_elem_of_fmap_2. }
    f_equal. apply IH; [done|done|]. by eapply Permutation_cons_inv.
Qed.

Lemma sort_by_key_eq l1 l2 :
  NoDup (key <$> l1) → l1 ≡ₚ l2 → sort_by_key l1 = sort_by_key l2.
Proof.
  intros Hnd Hp. apply sorted_unique; [|apply sort_by_key_sorted..|].
  - by rewrite sort_by_key_perm.
  - by rewrite !sort_by_key_perm.
Qed.
End sort_by_key.

(** ** Maps in key order *)

(** [for (k, v) in &map] on a [BTreeMap] with byte-array keys *)
Definition ascending {A} (m : gmap bytes A) : list (bytes * A) :=
  sort_by_key fst (map_to_list m).

Lemma ascending_elem {A} (m : gmap bytes A) k v : (k, v) ∈ ascending m ↔ m !! k = Some v.
Proof. unfold ascending. rewrite sort_by_key_elem. apply elem_of_map_to_list. Qed.

Lemma ascending_perm {A} (m : gmap bytes A) : ascending m ≡ₚ map_to_list m.
Proof. apply sort_by_key_perm. Qed.

Lemma ascending_NoDup {A} (m : gmap bytes A) : NoDup (ascending m).*1.
Proof. rewrite ascending_perm. apply NoDup_fst_map_to_list. Qed.
