(* ===== verification/CoreError.v ===== *)
(** * The error taxonomy of dom-core ([crates/dom-core/src/error.rs])

    [DomError] carries the message of each error, because callers inspect it:
    the IBD controller retries a [PolicyRejected] whose text contains
    ["idle timeout"].  [Result A] is the result type every other file uses. *)

From stdpp Require Import base strings.
From S2P Require Import Prelude.

Inductive PeerMisbehavior : Type :=
| AddressFlooding
| HandshakeTimeout
| HelloTimeout
| WriteTimeout
| MessageRateLimit
| WrongChainId
| UnexpectedHello
| InvalidPow
| InvalidSignature.

Inductive DomError : Type :=
| Malformed (msg : string)
| Invalid (msg : string)
| TemporarilyInvalid (msg : string)
| Orphan (msg : string)
| PolicyRejected (msg : string)
| Misbehavior (kind : PeerMisbehavior) (message : string)
| Internal (msg : string).

Abbreviation Result A := (result DomError A).

#[export] Instance PeerMisbehavior_eq_dec : EqDecision PeerMisbehavior.
Proof. solve_decision. Defined.
#[export] Instance DomError_eq_dec : EqDecision DomError.
Proof. solve_decision. Defined.

(** [{kind:?}] *)
Definition debug_misbehavior (k : PeerMisbehavior) : string :=
  match k with
  | AddressFlooding => "AddressFlooding"
  | HandshakeTimeout => "HandshakeTimeout"
  | HelloTimeout => "HelloTimeout"
  | WriteTimeout => "WriteTimeout"
  | MessageRateLimit => "MessageRateLimit"
  | WrongChainId => "WrongChainId"
  | UnexpectedHello => "UnexpectedHello"
  | InvalidPow => "InvalidPow"
  | InvalidSignature => "InvalidSignature"
  end.

(** [Display], derived by [thiserror] from the [#[error(..)]] attributes *)
Definition display_error (e : DomError) : string :=
  (match e with
   | Malformed m => "Malformed: " +:+ m
   | Invalid m => "Invalid: " +:+ m
   | TemporarilyInvalid m => "TemporarilyInvalid: " +:+ m
   | Orphan m => "Orphan: unknown parent " +:+ m
   | PolicyRejected m => "PolicyRejected: " +:+ m
   | Misbehavior k m => "PeerMisbehavior(" +:+ debug_misbehavior k +:+ "): " +:+ m
   | Internal m => "Internal: " +:+ m
   end)%string.

Definition peer_misbehavior (kind : PeerMisbehavior) (message : string) : DomError :=
  Misbehavior kind message.

Definition increases_ban_score (e : DomError) : bool :=
  match e with
  | Malformed _ | Invalid _ | Misbehavior _ _ => true
  | _ => false
  end.

Definition is_retryable (e : DomError) : bool :=
  match e with
  | TemporarilyInvalid _ | Orphan _ => true
  | _ => false
  end.

(** An error is never both a reason to ban and a reason to retry. *)
Lemma ban_or_retry (e : DomError) :
  increases_ban_score e && is_retryable e = false.
Proof. by destruct e. Qed.
