(* ===== verification/Core.v ===== *)
(** * Consensus constants and primitive types of dom-core
    ([crates/dom-core/src/constants.rs], [crates/dom-core/src/types.rs])

    The monetary schedule, the supply ceiling, checked amounts, block versions
    and the network identities. *)

From Stdlib Require Import ZArith Lia.
From stdpp Require Import base list strings.
From S2P Require Import Prelude CoreError.

(** ** Timing and difficulty *)

Definition TARGET_SPACING : Z := 120.
Definition ASERT_HALF_LIFE_BLOCKS : Z := 288.
Definition ASERT_HALF_LIFE : Z := TARGET_SPACING * ASERT_HALF_LIFE_BLOCKS.
Definition ASERT_RADIX_BITS : Z := 16.
Definition ASERT_RADIX : Z := Z.shiftl 1 ASERT_RADIX_BITS.

(** ** Genesis *)

Definition GENESIS_TARGET_COMPACT : Z := 0x1e00ffff.
Definition GENESIS_TIMESTAMP_TESTNET : Z := 1778642633.
Definition GENESIS_TIMESTAMP_MAINNET_PLACEHOLDER : Z := GENESIS_TIMESTAMP_TESTNET.
Definition GENESIS_TIMESTAMP_MAINNET : Z := 1784071429.
Definition GENESIS_TIMESTAMP_REGTEST : Z := GENESIS_TIMESTAMP_MAINNET.

(** ** Monetary policy *)

Definition COIN_UNIT : Z := 100000000.
Definition INITIAL_BLOCK_REWARD : Z := 33 * COIN_UNIT.
Definition HALVING_INTERVAL : Z := 330000.
Definition HALVING_EPOCHS : Z := 55.

Definition BLOCK_REWARD_TABLE : list Z :=
  [3300000000; 2211000000; 1481370000; 992517900; 664986993; 445541285;
   298512660; 200003482; 134002332; 89781562; 60153646; 40302942; 27002971;
   18091990; 12121633; 8121494; 5441400; 3645738; 2442644; 1636571; 1096502;
   734656; 492219; 329786; 220956; 148040; 99186; 66454; 44524; 29831; 19986;
   13390; 8971; 6010; 4026; 2697; 1806; 1210; 810; 542; 363; 243; 162; 108; 72;
   48; 32; 21; 14; 9; 6; 4; 2; 1; 0].

(** One iteration of the [while] loop of [maximum_supply_from_schedule]; the
    panics are its [panic!] arms. *)
Definition supply_step (total epoch : Z) : Result Z :=
  let? blocks := (if epoch =? 0 then expect (checked_sub HALVING_INTERVAL 1)
                  else Ok HALVING_INTERVAL) in
  let? reward := expect (BLOCK_REWARD_TABLE !! Z.to_nat epoch) in
  let? issued := expect (checked_mul 64 reward blocks) in
  expect (checked_add 64 total issued).

Fixpoint supply_loop (fuel : nat) (total epoch : Z) : Result Z :=
  match fuel with
  | O => Ok total
  | S fuel' =>
      if epoch <? zlen BLOCK_REWARD_TABLE then
        let? total' := supply_step total epoch in
        supply_loop fuel' total' (epoch + 1)
      else Ok total
  end.

Definition maximum_supply_from_schedule : Result Z :=
  supply_loop (S (length BLOCK_REWARD_TABLE)) 0 0.

(** A constant initialised by the function: a panic would be a compile error. *)
Definition MAX_SUPPLY_NOMS : Z :=
  match maximum_supply_from_schedule with Ok v => v | _ => 0 end.

Definition COINBASE_MATURITY : Z := 1000.
Definition REGTEST_COINBASE_MATURITY : Z := 1.

(** ** Block and transaction limits *)

Definition MAX_BLOCK_WEIGHT : Z := 40000.
Definition MAX_TX_WEIGHT : Z := 4000.
Definition MAX_INPUTS_PER_TX : Z := 255.
Definition MAX_OUTPUTS_PER_TX : Z := 255.
Definition MAX_KERNELS_PER_TX : Z := 16.
Definition MAX_BLOCK_TXS : Z := 5000.
Definition MAX_PROOF_SIZE : Z := 768.
Definition RECOVERY_CAPSULE_SIZE : Z := 96.
Definition MAX_OUTPUT_PROOF_ENVELOPE_SIZE : Z := 739 + RECOVERY_CAPSULE_SIZE.
Definition MAX_BLOCK_SERIALIZED_SIZE : Z := 16 * 1024 * 1024.
Definition MAX_LOGICAL_MSG_BYTES : Z := MAX_BLOCK_SERIALIZED_SIZE + 64 * 1024.
Definition MAX_HEADERS_PER_MSG : Z := 2000.
Definition MAX_FUTURE_BLOCK_TIME : Z := 120.
Definition TESTNET_MAX_FUTURE_BLOCK_TIME : Z := 30.
Definition FUTURE_BLOCK_SOFT_BUFFER_SECS : Z := 60.
Definition TESTNET_FUTURE_BLOCK_SOFT_BUFFER_SECS : Z := 15.
Definition MEDIAN_TIME_WINDOW : Z := 11.

(** ** Weights, kernel features, policy *)

Definition KERNEL_FEAT_PLAIN : Z := 0x00.
Definition KERNEL_FEAT_COINBASE : Z := 0x01.
Definition KERNEL_FEAT_HEIGHT_LOCKED : Z := 0x02.
Definition WEIGHT_INPUT : Z := 1.
Definition WEIGHT_OUTPUT : Z := 21.
Definition WEIGHT_KERNEL : Z := 3.
Definition WEIGHT_COINBASE_KERNEL : Z := 2.
Definition MIN_RELAY_FEE_RATE : Z := 1000.
Definition MAX_REORG_DEPTH_POLICY : Z := 1000.

(** ** Target bounds (32 bytes, big-endian) *)

Definition MIN_TARGET_BYTES : bytes :=
  <[26%nat := 0xff]> (<[27%nat := 0xff]> (replicate 32 0)).
Definition MAX_TARGET_BYTES : bytes :=
  <[0%nat := 0x00]> (<[1%nat := 0x00]> (replicate 32 0xff)).

(** ** Domain tags *)

Definition TAG_KERNEL_MSG : string := "DOM:kernel-msg:v1".
Definition TAG_KERNEL_MSG_COINBASE : string := "DOM:kernel-msg:coinbase:v1".
Definition TAG_CHAIN_ID : string := "DOM:chain-id:v1".
Definition TAG_KERNEL_SIG : string := "DOM:kernel-sig:v1".
Definition TAG_BLOCK_BODY_COMMITMENT : string := "DOM:block-body-commitment:v1".
Definition TAG_BOUND_RANGEPROOF_ROOT : string := "DOM:bound-rangeproof-root:v1".
Definition TAG_PMMR_EMPTY : string := "DOM:pmmr-empty:v1".
Definition TAG_PMMR_BAG : string := "DOM:pmmr-bag:v1".
Definition TAG_PMMR_LEAF : string := "DOM:pmmr-leaf:v1".
Definition TAG_PMMR_NODE : string := "DOM:pmmr-node:v1".

(** ** Network identity *)

Definition NETWORK_MAGIC_MAINNET : Z := 0x444F4D31.
Definition NETWORK_MAGIC_TESTNET : Z := 0x444F4D54.
Definition NETWORK_MAGIC_REGTEST : Z := 0x444F4D52.

Definition BLOCK_VERSION_LEGACY : Z := 2.
Definition BLOCK_VERSION_V3 : Z := 3.
Definition MAINNET_V3_ACTIVATION_HEIGHT : Z := 12500.
Definition TESTNET_V3_ACTIVATION_HEIGHT : Z := 1.
Definition REGTEST_V3_ACTIVATION_HEIGHT : Z := 1.

Definition required_block_version (height : Z) : Z :=
  if MAINNET_V3_ACTIVATION_HEIGHT <=? height then BLOCK_VERSION_V3
  else BLOCK_VERSION_LEGACY.

Definition required_block_version_for_network (network_magic height : Z) : Z :=
  let activation_height :=
    if network_magic =? NETWORK_MAGIC_TESTNET then TESTNET_V3_ACTIVATION_HEIGHT
    else if network_magic =? NETWORK_MAGIC_REGTEST then REGTEST_V3_ACTIVATION_HEIGHT
    else MAINNET_V3_ACTIVATION_HEIGHT in
  if activation_height <=? height then BLOCK_VERSION_V3 else BLOCK_VERSION_LEGACY.

(** A 32-byte hash value. *)
Record Hash256 : Type := { hash_bytes : bytes }.

#[export] Instance Hash256_eq_dec : EqDecision Hash256.
Proof. solve_decision. Defined.

Definition Hash256_ZERO : Hash256 := {| hash_bytes := replicate 32 0 |}.

Definition GENESIS_HASH_TESTNET : bytes :=
  [0x2a; 0xb5; 0xe6; 0xc7; 0x36; 0x07; 0xe8; 0xbf; 0xbb; 0xec; 0x2d; 0x4c; 0xe3; 0xea; 0x14; 0x19;
   0xcd; 0xa2; 0x9a; 0xe6; 0x89; 0x2e; 0x7f; 0x1c; 0x24; 0xfa; 0xcc; 0x46; 0x5c; 0xd6; 0x58; 0x21].
Definition MAINNET_GENESIS_FINALIZED : bool := true.
Definition GENESIS_HASH_MAINNET : bytes :=
  [0x18; 0x2e; 0x10; 0xaf; 0x28; 0xe7; 0xec; 0x07; 0x2f; 0x46; 0x2e; 0x60; 0x44; 0xf5; 0x80; 0xdc;
   0x9d; 0xd8; 0xc8; 0x66; 0xcb; 0x78; 0xdf; 0xc2; 0x93; 0xbb; 0xfa; 0xee; 0x4e; 0x93; 0x25; 0xce].
Definition GENESIS_HASH_REGTEST : bytes :=
  [0xfd; 0xda; 0x02; 0x7e; 0x4a; 0x46; 0xdd; 0x36; 0x67; 0x17; 0xc6; 0xe0; 0xa9; 0x76; 0xbf; 0x3e;
   0x0a; 0x75; 0x12; 0xc5; 0xed; 0xf0; 0x84; 0x70; 0xb0; 0xdc; 0xa9; 0x9d; 0xde; 0xe3; 0xfe; 0x1f].

Definition is_placeholder_genesis_hash (hash : bytes) : bool :=
  forallb (λ b, b =? 0) hash.

Definition is_valid_mainnet_genesis_hash (hash : bytes) : bool :=
  bool_decide (hash ≠ GENESIS_HASH_TESTNET)
  && bool_decide (hash ≠ GENESIS_HASH_REGTEST)
  && negb (is_placeholder_genesis_hash hash).

Definition validate_mainnet_genesis_hash (hash : bytes) : Result unit :=
  if is_valid_mainnet_genesis_hash hash then Ok tt
  else if bool_decide (hash = GENESIS_HASH_TESTNET) then
    Err (Invalid "mainnet genesis is not finalized: GENESIS_HASH_MAINNET must not alias GENESIS_HASH_TESTNET")
  else if bool_decide (hash = GENESIS_HASH_REGTEST) then
    Err (Invalid "mainnet genesis is not finalized: GENESIS_HASH_MAINNET must not alias GENESIS_HASH_REGTEST")
  else
    Err (Invalid "mainnet genesis is not finalized: GENESIS_HASH_MAINNET is still the zero placeholder").

Definition genesis_timestamp_for_network_magic (network_magic : Z) : Result Z :=
  if network_magic =? NETWORK_MAGIC_MAINNET then Ok GENESIS_TIMESTAMP_MAINNET
  else if network_magic =? NETWORK_MAGIC_TESTNET then Ok GENESIS_TIMESTAMP_TESTNET
  else if network_magic =? NETWORK_MAGIC_REGTEST then Ok GENESIS_TIMESTAMP_REGTEST
  else Err (Invalid ("unknown network magic 0x" +:+ hex_u32 network_magic
                     +:+ " for genesis timestamp")%string).

Definition configured_genesis_hash_for_network_magic (network_magic : Z)
  : Result Hash256 :=
  let? hash :=
    (if network_magic =? NETWORK_MAGIC_MAINNET then Ok GENESIS_HASH_MAINNET
     else if network_magic =? NETWORK_MAGIC_TESTNET then Ok GENESIS_HASH_TESTNET
     else if network_magic =? NETWORK_MAGIC_REGTEST then Ok GENESIS_HASH_REGTEST
     else Err (Invalid ("unknown network magic 0x" +:+ hex_u32 network_magic
                        +:+ " for genesis hash")%string)) in
  Ok {| hash_bytes := hash |}.

Definition ensure_network_genesis_ready (network_magic : Z) : Result unit :=
  if network_magic =? 0 then
    Err (Invalid "mainnet genesis is not finalized: NETWORK_MAGIC_MAINNET is still the placeholder value")
  else if negb (network_magic =? NETWORK_MAGIC_MAINNET) then Ok tt
  else if negb MAINNET_GENESIS_FINALIZED then
    Err (Invalid "mainnet genesis is not finalized: genesis ceremony not finalized; see docs/GENESIS_CEREMONY.md")
  else
    let? _ := validate_mainnet_genesis_hash GENESIS_HASH_MAINNET in
    let? mainnet_timestamp := genesis_timestamp_for_network_magic network_magic in
    if mainnet_timestamp =? GENESIS_TIMESTAMP_MAINNET_PLACEHOLDER then
      Err (Invalid "mainnet genesis is not finalized: GENESIS_TIMESTAMP_MAINNET is still the placeholder value")
    else Ok tt.

Definition startup_genesis_hash_for_network_magic (network_magic : Z)
  : Result Hash256 :=
  let? _ := ensure_network_genesis_ready network_magic in
  configured_genesis_hash_for_network_magic network_magic.

(** ** Heights, timestamps, amounts *)

Record BlockHeight : Type := { height_val : Z }.
Record Timestamp : Type := { time_val : Z }.
Record Amount : Type := { noms : Z }.

#[export] Instance BlockHeight_eq_dec : EqDecision BlockHeight.
Proof. solve_decision. Defined.
#[export] Instance Timestamp_eq_dec : EqDecision Timestamp.
Proof. solve_decision. Defined.
#[export] Instance Amount_eq_dec : EqDecision Amount.
Proof. solve_decision. Defined.

Definition GENESIS : BlockHeight := {| height_val := 0 |}.

Definition checked_next (h : BlockHeight) : option BlockHeight :=
  (λ v, {| height_val := v |}) <$> checked_add 64 (height_val h) 1.

Definition halving_epoch (h : BlockHeight) : Z := height_val h / HALVING_INTERVAL.

Definition timestamp_checked_sub (t other : Timestamp) : option Z :=
  checked_sub (time_val t) (time_val other).

Definition checked_add_secs (t : Timestamp) (secs : Z) : option Timestamp :=
  (λ v, {| time_val := v |}) <$> checked_add 64 (time_val t) secs.

Definition Amount_ZERO : Amount := {| noms := 0 |}.
Definition Amount_MAX : Amount := {| noms := MAX_SUPPLY_NOMS |}.

Definition is_valid_noms (n : Z) : bool := n <=? MAX_SUPPLY_NOMS.

Definition from_noms (n : Z) : Result Amount :=
  if negb (is_valid_noms n) then
    Err (Invalid ("amount " +:+ dec n +:+ " exceeds MAX_SUPPLY_NOMS")%string)
  else Ok {| noms := n |}.

Definition checked_add_noms (a b : Amount) : option Z :=
  match checked_add 64 (noms a) (noms b) with
  | Some sum => if is_valid_noms sum then Some sum else None
  | None => None
  end.

Definition checked_sub_noms (a b : Amount) : option Z :=
  checked_sub (noms a) (noms b).

Definition amount_checked_add (a b : Amount) : Result Amount :=
  match checked_add_noms a b with
  | Some sum => Ok {| noms := sum |}
  | None =>
      match checked_add 64 (noms a) (noms b) with
      | None => Err (Invalid "amount addition overflow")
      | Some sum =>
          Err (Invalid ("amount " +:+ dec sum +:+ " exceeds MAX_SUPPLY_NOMS")%string)
      end
  end.

Definition amount_checked_sub (a b : Amount) : Result Amount :=
  ok_or ((λ v, {| noms := v |}) <$> checked_sub_noms a b)
        (Invalid "amount subtraction underflow").

(** [BLOCK_REWARD_TABLE[idx]] would panic out of range; [epoch < 55] keeps it
    inside the 55-entry table. *)
Definition block_reward (height : BlockHeight) : Result Amount :=
  let epoch := halving_epoch height in
  if HALVING_EPOCHS <=? epoch then Ok Amount_ZERO
  else let? r := expect (BLOCK_REWARD_TABLE !! Z.to_nat epoch) in
       Ok {| noms := r |}.

(** ** Specifications *)

(** The reward rule documented for the table: 67% of the previous epoch. *)
Fixpoint reward_rule (epoch : nat) : Z :=
  match epoch with
  | O => INITIAL_BLOCK_REWARD
  | S e => reward_rule e * 67 / 100
  end.

(** The subsidy of a height, as a total function. *)
Definition reward_at (h : Z) : Z :=
  nth (Z.to_nat (h / HALVING_INTERVAL)) BLOCK_REWARD_TABLE 0.

(** The coins issued by the reward-bearing blocks 1..n of Mainnet. *)
Fixpoint issued (n : nat) : Result Z :=
  match n with
  | O => Ok 0
  | S n' =>
      let? t := issued n' in
      let? r := block_reward {| height_val := Z.of_nat n |} in
      Ok (t + noms r)
  end.

Definition amount_ok (a : Amount) : Prop := 0 ≤ noms a ≤ MAX_SUPPLY_NOMS.

Definition known_magic (m : Z) : Prop :=
  m = NETWORK_MAGIC_MAINNET ∨ m = NETWORK_MAGIC_TESTNET ∨ m = NETWORK_MAGIC_REGTEST.

Definition hash_ok (h : Hash256) : Prop :=
  bytes_ok (hash_bytes h) ∧ zlen (hash_bytes h) = 32.

(** ** Lemmas *)

Lemma MAX_SUPPLY_NOMS_val : MAX_SUPPLY_NOMS = 3299996676900000.
Proof. vm_compute. done. Qed.

Lemma MAX_SUPPLY_NOMS_u64 : u64_ok MAX_SUPPLY_NOMS.
Proof. rewrite MAX_SUPPLY_NOMS_val. unfold in_width. lia. Qed.

Lemma reward_table_length : length BLOCK_REWARD_TABLE = 55%nat.
Proof. done. Qed.

Lemma reward_at_nonneg h : 0 ≤ reward_at h.
Proof.
  unfold reward_at. generalize (Z.to_nat (h / HALVING_INTERVAL)) as k.
  intros k. do 55 (destruct k as [|k]; [vm_compute; discriminate|]).
  by rewrite nth_overflow by (rewrite reward_table_length; lia).
Qed.

Lemma reward_at_le h : reward_at h ≤ INITIAL_BLOCK_REWARD.
Proof.
  unfold reward_at. generalize (Z.to_nat (h / HALVING_INTERVAL)) as k.
  intros k. do 55 (destruct k as [|k]; [vm_compute; discriminate|]).
  by rewrite nth_overflow by (rewrite reward_table_length; lia).
Qed.

Lemma block_reward_eq h :
  0 ≤ height_val h → block_reward h = Ok {| noms := reward_at (height_val h) |}.
Proof.
  intros Hh. unfold block_reward, halving_epoch, reward_at.
  set (e := height_val h / HALVING_INTERVAL).
  assert (0 ≤ e) by (apply Z.div_pos; [done|reflexivity]).
  destruct (Z.leb_spec HALVING_EPOCHS e) as [He|He].
  - rewrite nth_overflow; [done|]. rewrite reward_table_length.
    unfold HALVING_EPOCHS in He. lia.
  - destruct (lookup_lt_is_Some_2 BLOCK_REWARD_TABLE (Z.to_nat e)) as [r Hr].
    { rewrite reward_table_length. unfold HALVING_EPOCHS in He. lia. }
    rewrite Hr. cbn [expect rbind]. do 2 f_equal. symmetry.
    by apply nth_lookup_Some.
Qed.

(** Prefix sums of the reward table. *)
Definition epoch_sum (e : nat) : Z := foldr Z.add 0 (take e BLOCK_REWARD_TABLE).

Lemma foldr_add_app l1 l2 :
  foldr Z.add 0 (l1 ++ l2) = foldr Z.add 0 l1 + foldr Z.add 0 l2.
Proof. induction l1; simpl; lia. Qed.

Lemma epoch_sum_S e :
  epoch_sum (S e) = epoch_sum e + nth e BLOCK_REWARD_TABLE 0.
Proof.
  unfold epoch_sum. destruct (decide (e < 55)%nat) as [He|He].
  - rewrite (take_S_r _ e (nth e BLOCK_REWARD_TABLE 0)).
    + rewrite foldr_add_app. simpl. lia.
    + destruct (lookup_lt_is_Some_2 BLOCK_REWARD_TABLE e) as [r Hr]; [done|].
      rewrite Hr. f_equal. symmetry. by apply nth_lookup_Some.
  - rewrite nth_overflow, !take_ge by (rewrite reward_table_length; lia). lia.
Qed.

Lemma epoch_sum_le e : epoch_sum e ≤ epoch_sum 55.
Proof.
  unfold epoch_sum.
  do 56 (destruct e as [|e]; [vm_compute; discriminate|]).
  rewrite !take_ge by (rewrite reward_table_length; lia). done.
Qed.

Lemma epoch_sum_ge e : (54 ≤ e)%nat → epoch_sum e = epoch_sum 55.
Proof.
  intros He. destruct (decide (e = 54)%nat) as [->|]; [done|].
  unfold epoch_sum. rewrite !take_ge by (rewrite reward_table_length; lia). done.
Qed.

(** Issuance up to height [n] in closed form. *)
Definition issued_closed (n : Z) : Z :=
  HALVING_INTERVAL * epoch_sum (Z.to_nat (n / HALVING_INTERVAL))
  + reward_at n * (n mod HALVING_INTERVAL + 1) - INITIAL_BLOCK_REWARD.

Lemma issued_closed_step n :
  0 ≤ n → issued_closed (n + 1) = issued_closed n + reward_at (n + 1).
Proof.
  intros Hn. unfold issued_closed, reward_at.
  assert (Hi : HALVING_INTERVAL = 330000) by done. rewrite Hi.
  pose proof (Z.div_mod n 330000 ltac:(lia)).
  pose proof (Z.mod_pos_bound n 330000 ltac:(lia)).
  assert (0 ≤ n / 330000) by (apply Z.div_pos; lia).
  destruct (decide (n mod 330000 = 329999)) as [Hm|Hm].
  - assert (Hd : (n + 1) / 330000 = n / 330000 + 1)
      by (symmetry; apply Z.div_unique with 0; lia).
    assert (Hr : (n + 1) mod 330000 = 0)
      by (symmetry; apply Z.mod_unique with (n / 330000 + 1); lia).
    rewrite Hd, Hr, Hm, (Z2Nat.inj_add _ 1), Nat.add_1_r by lia.
    rewrite epoch_sum_S. lia.
  - assert (Hd : (n + 1) / 330000 = n / 330000)
      by (symmetry; apply Z.div_unique with (n mod 330000 + 1); lia).
    assert (Hr : (n + 1) mod 330000 = n mod 330000 + 1)
      by (symmetry; apply Z.mod_unique with (n / 330000); lia).
    rewrite Hd, Hr. lia.
Qed.

Lemma issued_eq n : issued n = Ok (issued_closed (Z.of_nat n)).
Proof.
  induction n as [|n IH]; [vm_compute; done|].
  cbn [issued]. rewrite IH. cbn [rbind].
  rewrite block_reward_eq by (cbn; lia). cbn [rbind noms height_val].
  rewrite Nat2Z.inj_succ, <- Z.add_1_r, issued_closed_step by lia. done.
Qed.

Lemma issued_closed_bound n :
  0 ≤ n → issued_closed n ≤ HALVING_INTERVAL * epoch_sum 55 - INITIAL_BLOCK_REWARD.
Proof.
  intros Hn. unfold issued_closed.
  pose proof (reward_at_nonneg n). pose proof (Z.mod_pos_bound n HALVING_INTERVAL eq_refl).
  pose proof (epoch_sum_le (S (Z.to_nat (n / HALVING_INTERVAL)))) as Hle.
  rewrite epoch_sum_S in Hle. fold (reward_at n) in Hle.
  assert (0 < HALVING_INTERVAL) by done. nia.
Qed.

Lemma is_valid_noms_spec n : is_valid_noms n = true ↔ n ≤ MAX_SUPPLY_NOMS.
Proof. apply Z.leb_le. Qed.

Lemma reward_at_amount_ok h : amount_ok {| noms := reward_at h |}.
Proof.
  split; [apply reward_at_nonneg|]. rewrite MAX_SUPPLY_NOMS_val.
  pose proof (reward_at_le h). unfold INITIAL_BLOCK_REWARD, COIN_UNIT in *.
  cbn [noms]. lia.
Qed.

Lemma Hash256_ZERO_ok : hash_ok Hash256_ZERO.
Proof. split; [apply bytes_ok_replicate; unfold in_width; lia|done]. Qed.
#[export] Hint Resolve Hash256_ZERO_ok reward_at_amount_ok : dom.

(** ** Properties *)


(** every entry of the reward table is the documented rule (33 DOM, then 67%
    of the previous epoch rounded down), and every height is paid its epoch's
    entry, which the rule keeps at zero past the table. *)
Theorem block_reward_rule (h : Z) (Hh : 0 ≤ h) :
  block_reward {| height_val := h |}
  = Ok {| noms := reward_rule (Z.to_nat (h / HALVING_INTERVAL)) |}.
Proof.
  rewrite block_reward_eq by done. cbn [height_val]. unfold reward_at.
  set (k := Z.to_nat (h / HALVING_INTERVAL)). clearbody k.
  assert (Hz : ∀ j, reward_rule (54 + j) = 0).
  { induction j as [|j IH]; [vm_compute; done|].
    rewrite Nat.add_succ_r. cbn [reward_rule]. by rewrite IH. }
  destruct (decide (k < 55)%nat) as [Hk|Hk].
  - do 55 (destruct k as [|k]; [vm_compute; done|]). lia.
  - rewrite nth_overflow by (rewrite reward_table_length; lia).
    replace k with (54 + (k - 54))%nat by lia. by rewrite Hz.
Qed.

Lemma block_reward_rule_witness :
  block_reward {| height_val := 330000 |} = Ok {| noms := 2211000000 |}.
Proof. apply (block_reward_rule 330000). lia. Defined.

(** a network starts only under a known magic, and no two networks start
    from the same genesis hash. *)
Theorem startup_identity_injective (m1 m2 : Z) (h : Hash256) :
  startup_genesis_hash_for_network_magic m1 = Ok h →
  startup_genesis_hash_for_network_magic m2 = Ok h →
  m1 = m2 ∧ known_magic m1 ∧ hash_ok h ∧ h ≠ Hash256_ZERO.
Proof.
  assert (Hcase : ∀ m, startup_genesis_hash_for_network_magic m = Ok h →
    (m = NETWORK_MAGIC_MAINNET ∧ h = {| hash_bytes := GENESIS_HASH_MAINNET |}) ∨
    (m = NETWORK_MAGIC_TESTNET ∧ h = {| hash_bytes := GENESIS_HASH_TESTNET |}) ∨
    (m = NETWORK_MAGIC_REGTEST ∧ h = {| hash_bytes := GENESIS_HASH_REGTEST |})).
  { intros m Hm. unfold startup_genesis_hash_for_network_magic in Hm.
    apply rbind_Ok in Hm as ([] & _ & Hm).
    unfold configured_genesis_hash_for_network_magic in Hm.
    apply rbind_Ok in Hm as (b & Hb & Hh). injection Hh as <-.
    repeat (case_match; [bool_inv; subst; injection Hb as <-; tauto|]). done. }
  assert (Hwf : ∀ l, forallb (λ b, (0 <=? b) && (b <? 256)) l = true →
                     zlen l = 32 → hash_ok {| hash_bytes := l |}).
  { intros l Hl ?. split; [|done]. apply Forall_forall. intros x Hx.
    rewrite forallb_forall in Hl. specialize (Hl x (proj1 (list_elem_of_In _ _) Hx)).
    bool_inv. unfold in_width. lia. }
  intros H1 H2. unfold known_magic.
  destruct (Hcase m1 H1) as [[-> ->]|[[-> ->]|[-> ->]]];
    destruct (Hcase m2 H2) as [[-> ?]|[[-> ?]|[-> ?]]]; simplify_eq;
    split_and!; auto; try done; by apply Hwf.
Qed.

Lemma startup_identity_injective_witness :
  NETWORK_MAGIC_MAINNET = NETWORK_MAGIC_MAINNET ∧ known_magic NETWORK_MAGIC_MAINNET
  ∧ hash_ok {| hash_bytes := GENESIS_HASH_MAINNET |}
  ∧ {| hash_bytes := GENESIS_HASH_MAINNET |} ≠ Hash256_ZERO.
Proof.
  apply (startup_identity_injective NETWORK_MAGIC_MAINNET NETWORK_MAGIC_MAINNET);
    vm_compute; reflexivity.
Defined.

(** Checked amount arithmetic stays below the supply ceiling and fails closed. *)
Lemma amount_checked_add_spec a b :
  amount_ok a → amount_ok b →
  amount_checked_add a b =
  if noms a + noms b <=? MAX_SUPPLY_NOMS then Ok {| noms := noms a + noms b |}
  else Err (Invalid ("amount " +:+ dec (noms a + noms b) +:+ " exceeds MAX_SUPPLY_NOMS")%string).
Proof.
  intros [Ha1 Ha2] [Hb1 Hb2]. rewrite MAX_SUPPLY_NOMS_val in *.
  unfold amount_checked_add, checked_add_noms.
  destruct (checked_add 64 (noms a) (noms b)) as [s|] eqn:Hs.
  - apply checked_add_Some in Hs as [-> _]. unfold is_valid_noms.
    rewrite MAX_SUPPLY_NOMS_val. by destruct (_ <=? _).
  - apply checked_add_None in Hs. lia.
Qed.

Lemma amount_checked_add_ok a b c :
  amount_ok a → amount_ok b → amount_checked_add a b = Ok c → amount_ok c.
Proof.
  intros Ha Hb. rewrite amount_checked_add_spec by done.
  destruct (Z.leb_spec (noms a + noms b) MAX_SUPPLY_NOMS); [|done].
  intros [= <-]. destruct Ha, Hb. split; simpl; lia.
Qed.

Lemma amount_checked_sub_ok a b c :
  amount_ok a → amount_ok b → amount_checked_sub a b = Ok c →
  amount_ok c ∧ noms c = noms a - noms b.
Proof.
  intros [? ?] [? ?]. unfold amount_checked_sub, checked_sub_noms. intros Hs.
  apply ok_or_Ok, fmap_Some in Hs as (v & Hv & ->).
  apply checked_sub_Some in Hv as [-> ?]. unfold amount_ok. simpl. lia.
Qed.

Lemma from_noms_Ok n a : from_noms n = Ok a ↔ a = {| noms := n |} ∧ n ≤ MAX_SUPPLY_NOMS.
Proof.
  unfold from_noms. destruct (is_valid_noms n) eqn:Hn; simpl.
  - apply is_valid_noms_spec in Hn. naive_solver.
  - split; [done|]. intros [_ Hle]. apply is_valid_noms_spec in Hle. congruence.
Qed.
