(* ===== verification/FeePolicy.v ===== *)
(** * Transaction fee policy ([crates/dom-core/src/fee_policy.rs])

    Checked weight and minimum-fee computation shared by relay, the mempool and
    the wallet. *)

From Stdlib Require Import ZArith Lia.
From stdpp Require Import base list strings.
From S2P Require Import Prelude CoreError Core.

Definition FEE_POLICY_VERSION : Z := 1.
Definition RECOMMENDED_FEE_MULTIPLIER : Z := 2.
Definition DUST_THRESHOLD_NOMS : Z := 0.

Record FeeRate : Type := { noms_per_weight_unit : Z }.

Definition minimum_relay : FeeRate :=
  {| noms_per_weight_unit := MIN_RELAY_FEE_RATE |}.

Definition recommended : Result FeeRate :=
  let? r := ok_or (checked_mul 64 MIN_RELAY_FEE_RATE RECOMMENDED_FEE_MULTIPLIER)
                  (Internal "recommended fee rate overflow") in
  Ok {| noms_per_weight_unit := r |}.

Record TransactionShape : Type := {
  input_count : Z;
  output_count : Z;
  kernel_count : Z;
}.

Definition counts_within_limits (inputs outputs kernels : Z) : bool :=
  (inputs <=? MAX_INPUTS_PER_TX) && (outputs <=? MAX_OUTPUTS_PER_TX)
  && (kernels <=? MAX_KERNELS_PER_TX).

(** [usize::try_into::<u32>] *)
Definition to_u32 (v : Z) (msg : string) : Result Z :=
  if v <=? u32_max then Ok v else Err (Internal msg).

Definition from_counts (inputs outputs kernels : Z) : Result TransactionShape :=
  if negb (counts_within_limits inputs outputs kernels)
     && (MAX_INPUTS_PER_TX <? inputs) then
    Err (Invalid ("too many inputs for fee policy: " +:+ dec inputs +:+ " > "
                  +:+ dec MAX_INPUTS_PER_TX)%string)
  else if negb (counts_within_limits inputs outputs kernels)
          && (MAX_OUTPUTS_PER_TX <? outputs) then
    Err (Invalid ("too many outputs for fee policy: " +:+ dec outputs +:+ " > "
                  +:+ dec MAX_OUTPUTS_PER_TX)%string)
  else if negb (counts_within_limits inputs outputs kernels)
          && (MAX_KERNELS_PER_TX <? kernels) then
    Err (Invalid ("too many kernels for fee policy: " +:+ dec kernels +:+ " > "
                  +:+ dec MAX_KERNELS_PER_TX)%string)
  else
    let? i := to_u32 inputs "input count conversion overflow" in
    let? o := to_u32 outputs "output count conversion overflow" in
    let? k := to_u32 kernels "kernel count conversion overflow" in
    Ok {| input_count := i; output_count := o; kernel_count := k |}.

Record TransactionWeight : Type := {
  input_weight : Z;
  output_weight : Z;
  kernel_weight : Z;
  total_weight : Z;
}.

Record FeeBreakdown : Type := {
  fb_shape : TransactionShape;
  fb_weight : TransactionWeight;
  minimum_fee_noms : Z;
  recommended_fee_noms : Z;
  minimum_fee_rate : FeeRate;
  recommended_fee_rate : FeeRate;
  policy_version : Z;
  dust_threshold_noms : Z;
}.

Definition transaction_weight (shape : TransactionShape) : Result TransactionWeight :=
  let? iw := ok_or (checked_mul 64 (input_count shape) WEIGHT_INPUT)
                   (Internal "input weight overflow") in
  let? ow := ok_or (checked_mul 64 (output_count shape) WEIGHT_OUTPUT)
                   (Internal "output weight overflow") in
  let? kw := ok_or (checked_mul 64 (kernel_count shape) WEIGHT_KERNEL)
                   (Internal "kernel weight overflow") in
  let? partial := ok_or (checked_add 64 iw ow) (Internal "transaction weight overflow") in
  let? total := ok_or (checked_add 64 partial kw) (Internal "transaction weight overflow") in
  Ok {| input_weight := iw; output_weight := ow; kernel_weight := kw;
        total_weight := total |}.

Definition minimum_fee_for_weight (weight : Z) (fee_rate : FeeRate) : Result Z :=
  ok_or (checked_mul 64 weight (noms_per_weight_unit fee_rate))
        (Internal "minimum fee overflow").

Definition fee_breakdown (shape : TransactionShape) : Result FeeBreakdown :=
  let? weight := transaction_weight shape in
  let minimum_fee_rate := minimum_relay in
  let? recommended_fee_rate := recommended in
  let? minimum_fee_noms :=
    minimum_fee_for_weight (total_weight weight) minimum_fee_rate in
  let? recommended_fee_noms :=
    minimum_fee_for_weight (total_weight weight) recommended_fee_rate in
  Ok {| fb_shape := shape; fb_weight := weight;
        minimum_fee_noms := minimum_fee_noms;
        recommended_fee_noms := recommended_fee_noms;
        minimum_fee_rate := minimum_fee_rate;
        recommended_fee_rate := recommended_fee_rate;
        policy_version := FEE_POLICY_VERSION;
        dust_threshold_noms := DUST_THRESHOLD_NOMS |}.

Definition actual_fee_rate (fee_noms weight : Z) : Result FeeRate :=
  if weight =? 0 then Ok {| noms_per_weight_unit := 0 |}
  else Ok {| noms_per_weight_unit := fee_noms / weight |}.

Definition validate_minimum_fee (fee_noms : Z) (shape : TransactionShape)
  : Result FeeBreakdown :=
  let? breakdown := fee_breakdown shape in
  if fee_noms <? minimum_fee_noms breakdown then
    Err (PolicyRejected ("fee " +:+ dec fee_noms +:+ " < minimum relay fee "
                         +:+ dec (minimum_fee_noms breakdown))%string)
  else Ok breakdown.

Definition total_weight_u32 (shape : TransactionShape) : Result Z :=
  let? weight := transaction_weight shape in
  if MAX_TX_WEIGHT <? total_weight weight then
    Err (Invalid ("tx weight " +:+ dec (total_weight weight) +:+ " > MAX_TX_WEIGHT "
                  +:+ dec MAX_TX_WEIGHT)%string)
  else to_u32 (total_weight weight) "transaction weight conversion overflow".

(** ** Specification *)

Definition shape_ok (s : TransactionShape) : Prop :=
  u32_ok (input_count s) ∧ u32_ok (output_count s) ∧ u32_ok (kernel_count s).

Definition weight_of (i o k : Z) : Z := i + 21 * o + 3 * k.

Definition shape_weight (s : TransactionShape) : Z :=
  weight_of (input_count s) (output_count s) (kernel_count s).

(** ** Lemmas *)

Lemma transaction_weight_eq s :
  shape_ok s →
  transaction_weight s =
  Ok {| input_weight := input_count s; output_weight := 21 * output_count s;
        kernel_weight := 3 * kernel_count s; total_weight := shape_weight s |}.
Proof.
  intros (Hi & Ho & Hk). unfold in_width in *.
  unfold transaction_weight, checked_mul, checked_add, WEIGHT_INPUT, WEIGHT_OUTPUT,
    WEIGHT_KERNEL, shape_weight, weight_of.
  repeat (match goal with
          | |- context [?a <? ?b] => rewrite (proj2 (Z.ltb_lt a b)) by lia
          end; cbn [ok_or rbind]).
  f_equal. f_equal; lia.
Qed.

Lemma from_counts_Ok i o k s :
  0 ≤ i → 0 ≤ o → 0 ≤ k →
  from_counts i o k = Ok s ↔
  s = {| input_count := i; output_count := o; kernel_count := k |}
  ∧ i ≤ MAX_INPUTS_PER_TX ∧ o ≤ MAX_OUTPUTS_PER_TX ∧ k ≤ MAX_KERNELS_PER_TX.
Proof.
  intros Hi Ho Hk. unfold from_counts, counts_within_limits, to_u32, u32_max.
  rewrite !Z.ltb_antisym.
  destruct (Z.leb_spec i MAX_INPUTS_PER_TX) as [Hi'|];
    [|split; [discriminate|lia]].
  destruct (Z.leb_spec o MAX_OUTPUTS_PER_TX) as [Ho'|];
    [|split; [discriminate|lia]].
  destruct (Z.leb_spec k MAX_KERNELS_PER_TX) as [Hk'|];
    [|split; [discriminate|lia]].
  cbn [negb andb].
  rewrite !(proj2 (Z.leb_le _ (2 ^ 32 - 1)))
    by (unfold MAX_INPUTS_PER_TX, MAX_OUTPUTS_PER_TX, MAX_KERNELS_PER_TX in *; lia).
  cbn [rbind]. split; [intros [= <-]; auto|intros [-> _]; done].
Qed.

Lemma from_counts_shape_ok i o k s :
  0 ≤ i → 0 ≤ o → 0 ≤ k → from_counts i o k = Ok s →
  shape_ok s ∧ shape_weight s = weight_of i o k.
Proof.
  intros ??? (-> & ? & ? & ?)%from_counts_Ok; [|done..].
  unfold shape_ok, in_width, MAX_INPUTS_PER_TX, MAX_OUTPUTS_PER_TX,
    MAX_KERNELS_PER_TX in *. cbn. split; [lia|done].
Qed.

Lemma fee_breakdown_eq s :
  shape_ok s →
  ∃ b, fee_breakdown s = Ok b ∧ minimum_fee_noms b = 1000 * shape_weight s
       ∧ recommended_fee_noms b = 2 * minimum_fee_noms b
       ∧ total_weight (fb_weight b) = shape_weight s.
Proof.
  intros Hs. unfold fee_breakdown. rewrite transaction_weight_eq by done.
  assert (0 ≤ shape_weight s < 2 ^ 38).
  { destruct Hs as (? & ? & ?). unfold in_width, shape_weight, weight_of in *. lia. }
  cbn [rbind]. unfold minimum_fee_for_weight, recommended, minimum_relay, checked_mul,
    RECOMMENDED_FEE_MULTIPLIER, MIN_RELAY_FEE_RATE. cbn -[Z.mul Z.ltb].
  do 3 (rewrite (proj2 (Z.ltb_lt _ _)) by lia; cbn -[Z.mul Z.ltb]).
  eexists. split; [reflexivity|]. cbn -[Z.mul]. lia.
Qed.

Lemma validate_minimum_fee_Ok fee s :
  shape_ok s →
  (∃ b, validate_minimum_fee fee s = Ok b) ↔ 1000 * shape_weight s ≤ fee.
Proof.
  intros (b & Hb & Hm & _)%fee_breakdown_eq.
  unfold validate_minimum_fee. rewrite Hb. cbn [rbind]. rewrite Hm.
  destruct (Z.ltb_spec fee (1000 * shape_weight s)); split; intros; try lia; eauto.
  by destruct_and?; destruct H0.
Qed.

(** ** Properties *)

(** for every shape the count limits admit, the fee check never fails
    internally, and it accepts exactly the fees whose reported rate
    (noms per weight unit, rounded down) reaches the relay minimum. *)
Theorem minimum_fee_iff_rate (i o k fee : Z) (s : TransactionShape) (r : FeeRate) :
  0 ≤ i → 0 ≤ o → 0 < k → 0 ≤ fee →
  from_counts i o k = Ok s →
  actual_fee_rate fee (weight_of i o k) = Ok r →
  (∃ b, fee_breakdown s = Ok b) ∧
  ((∃ b, validate_minimum_fee fee s = Ok b)
   ↔ MIN_RELAY_FEE_RATE ≤ noms_per_weight_unit r).
Proof.
  intros Hi Ho Hk Hfee Hs Hr.
  destruct (from_counts_shape_ok i o k s) as [Hok Hw]; [lia..|done|].
  split. { destruct (fee_breakdown_eq s Hok) as (b & ? & _). eauto. }
  rewrite validate_minimum_fee_Ok, Hw by done.
  assert (0 < weight_of i o k) by (unfold weight_of; lia).
  unfold actual_fee_rate in Hr. case_match; bool_inv; [lia|].
  injection Hr as <-. cbn [noms_per_weight_unit]. unfold MIN_RELAY_FEE_RATE.
  split; intros Hle.
  - apply Z.div_le_lower_bound; lia.
  - pose proof (Z.mul_div_le fee (weight_of i o k)). nia.
Qed.

Lemma minimum_fee_iff_rate_witness :
  (∃ b, fee_breakdown {| input_count := 1; output_count := 2; kernel_count := 1 |} = Ok b)
  ∧ ((∃ b, validate_minimum_fee 46000
             {| input_count := 1; output_count := 2; kernel_count := 1 |} = Ok b)
     ↔ MIN_RELAY_FEE_RATE ≤ noms_per_weight_unit {| noms_per_weight_unit := 1000 |}).
Proof. apply (minimum_fee_iff_rate 1 2 1); try lia; vm_compute; reflexivity. Defined.
