(* ===== verification/Address.v ===== *)
(** * Addresses

    [dom-core/src/address.rs]: the Wallet V3 address payload and its Bech32m text.  Strings are
    their UTF-8 bytes.  [str::to_lowercase] follows the Unicode tables; it is the parameter
    [to_lowercase], of which only its documented effect on ASCII text is assumed. *)

From Stdlib Require Import ZArith Lia.
From stdpp Require Import base list strings.
From S2P Require Import Prelude CoreError Core.
Local Open Scope string_scope.
Local Open Scope list_scope.
Local Open Scope Z_scope.

Definition ADDRESS_HRP_MAINNET : bytes := str_bytes "dom".
Definition ADDRESS_HRP_TESTNET : bytes := str_bytes "tdom".
Definition ADDRESS_HRP_REGTEST : bytes := str_bytes "rdom".
Definition ADDRESS_PAYLOAD_VERSION_V3 : Z := 1.
Definition ADDRESS_TYPE_STANDARD : Z := 0.
Definition ADDRESS_KEY_TYPE_SECP256K1_COMPRESSED : Z := 0.
Definition ADDRESS_V3_PAYLOAD_LEN : Z := 1 + 1 + 1 + 4 + 33.
Definition MAX_ADDRESS_LEN : Z := 90.
Definition BECH32M_CONST : Z := 0x2bc830a3.
Definition CHARSET : bytes := str_bytes "qpzry9x8gf2tvdw0s3jn54khce6mua7l".
Definition CHARSET_REV : bytes :=
  foldl (λ rev i, <[Z.to_nat (nth i CHARSET 0) := Z.of_nat i]> rev) (replicate 128 0xFF) (seq 0 32).

(** ** Bech32m *)

(** [a.wrapping_shl(k)] on [u32] *)
Definition wrapping_shl (a k : Z) : Z := Z.shiftl a (k mod 32) mod 2 ^ 32.

Definition GEN : list (Z * Z) :=
  [(0, 0x3b6a57b2); (1, 0x26508e6d); (2, 0x1ea119fa); (3, 0x3d4233dd); (4, 0x2a1462b3)].
Definition polymod_gen (b chk : Z) (ig : Z * Z) : Z :=
  if Z.land (Z.shiftr b ig.1) 1 =? 1 then Z.lxor chk ig.2 else chk.
Definition polymod_step (chk v : Z) : Z :=
  let b := Z.land (Z.shiftr chk 25) 0xFF in
  foldl (polymod_gen b) (Z.lxor (wrapping_shl (Z.land chk 0x1ffffff) 5) v) GEN.
Definition polymod (values : bytes) : Z := foldl polymod_step 1 values.

Definition hrp_expand (hrp : bytes) : bytes :=
  ((λ c, Z.shiftr c 5) <$> hrp) ++ [0] ++ ((λ c, Z.land c 31) <$> hrp).

(** [while bits >= 5 { bits -= 5; out.push((acc >> bits) & 31) }]; [bits] bounds its rounds *)
Fixpoint emit5 (fuel : nat) (acc bits : Z) (out : bytes) : Z * bytes :=
  match fuel with
  | O => (bits, out)
  | S n => if bits <? 5 then (bits, out)
           else emit5 n acc (bits - 5) (out ++ [Z.land (Z.shiftr acc (bits - 5)) 31])
  end.
Definition to_5bit_step (s : Z * Z * bytes) (b : Z) : Z * Z * bytes :=
  let '(acc, bits, out) := s in
  let acc := Z.lor (wrapping_shl acc 8) b in
  let '(bits, out) := emit5 (Z.to_nat (bits + 8)) acc (bits + 8) out in
  (acc, bits, out).
Definition to_5bit (data : bytes) : bytes :=
  let '(acc, bits, out) := foldl to_5bit_step (0, 0, []) data in
  if 0 <? bits then out ++ [Z.land (wrapping_shl acc (5 - bits)) 31] else out.

Definition from_5bit_step (s : Z * Z * bytes) (b : Z) : Result (Z * Z * bytes) :=
  let '(acc, bits, out) := s in
  if 32 <=? b then Err (Malformed "invalid 5-bit value")
  else
    let acc := Z.lor (wrapping_shl acc 5) b in
    let bits := bits + 5 in
    if 8 <=? bits then Ok (acc, bits - 8, out ++ [Z.shiftr acc (bits - 8) mod 2 ^ 8])
    else Ok (acc, bits, out).
Definition from_5bit (data : bytes) : Result bytes :=
  let? (acc, bits, out) := try_fold from_5bit_step (0, 0, []) data in
  let mask := Z.shiftl 1 bits - 1 in
  if (5 <=? bits) || negb (Z.land acc mask =? 0) then Err (Malformed "invalid bech32 padding")
  else Ok out.

Definition checksum_digit (checksum i : Z) : Z := Z.land (Z.shiftr checksum (5 * (5 - i))) 31.
Definition charset_at (v : Z) : Z := nth (Z.to_nat v) CHARSET 0.

Definition bech32m_encode (hrp data : bytes) : bytes :=
  let data5 := to_5bit data in
  let checksum := Z.lxor (polymod (hrp_expand hrp ++ data5 ++ replicate 6 0)) BECH32M_CONST in
  hrp ++ [49] ++ (charset_at <$> data5)
    ++ (charset_at <$> (checksum_digit checksum <$> [0; 1; 2; 3; 4; 5])).

(** [s.rfind('1')] *)
Fixpoint rfind (c : Z) (s : bytes) : option nat :=
  match s with
  | [] => None
  | x :: t => match rfind c t with
              | Some i => Some (S i)
              | None => if x =? c then Some O else None
              end
  end.

Definition charset_value (c : Z) : Result Z :=
  if 128 <=? c then Err (Malformed "non-ASCII in address")
  else
    let v := nth (Z.to_nat c) CHARSET_REV 0xFF in
    if v =? 0xFF then
      Err (Malformed ("invalid character " +:+ String (Ascii.ascii_of_N (Z.to_N c)) EmptyString
                      +:+ " in address"))
    else Ok v.

Definition bech32m_decode (s : bytes) : Result (bytes * bytes) :=
  let? sep := ok_or (rfind 49 s) (Malformed "no separator in address") in
  if Nat.eqb sep 0 then Err (Malformed "empty HRP")
  else if zlen s - Z.of_nat sep - 1 <? 6 then Err (Malformed "address too short for checksum")
  else
    let hrp := take sep s in
    let data_str := drop (S sep) s in
    let? values := try_map charset_value data_str in
    if negb (polymod (hrp_expand hrp ++ values) =? BECH32M_CONST) then
      Err (Malformed "invalid bech32m checksum")
    else
      let? payload := from_5bit (take (length values - 6) values) in
      Ok (hrp, payload).

(** ** Addresses *)

Record Address : Type := {
  addr_payload : bytes;
  addr_is_mainnet : bool;
  addr_version : Z;
  addr_type : Z;
  addr_key_type : Z;
  addr_network_magic : Z;
}.
#[export] Instance Address_eq_dec : EqDecision Address.
Proof. solve_decision. Defined.

Definition hrp_for_network_magic (network_magic : Z) : option bytes :=
  if network_magic =? NETWORK_MAGIC_MAINNET then Some ADDRESS_HRP_MAINNET
  else if network_magic =? NETWORK_MAGIC_TESTNET then Some ADDRESS_HRP_TESTNET
  else if network_magic =? NETWORK_MAGIC_REGTEST then Some ADDRESS_HRP_REGTEST
  else None.

Definition validate_compressed_public_key (key : bytes) : Result unit :=
  let other := nth 0 key 0 in
  if (other =? 0x02) || (other =? 0x03) then Ok tt
  else Err (Malformed ("address key is not a compressed secp256k1 public key: prefix 0x"
                       +:+ hex_byte other)).

Definition new_for_network (payload : bytes) (network_magic : Z) : Result Address :=
  let? _ := validate_compressed_public_key payload in
  match hrp_for_network_magic network_magic with
  | None => Err (Malformed ("unsupported address network magic 0x" +:+ hex_u32 network_magic))
  | Some _ =>
      Ok {| addr_payload := payload; addr_is_mainnet := network_magic =? NETWORK_MAGIC_MAINNET;
            addr_version := ADDRESS_PAYLOAD_VERSION_V3; addr_type := ADDRESS_TYPE_STANDARD;
            addr_key_type := ADDRESS_KEY_TYPE_SECP256K1_COMPRESSED;
            addr_network_magic := network_magic |}
  end.

(** [Address::new], whose [expect] also covers the key prefix *)
Definition address_new (payload : bytes) (is_mainnet : bool) : Result Address :=
  match new_for_network payload (if is_mainnet then NETWORK_MAGIC_MAINNET else NETWORK_MAGIC_TESTNET) with
  | Ok a => Ok a
  | _ => Panic
  end.

Definition to_payload_bytes (a : Address) : bytes :=
  [addr_version a; addr_type a; addr_key_type a] ++ le_bytes 4 (addr_network_magic a) ++ addr_payload a.

Definition address_encode (a : Address) : Result bytes :=
  let? hrp := expect (hrp_for_network_magic (addr_network_magic a)) in
  Ok (bech32m_encode hrp (to_payload_bytes a)).

Definition address_hrp (a : Address) : bytes :=
  if addr_is_mainnet a then ADDRESS_HRP_MAINNET
  else if addr_network_magic a =? NETWORK_MAGIC_REGTEST then ADDRESS_HRP_REGTEST
  else ADDRESS_HRP_TESTNET.

Definition validate_for_network (a : Address) (expected_network_magic : Z) : Result unit :=
  if negb (addr_network_magic a =? expected_network_magic) then
    Err (Malformed "address network does not match expected network")
  else validate_compressed_public_key (addr_payload a).

Definition is_ascii_lowercase (b : Z) : bool := (97 <=? b) && (b <=? 122).
Definition is_ascii_uppercase (b : Z) : bool := (65 <=? b) && (b <=? 90).
Definition ascii_lower (b : Z) : Z := if is_ascii_uppercase b then b + 32 else b.

(** [str::to_lowercase]: on ASCII text it maps each letter to its lower case *)
Class ToLowercase : Type := {
  to_lowercase : bytes → bytes;
  to_lowercase_ascii s : Forall (λ b, 0 ≤ b < 128) s → to_lowercase s = ascii_lower <$> s;
}.

(** The [match] on the human-readable part inside [decode] *)
Definition network_magic_of_hrp (hrp : bytes) : Result Z :=
  if bool_decide (hrp = ADDRESS_HRP_MAINNET) then Ok NETWORK_MAGIC_MAINNET
  else if bool_decide (hrp = ADDRESS_HRP_TESTNET) then Ok NETWORK_MAGIC_TESTNET
  else if bool_decide (hrp = ADDRESS_HRP_REGTEST) then Ok NETWORK_MAGIC_REGTEST
  else Err (Malformed ("unknown address HRP: " +:+ bytes_str hrp)).

Section decode.
Context `{HT : ToLowercase}.

Definition address_decode (s : bytes) : Result Address :=
  if MAX_ADDRESS_LEN <? zlen s then Err (Malformed "address too long")
  else if existsb is_ascii_lowercase s && existsb is_ascii_uppercase s then
    Err (Malformed "mixed-case bech32m address is not allowed")
  else
    let? (hrp, payload) := bech32m_decode (to_lowercase s) in
    if negb (zlen payload =? ADDRESS_V3_PAYLOAD_LEN) then
      Err (Malformed ("address payload must be " +:+ dec ADDRESS_V3_PAYLOAD_LEN +:+ " bytes, got "
                      +:+ dec (zlen payload)))
    else
      let? hrp_network_magic := network_magic_of_hrp hrp in
      let version := nth 0 payload 0 in
      if negb (version =? ADDRESS_PAYLOAD_VERSION_V3) then
        Err (Malformed ("unsupported address payload version " +:+ dec version))
      else
        let address_type := nth 1 payload 0 in
        if negb (address_type =? ADDRESS_TYPE_STANDARD) then
          Err (Malformed ("unsupported address type " +:+ dec address_type))
        else
          let key_type := nth 2 payload 0 in
          if negb (key_type =? ADDRESS_KEY_TYPE_SECP256K1_COMPRESSED) then
            Err (Malformed ("unsupported address key type " +:+ dec key_type))
          else
            let network_magic := le_val (slice payload 3 7) in
            if negb (network_magic =? hrp_network_magic) then
              Err (Malformed "address HRP does not match payload network magic")
            else
              let arr := slice payload 7 40 in
              let? _ := validate_compressed_public_key arr in
              Ok {| addr_payload := arr; addr_is_mainnet := network_magic =? NETWORK_MAGIC_MAINNET;
                    addr_version := version; addr_type := address_type; addr_key_type := key_type;
                    addr_network_magic := network_magic |}.
End decode.
