(* ===== verification/AddressLaws.v ===== *)
(** * Laws of addresses

    Bech32m in [Address.v]: regrouping of bits, the checksum as a linear code over the
    five-bit digits, and the exactness of [Address::decode] against [Address::encode]. *)

From Stdlib Require Import ZArith Lia Btauto.
From stdpp Require Import base list strings.
From S2P Require Import Prelude CoreError Core Address.
Local Open Scope Z_scope.

(** ** Bits, most significant first *)

Fixpoint bits_be (n : nat) (v : Z) : list bool :=
  match n with
  | O => []
  | S m => Z.testbit v (Z.of_nat m) :: bits_be m v
  end.
Definition flat (w : nat) (l : bytes) : list bool := mjoin (bits_be w <$> l).
Definition digits_ok (l : bytes) : Prop := Forall (in_width 5) l.

Lemma length_bits_be n v : length (bits_be n v) = n.
Proof. induction n; simpl; auto. Qed.

Lemma bits_be_ext n v v' :
  (∀ i, 0 ≤ i < Z.of_nat n → Z.testbit v i = Z.testbit v' i) → bits_be n v = bits_be n v'.
Proof.
  induction n as [|n IH]; intros H; simpl; [done|]. f_equal; [apply H; lia|]. apply IH. intros. apply H. lia.
Qed.

Lemma testbit_high n v i : in_width n v → 0 ≤ n ≤ i → Z.testbit v i = false.
Proof.
  intros [Hv0 Hv] Hi. destruct (decide (v = 0)) as [->|]; [apply Z.bits_0|].
  apply Z.bits_above_log2; [done|]. apply Z.log2_lt_pow2; [lia|].
  eapply Z.lt_le_trans; [exact Hv|]. apply Z.pow_le_mono_r; lia.
Qed.

Lemma bits_be_inj n v v' :
  in_width (Z.of_nat n) v → in_width (Z.of_nat n) v' → bits_be n v = bits_be n v' → v = v'.
Proof.
  intros Hv Hv' H. apply Z.bits_inj'. intros i Hi.
  assert (Hlow : ∀ m j, bits_be m v = bits_be m v' → 0 ≤ j < Z.of_nat m → Z.testbit v j = Z.testbit v' j).
  { clear. induction m as [|m IH]; intros j Heq Hj; [lia|]. cbn [bits_be] in Heq. injection Heq as H1 H2.
    destruct (decide (j = Z.of_nat m)) as [->|]; [done|]. apply IH; [done|lia]. }
  destruct (decide (i < Z.of_nat n)) as [Hi'|Hi']; [by apply (Hlow n)|].
  rewrite !(testbit_high (Z.of_nat n)) by (done || lia). done.
Qed.

Lemma bits_be_app n m v : bits_be (n + m) v = bits_be n (Z.shiftr v (Z.of_nat m)) ++ bits_be m v.
Proof.
  induction n as [|n IH]; [done|]. cbn [Nat.add bits_be app]. rewrite IH. f_equal.
  rewrite Z.shiftr_spec by lia. f_equal. lia.
Qed.

Lemma bits_be_low n k v : (Z.of_nat n ≤ k) → bits_be n (v mod 2 ^ k) = bits_be n v.
Proof. intros. apply bits_be_ext. intros i Hi. apply Z.mod_pow2_bits_low. lia. Qed.

Lemma bits_be_0 n : bits_be n 0 = replicate n false.
Proof. induction n as [|n IH]; [done|]. cbn [bits_be replicate]. by rewrite Z.bits_0, IH. Qed.

Lemma bits_be_land31 v : bits_be 5 (Z.land v 31) = bits_be 5 v.
Proof. change 31 with (Z.ones 5). rewrite Z.land_ones by lia. by apply bits_be_low. Qed.

(** Shifting in [m] fresh bits *)
Lemma bits_be_push n m acc b :
  in_width (Z.of_nat m) b → (n + m ≤ 32)%nat → (m < 32)%nat →
  bits_be (n + m) (Z.lor (wrapping_shl acc (Z.of_nat m)) b) = bits_be n acc ++ bits_be m b.
Proof.
  intros Hb Hn Hm. unfold wrapping_shl. rewrite (Z.mod_small (Z.of_nat m) 32) by lia.
  rewrite bits_be_app. f_equal; apply bits_be_ext; intros i Hi.
  - rewrite Z.shiftr_spec, Z.lor_spec, Z.mod_pow2_bits_low, Z.shiftl_spec by lia.
    rewrite (testbit_high (Z.of_nat m) b) by (done || lia). rewrite orb_false_r. f_equal. lia.
  - rewrite Z.lor_spec, Z.mod_pow2_bits_low, Z.shiftl_spec_low by lia. done.
Qed.

Lemma flat_app w l1 l2 : flat w (l1 ++ l2) = flat w l1 ++ flat w l2.
Proof. unfold flat. by rewrite fmap_app, join_app. Qed.
Lemma flat_one w x : flat w [x] = bits_be w x.
Proof. unfold flat. cbn. apply app_nil_r. Qed.
Lemma length_flat w l : length (flat w l) = (w * length l)%nat.
Proof.
  induction l as [|x l IH]; [unfold flat; cbn; lia|]. change (x :: l) with ([x] ++ l).
  rewrite flat_app, flat_one, length_app, length_bits_be, IH. cbn [length app]. lia.
Qed.
Lemma flat_inj w l l' :
  Forall (in_width (Z.of_nat w)) l → Forall (in_width (Z.of_nat w)) l' → length l = length l' →
  flat w l = flat w l' → l = l'.
Proof.
  intros H. revert l'. induction H as [|x l Hx Hl IH]; intros [|y l'] Hl' Hlen Heq; try done.
  apply Forall_cons in Hl' as [Hy Hl']. injection Hlen as Hlen.
  change (x :: l) with ([x] ++ l) in Heq. change (y :: l') with ([y] ++ l') in Heq.
  rewrite !flat_app, !flat_one in Heq. apply app_inj_1 in Heq as [H1 H2]; [|by rewrite !length_bits_be].
  f_equal; [by eapply bits_be_inj|by apply IH].
Qed.

(** ** Regrouping bytes into five-bit digits and back *)

Lemma land31_ok v : in_width 5 (Z.land v 31).
Proof. change 31 with (Z.ones 5). rewrite Z.land_ones by lia. apply Z.mod_pos_bound. lia. Qed.

Lemma emit5_spec fuel acc n out :
  (n ≤ fuel)%nat → digits_ok out → ∃ r out',
    emit5 fuel acc (Z.of_nat n) out = (Z.of_nat r, out') ∧ (r < 5)%nat ∧ digits_ok out' ∧
    flat 5 out' ++ bits_be r acc = flat 5 out ++ bits_be n acc.
Proof.
  revert n out. induction fuel as [|fuel IH]; intros n out Hn Hout; cbn [emit5].
  { exists n, out. split_and!; try done; lia. }
  destruct (Z.ltb_spec (Z.of_nat n) 5) as [Hlt|Hge].
  { exists n, out. split_and!; try done; lia. }
  replace (Z.of_nat n - 5) with (Z.of_nat (n - 5)) by lia.
  destruct (IH (n - 5)%nat (out ++ [Z.land (Z.shiftr acc (Z.of_nat (n - 5))) 31])) as (r & out' & H1 & H2 & H3 & H4).
  - lia.
  - apply Forall_app. split; [done|]. constructor; [apply land31_ok|constructor].
  - exists r, out'. split_and!; try done. rewrite H4, flat_app, flat_one, bits_be_land31, <- app_assoc. f_equal.
    replace n with (5 + (n - 5))%nat at 3 by lia. by rewrite bits_be_app.
Qed.

Lemma to_5bit_fold data acc r out :
  bytes_ok data → (r < 5)%nat → digits_ok out → ∃ acc' r' out',
    foldl to_5bit_step (acc, Z.of_nat r, out) data = (acc', Z.of_nat r', out') ∧ (r' < 5)%nat ∧
    digits_ok out' ∧ flat 5 out' ++ bits_be r' acc' = flat 5 out ++ bits_be r acc ++ flat 8 data.
Proof.
  intros Hd. revert acc r out. induction Hd as [|b data Hb Hd IH]; intros acc r out Hr Hout; cbn [foldl].
  { exists acc, r, out. rewrite app_nil_r. done. }
  cbn [to_5bit_step]. replace (Z.of_nat r + 8) with (Z.of_nat (r + 8)) by lia. rewrite Nat2Z.id.
  destruct (emit5_spec (r + 8) (Z.lor (wrapping_shl acc 8) b) (r + 8) out) as (r1 & out1 & -> & H1 & H2 & H3); [done..|].
  destruct (IH (Z.lor (wrapping_shl acc 8) b) r1 out1) as (acc' & r' & out' & -> & H4 & H5 & H6); [done..|].
  exists acc', r', out'. split_and!; try done. rewrite H6, app_assoc, H3.
  assert (bits_be (r + 8) (Z.lor (wrapping_shl acc 8) b) = bits_be r acc ++ bits_be 8 b) as ->
    by (apply (bits_be_push r 8 acc b); [done|lia..]). change (b :: data) with ([b] ++ data).
  by rewrite (flat_app 8 [b]), flat_one, <- !app_assoc.
Qed.

Lemma to_5bit_flat data :
  bytes_ok data → digits_ok (to_5bit data) ∧
  ∃ p, (p < 5)%nat ∧ flat 5 (to_5bit data) = flat 8 data ++ replicate p false.
Proof.
  intros Hd. unfold to_5bit.
  destruct (to_5bit_fold data 0 0 [] Hd) as (acc & r & out & E & Hr & Hout & Hf); [lia|constructor|].
  change (Z.of_nat 0) with 0 in E. rewrite E. cbn [bits_be app] in Hf. change (flat 5 []) with (@nil bool) in Hf. rewrite app_nil_l in Hf.
  destruct (Z.ltb_spec 0 (Z.of_nat r)) as [Hp|Hp].
  - split; [apply Forall_app; split; [done|]; constructor; [apply land31_ok|constructor]|].
    exists (5 - r)%nat. split; [lia|]. rewrite flat_app, flat_one, bits_be_land31, <- Hf, <- app_assoc. f_equal.
    replace (5 - Z.of_nat r) with (Z.of_nat (5 - r)) by lia.
    pose proof (bits_be_push r (5 - r) acc 0) as H. rewrite Z.lor_0_r, bits_be_0 in H.
    replace (r + (5 - r))%nat with 5%nat in H by lia. apply H; try lia. unfold in_width. lia.
  - split; [done|]. exists 0%nat. split; [lia|]. replace r with 0%nat in Hf by lia. cbn [bits_be replicate] in *.
    rewrite app_nil_r in *. done.
Qed.

Lemma from_5bit_fold data acc r out :
  digits_ok data → (r < 8)%nat → bytes_ok out → ∃ acc' r' out',
    try_fold from_5bit_step (acc, Z.of_nat r, out) data = Ok (acc', Z.of_nat r', out') ∧ (r' < 8)%nat ∧
    bytes_ok out' ∧ flat 8 out' ++ bits_be r' acc' = flat 8 out ++ bits_be r acc ++ flat 5 data.
Proof.
  intros Hd. revert acc r out. induction Hd as [|b data Hb Hd IH]; intros acc r out Hr Hout; cbn [try_fold].
  { exists acc, r, out. rewrite app_nil_r. done. }
  cbn [from_5bit_step]. destruct (Z.leb_spec 32 b) as [|_]; [unfold in_width in Hb; lia|].
  set (acc1 := Z.lor (wrapping_shl acc 5) b).
  assert (Hpush : bits_be (r + 5) acc1 = bits_be r acc ++ bits_be 5 b) by (apply bits_be_push; [done|lia..]).
  change (b :: data) with ([b] ++ data). rewrite flat_app, flat_one, (app_assoc (bits_be r acc)), <- Hpush.
  destruct (Z.leb_spec 8 (Z.of_nat r + 5)) as [Hge|Hlt]; cbn [rbind].
  - replace (Z.of_nat r + 5 - 8) with (Z.of_nat (r - 3)) by lia.
    destruct (IH acc1 (r - 3)%nat (out ++ [Z.shiftr acc1 (Z.of_nat (r - 3)) mod 2 ^ 8])) as (a' & r' & o' & -> & H1 & H2 & H3).
    + lia.
    + apply Forall_app. split; [done|]. constructor; [apply Z.mod_pos_bound; lia|constructor].
    + exists a', r', o'. split_and!; try done. rewrite H3, flat_app, flat_one, bits_be_low, <- app_assoc by lia.
      f_equal. rewrite app_assoc. f_equal. rewrite <- bits_be_app. f_equal. lia.
  - replace (Z.of_nat r + 5) with (Z.of_nat (r + 5)) by lia.
    destruct (IH acc1 (r + 5)%nat out) as (a' & r' & o' & -> & H1 & H2 & H3); [lia|done|].
    by exists a', r', o'.
Qed.

Lemma land_ones_bits n acc : Z.land acc (Z.shiftl 1 (Z.of_nat n) - 1) = 0 ↔ bits_be n acc = replicate n false.
Proof.
  rewrite Z.shiftl_1_l. change (2 ^ Z.of_nat n - 1) with (Z.pred (2 ^ Z.of_nat n)).
  rewrite <- Z.ones_equiv, Z.land_ones, <- bits_be_0 by lia. split.
  - intros H. rewrite <- (bits_be_low n (Z.of_nat n) acc) by lia. by rewrite H.
  - intros H. apply (bits_be_inj n); [apply Z.mod_pos_bound; lia|unfold in_width; lia|]. by rewrite bits_be_low.
Qed.

Lemma from_5bit_flat data out :
  digits_ok data → from_5bit data = Ok out ↔
  bytes_ok out ∧ ∃ p, (p < 5)%nat ∧ flat 5 data = flat 8 out ++ replicate p false.
Proof.
  intros Hd. unfold from_5bit.
  destruct (from_5bit_fold data 0 0 [] Hd) as (acc & r & o & E & Hr & Ho & Hf); [lia|constructor|].
  change (Z.of_nat 0) with 0 in E. rewrite E. cbn [rbind bits_be app] in *. change (flat 8 []) with (@nil bool) in Hf.
  rewrite app_nil_l in Hf. split.
  - destruct (Z.leb_spec 5 (Z.of_nat r)); [done|]. destruct (Z.eqb_spec (Z.land acc (Z.shiftl 1 (Z.of_nat r) - 1)) 0) as [H0|]; [|done].
    cbn. intros [= <-]. split; [done|]. exists r. split; [lia|]. rewrite <- Hf. f_equal. by apply land_ones_bits.
  - intros (Hok & p & Hp & Heq). rewrite Heq in Hf.
    pose proof (f_equal length Hf) as Hlen.
    rewrite !length_app, !length_flat, length_bits_be, length_replicate in Hlen.
    assert (length o = length out ∧ r = p) as [Hl ->] by lia.
    apply app_inj_1 in Hf as [Hf Hz]; [|rewrite !length_flat; lia].
    apply land_ones_bits in Hz. rewrite Hz. destruct (Z.leb_spec 5 (Z.of_nat p)); [lia|]. cbn.
    f_equal. by apply (flat_inj 8).
Qed.

Lemma from_to_5bit data : bytes_ok data → from_5bit (to_5bit data) = Ok data.
Proof. intros Hd. destruct (to_5bit_flat data Hd) as [Hok Hp]. by apply from_5bit_flat. Qed.

Lemma to_from_5bit data out : digits_ok data → from_5bit data = Ok out → data = to_5bit out.
Proof.
  intros Hd (Hok & p & Hp & Heq)%from_5bit_flat; [|done]. destruct (to_5bit_flat out Hok) as (Hd' & q & Hq & Heq').
  pose proof (f_equal length Heq) as H1. pose proof (f_equal length Heq') as H2.
  rewrite length_app, !length_flat, length_replicate in H1, H2.
  assert (p = q) as -> by lia. apply (flat_inj 5); [done..|lia|]. congruence.
Qed.

(** ** The checksum as a linear code *)

Ltac xor_solve := apply Z.bits_inj'; intros ? ?; rewrite ?Z.lxor_spec, ?Z.bits_0; btauto.

Lemma lxor_swap a b c d : Z.lxor (Z.lxor a b) (Z.lxor c d) = Z.lxor (Z.lxor a c) (Z.lxor b d).
Proof. xor_solve. Qed.
Lemma lxor_cancel a b : Z.lxor a b = 0 ↔ a = b.
Proof. apply Z.lxor_eq_0_iff. Qed.

Lemma in_width_lxor w a b : 0 ≤ w → in_width w a → in_width w b → in_width w (Z.lxor a b).
Proof.
  intros Hw Ha Hb. assert (H0 : 0 ≤ Z.lxor a b) by (apply Z.lxor_nonneg; unfold in_width in *; lia).
  split; [done|]. replace (Z.lxor a b) with (Z.lxor a b mod 2 ^ w); [apply Z.mod_pos_bound; lia|].
  apply Z.bits_inj'. intros i Hi. destruct (decide (i < w)).
  - by rewrite Z.mod_pow2_bits_low by lia.
  - rewrite Z.mod_pow2_bits_high, Z.lxor_spec, !(testbit_high w) by (done || lia). done.
Qed.

Definition gen_sum (b : Z) (l : list (Z * Z)) : Z := foldl (polymod_gen b) 0 l.

Lemma polymod_gen_bit b chk ig :
  0 ≤ ig.1 → polymod_gen b chk ig = Z.lxor chk (if Z.testbit b ig.1 then ig.2 else 0).
Proof.
  intros Hi. unfold polymod_gen. change 1 with (Z.ones 1). rewrite Z.land_ones by lia.
  rewrite <- Z.bit0_mod, Z.shiftr_spec, Z.add_0_l by lia. destruct (Z.testbit b ig.1); cbn; [done|].
  by rewrite Z.lxor_0_r.
Qed.

Lemma gen_fold b x l :
  Forall (λ ig, 0 ≤ ig.1) l → foldl (polymod_gen b) x l = Z.lxor x (gen_sum b l).
Proof.
  unfold gen_sum. intros H. revert x. induction H as [|ig l Hi Hl IH]; intros x; cbn [foldl]; [by rewrite Z.lxor_0_r|].
  rewrite IH, (IH (polymod_gen b 0 ig)), !polymod_gen_bit by done. by rewrite Z.lxor_0_l, Z.lxor_assoc.
Qed.

Lemma gen_sum_cons b ig l :
  0 ≤ ig.1 → Forall (λ ig, 0 ≤ ig.1) l →
  gen_sum b (ig :: l) = Z.lxor (if Z.testbit b ig.1 then ig.2 else 0) (gen_sum b l).
Proof.
  intros Hi Hl. unfold gen_sum at 1. cbn [foldl]. by rewrite gen_fold, polymod_gen_bit, Z.lxor_0_l.
Qed.

Lemma gen_sum_lxor b c l :
  Forall (λ ig, 0 ≤ ig.1) l → gen_sum (Z.lxor b c) l = Z.lxor (gen_sum b l) (gen_sum c l).
Proof.
  induction 1 as [|ig l Hi Hl IH]; [done|]. rewrite !gen_sum_cons, IH, Z.lxor_spec, lxor_swap by done. f_equal.
  destruct (Z.testbit b ig.1), (Z.testbit c ig.1); cbn; by rewrite ?Z.lxor_0_r, ?Z.lxor_0_l, ?Z.lxor_nilpotent.
Qed.

Lemma GEN_nonneg : Forall (λ ig, 0 ≤ ig.1) GEN.
Proof. by repeat constructor. Qed.

Lemma gen_sum_ok b : in_width 30 (gen_sum b GEN).
Proof.
  assert (Hg : Forall (λ ig, in_width 30 ig.2) GEN) by by repeat constructor.
  pose proof GEN_nonneg as Hn. revert Hg Hn. generalize GEN. induction l as [|ig l IH]; intros Hg Hn; [done|].
  apply Forall_cons in Hg as [Hg Hgs]. apply Forall_cons in Hn as [Hn Hns]. rewrite gen_sum_cons by done.
  apply in_width_lxor; [lia| |by apply IH]. destruct (Z.testbit b ig.1); done.
Qed.

Definition shifted (chk : Z) : Z := wrapping_shl (Z.land chk 0x1ffffff) 5.
Definition top (chk : Z) : Z := Z.land (Z.shiftr chk 25) 0xFF.

Lemma polymod_step_eq chk v :
  polymod_step chk v = Z.lxor (Z.lxor (shifted chk) v) (gen_sum (top chk) GEN).
Proof. unfold polymod_step. by rewrite gen_fold by apply GEN_nonneg. Qed.

Lemma land_lxor_l a b m : Z.land (Z.lxor a b) m = Z.lxor (Z.land a m) (Z.land b m).
Proof. apply Z.bits_inj'. intros i _. rewrite ?Z.land_spec, ?Z.lxor_spec, ?Z.land_spec. btauto. Qed.

Lemma shifted_val chk : shifted chk = 32 * (chk mod 2 ^ 25).
Proof.
  unfold shifted, wrapping_shl. change 0x1ffffff with (Z.ones 25). rewrite Z.land_ones by lia.
  change (5 mod 32) with 5. rewrite Z.shiftl_mul_pow2 by lia. rewrite Z.mod_small; [lia|].
  pose proof (Z.mod_pos_bound chk (2 ^ 25)). lia.
Qed.

Lemma shifted_lxor a b : shifted (Z.lxor a b) = Z.lxor (shifted a) (shifted b).
Proof.
  rewrite !shifted_val, !(Z.mul_comm 32). change 32 with (2 ^ 5). rewrite <- !Z.shiftl_mul_pow2 by lia.
  rewrite <- Z.shiftl_lxor. f_equal. rewrite <- !Z.land_ones by lia. apply land_lxor_l.
Qed.

Lemma top_lxor a b : top (Z.lxor a b) = Z.lxor (top a) (top b).
Proof. unfold top. rewrite Z.shiftr_lxor. apply land_lxor_l. Qed.

Lemma polymod_step_lxor a b v w :
  polymod_step (Z.lxor a b) (Z.lxor v w) = Z.lxor (polymod_step a v) (polymod_step b w).
Proof.
  rewrite !polymod_step_eq, shifted_lxor, top_lxor, gen_sum_lxor by apply GEN_nonneg.
  rewrite (lxor_swap (shifted a)). by rewrite (lxor_swap (Z.lxor (shifted a) v)).
Qed.

Lemma polymod_step_ok chk v : in_width 5 v → in_width 30 (polymod_step chk v).
Proof.
  intros Hv. rewrite polymod_step_eq. apply in_width_lxor; [lia| |apply gen_sum_ok].
  apply in_width_lxor; [lia| |unfold in_width in *; lia]. rewrite shifted_val.
  pose proof (Z.mod_pos_bound chk (2 ^ 25)). unfold in_width. lia.
Qed.

Lemma polymod_fold_lxor l l' a b :
  length l = length l' →
  foldl polymod_step (Z.lxor a b) (zip_with Z.lxor l l')
  = Z.lxor (foldl polymod_step a l) (foldl polymod_step b l').
Proof.
  revert l' a b. induction l as [|x l IH]; intros [|y l'] a b Hl; try done.
  cbn [zip_with foldl]. injection Hl as Hl. by rewrite polymod_step_lxor, IH.
Qed.

Lemma polymod_fold_ok l a : digits_ok l → in_width 30 a → in_width 30 (foldl polymod_step a l).
Proof. intros H. revert a. induction H; intros a Ha; cbn [foldl]; [done|]. by apply IHForall, polymod_step_ok. Qed.

Lemma polymod_step_small chk v : 0 ≤ chk < 2 ^ 25 → in_width 5 v → polymod_step chk v = 32 * chk + v.
Proof.
  intros Hc Hv. rewrite polymod_step_eq. unfold top. rewrite Z.shiftr_div_pow2, Z.div_small by lia.
  change (gen_sum (Z.land 0 255) GEN) with 0. rewrite Z.lxor_0_r, shifted_val, Z.mod_small by lia.
  rewrite <- Z.add_nocarry_lxor; [done|]. rewrite Z.mul_comm. change 32 with (2 ^ 5).
  rewrite <- Z.shiftl_mul_pow2 by lia. apply Z.bits_inj'. intros i Hi. rewrite Z.land_spec, Z.bits_0.
  destruct (decide (i < 5)); [by rewrite Z.shiftl_spec_low|]. rewrite (testbit_high 5 v) by (done || lia).
  apply andb_false_r.
Qed.

(** The register map is injective: no error is lost on the way. *)
Lemma polymod_step_zero x : in_width 30 x → polymod_step x 0 = 0 → x = 0.
Proof.
  intros Hx. rewrite polymod_step_eq, Z.lxor_0_r, lxor_cancel, shifted_val. intros H.
  pose proof (Z.div_mod x (2 ^ 25) ltac:(lia)) as Hdm. pose proof (Z.mod_pos_bound x (2 ^ 25) ltac:(lia)) as Hmod.
  assert (Hdiv : 0 ≤ x / 2 ^ 25 < 2 ^ 8) by (clear H; unfold in_width in Hx; lia).
  assert (Ht : top x = x / 2 ^ 25).
  { unfold top. change 0xFF with (Z.ones 8). rewrite Z.land_ones, Z.shiftr_div_pow2 by lia. apply Z.mod_small.
    apply Hdiv. }
  assert (Hlow : ∀ b, 0 ≤ b < 32 → gen_sum b GEN mod 32 = 0 → b = 0).
  { intros b Hb Hz. pose proof (below_all (λ b, (negb (gen_sum b GEN mod 32 =? 0)) || (b =? 0)) 32 b
      ltac:(vm_compute; reflexivity) Hb) as Hc. cbn beta in Hc. rewrite Hz in Hc. by apply Z.eqb_eq. }
  assert (Hz : x / 2 ^ 25 = 0).
  { rewrite <- Ht. apply Hlow; [clear H; unfold in_width in Hx; lia|]. rewrite <- H, Z.mul_comm. apply Z.mod_mul. lia. }
  rewrite Ht, Hz in H. change (gen_sum 0 GEN) with 0 in H. lia.
Qed.

(** ** Distance of the code *)

Fixpoint error_weight (d : bytes) : nat :=
  match d with [] => 0 | x :: t => (if (x =? 0)%Z then 0 else 1) + error_weight t end.
Fixpoint hamming (s t : bytes) : nat :=
  match s, t with
  | x :: s', y :: t' => (if (x =? y)%Z then 0 else 1) + hamming s' t'
  | _, _ => length s + length t
  end.

(** The register after [n] silent steps never returns to the five low bits. *)
Fixpoint orbit_clear (n : nat) (x : Z) : bool :=
  match n with
  | O => true
  | S m => let y := polymod_step x 0 in (32 <=? y) && orbit_clear m y
  end.

Lemma orbits_clear : forallb (orbit_clear 89) (seqZ 1 31) = true.
Proof. vm_compute. reflexivity. Qed.

Lemma polymod_fold_zero x d :
  in_width 30 x → digits_ok d → error_weight d = 0%nat → foldl polymod_step x d = 0 → x = 0.
Proof.
  intros Hx Hd. revert x Hx. induction Hd as [|y d Hy Hd IH]; intros x Hx Hw Hz; cbn in *; [done|].
  destruct (Z.eqb_spec y 0) as [->|]; [|done]. apply polymod_step_zero; [done|].
  apply IH; [by apply polymod_step_ok|done|done].
Qed.

Lemma polymod_fold_one x d n :
  in_width 30 x → x ≠ 0 → digits_ok d → (length d ≤ n)%nat → orbit_clear n x = true → (error_weight d ≤ 1)%nat →
  foldl polymod_step x d ≠ 0.
Proof.
  intros Hx Hx0 Hd. revert x n Hx Hx0.
  induction Hd as [|y d Hy Hd IH]; intros x n Hx Hx0 Hn Ho Hw; cbn [foldl]; [done|].
  destruct n as [|n]; [cbn in Hn; lia|]. cbn [orbit_clear] in Ho. apply andb_true_iff in Ho as [Hge%Z.leb_le Ho].
  cbn [error_weight] in Hw. cbn in Hn. destruct (Z.eqb_spec y 0) as [->|Hy0].
  - apply (IH _ n); try lia; [by apply polymod_step_ok|done].
  - intros Hz. apply polymod_fold_zero in Hz; [|by apply polymod_step_ok|done|lia].
    replace (polymod_step x y) with (Z.lxor (polymod_step x 0) y) in Hz.
    + apply (proj1 (lxor_cancel _ _)) in Hz. unfold in_width in Hy. lia.
    + rewrite !polymod_step_eq, Z.lxor_0_r. xor_solve.
Qed.

Lemma polymod_fold_two d :
  digits_ok d → (length d ≤ 90)%nat → (error_weight d ≤ 2)%nat → foldl polymod_step 0 d = 0 → error_weight d = 0%nat.
Proof.
  induction 1 as [|y d Hy Hd IH]; intros Hn Hw Hz; cbn [foldl error_weight length] in *; [done|].
  destruct (Z.eqb_spec y 0) as [->|Hy0]; [apply IH; [lia|lia|exact Hz]|]. exfalso. revert Hz.
  replace (polymod_step 0 y) with y.
  - apply (polymod_fold_one y d 89); [unfold in_width in *; lia|done|done|lia| |lia].
    apply (proj1 (forallb_forall _ _) orbits_clear), list_elem_of_In, elem_of_seqZ. unfold in_width in Hy. lia.
  - symmetry. by rewrite polymod_step_small by (done || lia).
Qed.

Lemma weight_zip s t : length s = length t → error_weight (zip_with Z.lxor s t) = hamming s t.
Proof.
  revert t. induction s as [|x s IH]; intros [|y t] Hl; try done. cbn [zip_with error_weight hamming].
  injection Hl as Hl. rewrite IH by done. f_equal.
  destruct (Z.eqb_spec (Z.lxor x y) 0) as [H|H], (Z.eqb_spec x y) as [H'|H']; try done; by rewrite lxor_cancel in H.
Qed.

Lemma hamming_zero s t : hamming s t = 0%nat → s = t.
Proof.
  revert t. induction s as [|x s IH]; intros [|y t] H; try done. cbn [hamming] in H.
  destruct (Z.eqb_spec x y) as [->|]; [|done]. f_equal. by apply IH.
Qed.

Lemma hamming_app s s' t t' :
  length s = length t → hamming (s ++ s') (t ++ t') = (hamming s t + hamming s' t')%nat.
Proof.
  revert t. induction s as [|x s IH]; intros [|y t] Hl; try done. cbn [app hamming].
  injection Hl as Hl. rewrite IH by done. lia.
Qed.

Lemma hamming_fmap f s t :
  length s = length t → (∀ x y, x ∈ s → y ∈ t → f x = f y → x = y) → (hamming s t ≤ hamming (f <$> s) (f <$> t))%nat.
Proof.
  revert t. induction s as [|x s IH]; intros [|y t] Hl Hf; try done. cbn [fmap list_fmap hamming].
  injection Hl as Hl. assert (IH' : (hamming s t ≤ hamming (f <$> s) (f <$> t))%nat).
  { apply IH; [done|]. intros a b Ha Hb. apply Hf; by right. }
  destruct (Z.eqb_spec x y) as [->|Hxy]; [by rewrite Z.eqb_refl|].
  destruct (Z.eqb_spec (f x) (f y)) as [Hfe|]; [|lia]. destruct Hxy. apply Hf; [left|left|done].
Qed.

Lemma zip_lxor_ok s t : digits_ok s → digits_ok t → digits_ok (zip_with Z.lxor s t).
Proof.
  intros Hs. revert t. induction Hs as [|x s Hx Hs IH]; intros [|y t] Ht; try constructor.
  - apply Forall_cons in Ht as [Hy _]. by apply in_width_lxor.
  - apply IH. by apply Forall_cons in Ht as [_ ?].
Qed.

(** Two words of the code that agree on the checksum differ in at least three digits. *)
Lemma polymod_distance s t :
  digits_ok s → digits_ok t → length s = length t → (length s ≤ 90)%nat → (hamming s t ≤ 2)%nat →
  polymod s = polymod t → s = t.
Proof.
  intros Hs Ht Hl Hn Hh Hp. apply hamming_zero. rewrite <- weight_zip by done.
  apply polymod_fold_two; [by apply zip_lxor_ok| |by rewrite weight_zip|].
  - rewrite length_zip_with. lia.
  - change 0 with (Z.lxor 1 1) at 1. rewrite polymod_fold_lxor by done. by apply lxor_cancel.
Qed.

(** ** The checksum digits *)

Lemma checksum_digit_ok c i : in_width 5 (checksum_digit c i).
Proof. apply land31_ok. Qed.

Definition checksum_digits (c : Z) : bytes := checksum_digit c <$> [0; 1; 2; 3; 4; 5].

Lemma digit_split z : z = 32 * Z.shiftr z 5 + Z.land z 31.
Proof. change 31 with (Z.ones 5). rewrite Z.land_ones, Z.shiftr_div_pow2 by lia. apply Z.div_mod. lia. Qed.

Lemma fold_checksum_digits c : in_width 30 c → foldl polymod_step 0 (checksum_digits c) = c.
Proof.
  intros Hc. unfold checksum_digits, checksum_digit. cbn [fmap list_fmap foldl].
  change (5 * (5 - 0)) with 25. change (5 * (5 - 1)) with 20. change (5 * (5 - 2)) with 15.
  change (5 * (5 - 3)) with 10. change (5 * (5 - 4)) with 5. change (5 * (5 - 5)) with 0.
  assert (Hstep : ∀ j k, j = k + 5 → 0 ≤ k ≤ 25 →
    polymod_step (Z.shiftr c j) (Z.land (Z.shiftr c k) 31) = Z.shiftr c k).
  { intros j k -> Hk. rewrite polymod_step_small; [|split|apply land31_ok].
    - rewrite <- (Z.shiftr_shiftr c k 5) by lia. symmetry. apply digit_split.
    - apply Z.shiftr_nonneg. apply Hc.
    - rewrite Z.shiftr_div_pow2 by lia. apply Z.div_lt_upper_bound; [lia|]. rewrite <- Z.pow_add_r by lia.
      eapply Z.lt_le_trans; [apply Hc|]. apply Z.pow_le_mono_r; lia. }
  replace 0 with (Z.shiftr c 30) at 1.
  - rewrite (Hstep 30 25), (Hstep 25 20), (Hstep 20 15), (Hstep 15 10), (Hstep 10 5), (Hstep 5 0) by lia. apply Z.shiftr_0_r.
  - rewrite Z.shiftr_div_pow2 by lia. apply Z.div_small. apply Hc.
Qed.

Lemma checksum_digits_fold d0 d1 d2 d3 d4 d5 :
  digits_ok [d0; d1; d2; d3; d4; d5] →
  in_width 30 (foldl polymod_step 0 [d0; d1; d2; d3; d4; d5]) ∧
  checksum_digits (foldl polymod_step 0 [d0; d1; d2; d3; d4; d5]) = [d0; d1; d2; d3; d4; d5].
Proof.
  intros Hd. split; [apply polymod_fold_ok; [done|unfold in_width; lia]|].
  repeat (apply Forall_cons in Hd as [? Hd]). unfold in_width in *.
  cbn [foldl].
  repeat match goal with
  | |- context [polymod_step ?a ?b] =>
      lazymatch a with
      | context [polymod_step] => fail
      | _ => rewrite (polymod_step_small a b) by (unfold in_width; lia)
      end
  end.
  unfold checksum_digits, checksum_digit. cbn [fmap list_fmap]. change 31 with (Z.ones 5).
  rewrite !Z.land_ones, !Z.shiftr_div_pow2 by lia.
  repeat f_equal; Z.to_euclidean_division_equations; lia.
Qed.

Lemma polymod_checksum pre c :
  digits_ok pre → in_width 30 c →
  polymod (pre ++ checksum_digits c) = Z.lxor (polymod (pre ++ replicate 6 0)) c.
Proof.
  intros Hp Hc. unfold polymod. rewrite !foldl_app. rewrite <- (fold_checksum_digits c) at 2 by done.
  rewrite <- polymod_fold_lxor by done. by rewrite Z.lxor_0_r.
Qed.

(** ** The character set *)

Lemma charset_value_at v : in_width 5 v → charset_value (charset_at v) = Ok v.
Proof.
  intros Hv. pose proof (below_all (λ v, match charset_value (charset_at v) with Ok w => w =? v | _ => false end) 32 v
    ltac:(vm_compute; reflexivity) Hv) as Hc. cbn beta in Hc.
  destruct (charset_value (charset_at v)) as [w| |]; [|done..]. by apply Z.eqb_eq in Hc as ->.
Qed.

Definition lower_char (c : Z) : bool := (0 <=? c) && (c <? 128) && negb (is_ascii_uppercase c).

Lemma charset_at_shape v : in_width 5 v → charset_at v ≠ 49 ∧ lower_char (charset_at v) = true.
Proof.
  intros Hv. pose proof (below_all (λ v, negb (charset_at v =? 49) && lower_char (charset_at v)) 32 v
    ltac:(vm_compute; reflexivity) Hv) as Hc.
  apply andb_true_iff in Hc as [H1%negb_true_iff H2]. split; [by apply Z.eqb_neq|done].
Qed.

Lemma charset_value_Ok c v : 0 ≤ c → charset_value c = Ok v → in_width 5 v ∧ charset_at v = c.
Proof.
  intros Hc H. assert (Hc' : c < 128) by (unfold charset_value in H; by destruct (Z.leb_spec 128 c)).
  pose proof (below_all (λ c, match charset_value c with
      | Ok v => (0 <=? v) && (v <? 32) && (charset_at v =? c) | _ => true end) 128 c
    ltac:(vm_compute; reflexivity) (conj Hc Hc')) as Hf.
  cbn beta in Hf. rewrite H in Hf. bool_inv. done.
Qed.

Lemma charset_at_inj v w : in_width 5 v → in_width 5 w → charset_at v = charset_at w → v = w.
Proof. intros Hv Hw H. pose proof (charset_value_at v Hv) as H1. rewrite H, charset_value_at in H1 by done. by injection H1. Qed.

Lemma charset_values_at l : digits_ok l → try_map charset_value (charset_at <$> l) = Ok l.
Proof.
  intros Hl. apply try_map_Ok. induction Hl; constructor; [by apply charset_value_at|done].
Qed.

Lemma charset_values_Ok s l :
  bytes_ok s → try_map charset_value s = Ok l → digits_ok l ∧ s = charset_at <$> l.
Proof.
  intros Hs H. apply try_map_Ok in H. induction H as [|c v s l Hc H IH]; [by split; [constructor|]|].
  apply bytes_ok_cons in Hs as [Hc0 Hs]. destruct (IH Hs) as [IH1 IH2].
  apply charset_value_Ok in Hc as [Hv <-]; [|apply Hc0]. split; [by constructor|]. cbn. by rewrite <- IH2.
Qed.

(** ** The separator *)

Lemma rfind_None c s : c ∉ s → rfind c s = None.
Proof.
  induction s as [|x s IH]; intros H; [done|]. apply not_elem_of_cons in H as [Hx Hs]. cbn. rewrite IH by done.
  destruct (Z.eqb_spec x c); [by subst|done].
Qed.

Lemma rfind_last c s t : c ∉ t → rfind c (s ++ c :: t) = Some (length s).
Proof.
  intros Ht. induction s as [|x s IH]; cbn; [by rewrite rfind_None, Z.eqb_refl|by rewrite IH].
Qed.

Lemma rfind_Some c s i : rfind c s = Some i → s = take i s ++ c :: drop (S i) s.
Proof.
  revert i. induction s as [|x s IH]; intros i H; cbn in H; [done|].
  destruct (rfind c s) as [j|].
  - injection H as <-. cbn. f_equal. by apply IH.
  - destruct (Z.eqb_spec x c); [|done]. injection H as <-. cbn. by subst.
Qed.

(** ** Bech32m is exact *)

Lemma hrp_expand_ok hrp : bytes_ok hrp → digits_ok (hrp_expand hrp).
Proof.
  intros H. unfold hrp_expand. apply Forall_app. split; [|constructor; [done|]].
  - apply Forall_fmap. eapply Forall_impl; [exact H|]. intros c Hc. cbn. unfold in_width in *.
    rewrite Z.shiftr_div_pow2 by lia. split; [apply Z.div_pos; lia|apply Z.div_lt_upper_bound; lia].
  - apply Forall_fmap. eapply Forall_impl; [exact H|]. intros c _. apply land31_ok.
Qed.

Definition checksum_of (hrp data : bytes) : Z :=
  Z.lxor (polymod (hrp_expand hrp ++ to_5bit data ++ replicate 6 0)) BECH32M_CONST.
Definition word (hrp data : bytes) : bytes := to_5bit data ++ checksum_digits (checksum_of hrp data).

Lemma checksum_of_ok hrp data : bytes_ok hrp → bytes_ok data → in_width 30 (checksum_of hrp data).
Proof.
  intros Hh Hd. apply in_width_lxor; [lia| |done]. apply polymod_fold_ok; [|done].
  apply Forall_app. split; [by apply hrp_expand_ok|]. apply Forall_app. split; [by apply to_5bit_flat|].
  by repeat constructor.
Qed.

Lemma word_ok hrp data : bytes_ok data → digits_ok (word hrp data).
Proof.
  intros Hd. apply Forall_app. split; [by apply to_5bit_flat|]. repeat constructor; apply checksum_digit_ok.
Qed.

Lemma word_checksum hrp data :
  bytes_ok hrp → bytes_ok data → polymod (hrp_expand hrp ++ word hrp data) = BECH32M_CONST.
Proof.
  intros Hh Hd. unfold word. rewrite app_assoc, polymod_checksum; [|by apply Forall_app; split; [apply hrp_expand_ok|apply to_5bit_flat]|by apply checksum_of_ok].
  unfold checksum_of. rewrite <- app_assoc. xor_solve.
Qed.

Lemma bech32m_encode_eq hrp data : bech32m_encode hrp data = hrp ++ 49 :: (charset_at <$> word hrp data).
Proof. unfold bech32m_encode, word. by rewrite fmap_app. Qed.

Lemma checksum_unique pre l c :
  digits_ok pre → digits_ok l → length l = 6%nat →
  polymod (pre ++ l) = c → l = checksum_digits (Z.lxor (polymod (pre ++ replicate 6 0)) c).
Proof.
  intros Hp Hl Hlen H. destruct l as [|d0 [|d1 [|d2 [|d3 [|d4 [|d5 [|]]]]]]]; try done.
  destruct (checksum_digits_fold d0 d1 d2 d3 d4 d5 Hl) as [Hw Hd]. rewrite <- Hd in H at 1.
  rewrite polymod_checksum in H by done. rewrite <- Hd at 1. f_equal. rewrite <- H. xor_solve.
Qed.

Lemma bech32m_decode_Ok s hrp data :
  bytes_ok s → bech32m_decode s = Ok (hrp, data) ↔
  hrp ≠ [] ∧ bytes_ok hrp ∧ bytes_ok data ∧ s = bech32m_encode hrp data.
Proof.
  intros Hs. rewrite bech32m_encode_eq. unfold bech32m_decode. split.
  - intros H. res_inv. bool_inv. match goal with H : rfind _ _ = Some ?i |- _ => rename H into Hf, i into sep end.
    match goal with H : try_map _ _ = Ok ?v |- _ => rename H into Hv, v into values end.
    pose proof (rfind_Some _ _ _ Hf) as Hsp. rewrite Hsp in Hs. apply bytes_ok_app in Hs as [Hh Ht].
    apply bytes_ok_cons in Ht as [_ Ht]. pose proof (charset_values_Ok _ _ Ht Hv) as [Hd Hmap].
    assert (Hlen : (6 ≤ length values)%nat).
    { pose proof (f_equal length Hmap) as Hl. rewrite length_fmap, length_drop in Hl. unfold zlen in *. lia. }
    match goal with H : from_5bit ?t = Ok ?p |- _ => rename H into H5, p into data' end.
    assert (Hdt : digits_ok (take (length values - 6) values)) by by apply Forall_take.
    pose proof (to_from_5bit _ _ Hdt H5) as Heq. apply from_5bit_flat in H5 as [Hok _]; [|done].
    split_and!; [intros H0; destruct sep; [done|]; by destruct s|done|done|].
    rewrite Hsp at 1. f_equal. f_equal. rewrite Hmap. f_equal.
    rewrite <- (take_drop (length values - 6) values) at 1. rewrite Heq. unfold word. f_equal.
    unfold checksum_of. rewrite app_assoc. apply checksum_unique.
    + apply Forall_app. split; [by apply hrp_expand_ok|]. by rewrite <- Heq.
    + by apply Forall_drop.
    + rewrite length_drop. lia.
    + rewrite <- app_assoc, <- Heq, take_drop. done.
  - intros (Hne & Hh & Hd & ->). pose proof (word_ok hrp data Hd) as Hw.
    rewrite rfind_last; cbn [ok_or rbind].
    2:{ intros (v & E & Hv)%list_elem_of_fmap. unfold digits_ok in Hw. rewrite Forall_forall in Hw.
       by destruct (charset_at_shape v (Hw v Hv)). }
    destruct (Nat.eqb_spec (length hrp) 0) as [H0|_]; [by destruct hrp|].
    rewrite take_app_length. change (49 :: (charset_at <$> word hrp data)) with ([49] ++ (charset_at <$> word hrp data)).
    rewrite app_assoc, (drop_app_length' (hrp ++ [49])) by (rewrite length_app; cbn; lia).
    rewrite charset_values_at by done. cbn [rbind]. rewrite word_checksum, Z.eqb_refl by done. cbn [negb].
    rewrite !zlen_app, zlen_fmap. unfold word. rewrite zlen_app, length_app. cbn [length checksum_digits fmap list_fmap zlen].
    change (zlen (checksum_digits (checksum_of hrp data))) with 6. change (zlen [49]) with 1.
    match goal with |- context [?a <? 6] => destruct (Z.ltb_spec a 6) as [Hlt|_] end.
    { unfold zlen in Hlt. cbn [length] in Hlt. lia. }
    rewrite Nat.add_sub, take_app_length, from_to_5bit by done. done.
Qed.

(** ** Addresses *)

(** What the constructors produce from a 33-byte key *)
Definition address_ok (a : Address) : Prop :=
  zlen (addr_payload a) = 33 ∧ bytes_ok (addr_payload a) ∧
  new_for_network (addr_payload a) (addr_network_magic a) = Ok a.

Lemma hrp_known m hrp :
  hrp_for_network_magic m = Some hrp →
  u32_ok m ∧ bytes_ok hrp ∧ hrp ≠ [] ∧ (length hrp ≤ 4)%nat ∧ Forall (λ c, lower_char c = true) hrp.
Proof.
  unfold hrp_for_network_magic. intros H.
  repeat match type of H with (if ?b then _ else _) = _ => destruct b eqn:E; [|clear E] end; [..|done].
  all: apply Z.eqb_eq in E as ->; injection H as <-; split_and!; try done; by repeat constructor.
Qed.

Lemma hrp_magic m hrp : hrp_for_network_magic m = Some hrp ↔ network_magic_of_hrp hrp = Ok m.
Proof.
  unfold hrp_for_network_magic, network_magic_of_hrp. split.
  - intros H. repeat match type of H with (if ?b then _ else _) = _ => destruct b eqn:E; [|clear E] end; [..|done].
    all: apply Z.eqb_eq in E as ->; by injection H as <-.
  - intros H. repeat case_bool_decide; [..|done]; injection H as <-; subst; done.
Qed.

Lemma new_for_network_Ok p m a :
  new_for_network p m = Ok a ↔
  (∃ hrp, hrp_for_network_magic m = Some hrp) ∧ validate_compressed_public_key p = Ok tt ∧
  a = {| addr_payload := p; addr_is_mainnet := m =? NETWORK_MAGIC_MAINNET;
         addr_version := ADDRESS_PAYLOAD_VERSION_V3; addr_type := ADDRESS_TYPE_STANDARD;
         addr_key_type := ADDRESS_KEY_TYPE_SECP256K1_COMPRESSED; addr_network_magic := m |}.
Proof.
  unfold new_for_network. destruct (validate_compressed_public_key p) as [[]| |]; cbn [rbind];
    [|naive_solver..]. destruct (hrp_for_network_magic m); naive_solver.
Qed.

Lemma payload_bytes_ok a : address_ok a → bytes_ok (to_payload_bytes a) ∧ zlen (to_payload_bytes a) = 40.
Proof.
  intros (Hl & Hb & H). apply new_for_network_Ok in H as (_ & _ & ->). unfold to_payload_bytes. cbn [addr_payload addr_network_magic] in *.
  split; [|rewrite !zlen_app, zlen_le_bytes, Hl; done].
  apply bytes_ok_app; split; [by repeat constructor|]. apply bytes_ok_app. split; [apply le_bytes_ok|done].
Qed.

(** The forty bytes of a payload, read back *)
Lemma payload_fields p :
  bytes_ok p → zlen p = 40 →
  p = [nth 0 p 0; nth 1 p 0; nth 2 p 0] ++ le_bytes 4 (le_val (slice p 3 7)) ++ slice p 7 40.
Proof.
  intros Hb Hl. unfold slice. change (Z.to_nat (7 - 3)) with 4%nat. change (Z.to_nat (40 - 7)) with 33%nat.
  change (Z.to_nat 3) with 3%nat. change (Z.to_nat 7) with 7%nat.
  destruct p as [|a [|b [|c p]]]; try done.
  change (a :: b :: c :: p) with ([a; b; c] ++ p) at 1. cbn [nth drop]. f_equal.
  rewrite !zlen_cons in Hl. assert (Hlen : length p = 37%nat) by (unfold zlen in Hl; lia).
  repeat (apply bytes_ok_cons in Hb as [_ Hb]).
  assert (H4 : length (take 4 p) = 4%nat) by (rewrite length_take; lia).
  pose proof (le_bytes_le_val (take 4 p) ltac:(by apply Forall_take)) as E. rewrite H4 in E. rewrite drop_0, E.
  rewrite (take_ge (drop 4 p)) by (rewrite length_drop; lia). by rewrite take_drop.
Qed.

Lemma payload_parts a :
  u32_ok (addr_network_magic a) → zlen (addr_payload a) = 33 →
  let p := to_payload_bytes a in
  nth 0 p 0 = addr_version a ∧ nth 1 p 0 = addr_type a ∧ nth 2 p 0 = addr_key_type a ∧
  le_val (slice p 3 7) = addr_network_magic a ∧ slice p 7 40 = addr_payload a.
Proof.
  intros Hm Hl p. unfold p, to_payload_bytes. split_and!; try done.
  - unfold slice. rewrite drop_app_length' by done. rewrite take_app_length' by (by rewrite length_le_bytes).
    by apply le_val_le_bytes_id.
  - unfold slice. rewrite app_assoc, drop_app_length' by (by rewrite length_app, length_le_bytes).
    apply take_ge. unfold zlen in Hl. lia.
Qed.

Section address.
Context `{HT : ToLowercase}.

Definition ascii (s : bytes) : Prop := Forall (λ b, 0 ≤ b < 128) s.
Definition mixed_case (s : bytes) : bool := existsb is_ascii_lowercase s && existsb is_ascii_uppercase s.

Lemma ascii_lower_ok s : ascii s → bytes_ok (ascii_lower <$> s).
Proof.
  intros H. apply Forall_fmap. eapply Forall_impl; [exact H|]. intros b Hb. cbn beta in *. unfold compose, ascii_lower, is_ascii_uppercase, in_width.
  destruct (Z.leb_spec 65 b), (Z.leb_spec b 90); cbn; lia.
Qed.

Lemma length_encode hrp data : bytes_ok data → zlen data = 40 → length (bech32m_encode hrp data) = (length hrp + 71)%nat.
Proof.
  intros Hd Hl. rewrite bech32m_encode_eq, length_app. cbn [length]. rewrite length_fmap. unfold word. rewrite length_app.
  destruct (to_5bit_flat data Hd) as (_ & p & Hp & Hf). apply (f_equal length) in Hf.
  rewrite length_app, !length_flat, length_replicate in Hf. unfold zlen in Hl. cbn [length checksum_digits fmap list_fmap]. lia.
Qed.

Lemma decode_encodes s a :
  ascii s → address_decode s = Ok a →
  address_ok a ∧ mixed_case s = false ∧ address_encode a = Ok (ascii_lower <$> s).
Proof.
  intros Hs. unfold address_decode. rewrite to_lowercase_ascii by done. fold (mixed_case s).
  pose proof (ascii_lower_ok s Hs) as Hb.
  intros H. destruct (_ <? zlen s); [done|]. destruct (mixed_case s); [done|].
  res_inv. bool_inv. rename l into hrp, l0 into p.
  match goal with H : bech32m_decode _ = _ |- _ => apply bech32m_decode_Ok in H as (Hne & Hh & Hp & Heq); [|done] end.
  match goal with H : network_magic_of_hrp _ = Ok _ |- _ => apply hrp_magic in H as Hm end.
  assert (Hl : zlen p = 40) by done. pose proof (payload_fields p Hp Hl) as Hf.
  match goal with H : le_val (slice p 3 7) = _ |- _ => rewrite <- H in Hm end.
  split; [|split; [done|]].
  + split_and!; cbn [addr_payload addr_network_magic].
    * apply (f_equal zlen) in Hf. rewrite !zlen_app, zlen_le_bytes, Hl in Hf. change (zlen [_; _; _]) with 3 in Hf. lia.
    * apply Forall_take, Forall_drop, Hp.
    * apply new_for_network_Ok. split_and!; [by eexists|done|]. by f_equal.
  + unfold address_encode. cbn [addr_network_magic]. rewrite Hm. cbn [expect rbind].
    unfold to_payload_bytes. cbn [addr_version addr_type addr_key_type addr_network_magic addr_payload].
    by rewrite Heq, <- Hf.
Qed.

Lemma encoded_decodes s a :
  ascii s → address_ok a → mixed_case s = false → address_encode a = Ok (ascii_lower <$> s) →
  address_decode s = Ok a.
Proof.
  intros Hs Ha Hmix He. unfold address_decode. rewrite to_lowercase_ascii by done. fold (mixed_case s).
  pose proof (ascii_lower_ok s Hs) as Hb.
  rewrite Hmix. pose proof Ha as (Hl & Hk & Hn).
  destruct (payload_bytes_ok a Ha) as [Hp Hpl].
  apply new_for_network_Ok in Hn as ((hrp & Hm) & Hv & Hn). destruct (hrp_known _ _ Hm) as (Hu & Hh & Hne & H4 & _).
  unfold address_encode in He. rewrite Hm in He. cbn [expect rbind] in He. injection He as He.
  assert (Hlen : zlen s ≤ 75).
  { apply (f_equal length) in He. rewrite length_encode, length_fmap in He by done. unfold zlen. lia. }
  destruct (Z.ltb_spec MAX_ADDRESS_LEN (zlen s)) as [Hgt|_]; [unfold MAX_ADDRESS_LEN in Hgt; lia|].
  rewrite (proj2 (bech32m_decode_Ok _ hrp (to_payload_bytes a) Hb)) by done. cbn [rbind]. rewrite Hpl.
  rewrite (proj1 (hrp_magic _ _) Hm). cbn [rbind negb Z.eqb].
  destruct (payload_parts a Hu Hl) as (E0 & E1 & E2 & E3 & E4). rewrite E0, E1, E2, E3, E4.
  assert (addr_version a = ADDRESS_PAYLOAD_VERSION_V3 ∧ addr_type a = ADDRESS_TYPE_STANDARD ∧
          addr_key_type a = ADDRESS_KEY_TYPE_SECP256K1_COMPRESSED) as (-> & -> & ->) by by rewrite Hn.
  rewrite !Z.eqb_refl. cbn [negb]. rewrite Hv. cbn [rbind]. by rewrite <- Hn.
Qed.


Lemma hrp_hamming m m' hrp hrp' :
  hrp_for_network_magic m = Some hrp → hrp_for_network_magic m' = Some hrp' → length hrp = length hrp' →
  length (hrp_expand hrp) = length (hrp_expand hrp') ∧
  (hamming (hrp_expand hrp) (hrp_expand hrp') ≤ hamming hrp hrp')%nat.
Proof.
  unfold hrp_for_network_magic. intros H H' Hl.
  repeat match type of H with (if ?b then _ else _) = _ => destruct b; [injection H as <-|] end; [..|done].
  all: repeat match type of H' with (if ?b then _ else _) = _ => destruct b; [injection H' as <-|] end; try done.
  all: split; [reflexivity|]; vm_compute; lia.
Qed.

Lemma address_payload_inj a a' :
  address_ok a → address_ok a' → to_payload_bytes a = to_payload_bytes a' → a = a'.
Proof.
  intros (Hl & _ & Hn) (Hl' & _ & Hn') H.
  pose proof Hn as ((hrp & Hm) & _ & _)%new_for_network_Ok. pose proof Hn' as ((hrp' & Hm') & _ & _)%new_for_network_Ok.
  destruct (payload_parts a) as (_ & _ & _ & E3 & E4); [by apply hrp_known in Hm as [? _]|done|].
  destruct (payload_parts a') as (_ & _ & _ & E3' & E4'); [by apply hrp_known in Hm' as [? _]|done|].
  rewrite H in E3, E4. rewrite E3 in E3'. rewrite E4 in E4'. rewrite E3', E4' in Hn. congruence.
Qed.

Lemma encode_distance a a' s t :
  address_ok a → address_ok a' → address_encode a = Ok s → address_encode a' = Ok t →
  length s = length t → (hamming s t ≤ 2)%nat → a = a'.
Proof.
  intros Ha Ha' Hs Ht Hl Hh. destruct (payload_bytes_ok a Ha) as [Hp Hpl], (payload_bytes_ok a' Ha') as [Hp' Hpl'].
  unfold address_encode in Hs, Ht. res_inv. rename a0 into hrp', a1 into hrp, Hm into Hm0, Hm0 into Hm.
  destruct (hrp_known _ _ Hm) as (_ & Hb & _ & H4 & _), (hrp_known _ _ Hm0) as (_ & Hb' & _ & _ & _).
  pose proof Hl as Hl'. rewrite !length_encode in Hl' by done. assert (Hlh : length hrp = length hrp') by lia. clear Hl'.
  destruct (hrp_hamming _ _ _ _ Hm Hm0 Hlh) as [Hel Heh]. rewrite !bech32m_encode_eq in *.
  assert (Hlw : length (word hrp (to_payload_bytes a)) = length (word hrp' (to_payload_bytes a'))).
  { rewrite !length_app in Hl. cbn [length] in Hl. rewrite !length_fmap in Hl. lia. }
  rewrite hamming_app in Hh by done. cbn [hamming] in Hh. rewrite Z.eqb_refl in Hh.
  assert (Hw : (hamming (word hrp (to_payload_bytes a)) (word hrp' (to_payload_bytes a'))
    ≤ hamming (charset_at <$> word hrp (to_payload_bytes a)) (charset_at <$> word hrp' (to_payload_bytes a')))%nat).
  { apply hamming_fmap; [done|]. pose proof (word_ok hrp _ Hp) as H1. pose proof (word_ok hrp' _ Hp') as H2.
    unfold digits_ok in H1, H2. rewrite Forall_forall in H1, H2. intros x y Hx Hy. apply charset_at_inj; auto. }
  assert (Heq : hrp_expand hrp ++ word hrp (to_payload_bytes a) = hrp_expand hrp' ++ word hrp' (to_payload_bytes a')).
  { apply polymod_distance.
    - apply Forall_app. split; [by apply hrp_expand_ok|by apply word_ok].
    - apply Forall_app. split; [by apply hrp_expand_ok|by apply word_ok].
    - rewrite !length_app. lia.
    - pose proof (length_encode hrp _ Hp Hpl) as Hn. rewrite bech32m_encode_eq, length_app in Hn.
      cbn [length] in Hn. rewrite length_fmap in Hn. rewrite length_app. unfold hrp_expand.
      rewrite !length_app, !length_fmap. cbn [length]. lia.
    - rewrite hamming_app by done. lia.
    - by rewrite !word_checksum. }
  apply app_inj_1 in Heq as [_ Heq]; [|done]. unfold word in Heq. apply app_inj_2 in Heq as [Heq _]; [|done].
  apply address_payload_inj; [done..|]. apply (f_equal from_5bit) in Heq. rewrite !from_to_5bit in Heq by done. congruence.
Qed.

(** C38: a mistyped address never decodes to a different one: two texts of the same length that
    both decode and differ, up to letter case, in at most two characters name the same address.
    The distance is that of the checksum code over the lengths an address can have. *)
Theorem address_errors_detected s t a a' :
  ascii s → ascii t → length s = length t →
  (hamming (ascii_lower <$> s) (ascii_lower <$> t) ≤ 2)%nat →
  address_decode s = Ok a → address_decode t = Ok a' → a' = a.
Proof.
  intros Hs Ht Hl Hh Ha Ha'.
  assert (Hex : ∀ u b, ascii u → address_decode u = Ok b → address_ok b ∧ address_encode b = Ok (ascii_lower <$> u)).
  { intros u b Hu H. by apply decode_encodes in H as (? & _ & ?). }
  destruct (Hex s a Hs Ha) as [Hok He], (Hex t a' Ht Ha') as [Hok' He']. symmetry.
  apply (encode_distance a a' (ascii_lower <$> s) (ascii_lower <$> t)); try done. by rewrite !length_fmap.
Qed.
End address.

(** ** Concrete text *)

#[export] Instance sample_lowercase : ToLowercase := {|
  to_lowercase s := ascii_lower <$> s;
  to_lowercase_ascii s _ := eq_refl;
|}.

Definition sample_address : Address := {|
  addr_payload := 2 :: replicate 32 2; addr_is_mainnet := true; addr_version := 1; addr_type := 0;
  addr_key_type := 0; addr_network_magic := NETWORK_MAGIC_MAINNET |}.
Definition sample_address_text : bytes :=
  Eval vm_compute in (match address_encode sample_address with Ok s => s | _ => [] end).

Lemma sample_address_ok : address_ok sample_address.
Proof. split_and!; [done| |done]. by repeat constructor. Qed.
Lemma sample_text_ascii : ascii sample_address_text.
Proof. by repeat constructor. Qed.


(** The same text in upper case: no character differs up to case. *)
Definition upper (s : bytes) : bytes := (λ b, if is_ascii_lowercase b then b - 32 else b) <$> s.
Lemma address_errors_detected_witness :
  ∃ a', address_decode (upper sample_address_text) = Ok a' ∧ a' = sample_address.
Proof.
  eexists. split; [vm_compute; reflexivity|].
  apply (address_errors_detected sample_address_text (upper sample_address_text));
    [apply sample_text_ascii|by repeat constructor|done|vm_compute; lia|vm_compute; reflexivity..].
Defined.

(** ** Text outside ASCII

    Unicode gives the Kelvin sign (U+212A, three bytes of UTF-8) the lower case [k]; lower-casing
    runs before the check for non-ASCII characters, so that check does not see it. *)

Fixpoint lower_kelvin (s : bytes) : bytes :=
  match s with
  | 226 :: 132 :: 170 :: t => 107 :: lower_kelvin t
  | b :: t => ascii_lower b :: lower_kelvin t
  | [] => []
  end.

Lemma lower_kelvin_ascii s : ascii s → lower_kelvin s = ascii_lower <$> s.
Proof.
  induction 1 as [|b s Hb Hs IH]; [done|]. cbn [fmap list_fmap]. rewrite <- IH.
  destruct (decide (b = 226)) as [->|Hne]; [lia|]. cbn [lower_kelvin].
  destruct b as [|p|p]; try done. repeat (destruct p as [p|p|]; try done).
Qed.

Definition kelvin_lowercase : ToLowercase := {|
  to_lowercase := lower_kelvin; to_lowercase_ascii := lower_kelvin_ascii |}.

Fixpoint k_to_kelvin (s : bytes) : bytes :=
  match s with
  | 107 :: t => [226; 132; 170] ++ t
  | b :: t => b :: k_to_kelvin t
  | [] => []
  end.

Definition kelvin_address : Address := {|
  addr_payload := 3 :: replicate 32 181; addr_is_mainnet := true; addr_version := 1; addr_type := 0;
  addr_key_type := 0; addr_network_magic := NETWORK_MAGIC_MAINNET |}.

Example non_ascii_text_decodes :
  match address_encode kelvin_address with
  | Ok s => bool_decide (ascii (k_to_kelvin s)) = false ∧
            address_decode (HT := kelvin_lowercase) (k_to_kelvin s) = Ok kelvin_address
  | _ => False
  end.
Proof. vm_compute. split; reflexivity. Qed.
