(* ===== verification/Serialization.v ===== *)
(** * Canonical serialization ([crates/dom-serialization/src/lib.rs])

    The bounded reader and writer, the [DomSerialize]/[DomDeserialize] traits as
    classes, and the interface [Codec]: what an encodable type promises to the
    types, blocks and messages built from it.  A [Codec] decoder accepts exactly
    the canonical bytes of a well-formed value, so every encoding is both
    readable and unique. *)

From Stdlib Require Import ZArith Lia.
From stdpp Require Import base list strings.
From S2P Require Import Prelude CoreError Core.

(** ** Cursor and budget classification *)

Inductive ReadAdvance : Type :=
| RA_End (end_ : Z)
| RA_Overflow
| RA_OutOfBounds.

Definition classify_read_advance (data_len position count : Z) : ReadAdvance :=
  match checked_add 64 position count with
  | None => RA_Overflow
  | Some end_ => if data_len <? end_ then RA_OutOfBounds else RA_End end_
  end.

Inductive ListBudget : Type :=
| LB_Valid (required : Z)
| LB_ZeroItemSize
| LB_Overflow
| LB_Insufficient.

Definition classify_list_budget (count minimum_item_size remaining : Z) : ListBudget :=
  if minimum_item_size =? 0 then LB_ZeroItemSize
  else match checked_mul 64 count minimum_item_size with
       | None => LB_Overflow
       | Some required =>
           if remaining <? required then LB_Insufficient else LB_Valid required
       end.

Definition length_within_limit (declared limit : Z) : bool := declared <=? limit.

(** ** Writer *)

Record Writer : Type := { buf : bytes }.

Definition writer_new : Writer := {| buf := [] |}.
Definition append (w : Writer) (bs : bytes) : Writer := {| buf := buf w ++ bs |}.

Definition write_u8 (w : Writer) (v : Z) : Writer := append w [v].
Definition write_u16 (w : Writer) (v : Z) : Writer := append w (le_bytes 2 v).
Definition write_u32 (w : Writer) (v : Z) : Writer := append w (le_bytes 4 v).
Definition write_u64 (w : Writer) (v : Z) : Writer := append w (le_bytes 8 v).
Definition write_u128 (w : Writer) (v : Z) : Writer := append w (le_bytes 16 v).
Definition write_bytes (w : Writer) (data : bytes) : Writer := append w data.

Definition write_vec (w : Writer) (data : bytes) : Result Writer :=
  let? len := (if zlen data <=? u32_max then Ok (zlen data)
               else Err (Malformed "vec length exceeds u32")) in
  Ok (write_bytes (write_u32 w len) data).

Definition writer_finish (w : Writer) : bytes := buf w.
Definition writer_len (w : Writer) : Z := zlen (buf w).
Definition writer_is_empty (w : Writer) : bool := zlen (buf w) =? 0.

(** [trait DomSerialize] *)
Class DomSerialize (T : Type) : Type := serialize : T → Writer → Result Writer.

Definition write_list `{!DomSerialize T} (w : Writer) (items : list T) : Result Writer :=
  let? len := (if zlen items <=? u32_max then Ok (zlen items)
               else Err (Malformed "list length exceeds u32")) in
  try_fold (λ w item, serialize item w) (write_u32 w len) items.

Definition to_bytes `{!DomSerialize T} (v : T) : Result bytes :=
  let? w := serialize v writer_new in
  Ok (writer_finish w).

(** ** Reader *)

Record Reader : Type := { data : bytes; pos : Z }.

(** A reading operation threads the reader; an error abandons it, as the [?] of
    every caller does. *)
Definition Rd (A : Type) : Type := Reader → Result (A * Reader).

Definition rd_ret {A} (a : A) : Rd A := λ r, Ok (a, r).
Definition rd_lift {A} (m : Result A) : Rd A := λ r, let? a := m in Ok (a, r).
Definition rd_fail {A} (e : DomError) : Rd A := λ _, Err e.
Definition rd_bind {A B} (d : Rd A) (k : A → Rd B) : Rd B :=
  λ r, let? (a, r') := d r in k a r'.

Notation "'read!' x ':=' d 'in' k" := (rd_bind d (λ x, k))
  (at level 10, x pattern, d at level 200, k at level 200,
   format "'[v' 'read!'  x  ':='  d  'in' '/' k ']'") : dom_scope.

Definition reader_new (data : bytes) : Reader := {| data := data; pos := 0 |}.
Definition position (r : Reader) : Z := pos r.
Definition remaining (r : Reader) : Z := saturating_sub (zlen (data r)) (pos r).

Definition consume (n : Z) : Rd bytes := λ r,
  match classify_read_advance (zlen (data r)) (pos r) n with
  | RA_End end_ =>
      Ok (slice (data r) (pos r) end_, {| data := data r; pos := end_ |})
  | RA_Overflow => Err (Malformed "position arithmetic overflow")
  | RA_OutOfBounds =>
      Err (Malformed ("unexpected EOF: need " +:+ dec n +:+ " bytes at pos "
                      +:+ dec (pos r) +:+ ", have " +:+ dec (remaining r))%string)
  end.

(** [b[0]], a panic when the slice is empty *)
Definition read_u8 : Rd Z :=
  read! b := consume 1 in
  rd_lift (expect (head b)).

Definition read_u16 : Rd Z := read! b := consume 2 in rd_ret (le_val b).
Definition read_u32 : Rd Z := read! b := consume 4 in rd_ret (le_val b).
Definition read_u64 : Rd Z := read! b := consume 8 in rd_ret (le_val b).
Definition read_u128 : Rd Z := read! b := consume 16 in rd_ret (le_val b).
Definition read_bytes (n : Z) : Rd bytes := consume n.
Definition read_array (n : Z) : Rd bytes := consume n.

Definition read_vec (max_len : Z) : Rd bytes :=
  read! len := read_u32 in
  if negb (length_within_limit len max_len) then
    rd_fail (Malformed ("vec length " +:+ dec len +:+ " exceeds limit "
                        +:+ dec max_len)%string)
  else consume len.

(** [trait DomDeserialize] *)
Class DomDeserialize (T : Type) : Type := {
  MIN_SERIALIZED_SIZE : Z;
  deserialize : Rd T;
}.
Arguments MIN_SERIALIZED_SIZE T {_}.

Fixpoint read_items {T} (d : Rd T) (count : nat) : Rd (list T) :=
  match count with
  | O => rd_ret []
  | S n => read! x := d in
           read! xs := read_items d n in
           rd_ret (x :: xs)
  end.

Definition read_list (T : Type) `{!DomDeserialize T} (max_count : Z) : Rd (list T) :=
  read! count := read_u32 in
  if negb (length_within_limit count max_count) then
    rd_fail (Malformed ("list count " +:+ dec count +:+ " exceeds limit "
                        +:+ dec max_count)%string)
  else λ r,
    let remaining := saturating_sub (zlen (data r)) (pos r) in
    match classify_list_budget count (MIN_SERIALIZED_SIZE T) remaining with
    | LB_Valid _ => read_items (deserialize (T := T)) (Z.to_nat count) r
    | LB_ZeroItemSize =>
        Err (Internal "minimum serialized item size must be non-zero")
    | LB_Overflow => Err (Malformed "list minimum serialized byte budget overflow")
    | LB_Insufficient =>
        let? required := expect (checked_mul 64 count (MIN_SERIALIZED_SIZE T)) in
        Err (Malformed ("list count " +:+ dec count +:+ " requires at least "
                        +:+ dec required +:+ " serialized bytes, but only "
                        +:+ dec remaining +:+ " bytes remain")%string)
    end.

Definition reader_finish (r : Reader) : Result unit :=
  if negb (pos r =? zlen (data r)) then
    Err (Malformed ("trailing bytes: " +:+ dec (saturating_sub (zlen (data r)) (pos r))
                    +:+ " byte(s) unconsumed")%string)
  else Ok tt.

Definition from_bytes (T : Type) `{!DomDeserialize T} (bs : bytes) : Result T :=
  let? (val, r) := deserialize (reader_new bs) in
  let? _ := reader_finish r in
  Ok val.

(** ** The primitive types of dom-core *)

#[export] Instance Hash256_serialize : DomSerialize Hash256 :=
  λ h w, Ok (write_bytes w (hash_bytes h)).
#[export] Instance Hash256_deserialize : DomDeserialize Hash256 := {|
  MIN_SERIALIZED_SIZE := 32;
  deserialize := read! arr := read_array 32 in rd_ret {| hash_bytes := arr |};
|}.

#[export] Instance BlockHeight_serialize : DomSerialize BlockHeight :=
  λ h w, Ok (write_u64 w (height_val h)).
#[export] Instance BlockHeight_deserialize : DomDeserialize BlockHeight := {|
  MIN_SERIALIZED_SIZE := 8;
  deserialize := read! v := read_u64 in rd_ret {| height_val := v |};
|}.

#[export] Instance Timestamp_serialize : DomSerialize Timestamp :=
  λ t w, Ok (write_u64 w (time_val t)).
#[export] Instance Timestamp_deserialize : DomDeserialize Timestamp := {|
  MIN_SERIALIZED_SIZE := 8;
  deserialize := read! v := read_u64 in rd_ret {| time_val := v |};
|}.

#[export] Instance Amount_serialize : DomSerialize Amount :=
  λ a w, Ok (write_u64 w (noms a)).
#[export] Instance Amount_deserialize : DomDeserialize Amount := {|
  MIN_SERIALIZED_SIZE := 8;
  deserialize := read! v := read_u64 in rd_lift (from_noms v);
|}.

(** ** Reader invariant and the bytes still to be read *)

Definition reader_ok (r : Reader) : Prop :=
  bytes_ok (data r) ∧ 0 ≤ pos r ≤ zlen (data r) ∧ zlen (data r) < 2 ^ 63.

Definition rest (r : Reader) : bytes := drop (Z.to_nat (pos r)) (data r).
Definition advance (r : Reader) (n : Z) : Reader :=
  {| data := data r; pos := pos r + n |}.

(** [parses d P w]: on every valid reader, [d] accepts exactly the values
    satisfying [P], each from its encoding [w] and nothing else; it never
    panics. *)
Definition parses {A} (d : Rd A) (P : A → Prop) (w : A → bytes) : Prop :=
  ∀ r, reader_ok r →
    d r ≠ Panic ∧
    ∀ a r', d r = Ok (a, r') ↔
      P a ∧ ∃ post, rest r = w a ++ post ∧ r' = advance r (zlen (w a)).

(** The interface of an encodable type. *)
Class Codec (T : Type) `{!DomSerialize T, !DomDeserialize T} : Type := {
  wf : T → Prop;
  wire : T → bytes;
  serialize_wire a w : wf a → serialize a w = Ok (append w (wire a));
  deserialize_parses : parses (deserialize (T := T)) wf wire;
  wire_bytes_ok a : wf a → bytes_ok (wire a);
  wire_min_size a : wf a → MIN_SERIALIZED_SIZE T ≤ zlen (wire a);
  min_size_pos : 0 < MIN_SERIALIZED_SIZE T < 2 ^ 32;
}.

Lemma append_append w a b : append (append w a) b = append w (a ++ b).
Proof. unfold append. simpl. by rewrite app_assoc. Qed.
Lemma append_nil w : append w [] = w.
Proof. unfold append. destruct w. simpl. by rewrite app_nil_r. Qed.

Lemma reader_ok_rest r : reader_ok r → bytes_ok (rest r).
Proof. intros (H & _ & _). by apply Forall_drop. Qed.

Lemma zlen_rest r : reader_ok r → zlen (rest r) = zlen (data r) - pos r.
Proof.
  intros (_ & Hp & _). unfold rest, zlen in *. rewrite length_drop. lia.
Qed.

Lemma advance_0 r : advance r 0 = r.
Proof. destruct r. unfold advance. simpl. by rewrite Z.add_0_r. Qed.

Lemma advance_advance r a b : advance (advance r a) b = advance r (a + b).
Proof. unfold advance. simpl. by rewrite Z.add_assoc. Qed.

Lemma rest_advance r l post :
  reader_ok r → rest r = l ++ post → rest (advance r (zlen l)) = post.
Proof.
  intros (_ & Hp & _) Hr. unfold rest, advance in *. simpl.
  rewrite Z2Nat.inj_add, zlen_to_nat by (try apply zlen_nonneg; lia).
  rewrite <- drop_drop, Hr. by rewrite drop_app_length.
Qed.

Lemma reader_ok_advance r l post :
  reader_ok r → rest r = l ++ post → reader_ok (advance r (zlen l)).
Proof.
  intros Hr Hl. pose proof (zlen_rest r Hr) as Hz. rewrite Hl, zlen_app in Hz.
  destruct Hr as (Hb & Hp & Hs). unfold reader_ok, advance. simpl.
  pose proof (zlen_nonneg l). pose proof (zlen_nonneg post). split_and!; [done|lia..].
Qed.

Lemma reader_ok_new bs : bytes_ok bs → zlen bs < 2 ^ 63 → reader_ok (reader_new bs).
Proof.
  intros. unfold reader_ok, reader_new. simpl. pose proof (zlen_nonneg bs).
  split_and!; auto with lia.
Qed.

(** *** Primitive reads *)

Lemma consume_parses n :
  0 ≤ n < 2 ^ 63 → parses (consume n) (λ b, zlen b = n ∧ bytes_ok b) id.
Proof.
  intros Hn r Hr. pose proof (zlen_rest r Hr) as Hz.
  pose proof (reader_ok_rest r Hr) as Hb.
  destruct Hr as (_ & Hp & Hs).
  unfold consume, classify_read_advance.
  destruct (checked_add 64 (pos r) n) as [e|] eqn:He.
  2: { apply checked_add_None in He. lia. }
  apply checked_add_Some in He as [-> _].
  assert (Hslice : slice (data r) (pos r) (pos r + n) = take (Z.to_nat n) (rest r)).
  { unfold slice, rest. by rewrite Z.add_simpl_l. }
  destruct (Z.ltb_spec (zlen (data r)) (pos r + n)) as [Hlt|Hge].
  - split; [done|]. intros a r'. split; [done|].
    intros ([Ha _] & post & Hpost & _). simpl in Hpost.
    rewrite Hpost, zlen_app in Hz. pose proof (zlen_nonneg post). lia.
  - split; [done|]. intros a r'. rewrite Hslice. split.
    + intros [= <- <-]. split_and!.
      * unfold zlen in *. rewrite length_take. lia.
      * by apply Forall_take.
      * exists (drop (Z.to_nat n) (rest r)). simpl. rewrite take_drop. split; [done|].
        unfold advance. do 2 f_equal. unfold zlen in *. rewrite length_take. lia.
    + intros ([Ha _] & post & Hpost & ->). simpl in *. rewrite Hpost.
      rewrite <- Ha, zlen_to_nat, take_app_length. done.
Qed.

Lemma rest_inj_r (l1 l2 p1 p2 : bytes) :
  zlen l1 = zlen l2 → l1 ++ p1 = l2 ++ p2 → l1 = l2 ∧ p1 = p2.
Proof. intros H He. apply app_inj_1 in He; [done|]. unfold zlen in H. lia. Qed.

(** *** Combinators *)

Lemma parses_ret {A} (c : A) (P : A → Prop) :
  (∀ a, P a ↔ a = c) → parses (rd_ret c) P (λ _, []).
Proof.
  intros HP r Hr. split; [done|]. intros a r'. rewrite HP. unfold rd_ret. split.
  - intros [= <- <-]. split; [done|]. exists (rest r). by rewrite advance_0.
  - intros (-> & post & _ & ->). by rewrite advance_0.
Qed.

Lemma parses_equiv {A} (d : Rd A) (P P' : A → Prop) w w' :
  parses d P w → (∀ a, P a ↔ P' a) → (∀ a, P a → w a = w' a) → parses d P' w'.
Proof.
  intros Hd HP Hw r Hr. destruct (Hd r Hr) as [Hnp Hiff]. split; [done|].
  intros a r'. rewrite Hiff. split.
  - intros [Ha H]. rewrite <- (Hw a) by done. split; [by apply HP|done].
  - intros [Ha H]. apply HP in Ha. rewrite <- (Hw a) in H by done. done.
Qed.

Lemma parses_ext {A} (d d' : Rd A) P w :
  (∀ r, d r = d' r) → parses d P w → parses d' P w.
Proof. intros Hd H r Hr. rewrite <- Hd. by apply H. Qed.

Lemma rd_bind_assoc {A B C} (d : Rd A) (f : A → Rd B) (k : B → Rd C) r :
  rd_bind (rd_bind d f) k r = rd_bind d (λ a, rd_bind (f a) k) r.
Proof. unfold rd_bind. by destruct (d r) as [[a r']|e|]. Qed.

(** One field of a record: [f] is its projection, [C] what the earlier fields
    fixed, [R] what the later ones require. *)
Lemma parses_bind {A T} (d : Rd A) (k : A → Rd T) (f : T → A)
    (P : A → Prop) (C R : T → Prop) (w : A → bytes) (v : T → bytes) :
  parses d P w →
  (∀ x, P x → parses (k x) (λ t, (C t ∧ f t = x) ∧ R t) v) →
  parses (rd_bind d k) (λ t, C t ∧ P (f t) ∧ R t) (λ t, w (f t) ++ v t).
Proof.
  intros Hd Hk r Hr. destruct (Hd r Hr) as [Hnp Hiff]. unfold rd_bind. split.
  - intros [H|([x r1] & Hx & H)]%rbind_Panic; [done|].
    apply Hiff in Hx as (Px & post & Hpost & ->).
    destruct (Hk x Px (advance r (zlen (w x)))) as [Hk' _]; [|done].
    eauto using reader_ok_advance.
  - intros t r'. rewrite rbind_Ok. split.
    + intros ([x r1] & Hx & H). apply Hiff in Hx as (Px & post & Hpost & ->).
      destruct (Hk x Px (advance r (zlen (w x)))) as [_ Hk'];
        [eauto using reader_ok_advance|].
      apply Hk' in H as (((HC & <-) & HR) & post' & Hrest & ->).
      rewrite (rest_advance r (w (f t)) post Hr Hpost) in Hrest. subst post.
      split; [done|]. exists post'. rewrite <- app_assoc. split; [done|].
      by rewrite advance_advance, zlen_app.
    + intros ((HC & Px & HR) & post & Hpost & ->). rewrite <- app_assoc in Hpost.
      exists (f t, advance r (zlen (w (f t)))). split; [apply Hiff; eauto|].
      destruct (Hk (f t) Px (advance r (zlen (w (f t))))) as [_ Hk'];
        [eauto using reader_ok_advance|].
      apply Hk'. split; [done|]. exists post.
      rewrite advance_advance, zlen_app. split; [|done].
      eauto using rest_advance.
Qed.

Lemma parses_guard {A} (b : bool) (e : DomError) (d : Rd A) (P : A → Prop) w :
  (b = true → ∀ a, ¬ P a) → (b = false → parses d P w) →
  parses (if b then rd_fail e else d) P w.
Proof.
  intros Ht Hf. destruct b; [|auto]. intros r Hr. split; [done|].
  intros a r'. split; [done|]. intros [Ha _]. by destruct (Ht eq_refl a).
Qed.

Lemma parses_lift {A T} (m : Result A) (k : A → Rd T) (P : T → Prop) w :
  m ≠ Panic →
  (∀ c, m = Ok c → parses (k c) P w) →
  ((∀ c, m ≠ Ok c) → ∀ t, ¬ P t) →
  parses (rd_bind (rd_lift m) k) P w.
Proof.
  intros Hnp Hk Hno r Hr. unfold rd_bind, rd_lift. destruct m as [c|e|]; [|split|done].
  - simpl. by apply (Hk c).
  - done.
  - intros t r'. split; [done|]. intros [Ht _]. by destruct (Hno ltac:(done) t).
Qed.

Lemma parses_lift_ret {A} (m : Result A) (P : A → Prop) :
  m ≠ Panic → (∀ c, m = Ok c ↔ P c) → parses (rd_lift m) P (λ _, []).
Proof.
  intros Hnp Hm r Hr. unfold rd_lift. split; [by destruct m|]. intros a r'.
  rewrite rbind_Ok. split.
  - intros (c & Hc & [= -> <-]). rewrite advance_0. split; [by apply Hm|].
    by exists (rest r).
  - intros (Ha & post & _ & ->). rewrite advance_0. exists a. by rewrite Hm.
Qed.

(** A scalar field: the last step of a read. *)
Lemma parses_map {A B} (d : Rd A) (g : A → B) (f : B → A) (P : A → Prop) w :
  parses d P w → (∀ a, P a → f (g a) = a) → (∀ b, P (f b) → g (f b) = b) →
  parses (rd_bind d (λ x, rd_ret (g x))) (λ b, P (f b)) (λ b, w (f b)).
Proof.
  intros Hd Hfg Hgf.
  eapply parses_equiv.
  - apply (parses_bind d _ f P (λ _, True) (λ b, P (f b)) w (λ _, [])); [done|].
    intros x Px. apply parses_ret. intros b. split.
    + intros ((_ & <-) & _). symmetry. auto.
    + intros ->. rewrite Hfg by done. done.
  - intros b. tauto.
  - intros b _. simpl. by rewrite app_nil_r.
Qed.

(** *** Integers *)

Lemma le_read_parses n :
  (n ≤ 16)%nat →
  parses (read! b := consume (Z.of_nat n) in rd_ret (le_val b))
    (in_width (8 * Z.of_nat n)) (le_bytes n).
Proof.
  intros Hn.
  assert (Hpow : 256 ^ Z.of_nat n = 2 ^ (8 * Z.of_nat n)).
  { rewrite Z.pow_mul_r by lia. done. }
  eapply parses_equiv.
  - eapply (parses_bind _ _ (le_bytes n) _ (λ _, True) (in_width (8 * Z.of_nat n)));
      [apply consume_parses; lia|].
    intros b [Hlen Hb]. apply (parses_ret (le_val b)). intros v.
    assert (Hl : length b = n) by (unfold zlen in Hlen; lia).
    pose proof (le_val_bound b Hb) as Hbd. rewrite Hlen, Hpow in Hbd. split.
    + intros ((_ & <-) & Hv). rewrite le_val_le_bytes_id by done. done.
    + intros ->. split; [split; [done|]|done].
      rewrite <- Hl. by apply le_bytes_le_val.
  - intros v. simpl. rewrite zlen_le_bytes. pose proof (le_bytes_ok n v). tauto.
  - intros v _. simpl. by rewrite app_nil_r.
Qed.

Lemma read_u16_parses : parses read_u16 u16_ok (le_bytes 2).
Proof. apply (le_read_parses 2). lia. Qed.
Lemma read_u32_parses : parses read_u32 u32_ok (le_bytes 4).
Proof. apply (le_read_parses 4). lia. Qed.
Lemma read_u64_parses : parses read_u64 u64_ok (le_bytes 8).
Proof. apply (le_read_parses 8). lia. Qed.
Lemma read_u128_parses : parses read_u128 u128_ok (le_bytes 16).
Proof. apply (le_read_parses 16). lia. Qed.

Lemma read_u8_parses : parses read_u8 u8_ok (λ v, [v]).
Proof.
  eapply parses_equiv.
  - eapply (parses_bind _ _ (λ v, [v]) _ (λ _, True) u8_ok);
      [apply consume_parses; lia|].
    intros b [Hlen Hb]. destruct b as [|x [|y b]]; [done| |].
    2: { exfalso. unfold zlen in Hlen. simpl in Hlen. lia. }
    apply (parses_lift_ret (expect (Some x))); [done|]. intros c. simpl.
    apply bytes_ok_cons in Hb as [Hx _]. naive_solver.
  - intros v. simpl. pose proof (zlen_cons v (@nil Z)).
    rewrite bytes_ok_cons, zlen_nil in *. pose proof bytes_ok_nil. tauto.
  - done.
Qed.

Lemma read_array_parses n :
  0 ≤ n < 2 ^ 63 → parses (read_array n) (λ b, zlen b = n ∧ bytes_ok b) id.
Proof. apply consume_parses. Qed.

(** *** Length-prefixed bytes and lists *)

Definition vec_ok (max_len : Z) (b : bytes) : Prop :=
  zlen b ≤ max_len ∧ zlen b < 2 ^ 32 ∧ bytes_ok b.
Definition vec_wire (b : bytes) : bytes := le_bytes 4 (zlen b) ++ b.

Lemma read_vec_parses max_len : parses (read_vec max_len) (vec_ok max_len) vec_wire.
Proof.
  eapply parses_equiv.
  - eapply (parses_bind _ _ zlen _ (λ _, True) (vec_ok max_len) _ id);
      [apply read_u32_parses|].
    intros len Hlen. apply parses_guard.
    + intros Hb a ((_ & <-) & Ha & _). unfold length_within_limit in Hb.
      apply negb_true_iff in Hb. lia.
    + intros Hb. unfold length_within_limit in Hb. apply negb_false_iff in Hb.
      unfold in_width in Hlen.
      eapply parses_equiv; [apply consume_parses; lia| |done].
      intros b. unfold vec_ok. split; [|tauto].
      intros [<- Hok]. split_and!; [done..|lia|lia|done].
  - intros b. simpl. split; [tauto|]. intros (? & ? & ?). unfold in_width, vec_ok.
    pose proof (zlen_nonneg b). tauto.
  - done.
Qed.

Lemma write_vec_ok max_len b w :
  vec_ok max_len b → write_vec w b = Ok (append w (vec_wire b)).
Proof.
  intros (_ & Hb & _). unfold write_vec, u32_max.
  destruct (Z.leb_spec (zlen b) (2 ^ 32 - 1)); [|lia]. simpl.
  unfold write_bytes, write_u32. by rewrite append_append.
Qed.

Lemma vec_wire_ok max_len b : vec_ok max_len b → bytes_ok (vec_wire b).
Proof. intros (_ & _ & H). apply bytes_ok_app. split; [apply le_bytes_ok|done]. Qed.
Lemma zlen_vec_wire b : zlen (vec_wire b) = 4 + zlen b.
Proof. unfold vec_wire. by rewrite zlen_app, zlen_le_bytes. Qed.

Lemma read_items_parses {T} (d : Rd T) P w n :
  parses d P w →
  parses (read_items d n) (λ l, length l = n ∧ Forall P l) (λ l, mjoin (w <$> l)).
Proof.
  intros Hd. induction n as [|n IH]; simpl.
  - eapply parses_equiv; [apply (parses_ret [] (λ l, l = [])); done| |by intros ? ->].
    intros [|]; simpl; naive_solver.
  - intros r Hr. destruct (Hd r Hr) as [Hnp Hiff]. unfold rd_bind. split.
    + intros [H|([x r1] & Hx & H)]%rbind_Panic; [done|].
      apply Hiff in Hx as (Px & post & Hpost & ->).
      destruct (IH (advance r (zlen (w x)))) as [HIH _];
        [eauto using reader_ok_advance|].
      apply rbind_Panic in H as [H|([xs r2] & _ & H)]; done.
    + intros l r'. rewrite rbind_Ok. split.
      * intros ([x r1] & Hx & H). apply Hiff in Hx as (Px & post & Hpost & ->).
        apply rbind_Ok in H as ([xs r2] & Hxs & [= <- <-]).
        apply IH in Hxs as ((Hl & HF) & post' & Hrest & ->);
          [|eauto using reader_ok_advance].
        rewrite (rest_advance r _ post Hr Hpost) in Hrest. subst post. simpl.
        split; [split; [lia|by constructor]|]. exists post'.
        by rewrite <- app_assoc, advance_advance, zlen_app.
      * intros ((Hl & HF) & post & Hpost & ->). destruct l as [|x xs]; [done|].
        apply Forall_cons in HF as [Px HF]. simpl in Hpost. rewrite <- app_assoc in Hpost.
        exists (x, advance r (zlen (w x))). split; [apply Hiff; eauto|].
        apply rbind_Ok. exists (xs, advance r (zlen (mjoin (w <$> x :: xs)))).
        split; [|done]. apply IH; [eauto using reader_ok_advance|].
        split; [simpl in Hl; split; [lia|done]|]. exists post.
        rewrite advance_advance. simpl. rewrite zlen_app. split; [|done].
        eauto using rest_advance.
Qed.

Section list_codec.
Context {T : Type} `{HS : !DomSerialize T, HD : !DomDeserialize T} `{HC : !Codec T}.

Definition list_ok (max_count : Z) (l : list T) : Prop :=
  zlen l ≤ max_count ∧ zlen l < 2 ^ 32 ∧ Forall wf l.
Definition items_wire (l : list T) : bytes := mjoin (wire <$> l).
Definition list_wire (l : list T) : bytes := le_bytes 4 (zlen l) ++ items_wire l.

Lemma items_wire_cons x l : items_wire (x :: l) = wire x ++ items_wire l.
Proof. done. Qed.

Lemma items_wire_size l :
  Forall wf l → zlen l * MIN_SERIALIZED_SIZE T ≤ zlen (items_wire l).
Proof.
  induction 1 as [|x l Hx _ IH]; [done|].
  rewrite items_wire_cons, zlen_cons, zlen_app, Z.mul_add_distr_r, Z.mul_1_l.
  pose proof (wire_min_size x Hx). lia.
Qed.

Lemma items_wire_ok l : Forall wf l → bytes_ok (items_wire l).
Proof.
  unfold items_wire. induction 1; simpl; [apply bytes_ok_nil|].
  apply bytes_ok_app. auto using wire_bytes_ok.
Qed.

Lemma list_wire_ok max_count l : list_ok max_count l → bytes_ok (list_wire l).
Proof.
  intros (_ & _ & H). apply bytes_ok_app. split; [apply le_bytes_ok|by apply items_wire_ok].
Qed.

Lemma zlen_list_wire_min l : 4 ≤ zlen (list_wire l).
Proof.
  unfold list_wire. rewrite zlen_app, zlen_le_bytes.
  pose proof (zlen_nonneg (items_wire l)). lia.
Qed.

Lemma serialize_items l w :
  Forall wf l →
  try_fold (λ w item, serialize item w) w l = Ok (append w (items_wire l)).
Proof.
  unfold items_wire. intros Hl. revert w. induction Hl as [|x l Hx _ IH]; intros w; simpl.
  - by rewrite append_nil.
  - rewrite serialize_wire by done. simpl. by rewrite IH, append_append.
Qed.

Lemma write_list_ok max_count l w :
  list_ok max_count l → write_list w l = Ok (append w (list_wire l)).
Proof.
  intros (_ & Hb & Hl). unfold write_list, u32_max.
  destruct (Z.leb_spec (zlen l) (2 ^ 32 - 1)); [|lia]. simpl.
  rewrite serialize_items by done. unfold write_u32. by rewrite append_append.
Qed.

(** The byte budget never rejects a list that is there to be read. *)
Lemma budget_parses count :
  0 ≤ count < 2 ^ 32 →
  parses (λ r,
      match classify_list_budget count (MIN_SERIALIZED_SIZE T)
              (saturating_sub (zlen (data r)) (pos r)) with
      | LB_Valid _ => read_items (deserialize (T := T)) (Z.to_nat count) r
      | LB_ZeroItemSize =>
          Err (Internal "minimum serialized item size must be non-zero")
      | LB_Overflow => Err (Malformed "list minimum serialized byte budget overflow")
      | LB_Insufficient =>
          let? required := expect (checked_mul 64 count (MIN_SERIALIZED_SIZE T)) in
          Err (Malformed ("list count " +:+ dec count +:+ " requires at least "
                          +:+ dec required +:+ " serialized bytes, but only "
                          +:+ dec (saturating_sub (zlen (data r)) (pos r))
                          +:+ " bytes remain")%string)
      end)
    (λ l, zlen l = count ∧ Forall wf l) items_wire.
Proof.
  intros Hc r Hr. pose proof min_size_pos as Hm. pose proof (zlen_rest r Hr) as Hz.
  pose proof (read_items_parses _ _ _ (Z.to_nat count) deserialize_parses r Hr)
    as [Hnp Hiff].
  assert (Hlen : ∀ l : list T, length l = Z.to_nat count ↔ zlen l = count)
    by (intros l; unfold zlen; lia).
  assert (HM : checked_mul 64 count (MIN_SERIALIZED_SIZE T)
               = Some (count * MIN_SERIALIZED_SIZE T)) by (apply checked_mul_Some; nia).
  unfold classify_list_budget. rewrite HM.
  destruct (Z.eqb_spec (MIN_SERIALIZED_SIZE T) 0); [lia|].
  destruct (Z.ltb_spec (saturating_sub (zlen (data r)) (pos r))
              (count * MIN_SERIALIZED_SIZE T)) as [Hlt|Hge].
  - split; [done|]. intros l r'. split; [done|].
    intros ((<- & HF) & post & Hpost & _). exfalso.
    pose proof (items_wire_size l HF). rewrite Hpost, zlen_app in Hz.
    unfold saturating_sub in Hlt. pose proof (zlen_nonneg post). lia.
  - split; [done|]. intros l r'. rewrite Hiff, Hlen. done.
Qed.

Lemma read_list_parses max_count :
  parses (read_list T max_count) (list_ok max_count) list_wire.
Proof.
  eapply parses_equiv.
  - eapply (parses_bind _ _ zlen _ (λ _, True) (list_ok max_count) _ items_wire);
      [apply read_u32_parses|].
    intros len Hlen. apply parses_guard.
    + intros Hb a ((_ & <-) & Ha & _). unfold length_within_limit in Hb.
      apply negb_true_iff in Hb. lia.
    + intros Hb. unfold length_within_limit in Hb. apply negb_false_iff in Hb.
      eapply parses_equiv; [apply (budget_parses len Hlen)| |done].
      intros l. unfold list_ok. unfold in_width in Hlen. split; [|tauto].
      intros [<- HF]. split_and!; [done..|lia|lia|done].
  - intros l. simpl. split; [tauto|]. intros (? & ? & ?). unfold in_width, list_ok.
    pose proof (zlen_nonneg l). tauto.
  - done.
Qed.
End list_codec.

(** ** Laws every codec satisfies *)

Section codec_laws.
Context {T : Type} `{HS : !DomSerialize T, HD : !DomDeserialize T} `{HC : !Codec T}.

Lemma to_bytes_wire (a : T) : wf a → to_bytes a = Ok (wire a).
Proof. intros Ha. unfold to_bytes. by rewrite serialize_wire. Qed.

Lemma from_bytes_wire bs (a : T) :
  bytes_ok bs → zlen bs < 2 ^ 63 →
  from_bytes T bs = Ok a ↔ wf a ∧ bs = wire a.
Proof.
  intros Hb Hl. pose proof (reader_ok_new bs Hb Hl) as Hr.
  destruct (deserialize_parses _ Hr) as [_ Hiff]. unfold from_bytes.
  rewrite rbind_Ok. split.
  - intros ([v r] & Hv & H). apply Hiff in Hv as (Hwf & post & Hpost & ->).
    apply rbind_Ok in H as ([] & Hfin & [= ->]). split; [done|].
    unfold reader_finish, advance, reader_new in Hfin. cbn [pos data] in Hfin.
    rewrite Z.add_0_l in Hfin.
    destruct (Z.eqb_spec (zlen (wire a)) (zlen bs)) as [He|]; [|done].
    change (rest (reader_new bs)) with bs in Hpost. subst bs.
    rewrite zlen_app in He. by rewrite (zlen_0_nil post), app_nil_r by lia.
  - intros [Hwf ->]. exists (a, advance (reader_new (wire a)) (zlen (wire a))). split.
    + apply Hiff. split; [done|]. exists []. by rewrite app_nil_r.
    + unfold reader_finish. simpl. by rewrite Z.eqb_refl.
Qed.

Lemma from_bytes_no_panic bs :
  bytes_ok bs → zlen bs < 2 ^ 63 → from_bytes T bs ≠ Panic.
Proof.
  intros Hb Hl. destruct (deserialize_parses _ (reader_ok_new bs Hb Hl)) as [Hnp _].
  unfold from_bytes. intros [?|([v r] & _ & H)]%rbind_Panic; [done|].
  apply rbind_Panic in H as [H|(? & _ & H)]; [|done].
  unfold reader_finish in H. by destruct (_ =? _).
Qed.

(** Decoding inverts encoding and accepts nothing else. *)
Lemma codec_exact bs (a : T) :
  bytes_ok bs → zlen bs < 2 ^ 63 →
  from_bytes T bs ≠ Panic ∧ (from_bytes T bs = Ok a ↔ wf a ∧ to_bytes a = Ok bs).
Proof.
  intros Hb Hl. split; [by apply from_bytes_no_panic|].
  rewrite from_bytes_wire by done. split.
  - intros [Hwf ->]. auto using to_bytes_wire.
  - intros [Hwf H]. rewrite to_bytes_wire in H by done. naive_solver.
Qed.
End codec_laws.

(** ** Codecs of the primitive types *)

#[export, refine] Instance Hash256_codec : Codec Hash256 := {|
  wf := hash_ok;
  wire := hash_bytes;
|}.
Proof.
  - done.
  - eapply parses_equiv; [|intros h; apply and_comm|done].
    apply (parses_map (read_array 32) Build_Hash256 hash_bytes (λ b, zlen b = 32 ∧ bytes_ok b) id);
      [by apply read_array_parses|done|by intros []].
  - by intros h [? _].
  - intros h [_ ->]. done.
  - done.
Defined.

#[export, refine] Instance BlockHeight_codec : Codec BlockHeight := {|
  wf h := u64_ok (height_val h);
  wire h := le_bytes 8 (height_val h);
|}.
Proof.
  - done.
  - apply (parses_map read_u64 Build_BlockHeight height_val);
      [apply read_u64_parses|done|by intros []].
  - intros h _. apply le_bytes_ok.
  - intros h _. by rewrite zlen_le_bytes.
  - done.
Defined.

#[export, refine] Instance Timestamp_codec : Codec Timestamp := {|
  wf t := u64_ok (time_val t);
  wire t := le_bytes 8 (time_val t);
|}.
Proof.
  - done.
  - apply (parses_map read_u64 Build_Timestamp time_val);
      [apply read_u64_parses|done|by intros []].
  - intros t _. apply le_bytes_ok.
  - intros t _. by rewrite zlen_le_bytes.
  - done.
Defined.

#[export, refine] Instance Amount_codec : Codec Amount := {|
  wf := amount_ok;
  wire a := le_bytes 8 (noms a);
|}.
Proof.
  - done.
  - eapply parses_equiv.
    + eapply (parses_bind _ _ noms _ (λ _, True) amount_ok _ (λ _, []));
        [apply read_u64_parses|].
      intros v Hv. apply parses_lift_ret; [by unfold from_noms; destruct (is_valid_noms v)|].
      intros a. rewrite from_noms_Ok. unfold amount_ok, in_width in *. split.
      * intros [-> Hle]. simpl. split; [done|lia].
      * intros ((_ & <-) & ?). destruct a. split; [done|simpl in *; lia].
    + intros a. simpl. split; [tauto|]. intros Ha. split; [done|]. split; [|done].
      pose proof MAX_SUPPLY_NOMS_u64. unfold amount_ok, in_width in *. lia.
    + done.
  - intros a _. apply le_bytes_ok.
  - intros a _. by rewrite zlen_le_bytes.
  - done.
Defined.

(** ** Properties of the layer *)

(** decoding a length-prefixed list of any encodable type is exact: it never
    panics, whatever the bytes and the announced count, and it returns [l] and
    the advanced cursor if and only if the unread bytes start with the encoding
    [write_list] produces for [l], which has at most [max_count] items. *)
Theorem read_list_exact {T} `{Codec T} max_count r :
  reader_ok r →
  read_list T max_count r ≠ Panic ∧
  ∀ l r', read_list T max_count r = Ok (l, r') ↔
    list_ok max_count l ∧
    ∃ enc post, write_list writer_new l = Ok {| buf := enc |} ∧
                rest r = enc ++ post ∧ r' = advance r (zlen enc).
Proof.
  intros Hr. destruct (read_list_parses (T := T) max_count r Hr) as [Hnp Hiff].
  split; [done|]. intros l r'. rewrite Hiff. split.
  - intros [Hl (post & Hpost & ->)]. split; [done|].
    exists (list_wire l), post. by rewrite (write_list_ok max_count).
  - intros [Hl (enc & post & Henc & Hpost & ->)]. split; [done|].
    rewrite (write_list_ok max_count) in Henc by done. injection Henc as <-. eauto.
Qed.

Lemma read_list_exact_witness :
  let bs := [2; 0; 0; 0; 5; 0; 0; 0; 0; 0; 0; 0; 6; 0; 0; 0; 0; 0; 0; 0; 99] in
  reader_ok (reader_new bs) ∧
  read_list BlockHeight 4 (reader_new bs)
    = Ok ([{| height_val := 5 |}; {| height_val := 6 |}], {| data := bs; pos := 20 |}) ∧
  list_ok 4 [{| height_val := 5 |}; {| height_val := 6 |}].
Proof.
  intros bs.
  assert (Hr : reader_ok (reader_new bs)).
  { split; [|split; [|done]]; [repeat constructor; discriminate|].
    vm_compute. split; discriminate. }
  destruct (read_list_exact (T := BlockHeight) 4 (reader_new bs) Hr) as [_ Hiff].
  assert (He : read_list BlockHeight 4 (reader_new bs)
    = Ok ([{| height_val := 5 |}; {| height_val := 6 |}], {| data := bs; pos := 20 |}))
    by (vm_compute; reflexivity).
  split; [exact Hr|]. split; [exact He|].
  exact (proj1 (proj1 (Hiff _ _) He)).
Defined.

(** every byte string has at most one amount it decodes to and every valid
    amount exactly one encoding: [from_bytes] returns [a] if and only if [a]
    respects the supply ceiling and the bytes are [to_bytes a]; in particular an
    encoded value above the ceiling and trailing bytes are refused. *)
Theorem amount_codec_exact bs a :
  bytes_ok bs → zlen bs < 2 ^ 63 →
  from_bytes Amount bs ≠ Panic ∧
  (from_bytes Amount bs = Ok a ↔ 0 ≤ noms a ≤ MAX_SUPPLY_NOMS ∧ to_bytes a = Ok bs).
Proof. exact (codec_exact (T := Amount) bs a). Qed.

Lemma amount_codec_exact_witness :
  from_bytes Amount (le_bytes 8 MAX_SUPPLY_NOMS) = Ok Amount_MAX.
Proof.
  apply (amount_codec_exact (le_bytes 8 MAX_SUPPLY_NOMS) Amount_MAX).
  - apply le_bytes_ok.
  - rewrite zlen_le_bytes. done.
  - split; [|reflexivity]. vm_compute. split; discriminate.
Defined.
