(* ===== verification/CryptoHash.v ===== *)
(** * Tagged hashing ([crates/dom-crypto/src/hash.rs])

    BLAKE2b-256 itself is a third-party primitive: it enters as the class
    [Blake2b256], a function on byte strings whose documented output is 32 bytes.
    The tagged and incremental hashers are the code built on it. *)

From Stdlib Require Import ZArith Lia.
From stdpp Require Import base list strings.
From S2P Require Import Prelude CoreError Core.

(** The [blake2] crate's [Blake2b<U32>]: [new], [update] and [finalize] hash the
    concatenation of the updates. *)
Class Blake2b256 : Type := {
  blake2b : bytes → bytes;
  blake2b_len d : zlen (blake2b d) = 32;
  blake2b_bytes d : bytes_ok (blake2b d);
}.

Section hash.
Context `{HB : Blake2b256}.

Definition blake2b_256 (d : bytes) : Hash256 := {| hash_bytes := blake2b d |}.

(** [u16_le(len(tag)) || tag], the prefix of every tagged hash; every tag is one of
    the constants of dom-core, of a few dozen bytes, so the length always fits. *)
Definition tag_prefix (tag : string) : bytes :=
  le_bytes 2 (zlen (str_bytes tag)) ++ str_bytes tag.

Definition blake2b_256_tagged (tag : string) (d : bytes) : Hash256 :=
  {| hash_bytes := blake2b (tag_prefix tag ++ d) |}.

(** The streaming hasher keeps what it was fed. *)
Record DomHasher : Type := { inner : bytes }.
Definition hasher_new (tag : string) : DomHasher := {| inner := tag_prefix tag |}.
Definition hasher_update (h : DomHasher) (d : bytes) : DomHasher :=
  {| inner := inner h ++ d |}.
Definition hasher_finalize (h : DomHasher) : Hash256 :=
  {| hash_bytes := blake2b (inner h) |}.

Lemma hasher_parts tag parts :
  hasher_finalize (foldl hasher_update (hasher_new tag) parts)
  = blake2b_256_tagged tag (mjoin parts).
Proof.
  assert (H : ∀ h, inner (foldl hasher_update h parts) = inner h ++ mjoin parts).
  { induction parts as [|p ps IH]; intros h; simpl; [by rewrite app_nil_r|].
    rewrite IH. simpl. by rewrite <- app_assoc. }
  unfold hasher_finalize, blake2b_256_tagged. by rewrite H.
Qed.

Lemma blake2b_256_ok d : hash_ok (blake2b_256 d).
Proof. split; simpl; [apply blake2b_bytes|apply blake2b_len]. Qed.
Lemma blake2b_256_tagged_ok tag d : hash_ok (blake2b_256_tagged tag d).
Proof. split; simpl; [apply blake2b_bytes|apply blake2b_len]. Qed.
End hash.

#[export] Hint Resolve blake2b_256_ok blake2b_256_tagged_ok : dom.

(** A concrete digest for evaluating examples: a polynomial in the input bytes,
    modulo [2^256]. *)
Definition digest_mask : Z := Eval vm_compute in Z.ones 256.
Definition sample_digest (d : bytes) : bytes :=
  le_bytes 32 (foldl (λ acc b, Z.land (acc * 259 + b + 1) digest_mask) 7 d).

#[refine] Definition sample_blake2b : Blake2b256 := {| blake2b := sample_digest |}.
Proof.
  - intros d. apply zlen_le_bytes.
  - intros d. apply le_bytes_ok.
Defined.
