(* ===== verification/Wire.v ===== *)
(** * Messages of the peer protocol

    [dom-wire/src/message.rs]: the message frame with its checksum, and the payloads of the
    handshake, of header and block download, and of address exchange. *)

From Stdlib Require Import ZArith Lia.
From stdpp Require Import base list strings.
From S2P Require Import Prelude CoreError Core CryptoHash.
Local Open Scope string_scope.
Local Open Scope list_scope.
Local Open Scope Z_scope.

Definition MAX_GETBLOCKDATA_HASHES : Z := 128.
Definition MAX_LOCATOR_HASHES : Z := 32.
Definition MAX_USER_AGENT_BYTES : Z := 256.

(** ** Reading fields

    [&data[a..b]] panics out of range; [try_into().unwrap()] then has the right length. *)

Definition range (data : bytes) (a b : Z) : Result bytes :=
  if (0 <=? a) && (a <=? b) && (b <=? zlen data) then Ok (slice data a b) else Panic.
Definition uint_at (n : Z) (data : bytes) (a : Z) : Result Z :=
  let? b := range data a (a + n) in Ok (le_val b).
Definition byte_at (data : bytes) (a : Z) : Result Z :=
  let? b := range data a (a + 1) in Ok (le_val b).

(** ** Text

    [String::from_utf8_lossy]: each maximal invalid prefix of a sequence becomes U+FFFD.  A [String]
    is its bytes. *)

Definition within (lo hi c : Z) : bool := (lo <=? c) && (c <=? hi).
Definition continuation (c : Z) : bool := within 0x80 0xBF c.
(** The second bytes a first byte of a longer sequence admits, and how many follow it *)
Definition second_byte_ok (c d : Z) : bool :=
  if c =? 0xE0 then within 0xA0 0xBF d
  else if c =? 0xED then within 0x80 0x9F d
  else if c =? 0xF0 then within 0x90 0xBF d
  else if c =? 0xF4 then within 0x80 0x8F d
  else continuation d.
Definition sequence_len (c : Z) : nat :=
  if c <? 0x80 then 1 else if within 0xC2 0xDF c then 2 else if within 0xE0 0xEF c then 3
  else if within 0xF0 0xF4 c then 4 else 0.
(** Bytes consumed at the head, and whether they are a whole sequence *)
Definition utf8_head (b : bytes) : nat * bool :=
  match b with
  | [] => (0%nat, true)
  | c :: t =>
      match sequence_len c with
      | 0%nat => (1%nat, false)
      | 1%nat => (1%nat, true)
      | S n =>
          match t with
          | d :: t' =>
              if negb (second_byte_ok c d) then (1%nat, false)
              else
                match n, t' with
                | 1%nat, _ => (2%nat, true)
                | 2%nat, e :: _ => if continuation e then (3%nat, true) else (2%nat, false)
                | 3%nat, e :: f :: _ =>
                    if negb (continuation e) then (2%nat, false)
                    else if continuation f then (4%nat, true) else (3%nat, false)
                | 3%nat, [e] => if continuation e then (3%nat, false) else (2%nat, false)
                | _, _ => (2%nat, false)
                end
          | [] => (1%nat, false)
          end
      end
  end.
Fixpoint lossy_loop (fuel : nat) (b : bytes) : bytes :=
  match fuel, b with
  | S fuel', _ :: _ =>
      let '(n, valid) := utf8_head b in
      (if valid then take n b else [0xEF; 0xBF; 0xBD]) ++ lossy_loop fuel' (drop n b)
  | _, _ => []
  end.
Definition from_utf8_lossy (b : bytes) : bytes := lossy_loop (length b) b.
Fixpoint utf8_loop (fuel : nat) (b : bytes) : bool :=
  match fuel, b with
  | S fuel', _ :: _ => let '(n, valid) := utf8_head b in valid && utf8_loop fuel' (drop n b)
  | _, _ => true
  end.
Definition utf8_text (b : bytes) : bool := utf8_loop (length b) b.

(** ** Frames *)

Inductive Command : Type :=
| CmdHello | CmdPing | CmdPong | CmdInv | CmdGetHeaders | CmdHeaders | CmdGetBlock | CmdBlock | CmdTx | CmdGetAddr | CmdAddr
| CmdGetBlockData.
Definition command_byte (c : Command) : Z :=
  match c with
  | CmdHello => 0x01 | CmdPing => 0x02 | CmdPong => 0x03 | CmdInv => 0x04 | CmdGetHeaders => 0x05 | CmdHeaders => 0x06
  | CmdGetBlock => 0x07 | CmdBlock => 0x08 | CmdTx => 0x09 | CmdGetAddr => 0x0A | CmdAddr => 0x0B | CmdGetBlockData => 0x0C
  end.
Definition command_from_byte (b : Z) : Result Command :=
  if b =? 0x01 then Ok CmdHello else if b =? 0x02 then Ok CmdPing else if b =? 0x03 then Ok CmdPong
  else if b =? 0x04 then Ok CmdInv else if b =? 0x05 then Ok CmdGetHeaders else if b =? 0x06 then Ok CmdHeaders
  else if b =? 0x07 then Ok CmdGetBlock else if b =? 0x08 then Ok CmdBlock else if b =? 0x09 then Ok CmdTx
  else if b =? 0x0A then Ok CmdGetAddr else if b =? 0x0B then Ok CmdAddr else if b =? 0x0C then Ok CmdGetBlockData
  else Err (Malformed ("unknown command 0x" +:+ hex_concat [b])).

Definition MAX_MESSAGE_PAYLOAD : Z := MAX_BLOCK_SERIALIZED_SIZE + 4.

Record WireMessage : Type := { wm_magic : Z; wm_command : Command; wm_payload : bytes }.

Section frame.
Context `{HB : Blake2b256}.

Definition compute_checksum (data : bytes) : Z := le_val (take 4 (blake2b data)).

Definition wire_to_bytes (m : WireMessage) : bytes :=
  le_bytes 4 (wm_magic m) ++ [command_byte (wm_command m)] ++ le_bytes 4 (zlen (wm_payload m))
  ++ le_bytes 4 (compute_checksum (wm_payload m)) ++ wm_payload m.

Definition wire_from_bytes (data : bytes) (expected_magic : Z) : Result WireMessage :=
  if zlen data <? 13 then Err (Malformed "message too short [ban+20]")
  else
    let? magic := uint_at 4 data 0 in
    if negb (magic =? expected_magic) then
      Err (Invalid ("magic mismatch: got 0x" +:+ hex_u32 magic +:+ ", expected 0x" +:+ hex_u32 expected_magic
                    +:+ " [ban+100]"))
    else
      let? b := byte_at data 4 in
      let? command := command_from_byte b in
      let? length := uint_at 4 data 5 in
      let? checksum := uint_at 4 data 9 in
      if MAX_MESSAGE_PAYLOAD <? length then
        Err (Malformed ("payload length " +:+ dec length +:+ " > MAX_MESSAGE_PAYLOAD"))
      else if negb (zlen data =? 13 + length) then Err (Malformed "payload length mismatch")
      else
        let? payload := range data 13 (zlen data) in
        if negb (checksum =? compute_checksum payload) then Err (Malformed "checksum mismatch")
        else Ok {| wm_magic := magic; wm_command := command; wm_payload := payload |}.
End frame.

(** ** Hello *)

Record HelloPayload : Type := {
  hello_version : Z;
  hello_network_magic : Z;
  hello_chain_id : bytes;
  hello_best_height : Z;
  hello_best_hash : bytes;
  hello_user_agent : bytes;
  hello_local_timestamp : Z;
  hello_advertised_port : Z;
}.

Definition sane_advertised_port (p : Z) : bool := (p =? 0) || (1024 <=? p).
Definition TIMESTAMP_LEN : Z := 8.
Definition ADVERTISED_PORT_LEN : Z := 2.

Definition to_bytes_for_wire_version (h : HelloPayload) (wire_version : Z) : Result bytes :=
  let ua := hello_user_agent h in
  if MAX_USER_AGENT_BYTES <? zlen ua then Err (Invalid "user agent too long")
  else
    Ok (le_bytes 4 wire_version ++ le_bytes 4 (hello_network_magic h) ++ hello_chain_id h
        ++ le_bytes 8 (hello_best_height h) ++ hello_best_hash h ++ le_bytes 2 (zlen ua) ++ ua
        ++ le_bytes 8 (hello_local_timestamp h)
        ++ (if 3 <=? wire_version then le_bytes 2 (hello_advertised_port h) else [])).
Definition hello_to_bytes (h : HelloPayload) : Result bytes := to_bytes_for_wire_version h (hello_version h).

Definition hello_from_bytes (data : bytes) : Result HelloPayload :=
  if zlen data <? 82 then Err (Malformed "hello payload too short")
  else
    let? version := uint_at 4 data 0 in
    let? network_magic := uint_at 4 data 4 in
    let? chain_id := range data 8 40 in
    let? best_height := uint_at 8 data 40 in
    let? best_hash := range data 48 80 in
    let? ua_len := uint_at 2 data 80 in
    if MAX_USER_AGENT_BYTES <? ua_len then Err (Malformed "user agent too long")
    else if zlen data <? 82 + ua_len then Err (Malformed "hello truncated")
    else
      let? ua := range data 82 (82 + ua_len) in
      let user_agent := from_utf8_lossy ua in
      let ts_offset := 82 + ua_len in
      let port_offset := ts_offset + TIMESTAMP_LEN in
      let v3_len := port_offset + ADVERTISED_PORT_LEN in
      if negb (zlen data =? ts_offset) && negb (zlen data =? port_offset) && negb (zlen data =? v3_len) then
        Err (Malformed ("hello length mismatch: expected " +:+ dec ts_offset +:+ ", " +:+ dec port_offset
                        +:+ " or " +:+ dec v3_len +:+ ", got " +:+ dec (zlen data)))
      else
        let? local_timestamp := (if port_offset <=? zlen data then uint_at 8 data ts_offset else Ok 0) in
        let? advertised_port := (if v3_len <=? zlen data then uint_at 2 data port_offset else Ok 0) in
        Ok {| hello_version := version; hello_network_magic := network_magic; hello_chain_id := chain_id;
              hello_best_height := best_height; hello_best_hash := best_hash; hello_user_agent := user_agent;
              hello_local_timestamp := local_timestamp; hello_advertised_port := advertised_port |}.

(** ** Download payloads *)

Record GetHeadersPayload : Type := { locator_hashes : list bytes; stop_hash : bytes }.

Definition getheaders_to_bytes (p : GetHeadersPayload) : Result bytes :=
  if MAX_LOCATOR_HASHES <? zlen (locator_hashes p) then Err (Invalid "too many locator hashes")
  else Ok (le_bytes 2 (zlen (locator_hashes p)) ++ mjoin (locator_hashes p) ++ stop_hash p).

(** [for i in 0..n { push(data[2 + i * 32..][..32]) }], from [i] on *)
Fixpoint read_hashes (data : bytes) (i : Z) (n : nat) : Result (list bytes) :=
  match n with
  | O => Ok []
  | S n' =>
      let s := 2 + i * 32 in
      let? h := range data s (s + 32) in
      let? rest := read_hashes data (i + 1) n' in
      Ok (h :: rest)
  end.

Definition getheaders_from_bytes (data : bytes) : Result GetHeadersPayload :=
  if zlen data <? 2 + 32 then Err (Malformed "getheaders too short")
  else
    let? n := uint_at 2 data 0 in
    if MAX_LOCATOR_HASHES <? n then Err (Malformed ("too many locator hashes: " +:+ dec n))
    else
      let expected_len := 2 + n * 32 + 32 in
      if negb (zlen data =? expected_len) then
        Err (Malformed ("getheaders length mismatch: got " +:+ dec (zlen data) +:+ " expected " +:+ dec expected_len))
      else
        let? hashes := read_hashes data 0 (Z.to_nat n) in
        let? stop := range data (2 + n * 32) (2 + n * 32 + 32) in
        Ok {| locator_hashes := hashes; stop_hash := stop |}.

Record HeadersPayload : Type := { hp_headers : list bytes }.

Definition headers_to_bytes (p : HeadersPayload) : Result bytes :=
  if MAX_HEADERS_PER_MSG <? zlen (hp_headers p) then Err (Invalid "too many headers")
  else Ok (le_bytes 2 (zlen (hp_headers p)) ++ mjoin ((λ h, le_bytes 4 (zlen h) ++ h) <$> hp_headers p)).

Fixpoint read_headers (data : bytes) (pos : Z) (n : nat) : Result (list bytes * Z) :=
  match n with
  | O => Ok ([], pos)
  | S n' =>
      if zlen data <? pos + 4 then Err (Malformed "header length truncated")
      else
        let? hlen := uint_at 4 data pos in
        let pos := pos + 4 in
        if 1024 <? hlen then Err (Malformed ("header too large: " +:+ dec hlen))
        else if zlen data <? pos + hlen then Err (Malformed "header bytes truncated")
        else
          let? h := range data pos (pos + hlen) in
          let? (rest, pos) := read_headers data (pos + hlen) n' in
          Ok (h :: rest, pos)
  end.

Definition headers_from_bytes (data : bytes) : Result HeadersPayload :=
  if zlen data <? 2 then Err (Malformed "headers too short")
  else
    let? n := uint_at 2 data 0 in
    if MAX_HEADERS_PER_MSG <? n then Err (Malformed ("too many headers: " +:+ dec n))
    else
      let? (headers, pos) := read_headers data 2 (Z.to_nat n) in
      if negb (pos =? zlen data) then
        Err (Malformed ("headers trailing bytes: parsed " +:+ dec pos +:+ ", total " +:+ dec (zlen data)))
      else Ok {| hp_headers := headers |}.

Record GetBlockDataPayload : Type := { gb_hashes : list bytes }.

Definition getblockdata_to_bytes (p : GetBlockDataPayload) : Result bytes :=
  if MAX_GETBLOCKDATA_HASHES <? zlen (gb_hashes p) then Err (Invalid "too many block hashes")
  else Ok (le_bytes 2 (zlen (gb_hashes p)) ++ mjoin (gb_hashes p)).

Definition getblockdata_from_bytes (data : bytes) : Result GetBlockDataPayload :=
  if zlen data <? 2 then Err (Malformed "getblockdata too short")
  else
    let? n := uint_at 2 data 0 in
    if MAX_GETBLOCKDATA_HASHES <? n then Err (Malformed ("too many hashes: " +:+ dec n))
    else if negb (zlen data =? 2 + n * 32) then Err (Malformed "getblockdata length mismatch")
    else
      let? hashes := read_hashes data 0 (Z.to_nat n) in
      Ok {| gb_hashes := hashes |}.

Record BlockPayload : Type := { block_bytes : bytes }.

Definition block_payload_to_bytes (p : BlockPayload) : Result bytes :=
  if MAX_BLOCK_SERIALIZED_SIZE <? zlen (block_bytes p) then Err (Invalid "block too large")
  else Ok (le_bytes 4 (zlen (block_bytes p)) ++ block_bytes p).

Definition block_payload_from_bytes (data : bytes) : Result BlockPayload :=
  if zlen data <? 4 then Err (Malformed "block payload too short")
  else
    let? n := uint_at 4 data 0 in
    if MAX_BLOCK_SERIALIZED_SIZE <? n then Err (Malformed ("block too large: " +:+ dec n))
    else if negb (zlen data =? 4 + n) then Err (Malformed "block payload length mismatch")
    else
      let? b := range data 4 (zlen data) in
      Ok {| block_bytes := b |}.

(** ** Address exchange *)

Definition MAX_ADDRS_PER_MESSAGE : Z := 1000.
Definition ADDR_ENTRY_MIN_BYTES : Z := 1 + 8.

Record AddrEntry : Type := { ae_addr : bytes; ae_last_seen : Z }.
Record AddrPayload : Type := { ap_entries : list AddrEntry }.

Definition getaddr_to_bytes : Result bytes := Ok [].
Definition getaddr_from_bytes (data : bytes) : Result unit :=
  if negb (zlen data =? 0) then
    Err (Malformed ("getaddr payload must be empty, got " +:+ dec (zlen data) +:+ " bytes"))
  else Ok tt.

Definition addr_to_bytes (p : AddrPayload) : Result bytes :=
  if MAX_ADDRS_PER_MESSAGE <? zlen (ap_entries p) then Err (Invalid "too many addrs")
  else
    try_fold (λ out e,
      if 255 <? zlen (ae_addr e) then Err (Invalid "addr string too long")
      else Ok (out ++ [zlen (ae_addr e)] ++ ae_addr e ++ le_bytes 8 (ae_last_seen e)))
      (le_bytes 2 (zlen (ap_entries p))) (ap_entries p).

Fixpoint read_addrs (data : bytes) (pos : Z) (n : nat) : Result (list AddrEntry * Z) :=
  match n with
  | O => Ok ([], pos)
  | S n' =>
      if zlen data <=? pos then Err (Malformed "addr payload truncated")
      else
        let? len := byte_at data pos in
        let pos := pos + 1 in
        if zlen data <? pos + len + 8 then Err (Malformed "addr payload truncated")
        else
          let? a := range data pos (pos + len) in
          let pos := pos + len in
          let? last_seen := uint_at 8 data pos in
          let? (rest, pos) := read_addrs data (pos + 8) n' in
          Ok ({| ae_addr := from_utf8_lossy a; ae_last_seen := last_seen |} :: rest, pos)
  end.

Definition addr_from_bytes (data : bytes) : Result AddrPayload :=
  if zlen data <? 2 then Err (Malformed "addr payload too short")
  else
    let? count := uint_at 2 data 0 in
    if MAX_ADDRS_PER_MESSAGE <? count then Err (Malformed "addr count exceeds limit")
    else if zlen data <? 2 + count * ADDR_ENTRY_MIN_BYTES then Err (Malformed "addr payload truncated")
    else
      let? (entries, pos) := read_addrs data 2 (Z.to_nat count) in
      if negb (pos =? zlen data) then Err (Malformed "addr trailing bytes")
      else Ok {| ap_entries := entries |}.
