(* ===== verification/Pmmr.v ===== *)
(** * The Merkle mountain range ([crates/dom-pmmr/src/lib.rs])

    The position arithmetic, the append-only node vector and the root, with a
    reference definition of the commitment ([mmr_root]: perfect trees over the
    binary decomposition of the leaf count, bagged right to left) that the
    incremental code is proved to compute.  The root is then shown to bind the
    whole list of payloads. *)

From Stdlib Require Import ZArith Lia.
From stdpp Require Import base list strings.
From S2P Require Import Prelude CoreError Core CryptoHash.

(** ** Machine integer operations of the Rust standard library *)

Fixpoint pos_popcount (p : positive) : Z :=
  match p with
  | xH => 1
  | xO q => pos_popcount q
  | xI q => 1 + pos_popcount q
  end.
Definition count_ones (n : Z) : Z :=
  match n with Zpos p => pos_popcount p | _ => 0 end.

Definition is_power_of_two (n : Z) : bool := (0 <? n) && (2 ^ Z.log2 n =? n).
Definition leading_zeros_u64 (n : Z) : Z := if n =? 0 then 64 else 63 - Z.log2 n.

(** [1u64 << s]: a panic when [s] is not below the width *)
Definition one_shl_u64 (s : Z) : Result Z :=
  if s <? 64 then Ok (Z.shiftl 1 s) else Panic.

(** ** Position arithmetic *)

Definition is_all_ones (n : Z) : bool :=
  negb (n =? 0) &&
  match checked_add 64 n 1 with Some m => is_power_of_two m | None => false end.

Definition most_significant_pos (n : Z) : Z :=
  if n =? 0 then 0 else 64 - leading_zeros_u64 n.

Definition jump_left (p : Z) : Result Z :=
  let msb := most_significant_pos p in
  let shift := saturating_sub msb 1 in
  let? s := one_shl_u64 shift in
  let? d := sub_ovf s 1 in
  sub_ovf p d.

(** [while !is_all_ones(h) { h = jump_left(h); }]; every jump clears the leading
    bit, so 65 rounds are enough for a [u64] (see [node_height_total]). *)
Fixpoint node_height_loop (fuel : nat) (h : Z) : Result Z :=
  match fuel with
  | O => Panic
  | S f =>
      if negb (is_all_ones h) then
        let? h' := jump_left h in
        node_height_loop f h'
      else sub_ovf (most_significant_pos h) 1
  end.

Definition node_height (p : Z) : Result Z :=
  if p =? 0 then Ok 0 else node_height_loop 65 p.

(** [peak_positions_fixed]: the loop over [bit], from 63 down to 0; the positions
    array holds at most one entry per bit. *)
Fixpoint peak_loop (bits : nat) (remaining pos_offset : Z) : option (list Z) :=
  match bits with
  | O => Some []
  | S bit =>
      let subtree_leaves := Z.shiftl 1 (Z.of_nat bit) in
      if subtree_leaves <=? remaining then
        m ← checked_sub subtree_leaves 1;
        subtree_size ← checked_add 64 m subtree_leaves;
        peak_pos ← checked_add 64 pos_offset subtree_size;
        remaining' ← checked_sub remaining subtree_leaves;
        rest ← peak_loop bit remaining' peak_pos;
        Some (peak_pos :: rest)
      else peak_loop bit remaining pos_offset
  end.

Definition peak_positions_fixed (leaf_count : Z) : option (list Z) :=
  if leaf_count =? 0 then Some [] else peak_loop 64 leaf_count 0.

Definition peak_positions (leaf_count : Z) : Result (list Z) :=
  expect (peak_positions_fixed leaf_count).

(** ** Hashing *)

Section pmmr.
Context `{HB : Blake2b256}.

Definition leaf_hash (position : Z) (payload : bytes) : Hash256 :=
  blake2b_256_tagged TAG_PMMR_LEAF (le_bytes 8 position ++ payload).

Definition node_hash (position : Z) (left right : Hash256) : Hash256 :=
  blake2b_256_tagged TAG_PMMR_NODE
    (le_bytes 8 position ++ hash_bytes left ++ hash_bytes right).

Definition bag_step (acc peak : Hash256) : Hash256 :=
  blake2b_256_tagged TAG_PMMR_BAG (hash_bytes peak ++ hash_bytes acc).

Definition bag_peaks (peaks : list Hash256) : Hash256 :=
  match peaks with
  | [] => blake2b_256_tagged TAG_PMMR_EMPTY []
  | [p] => p
  | p :: _ => foldl bag_step (List.last peaks p) (reverse (removelast peaks))
  end.

(** ** The accumulator *)

Record Pmmr : Type := {
  nodes : list (option Hash256);
  leaf_count : Z;
}.

Definition pmmr_new : Pmmr := {| nodes := [None]; leaf_count := 0 |}.

Definition node_count (t : Pmmr) : Result Z :=
  let n := leaf_count t in
  let popcount := count_ones n in
  expect (x ← checked_mul 64 n 2; checked_sub x popcount).

Definition get_node (ns : list (option Hash256)) (p : Z) : option Hash256 :=
  match ns !! Z.to_nat p with Some o => o | None => None end.

(** [Vec::resize(needed, None)] *)
Definition resize (ns : list (option Hash256)) (needed : Z) : list (option Hash256) :=
  ns ++ replicate (Z.to_nat (needed - zlen ns)) None.

Definition set_node (ns : list (option Hash256)) (p : Z) (hash : Hash256)
    : Result (list (option Hash256)) :=
  let idx := p in
  let? ns := (if zlen ns <=? idx then
                let? needed := ok_or (checked_add 64 idx 1)
                                 (Internal "node index overflow") in
                Ok (resize ns needed)
              else Ok ns) in
  let? slot := expect (ns !! Z.to_nat idx) in
  match slot with
  | Some _ =>
      Err (Internal ("PMMR invariant violated: attempt to overwrite node at position "
                     +:+ dec p)%string)
  | None => Ok (<[Z.to_nat idx := Some hash]> ns)
  end.

(** [merge_peaks]: each round climbs one level, so a [u64] position allows at
    most 64 of them. *)
Fixpoint merge_loop (fuel : nat) (ns : list (option Hash256)) (p : Z)
    : Result (list (option Hash256)) :=
  match fuel with
  | O => Panic
  | S f =>
      let? h := node_height p in
      let? s := one_shl_u64 (h + 1) in
      let? subtree_size := ok_or (checked_sub s 1) (Internal "subtree_size underflow") in
      if p <=? subtree_size then Ok ns
      else
        let? left_pos := ok_or (checked_sub p subtree_size)
                           (Internal "left_pos underflow") in
        let? lh := node_height left_pos in
        if negb (lh =? h) then Ok ns
        else
          let? parent_pos := ok_or (checked_add 64 p 1) (Internal "parent_pos overflow") in
          let? left_hash := ok_or (get_node ns left_pos)
                              (Internal ("missing node at " +:+ dec left_pos)%string) in
          let? right_hash := ok_or (get_node ns p)
                               (Internal ("missing node at " +:+ dec p)%string) in
          let ph := node_hash parent_pos left_hash right_hash in
          let? ns := set_node ns parent_pos ph in
          merge_loop f ns parent_pos
  end.

Definition merge_peaks (ns : list (option Hash256)) (p : Z)
    : Result (list (option Hash256)) :=
  merge_loop 65 ns p.

(** An error leaves no accumulator: every caller propagates it with [?]. *)
Definition push (t : Pmmr) (payload : bytes) : Result (Pmmr * Z) :=
  let? new_leaf_count := ok_or (checked_add 64 (leaf_count t) 1)
                           (Internal "PMMR leaf count overflow") in
  let? nodes_before :=
    ok_or (x ← checked_mul 64 (leaf_count t) 2; checked_sub x (count_ones (leaf_count t)))
      (Internal "node count overflow") in
  let? leaf_pos := ok_or (checked_add 64 nodes_before 1) (Internal "leaf_pos overflow") in
  let lh := leaf_hash leaf_pos payload in
  let? ns := set_node (nodes t) leaf_pos lh in
  let? ns := merge_peaks ns leaf_pos in
  Ok ({| nodes := ns; leaf_count := new_leaf_count |}, leaf_pos).

Definition root_peak (t : Pmmr) (p : Z) : Result Hash256 :=
  ok_or (get_node (nodes t) p)
    (Internal ("PMMR invariant violated: missing peak at position " +:+ dec p
               +:+ " (leaf_count=" +:+ dec (leaf_count t)
               +:+ "); refusing to compute root over an incomplete peak set")%string).

Definition root (t : Pmmr) : Result Hash256 :=
  let? positions := peak_positions (leaf_count t) in
  let? peak_hashes :=
    try_fold (λ acc p, let? h := root_peak t p in Ok (acc ++ [h])) [] positions in
  Ok (bag_peaks peak_hashes).

(** A sequence of appends, as the callers make it. *)
Definition push_all (t : Pmmr) (payloads : list bytes) : Result Pmmr :=
  try_fold (λ t payload, let? (t', _) := push t payload in Ok t') t payloads.
End pmmr.

(** ** Bit arithmetic *)

(** Nodes of a range over [k] leaves *)
Definition mmr_size (k : Z) : Z := 2 * k - count_ones k.

(** Position of the root of the perfect tree of height [h] over the leaves
    [i, i + 2^h) *)
Definition node_pos (h i : Z) : Z := mmr_size i + 2 ^ (h + 1) - 1.

Lemma count_ones_double k : 0 ≤ k → count_ones (2 * k) = count_ones k.
Proof. intros. by destruct k. Qed.
Lemma count_ones_double_1 k : 0 ≤ k → count_ones (2 * k + 1) = 1 + count_ones k.
Proof. intros. by destruct k. Qed.

Lemma pos_popcount_bound p : 1 ≤ pos_popcount p ≤ Zpos p.
Proof. induction p; simpl pos_popcount; lia. Qed.
Lemma count_ones_bound k : 0 ≤ k → 0 ≤ count_ones k ≤ k.
Proof. destruct k as [|p|p]; simpl; [lia| |lia]. pose proof (pos_popcount_bound p). lia. Qed.
Lemma count_ones_pos k : 0 < k → 1 ≤ count_ones k.
Proof. destruct k as [|p|p]; simpl; [lia| |lia]. pose proof (pos_popcount_bound p). lia. Qed.

Lemma count_ones_shift t k : 0 ≤ k → 0 ≤ t → count_ones (2 ^ t * k) = count_ones k.
Proof.
  intros Hk. revert t. apply natlike_ind; [by rewrite Z.mul_1_l|].
  intros t Ht IH. rewrite Z.pow_succ_r, <- Z.mul_assoc by done.
  rewrite count_ones_double by nia. done.
Qed.

Lemma count_ones_aligned h i :
  0 ≤ h → 0 ≤ i → (2 ^ (h + 1) | i) → count_ones (i + 2 ^ h) = count_ones i + 1.
Proof.
  intros Hh Hi [m ->]. rewrite Z.pow_add_r in * by lia.
  assert (0 < 2 ^ h) by lia. assert (0 ≤ m) by nia.
  replace (m * (2 ^ h * 2 ^ 1) + 2 ^ h) with (2 ^ h * (2 * m + 1)) by ring.
  replace (m * (2 ^ h * 2 ^ 1)) with (2 ^ h * (2 * m)) by ring.
  rewrite !count_ones_shift, count_ones_double_1, count_ones_double by lia. lia.
Qed.

Lemma count_ones_top t x :
  0 ≤ t → 0 ≤ x < 2 ^ t → count_ones (2 ^ t + x) = 1 + count_ones x.
Proof.
  intros Ht. revert x. revert t Ht.
  refine (natlike_ind (λ t, ∀ x, 0 ≤ x < 2 ^ t → count_ones (2 ^ t + x) = 1 + count_ones x) _ _).
  - intros x Hx. by replace x with 0 by lia.
  - intros t Ht IH x Hx. rewrite Z.pow_succ_r in * by done.
    pose proof (Z.div_mod x 2 ltac:(lia)) as Hd.
    pose proof (Z.mod_pos_bound x 2 ltac:(lia)). 
    set (q := x / 2) in *. set (b := x mod 2) in *. clearbody q b. subst x.
    assert (b = 0 ∨ b = 1) as [-> | ->] by lia.
    + rewrite Z.add_0_r, <- Z.mul_add_distr_l, !count_ones_double by lia. apply IH. lia.
    + rewrite Z.add_assoc, <- Z.mul_add_distr_l, !count_ones_double_1 by lia.
      rewrite IH by lia. lia.
Qed.

Lemma mmr_size_0 : mmr_size 0 = 0.
Proof. done. Qed.
Lemma mmr_size_bound k : 0 ≤ k → k ≤ mmr_size k ≤ 2 * k.
Proof. intros Hk. unfold mmr_size. pose proof (count_ones_bound k Hk). lia. Qed.

(** Completing a tree of height [h] after the aligned prefix [i] *)
Lemma mmr_size_aligned h i :
  0 ≤ h → 0 ≤ i → (2 ^ (h + 1) | i) → mmr_size (i + 2 ^ h) = node_pos h i.
Proof.
  intros. unfold node_pos, mmr_size. rewrite count_ones_aligned by done.
  rewrite Z.pow_add_r by lia. lia.
Qed.

Lemma mmr_size_top t x :
  0 ≤ t → 0 ≤ x < 2 ^ t → mmr_size (2 ^ t + x) = 2 ^ (t + 1) - 1 + mmr_size x.
Proof.
  intros. unfold mmr_size. rewrite count_ones_top by done.
  rewrite Z.pow_add_r by lia. lia.
Qed.

(** Appending leaf [n] after [h] merges reaches the tree over
    [n + 1 - 2^h, n + 1). *)
Lemma mmr_size_low_ones h q :
  0 ≤ h → 0 ≤ q → mmr_size (2 ^ h * q + (2 ^ h - 1)) + 1 + h = node_pos h (2 ^ h * q).
Proof.
  intros Hh Hq. unfold node_pos, mmr_size. rewrite count_ones_shift by done.
  assert (Hc : count_ones (2 ^ h * q + (2 ^ h - 1)) = count_ones q + h).
  { revert h Hh. apply natlike_ind.
    - rewrite Z.mul_1_l. simpl. by rewrite !Z.add_0_r.
    - intros h Hh IH. rewrite Z.pow_succ_r by done.
      replace (2 * 2 ^ h * q + (2 * 2 ^ h - 1)) with (2 * (2 ^ h * q + (2 ^ h - 1)) + 1) by ring.
      assert (0 < 2 ^ h) by lia. rewrite count_ones_double_1 by nia. rewrite IH. lia. }
  rewrite Hc, Z.pow_add_r by lia. lia.
Qed.

Lemma node_pos_bounds h i : 0 ≤ h → 0 ≤ i → 1 ≤ node_pos h i < 2 * (i + 2 ^ h).
Proof.
  intros Hh Hi. unfold node_pos. pose proof (mmr_size_bound i Hi).
  rewrite Z.pow_add_r by lia. assert (0 < 2 ^ h) by lia. lia.
Qed.

(** *** The primitive bit tests *)

Lemma log2_range t x : 0 ≤ t → 2 ^ t ≤ x < 2 ^ (t + 1) → Z.log2 x = t.
Proof. intros. by apply Z.log2_unique. Qed.

Lemma most_significant_pos_range t x :
  0 ≤ t → 2 ^ t ≤ x < 2 ^ (t + 1) → most_significant_pos x = t + 1.
Proof.
  intros Ht Hx. unfold most_significant_pos, leading_zeros_u64.
  assert (0 < 2 ^ t) by lia.
  destruct (Z.eqb_spec x 0); [lia|]. rewrite (log2_range t) by done. lia.
Qed.

Lemma is_all_ones_pow k : 1 ≤ k ≤ 63 → is_all_ones (2 ^ k - 1) = true.
Proof.
  intros Hk. unfold is_all_ones.
  assert (2 ^ 1 ≤ 2 ^ k ≤ 2 ^ 63) by (split; apply Z.pow_le_mono_r; lia).
  destruct (Z.eqb_spec (2 ^ k - 1) 0); [lia|]. simpl.
  destruct (checked_add 64 (2 ^ k - 1) 1) as [m|] eqn:Hm;
    [|apply checked_add_None in Hm; lia].
  apply checked_add_Some in Hm as [-> _]. unfold is_power_of_two.
  replace (2 ^ k - 1 + 1) with (2 ^ k) by lia. rewrite Z.log2_pow2 by lia.
  rewrite Z.eqb_refl, andb_true_r. lia.
Qed.

Lemma is_all_ones_mid t x :
  0 ≤ t → 2 ^ t ≤ x < 2 ^ (t + 1) - 1 → is_all_ones x = false.
Proof.
  intros Ht Hx. unfold is_all_ones. destruct (x =? 0); [done|]. simpl.
  destruct (checked_add 64 x 1) as [m|] eqn:Hm; [|done].
  apply checked_add_Some in Hm as [-> _]. unfold is_power_of_two.
  rewrite (log2_range t) by lia.
  destruct (Z.eqb_spec (2 ^ t) (x + 1)); [lia|]. apply andb_false_r.
Qed.

Lemma one_shl_u64_ok s : 0 ≤ s < 64 → one_shl_u64 s = Ok (2 ^ s).
Proof.
  intros. unfold one_shl_u64. destruct (Z.ltb_spec s 64); [|lia].
  by rewrite Z.shiftl_1_l.
Qed.

Lemma sub_ovf_ok {E} a b : b ≤ a → sub_ovf (E := E) a b = Ok (a - b).
Proof. intros. unfold sub_ovf, checked_sub. destruct (Z.leb_spec b a); [done|lia]. Qed.

Lemma jump_left_range t x :
  0 ≤ t < 64 → 2 ^ t ≤ x < 2 ^ (t + 1) → jump_left x = Ok (x - (2 ^ t - 1)).
Proof.
  intros Ht Hx. unfold jump_left. rewrite (most_significant_pos_range t) by lia.
  replace (saturating_sub (t + 1) 1) with t by (unfold saturating_sub; lia).
  rewrite one_shl_u64_ok by lia. simpl. assert (0 < 2 ^ t) by lia.
  rewrite sub_ovf_ok by lia. simpl. by rewrite sub_ovf_ok by lia.
Qed.

(** *** Node heights *)

Lemma log2_spec_pos x : 1 ≤ x → 0 ≤ Z.log2 x ∧ 2 ^ Z.log2 x ≤ x < 2 ^ (Z.log2 x + 1).
Proof.
  intros Hx. split; [apply Z.log2_nonneg|].
  pose proof (Z.log2_spec x ltac:(lia)) as H. by rewrite <- Z.add_1_r in H.
Qed.

Lemma all_ones_height x :
  1 ≤ x → sub_ovf (E := DomError) (most_significant_pos x) 1 = Ok (Z.log2 x).
Proof.
  intros Hx. destruct (log2_spec_pos x Hx) as [Ht Hr].
  rewrite (most_significant_pos_range (Z.log2 x)) by done.
  rewrite sub_ovf_ok by lia. f_equal. lia.
Qed.

Lemma log2_lt_u64 x : 1 ≤ x → x < 2 ^ 64 → Z.log2 x < 64.
Proof. intros ??. apply Z.log2_lt_pow2; lia. Qed.

Lemma node_height_loop_total f x :
  1 ≤ x < 2 ^ Z.of_nat f → x < 2 ^ 64 - 1 →
  ∃ h, node_height_loop f x = Ok h ∧ 0 ≤ h < 64.
Proof.
  revert x. induction f as [|f IH]; intros x Hx Hmax; [simpl in Hx; lia|].
  destruct (log2_spec_pos x ltac:(lia)) as [Ht Hr].
  pose proof (log2_lt_u64 x ltac:(lia) ltac:(lia)) as H64. simpl.
  destruct (is_all_ones x) eqn:Hones; simpl.
  - exists (Z.log2 x). rewrite all_ones_height by lia. auto.
  - rewrite (jump_left_range (Z.log2 x)) by lia. simpl.
    assert (x ≠ 2 ^ (Z.log2 x + 1) - 1) as Hne.
    { intros He. destruct (decide (Z.log2 x = 63)) as [H63|].
      - rewrite H63 in He. simpl in He. lia.
      - rewrite He, is_all_ones_pow in Hones by lia. done. }
    assert (2 ^ Z.log2 x ≤ 2 ^ Z.of_nat f).
    { apply Z.pow_le_mono_r; [lia|].
      apply Z.lt_succ_r, Z.log2_lt_pow2; [lia|]. rewrite <- Nat2Z.inj_succ. lia. }
    rewrite Z.pow_add_r in * by lia. apply IH; lia.
Qed.

(** Every [u64] position has a height, found within the fuel of [node_height]. *)
Lemma node_height_total p : u64_ok p → ∃ h, node_height p = Ok h ∧ 0 ≤ h < 64.
Proof.
  intros Hp. unfold in_width in Hp. unfold node_height.
  destruct (Z.eqb_spec p 0); [exists 0; split; [done|lia]|].
  destruct (decide (p = 2 ^ 64 - 1)) as [->|]; [by exists 0|].
  apply node_height_loop_total; [|lia]. simpl Z.of_nat. lia.
Qed.

Lemma node_height_loop_mono f x h :
  node_height_loop f x = Ok h → node_height_loop (S f) x = Ok h.
Proof.
  revert x. induction f as [|f IH]; intros x; [done|].
  change (node_height_loop (S (S f)) x) with
    (if negb (is_all_ones x) then
       let? h' := jump_left x in node_height_loop (S f) h'
     else sub_ovf (most_significant_pos x) 1).
  simpl. destruct (is_all_ones x); simpl; [done|].
  rewrite !rbind_Ok. intros (y & Hy & H). eauto.
Qed.

Lemma divide_pow_le a b : 0 ≤ a ≤ b → (2 ^ a | 2 ^ b).
Proof.
  intros. exists (2 ^ (b - a)). rewrite <- Z.pow_add_r by lia. f_equal. lia.
Qed.

Lemma aligned_gap h t x : 0 ≤ h ≤ t → 0 ≤ x < 2 ^ t → (2 ^ h | x) → x + 2 ^ h ≤ 2 ^ t.
Proof.
  intros Hh Hx [q ->]. destruct (divide_pow_le h t Hh) as [m Hm]. rewrite Hm in *.
  assert (0 < 2 ^ h) by lia. assert (q < m) by nia. nia.
Qed.

(** The left jumps peel the leading mountains off: a node of the tree over
    [i, i + 2^h) has height [h] wherever it stands. *)
Lemma node_height_loop_pos f h i :
  0 ≤ h → 0 ≤ i < 2 ^ Z.of_nat f → (2 ^ h | i) → i + 2 ^ h ≤ 2 ^ 62 →
  node_height_loop (S f) (node_pos h i) = Ok h.
Proof.
  revert i. induction f as [|f IH]; intros i Hh Hi Hal Hmax.
  - assert (i = 0) as -> by (simpl in Hi; lia). unfold node_pos. rewrite mmr_size_0.
    assert (h < 63) by (apply (Z.pow_lt_mono_r_iff 2); lia).
    simpl node_height_loop. rewrite Z.add_0_l, is_all_ones_pow by lia. cbn [negb].
    assert (2 ^ 1 ≤ 2 ^ (h + 1)) by (apply Z.pow_le_mono_r; lia).
    rewrite all_ones_height by lia. f_equal. apply log2_range; [done|].
    rewrite Z.pow_add_r in * by lia. lia.
  - destruct (Z.lt_ge_cases i (2 ^ Z.of_nat f)) as [Hlt|Hge].
    { apply node_height_loop_mono, IH; auto with lia. }
    rewrite Nat2Z.inj_succ, Z.pow_succ_r in Hi by lia.
    set (t := Z.of_nat f) in *. assert (0 ≤ t) by lia.
    assert (∃ x, i = 2 ^ t + x) as [x ->] by (exists (i - 2 ^ t); lia).
    assert (h ≤ t) as Hht.
    { apply Z.lt_succ_r, (Z.pow_lt_mono_r_iff 2); [lia|lia|].
      rewrite Z.pow_succ_r by lia. apply Z.divide_pos_le in Hal; lia. }
    assert (Hx : (2 ^ h | x)).
    { apply (Z.divide_add_cancel_r _ (2 ^ t)); [by apply divide_pow_le|done]. }
    assert (t < 62) by (apply (Z.pow_lt_mono_r_iff 2); lia).
    pose proof (aligned_gap h t x ltac:(lia) ltac:(lia) Hx) as Hgap.
    pose proof (node_pos_bounds h x Hh ltac:(lia)) as Hb.
    assert (Hpos : node_pos h (2 ^ t + x) = 2 ^ (t + 1) - 1 + node_pos h x).
    { unfold node_pos. rewrite mmr_size_top by lia. lia. }
    assert (Hp1 : 2 ^ (t + 1) = 2 * 2 ^ t) by (rewrite Z.pow_add_r; lia).
    assert (Hp2 : 2 ^ (t + 1 + 1) = 4 * 2 ^ t) by (rewrite !Z.pow_add_r; lia).
    change (node_height_loop (S (S f)) ?y) with
      (if negb (is_all_ones y) then
         let? h' := jump_left y in node_height_loop (S f) h'
       else sub_ovf (most_significant_pos y) 1).
    rewrite (is_all_ones_mid (t + 1)) by lia. simpl negb. cbv iota.
    rewrite (jump_left_range (t + 1)) by lia. cbn [rbind].
    replace (node_pos h (2 ^ t + x) - (2 ^ (t + 1) - 1)) with (node_pos h x) by lia.
    apply IH; [lia|lia|done|lia].
Qed.

Lemma node_height_pos h i :
  0 ≤ h → 0 ≤ i → (2 ^ h | i) → i + 2 ^ h ≤ 2 ^ 62 → node_height (node_pos h i) = Ok h.
Proof.
  intros Hh Hi Hal Hmax. unfold node_height.
  pose proof (node_pos_bounds h i Hh Hi). destruct (Z.eqb_spec (node_pos h i) 0); [lia|].
  apply (node_height_loop_pos 64); auto. simpl. assert (0 < 2 ^ h) by lia. lia.
Qed.

Lemma ctz_split i : 0 < i → ∃ t j, 0 ≤ t ∧ 0 ≤ j ∧ (2 ^ (t + 1) | j) ∧ i = j + 2 ^ t.
Proof.
  intros Hi. destruct i as [|p|p]; [lia| |lia]. clear Hi. induction p as [p _|p IH|].
  - exists 0, (2 * Zpos p). split_and!; [lia|lia| |lia]. exists (Zpos p). simpl. lia.
  - destruct IH as (t & j & Ht & Hj & [m Hm] & Hp). exists (t + 1), (2 * j).
    rewrite (Z.pow_add_r 2 (t + 1)) in * by lia. split_and!; [lia|lia| |].
    + exists m. rewrite Hm. ring.
    + rewrite Pos2Z.inj_xO, Hp, Z.pow_add_r by lia. ring.
  - exists 0, 0. split_and!; [lia|lia| |done]. apply Z.divide_0_r.
Qed.

Lemma not_divide_half t : 0 ≤ t → ¬ (2 ^ (t + 1) | 2 ^ t).
Proof.
  intros Ht Hd. apply Z.divide_pos_le in Hd; [|lia]. rewrite Z.pow_add_r in Hd by lia.
  assert (0 < 2 ^ t) by lia. lia.
Qed.

(** ** Reference definition of the commitment *)

Section spec.
Context `{HB : Blake2b256}.

(** Root of the perfect tree of height [h] over [l], its nodes numbered from
    [off + 1] in postorder *)
Fixpoint perfect (h : nat) (off : Z) (l : list bytes) : Hash256 :=
  match h with
  | O => leaf_hash (off + 1) (default [] (head l))
  | S h' =>
      let half := Z.to_nat (2 ^ Z.of_nat h') in
      node_hash (off + 2 ^ (Z.of_nat h + 1) - 1)
        (perfect h' off (take half l))
        (perfect h' (off + 2 ^ Z.of_nat h - 1) (drop half l))
  end.

(** The mountains of the binary decomposition: height, offset and leaves *)
Fixpoint mountains (bits : nat) (off : Z) (l : list bytes) : list (nat * Z * list bytes) :=
  match bits with
  | O => []
  | S b =>
      if 2 ^ Z.of_nat b <=? zlen l then
        (b, off, take (Z.to_nat (2 ^ Z.of_nat b)) l)
          :: mountains b (off + 2 ^ (Z.of_nat b + 1) - 1)
               (drop (Z.to_nat (2 ^ Z.of_nat b)) l)
      else mountains b off l
  end.

Definition peak_hash (m : nat * Z * list bytes) : Hash256 :=
  match m with (h, off, l) => perfect h off l end.

(** Bagging, right to left *)
Fixpoint bag (peaks : list Hash256) : Hash256 :=
  match peaks with
  | [] => blake2b_256_tagged TAG_PMMR_EMPTY []
  | [p] => p
  | p :: ps => blake2b_256_tagged TAG_PMMR_BAG (hash_bytes p ++ hash_bytes (bag ps))
  end.

Definition mmr_root (l : list bytes) : Hash256 := bag (peak_hash <$> mountains 64 0 l).

Lemma mmr_root_eq l : mmr_root l = bag (peak_hash <$> mountains 64 0 l).
Proof. reflexivity. Qed.

Lemma bag_cons p q ps :
  bag (p :: q :: ps) = blake2b_256_tagged TAG_PMMR_BAG (hash_bytes p ++ hash_bytes (bag (q :: ps))).
Proof. done. Qed.

Lemma last_default {A} (l : list A) y a b : List.last (y :: l) a = List.last (y :: l) b.
Proof. revert y. induction l as [|z l IH]; intros y; [done|]. apply (IH z). Qed.

Lemma bag_peaks_bag peaks : bag_peaks peaks = bag peaks.
Proof.
  destruct peaks as [|p [|q ps]]; [done..|]. unfold bag_peaks.
  assert (H : ∀ x l, foldl bag_step (List.last (x :: l) x) (reverse (removelast (x :: l)))
                     = bag (x :: l)).
  { intros x l. revert x. induction l as [|y l IH]; intros x; [done|].
    rewrite bag_cons, <- IH. change (removelast (x :: y :: l)) with (x :: removelast (y :: l)).
    rewrite reverse_cons, foldl_app. simpl foldl at 1. unfold bag_step at 1. do 3 f_equal.
    f_equal. change (List.last (x :: y :: l) x) with (List.last (y :: l) x).
    apply last_default. }
  apply H.
Qed.

(** The leaves of the tree of height [h] starting at leaf [i] *)
Definition seg (L : list bytes) (i : Z) (h : nat) : list bytes :=
  slice L i (i + 2 ^ Z.of_nat h).

Lemma seg_halves L i h :
  0 ≤ i →
  take (Z.to_nat (2 ^ Z.of_nat h)) (seg L i (S h)) = seg L i h ∧
  drop (Z.to_nat (2 ^ Z.of_nat h)) (seg L i (S h)) = seg L (i + 2 ^ Z.of_nat h) h.
Proof.
  intros Hi. unfold seg, slice. rewrite !Z.add_simpl_l.
  rewrite Nat2Z.inj_succ, Z.pow_succ_r by lia.
  set (p := 2 ^ Z.of_nat h). assert (0 < p) by (unfold p; lia).
  replace (Z.to_nat (2 * p)) with (Z.to_nat p + Z.to_nat p)%nat by lia.
  replace (Z.to_nat (i + p)) with (Z.to_nat i + Z.to_nat p)%nat by lia. split.
  - rewrite take_take. f_equal. lia.
  - rewrite <- drop_drop. symmetry. apply take_drop_commute.
Qed.

Lemma perfect_seg_S L i h :
  0 ≤ i → (2 ^ (Z.of_nat h + 1) | i) →
  perfect (S h) (mmr_size i) (seg L i (S h)) =
  node_hash (node_pos (Z.of_nat (S h)) i)
    (perfect h (mmr_size i) (seg L i h))
    (perfect h (mmr_size (i + 2 ^ Z.of_nat h)) (seg L (i + 2 ^ Z.of_nat h) h)).
Proof.
  intros Hi Hal. destruct (seg_halves L i h Hi) as [H1 H2]. cbn [perfect].
  rewrite H1, H2, mmr_size_aligned by lia || done. unfold node_pos.
  by rewrite Nat2Z.inj_succ, <- Z.add_1_r.
Qed.

Lemma perfect_seg_0 L i x :
  0 ≤ i → L !! Z.to_nat i = Some x →
  perfect 0 (mmr_size i) (seg L i 0) = leaf_hash (mmr_size i + 1) x.
Proof.
  intros Hi Hx. simpl. f_equal. unfold seg, slice. rewrite Z.add_simpl_l. simpl.
  rewrite (drop_S _ x) by done. done.
Qed.
End spec.

(** ** The appends build the reference trees *)

Section push_correct.
Context `{HB : Blake2b256} (L : list bytes).
Implicit Types (ns : list (option Hash256)) (n : Z).

Definition node_ok ns (h : nat) (i : Z) : Prop :=
  get_node ns (node_pos (Z.of_nat h) i) = Some (perfect h (mmr_size i) (seg L i h)).

(** Every complete tree over the first [n] leaves is in its place. *)
Definition trees_ok ns n : Prop :=
  ∀ (h : nat) i, 0 ≤ i → (2 ^ Z.of_nat h | i) → i + 2 ^ Z.of_nat h ≤ n → node_ok ns h i.

Definition nodes_inv ns n : Prop := zlen ns = mmr_size n + 1 ∧ trees_ok ns n.

(** Leaf [n] has been placed and merged up to height [h]. *)
Record merge_inv ns n (h : nat) : Prop := {
  mi_len : zlen ns = mmr_size n + Z.of_nat h + 2;
  mi_aligned : (2 ^ Z.of_nat h | n + 1);
  mi_old : trees_ok ns n;
  mi_new : ∀ g : nat, (g ≤ h)%nat → node_ok ns g (n + 1 - 2 ^ Z.of_nat g);
}.

Lemma get_node_app ns ns' p v : get_node ns p = Some v → get_node (ns ++ ns') p = Some v.
Proof.
  unfold get_node. destruct (ns !! Z.to_nat p) as [o|] eqn:Ho; [|done].
  intros ->. by rewrite (lookup_app_l_Some _ _ _ _ Ho).
Qed.

Lemma node_ok_app ns ns' h i : node_ok ns h i → node_ok (ns ++ ns') h i.
Proof. apply get_node_app. Qed.

Lemma set_node_end ns p hash :
  p = zlen ns → p < 2 ^ 63 → set_node ns p hash = Ok (ns ++ [Some hash]).
Proof.
  intros -> Hp. unfold set_node. rewrite Z.leb_refl.
  destruct (checked_add 64 (zlen ns) 1) as [m|] eqn:Hm;
    [|apply checked_add_None in Hm; lia].
  apply checked_add_Some in Hm as [-> _]. cbn [ok_or rbind].
  unfold resize. rewrite Z.add_simpl_l, zlen_to_nat. simpl replicate.
  rewrite list_lookup_middle by done. cbn [expect rbind].
  by rewrite insert_app_r_alt, Nat.sub_diag by lia.
Qed.

Lemma get_node_end ns hash : get_node (ns ++ [Some hash]) (zlen ns) = Some hash.
Proof. unfold get_node. by rewrite zlen_to_nat, list_lookup_middle. Qed.

(** The position reached by [h] merges is the tree's own. *)
Lemma merge_position n (h : nat) :
  0 ≤ n → (2 ^ Z.of_nat h | n + 1) →
  mmr_size n + 1 + Z.of_nat h = node_pos (Z.of_nat h) (n + 1 - 2 ^ Z.of_nat h).
Proof.
  intros Hn [q Hq]. assert (0 < 2 ^ Z.of_nat h) by lia. assert (1 ≤ q) by nia.
  replace (n + 1 - 2 ^ Z.of_nat h) with (2 ^ Z.of_nat h * (q - 1)) by lia.
  rewrite <- mmr_size_low_ones by lia. do 3 f_equal. lia.
Qed.

Lemma aligned_low n (h : nat) :
  0 ≤ n → (2 ^ Z.of_nat h | n + 1) →
  0 ≤ n + 1 - 2 ^ Z.of_nat h ∧ (2 ^ Z.of_nat h | n + 1 - 2 ^ Z.of_nat h).
Proof.
  intros Hn Hd. split.
  - apply Z.divide_pos_le in Hd; lia.
  - by apply Z.divide_sub_r; [|apply Z.divide_refl].
Qed.

(** The merge ends where the next level is not aligned. *)
Lemma merge_done ns n (h : nat) :
  0 ≤ n → merge_inv ns n h → ¬ (2 ^ (Z.of_nat h + 1) | n + 1) → nodes_inv ns (n + 1).
Proof.
  intros Hn [Hlen Hal Hold Hnew] Hodd. destruct (aligned_low n h Hn Hal) as [Hi [k Hk]].
  split.
  - assert (mmr_size (n + 1) = mmr_size n + 1 + Z.of_nat h) as ->; [|lia].
    rewrite merge_position by done. rewrite <- mmr_size_aligned; [f_equal; lia|lia|done|].
    rewrite Hk. destruct (Z.Even_or_Odd k) as [[m ->]|[m ->]].
    + exists m. rewrite Z.pow_add_r by lia. ring.
    + exfalso. apply Hodd. exists (m + 1). rewrite Z.pow_add_r by lia. lia.
  - intros g i Hi0 Hgi Hle. destruct (Z.le_gt_cases (i + 2 ^ Z.of_nat g) n); [auto|].
    assert (i = n + 1 - 2 ^ Z.of_nat g) as -> by lia. apply Hnew.
    destruct (le_gt_dec g h) as [|Hgt]; [done|]. exfalso. apply Hodd.
    apply (Z.divide_trans _ (2 ^ Z.of_nat g)); [apply divide_pow_le; lia|].
    replace (n + 1) with (n + 1 - 2 ^ Z.of_nat g + 2 ^ Z.of_nat g) by lia.
    apply Z.divide_add_r; [done|apply Z.divide_refl].
Qed.

(** One level up: both children are present and the parent slot is the next free
    one. *)
Lemma merge_step ns n (h : nat) j :
  0 ≤ n → n + 1 ≤ 2 ^ 61 → merge_inv ns n h →
  0 ≤ j → (2 ^ (Z.of_nat h + 1) | j) → n + 1 - 2 ^ Z.of_nat h = j + 2 ^ Z.of_nat h →
  let p := mmr_size n + 1 + Z.of_nat h in
  ∃ l r, get_node ns (mmr_size (j + 2 ^ Z.of_nat h)) = Some l ∧ get_node ns p = Some r ∧
         ∃ ns', set_node ns (p + 1) (node_hash (p + 1) l r) = Ok ns' ∧ merge_inv ns' n (S h).
Proof.
  intros Hn Hmax [Hlen Hal Hold Hnew] Hj Hjal Hij p.
  set (P := 2 ^ Z.of_nat h) in *. assert (0 < P) by (unfold P; lia).
  assert (HS : 2 ^ Z.of_nat (S h) = 2 * P) by (rewrite Nat2Z.inj_succ, Z.pow_succ_r; lia).
  assert (Hp : p = node_pos (Z.of_nat h) (j + P))
    by (unfold p; rewrite merge_position by done; fold P; by rewrite Hij).
  assert (Hl : node_ok ns h j).
  { apply Hold; [done| |fold P; lia].
    apply (Z.divide_trans _ _ _ (divide_pow_le (Z.of_nat h) (Z.of_nat h + 1) ltac:(lia)) Hjal). }
  assert (Hr : node_ok ns h (j + P)) by (rewrite <- Hij; by apply Hnew).
  eexists _, _. split; [unfold P; rewrite mmr_size_aligned by (lia || done); exact Hl|].
  split; [rewrite Hp; exact Hr|].
  assert (Hnext : (2 ^ Z.of_nat (S h) | n + 1)).
  { destruct Hjal as [m Hm]. exists (m + 1). rewrite HS. rewrite Z.pow_add_r in Hm by lia. fold P in Hm. lia. }
  pose proof (mmr_size_bound n Hn).
  assert (Z.of_nat h ≤ n + 1).
  { apply Z.divide_pos_le in Hal; [|lia]. pose proof (Z.pow_gt_lin_r 2 (Z.of_nat h)). lia. }
  eexists. split; [apply set_node_end; unfold p; lia|]. constructor.
  - rewrite zlen_app, Hlen, zlen_cons, zlen_nil. lia.
  - done.
  - intros g i ???. by apply node_ok_app, Hold.
  - intros g Hg. destruct (decide (g = S h)) as [->|]; [|apply node_ok_app, Hnew; lia].
    assert (Hj' : n + 1 - 2 ^ Z.of_nat (S h) = j) by lia.
    unfold node_ok. rewrite <- merge_position, Hj' by done.
    replace (mmr_size n + 1 + Z.of_nat (S h)) with (zlen ns) by lia.
    rewrite get_node_end, perfect_seg_S by done. do 2 f_equal.
    rewrite <- Hj', <- merge_position by done. unfold p. lia.
Qed.

Lemma aligned_height_lt n (h : nat) :
  0 ≤ n → n + 1 ≤ 2 ^ 61 → (2 ^ Z.of_nat h | n + 1) → Z.of_nat h ≤ 61.
Proof.
  intros ?? Hd. apply Z.divide_pos_le in Hd; [|lia]. apply (Z.pow_le_mono_r_iff 2); lia.
Qed.

Lemma merge_loop_correct fuel ns n (h : nat) :
  0 ≤ n → n + 1 ≤ 2 ^ 61 → merge_inv ns n h → (64 ≤ fuel + h)%nat →
  ∃ ns', merge_loop fuel ns (mmr_size n + 1 + Z.of_nat h) = Ok ns' ∧ nodes_inv ns' (n + 1).
Proof.
  intros Hn Hmax. revert ns h. induction fuel as [|f IH]; intros ns h Hinv Hfuel.
  all: pose proof (aligned_height_lt n h Hn Hmax (mi_aligned _ _ _ Hinv)) as Hh.
  { lia. }
  destruct (aligned_low n h Hn (mi_aligned _ _ _ Hinv)) as [Hi Hal].
  pose proof (merge_position n h Hn (mi_aligned _ _ _ Hinv)) as Hp.
  assert (0 < 2 ^ Z.of_nat h) by lia. cbn [merge_loop].
  pose proof (mmr_size_bound n Hn) as Hsn.
  set (p := mmr_size n + 1 + Z.of_nat h) in *. set (i := n + 1 - 2 ^ Z.of_nat h) in *.
  assert (Hh' : node_height p = Ok (Z.of_nat h)).
  { rewrite Hp. apply node_height_pos; [lia|done..|lia]. }
  rewrite Hh'. cbn [rbind]. rewrite one_shl_u64_ok by lia. cbn [rbind].
  assert (0 < 2 ^ (Z.of_nat h + 1)) by lia. rewrite checked_sub_ok by lia. cbn [ok_or rbind].
  pose proof (mmr_size_bound i Hi). unfold node_pos in Hp.
  destruct (Z.leb_spec p (2 ^ (Z.of_nat h + 1) - 1)).
  { exists ns. split; [done|]. apply (merge_done _ _ h); [done..|].
    replace (n + 1) with (2 ^ Z.of_nat h) by lia. apply not_divide_half. lia. }
  rewrite checked_sub_ok by lia. cbn [ok_or rbind].
  replace (p - (2 ^ (Z.of_nat h + 1) - 1)) with (mmr_size i) by lia.
  destruct (ctz_split i ltac:(lia)) as (t & j & Ht & Hj & Hjal & Hij).
  assert (Hlh : node_height (mmr_size i) = Ok t).
  { rewrite Hij, mmr_size_aligned by done. apply node_height_pos; [done..| |lia].
    apply (Z.divide_trans _ (2 ^ (t + 1))); [apply divide_pow_le; lia|done]. }
  rewrite Hlh.
  cbn [rbind]. destruct (Z.eqb_spec t (Z.of_nat h)) as [->|Hne]; cbn [negb].
  - destruct (merge_step ns n h j) as (l & r & Hl & Hr & ns' & Hset & Hinv'); [done..|].
    fold p in Hr, Hset.
    rewrite checked_add_ok by lia. cbn [ok_or rbind]. rewrite Hij, Hl, Hr. cbn [ok_or rbind].
    rewrite Hset. cbn [rbind].
    replace (p + 1) with (mmr_size n + 1 + Z.of_nat (S h)) by lia.
    apply IH; [done|lia].
  - exists ns. split; [done|]. apply (merge_done _ _ h); [done..|]. intros Hd.
    destruct (Z.lt_ge_cases t (Z.of_nat h)) as [Hlt|Hge].
    + apply (not_divide_half t Ht). apply (Z.divide_add_cancel_r _ j); [done|].
      rewrite <- Hij. apply (Z.divide_trans _ (2 ^ Z.of_nat h)); [apply divide_pow_le; lia|done].
    + apply (not_divide_half (Z.of_nat h)); [lia|].
      apply (Z.divide_add_cancel_r _ i); [|by replace (i + 2 ^ Z.of_nat h) with (n + 1) by lia].
      rewrite Hij. apply Z.divide_add_r.
      * apply (Z.divide_trans _ (2 ^ (t + 1))); [apply divide_pow_le; lia|done].
      * apply divide_pow_le. lia.
Qed.

(** Appending leaf [n] of [L] *)
Lemma push_correct t x n :
  nodes_inv (nodes t) n → leaf_count t = n → 0 ≤ n → n + 1 ≤ 2 ^ 61 →
  L !! Z.to_nat n = Some x →
  ∃ t', push t x = Ok (t', mmr_size n + 1) ∧ nodes_inv (nodes t') (n + 1) ∧ leaf_count t' = n + 1.
Proof.
  intros [Hlen Htrees] Hcount Hn Hmax Hx. unfold push. rewrite Hcount.
  pose proof (mmr_size_bound n Hn) as Hs. unfold mmr_size in Hs.
  rewrite checked_add_ok by lia. cbn [ok_or rbind].
  rewrite checked_mul_ok by lia. cbn [mbind option_bind ok_or rbind].
  rewrite checked_sub_ok by lia. cbn [ok_or rbind].
  replace (n * 2 - count_ones n) with (mmr_size n) by (unfold mmr_size; lia).
  rewrite checked_add_ok by (unfold mmr_size; lia). cbn [ok_or rbind].
  rewrite set_node_end by (unfold mmr_size in *; lia). cbn [rbind].
  destruct (merge_loop_correct 65 (nodes t ++ [Some (leaf_hash (mmr_size n + 1) x)]) n 0)
    as (ns' & Hm & Hinv); [done..| |lia|].
  - constructor.
    + rewrite zlen_app, Hlen, zlen_cons, zlen_nil. lia.
    + apply Z.divide_1_l.
    + intros g i ???. by apply node_ok_app, Htrees.
    + intros g Hg. assert (g = 0%nat) as -> by lia. unfold node_ok, node_pos.
      replace (n + 1 - 2 ^ Z.of_nat 0) with n by (simpl; lia).
      replace (mmr_size n + 2 ^ (Z.of_nat 0 + 1) - 1) with (zlen (nodes t)) by (simpl; lia).
      by rewrite get_node_end, (perfect_seg_0 L n x).
  - unfold merge_peaks. simpl Z.of_nat in Hm. rewrite Z.add_0_r in Hm. rewrite Hm. cbn [rbind].
    by eexists.
Qed.
End push_correct.

(** ** The root of a sequence of appends *)

Section root_correct.
Context `{HB : Blake2b256}.

Lemma nodes_inv_nil L : nodes_inv L (nodes pmmr_new) 0.
Proof.
  split; [done|]. intros h i Hi _ Hle. assert (0 < 2 ^ Z.of_nat h) by lia. lia.
Qed.

Lemma push_all_correct L l t n :
  nodes_inv L (nodes t) n → leaf_count t = n → 0 ≤ n ≤ zlen L → zlen L ≤ 2 ^ 61 →
  drop (Z.to_nat n) L = l →
  ∃ t', push_all t l = Ok t' ∧ nodes_inv L (nodes t') (zlen L) ∧ leaf_count t' = zlen L.
Proof.
  intros Hinv Hc Hn Hmax. revert t n Hinv Hc Hn.
  induction l as [|x l IH]; intros t n Hinv Hc Hn Hl.
  - assert (length (drop (Z.to_nat n) L) = 0%nat) as Hz by by rewrite Hl.
    rewrite length_drop in Hz. assert (zlen L = n) as -> by (unfold zlen in *; lia).
    by exists t.
  - assert (Hx : L !! Z.to_nat n = Some x).
    { rewrite <- (Nat.add_0_r (Z.to_nat n)), <- lookup_drop, Hl. done. }
    assert (n + 1 ≤ zlen L) by (apply lookup_lt_Some in Hx; unfold zlen; lia).
    destruct (push_correct L t x n) as (t' & Hpush & Hinv' & Hc'); [done|done|lia|lia|done|].
    destruct (IH t' (n + 1)) as (t'' & Hall & Hi & Hlc); [done|done|lia| |exists t''].
    + rewrite Z2Nat.inj_add, <- drop_drop, Hl by lia. done.
    + unfold push_all in *. cbn [try_fold]. rewrite Hpush. cbn [rbind]. done.
Qed.

Lemma mountains_positions L ns bits i :
  nodes_inv L ns (zlen L) → zlen L ≤ 2 ^ 61 →
  0 ≤ i → (2 ^ Z.of_nat bits | i) → (bits ≤ 64)%nat →
  0 ≤ zlen L - i < 2 ^ Z.of_nat bits →
  ∃ ps, peak_loop bits (zlen L - i) (mmr_size i) = Some ps ∧
        Forall2 (λ p m, get_node ns p = Some (peak_hash m))
          ps (mountains bits (mmr_size i) (drop (Z.to_nat i) L)).
Proof.
  intros [Hlen Htrees] Hmax. revert i. induction bits as [|b IH]; intros i Hi Hal Hb Hrem.
  { exists []. split; [done|constructor]. }
  rewrite Nat2Z.inj_succ, Z.pow_succ_r in Hal, Hrem by lia.
  assert (Hdrop : zlen (drop (Z.to_nat i) L) = zlen L - i)
    by (unfold zlen in *; rewrite length_drop; lia).
  assert (0 < 2 ^ Z.of_nat b) by lia.
  assert (Hal' : (2 ^ Z.of_nat b | i)) by (eapply Z.divide_trans; [|done]; by exists 2).
  cbn [peak_loop mountains]. rewrite Z.shiftl_1_l, Hdrop.
  destruct (Z.leb_spec (2 ^ Z.of_nat b) (zlen L - i)); [|apply IH; [done..|lia|lia]].
  assert (Hal1 : (2 ^ (Z.of_nat b + 1) | i)) by (by rewrite Z.add_1_r, Z.pow_succ_r by lia).
  assert (Hpow : 2 ^ (Z.of_nat b + 1) = 2 * 2 ^ Z.of_nat b) by (rewrite Z.pow_add_r; lia).
  assert (Hoff : mmr_size i + (2 ^ Z.of_nat b - 1 + 2 ^ Z.of_nat b) = node_pos (Z.of_nat b) i)
    by (unfold node_pos; lia).
  pose proof (mmr_size_bound i Hi).
  destruct (IH (i + 2 ^ Z.of_nat b)) as (ps & Hps & HF);
    [lia|apply Z.divide_add_r; [done|apply Z.divide_refl]|lia|lia|].
  rewrite mmr_size_aligned in Hps, HF by (lia || done). exists (node_pos (Z.of_nat b) i :: ps). split.
  - rewrite !checked_sub_ok by lia. cbn [mbind option_bind].
    rewrite checked_add_ok by lia. cbn [mbind option_bind].
    rewrite checked_add_ok by lia. cbn [mbind option_bind].
    rewrite Hoff. replace (zlen L - i - 2 ^ Z.of_nat b) with (zlen L - (i + 2 ^ Z.of_nat b)) by lia.
    by rewrite Hps.
  - constructor.
    + unfold peak_hash. rewrite (Htrees b i) by (done || lia).
      unfold seg, slice. by rewrite Z.add_simpl_l.
    + rewrite Z2Nat.inj_add, <- drop_drop in HF by lia. by unfold node_pos at 1 in HF.
Qed.

Lemma mountains_nil bits off : mountains bits off [] = [].
Proof.
  induction bits as [|b IH]; [done|]. cbn [mountains]. rewrite zlen_nil.
  assert (0 < 2 ^ Z.of_nat b) by lia. destruct (Z.leb_spec (2 ^ Z.of_nat b) 0); [lia|done].
Qed.

Lemma root_fold t ps ms acc :
  Forall2 (λ p m, get_node (nodes t) p = Some (peak_hash m)) ps ms →
  try_fold (λ acc p, let? h := root_peak t p in Ok (acc ++ [h])) acc ps
  = Ok (acc ++ (peak_hash <$> ms)).
Proof.
  intros HF. revert acc. induction HF as [|p m ps ms Hp _ IH]; intros acc.
  - by rewrite app_nil_r.
  - cbn [try_fold]. unfold root_peak at 1. rewrite Hp. cbn [ok_or rbind].
    rewrite IH, <- app_assoc. done.
Qed.

Lemma root_correct t L :
  nodes_inv L (nodes t) (zlen L) → leaf_count t = zlen L → zlen L ≤ 2 ^ 61 →
  root t = Ok (mmr_root L).
Proof.
  intros Hinv Hc Hmax. unfold root, peak_positions, peak_positions_fixed. rewrite Hc.
  pose proof (zlen_nonneg L).
  destruct (mountains_positions L (nodes t) 64 0) as (ps & Hps & HF);
    [done..|apply Z.divide_0_r|lia|simpl; lia|].
  rewrite Z.sub_0_r in Hps. change (mmr_size 0) with 0 in *. simpl drop in HF.
  destruct (Z.eqb_spec (zlen L) 0) as [Hz|Hz].
  - apply zlen_0_nil in Hz. subst L. cbn [expect rbind try_fold].
    unfold mmr_root. by rewrite mountains_nil.
  - rewrite Hps. cbn [expect rbind]. rewrite (root_fold t ps _ [] HF). cbn [rbind].
    rewrite bag_peaks_bag, app_nil_l. unfold mmr_root. reflexivity.
Qed.
End root_correct.

(** ** Append-only: no operation rewrites a stored node *)

Section append_only.
Context `{HB : Blake2b256}.

Lemma get_node_resize ns m p v : get_node ns p = Some v → get_node (resize ns m) p = Some v.
Proof. apply get_node_app. Qed.

Lemma set_node_keeps ns ns' p hash q v :
  set_node ns p hash = Ok ns' → get_node ns q = Some v → get_node ns' q = Some v.
Proof.
  unfold set_node. intros H Hq. apply rbind_Ok in H as (ms & Hms & H).
  assert (Hq' : get_node ms q = Some v).
  { destruct (zlen ns <=? p); [|naive_solver].
    apply rbind_Ok in Hms as (? & _ & [= <-]). by apply get_node_resize. }
  apply rbind_Ok in H as (slot & Hslot & H). apply expect_Ok in Hslot.
  destruct slot; [done|]. injection H as <-. unfold get_node in *.
  destruct (decide (Z.to_nat q = Z.to_nat p)) as [He|].
  - rewrite He, Hslot in Hq'. done.
  - by rewrite list_lookup_insert_ne.
Qed.

Lemma merge_loop_keeps fuel ns ns' p q v :
  merge_loop fuel ns p = Ok ns' → get_node ns q = Some v → get_node ns' q = Some v.
Proof.
  revert ns p. induction fuel as [|f IH]; intros ns p; [done|]. cbn [merge_loop].
  intros H Hq. repeat (apply rbind_Ok in H as (? & _ & H)).
  destruct (p <=? _); [naive_solver|]. repeat (apply rbind_Ok in H as (? & _ & H)).
  destruct (negb _); [naive_solver|].
  do 3 (apply rbind_Ok in H as (? & _ & H)). apply rbind_Ok in H as (ms & Hms & H).
  eauto using set_node_keeps.
Qed.
End append_only.

(** ** The root binds the payloads *)

Section binding.
Context `{HB : Blake2b256}.

(** The byte strings hashed while computing the commitment of [l]. *)
Definition leaf_preimage (p : Z) (payload : bytes) : bytes :=
  tag_prefix TAG_PMMR_LEAF ++ le_bytes 8 p ++ payload.
Definition node_preimage (p : Z) (l r : Hash256) : bytes :=
  tag_prefix TAG_PMMR_NODE ++ le_bytes 8 p ++ hash_bytes l ++ hash_bytes r.
Definition bag_preimage (p acc : Hash256) : bytes :=
  tag_prefix TAG_PMMR_BAG ++ hash_bytes p ++ hash_bytes acc.
Definition empty_preimage : bytes := tag_prefix TAG_PMMR_EMPTY ++ [].

Fixpoint perfect_queries (h : nat) (off : Z) (l : list bytes) : list bytes :=
  match h with
  | O => [leaf_preimage (off + 1) (default [] (head l))]
  | S h' =>
      let half := Z.to_nat (2 ^ Z.of_nat h') in
      node_preimage (off + 2 ^ (Z.of_nat h + 1) - 1)
        (perfect h' off (take half l))
        (perfect h' (off + 2 ^ Z.of_nat h - 1) (drop half l))
      :: perfect_queries h' off (take half l)
      ++ perfect_queries h' (off + 2 ^ Z.of_nat h - 1) (drop half l)
  end.

Definition mountain_queries (m : nat * Z * list bytes) : list bytes :=
  match m with (h, off, l) => perfect_queries h off l end.

Fixpoint bag_queries (ms : list (nat * Z * list bytes)) : list bytes :=
  match ms with
  | [] => [empty_preimage]
  | [m] => mountain_queries m
  | m :: ms' =>
      bag_preimage (peak_hash m) (bag (peak_hash <$> ms'))
      :: mountain_queries m ++ bag_queries ms'
  end.

Definition mmr_queries (l : list bytes) : list bytes := bag_queries (mountains 64 0 l).

(** *** Distinct shapes hash distinct strings *)

Lemma app_inj_len {A} (a b x y : list A) :
  length a = length b → a ++ x = b ++ y → a = b ∧ x = y.
Proof. intros. by apply app_inj_1. Qed.

Lemma tag_prefix_inj t1 t2 (a b : bytes) :
  zlen (str_bytes t1) < 2 ^ 16 → zlen (str_bytes t2) < 2 ^ 16 →
  tag_prefix t1 ++ a = tag_prefix t2 ++ b → str_bytes t1 = str_bytes t2 ∧ a = b.
Proof.
  intros H1 H2 He. unfold tag_prefix in He. rewrite <- !app_assoc in He.
  apply app_inj_len in He as [Hl He]; [|by rewrite !length_le_bytes].
  apply le_bytes_inj in Hl; [|split; [apply zlen_nonneg|simpl; lia]..].
  apply app_inj_len in He; [done|]. unfold zlen in Hl. lia.
Qed.

Lemma leaf_preimage_inj p1 p2 x y :
  u64_ok p1 → u64_ok p2 → leaf_preimage p1 x = leaf_preimage p2 y → p1 = p2 ∧ x = y.
Proof.
  intros H1 H2 He. apply tag_prefix_inj in He as [_ He]; [|done..].
  apply app_inj_len in He as [Hp ->]; [|by rewrite !length_le_bytes].
  by apply le_bytes_inj in Hp.
Qed.

Lemma hash_app_inj (a b x y : Hash256) :
  hash_ok a → hash_ok b → hash_bytes a ++ hash_bytes x = hash_bytes b ++ hash_bytes y →
  a = b ∧ x = y.
Proof.
  intros [_ Ha] [_ Hb] He. apply app_inj_len in He as [H1 H2]; [|unfold zlen in *; lia].
  destruct a, b, x, y. simpl in *. by subst.
Qed.

Lemma node_preimage_inj p1 p2 a b x y :
  u64_ok p1 → u64_ok p2 → hash_ok a → hash_ok b →
  node_preimage p1 a x = node_preimage p2 b y → p1 = p2 ∧ a = b ∧ x = y.
Proof.
  intros H1 H2 Ha Hb He. apply tag_prefix_inj in He as [_ He]; [|done..].
  apply app_inj_len in He as [Hp He]; [|by rewrite !length_le_bytes].
  apply le_bytes_inj in Hp; [|done..]. apply hash_app_inj in He; naive_solver.
Qed.

Lemma bag_preimage_inj a b x y :
  hash_ok a → hash_ok b → bag_preimage a x = bag_preimage b y → a = b ∧ x = y.
Proof.
  intros Ha Hb He. apply tag_prefix_inj in He as [_ He]; [|done..].
  by apply hash_app_inj in He.
Qed.

Definition perfect_preimage (h : nat) (off : Z) (l : list bytes) : bytes :=
  default [] (head (perfect_queries h off l)).

Lemma perfect_preimage_spec h off l :
  perfect h off l = {| hash_bytes := blake2b (perfect_preimage h off l) |} ∧
  perfect_preimage h off l ∈ perfect_queries h off l ∧
  ((∃ p x, perfect_preimage h off l = leaf_preimage p x) ∨
   (∃ p a b, perfect_preimage h off l = node_preimage p a b)).
Proof.
  destruct h; (split; [done|]); (split; [by left|]); [left|right]; unfold perfect_preimage; simpl; eauto.
Qed.

Lemma perfect_ok h off l : hash_ok (perfect h off l).
Proof. destruct h; apply blake2b_256_tagged_ok. Qed.

Ltac tags_differ H :=
  exfalso; apply tag_prefix_inj in H as [H _]; [vm_compute in H; discriminate H|done..].

Lemma leaf_node_ne p x q a b : leaf_preimage p x ≠ node_preimage q a b.
Proof. intros H. tags_differ H. Qed.

Lemma perfect_bag_ne h off l a b : perfect_preimage h off l ≠ bag_preimage a b.
Proof.
  intros H. destruct (perfect_preimage_spec h off l) as (_ & _ & [(p & x & Hx)|(p & x & y & Hx)]);
    rewrite Hx in H; tags_differ H.
Qed.
Lemma perfect_empty_ne h off l : perfect_preimage h off l ≠ empty_preimage.
Proof.
  intros H. destruct (perfect_preimage_spec h off l) as (_ & _ & [(p & x & Hx)|(p & x & y & Hx)]);
    rewrite Hx in H; tags_differ H.
Qed.
Lemma bag_empty_ne a b : bag_preimage a b ≠ empty_preimage.
Proof. intros H. tags_differ H. Qed.

(** The string hashed last *)
Definition bag_top (ms : list (nat * Z * list bytes)) : bytes :=
  match ms with
  | [] => empty_preimage
  | [(h, off, l)] => perfect_preimage h off l
  | m :: ms' => bag_preimage (peak_hash m) (bag (peak_hash <$> ms'))
  end.

Lemma bag_top_spec ms :
  bag (peak_hash <$> ms) = {| hash_bytes := blake2b (bag_top ms) |} ∧
  bag_top ms ∈ bag_queries ms.
Proof.
  destruct ms as [|[[h o] l] [|m ms]].
  - split; [done|by left].
  - destruct (perfect_preimage_spec h o l) as (E & I & _). done.
  - split; [done|by left].
Qed.

(** A mountain whose positions fit [u64] and whose leaves fill it *)
Definition mountain_ok (m : nat * Z * list bytes) : Prop :=
  match m with (h, off, l) =>
    0 ≤ off ∧ off + 2 ^ (Z.of_nat h + 1) ≤ 2 ^ 63 ∧ zlen l = 2 ^ Z.of_nat h end.

Lemma mountain_halves h off l :
  mountain_ok (S h, off, l) →
  mountain_ok (h, off, take (Z.to_nat (2 ^ Z.of_nat h)) l) ∧
  mountain_ok (h, off + 2 ^ Z.of_nat (S h) - 1, drop (Z.to_nat (2 ^ Z.of_nat h)) l).
Proof.
  unfold mountain_ok. rewrite Nat2Z.inj_succ, <- Z.add_1_r, !Z.pow_add_r by lia.
  set (p := 2 ^ Z.of_nat h). assert (0 < p) by (unfold p; lia). unfold zlen.
  rewrite length_take, length_drop. lia.
Qed.

Section inj.
Context (Q : bytes → Prop) (HQ : ∀ x y, Q x → Q y → blake2b x = blake2b y → x = y).

Lemma bag_top_eq ms1 ms2 :
  Forall Q (bag_queries ms1) → Forall Q (bag_queries ms2) →
  bag (peak_hash <$> ms1) = bag (peak_hash <$> ms2) → bag_top ms1 = bag_top ms2.
Proof.
  intros F1 F2 He. rewrite Forall_forall in F1, F2.
  destruct (bag_top_spec ms1) as [E1 I1], (bag_top_spec ms2) as [E2 I2].
  rewrite E1, E2 in He. injection He as He. auto.
Qed.

Lemma perfect_preimage_eq h1 h2 o1 o2 l1 l2 :
  Forall Q (perfect_queries h1 o1 l1) → Forall Q (perfect_queries h2 o2 l2) →
  perfect h1 o1 l1 = perfect h2 o2 l2 → perfect_preimage h1 o1 l1 = perfect_preimage h2 o2 l2.
Proof.
  intros F1 F2 He. rewrite Forall_forall in F1, F2.
  destruct (perfect_preimage_spec h1 o1 l1) as (E1 & I1 & _).
  destruct (perfect_preimage_spec h2 o2 l2) as (E2 & I2 & _).
  rewrite E1, E2 in He. injection He as He. auto.
Qed.

Lemma perfect_inj h1 h2 o1 o2 l1 l2 :
  mountain_ok (h1, o1, l1) → mountain_ok (h2, o2, l2) →
  Forall Q (perfect_queries h1 o1 l1) → Forall Q (perfect_queries h2 o2 l2) →
  perfect h1 o1 l1 = perfect h2 o2 l2 → (h1, o1, l1) = (h2, o2, l2).
Proof.
  revert h2 o1 o2 l1 l2. induction h1 as [|h1 IH]; intros [|h2] o1 o2 l1 l2 M1 M2 F1 F2 He;
    pose proof (perfect_preimage_eq _ _ _ _ _ _ F1 F2 He) as Hp;
    unfold perfect_preimage in Hp; simpl in Hp.
  - destruct M1 as (? & ? & L1), M2 as (? & ? & L2). simpl in *.
    apply leaf_preimage_inj in Hp as [Ho Hx]; [|unfold in_width; lia..].
    destruct l1 as [|x [|??]], l2 as [|y [|??]]; try (rewrite ?zlen_cons in *; unfold zlen in *; simpl in *; lia).
    simpl in Hx. subst y. repeat f_equal. lia.
  - by apply leaf_node_ne in Hp.
  - symmetry in Hp. by apply leaf_node_ne in Hp.
  - destruct (mountain_halves _ _ _ M1) as [A1 B1], (mountain_halves _ _ _ M2) as [A2 B2].
    destruct M1 as (? & ? & L1), M2 as (? & ? & L2). simpl in F1, F2.
    apply Forall_cons in F1 as [_ [FA1 FB1]%Forall_app].
    apply Forall_cons in F2 as [_ [FA2 FB2]%Forall_app].
    assert (2 ^ 0 ≤ 2 ^ (Z.of_nat (S h1) + 1)) by (apply Z.pow_le_mono_r; lia).
    assert (2 ^ 0 ≤ 2 ^ (Z.of_nat (S h2) + 1)) by (apply Z.pow_le_mono_r; lia).
    apply node_preimage_inj in Hp as (_ & Ha & Hb);
      [|unfold in_width; lia|unfold in_width; lia|apply perfect_ok..].
    pose proof (IH _ _ _ _ _ A1 A2 FA1 FA2 Ha) as [= -> -> Htake].
    pose proof (IH _ _ _ _ _ B1 B2 FB1 FB2 Hb) as [= Hdrop].
    rewrite <- (take_drop (Z.to_nat (2 ^ Z.of_nat h2)) l1), Htake, Hdrop. by rewrite take_drop.
Qed.

Lemma bag_inj ms1 ms2 :
  Forall mountain_ok ms1 → Forall mountain_ok ms2 →
  Forall Q (bag_queries ms1) → Forall Q (bag_queries ms2) →
  bag (peak_hash <$> ms1) = bag (peak_hash <$> ms2) → ms1 = ms2.
Proof.
  revert ms2. induction ms1 as [|m1 ms1 IH]; intros ms2 W1 W2 F1 F2 He.
  all: pose proof (bag_top_eq _ _ F1 F2 He) as Htop.
  - destruct ms2 as [|[[h o] l] [|]]; [done|..]; symmetry in Htop.
    + by apply perfect_empty_ne in Htop.
    + by apply bag_empty_ne in Htop.
  - destruct m1 as [[h1 o1] l1], ms1 as [|n1 ms1], ms2 as [|[[h2 o2] l2] [|n2 ms2]].
    1: by apply perfect_empty_ne in Htop.
    1: { apply Forall_cons in W1 as [W1 _], W2 as [W2 _]. f_equal. by apply perfect_inj. }
    1: by apply perfect_bag_ne in Htop.
    1: by apply bag_empty_ne in Htop.
    1: symmetry in Htop; by apply perfect_bag_ne in Htop.
    apply bag_preimage_inj in Htop as [Hp Hrest]; [|apply perfect_ok..].
    apply Forall_cons in W1 as [W1 W1'], W2 as [W2 W2'].
    apply Forall_cons in F1 as [_ [FA1 FB1]%Forall_app], F2 as [_ [FA2 FB2]%Forall_app].
    f_equal; [by apply perfect_inj|by apply IH].
Qed.
End inj.

(** *** The mountains are the payloads *)

Lemma mountains_ok bits off l :
  0 ≤ off → off + 2 * zlen l ≤ 2 ^ 63 → Forall mountain_ok (mountains bits off l).
Proof.
  revert off l. induction bits as [|b IH]; intros off l Ho Hb; [constructor|].
  cbn [mountains]. destruct (Z.leb_spec (2 ^ Z.of_nat b) (zlen l)); [|auto].
  assert (0 < 2 ^ Z.of_nat b) by lia.
  assert (2 ^ (Z.of_nat b + 1) = 2 * 2 ^ Z.of_nat b) by (rewrite Z.pow_add_r; lia).
  constructor.
  - unfold mountain_ok. unfold zlen in *. rewrite length_take. lia.
  - apply IH; [lia|]. unfold zlen in *. rewrite length_drop. lia.
Qed.

Lemma mountains_leaves bits off l :
  zlen l < 2 ^ Z.of_nat bits → mjoin (snd <$> mountains bits off l) = l.
Proof.
  revert off l. induction bits as [|b IH]; intros off l Hl.
  - rewrite (zlen_0_nil l); [done|]. pose proof (zlen_nonneg l). simpl in Hl. lia.
  - rewrite Nat2Z.inj_succ, Z.pow_succ_r in Hl by lia. cbn [mountains].
    destruct (Z.leb_spec (2 ^ Z.of_nat b) (zlen l)); [|by apply IH].
    simpl. rewrite IH; [by rewrite take_drop|].
    unfold zlen in *. rewrite length_drop. lia.
Qed.

Lemma mountains_inj bits (l1 l2 : list bytes) (Q : bytes → Prop) :
  zlen l1 < 2 ^ Z.of_nat bits → zlen l2 < 2 ^ Z.of_nat bits →
  zlen l1 ≤ 2 ^ 61 → zlen l2 ≤ 2 ^ 61 →
  (∀ x y, Q x → Q y → blake2b x = blake2b y → x = y) →
  Forall Q (bag_queries (mountains bits 0 l1)) → Forall Q (bag_queries (mountains bits 0 l2)) →
  bag (peak_hash <$> mountains bits 0 l1) = bag (peak_hash <$> mountains bits 0 l2) → l1 = l2.
Proof.
  intros B1 B2 H1 H2 HQ F1 F2 He.
  apply (bag_inj Q HQ) in He; [|apply mountains_ok; lia|apply mountains_ok; lia|done..].
  by rewrite <- (mountains_leaves bits 0 l1 B1), <- (mountains_leaves bits 0 l2 B2), He.
Qed.
End binding.

(** ** Properties *)

Section properties.
Context `{HB : Blake2b256}.

Lemma pmmr_build L :
  zlen L ≤ 2 ^ 61 →
  ∃ t, push_all pmmr_new L = Ok t ∧ nodes_inv L (nodes t) (zlen L) ∧ leaf_count t = zlen L.
Proof.
  intros HL. apply (push_all_correct L L pmmr_new 0); [apply nodes_inv_nil|done| |done|done].
  pose proof (zlen_nonneg L). lia.
Qed.

(** C12: appending any list of payloads one by one never fails and never panics,
    and the root of the result is the reference commitment of the list: perfect
    trees over the binary decomposition of the leaf count, every node hashed with
    its postorder position, bagged right to left.  The node vector holds exactly
    [node_count] nodes. *)
Theorem pmmr_refines_reference (L : list bytes) :
  zlen L ≤ 2 ^ 61 →
  ∃ t, push_all pmmr_new L = Ok t ∧ root t = Ok (mmr_root L) ∧
       leaf_count t = zlen L ∧ node_count t = Ok (zlen (nodes t) - 1).
Proof.
  intros HL. destruct (pmmr_build L HL) as (t & Ht & Hinv & Hc). exists t.
  split; [done|]. split; [by apply root_correct|]. split; [done|].
  unfold node_count. rewrite Hc. pose proof (zlen_nonneg L).
  pose proof (mmr_size_bound (zlen L) ltac:(lia)) as Hs. unfold mmr_size in Hs.
  rewrite checked_mul_ok by lia. cbn [mbind option_bind]. rewrite checked_sub_ok by lia.
  cbn [expect]. f_equal. destruct Hinv as [-> _]. unfold mmr_size. lia.
Qed.

(** appending never rewrites history: from any accumulator, a successful
    append keeps every stored node. *)
Theorem pmmr_push_append_only (t t' : Pmmr) (x : bytes) (p q : Z) (v : Hash256) :
  push t x = Ok (t', p) → get_node (nodes t) q = Some v → get_node (nodes t') q = Some v.
Proof.
  unfold push. intros H Hq. do 3 (apply rbind_Ok in H as (? & _ & H)).
  apply rbind_Ok in H as (ms & Hms & H). apply rbind_Ok in H as (ms' & Hms' & [= <- _]).
  simpl. eauto using set_node_keeps, merge_loop_keeps.
Qed.

(** the root refuses holes: whenever it is computed, every peak implied by the
    leaf count is stored and the root is the bagging of exactly these peaks. *)
Theorem pmmr_root_complete (t : Pmmr) (r : Hash256) :
  root t = Ok r →
  ∃ ps hs, peak_positions_fixed (leaf_count t) = Some ps ∧
           Forall2 (λ p h, get_node (nodes t) p = Some h) ps hs ∧ r = bag hs.
Proof.
  unfold root, peak_positions. intros H. apply rbind_Ok in H as (ps & Hps & H).
  apply expect_Ok in Hps. apply rbind_Ok in H as (hs & Hhs & [= <-]). exists ps.
  assert (Hgen : ∀ acc, try_fold (λ acc p, let? h := root_peak t p in Ok (acc ++ [h])) acc ps = Ok hs →
    ∃ hs', hs = acc ++ hs' ∧ Forall2 (λ p h, get_node (nodes t) p = Some h) ps hs').
  { clear Hps Hhs. induction ps as [|p ps IH]; intros acc H.
    - injection H as <-. exists []. by rewrite app_nil_r.
    - apply rbind_Ok in H as (acc' & Ha & H). apply rbind_Ok in Ha as (h & Hh & [= <-]).
      apply IH in H as (hs' & -> & HF). exists (h :: hs'). rewrite <- app_assoc.
      split; [done|]. constructor; [|done]. by apply ok_or_Ok in Hh. }
  destruct (Hgen [] Hhs) as (hs' & -> & HF). exists hs'.
  split; [done|]. split; [done|]. by rewrite bag_peaks_bag.
Qed.

(** C16: the root commits to the whole list of payloads, its length and its order:
    two lists with the same root are equal, unless BLAKE2b collides on two of the
    strings hashed for them. *)
Theorem pmmr_root_binds (L1 L2 : list bytes) (t1 t2 : Pmmr) (r : Hash256) :
  zlen L1 ≤ 2 ^ 61 → zlen L2 ≤ 2 ^ 61 →
  push_all pmmr_new L1 = Ok t1 → root t1 = Ok r →
  push_all pmmr_new L2 = Ok t2 → root t2 = Ok r →
  (∀ x y, x ∈ mmr_queries L1 ++ mmr_queries L2 → y ∈ mmr_queries L1 ++ mmr_queries L2 →
          blake2b x = blake2b y → x = y) →
  L1 = L2.
Proof.
  intros H1 H2 P1 R1 P2 R2 HQ.
  destruct (pmmr_build L1 H1) as (t1' & P1' & I1 & C1).
  destruct (pmmr_build L2 H2) as (t2' & P2' & I2 & C2).
  rewrite P1' in P1. injection P1 as ->. rewrite P2' in P2. injection P2 as ->.
  rewrite (root_correct _ _ I1 C1 H1) in R1. rewrite (root_correct _ _ I2 C2 H2) in R2.
  assert (He : mmr_root L1 = mmr_root L2) by congruence. clear R1 R2.
  assert (2 ^ 61 < 2 ^ Z.of_nat 64) by (change (Z.of_nat 64) with 64; lia).
  apply (mountains_inj 64 L1 L2 (λ x, x ∈ mmr_queries L1 ++ mmr_queries L2)); [lia..|done| | |].
  - apply Forall_forall. intros x Hx. apply elem_of_app. left. exact Hx.
  - apply Forall_forall. intros x Hx. apply elem_of_app. right. exact Hx.
  - by rewrite <- !mmr_root_eq.
Qed.
End properties.

Lemma pmmr_refines_reference_witness :
  ∃ t, push_all (HB := sample_blake2b) pmmr_new [[1]; [2]; [3]] = Ok t
     ∧ root (HB := sample_blake2b) t = Ok (mmr_root (HB := sample_blake2b) [[1]; [2]; [3]])
     ∧ leaf_count t = 3 ∧ node_count t = Ok (zlen (nodes t) - 1).
Proof. apply (pmmr_refines_reference (HB := sample_blake2b) [[1]; [2]; [3]]). done. Defined.

Lemma pmmr_push_append_only_witness :
  ∃ t' p v, push (HB := sample_blake2b)
            {| nodes := [None; Some Hash256_ZERO]; leaf_count := 1 |} [9] = Ok (t', p)
          ∧ get_node (nodes t') 1 = Some v ∧ v = Hash256_ZERO.
Proof.
  eexists _, _, _. split; [vm_compute; reflexivity|]. split; [|reflexivity].
  eapply (pmmr_push_append_only (HB := sample_blake2b)
            {| nodes := [None; Some Hash256_ZERO]; leaf_count := 1 |} _ [9]);
    [vm_compute; reflexivity|reflexivity].
Defined.

Lemma pmmr_root_complete_witness :
  ∃ ps hs, peak_positions_fixed 1 = Some ps ∧
    Forall2 (λ p h, get_node [None; Some Hash256_ZERO] p = Some h) ps hs ∧
    Hash256_ZERO = bag (HB := sample_blake2b) hs.
Proof.
  apply (pmmr_root_complete (HB := sample_blake2b)
           {| nodes := [None; Some Hash256_ZERO]; leaf_count := 1 |}).
  vm_compute. reflexivity.
Defined.

Definition sample_payloads : list bytes := [[1]; [2]; [3]].

Lemma sample_queries_distinct x y :
  x ∈ mmr_queries (HB := sample_blake2b) sample_payloads
      ++ mmr_queries (HB := sample_blake2b) sample_payloads →
  y ∈ mmr_queries (HB := sample_blake2b) sample_payloads
      ++ mmr_queries (HB := sample_blake2b) sample_payloads →
  sample_digest x = sample_digest y → x = y.
Proof.
  rewrite !elem_of_app. set (qs := mmr_queries (HB := sample_blake2b) sample_payloads).
  assert (H : Forall (λ x, Forall (λ y, sample_digest x = sample_digest y → x = y) qs) qs).
  { refine (bool_decide_unpack _ _). vm_compute. reflexivity. }
  rewrite Forall_forall in H. intros Hx Hy.
  assert (H' : x ∈ qs) by tauto. specialize (H x H').
  rewrite Forall_forall in H. apply H. tauto.
Qed.

Lemma pmmr_root_binds_witness :
  ∃ t r, push_all (HB := sample_blake2b) pmmr_new sample_payloads = Ok t ∧
         root (HB := sample_blake2b) t = Ok r ∧ sample_payloads = [[1]; [2]; [3]].
Proof.
  eexists _, _. split; [vm_compute; reflexivity|]. split; [vm_compute; reflexivity|].
  eapply (pmmr_root_binds (HB := sample_blake2b) sample_payloads [[1]; [2]; [3]]).
  - vm_compute. discriminate.
  - vm_compute. discriminate.
  - vm_compute. reflexivity.
  - vm_compute. reflexivity.
  - vm_compute. reflexivity.
  - vm_compute. reflexivity.
  - exact sample_queries_distinct.
Defined.
