(* ===== verification/Pow.v ===== *)
(** * Difficulty adjustment and proof of work ([crates/dom-pow/src/lib.rs])

    Compact targets, the ASERT retarget with its 256-bit arithmetic, the per-height
    network parameters, the work of a block and the proof-of-work check.  RandomX
    is a parameter.  [primitive_types::U256] values are integers below [2^256];
    its [+] and [*] abort on overflow and its shifts drop the bits shifted out. *)

From Stdlib Require Import ZArith Lia.
From stdpp Require Import base list strings.
From S2P Require Import Prelude CoreError Core Serialization CryptoHash.

(** ** [U256] operators *)

Definition u256_add (a b : Z) : Result Z := add_ovf 256 a b.
Definition u256_mul (a b : Z) : Result Z := expect (checked_mul 256 a b).
Definition u256_shl (a s : Z) : Z := Z.shiftl a s mod 2 ^ 256.
Definition u256_shr (a s : Z) : Z := Z.shiftr a s.
Definition low_u128 (a : Z) : Z := a mod 2 ^ 128.
Definition U256_MAX : Z := 2 ^ 256 - 1.

(** ** Constants *)

Definition RANDOMX_SEED_INTERVAL : Z := 2048.
Definition RANDOMX_SEED_OFFSET : Z := 64.

Definition ASERT_FRAC_TABLE : list Z :=
  [65536; 65713; 65891; 66070; 66249; 66429; 66609; 66789; 66971; 67152; 67334; 67517;
   67700; 67883; 68067; 68252; 68437; 68623; 68809; 68995; 69182; 69370; 69558; 69747;
   69936; 70125; 70315; 70506; 70697; 70889; 71081; 71274; 71467; 71661; 71855; 72050;
   72245; 72441; 72638; 72834; 73032; 73230; 73429; 73628; 73827; 74027; 74228; 74429;
   74631; 74833; 75036; 75240; 75444; 75648; 75853; 76059; 76265; 76472; 76679; 76887;
   77096; 77305; 77514; 77725; 77935; 78147; 78359; 78571; 78784; 78998; 79212; 79427;
   79642; 79858; 80074; 80292; 80509; 80727; 80946; 81166; 81386; 81607; 81828; 82050;
   82272; 82495; 82719; 82943; 83168; 83394; 83620; 83846; 84074; 84302; 84530; 84759;
   84989; 85220; 85451; 85682; 85915; 86148; 86381; 86615; 86850; 87086; 87322; 87559;
   87796; 88034; 88273; 88512; 88752; 88993; 89234; 89476; 89718; 89962; 90206; 90450;
   90695; 90941; 91188; 91435; 91683; 91932; 92181; 92431; 92681; 92933; 93185; 93437;
   93691; 93945; 94199; 94455; 94711; 94968; 95225; 95483; 95742; 96002; 96262; 96523;
   96785; 97047; 97310; 97574; 97839; 98104; 98370; 98637; 98904; 99172; 99441; 99711;
   99981; 100252; 100524; 100797; 101070; 101344; 101619; 101894; 102170; 102447;
   102725; 103004; 103283; 103563; 103844; 104125; 104408; 104691; 104975; 105259;
   105545; 105831; 106118; 106405; 106694; 106983; 107273; 107564; 107856; 108148;
   108441; 108735; 109030; 109326; 109622; 109919; 110217; 110516; 110816; 111116;
   111418; 111720; 112023; 112326; 112631; 112936; 113243; 113550; 113857; 114166;
   114476; 114786; 115097; 115409; 115722; 116036; 116351; 116666; 116982; 117300;
   117618; 117936; 118256; 118577; 118898; 119221; 119544; 119868; 120193; 120519;
   120846; 121173; 121502; 121831; 122162; 122493; 122825; 123158; 123492; 123827;
   124162; 124499; 124837; 125175; 125514; 125855; 126196; 126538; 126881; 127225;
   127570; 127916; 128263; 128611; 128959; 129309; 129660; 130011; 130364; 130717].

Definition MAX_COMPACT_TARGET : Z := 0x1e7fffff.
Definition TESTNET_TARGET_COMPACT : Z := 0x1e2eff7f.
Definition REGTEST_TARGET_COMPACT : Z := MAX_COMPACT_TARGET.
Definition MAINNET_ASERT_RESCUE_HEIGHT : Z := 4849.
Definition MAINNET_ASERT_RESCUE_ANCHOR_HEIGHT : Z := MAINNET_ASERT_RESCUE_HEIGHT - 1.
Definition MAINNET_ASERT_RESCUE_ANCHOR_TIMESTAMP : Z := 1784653190.
Definition MAINNET_ASERT_RESCUE_MAX_COMPACT_TARGET : Z := 0x1f00ffff.
Definition MAINNET_ASERT_RESCUE_HALF_LIFE : Z := TARGET_SPACING * 10.

(** ** Byte-wise target comparison *)

Fixpoint target_gt (a b : bytes) : bool :=
  match a, b with
  | x :: a', y :: b' => if y <? x then true else if x <? y then false else target_gt a' b'
  | _, _ => false
  end.

Fixpoint target_lt (a b : bytes) : bool :=
  match a, b with
  | x :: a', y :: b' => if x <? y then true else if y <? x then false else target_lt a' b'
  | _, _ => false
  end.

Definition maximum_accepted_target : bytes := <[1%nat := 0xff]> MAX_TARGET_BYTES.

Definition validate_target_bounds (t : bytes) : Result unit :=
  if target_gt t maximum_accepted_target then Err (Invalid "target > MAX_TARGET")
  else if target_lt t MIN_TARGET_BYTES then Err (Invalid "target < MIN_TARGET")
  else Ok tt.

(** ** Compact targets *)

Record CompactTarget : Type := { compact_bits : Z }.

#[export] Instance CompactTarget_eq_dec : EqDecision CompactTarget.
Proof. solve_decision. Defined.

Inductive CompactTargetClassification : Type :=
| CT_Zero | CT_Negative | CT_ExponentTooLarge | CT_Candidate.

Definition classify_compact_target (bits : Z) : CompactTargetClassification :=
  if Z.land bits 0x007fffff =? 0 then CT_Zero
  else if negb (Z.land bits 0x00800000 =? 0) then CT_Negative
  else if 32 <? Z.shiftr bits 24 then CT_ExponentTooLarge
  else CT_Candidate.

(** The closure [w]: a write at [31 - pos], skipped when [pos] is out of range *)
Definition target_write (t : bytes) (p v : Z) : bytes :=
  if p <? 32 then <[Z.to_nat (31 - p) := v]> t else t.

Definition compact_to_target_unchecked (bits : Z) : bytes :=
  let exponent := Z.shiftr bits 24 in
  let mantissa := Z.land bits 0x007fffff in
  let target := replicate 32 0 in
  let target := if 1 <=? exponent
    then target_write target (exponent - 1) (Z.land mantissa 0xff) else target in
  let target := if 2 <=? exponent
    then target_write target (exponent - 2) (Z.land (Z.shiftr mantissa 8) 0xff) else target in
  let target := if 3 <=? exponent
    then target_write target (exponent - 3) (Z.land (Z.shiftr mantissa 16) 0xff) else target in
  target.

Definition to_target (c : CompactTarget) : Result bytes :=
  let bits := compact_bits c in
  let exponent := Z.shiftr bits 24 in
  match classify_compact_target bits with
  | CT_Zero => Ok (replicate 32 0)
  | CT_Negative => Err (Invalid "negative compact target")
  | CT_ExponentTooLarge =>
      Err (Invalid ("compact exponent " +:+ dec exponent +:+ " > 32")%string)
  | CT_Candidate =>
      let target := compact_to_target_unchecked bits in
      let? _ := validate_target_bounds target in
      Ok target
  end.

(** The 1, 2 or 3 bytes at [start] as a mantissa, first byte lowest.  [start] is a
    valid index, so the reads never leave the array. *)
Definition window_mantissa (t : bytes) (start : nat) : Z :=
  let b i := nth i t 0 in
  match (32 - start)%nat with
  | O => 0
  | 1%nat => b start
  | 2%nat => Z.lor (b start) (Z.shiftl (b (start + 1)%nat) 8)
  | _ => Z.lor (Z.lor (b start) (Z.shiftl (b (start + 1)%nat) 8))
           (Z.shiftl (b (start + 2)%nat) 16)
  end.

(** [while size > 1 && (mantissa & 0xff) == 0]; [size] bounds the rounds *)
Fixpoint strip_low_zeros (fuel : nat) (size mantissa : Z) : Z * Z :=
  match fuel with
  | O => (size, mantissa)
  | S f =>
      if (1 <? size) && (Z.land mantissa 0xff =? 0)
      then strip_low_zeros f (size - 1) (Z.shiftr mantissa 8)
      else (size, mantissa)
  end.

(** [t.iter().position(|&b| b != 0)] *)
Fixpoint first_nonzero (t : bytes) : option nat :=
  match t with
  | [] => None
  | b :: t' => if b =? 0 then S <$> first_nonzero t' else Some O
  end.

(** One round of the legacy encoder's loop: the candidate of window [start] *)
Definition compact_candidate (t : bytes) (start : nat) : option (Z * bytes) :=
  let size := 32 - Z.of_nat start in
  let mantissa := window_mantissa t start in
  if (mantissa =? 0) || negb (Z.land mantissa 0x00800000 =? 0) then None
  else
    let (size, mantissa) := strip_low_zeros 32 size mantissa in
    let compact := Z.lor (Z.shiftl size 24) mantissa in
    match to_target {| compact_bits := compact |} with
    | Ok expanded => if target_gt expanded t then None else Some (compact, expanded)
    | _ => None
    end.

Definition compact_better (best : option (Z * bytes)) (cand : Z * bytes) : bool :=
  match best with
  | None => true
  | Some (c, e) =>
      target_gt (snd cand) e || (bool_decide (snd cand = e) && (fst cand <? c))
  end.

Definition keep_better (t : bytes) (best : option (Z * bytes)) (start : nat)
    : option (Z * bytes) :=
  match compact_candidate t start with
  | Some cand => if compact_better best cand then Some cand else best
  | None => best
  end.

(** The search of [target_to_compact]: [None] for the zero target, else the best
    candidate if there is one *)
Definition compact_search (t : bytes) : option (option (Z * bytes)) :=
  first ← first_nonzero t;
  Some (foldl (keep_better t) None (seq first (32 - first))).

(** The encoder falls back to the encoding of [MIN_TARGET_BYTES]; [depth] bounds
    the recursion, which ends at once since that search succeeds (see
    [min_target_search]). *)
Fixpoint target_to_compact_at (depth : nat) (t : bytes) : Z :=
  match compact_search t with
  | None => 0
  | Some (Some (c, _)) => c
  | Some None =>
      match depth with O => 0 | S d => target_to_compact_at d MIN_TARGET_BYTES end
  end.

Definition target_to_compact (t : bytes) : Z := target_to_compact_at 1 t.

Definition canonicalize_compact_target (t : bytes) : Result bytes :=
  to_target {| compact_bits := target_to_compact t |}.

(** The encoder of the rescue heights *)
Definition rescue_candidate (t : bytes) (start : nat) : option (Z * bytes) :=
  let size := 32 - Z.of_nat start in
  let mantissa := Z.land (window_mantissa t start) 0x007fffff in
  if mantissa =? 0 then None
  else
    let compact := Z.lor (Z.shiftl size 24) mantissa in
    match to_target {| compact_bits := compact |} with
    | Ok expanded => if target_gt expanded t then None else Some (compact, expanded)
    | _ => None
    end.

Definition keep_greater (t : bytes) (best : option (Z * bytes)) (start : nat)
    : option (Z * bytes) :=
  match rescue_candidate t start with
  | Some cand =>
      match best with
      | None => Some cand
      | Some (_, current) => if target_gt (snd cand) current then Some cand else best
      end
  | None => best
  end.

Definition target_to_rescue_compact (t : bytes) : Z :=
  match first_nonzero t with
  | None => 0
  | Some first =>
      match foldl (keep_greater t) None (seq 0 (S first)) with
      | Some (c, _) => c
      | None => target_to_compact MIN_TARGET_BYTES
      end
  end.

Definition canonicalize_rescue_compact_target (t : bytes) : Result bytes :=
  to_target {| compact_bits := target_to_rescue_compact t |}.

(** ** Network parameters *)

Record PowParams : Type := {
  target_spacing : Z;
  half_life : Z;
  genesis_target_compact : Z;
  max_compact_target : Z;
}.

Definition genesis_target (p : PowParams) : Result bytes :=
  to_target {| compact_bits := genesis_target_compact p |}.
Definition max_target (p : PowParams) : Result bytes :=
  to_target {| compact_bits := max_compact_target p |}.

Definition pow_params_for_network (network_magic : Z) : Result PowParams :=
  if network_magic =? NETWORK_MAGIC_TESTNET then
    Ok {| target_spacing := TARGET_SPACING; half_life := ASERT_HALF_LIFE;
          genesis_target_compact := TESTNET_TARGET_COMPACT;
          max_compact_target := MAX_COMPACT_TARGET |}
  else if network_magic =? NETWORK_MAGIC_REGTEST then
    Ok {| target_spacing := TARGET_SPACING; half_life := ASERT_HALF_LIFE;
          genesis_target_compact := REGTEST_TARGET_COMPACT;
          max_compact_target := REGTEST_TARGET_COMPACT |}
  else if network_magic =? NETWORK_MAGIC_MAINNET then
    Ok {| target_spacing := TARGET_SPACING; half_life := ASERT_HALF_LIFE;
          genesis_target_compact := GENESIS_TARGET_COMPACT;
          max_compact_target := GENESIS_TARGET_COMPACT |}
  else Err (Invalid ("unknown network magic 0x" +:+ hex_u32 network_magic
                     +:+ " for PoW parameters")%string).

Definition rescue_active (network_magic : Z) (block_height : BlockHeight) : bool :=
  (network_magic =? NETWORK_MAGIC_MAINNET)
  && (MAINNET_ASERT_RESCUE_HEIGHT <=? height_val block_height).

Definition pow_params_for_network_at_height (network_magic : Z) (block_height : BlockHeight)
    : Result PowParams :=
  let? params := pow_params_for_network network_magic in
  if rescue_active network_magic block_height then
    Ok {| target_spacing := target_spacing params;
          half_life := MAINNET_ASERT_RESCUE_HALF_LIFE;
          genesis_target_compact := genesis_target_compact params;
          max_compact_target := MAINNET_ASERT_RESCUE_MAX_COMPACT_TARGET |}
  else Ok params.

Definition uses_dev_fixed_target (network_magic : Z) : bool :=
  network_magic =? NETWORK_MAGIC_REGTEST.

(** ** Signed 128-bit helpers *)

(** [i128::checked_div] and [checked_rem]: truncating division *)
Definition i128_checked_div (a b : Z) : option Z :=
  if b =? 0 then None else i128_checked (Z.quot a b).
Definition i128_checked_rem (a b : Z) : option Z :=
  if b =? 0 then None
  else if (a =? - 2 ^ 127) && (b =? -1) then None else Some (Z.rem a b).

Definition floor_div_i128 (a b : Z) : Result Z :=
  if b =? 0 then Err (Invalid "floor_div by zero")
  else
    let? d := ok_or (i128_checked_div a b) (Invalid "floor_div overflow") in
    let? r := ok_or (i128_checked_rem a b) (Invalid "floor_div rem overflow") in
    if negb (r =? 0) && xorb (a <? 0) (b <? 0)
    then ok_or (i128_checked (d - 1)) (Invalid "floor_div adj overflow")
    else Ok d.

(** ** 256-bit arithmetic of the retarget *)

Definition mul_256_div_radix_checked (hi lo multiplier radix : Z) : Result (Z * Z) :=
  let m := multiplier in
  let? lo_prod := u256_mul lo m in
  let? hi_prod := u256_mul hi m in
  let lo_shifted := u256_shr lo_prod 16 in
  let hi_carry_into_lo := u256_shl (Z.land hi_prod 0xffff) 112 in
  let? new_lo_256 := u256_add lo_shifted hi_carry_into_lo in
  let lo_to_hi_carry := u256_shr new_lo_256 128 in
  let? new_hi_256 := u256_add (u256_shr hi_prod 16) lo_to_hi_carry in
  Ok (low_u128 new_hi_256, low_u128 new_lo_256).

Definition shift_left_256 (hi lo shift : Z) : Z * Z :=
  if shift =? 0 then (hi, lo)
  else if 256 <=? shift then (u128_max, u128_max)
  else
    let value := Z.lor (u256_shl hi 128) lo in
    if u256_shr U256_MAX shift <? value then (u128_max, u128_max)
    else
      let shifted := u256_shl value shift in
      (low_u128 (u256_shr shifted 128), low_u128 shifted).

Definition shift_right_256 (hi lo shift : Z) : Z * Z :=
  if shift =? 0 then (hi, lo)
  else if 256 <=? shift then (0, 0)
  else
    let value := Z.lor (u256_shl hi 128) lo in
    let shifted := u256_shr value shift in
    (low_u128 (u256_shr shifted 128), low_u128 shifted).

Definition apply_exponent (anchor_target : bytes) (integer_part frac_multiplier : Z)
    (max_target : bytes) : Result bytes :=
  let hi := be_val (take 16 anchor_target) in
  let lo := be_val (drop 16 anchor_target) in
  let radix := ASERT_RADIX in
  let? (new_hi, new_lo) := mul_256_div_radix_checked hi lo frac_multiplier radix in
  let? (shifted_hi, shifted_lo) :=
    (if 0 <=? integer_part then
       Ok (shift_left_256 new_hi new_lo (Z.min integer_part 255))
     else
       let? neg := expect (i128_checked (- integer_part)) in
       Ok (shift_right_256 new_hi new_lo (Z.min neg 255))) in
  let result := be_bytes 16 shifted_hi ++ be_bytes 16 shifted_lo in
  if target_gt result max_target then Ok max_target
  else if bool_decide (result = replicate 32 0) || target_lt result MIN_TARGET_BYTES
  then Ok MIN_TARGET_BYTES
  else Ok result.

(** ** ASERT *)

Record AsertAnchor : Type := {
  anchor_timestamp : Timestamp;
  anchor_height : BlockHeight;
  anchor_target : bytes;
}.

Inductive AsertExponentClassification : Type :=
| AE_HeightBeforeAnchor
| AE_IdealTimeOverflow
| AE_ExponentOverflow
| AE_Valid (v : Z).

Definition classify_asert_exponent_seconds
    (anchor_ts block_ts anchor_h block_h spacing : Z) : AsertExponentClassification :=
  match checked_sub block_h anchor_h with
  | None => AE_HeightBeforeAnchor
  | Some height_diff =>
      let time_diff := block_ts - anchor_ts in
      match i128_checked (height_diff * spacing) with
      | None => AE_IdealTimeOverflow
      | Some ideal_time =>
          match i128_checked (time_diff - ideal_time) with
          | Some value => AE_Valid value
          | None => AE_ExponentOverflow
          end
      end
  end.

Definition asert_next_target_with_params (anchor : AsertAnchor) (block_timestamp : Timestamp)
    (block_height : BlockHeight) (params : PowParams) : Result bytes :=
  let? exponent_seconds :=
    match classify_asert_exponent_seconds (time_val (anchor_timestamp anchor))
            (time_val block_timestamp) (height_val (anchor_height anchor))
            (height_val block_height) (target_spacing params) with
    | AE_HeightBeforeAnchor => Err (Invalid "height before anchor")
    | AE_IdealTimeOverflow => Err (Invalid "ideal_time overflow")
    | AE_ExponentOverflow => Err (Invalid "exponent overflow")
    | AE_Valid value => Ok value
    end in
  let? exponent_fp :=
    (let? num := ok_or (i128_checked (exponent_seconds * 256))
                   (Invalid "exponent_fp overflow") in
     floor_div_i128 num (half_life params)) in
  let? integer_part := floor_div_i128 exponent_fp 256 in
  let? frac_index :=
    (let? m := ok_or (i128_checked (integer_part * 256)) (Invalid "frac overflow") in
     let? f := ok_or (i128_checked (exponent_fp - m)) (Invalid "frac underflow") in
     Ok (Z.min (f mod 2 ^ 64) 255)) in
  let? frac_multiplier := expect (ASERT_FRAC_TABLE !! Z.to_nat frac_index) in
  let? max := max_target params in
  apply_exponent (anchor_target anchor) integer_part frac_multiplier max.

Definition asert_next_target (anchor : AsertAnchor) (block_timestamp : Timestamp)
    (block_height : BlockHeight) : Result bytes :=
  asert_next_target_with_params anchor block_timestamp block_height
    {| target_spacing := TARGET_SPACING; half_life := ASERT_HALF_LIFE;
       genesis_target_compact := GENESIS_TARGET_COMPACT;
       max_compact_target := MAX_COMPACT_TARGET |}.

Definition genesis_anchor (network_magic : Z) : Result AsertAnchor :=
  let? params := pow_params_for_network network_magic in
  let? timestamp := genesis_timestamp_for_network_magic network_magic in
  let? target := genesis_target params in
  Ok {| anchor_timestamp := {| time_val := timestamp |};
        anchor_height := GENESIS; anchor_target := target |}.

Definition asert_anchor_for_network_height (network_magic : Z) (block_height : BlockHeight)
    : Result AsertAnchor :=
  if rescue_active network_magic block_height then
    let? target := to_target {| compact_bits := GENESIS_TARGET_COMPACT |} in
    Ok {| anchor_timestamp := {| time_val := MAINNET_ASERT_RESCUE_ANCHOR_TIMESTAMP |};
          anchor_height := {| height_val := MAINNET_ASERT_RESCUE_ANCHOR_HEIGHT |};
          anchor_target := target |}
  else genesis_anchor network_magic.

Definition compute_expected_target (network_magic : Z) (block_timestamp : Timestamp)
    (block_height : BlockHeight) : Result bytes :=
  let? params := pow_params_for_network_at_height network_magic block_height in
  if uses_dev_fixed_target network_magic then max_target params
  else
    let? anchor := asert_anchor_for_network_height network_magic block_height in
    let? raw_target :=
      (if bool_decide (block_height = GENESIS) then genesis_target params
       else asert_next_target_with_params anchor block_timestamp block_height params) in
    if rescue_active network_magic block_height
    then canonicalize_rescue_compact_target raw_target
    else canonicalize_compact_target raw_target.

Definition expected_target_for_network (network_magic : Z) (block_timestamp : Timestamp)
    (block_height : BlockHeight) : Result bytes :=
  compute_expected_target network_magic block_timestamp block_height.

(** ** Work *)

Definition target_to_difficulty_u256 (target : bytes) : Z * Z :=
  let t := be_val target in
  if t =? 0 then (u128_max, u128_max)
  else
    let diff := be_val MAX_TARGET_BYTES / t in
    (low_u128 (u256_shr diff 128), low_u128 diff).

Definition target_to_difficulty (target : bytes) : Z :=
  let (hi, lo) := target_to_difficulty_u256 target in
  if 0 <? hi then hi else Z.max lo 1.

Definition target_to_difficulty_for_network_height (network_magic : Z)
    (block_height : BlockHeight) (target : bytes) : Result Z :=
  let? numerator :=
    (if rescue_active network_magic block_height
     then to_target {| compact_bits := MAINNET_ASERT_RESCUE_MAX_COMPACT_TARGET |}
     else Ok MAX_TARGET_BYTES) in
  let target_value := be_val target in
  if target_value =? 0 then Ok u128_max
  else
    let quotient := be_val numerator / target_value in
    Ok (if u256_shr quotient 128 =? 0 then Z.max (low_u128 quotient) 1
        else low_u128 (u256_shr quotient 128)).

(** ** Proof-of-work check *)

Inductive PowValidationMode : Type := RandomX | FastDevOnly.
Inductive PowModeClassification : Type :=
| PM_FastDevOnly | PM_RandomX | PM_RejectFastPublic | PM_RejectUnknown.

Definition classify_pow_validation_mode (network_magic : Z) (test_mode fast_requested : bool)
    : PowModeClassification :=
  let known := (network_magic =? NETWORK_MAGIC_MAINNET)
            || (network_magic =? NETWORK_MAGIC_TESTNET)
            || (network_magic =? NETWORK_MAGIC_REGTEST) in
  if negb known then PM_RejectUnknown
  else if test_mode || (network_magic =? NETWORK_MAGIC_REGTEST) then PM_FastDevOnly
  else if fast_requested then PM_RejectFastPublic
  else PM_RandomX.

Definition pow_validation_mode_for_network_inner (network_magic : Z)
    (test_mode fast_requested : bool) : Result PowValidationMode :=
  match classify_pow_validation_mode network_magic test_mode fast_requested with
  | PM_FastDevOnly => Ok FastDevOnly
  | PM_RandomX => Ok RandomX
  | PM_RejectFastPublic =>
      Err (Invalid "DOM_REGTEST_FAST_MINING=1 is only allowed on regtest/devtest/test mode")
  | PM_RejectUnknown =>
      Err (Invalid ("unknown network magic 0x" +:+ hex_u32 network_magic
                    +:+ " for PoW validation")%string)
  end.

(** [env::var("DOM_REGTEST_FAST_MINING")] is [Some value] when set. *)
Definition lower_ascii (c : Ascii.ascii) : Ascii.ascii :=
  let n := Ascii.nat_of_ascii c in
  if ((65 <=? n) && (n <=? 90))%nat then Ascii.ascii_of_nat (n + 32) else c.
Fixpoint lower_string (s : string) : string :=
  match s with EmptyString => EmptyString | String c t => String (lower_ascii c) (lower_string t) end.

Definition fast_regtest_mining_requested (env : option string) : bool :=
  match env with
  | Some value => (String.eqb value "1" || String.eqb (lower_string value) "true")%string
  | None => false
  end.

(** [cfg!(test)] is false in every build but the unit tests of the crate. *)
Definition pow_validation_mode_for_network (env : option string) (network_magic : Z)
    : Result PowValidationMode :=
  pow_validation_mode_for_network_inner network_magic false
    (fast_regtest_mining_requested env).

Definition hash_meets_target (hash target : bytes) : bool := negb (target_gt hash target).

Definition randomx_seed_height (height : Z) : Z :=
  let epoch := height / RANDOMX_SEED_INTERVAL in
  if epoch =? 0 then 0
  else saturating_sub (epoch * RANDOMX_SEED_INTERVAL) RANDOMX_SEED_OFFSET.

(** [randomx_pool::randomx_hash], the RandomX library behind its cache pool *)
Class RandomXHash : Type := randomx_hash : bytes → bytes → Result bytes.

Section pow_check.
Context `{HB : Blake2b256, HR : RandomXHash}.

Definition fast_pow_hash (seed preimage : bytes) : bytes :=
  let out := blake2b (str_bytes "DOM_FAST_POW_V1" ++ seed ++ preimage) in
  replicate 16 0 ++ drop 16 out.

Definition validate_pow_randomx (pow_preimage pow_hash seed target : bytes) : Result bool :=
  let? computed := randomx_hash seed pow_preimage in
  if negb (bool_decide (computed = pow_hash)) then Ok false
  else Ok (hash_meets_target pow_hash target).

Definition validate_pow_for_network (env : option string) (network_magic : Z)
    (pow_preimage pow_hash seed target : bytes) : Result bool :=
  let? mode := pow_validation_mode_for_network env network_magic in
  match mode with
  | RandomX => validate_pow_randomx pow_preimage pow_hash seed target
  | FastDevOnly =>
      let computed := fast_pow_hash seed pow_preimage in
      if negb (bool_decide (computed = pow_hash)) then Ok false
      else Ok (hash_meets_target pow_hash target)
  end.
End pow_check.

(** ** Serialization *)

#[export] Instance CompactTarget_serialize : DomSerialize CompactTarget :=
  λ c w, Ok (write_u32 w (compact_bits c)).
#[export] Instance CompactTarget_deserialize : DomDeserialize CompactTarget := {|
  MIN_SERIALIZED_SIZE := 4;
  deserialize := read! v := read_u32 in rd_ret {| compact_bits := v |};
|}.
