(* ===== verification/PowLaws.v ===== *)
(** * Correctness of the difficulty adjustment

    Values of targets as integers, the exact meaning of the 256-bit arithmetic,
    ASERT against its closed formula, the compact encoders, and the properties of
    the proof-of-work check. *)

From Stdlib Require Import ZArith Lia.
From stdpp Require Import base list strings.
From S2P Require Import Prelude CoreError Core Serialization CryptoHash Pow.

(** A 32-byte target *)
Definition target_ok (t : bytes) : Prop := bytes_ok t ∧ length t = 32%nat.

Definition MIN_TARGET : Z := be_val MIN_TARGET_BYTES.

Lemma MIN_TARGET_ok : target_ok MIN_TARGET_BYTES.
Proof. split; [|done]. repeat constructor; discriminate. Qed.
Lemma MAX_TARGET_ok : target_ok MAX_TARGET_BYTES.
Proof. split; [|done]. repeat constructor; discriminate. Qed.
Lemma zero_target_ok : target_ok (replicate 32 0).
Proof. split; [|done]. repeat constructor; discriminate. Qed.
Lemma maximum_accepted_ok : target_ok maximum_accepted_target.
Proof. split; [|done]. repeat constructor; discriminate. Qed.
Lemma MIN_TARGET_val : MIN_TARGET = 0xffff * 2 ^ 32.
Proof. vm_compute. reflexivity. Qed.
Lemma MAX_TARGET_val : be_val MAX_TARGET_BYTES = 2 ^ 240 - 1.
Proof. vm_compute. reflexivity. Qed.
Lemma maximum_accepted_val : be_val maximum_accepted_target = 2 ^ 248 - 1.
Proof. vm_compute. reflexivity. Qed.
#[export] Hint Resolve MIN_TARGET_ok MAX_TARGET_ok zero_target_ok maximum_accepted_ok : dom.

Lemma target_bound t : target_ok t → 0 ≤ be_val t < 2 ^ 256.
Proof.
  intros [Hb Hl]. pose proof (be_val_bound t Hb) as H. unfold zlen in H. rewrite Hl in H.
  exact H.
Qed.

(** ** Comparison *)

Lemma target_lt_gt a b : target_lt a b = target_gt b a.
Proof.
  revert b. induction a as [|x a IH]; intros [|y b]; simpl; try done.
  destruct (x <? y); [done|]. destruct (y <? x); [done|]. apply IH.
Qed.

Lemma target_gt_spec a b :
  bytes_ok a → bytes_ok b → length a = length b →
  target_gt a b = true ↔ be_val b < be_val a.
Proof.
  revert b. induction a as [|x a IH]; intros [|y b] Ha Hb Hl; try done; simpl in *.
  rewrite !be_val_cons. apply bytes_ok_cons in Ha as [Hx Ha], Hb as [Hy Hb].
  injection Hl as Hl. assert (Hz : zlen a = zlen b) by (unfold zlen; lia). rewrite Hz.
  pose proof (be_val_bound a Ha) as Ba. pose proof (be_val_bound b Hb) as Bb.
  rewrite Hz in Ba. set (P := 256 ^ zlen b) in *.
  destruct (Z.ltb_spec y x); [split; [nia|done]|].
  destruct (Z.ltb_spec x y); [split; [done|nia]|].
  assert (x = y) as -> by lia. rewrite IH by done. lia.
Qed.

Lemma target_gt_val a b :
  target_ok a → target_ok b → target_gt a b = (be_val b <? be_val a).
Proof.
  intros [Ha La] [Hb Lb]. pose proof (target_gt_spec a b Ha Hb ltac:(congruence)).
  destruct (target_gt a b), (Z.ltb_spec (be_val b) (be_val a)); naive_solver lia.
Qed.

Lemma target_lt_val a b :
  target_ok a → target_ok b → target_lt a b = (be_val a <? be_val b).
Proof. intros. rewrite target_lt_gt. by apply target_gt_val. Qed.

Lemma target_val_inj a b : target_ok a → target_ok b → be_val a = be_val b → a = b.
Proof.
  intros [Ha La] [Hb Lb] He. rewrite <- (be_bytes_be_val a Ha), <- (be_bytes_be_val b Hb).
  by rewrite La, Lb, He.
Qed.

(** ** 256-bit arithmetic *)

(** The pair of limbs as one number *)
Definition limbs (p : Z * Z) : Z := fst p * 2 ^ 128 + snd p.

Lemma lor_shift_add x y n : 0 ≤ n → 0 ≤ x < 2 ^ n → Z.lor x (Z.shiftl y n) = x + y * 2 ^ n.
Proof.
  intros Hn Hx. rewrite Z.shiftl_mul_pow2 by done.
  destruct (decide (x = 0)) as [->|]; [by rewrite Z.lor_0_l|].
  assert (Hdisj : Z.land x (y * 2 ^ n) = 0).
  { apply Z.bits_inj'. intros k Hk. rewrite Z.land_spec, Z.bits_0.
    destruct (Z.lt_ge_cases k n); [by rewrite Z.mul_pow2_bits_low, andb_false_r|].
    rewrite (Z.bits_above_log2 x); [done|lia|].
    apply Z.log2_lt_pow2; [lia|]. apply (Z.lt_le_trans _ (2 ^ n)); [lia|].
    apply Z.pow_le_mono_r; lia. }
  by rewrite <- Z.lxor_lor, <- Z.add_nocarry_lxor.
Qed.

Lemma lor_limbs hi lo :
  0 ≤ hi < 2 ^ 128 → 0 ≤ lo < 2 ^ 128 → Z.lor (u256_shl hi 128) lo = hi * 2 ^ 128 + lo.
Proof.
  intros Hh Hl. unfold u256_shl.
  rewrite Z.mod_small by (rewrite Z.shiftl_mul_pow2 by lia; lia).
  rewrite Z.lor_comm, lor_shift_add by lia. lia.
Qed.

Lemma limbs_split v : 0 ≤ v < 2 ^ 256 → limbs (low_u128 (u256_shr v 128), low_u128 v) = v.
Proof.
  intros Hv. unfold limbs, low_u128, u256_shr. cbn [fst snd].
  rewrite Z.shiftr_div_pow2 by lia. rewrite (Z.mod_small (v / 2 ^ 128)).
  - pose proof (Z.div_mod v (2 ^ 128) ltac:(lia)). lia.
  - split; [apply Z.div_pos; lia|]. apply Z.div_lt_upper_bound; lia.
Qed.

Lemma mul_256_div_radix_exact hi lo m radix :
  0 ≤ hi < 2 ^ 128 → 0 ≤ lo < 2 ^ 128 → 0 ≤ m < 2 ^ 17 →
  (hi * 2 ^ 128 + lo) * m < 2 ^ 272 →
  ∃ h l, mul_256_div_radix_checked hi lo m radix = Ok (h, l) ∧
         0 ≤ h < 2 ^ 128 ∧ 0 ≤ l < 2 ^ 128 ∧
         limbs (h, l) = (hi * 2 ^ 128 + lo) * m / 2 ^ 16.
Proof.
  intros Hh Hl Hm Hb. unfold mul_256_div_radix_checked, u256_mul, u256_add, add_ovf.
  assert (0 ≤ lo * m < 2 ^ 145) by nia. assert (0 ≤ hi * m < 2 ^ 145) by nia.
  set (lp := lo * m) in *. set (hp := hi * m) in *.
  assert (checked_mul 256 lo m = Some lp) as -> by (apply checked_mul_Some; lia).
  assert (checked_mul 256 hi m = Some hp) as -> by (apply checked_mul_Some; lia).
  cbn [expect rbind]. unfold u256_shr, u256_shl, low_u128.
  rewrite !Z.shiftr_div_pow2, Z.shiftl_mul_pow2 by lia.
  change 0xffff with (Z.ones 16). rewrite Z.land_ones by lia.
  pose proof (Z.div_mod lp (2 ^ 16) ltac:(lia)) as D1.
  pose proof (Z.mod_pos_bound lp (2 ^ 16) ltac:(lia)).
  pose proof (Z.div_mod hp (2 ^ 16) ltac:(lia)) as D2.
  pose proof (Z.mod_pos_bound hp (2 ^ 16) ltac:(lia)).
  set (lq := lp / 2 ^ 16) in *. set (lr := lp mod 2 ^ 16) in *.
  set (hq := hp / 2 ^ 16) in *. set (hr := hp mod 2 ^ 16) in *.
  rewrite (Z.mod_small (hr * 2 ^ 112)) by lia.
  assert (checked_add 256 lq (hr * 2 ^ 112) = Some (lq + hr * 2 ^ 112)) as ->
    by (apply checked_add_Some; lia).
  cbn [expect rbind]. rewrite !Z.shiftr_div_pow2 by lia. set (nl := lq + hr * 2 ^ 112) in *.
  assert (0 ≤ nl < 2 ^ 130) by (unfold nl; lia).
  pose proof (Z.div_mod nl (2 ^ 128) ltac:(lia)) as D3.
  pose proof (Z.mod_pos_bound nl (2 ^ 128) ltac:(lia)).
  assert (0 ≤ nl / 2 ^ 128) by (apply Z.div_pos; lia).
  assert (Htot : (hi * 2 ^ 128 + lo) * m / 2 ^ 16 = hq * 2 ^ 128 + nl).
  { replace ((hi * 2 ^ 128 + lo) * m) with ((hq * 2 ^ 128 + nl) * 2 ^ 16 + lr) by (unfold nl; lia).
    rewrite Z.div_add_l by lia. rewrite (Z.div_small lr) by lia. lia. }
  assert ((hi * 2 ^ 128 + lo) * m / 2 ^ 16 < 2 ^ 256) by (apply Z.div_lt_upper_bound; lia).
  assert (checked_add 256 hq (nl / 2 ^ 128) = Some (hq + nl / 2 ^ 128)) as ->
    by (apply checked_add_Some; lia).
  cbn [expect rbind]. rewrite (Z.mod_small (hq + nl / 2 ^ 128)) by lia.
  eexists _, _. split; [reflexivity|]. unfold limbs. cbn [fst snd]. lia.
Qed.

Lemma shift_left_exact hi lo s :
  0 ≤ hi < 2 ^ 128 → 0 ≤ lo < 2 ^ 128 → 0 ≤ s < 256 →
  limbs (shift_left_256 hi lo s) = Z.min (limbs (hi, lo) * 2 ^ s) (2 ^ 256 - 1).
Proof.
  intros Hh Hl Hs. unfold shift_left_256. rewrite lor_limbs by done.
  unfold limbs at 2. cbn [fst snd]. set (V := hi * 2 ^ 128 + lo). assert (0 ≤ V < 2 ^ 256) by lia.
  destruct (Z.eqb_spec s 0) as [->|]; [unfold limbs; simpl fst; simpl snd; fold V; lia|].
  destruct (Z.leb_spec 256 s); [lia|]. assert (Hp : 0 < 2 ^ s) by lia.
  assert (Hsplit : 2 ^ 256 = 2 ^ (256 - s) * 2 ^ s) by (rewrite <- Z.pow_add_r by lia; f_equal; lia).
  assert (Hmax : u256_shr U256_MAX s = 2 ^ (256 - s) - 1).
  { unfold u256_shr, U256_MAX. rewrite Z.shiftr_div_pow2, Hsplit by lia.
    symmetry. apply (Z.div_unique _ _ _ (2 ^ s - 1)); lia. }
  rewrite Hmax. destruct (Z.ltb_spec (2 ^ (256 - s) - 1) V).
  - rewrite Z.min_r by nia. unfold limbs, u128_max. simpl fst; simpl snd. lia.
  - assert (V * 2 ^ s < 2 ^ 256) by nia. rewrite Z.min_l by lia.
    unfold u256_shl. rewrite Z.shiftl_mul_pow2, Z.mod_small by lia. apply limbs_split. lia.
Qed.

Lemma shift_right_exact hi lo s :
  0 ≤ hi < 2 ^ 128 → 0 ≤ lo < 2 ^ 128 → 0 ≤ s < 256 →
  limbs (shift_right_256 hi lo s) = limbs (hi, lo) / 2 ^ s.
Proof.
  intros Hh Hl Hs. unfold shift_right_256. rewrite lor_limbs by done.
  unfold limbs at 2. cbn [fst snd]. set (V := hi * 2 ^ 128 + lo). assert (0 ≤ V < 2 ^ 256) by lia.
  destruct (Z.eqb_spec s 0) as [->|]; [unfold limbs; simpl fst; simpl snd; fold V; by rewrite Z.div_1_r|].
  destruct (Z.leb_spec 256 s); [lia|]. assert (Hp : 0 < 2 ^ s) by lia.
  rewrite limbs_split; unfold u256_shr; rewrite Z.shiftr_div_pow2 by lia; [done|].
  split; [apply Z.div_pos; lia|]. apply (Z.le_lt_trans _ V); [|lia].
  apply Z.div_le_upper_bound; nia.
Qed.

Definition limbs_ok (p : Z * Z) : Prop := 0 ≤ fst p < 2 ^ 128 ∧ 0 ≤ snd p < 2 ^ 128.

Lemma low_u128_bound v : 0 ≤ low_u128 v < 2 ^ 128.
Proof. apply Z.mod_pos_bound. lia. Qed.

Lemma shift_left_ok hi lo s :
  0 ≤ hi < 2 ^ 128 → 0 ≤ lo < 2 ^ 128 → limbs_ok (shift_left_256 hi lo s).
Proof.
  intros. unfold shift_left_256, limbs_ok, u128_max.
  destruct (s =? 0); [done|]. destruct (256 <=? s); [simpl; lia|].
  destruct (_ <? _); [simpl; lia|]. split; apply low_u128_bound.
Qed.

Lemma shift_right_ok hi lo s :
  0 ≤ hi < 2 ^ 128 → 0 ≤ lo < 2 ^ 128 → limbs_ok (shift_right_256 hi lo s).
Proof.
  intros. unfold shift_right_256, limbs_ok.
  destruct (s =? 0); [done|]. destruct (256 <=? s); [simpl; lia|].
  split; apply low_u128_bound.
Qed.

Lemma limbs_bytes p :
  limbs_ok p →
  target_ok (be_bytes 16 (fst p) ++ be_bytes 16 (snd p)) ∧
  be_val (be_bytes 16 (fst p) ++ be_bytes 16 (snd p)) = limbs p.
Proof.
  intros [H1 H2]. split; [split|].
  - apply bytes_ok_app. split; apply be_bytes_ok.
  - by rewrite length_app, !length_be_bytes.
  - rewrite be_val_app, zlen_be_bytes, !be_val_be_bytes by done. done.
Qed.

Lemma target_limbs t :
  target_ok t →
  limbs_ok (be_val (take 16 t), be_val (drop 16 t)) ∧
  limbs (be_val (take 16 t), be_val (drop 16 t)) = be_val t.
Proof.
  intros [Hb Hl].
  assert (H1 : zlen (take 16 t) = 16) by (unfold zlen; rewrite length_take; lia).
  assert (H2 : zlen (drop 16 t) = 16) by (unfold zlen; rewrite length_drop; lia).
  split.
  - pose proof (be_val_bound (take 16 t) (Forall_take _ _ _ Hb)) as B1.
    pose proof (be_val_bound (drop 16 t) (Forall_drop _ _ _ Hb)) as B2.
    rewrite H1 in B1. rewrite H2 in B2. done.
  - rewrite <- (take_drop 16 t) at 3. rewrite be_val_app, H2. done.
Qed.

(** ** The retarget as a formula *)

(** The anchor value [A] scaled by [m / 65536] and then by [2^i], rounding down *)
Definition scaled (A m i : Z) : Z :=
  if 0 <=? i then A * m / 65536 * 2 ^ i else A * m / 65536 / 2 ^ (- i).

Definition clamp (lo hi v : Z) : Z := Z.max lo (Z.min hi v).

Lemma clamp_mono lo hi a b : a ≤ b → clamp lo hi a ≤ clamp lo hi b.
Proof. unfold clamp. lia. Qed.

Lemma scaled_pos A m i : 1 ≤ A → 65536 ≤ m → 0 ≤ i → 2 ^ i ≤ scaled A m i.
Proof.
  intros HA Hm Hi. unfold scaled. destruct (Z.leb_spec 0 i); [|lia].
  assert (1 ≤ A * m / 65536) by (apply Z.div_le_lower_bound; nia).
  assert (0 < 2 ^ i) by lia. nia.
Qed.

(** The final clamp of [apply_exponent] on the bytes of the shifted limbs *)
Lemma clamp_bytes p max :
  limbs_ok p → target_ok max → MIN_TARGET ≤ be_val max →
  let result := be_bytes 16 (fst p) ++ be_bytes 16 (snd p) in
  ∃ t, (if target_gt result max then Ok max
        else if bool_decide (result = replicate 32 0) || target_lt result MIN_TARGET_BYTES
             then Ok MIN_TARGET_BYTES else Ok result) = Ok (E := DomError) t ∧
       target_ok t ∧ be_val t = clamp MIN_TARGET (be_val max) (limbs p).
Proof.
  intros Hp Hmax Hle. destruct (limbs_bytes p Hp) as [Hr <-]. cbv zeta.
  set (r := be_bytes 16 (fst p) ++ be_bytes 16 (snd p)) in *.
  rewrite target_gt_val, target_lt_val by auto with dom. fold MIN_TARGET. unfold clamp.
  destruct (Z.ltb_spec (be_val max) (be_val r)); [exists max; split_and!; [done..|lia]|].
  destruct (bool_decide_reflect (r = replicate 32 0)) as [Hz|]; simpl.
  - exists MIN_TARGET_BYTES. split_and!; [done|auto with dom|]. rewrite Hz.
    change (be_val (replicate 32 0)) with 0. unfold MIN_TARGET in *.
    pose proof (target_bound _ MIN_TARGET_ok). lia.
  - destruct (Z.ltb_spec (be_val r) MIN_TARGET).
    + exists MIN_TARGET_BYTES. split_and!; [done|auto with dom|]. unfold MIN_TARGET in *. lia.
    + exists r. split_and!; [done..|lia].
Qed.

(** Capping the shift at 255 bits is invisible behind the clamp. *)
Lemma clamp_shl_cap V i hi :
  1 ≤ V → 0 ≤ i → MIN_TARGET ≤ hi < 2 ^ 255 →
  clamp MIN_TARGET hi (Z.min (V * 2 ^ Z.min i 255) (2 ^ 256 - 1))
  = clamp MIN_TARGET hi (V * 2 ^ i).
Proof.
  intros HV Hi Hhi. unfold clamp. destruct (Z.le_gt_cases i 255).
  - rewrite (Z.min_l i 255) by lia. lia.
  - rewrite (Z.min_r i 255) by lia.
    assert (2 ^ 255 ≤ 2 ^ i) by (apply Z.pow_le_mono_r; lia).
    assert (2 ^ 255 ≤ V * 2 ^ 255) by nia. assert (2 ^ 255 ≤ V * 2 ^ i) by nia. lia.
Qed.

Lemma clamp_shr_cap V i hi :
  0 ≤ V < 2 ^ 256 → 0 ≤ i → MIN_TARGET ≤ hi →
  clamp MIN_TARGET hi (V / 2 ^ Z.min i 255) = clamp MIN_TARGET hi (V / 2 ^ i).
Proof.
  intros HV Hi Hhi. destruct (Z.le_gt_cases i 255); [by rewrite Z.min_l|].
  rewrite (Z.min_r i 255) by lia.
  assert (2 ^ 256 ≤ 2 ^ i) by (apply Z.pow_le_mono_r; lia).
  rewrite (Z.div_small V (2 ^ i)) by lia.
  assert (V / 2 ^ 255 < 2) by (apply Z.div_lt_upper_bound; lia).
  pose proof MIN_TARGET_val. unfold clamp. lia.
Qed.

Lemma apply_exponent_exact anchor i m max :
  target_ok anchor → target_ok max → 1 ≤ be_val anchor < 2 ^ 255 → 65536 ≤ m < 2 ^ 17 →
  MIN_TARGET ≤ be_val max < 2 ^ 255 → - 2 ^ 120 < i < 2 ^ 120 →
  ∃ t, apply_exponent anchor i m max = Ok t ∧ target_ok t ∧
       be_val t = clamp MIN_TARGET (be_val max) (scaled (be_val anchor) m i).
Proof.
  intros Ha Hmax HA Hm Hmx Hi. destruct (target_limbs anchor Ha) as [[L1 L2] HL].
  unfold limbs in HL. cbn [fst snd] in L1, L2, HL. unfold apply_exponent.
  destruct (mul_256_div_radix_exact _ _ m ASERT_RADIX L1 L2) as (h & l & Hmul & Hh & Hl & Hv);
    [lia|rewrite HL; nia|].
  rewrite Hmul. cbn [rbind]. rewrite HL in Hv. change (2 ^ 16) with 65536 in Hv.
  unfold scaled. set (V := be_val anchor * m / 65536) in *.
  assert (1 ≤ V) by (apply Z.div_le_lower_bound; nia).
  assert (V < 2 ^ 256) by (rewrite <- Hv; unfold limbs; cbn [fst snd]; lia).
  destruct (Z.leb_spec 0 i).
  - pose proof (shift_left_ok h l (Z.min i 255) Hh Hl) as Hp.
    pose proof (shift_left_exact h l (Z.min i 255) Hh Hl ltac:(lia)) as Hs. rewrite Hv in Hs.
    destruct (shift_left_256 h l (Z.min i 255)) as [a b]. cbn [rbind].
    rewrite <- clamp_shl_cap, <- Hs by lia. apply (clamp_bytes (a, b)); [done..|lia].
  - unfold i128_checked. destruct (Z.leb_spec (- 2 ^ 127) (- i)); [|lia].
    destruct (Z.ltb_spec (- i) (2 ^ 127)); [|lia]. cbn [andb expect rbind].
    pose proof (shift_right_ok h l (Z.min (- i) 255) Hh Hl) as Hp.
    pose proof (shift_right_exact h l (Z.min (- i) 255) Hh Hl ltac:(lia)) as Hs. rewrite Hv in Hs.
    destruct (shift_right_256 h l (Z.min (- i) 255)) as [a b]. cbn [rbind].
    rewrite <- clamp_shr_cap, <- Hs by lia. apply (clamp_bytes (a, b)); [done..|lia].
Qed.

Lemma i128_checked_ok v : - 2 ^ 127 ≤ v < 2 ^ 127 → i128_checked v = Some v.
Proof. intros. by apply i128_checked_Some. Qed.

Lemma floor_div_i128_exact a b :
  - 2 ^ 127 < a < 2 ^ 127 → 0 < b → floor_div_i128 a b = Ok (a / b).
Proof.
  intros Ha Hb. unfold floor_div_i128, i128_checked_div, i128_checked_rem.
  destruct (Z.eqb_spec b 0); [lia|].
  assert (Hq : - 2 ^ 127 < Z.quot a b < 2 ^ 127).
  { pose proof (Z.quot_abs a b ltac:(lia)) as Hq.
    assert (Z.abs a ÷ Z.abs b ≤ Z.abs a) by (apply Z.quot_le_upper_bound; nia). lia. }
  rewrite i128_checked_ok by lia. cbn [ok_or rbind].
  destruct (Z.eqb_spec a (- 2 ^ 127)); [lia|]. cbn [andb ok_or rbind].
  destruct (Z.ltb_spec b 0); [lia|]. destruct (Z.ltb_spec a 0) as [Hneg|Hpos].
  - assert (Hqo : Z.quot a b = - (- a / b))
      by (rewrite <- Z.quot_div_nonneg, Z.quot_opp_l by lia; lia).
    assert (Hro : Z.rem a b = - (- a mod b))
      by (rewrite <- Z.rem_mod_nonneg, Z.rem_opp_l by lia; lia).
    rewrite Hro. destruct (Z.eqb_spec (- (- a mod b)) 0) as [Hz|Hnz]; cbn [negb andb xorb].
    + rewrite Hqo, <- Z.div_opp_l_z by lia. by rewrite Z.opp_involutive.
    + assert (Hd : a / b = Z.quot a b - 1).
      { rewrite Hqo. rewrite <- (Z.opp_involutive a) at 1. rewrite Z.div_opp_l_nz by lia. lia. }
      rewrite <- Hd.
      assert (- 2 ^ 127 ≤ a / b) by (apply Z.div_le_lower_bound; nia).
      by rewrite i128_checked_ok by lia.
  - rewrite Z.quot_div_nonneg by lia. by destruct (negb _).
Qed.

Lemma ASERT_FRAC_TABLE_range :
  Forall (λ m, 65536 ≤ m < 2 ^ 17) ASERT_FRAC_TABLE.
Proof. refine (bool_decide_unpack _ _). vm_compute. reflexivity. Qed.

Lemma ASERT_FRAC_TABLE_length : length ASERT_FRAC_TABLE = 256%nat.
Proof. reflexivity. Qed.

Definition frac (f : Z) : Z := nth (Z.to_nat f) ASERT_FRAC_TABLE 0.

Lemma frac_lookup f : 0 ≤ f < 256 → ASERT_FRAC_TABLE !! Z.to_nat f = Some (frac f).
Proof.
  intros Hf. unfold frac.
  destruct (lookup_lt_is_Some_2 ASERT_FRAC_TABLE (Z.to_nat f)) as [m Hm].
  { rewrite ASERT_FRAC_TABLE_length. lia. }
  by rewrite (nth_lookup_Some _ _ _ _ Hm).
Qed.

Lemma frac_range f : 0 ≤ f < 256 → 65536 ≤ frac f < 2 ^ 17.
Proof. intros Hf. exact (Forall_lookup_1 _ _ _ _ ASERT_FRAC_TABLE_range (frac_lookup f Hf)). Qed.

(** Seconds ahead of or behind the schedule *)
Definition schedule_error (anchor : AsertAnchor) (ts : Timestamp) (h : BlockHeight) (p : PowParams) : Z :=
  time_val ts - time_val (anchor_timestamp anchor)
  - (height_val h - height_val (anchor_height anchor)) * target_spacing p.

(** ASERT on integers: an error of [e] seconds multiplies the anchor by
    [2^(e / half_life)], in steps of 1/256 *)
Definition asert_value (A e hl : Z) : Z :=
  let fp := e * 256 / hl in scaled A (frac (fp mod 256)) (fp / 256).

Record asert_inputs (anchor : AsertAnchor) (ts : Timestamp) (h : BlockHeight) (p : PowParams)
    (max : bytes) : Prop := {
  ai_ts : u64_ok (time_val ts);
  ai_h : u64_ok (height_val h);
  ai_ats : u64_ok (time_val (anchor_timestamp anchor));
  ai_ah : 0 ≤ height_val (anchor_height anchor) ≤ height_val h;
  ai_target : target_ok (anchor_target anchor);
  ai_A : 1 ≤ be_val (anchor_target anchor) < 2 ^ 255;
  ai_spacing : 0 ≤ target_spacing p < 2 ^ 32;
  ai_hl : 0 < half_life p < 2 ^ 64;
  ai_max : max_target p = Ok max;
  ai_max_ok : target_ok max;
  ai_max_val : MIN_TARGET ≤ be_val max < 2 ^ 255;
}.

Lemma schedule_error_bound anchor ts h p max :
  asert_inputs anchor ts h p max →
  - 2 ^ 97 < schedule_error anchor ts h p < 2 ^ 64 ∧
  classify_asert_exponent_seconds (time_val (anchor_timestamp anchor)) (time_val ts)
    (height_val (anchor_height anchor)) (height_val h) (target_spacing p)
  = AE_Valid (schedule_error anchor ts h p).
Proof.
  intros []. unfold in_width in *. unfold schedule_error, classify_asert_exponent_seconds.
  assert (0 ≤ (height_val h - height_val (anchor_height anchor)) * target_spacing p < 2 ^ 96) by nia.
  split; [lia|]. unfold checked_sub.
  destruct (Z.leb_spec (height_val (anchor_height anchor)) (height_val h)); [|lia].
  rewrite i128_checked_ok by lia. rewrite i128_checked_ok by lia. done.
Qed.

Lemma asert_exact anchor ts h p max :
  asert_inputs anchor ts h p max →
  ∃ t, asert_next_target_with_params anchor ts h p = Ok t ∧ target_ok t ∧
       be_val t = clamp MIN_TARGET (be_val max)
         (asert_value (be_val (anchor_target anchor)) (schedule_error anchor ts h p) (half_life p)).
Proof.
  intros Hin. destruct (schedule_error_bound _ _ _ _ _ Hin) as [He Hcl]. destruct Hin.
  unfold asert_next_target_with_params. rewrite Hcl. cbn [rbind].
  set (e := schedule_error anchor ts h p) in *.
  rewrite i128_checked_ok by lia. cbn [ok_or rbind].
  rewrite floor_div_i128_exact by lia. cbn [rbind]. set (fp := e * 256 / half_life p).
  assert (- 2 ^ 106 < fp < 2 ^ 73).
  { unfold fp. split.
    - apply Z.lt_le_trans with (- 2 ^ 105); [lia|]. apply Z.div_le_lower_bound; nia.
    - apply Z.div_lt_upper_bound; nia. }
  rewrite floor_div_i128_exact by lia. cbn [rbind].
  pose proof (Z.div_mod fp 256 ltac:(lia)). pose proof (Z.mod_pos_bound fp 256 ltac:(lia)) as Hf.
  rewrite i128_checked_ok by lia. cbn [ok_or rbind].
  replace (fp - fp / 256 * 256) with (fp mod 256) by lia.
  rewrite i128_checked_ok by lia. cbn [ok_or rbind].
  rewrite (Z.mod_small (fp mod 256) (2 ^ 64)), Z.min_l by lia.
  rewrite frac_lookup by done. cbn [expect rbind]. rewrite ai_max0. cbn [rbind].
  apply apply_exponent_exact; try done; [by apply frac_range|lia].
Qed.

(** ** Monotonicity in time *)

Lemma frac_step f : 0 ≤ f < 255 → frac f ≤ frac (f + 1).
Proof.
  assert (H : Forall (λ f, frac f ≤ frac (f + 1)) (seqZ 0 255)).
  { refine (bool_decide_unpack _ _). vm_compute. reflexivity. }
  intros Hf. rewrite Forall_forall in H. apply H, elem_of_seqZ. lia.
Qed.

Lemma frac_mono f g : 0 ≤ f ≤ g → g < 256 → frac f ≤ frac g.
Proof.
  intros Hfg. assert (0 ≤ f) by lia. assert (∃ d, 0 ≤ d ∧ g = f + d) as (d & Hd & ->) by (exists (g - f); lia).
  clear Hfg. revert d Hd. apply (natlike_ind (λ d, f + d < 256 → frac f ≤ frac (f + d))).
  - by rewrite Z.add_0_r.
  - intros d Hd IH Hlt. rewrite <- Z.add_1_r, Z.add_assoc in *.
    etransitivity; [apply IH; lia|]. apply frac_step. lia.
Qed.

Lemma scaled_mono_m A m m' i : 0 ≤ A → m ≤ m' → scaled A m i ≤ scaled A m' i.
Proof.
  intros HA Hm. unfold scaled.
  assert (A * m / 65536 ≤ A * m' / 65536) by (apply Z.div_le_mono; nia).
  destruct (Z.leb_spec 0 i).
  - assert (0 < 2 ^ i) by lia. nia.
  - apply Z.div_le_mono; lia.
Qed.

Lemma scaled_double A i : 0 ≤ A → scaled A 131072 i = scaled A 65536 (i + 1).
Proof.
  intros HA. unfold scaled.
  replace (A * 131072 / 65536) with (2 * A)
    by (replace (A * 131072) with (2 * A * 65536) by lia; by rewrite Z.div_mul).
  rewrite Z.div_mul by lia.
  destruct (Z.leb_spec 0 i), (Z.leb_spec 0 (i + 1)); try lia.
  - rewrite Z.pow_add_r by lia. lia.
  - assert (i = -1) as -> by lia. simpl. rewrite Z.mul_comm, Z.div_mul by lia. lia.
  - replace (- i) with (1 + (- (i + 1))) by lia. rewrite Z.pow_add_r by lia.
    rewrite Z.div_mul_cancel_l by lia. done.
Qed.

Lemma scaled_succ A m i : 0 ≤ A → 0 ≤ m → scaled A m i ≤ scaled A m (i + 1).
Proof.
  intros HA Hm. unfold scaled. set (V := A * m / 65536).
  assert (0 ≤ V) by (apply Z.div_pos; nia).
  destruct (Z.leb_spec 0 i), (Z.leb_spec 0 (i + 1)); try lia.
  - rewrite Z.pow_add_r by lia. assert (0 < 2 ^ i) by lia. nia.
  - assert (i = -1) as -> by lia. simpl. apply Z.div_le_upper_bound; lia.
  - replace (- i) with (- (i + 1) + 1) by lia. rewrite Z.pow_add_r by lia.
    rewrite <- Z.div_div by lia. apply Z.div_le_upper_bound; [lia|].
    assert (0 ≤ V / 2 ^ (- (i + 1))) by (apply Z.div_pos; lia). lia.
Qed.

Lemma scaled_mono_i A m i j : 0 ≤ A → 0 ≤ m → i ≤ j → scaled A m i ≤ scaled A m j.
Proof.
  intros HA Hm Hij. assert (∃ d, 0 ≤ d ∧ j = i + d) as (d & Hd & ->) by (exists (j - i); lia).
  clear Hij. revert d Hd. apply natlike_ind; [by rewrite Z.add_0_r|].
  intros d Hd IH. rewrite <- Z.add_1_r, Z.add_assoc.
  etransitivity; [exact IH|by apply scaled_succ].
Qed.

Lemma asert_value_mono A e e' hl :
  1 ≤ A → 0 < hl → e ≤ e' → asert_value A e hl ≤ asert_value A e' hl.
Proof.
  intros HA Hhl He. unfold asert_value.
  assert (Hfp : e * 256 / hl ≤ e' * 256 / hl) by (apply Z.div_le_mono; lia).
  set (x := e * 256 / hl) in *. set (y := e' * 256 / hl) in *. clearbody x y.
  pose proof (Z.div_mod x 256 ltac:(lia)). pose proof (Z.mod_pos_bound x 256 ltac:(lia)) as Hx.
  pose proof (Z.div_mod y 256 ltac:(lia)). pose proof (Z.mod_pos_bound y 256 ltac:(lia)) as Hy.
  pose proof (frac_range _ Hx). pose proof (frac_range _ Hy).
  destruct (decide (x / 256 = y / 256)) as [Heq|].
  - rewrite Heq. apply scaled_mono_m; [lia|]. apply frac_mono; lia.
  - etransitivity; [apply (scaled_mono_m _ _ 131072); lia|]. rewrite scaled_double by lia.
    etransitivity; [apply (scaled_mono_i _ _ _ (y / 256)); lia|]. apply scaled_mono_m; lia.
Qed.

(** ** Compact targets *)

(** Three significant bytes at index [f] *)
Definition tri (f : nat) (a b c : Z) : bytes :=
  replicate f 0 ++ [a; b; c] ++ replicate (29 - f) 0.

Lemma tri_ok f a b c :
  (f ≤ 29)%nat → u8_ok a → u8_ok b → u8_ok c → target_ok (tri f a b c).
Proof.
  intros Hf Ha Hb Hc. split.
  - unfold tri. rewrite bytes_ok_app. split; [by apply bytes_ok_replicate|].
    repeat (apply bytes_ok_cons; split; [done|]). by apply bytes_ok_replicate.
  - unfold tri. rewrite !length_app, !length_replicate. simpl. lia.
Qed.

Lemma be_val_zeros n : be_val (replicate n 0) = 0.
Proof. induction n as [|n IH]; [done|]. simpl. rewrite be_val_cons, IH. lia. Qed.

Lemma tri_val f a b c :
  be_val (tri f a b c) = (a * 65536 + b * 256 + c) * 256 ^ Z.of_nat (29 - f).
Proof.
  unfold tri. rewrite be_val_app, be_val_zeros, be_val_app, be_val_zeros, zlen_replicate.
  rewrite !be_val_cons. unfold zlen. simpl. change (be_val []) with 0. lia.
Qed.

(** The compact form with exponent [size] and mantissa [m] *)
Definition compact (size m : Z) : CompactTarget := {| compact_bits := size * 2 ^ 24 + m |}.

Lemma compact_fields size m :
  0 ≤ m < 2 ^ 23 →
  Z.shiftr (size * 2 ^ 24 + m) 24 = size ∧
  Z.land (size * 2 ^ 24 + m) 0x007fffff = m ∧
  Z.land (size * 2 ^ 24 + m) 0x00800000 = 0.
Proof.
  intros Hm. split_and!.
  - rewrite Z.shiftr_div_pow2 by lia. rewrite Z.div_add_l, Z.div_small by lia. lia.
  - change 0x007fffff with (Z.ones 23). rewrite Z.land_ones by lia.
    replace (size * 2 ^ 24 + m) with (m + (size * 2) * 2 ^ 23) by lia.
    rewrite Z.mod_add, Z.mod_small by lia. done.
  - apply Z.bits_inj'. intros n Hn. rewrite Z.land_spec, Z.bits_0.
    change 0x00800000 with (2 ^ 23). rewrite Z.pow2_bits_eqb by lia.
    destruct (Z.eqb_spec 23 n) as [<-|]; [|apply andb_false_r]. rewrite andb_true_r.
    replace (size * 2 ^ 24 + m) with (m + size * 2 ^ 24) by lia.
    rewrite <- Z.mod_pow2_bits_low with (n := 24) by lia. rewrite Z.mod_add, Z.mod_small by lia.
    apply Z.bits_above_log2; [lia|]. destruct (decide (m = 0)) as [->|]; [simpl; lia|].
    apply Z.log2_lt_pow2; lia.
Qed.

Lemma land_byte v : Z.land v 0xff = v mod 256.
Proof. change 0xff with (Z.ones 8). by rewrite Z.land_ones by lia. Qed.

Lemma unchecked_tri size m :
  3 ≤ size ≤ 32 → 0 ≤ m < 2 ^ 23 →
  compact_to_target_unchecked (size * 2 ^ 24 + m)
  = tri (Z.to_nat (32 - size)) (m mod 256) (m / 256 mod 256) (m / 65536).
Proof.
  intros Hs Hm. destruct (compact_fields size m Hm) as (H1 & H2 & _).
  unfold compact_to_target_unchecked. rewrite H1, H2, !land_byte.
  rewrite !Z.shiftr_div_pow2 by lia. change (2 ^ 8) with 256. change (2 ^ 16) with 65536.
  rewrite (Z.mod_small (m / 65536)) by (split; [apply Z.div_pos; lia|apply Z.div_lt_upper_bound; lia]).
  set (a := m mod 256). set (b := m / 256 mod 256). set (c := m / 65536). clearbody a b c.
  assert (Hin : size ∈ seqZ 3 30) by (apply elem_of_seqZ; lia).
  repeat (apply elem_of_cons in Hin as [->|Hin]; [reflexivity|]). by apply elem_of_nil in Hin.
Qed.

Lemma classify_compact size m :
  size ≤ 32 → 0 < m < 2 ^ 23 → classify_compact_target (size * 2 ^ 24 + m) = CT_Candidate.
Proof.
  intros Hs Hm. destruct (compact_fields size m ltac:(lia)) as (H1 & H2 & H3).
  unfold classify_compact_target. rewrite H1, H2, H3.
  destruct (Z.eqb_spec m 0); [lia|]. simpl. destruct (Z.ltb_spec 32 size); [lia|done].
Qed.

Lemma validate_target_bounds_Ok t :
  target_ok t →
  validate_target_bounds t = Ok tt ↔ MIN_TARGET ≤ be_val t < 2 ^ 248.
Proof.
  intros Ht. unfold validate_target_bounds.
  rewrite target_gt_val, target_lt_val by auto with dom.
  rewrite maximum_accepted_val. fold MIN_TARGET.
  destruct (Z.ltb_spec (2 ^ 248 - 1) (be_val t)); [split; [done|lia]|].
  destruct (Z.ltb_spec (be_val t) MIN_TARGET); (split; [done|lia]) || (split; [lia|done]).
Qed.

Lemma target_write_ok t p v : target_ok t → u8_ok v → target_ok (target_write t p v).
Proof.
  intros [Hb Hl] Hv. unfold target_write. destruct (p <? 32); [|done].
  split; [by apply Forall_insert|by rewrite length_insert].
Qed.

Lemma unchecked_ok bits : target_ok (compact_to_target_unchecked bits).
Proof.
  unfold compact_to_target_unchecked. rewrite !land_byte.
  assert (Hm : ∀ v, u8_ok (v mod 256)) by (intros v; apply Z.mod_pos_bound; lia).
  pose proof zero_target_ok as Hz.
  repeat match goal with |- context [if ?b then _ else _] => destruct b end;
    repeat apply target_write_ok; auto.
Qed.

Lemma to_target_ok c t :
  to_target c = Ok t →
  target_ok t ∧ (t = replicate 32 0 ∨ MIN_TARGET ≤ be_val t < 2 ^ 248).
Proof.
  unfold to_target. destruct (classify_compact_target _); try done.
  - intros [= <-]. split; [auto with dom|by left].
  - intros H. apply rbind_Ok in H as ([] & Hv & [= <-]).
    pose proof (unchecked_ok (compact_bits c)) as Ht. split; [done|]. right.
    by apply validate_target_bounds_Ok in Hv.
Qed.

Lemma to_target_compact size m :
  3 ≤ size ≤ 32 → 0 < m < 2 ^ 23 →
  let t := tri (Z.to_nat (32 - size)) (m mod 256) (m / 256 mod 256) (m / 65536) in
  MIN_TARGET ≤ be_val t < 2 ^ 248 → to_target (compact size m) = Ok t.
Proof.
  intros Hs Hm t Ht. unfold to_target. cbn [compact compact_bits].
  rewrite classify_compact by lia.
  pose proof (unchecked_ok (size * 2 ^ 24 + m)) as Hok.
  rewrite unchecked_tri in * by lia. fold t in Hok |- *.
  by rewrite (proj2 (validate_target_bounds_Ok t Hok) Ht).
Qed.

(** Every candidate [u32] is an exponent and a 23-bit mantissa. *)
Lemma compact_split bits :
  classify_compact_target bits = CT_Candidate →
  ∃ size m, bits = size * 2 ^ 24 + m ∧ size ≤ 32 ∧ 0 < m < 2 ^ 23.
Proof.
  intros Hc. unfold classify_compact_target in Hc.
  destruct (Z.eqb_spec (Z.land bits 0x007fffff) 0) as [|Hnz]; [done|].
  destruct (Z.eqb_spec (Z.land bits 0x00800000) 0) as [Hsign|]; [|done]. cbn [negb] in Hc.
  destruct (Z.ltb_spec 32 (Z.shiftr bits 24)); [done|].
  rewrite Z.shiftr_div_pow2 in * by lia.
  exists (bits / 2 ^ 24), (bits mod 2 ^ 24). pose proof (Z.div_mod bits (2 ^ 24) ltac:(lia)).
  pose proof (Z.mod_pos_bound bits (2 ^ 24) ltac:(lia)). split; [lia|]. split; [lia|].
  assert (Hb : Z.testbit (bits mod 2 ^ 24) 23 = false).
  { rewrite Z.mod_pow2_bits_low by lia.
    assert (H23 : Z.testbit (Z.land bits 0x00800000) 23 = false) by (by rewrite Hsign).
    rewrite Z.land_spec in H23. by rewrite andb_true_r in H23. }
  assert (bits mod 2 ^ 24 < 2 ^ 23).
  { apply Z.nle_gt. intros Hge. pose proof (Z.bit_log2 (bits mod 2 ^ 24) ltac:(lia)) as Hl.
    rewrite (Z.log2_unique (bits mod 2 ^ 24) 23), Hb in Hl by lia. done. }
  split; [|done]. apply Z.lt_nge. intros Hle. apply Hnz.
  change 0x007fffff with (Z.ones 23). rewrite Z.land_ones by lia.
  replace bits with (bits / 2 ^ 24 * 2 * 2 ^ 23) by lia. by rewrite Z.mod_mul by lia.
Qed.

Lemma unchecked_small size m :
  size < 3 → 0 ≤ m < 2 ^ 23 → be_val (compact_to_target_unchecked (size * 2 ^ 24 + m)) < 2 ^ 24.
Proof.
  intros Hs Hm. destruct (compact_fields size m Hm) as (H1 & H2 & _).
  unfold compact_to_target_unchecked. rewrite H1, H2, !land_byte.
  pose proof (Z.mod_pos_bound m 256 ltac:(lia)).
  pose proof (Z.mod_pos_bound (Z.shiftr m 8) 256 ltac:(lia)).
  set (a := m mod 256) in *. set (b := Z.shiftr m 8 mod 256) in *.
  destruct (Z.leb_spec 3 size); [lia|]. destruct (Z.leb_spec 2 size).
  - assert (size = 2) as -> by lia. change (target_write _ (2 - 2) b) with (replicate 30 0 ++ [a; b]).
    rewrite be_val_app, be_val_zeros, !be_val_cons. unfold zlen. simpl. change (be_val []) with 0. lia.
  - destruct (Z.leb_spec 1 size); [|by rewrite be_val_zeros].
    assert (size = 1) as -> by lia. change (target_write _ (1 - 1) a) with (replicate 31 0 ++ [a]).
    rewrite be_val_app, be_val_zeros, !be_val_cons. unfold zlen. simpl. change (be_val []) with 0. lia.
Qed.

(** A non-zero target that has a compact form has three significant bytes, the
    last below [0x80]. *)
Lemma to_target_shape c t :
  to_target c = Ok t → t ≠ replicate 32 0 →
  ∃ f a b d, (f ≤ 29)%nat ∧ u8_ok a ∧ u8_ok b ∧ 0 ≤ d < 128 ∧ t = tri f a b d.
Proof.
  destruct c as [bits]. unfold to_target. cbn [compact_bits].
  destruct (classify_compact_target bits) eqn:Hc; try done.
  { by intros [= <-]. }
  intros H _. apply rbind_Ok in H as ([] & Hv & [= <-]).
  apply compact_split in Hc as (size & m & -> & Hs & Hm).
  apply validate_target_bounds_Ok in Hv; [|apply unchecked_ok].
  destruct (Z.lt_ge_cases size 3).
  { pose proof (unchecked_small size m ltac:(lia) ltac:(lia)). rewrite MIN_TARGET_val in Hv. lia. }
  rewrite unchecked_tri by lia. eexists _, _, _, _. split; [|split; [|split; [|split; [|reflexivity]]]].
  - lia.
  - apply Z.mod_pos_bound. lia.
  - apply Z.mod_pos_bound. lia.
  - split; [apply Z.div_pos; lia|apply Z.div_lt_upper_bound; lia].
Qed.

Lemma window_lor a b c :
  u8_ok a → u8_ok b → u8_ok c →
  Z.lor (Z.lor a (Z.shiftl b 8)) (Z.shiftl c 16) = a + 256 * b + 65536 * c.
Proof.
  unfold in_width. intros. rewrite (lor_shift_add a b 8) by lia.
  rewrite lor_shift_add by lia. lia.
Qed.

Lemma nth_byte_ok t i : bytes_ok t → u8_ok (nth i t 0).
Proof.
  intros Ht. destruct (nth_in_or_default i t 0) as [H| ->]; [|done].
  unfold bytes_ok in Ht. rewrite Forall_forall in Ht. apply Ht, list_elem_of_In, H.
Qed.

Lemma window_bound t start : bytes_ok t → 0 ≤ window_mantissa t start < 2 ^ 24.
Proof.
  intros Ht. pose proof (nth_byte_ok t start Ht) as A.
  pose proof (nth_byte_ok t (start + 1) Ht) as B.
  pose proof (nth_byte_ok t (start + 2) Ht) as C.
  unfold window_mantissa. unfold in_width in *.
  destruct (32 - start)%nat as [|[|[|]]]; [lia|lia| |].
  - rewrite lor_shift_add by lia. lia.
  - rewrite window_lor by (unfold in_width; lia). lia.
Qed.

Lemma window_full f a b c l :
  (f ≤ 29)%nat → u8_ok a → u8_ok b → u8_ok c →
  window_mantissa (replicate f 0 ++ a :: b :: c :: l) f = a + 256 * b + 65536 * c.
Proof.
  intros Hf Ha Hb Hc. unfold window_mantissa.
  destruct (32 - f)%nat as [|[|[|n]]] eqn:Hn; [lia..|].
  assert (Hnth : ∀ k, nth (f + k) (replicate f 0 ++ a :: b :: c :: l) 0 = nth k (a :: b :: c :: l) 0).
  { intros k. rewrite app_nth2; rewrite length_replicate; [|lia]. f_equal. lia. }
  pose proof (Hnth 0%nat) as H0. rewrite Nat.add_0_r in H0. rewrite H0, !Hnth. cbn [nth].
  by apply window_lor.
Qed.

Lemma first_nonzero_app f x l :
  x ≠ 0 → first_nonzero (replicate f 0 ++ x :: l) = Some f.
Proof.
  intros Hx. induction f as [|f IH]; simpl; [by destruct (Z.eqb_spec x 0)|].
  by rewrite IH.
Qed.

Lemma first_nonzero_Some t f :
  first_nonzero t = Some f → ∃ x l, t = replicate f 0 ++ x :: l ∧ x ≠ 0.
Proof.
  revert f. induction t as [|y t IH]; intros f; simpl; [done|].
  destruct (Z.eqb_spec y 0) as [->|]; [|intros [= <-]; by eexists _, _].
  destruct (first_nonzero t) as [g|]; [|done]. intros [= <-].
  destruct (IH g eq_refl) as (x & l & -> & Hx). by exists x, l.
Qed.

Lemma first_nonzero_None t : first_nonzero t = None → be_val t = 0.
Proof.
  induction t as [|y t IH]; simpl; [done|]. rewrite be_val_cons.
  destruct (Z.eqb_spec y 0) as [->|]; [|done]. destruct (first_nonzero t); [done|]. rewrite IH by done. lia.
Qed.

(** A target at least [MIN_TARGET] has its leading byte at index 26 or before. *)
Lemma leading_bytes t :
  target_ok t → MIN_TARGET ≤ be_val t →
  ∃ f a b c l, t = replicate f 0 ++ a :: b :: c :: l ∧ (f ≤ 26)%nat ∧ length l = (29 - f)%nat ∧
    a ≠ 0 ∧ u8_ok a ∧ u8_ok b ∧ u8_ok c ∧ bytes_ok l ∧ first_nonzero t = Some f ∧
    (f = 26%nat → a = 0xff ∧ b = 0xff).
Proof.
  intros [Hb Hl] Hmin. rewrite MIN_TARGET_val in Hmin.
  destruct (first_nonzero t) as [f|] eqn:Hf; [|apply first_nonzero_None in Hf; lia].
  apply first_nonzero_Some in Hf as (x & rest & -> & Hx).
  rewrite length_app, length_replicate in Hl. simpl in Hl.
  rewrite be_val_app, be_val_zeros in Hmin.
  apply bytes_ok_app in Hb as [_ Hb].
  assert (Hle : (f ≤ 26)%nat).
  { destruct (le_gt_dec f 26) as [|Hgt]; [done|]. exfalso.
    pose proof (be_val_bound _ Hb) as B.
    assert (256 ^ zlen (x :: rest) ≤ 256 ^ 5) by (apply Z.pow_le_mono_r; unfold zlen; simpl; lia).
    lia. }
  destruct rest as [|b [|c l]]; [simpl in Hl; lia..|]. simpl in Hl.
  apply bytes_ok_cons in Hb as [A Hb]. apply bytes_ok_cons in Hb as [B Hb].
  apply bytes_ok_cons in Hb as [C Hb].
  exists f, x, b, c, l. split_and!; [done|done|lia|done..|].
  intros ->. rewrite !be_val_cons in Hmin. pose proof (be_val_bound l Hb) as BL.
  assert (Hzl : zlen l = 3) by (unfold zlen; lia). rewrite !zlen_cons, Hzl in Hmin.
  rewrite Hzl in BL. unfold in_width in *. simpl in Hmin, BL. lia.
Qed.

(** *** The legacy encoder *)

Lemma strip_low_zeros_spec fuel size m :
  0 < m < 2 ^ 23 → size ≤ 32 →
  ∃ s m', strip_low_zeros fuel size m = (s, m') ∧ 0 < m' < 2 ^ 23 ∧ s ≤ 32.
Proof.
  revert size m. induction fuel as [|n IH]; intros size m Hm Hs; [by exists size, m|].
  cbn [strip_low_zeros]. rewrite land_byte.
  destruct (Z.ltb_spec 1 size), (Z.eqb_spec (m mod 256) 0); cbn [andb]; try by exists size, m.
  rewrite Z.shiftr_div_pow2 by lia. change (2 ^ 8) with 256.
  pose proof (Z.div_mod m 256 ltac:(lia)). apply IH; lia.
Qed.

Lemma mantissa_23 m :
  0 ≤ m < 2 ^ 24 → Z.land m 0x00800000 = 0 → m < 2 ^ 23.
Proof.
  intros Hm Hs. apply Z.nle_gt. intros Hge.
  pose proof (Z.bit_log2 m ltac:(lia)) as Hl.
  rewrite (Z.log2_unique m 23) in Hl by lia.
  assert (H23 : Z.testbit (Z.land m 0x00800000) 23 = false) by (by rewrite Hs).
  rewrite Z.land_spec, Hl in H23. done.
Qed.

Lemma compact_lor size m :
  0 ≤ m < 2 ^ 24 → {| compact_bits := Z.lor (Z.shiftl size 24) m |} = compact size m.
Proof.
  intros Hm. unfold compact. f_equal. rewrite Z.lor_comm, lor_shift_add by lia. lia.
Qed.

(** What every search keeps: an encoding of a target in range, not above [t] *)
Definition encodes_below (t : bytes) (best : option (Z * bytes)) : Prop :=
  match best with
  | None => True
  | Some (c, e) => to_target {| compact_bits := c |} = Ok e ∧ target_ok e ∧
                   MIN_TARGET ≤ be_val e ≤ be_val t
  end.

Lemma encodes_below_intro t size m e :
  target_ok t → size ≤ 32 → 0 < m < 2 ^ 23 →
  to_target (compact size m) = Ok e → target_gt e t = false →
  encodes_below t (Some (size * 2 ^ 24 + m, e)).
Proof.
  intros Ht Hs Hm He Hgt. pose proof He as He'. unfold to_target in He'.
  cbn [compact compact_bits] in He'. rewrite classify_compact in He' by lia.
  apply rbind_Ok in He' as ([] & Hv & [= Heq]).
  pose proof (unchecked_ok (size * 2 ^ 24 + m)) as Hok. rewrite Heq in Hv, Hok.
  apply validate_target_bounds_Ok in Hv; [|done].
  rewrite target_gt_val in Hgt by done. unfold encodes_below.
  split; [exact He|]. split; [done|]. lia.
Qed.

Lemma compact_candidate_sound t start : target_ok t → encodes_below t (compact_candidate t start).
Proof.
  intros Ht. pose proof (window_bound t start (proj1 Ht)) as Hw. unfold compact_candidate.
  set (m := window_mantissa t start) in *. clearbody m.
  destruct (Z.eqb_spec m 0); [done|]. cbn [orb].
  destruct (Z.eqb_spec (Z.land m 0x00800000) 0) as [Hs|]; cbn [negb]; [|done].
  pose proof (mantissa_23 m Hw Hs).
  destruct (strip_low_zeros_spec 32 (32 - Z.of_nat start) m) as (s & m' & -> & Hm' & Hs'); [lia..|].
  rewrite compact_lor by lia. destruct (to_target (compact s m')) as [e|e|] eqn:He; [|done..].
  destruct (target_gt e t) eqn:Hgt; [done|].
  replace (Z.lor (Z.shiftl s 24) m') with (s * 2 ^ 24 + m')
    by (pose proof (compact_lor s m' ltac:(lia)) as [= ->]; lia).
  by apply encodes_below_intro.
Qed.

Lemma keep_better_sound t best start :
  target_ok t → encodes_below t best → encodes_below t (keep_better t best start).
Proof.
  intros Ht Hb. pose proof (compact_candidate_sound t start Ht) as Hc. unfold keep_better.
  destruct (compact_candidate t start) as [cand|]; [|done]. by destruct (compact_better best cand).
Qed.

Lemma foldl_inv {A B} (P : A → Prop) (f : A → B → A) l a :
  (∀ a b, P a → P (f a b)) → P a → P (foldl f a l).
Proof. intros Hf. revert a. induction l; simpl; auto. Qed.

Lemma compact_search_sound t r :
  target_ok t → compact_search t = Some r → encodes_below t r.
Proof.
  intros Ht. unfold compact_search. destruct (first_nonzero t); [|done]. simpl. intros [= <-].
  apply foldl_inv; [|done]. intros a b. by apply keep_better_sound.
Qed.

Lemma min_target_search : compact_search MIN_TARGET_BYTES = Some (Some (0x0600ffff, MIN_TARGET_BYTES)).
Proof. vm_compute. reflexivity. Qed.

Lemma min_target_compact : to_target {| compact_bits := 0x0600ffff |} = Ok MIN_TARGET_BYTES.
Proof. vm_compute. reflexivity. Qed.

(** Canonicalizing a target in range succeeds and never makes it easier. *)
Lemma canonicalize_compact_below t :
  target_ok t → MIN_TARGET ≤ be_val t →
  ∃ t', canonicalize_compact_target t = Ok t' ∧ target_ok t' ∧
        MIN_TARGET ≤ be_val t' ≤ be_val t.
Proof.
  intros Ht Hmin. unfold canonicalize_compact_target, target_to_compact. cbn [target_to_compact_at].
  destruct (compact_search t) as [r|] eqn:Hr.
  - pose proof (compact_search_sound t r Ht Hr) as Hs. destruct r as [[c e]|].
    + destruct Hs as (? & ? & ?). by exists e.
    + rewrite min_target_search, min_target_compact. exists MIN_TARGET_BYTES.
      split; [done|]. split; [auto with dom|]. unfold MIN_TARGET in *. lia.
  - unfold compact_search in Hr. destruct (leading_bytes t Ht Hmin) as (f & H).
    destruct H as (?&?&?&?&?&?&?&?&?&?&?&?&Hf&?). by rewrite Hf in Hr.
Qed.

(** *** Round trip of the legacy encoder *)

(** A target with a compact form starts with its three significant bytes. *)
Lemma tri_normal f a b d :
  (f ≤ 29)%nat → u8_ok a → u8_ok b → 0 ≤ d < 128 → MIN_TARGET ≤ be_val (tri f a b d) →
  ∃ f' a' b' d', (f' ≤ 29)%nat ∧ a' ≠ 0 ∧ u8_ok a' ∧ u8_ok b' ∧ 0 ≤ d' < 128 ∧
    tri f a b d = tri f' a' b' d'.
Proof.
  intros Hf Ha Hb Hd Hmin. rewrite MIN_TARGET_val in Hmin.
  destruct (decide (a = 0)) as [->|]; [|by exists f, a, b, d].
  assert (f ≤ 27)%nat as Hf'.
  { destruct (le_gt_dec f 27) as [|Hgt]; [done|]. exfalso. rewrite tri_val in Hmin.
    unfold in_width in *.
    assert (256 ^ Z.of_nat (29 - f) ≤ 256 ^ 1) by (apply Z.pow_le_mono_r; lia).
    assert (0 < 256 ^ Z.of_nat (29 - f)) by lia. nia. }
  destruct (decide (b = 0)) as [->|].
  - destruct (decide (d = 0)) as [->|].
    { rewrite tri_val in Hmin. lia. }
    exists (S (S f)), d, 0, 0. unfold in_width in *. split_and!; [lia..|].
    unfold tri. rewrite !replicate_S_end, <- !app_assoc.
    replace (29 - S (S f))%nat with (27 - f)%nat by lia.
    by replace (29 - f)%nat with (S (S (27 - f))) by lia.
  - exists (S f), b, d, 0. unfold in_width in *. split_and!; [lia..|].
    unfold tri. rewrite !replicate_S_end, <- !app_assoc.
    replace (29 - S f)%nat with (28 - f)%nat by lia.
    by replace (29 - f)%nat with (S (28 - f)) by lia.
Qed.

Lemma tri_mantissa a b d :
  u8_ok a → u8_ok b → 0 ≤ d →
  let m := a + 256 * b + 65536 * d in
  m mod 256 = a ∧ m / 256 mod 256 = b ∧ m / 65536 = d.
Proof.
  unfold in_width. intros Ha Hb Hd. cbv zeta. split_and!.
  - replace (a + 256 * b + 65536 * d) with (a + (b + 256 * d) * 256) by lia.
    rewrite Z.mod_add, Z.mod_small by lia. done.
  - replace (a + 256 * b + 65536 * d) with (a + (b + 256 * d) * 256) by lia.
    rewrite Z.div_add, Z.div_small by lia. rewrite Z.add_0_l.
    replace (b + 256 * d) with (b + d * 256) by lia. rewrite Z.mod_add, Z.mod_small by lia. done.
  - replace (a + 256 * b + 65536 * d) with (a + 256 * b + d * 65536) by lia.
    rewrite Z.div_add, Z.div_small by lia. done.
Qed.

Lemma to_target_tri f a b d :
  (f ≤ 29)%nat → u8_ok a → u8_ok b → 0 ≤ d < 128 → 0 < a + 256 * b + 65536 * d →
  MIN_TARGET ≤ be_val (tri f a b d) < 2 ^ 248 →
  to_target (compact (32 - Z.of_nat f) (a + 256 * b + 65536 * d)) = Ok (tri f a b d).
Proof.
  intros Hf Ha Hb Hd Hm Hv. destruct (tri_mantissa a b d Ha Hb ltac:(lia)) as (M1 & M2 & M3).
  unfold in_width in *.
  pose proof (to_target_compact (32 - Z.of_nat f) (a + 256 * b + 65536 * d)) as H.
  rewrite M1, M2, M3 in H.
  replace (Z.to_nat (32 - (32 - Z.of_nat f))) with f in H by lia. apply H; [lia|lia|done].
Qed.

Lemma tri_candidate f a b d :
  (f ≤ 29)%nat → a ≠ 0 → u8_ok a → u8_ok b → 0 ≤ d < 128 →
  MIN_TARGET ≤ be_val (tri f a b d) < 2 ^ 248 →
  ∃ c, compact_candidate (tri f a b d) f = Some (c, tri f a b d).
Proof.
  intros Hf Hnz Ha Hb Hd Hv. unfold compact_candidate.
  assert (Hw : window_mantissa (tri f a b d) f = a + 256 * b + 65536 * d).
  { apply window_full; [done..|]. unfold in_width. lia. }
  rewrite Hw. destruct (tri_mantissa a b d Ha Hb ltac:(lia)) as (M1 & _ & _).
  pose proof (to_target_tri f a b d Hf Ha Hb Hd) as Htt. unfold in_width in *.
  set (m := a + 256 * b + 65536 * d) in *. assert (0 < m < 2 ^ 23) by lia. clearbody m.
  destruct (Z.eqb_spec m 0); [lia|]. cbn [orb].
  assert (Hsign : Z.land m 0x00800000 = 0).
  { destruct (compact_fields 0 m ltac:(lia)) as (_ & _ & H0). exact H0. }
  rewrite Hsign. cbn [negb Z.eqb]. cbn [strip_low_zeros]. rewrite land_byte, M1.
  destruct (Z.eqb_spec a 0); [done|]. rewrite andb_false_r.
  rewrite compact_lor by lia. rewrite Htt by lia.
  pose proof (tri_ok f a b d Hf Ha Hb ltac:(unfold in_width; lia)) as Ht.
  rewrite target_gt_val, Z.ltb_irrefl by done. by eexists.
Qed.

(** Once the exact target is found, the search only changes its encoding. *)
Definition found (t : bytes) (best : option (Z * bytes)) : Prop :=
  ∃ c, best = Some (c, t) ∧ to_target {| compact_bits := c |} = Ok t.

Lemma keep_better_found t best start :
  target_ok t → found t best → found t (keep_better t best start).
Proof.
  intros Ht (c & -> & Hc). pose proof (compact_candidate_sound t start Ht) as Hs.
  unfold keep_better. destruct (compact_candidate t start) as [[c' e]|]; [|by exists c].
  destruct Hs as (Htt & He & Hle). unfold compact_better. cbn [fst snd].
  rewrite target_gt_val by done.
  destruct (Z.ltb_spec (be_val t) (be_val e)); [lia|]. cbn [orb].
  destruct (bool_decide_reflect (e = t)) as [->|]; cbn [andb]; [|by exists c].
  destruct (c' <? c); [by exists c'|by exists c].
Qed.

Lemma canonicalize_compact_stable c t :
  to_target c = Ok t → t ≠ replicate 32 0 → canonicalize_compact_target t = Ok t.
Proof.
  intros Hc Hnz. destruct (to_target_ok c t Hc) as [Ht [|Hv]]; [done|].
  destruct (to_target_shape c t Hc Hnz) as (f0 & a0 & b0 & d0 & Hf0 & Ha0 & Hb0 & Hd0 & ->).
  destruct (tri_normal f0 a0 b0 d0) as (f & a & b & d & Hf & Hna & Ha & Hb & Hd & He);
    [done..|lia|]. rewrite He in *.
  destruct (tri_candidate f a b d) as [c' Hcand]; [done..|].
  unfold canonicalize_compact_target, target_to_compact. cbn [target_to_compact_at].
  assert (Hfirst : first_nonzero (tri f a b d) = Some f) by by apply first_nonzero_app.
  unfold compact_search. rewrite Hfirst. cbn [mbind option_bind].
  destruct (32 - f)%nat as [|n] eqn:Hn; [lia|]. cbn [seq foldl].
  assert (Hfound : found (tri f a b d) (foldl (keep_better (tri f a b d))
                     (keep_better (tri f a b d) None f) (seq (S f) n))).
  { apply foldl_inv; [intros ??; by apply keep_better_found|].
    pose proof (compact_candidate_sound (tri f a b d) f Ht) as Hs.
    unfold keep_better. rewrite Hcand in *. exists c'. split; [done|]. apply Hs. }
  destruct Hfound as (c'' & -> & Htt). exact Htt.
Qed.

(** *** The rescue encoder *)

Lemma rescue_candidate_sound t start : target_ok t → encodes_below t (rescue_candidate t start).
Proof.
  intros Ht. unfold rescue_candidate. set (w := window_mantissa t start). clearbody w.
  assert (Hm : 0 ≤ Z.land w 0x007fffff < 2 ^ 23).
  { change 0x007fffff with (Z.ones 23). rewrite Z.land_ones by lia. apply Z.mod_pos_bound. lia. }
  set (m := Z.land w 0x007fffff) in *. clearbody m.
  destruct (Z.eqb_spec m 0); [done|].
  rewrite compact_lor by lia.
  destruct (to_target (compact (32 - Z.of_nat start) m)) as [e|e|] eqn:He; [|done..].
  destruct (target_gt e t) eqn:Hgt; [done|].
  replace (Z.lor (Z.shiftl (32 - Z.of_nat start) 24) m) with ((32 - Z.of_nat start) * 2 ^ 24 + m)
    by (pose proof (compact_lor (32 - Z.of_nat start) m ltac:(lia)) as [= ->]; lia).
  apply encodes_below_intro; [done|lia|lia|done..].
Qed.

Lemma keep_greater_sound t best start :
  target_ok t → encodes_below t best → encodes_below t (keep_greater t best start).
Proof.
  intros Ht Hb. pose proof (rescue_candidate_sound t start Ht) as Hc. unfold keep_greater.
  destruct (rescue_candidate t start) as [cand|]; [|done].
  destruct best as [[c e]|]; [|done]. by destruct (target_gt _ e).
Qed.

(** The window at the leading byte keeps everything but the sign bit. *)
Lemma rescue_candidate_lead f a b c l :
  let t := replicate f 0 ++ a :: b :: c :: l in
  target_ok t → be_val t < 2 ^ 248 → (f ≤ 26)%nat → length l = (29 - f)%nat →
  a ≠ 0 → u8_ok a → u8_ok b → u8_ok c → bytes_ok l → (f = 26%nat → a = 0xff ∧ b = 0xff) →
  ∃ n, rescue_candidate t f = Some (n, tri f a b (c mod 128)).
Proof.
  intros t Ht Hmax Hf Hl Hnz Ha Hb Hc Hlb Hmin. unfold rescue_candidate.
  unfold t at 1 2. rewrite window_full by (done || lia). fold t. unfold in_width in Ha, Hb, Hc.
  assert (Hmod : Z.land (a + 256 * b + 65536 * c) 0x007fffff
                 = a + 256 * b + 65536 * (c mod 128)).
  { change 0x007fffff with (Z.ones 23). rewrite Z.land_ones by lia.
    pose proof (Z.div_mod c 128 ltac:(lia)). pose proof (Z.mod_pos_bound c 128 ltac:(lia)).
    replace (a + 256 * b + 65536 * c) with (a + 256 * b + 65536 * (c mod 128) + c / 128 * 2 ^ 23) by lia.
    rewrite Z.mod_add, Z.mod_small by lia. done. }
  rewrite Hmod. pose proof (Z.mod_pos_bound c 128 ltac:(lia)).
  pose proof (Z.mod_le c 128 ltac:(lia) ltac:(lia)). set (d := c mod 128) in *.
  destruct (Z.eqb_spec (a + 256 * b + 65536 * d) 0); [lia|].
  assert (Hlow : be_val (tri f a b d) ≤ be_val t).
  { rewrite tri_val. unfold t. rewrite be_val_app, be_val_zeros, !be_val_cons.
    pose proof (be_val_bound l Hlb). rewrite !zlen_cons. unfold zlen in *. rewrite Hl in *.
    replace (1 + (1 + Z.of_nat (29 - f))) with (2 + Z.of_nat (29 - f)) by lia.
    rewrite !(Z.pow_add_r 256) by lia. change (256 ^ 2) with 65536. change (256 ^ 1) with 256. nia. }
  assert (MIN_TARGET ≤ be_val (tri f a b d)).
  { rewrite MIN_TARGET_val, tri_val. destruct (decide (f = 26%nat)) as [->|].
    - destruct (Hmin eq_refl) as [-> ->]. simpl. lia.
    - assert (256 ^ 4 ≤ 256 ^ Z.of_nat (29 - f)) by (apply Z.pow_le_mono_r; lia). nia. }
  rewrite compact_lor by lia. rewrite to_target_tri by (unfold in_width; lia).
  rewrite target_gt_val; [|apply tri_ok; unfold in_width; lia|done].
  destruct (Z.ltb_spec (be_val t) (be_val (tri f a b d))); [lia|]. by eexists.
Qed.

Lemma canonicalize_rescue_close t :
  target_ok t → MIN_TARGET ≤ be_val t < 2 ^ 248 →
  ∃ t', canonicalize_rescue_compact_target t = Ok t' ∧ target_ok t' ∧
        MIN_TARGET ≤ be_val t' ≤ be_val t ∧ 508 * (be_val t - be_val t') ≤ be_val t.
Proof.
  intros Ht Hv.
  destruct (leading_bytes t Ht ltac:(lia)) as (f & a & b & c & l & Heq & Hf & Hl & Hna & Ha & Hb & Hc & Hlb & Hfirst & Hmin).
  destruct (rescue_candidate_lead f a b c l) as [n Hcand]; [by subst t|by subst t; lia|done..|].
  rewrite <- Heq in Hcand.
  unfold canonicalize_rescue_compact_target, target_to_rescue_compact. rewrite Hfirst.
  rewrite seq_S, Nat.add_0_l, foldl_app. cbn [foldl].
  set (best := foldl (keep_greater t) None (seq 0 f)).
  assert (Hbest : encodes_below t best)
    by (apply foldl_inv; [intros ??; by apply keep_greater_sound|done]).
  pose proof (rescue_candidate_sound t f Ht) as Hsound. rewrite Hcand in Hsound.
  assert (Hclose : 508 * (be_val t - be_val (tri f a b (c mod 128))) ≤ be_val t).
  { subst t. rewrite tri_val, be_val_app, be_val_zeros, !be_val_cons.
    pose proof (be_val_bound l Hlb). pose proof (Z.mod_pos_bound c 128 ltac:(lia)).
    rewrite !zlen_cons. unfold zlen, in_width in *. rewrite Hl in *.
    replace (1 + (1 + Z.of_nat (29 - f))) with (2 + Z.of_nat (29 - f)) by lia.
    rewrite !(Z.pow_add_r 256) by lia. change (256 ^ 2) with 65536. change (256 ^ 1) with 256.
    pose proof (Z.div_mod c 128 ltac:(lia)). assert (c / 128 < 2) by (apply Z.div_lt_upper_bound; lia).
    set (P := 256 ^ Z.of_nat (29 - f)) in *. nia. }
  unfold keep_greater. rewrite Hcand. cbn [snd].
  destruct Hsound as (Htt & Hok & Hle). destruct best as [[c' e']|].
  - destruct Hbest as (Htt' & Hok' & Hle'). rewrite target_gt_val by done.
    destruct (Z.ltb_spec (be_val e') (be_val (tri f a b (c mod 128)))).
    + exists (tri f a b (c mod 128)). done.
    + exists e'. split_and!; [done|done|lia|lia|lia].
  - exists (tri f a b (c mod 128)). done.
Qed.

(** ** The retarget of the public networks *)

(** Anchor, half-life and easiest target in force at a height, as numbers *)
Record AsertRule : Type := {
  rule_anchor : Z;
  rule_time : Z;
  rule_height : Z;
  rule_half_life : Z;
  rule_max : Z;
}.

Definition asert_rule (m h : Z) : AsertRule :=
  if m =? NETWORK_MAGIC_TESTNET then
    {| rule_anchor := 0x7fff2e * 2 ^ 216; rule_time := 1778642633; rule_height := 0;
       rule_half_life := 34560; rule_max := 0xffff7f * 2 ^ 216 |}
  else if h <? 4849 then
    {| rule_anchor := 0xffff * 2 ^ 224; rule_time := 1784071429; rule_height := 0;
       rule_half_life := 34560; rule_max := 0xffff * 2 ^ 224 |}
  else
    {| rule_anchor := 0xffff * 2 ^ 224; rule_time := 1784653190; rule_height := 4848;
       rule_half_life := 1200; rule_max := 0xffff * 2 ^ 232 |}.

(** The uncompacted target of a block: one block per 120 seconds since the anchor
    keeps it constant, every half-life of delay doubles it. *)
Definition rule_target (r : AsertRule) (ts h : Z) : Z :=
  clamp MIN_TARGET (rule_max r)
    (asert_value (rule_anchor r) (ts - rule_time r - (h - rule_height r) * 120)
       (rule_half_life r)).

Definition public_network (m : Z) : Prop :=
  m = NETWORK_MAGIC_MAINNET ∨ m = NETWORK_MAGIC_TESTNET.

Lemma to_target_testnet_max :
  to_target {| compact_bits := MAX_COMPACT_TARGET |} = Ok (tri 2 0xff 0xff 0x7f).
Proof. vm_compute. reflexivity. Qed.
Lemma to_target_mainnet_anchor :
  to_target {| compact_bits := GENESIS_TARGET_COMPACT |} = Ok (tri 2 0xff 0xff 0x00).
Proof. vm_compute. reflexivity. Qed.
Lemma to_target_rescue_max :
  to_target {| compact_bits := MAINNET_ASERT_RESCUE_MAX_COMPACT_TARGET |} = Ok (tri 1 0xff 0xff 0x00).
Proof. vm_compute. reflexivity. Qed.

Lemma rescue_active_false_testnet h : rescue_active NETWORK_MAGIC_TESTNET h = false.
Proof. reflexivity. Qed.
Lemma rescue_active_mainnet h :
  rescue_active NETWORK_MAGIC_MAINNET h = (4849 <=? height_val h).
Proof. reflexivity. Qed.

Lemma genesis_anchor_mainnet :
  genesis_anchor NETWORK_MAGIC_MAINNET
  = Ok {| anchor_timestamp := {| time_val := 1784071429 |};
          anchor_height := {| height_val := 0 |}; anchor_target := tri 2 0xff 0xff 0x00 |}.
Proof. vm_compute. reflexivity. Qed.
Lemma genesis_anchor_testnet :
  genesis_anchor NETWORK_MAGIC_TESTNET
  = Ok {| anchor_timestamp := {| time_val := 1778642633 |};
          anchor_height := {| height_val := 0 |}; anchor_target := tri 2 0x7f 0xff 0x2e |}.
Proof. vm_compute. reflexivity. Qed.

(** The four targets that anchor and bound the retarget *)
Lemma anchor_targets_ok :
  Forall (λ t, target_ok t ∧ MIN_TARGET ≤ be_val t < 2 ^ 248)
    [tri 2 0x7f 0xff 0x2e; tri 2 0xff 0xff 0x7f; tri 2 0xff 0xff 0x00; tri 1 0xff 0xff 0x00].
Proof.
  repeat constructor; try apply tri_ok; try lia; try (unfold in_width; lia);
    vm_compute; discriminate || reflexivity.
Qed.

Lemma anchor_target_ok t :
  t ∈ [tri 2 0x7f 0xff 0x2e; tri 2 0xff 0xff 0x7f; tri 2 0xff 0xff 0x00; tri 1 0xff 0xff 0x00] →
  target_ok t ∧ MIN_TARGET ≤ be_val t < 2 ^ 248.
Proof. intros Ht. pose proof anchor_targets_ok as H. rewrite Forall_forall in H. by apply H. Qed.

Lemma asert_inputs_intro t0 h0 A ts h p mx :
  u64_ok ts → u64_ok t0 → 0 ≤ h0 ≤ h → h < 2 ^ 64 →
  A ∈ [tri 2 0x7f 0xff 0x2e; tri 2 0xff 0xff 0x7f; tri 2 0xff 0xff 0x00; tri 1 0xff 0xff 0x00] →
  mx ∈ [tri 2 0x7f 0xff 0x2e; tri 2 0xff 0xff 0x7f; tri 2 0xff 0xff 0x00; tri 1 0xff 0xff 0x00] →
  target_spacing p = 120 → 0 < half_life p < 2 ^ 64 → max_target p = Ok mx →
  asert_inputs {| anchor_timestamp := {| time_val := t0 |};
                  anchor_height := {| height_val := h0 |}; anchor_target := A |}
    {| time_val := ts |} {| height_val := h |} p mx.
Proof.
  intros Hts Ht0 Hh0 Hh HA Hmx Hsp Hhl Hmax.
  destruct (anchor_target_ok A HA) as [HAok HAv], (anchor_target_ok mx Hmx) as [Hmok Hmv].
  rewrite MIN_TARGET_val in *.
  constructor; cbn [anchor_timestamp anchor_height anchor_target time_val height_val];
    rewrite ?MIN_TARGET_val; unfold in_width in *; try done; lia.
Qed.

(** The code's parameters and anchor are the rule's. *)
Lemma network_asert m ts h :
  public_network m → u64_ok ts → 0 < h < 2 ^ 64 →
  let bh := {| height_val := h |} in
  let r := asert_rule m h in
  ∃ params anchor max,
    pow_params_for_network_at_height m bh = Ok params ∧
    asert_anchor_for_network_height m bh = Ok anchor ∧
    asert_inputs anchor {| time_val := ts |} bh params max ∧
    be_val max = rule_max r ∧
    asert_value (be_val (anchor_target anchor))
      (schedule_error anchor {| time_val := ts |} bh params) (half_life params)
    = asert_value (rule_anchor r) (ts - rule_time r - (h - rule_height r) * 120)
        (rule_half_life r).
Proof.
  intros Hm Hts Hh bh r. unfold pow_params_for_network_at_height, asert_anchor_for_network_height.
  destruct Hm as [-> | ->]; subst r; unfold asert_rule.
  - rewrite rescue_active_mainnet. cbn [height_val bh].
    change (NETWORK_MAGIC_MAINNET =? NETWORK_MAGIC_TESTNET) with false. cbv iota.
    destruct (Z.ltb_spec h 4849), (Z.leb_spec 4849 h); try lia.
    + eexists _, _, (tri 2 0xff 0xff 0x00). split; [reflexivity|].
      split; [exact genesis_anchor_mainnet|]. split; [|split; reflexivity].
      apply asert_inputs_intro; [done|done|lia|lia|repeat constructor..|done|done|].
      exact to_target_mainnet_anchor.
    + eexists _, _, (tri 1 0xff 0xff 0x00). split; [reflexivity|].
      split; [rewrite to_target_mainnet_anchor; reflexivity|]. split; [|split; reflexivity].
      apply asert_inputs_intro; [done|done|by unfold MAINNET_ASERT_RESCUE_ANCHOR_HEIGHT, MAINNET_ASERT_RESCUE_HEIGHT; lia|lia|repeat constructor..|done|done|].
      exact to_target_rescue_max.
  - change (NETWORK_MAGIC_TESTNET =? NETWORK_MAGIC_TESTNET) with true. cbv iota.
    eexists _, _, (tri 2 0xff 0xff 0x7f). split; [reflexivity|].
    split; [exact genesis_anchor_testnet|]. split; [|split; reflexivity].
    apply asert_inputs_intro; [done|done|lia|lia|repeat constructor..|done|done|].
    exact to_target_testnet_max.
Qed.

(** ** Properties *)

(** C11: on mainnet and testnet the target of every block after genesis is always
    computed, never panics, and is the ASERT formula of the network's anchor in
    compact precision: at least the hardest allowed target, never easier than the
    formula, and from the rescue height on within 1/508 of it. *)
Theorem expected_target_rule (m ts h : Z) :
  public_network m → u64_ok ts → 0 < h < 2 ^ 64 →
  ∃ t, compute_expected_target m {| time_val := ts |} {| height_val := h |} = Ok t ∧
       MIN_TARGET ≤ be_val t ≤ rule_target (asert_rule m h) ts h ∧
       (m = NETWORK_MAGIC_MAINNET → MAINNET_ASERT_RESCUE_HEIGHT ≤ h →
        508 * (rule_target (asert_rule m h) ts h - be_val t)
          ≤ rule_target (asert_rule m h) ts h).
Proof.
  intros Hm Hts Hh.
  destruct (network_asert m ts h Hm Hts Hh) as (params & anchor & max & Hp & Ha & Hin & Hmax & Hval).
  destruct (asert_exact _ _ _ _ _ Hin) as (raw & Hraw & Hok & Hrv).
  assert (Hrule : be_val raw = rule_target (asert_rule m h) ts h).
  { unfold rule_target. by rewrite <- Hval, <- Hmax. }
  assert (Hb : MIN_TARGET ≤ be_val raw < 2 ^ 248).
  { rewrite Hrv. destruct (to_target_ok _ _ (ai_max _ _ _ _ _ Hin)) as [_ [Hz|Hv]].
    - pose proof (ai_max_val _ _ _ _ _ Hin) as Hv. rewrite Hz, be_val_zeros, MIN_TARGET_val in Hv. lia.
    - pose proof MIN_TARGET_val. unfold clamp. lia. }
  unfold compute_expected_target. rewrite Hp. cbn [rbind].
  assert (uses_dev_fixed_target m = false) as -> by (by destruct Hm as [-> | ->]).
  rewrite Ha. cbn [rbind]. rewrite bool_decide_eq_false_2 by (intros [= He]; lia).
  rewrite Hraw. cbn [rbind]. rewrite <- Hrule.
  destruct (rescue_active m {| height_val := h |}) eqn:Hres.
  - destruct (canonicalize_rescue_close raw Hok Hb) as (t & Ht & _ & Hle & Hclose). by exists t.
  - destruct (canonicalize_compact_below raw Hok ltac:(lia)) as (t & Ht & _ & Hle).
    exists t. split; [done|]. split; [done|]. intros -> Hge. exfalso.
    rewrite rescue_active_mainnet in Hres. cbn [height_val] in Hres.
    unfold MAINNET_ASERT_RESCUE_HEIGHT in Hge. lia.
Qed.

Lemma expected_target_rule_witness :
  ∃ t, compute_expected_target NETWORK_MAGIC_MAINNET {| time_val := 1784653310 |}
         {| height_val := 4849 |} = Ok t ∧
       MIN_TARGET ≤ be_val t
         ≤ rule_target (asert_rule NETWORK_MAGIC_MAINNET 4849) 1784653310 4849 ∧
       (NETWORK_MAGIC_MAINNET = NETWORK_MAGIC_MAINNET → MAINNET_ASERT_RESCUE_HEIGHT ≤ 4849 →
        508 * (rule_target (asert_rule NETWORK_MAGIC_MAINNET 4849) 1784653310 4849 - be_val t)
          ≤ rule_target (asert_rule NETWORK_MAGIC_MAINNET 4849) 1784653310 4849).
Proof. apply (expected_target_rule NETWORK_MAGIC_MAINNET 1784653310 4849); [by left|done|done]. Defined.

(** ASERT never gets harder by waiting: for the same anchor, parameters and
    height, a later timestamp gives a target at least as easy. *)
Theorem asert_time_monotone anchor ts ts' h p max t t' :
  asert_inputs anchor ts h p max → asert_inputs anchor ts' h p max →
  time_val ts ≤ time_val ts' →
  asert_next_target_with_params anchor ts h p = Ok t →
  asert_next_target_with_params anchor ts' h p = Ok t' →
  be_val t ≤ be_val t'.
Proof.
  intros Hin Hin' Hle Ht Ht'.
  destruct (asert_exact _ _ _ _ _ Hin) as (u & Hu & _ & Hv).
  destruct (asert_exact _ _ _ _ _ Hin') as (u' & Hu' & _ & Hv').
  rewrite Hu in Ht. injection Ht as <-. rewrite Hu' in Ht'. injection Ht' as <-.
  rewrite Hv, Hv'. apply clamp_mono, asert_value_mono.
  - apply (ai_A _ _ _ _ _ Hin).
  - apply (ai_hl _ _ _ _ _ Hin).
  - unfold schedule_error. lia.
Qed.

Definition sample_anchor : AsertAnchor :=
  {| anchor_timestamp := {| time_val := 1784653190 |};
     anchor_height := {| height_val := 4848 |}; anchor_target := tri 2 0xff 0xff 0x00 |}.
Definition sample_params : PowParams :=
  {| target_spacing := TARGET_SPACING; half_life := MAINNET_ASERT_RESCUE_HALF_LIFE;
     genesis_target_compact := GENESIS_TARGET_COMPACT;
     max_compact_target := MAINNET_ASERT_RESCUE_MAX_COMPACT_TARGET |}.

Lemma asert_time_monotone_witness :
  ∃ t t', asert_next_target_with_params sample_anchor {| time_val := 1784653310 |}
            {| height_val := 4849 |} sample_params = Ok t ∧
          asert_next_target_with_params sample_anchor {| time_val := 1784656910 |}
            {| height_val := 4849 |} sample_params = Ok t' ∧ be_val t ≤ be_val t'.
Proof.
  eexists _, _. split; [vm_compute; reflexivity|]. split; [vm_compute; reflexivity|].
  eapply (asert_time_monotone sample_anchor {| time_val := 1784653310 |} {| time_val := 1784656910 |}
            {| height_val := 4849 |} sample_params (tri 1 0xff 0xff 0x00)).
  - apply asert_inputs_intro; [done|done|done|done|repeat constructor..|done|done|].
    exact to_target_rescue_max.
  - apply asert_inputs_intro; [done|done|done|done|repeat constructor..|done|done|].
    exact to_target_rescue_max.
  - discriminate.
  - vm_compute. reflexivity.
  - vm_compute. reflexivity.
Defined.

(** the compact form loses nothing once a target has one: whatever non-zero
    target a header's compact field expands to, encoding it again and expanding
    gives the same target. *)
Theorem compact_roundtrip (c : CompactTarget) (t : bytes) :
  to_target c = Ok t → t ≠ replicate 32 0 →
  to_target {| compact_bits := target_to_compact t |} = Ok t.
Proof. intros Hc Hnz. exact (canonicalize_compact_stable c t Hc Hnz). Qed.

Lemma compact_roundtrip_witness :
  to_target {| compact_bits := target_to_compact (tri 2 0xff 0xff 0x7f) |} = Ok (tri 2 0xff 0xff 0x7f).
Proof.
  apply (compact_roundtrip {| compact_bits := MAX_COMPACT_TARGET |}).
  - exact to_target_testnet_max.
  - discriminate.
Defined.

(** the encoder of the rescue heights keeps any target in range to within
    1/508, and never makes it easier. *)
Theorem rescue_compact_close (t : bytes) :
  target_ok t → MIN_TARGET ≤ be_val t < 2 ^ 248 →
  ∃ t', canonicalize_rescue_compact_target t = Ok t' ∧
        be_val t' ≤ be_val t ∧ 508 * (be_val t - be_val t') ≤ be_val t.
Proof.
  intros Ht Hv. destruct (canonicalize_rescue_close t Ht Hv) as (t' & Hc & _ & Hle & Hcl).
  exists t'. split; [done|]. lia.
Qed.

Lemma rescue_compact_close_witness :
  ∃ t', canonicalize_rescue_compact_target MAX_TARGET_BYTES = Ok t' ∧
        be_val t' ≤ be_val MAX_TARGET_BYTES ∧
        508 * (be_val MAX_TARGET_BYTES - be_val t') ≤ be_val MAX_TARGET_BYTES.
Proof.
  apply (rescue_compact_close MAX_TARGET_BYTES MAX_TARGET_ok).
  rewrite MAX_TARGET_val, MIN_TARGET_val. split; [discriminate|reflexivity].
Defined.

(** The legacy encoder has no such guarantee: it skips every window whose third
    byte has its top bit set.  On testnet, block 1 mined 390 seconds after genesis
    instead of 120 must meet a target nine million times smaller. *)
Theorem legacy_compact_collapse :
  ∃ t t',
    compute_expected_target NETWORK_MAGIC_TESTNET {| time_val := 1778642753 |}
      {| height_val := 1 |} = Ok t ∧
    compute_expected_target NETWORK_MAGIC_TESTNET {| time_val := 1778643023 |}
      {| height_val := 1 |} = Ok t' ∧
    9000000 * be_val t' < be_val t.
Proof.
  eexists _, _. split; [vm_compute; reflexivity|]. split; [vm_compute; reflexivity|].
  vm_compute. reflexivity.
Qed.

(** *** Proof of work *)

Section pow_check_props.
Context `{HB : Blake2b256, HR : RandomXHash}.

(** on mainnet and testnet a proof is accepted only if the header commits to
    the real RandomX digest of its pre-image and that digest, as a number, does not
    exceed the target; no environment setting enables the fast path there. *)
Theorem pow_public_sound env m preimage hash seed target :
  public_network m → target_ok hash → target_ok target →
  validate_pow_for_network env m preimage hash seed target = Ok true →
  randomx_hash seed preimage = Ok hash ∧ be_val hash ≤ be_val target.
Proof.
  intros Hm Hh Ht H. unfold validate_pow_for_network in H.
  apply rbind_Ok in H as (mode & Hmode & H).
  assert (mode = RandomX) as ->.
  { unfold pow_validation_mode_for_network, pow_validation_mode_for_network_inner in Hmode.
    destruct Hm as [-> | ->], (fast_regtest_mining_requested env); simpl in Hmode; congruence. }
  unfold validate_pow_randomx in H. apply rbind_Ok in H as (computed & Hc & H).
  destruct (bool_decide_reflect (computed = hash)) as [->|]; simpl in H; [|done].
  split; [done|]. injection H as H. unfold hash_meets_target in H.
  rewrite target_gt_val in H by done. lia.
Qed.
End pow_check_props.

Lemma pow_public_sound_witness :
  let rx : RandomXHash := λ _ _, Ok (replicate 32 0) in
  randomx_hash (RandomXHash := rx) [] [] = Ok (replicate 32 0) ∧
  be_val (replicate 32 0) ≤ be_val MIN_TARGET_BYTES.
Proof.
  intros rx. apply (pow_public_sound (HB := sample_blake2b) (HR := rx) None NETWORK_MAGIC_MAINNET).
  - by left.
  - apply zero_target_ok.
  - apply MIN_TARGET_ok.
  - vm_compute. reflexivity.
Defined.

(** *** Work *)

Definition work_numerator (m h : Z) : Z :=
  if (m =? NETWORK_MAGIC_MAINNET) && (4849 <=? h) then 0xffff * 2 ^ 232 else 2 ^ 240 - 1.

Lemma work_value m h t :
  target_ok t → 2 ^ 120 ≤ be_val t →
  target_to_difficulty_for_network_height m {| height_val := h |} t
  = Ok (Z.max 1 (work_numerator m h / be_val t)).
Proof.
  intros Ht Hv. unfold target_to_difficulty_for_network_height, work_numerator, rescue_active.
  change (MAINNET_ASERT_RESCUE_HEIGHT) with 4849. cbn [height_val].
  set (b := (m =? NETWORK_MAGIC_MAINNET) && (4849 <=? h)).
  assert (Hn : (if b then to_target {| compact_bits := MAINNET_ASERT_RESCUE_MAX_COMPACT_TARGET |}
                else Ok MAX_TARGET_BYTES)
               = Ok (if b then tri 1 0xff 0xff 0x00 else MAX_TARGET_BYTES)).
  { destruct b; [exact to_target_rescue_max|done]. }
  rewrite Hn. cbn [rbind].
  assert (Hnv : be_val (if b then tri 1 0xff 0xff 0x00 else MAX_TARGET_BYTES)
                = if b then 0xffff * 2 ^ 232 else 2 ^ 240 - 1) by (destruct b; reflexivity).
  rewrite Hnv. destruct (Z.eqb_spec (be_val t) 0); [lia|]. f_equal.
  set (N := if b then 0xffff * 2 ^ 232 else 2 ^ 240 - 1).
  assert (0 < N < 2 ^ 248) by (unfold N; destruct b; lia).
  assert (0 ≤ N / be_val t < 2 ^ 128).
  { split; [apply Z.div_pos; lia|]. apply Z.div_lt_upper_bound; nia. }
  unfold u256_shr, low_u128. rewrite Z.shiftr_div_pow2, (Z.div_small (N / be_val t)) by lia.
  cbn [Z.eqb]. rewrite Z.mod_small by lia. lia.
Qed.

(** every block adds at least one unit of work, and at any height a harder
    target never adds less work than an easier one, for targets from [2^120] up. *)
Theorem work_antitone m h t1 t2 :
  target_ok t1 → target_ok t2 → 2 ^ 120 ≤ be_val t1 ≤ be_val t2 →
  ∃ w1 w2,
    target_to_difficulty_for_network_height m {| height_val := h |} t1 = Ok w1 ∧
    target_to_difficulty_for_network_height m {| height_val := h |} t2 = Ok w2 ∧
    1 ≤ w2 ≤ w1.
Proof.
  intros H1 H2 Hv. rewrite !work_value by (done || lia). eexists _, _.
  split; [done|]. split; [done|]. split; [lia|]. apply Z.max_le_compat_l.
  apply Z.div_le_compat_l; [|lia]. unfold work_numerator. destruct (_ && _); lia.
Qed.

Lemma work_antitone_witness :
  ∃ w1 w2,
    target_to_difficulty_for_network_height NETWORK_MAGIC_MAINNET {| height_val := 5000 |}
      (tri 3 0xff 0 0) = Ok w1 ∧
    target_to_difficulty_for_network_height NETWORK_MAGIC_MAINNET {| height_val := 5000 |}
      (tri 2 0xff 0 0) = Ok w2 ∧ 1 ≤ w2 ≤ w1.
Proof.
  apply (work_antitone NETWORK_MAGIC_MAINNET 5000).
  - by apply tri_ok; [lia|..].
  - by apply tri_ok; [lia|..].
  - vm_compute. split; discriminate.
Defined.

(** Below [2^112] the order is lost: a harder target, still in the accepted range,
    counts as a single unit of work. *)
Theorem work_order_lost :
  ∃ t1 t2, MIN_TARGET ≤ be_val t1 < be_val t2 ∧
    target_to_difficulty t1 = 1 ∧ target_to_difficulty t2 = 2 ^ 128 - 1.
Proof.
  exists (be_bytes 32 (2 ^ 112 - 1)), (be_bytes 32 (2 ^ 112)).
  vm_compute. split; [split; [discriminate|reflexivity]|split; reflexivity].
Qed.

(** the RandomX seed of a block is the genesis hash for the first epoch and
    otherwise a block at least 64 and fewer than 2112 blocks below it, the same for
    the whole epoch. *)
Theorem seed_height_schedule h :
  0 ≤ h →
  (h < RANDOMX_SEED_INTERVAL → randomx_seed_height h = 0) ∧
  (RANDOMX_SEED_INTERVAL ≤ h →
   h - 2112 < randomx_seed_height h ≤ h - RANDOMX_SEED_OFFSET ∧
   randomx_seed_height h
     = randomx_seed_height (h / RANDOMX_SEED_INTERVAL * RANDOMX_SEED_INTERVAL)).
Proof.
  intros Hh. unfold randomx_seed_height, RANDOMX_SEED_INTERVAL, RANDOMX_SEED_OFFSET, saturating_sub.
  split; intros Hlt; [by rewrite Z.div_small by lia|]. rewrite Z.div_mul by lia.
  pose proof (Z.div_mod h 2048 ltac:(lia)). pose proof (Z.mod_pos_bound h 2048 ltac:(lia)).
  assert (1 ≤ h / 2048) by (apply Z.div_le_lower_bound; lia).
  destruct (Z.eqb_spec (h / 2048) 0); lia.
Qed.

Lemma seed_height_schedule_witness :
  (5000 < RANDOMX_SEED_INTERVAL → randomx_seed_height 5000 = 0) ∧
  (RANDOMX_SEED_INTERVAL ≤ 5000 →
   5000 - 2112 < randomx_seed_height 5000 ≤ 5000 - RANDOMX_SEED_OFFSET ∧
   randomx_seed_height 5000
     = randomx_seed_height (5000 / RANDOMX_SEED_INTERVAL * RANDOMX_SEED_INTERVAL)).
Proof. apply (seed_height_schedule 5000). lia. Defined.

(** ** Compact targets on the wire *)

#[export, refine] Instance CompactTarget_codec : Codec CompactTarget := {|
  wf c := u32_ok (compact_bits c);
  wire c := le_bytes 4 (compact_bits c);
|}.
Proof.
  - done.
  - apply (parses_map read_u32 Build_CompactTarget compact_bits);
      [apply read_u32_parses|done|by intros []].
  - intros c _. apply le_bytes_ok.
  - intros c _. by rewrite zlen_le_bytes.
  - done.
Defined.
