(* ===== verification/Curve.v ===== *)
(** * The curve secp256k1 as an interface

    Points, scalars and encodings come from the third-party crates [k256] and
    [secp256k1].  The class [Secp256k1] lists what the code uses of them with
    their documented laws: an abelian group with scalar multiplication modulo the
    group order, and the SEC1 compressed encoding of its non-zero points.  The
    tactic [module_solve] decides equations between linear combinations of points. *)

From Stdlib Require Import ZArith Lia Eqdep_dec Bool.
From stdpp Require Import base list strings.
From S2P Require Import Prelude CoreError Core.

(** The group order, as every crate of the repository spells it *)
Definition SECP256K1_N : bytes :=
  [0xFF; 0xFF; 0xFF; 0xFF; 0xFF; 0xFF; 0xFF; 0xFF;
   0xFF; 0xFF; 0xFF; 0xFF; 0xFF; 0xFF; 0xFF; 0xFE;
   0xBA; 0xAE; 0xDC; 0xE6; 0xAF; 0x48; 0xA0; 0x3B;
   0xBF; 0xD2; 0x5E; 0x8C; 0xD0; 0x36; 0x41; 0x41].
Definition order : Z := be_val SECP256K1_N.

Lemma order_range : 2 ^ 255 < order < 2 ^ 256.
Proof. vm_compute. split; reflexivity. Qed.

(** [k256::Scalar]: integers modulo the order; [from_repr] takes 32 big-endian
    bytes of a reduced value, [to_repr] gives them back. *)
Definition scalar_from_repr (b : bytes) : option Z :=
  if be_val b <? order then Some (be_val b) else None.
Definition scalar_to_repr (s : Z) : bytes := be_bytes 32 s.
Definition scalar_add (a b : Z) : Z := (a + b) mod order.
Definition scalar_sub (a b : Z) : Z := (a - b) mod order.
Definition scalar_mul (a b : Z) : Z := (a * b) mod order.
Definition scalar_neg (a : Z) : Z := (- a) mod order.

Definition compressed_prefix (b : bytes) : Prop := head b = Some 2 ∨ head b = Some 3.

Class Secp256k1 : Type := {
  point : Type;
  point_eq_dec :: EqDecision point;
  (** the group of [ProjectivePoint] *)
  pt_zero : point;
  pt_add : point → point → point;
  pt_opp : point → point;
  pt_mul : Z → point → point;
  pt_add_assoc P Q R : pt_add P (pt_add Q R) = pt_add (pt_add P Q) R;
  pt_add_comm P Q : pt_add P Q = pt_add Q P;
  pt_add_0_l P : pt_add pt_zero P = P;
  pt_add_opp P : pt_add P (pt_opp P) = pt_zero;
  pt_mul_1 P : pt_mul 1 P = P;
  pt_mul_add a b P : pt_mul (a + b) P = pt_add (pt_mul a P) (pt_mul b P);
  pt_mul_mul a b P : pt_mul (a * b) P = pt_mul a (pt_mul b P);
  pt_mul_add_r a P Q : pt_mul a (pt_add P Q) = pt_add (pt_mul a P) (pt_mul a Q);
  pt_mul_order P : pt_mul order P = pt_zero;
  (** the generator of [ProjectivePoint::GENERATOR] *)
  gen_G : point;
  gen_G_order s : 0 < s < order → pt_mul s gen_G ≠ pt_zero;
  (** [EncodedPoint::from_bytes] (accepted or not), [AffinePoint::from_encoded_point]
      and the compressed encoding; the identity encodes to a single byte *)
  sec1_wellformed : bytes → bool;
  sec1_decode : bytes → option point;
  sec1_encode : point → bytes;
  sec1_encode_zero : zlen (sec1_encode pt_zero) = 1;
  sec1_encode_len P : P ≠ pt_zero → zlen (sec1_encode P) = 33;
  sec1_encode_bytes P : bytes_ok (sec1_encode P);
  sec1_encode_prefix P : P ≠ pt_zero → compressed_prefix (sec1_encode P);
  sec1_encode_wellformed P : P ≠ pt_zero → sec1_wellformed (sec1_encode P) = true;
  sec1_decode_encode P : P ≠ pt_zero → sec1_decode (sec1_encode P) = Some P;
  sec1_decode_nonzero b P :
    zlen b = 33 → sec1_wellformed b = true → sec1_decode b = Some P → P ≠ pt_zero;
  sec1_encode_decode b P :
    zlen b = 33 → bytes_ok b → compressed_prefix b → sec1_wellformed b = true →
    sec1_decode b = Some P → sec1_encode P = b;
  (** [secp256k1::PublicKey::from_slice]: the error message, or the point *)
  pubkey_from_slice : bytes → string + point;
  pubkey_from_slice_point b P : zlen b = 33 →
    pubkey_from_slice b = inr P ↔
    compressed_prefix b ∧ sec1_wellformed b = true ∧ sec1_decode b = Some P;
  (** [secp256k1::SecretKey::from_slice]: the error message, if any *)
  seckey_error : bytes → option string;
  seckey_error_None b : zlen b = 32 → bytes_ok b →
    seckey_error b = None ↔ 0 < be_val b < order;
  (** RFC 9380 hashing to the curve, [Secp256k1::hash_from_bytes] *)
  hash_to_curve : bytes → bytes → string + point;
}.

Declare Scope point_scope.
Delimit Scope point_scope with pt.
Infix "+" := pt_add : point_scope.
Notation "- P" := (pt_opp P) : point_scope.
Infix "*" := pt_mul : point_scope.
Notation "P - Q" := (pt_add P (pt_opp Q)) : point_scope.

(** ** Linear combinations *)

Section module.
Context `{HS : Secp256k1}.
Local Open Scope point_scope.

Lemma pt_add_0_r P : P + pt_zero = P.
Proof. by rewrite pt_add_comm, pt_add_0_l. Qed.

Lemma pt_add_cancel P Q R : P + Q = P + R → Q = R.
Proof.
  intros H. apply (f_equal (pt_add (- P))) in H. rewrite !pt_add_assoc in H.
  rewrite (pt_add_comm (- P)), pt_add_opp, !pt_add_0_l in H. done.
Qed.

Lemma pt_mul_0 P : 0 * P = pt_zero.
Proof.
  apply (pt_add_cancel (0 * P)). rewrite <- pt_mul_add, pt_add_0_r. done.
Qed.

Lemma pt_mul_m1 P : (-1) * P = - P.
Proof.
  apply (pt_add_cancel P). rewrite pt_add_opp. rewrite <- (pt_mul_1 P) at 1.
  rewrite <- pt_mul_add. apply pt_mul_0.
Qed.

Lemma pt_mul_zero_r a : a * pt_zero = pt_zero.
Proof.
  rewrite <- (pt_mul_0 pt_zero) at 1. rewrite <- pt_mul_mul, Z.mul_0_r. apply pt_mul_0.
Qed.

Lemma pt_mul_mod a P : (a mod order) * P = a * P.
Proof.
  pose proof order_range. rewrite (Z.div_mod a order) at 2 by lia.
  rewrite pt_mul_add, (Z.mul_comm order), pt_mul_mul, pt_mul_order, pt_mul_zero_r.
  by rewrite pt_add_0_l.
Qed.

(** Expressions over a list of atoms, and their coefficients *)
Inductive mexp : Type :=
| MAtom (i : nat)
| MZero
| MAdd (a b : mexp)
| MOpp (a : mexp)
| MMul (k : Z) (a : mexp).

Fixpoint meval (env : list point) (e : mexp) : point :=
  match e with
  | MAtom i => default pt_zero (env !! i)
  | MZero => pt_zero
  | MAdd a b => meval env a + meval env b
  | MOpp a => - meval env a
  | MMul k a => k * meval env a
  end.

Fixpoint coeff (i : nat) (e : mexp) : Z :=
  match e with
  | MAtom j => if Nat.eqb i j then 1 else 0
  | MZero => 0
  | MAdd a b => coeff i a + coeff i b
  | MOpp a => - coeff i a
  | MMul k a => k * coeff i a
  end.

Fixpoint combine_from (i : nat) (env : list point) (e : mexp) : point :=
  match env with
  | [] => pt_zero
  | P :: env' => coeff i e * P + combine_from (S i) env' e
  end.

Lemma combine_zero i env : combine_from i env MZero = pt_zero.
Proof.
  revert i. induction env as [|P env IH]; intros i; simpl; [done|].
  by rewrite IH, pt_mul_0, pt_add_0_l.
Qed.

Lemma combine_add i env a b :
  combine_from i env (MAdd a b) = combine_from i env a + combine_from i env b.
Proof.
  revert i. induction env as [|P env IH]; intros i; simpl; [by rewrite pt_add_0_l|].
  rewrite IH, pt_mul_add, !pt_add_assoc. f_equal. rewrite <- !pt_add_assoc. f_equal.
  apply pt_add_comm.
Qed.

Lemma combine_mul i env k a : combine_from i env (MMul k a) = k * combine_from i env a.
Proof.
  revert i. induction env as [|P env IH]; intros i; simpl; [by rewrite pt_mul_zero_r|].
  by rewrite IH, pt_mul_add_r, pt_mul_mul.
Qed.

Lemma combine_atom_out j i env : (j < i)%nat → combine_from i env (MAtom j) = pt_zero.
Proof.
  revert i. induction env as [|P env IH]; intros i Hlt; simpl; [done|].
  destruct (Nat.eqb_spec i j); [lia|]. rewrite IH, pt_mul_0, pt_add_0_l by lia. done.
Qed.

Lemma combine_atom j i env :
  combine_from i env (MAtom (i + j)) = default pt_zero (env !! j).
Proof.
  revert i j. induction env as [|P env IH]; intros i j; simpl; [done|].
  destruct (Nat.eqb_spec i (i + j)).
  - assert (j = 0%nat) as -> by lia. simpl.
    by rewrite Nat.add_0_r, pt_mul_1, combine_atom_out, pt_add_0_r by lia.
  - destruct j as [|j]; [lia|]. simpl. rewrite pt_mul_0, pt_add_0_l.
    by rewrite <- (IH (S i) j), Nat.add_succ_comm.
Qed.

Lemma meval_combine env e : meval env e = combine_from 0 env e.
Proof.
  induction e as [i| |a IHa b IHb|a IH|k a IH]; simpl.
  - by rewrite <- (combine_atom i 0 env).
  - by rewrite combine_zero.
  - by rewrite IHa, IHb, combine_add.
  - rewrite IH, <- pt_mul_m1, <- combine_mul. clear. generalize 0%nat as i.
    induction env as [|P env IH]; intros i; simpl; [done|]. by rewrite IH.
  - by rewrite IH, combine_mul.
Qed.

Fixpoint same_coeffs (i n : nat) (a b : mexp) : Prop :=
  match n with
  | O => True
  | S n' => coeff i a = coeff i b ∧ same_coeffs (S i) n' a b
  end.

Lemma module_eq env a b :
  same_coeffs 0 (length env) a b → meval env a = meval env b.
Proof.
  rewrite !meval_combine. generalize 0%nat as i.
  induction env as [|P env IH]; intros i; simpl; [done|].
  intros [-> H]. by rewrite (IH _ H).
Qed.
End module.

(** Reification: the atoms of both sides, then coefficients compared by [lia] *)
Ltac madd_atom P env :=
  lazymatch env with
  | context [P :: _] => env
  | _ => constr:(P :: env)
  end.
Ltac matoms e env :=
  lazymatch e with
  | pt_zero => env
  | pt_add ?a ?b => let env := matoms a env in matoms b env
  | pt_opp ?a => matoms a env
  | pt_mul _ ?a => matoms a env
  | ?P => madd_atom P env
  end.
Ltac mindex P env :=
  lazymatch env with
  | P :: _ => constr:(0%nat)
  | _ :: ?env' => let i := mindex P env' in constr:(S i)
  end.
Ltac mreify e env :=
  lazymatch e with
  | pt_zero => constr:(MZero)
  | pt_add ?a ?b => let a := mreify a env in let b := mreify b env in constr:(MAdd a b)
  | pt_opp ?a => let a := mreify a env in constr:(MOpp a)
  | pt_mul ?k ?a => let a := mreify a env in constr:(MMul k a)
  | ?P => let i := mindex P env in constr:(MAtom i)
  end.
Ltac module_solve :=
  lazymatch goal with
  | |- @eq ?T ?x ?y =>
      let env := matoms x (@nil T) in
      let env := matoms y env in
      let a := mreify x env in
      let b := mreify y env in
      change (meval env a = meval env b);
      apply module_eq; cbn [same_coeffs length coeff Nat.eqb]; repeat split; lia
  end.

(** ** A concrete instance

    The integers modulo the order, with [1] as generator and the value as the
    encoded coordinate: a group of the right order for evaluating examples.  Hashing
    to the curve answers with a fixed element. *)

Definition residue : Type := { z : Z | (z =? z mod order) = true }.
Lemma residue_mod z : (z mod order =? (z mod order) mod order) = true.
Proof.
  apply Z.eqb_eq. symmetry. apply Z.mod_mod. pose proof order_range. lia.
Qed.
Definition to_residue (z : Z) : residue := exist _ (z mod order) (residue_mod z).

Lemma residue_eq (a b : residue) : proj1_sig a = proj1_sig b → a = b.
Proof.
  destruct a as [x Hx], b as [y Hy]. simpl. intros ->. f_equal.
  apply UIP_dec. decide equality.
Qed.

Lemma residue_range (a : residue) : 0 ≤ proj1_sig a < order.
Proof.
  destruct a as [x Hx]. simpl. apply Z.eqb_eq in Hx. pose proof order_range.
  rewrite Hx. apply Z.mod_pos_bound. lia.
Qed.

#[export] Instance residue_eq_dec : EqDecision residue.
Proof.
  intros a b. destruct (decide (proj1_sig a = proj1_sig b)) as [H|H].
  - left. by apply residue_eq.
  - right. by intros ->.
Defined.

Definition residue_encode (a : residue) : bytes :=
  if proj1_sig a =? 0 then [0] else 2 :: be_bytes 32 (proj1_sig a).
Definition residue_wellformed (b : bytes) : bool :=
  match b with
  | t :: x => (zlen x =? 32) && (t =? 2) && (0 <? be_val x) && (be_val x <? order)
              && bool_decide (bytes_ok x)
  | [] => false
  end.
Definition residue_decode (b : bytes) : option residue :=
  match b with
  | t :: x => Some (to_residue (be_val x))
  | [] => None
  end.

Lemma residue_decode_encode (P : residue) :
  P ≠ to_residue 0 →
  residue_wellformed (residue_encode P) = true ∧
  residue_decode (residue_encode P) = Some P.
Proof.
  intros Hne. pose proof (residue_range P) as Hr. pose proof order_range.
  assert (Hnz : proj1_sig P ≠ 0).
  { intros Hz. apply Hne, residue_eq. by rewrite Hz. }
  unfold residue_encode. destruct (Z.eqb_spec (proj1_sig P) 0); [done|].
  assert (Hv : be_val (be_bytes 32 (proj1_sig P)) = proj1_sig P).
  { apply be_val_be_bytes. unfold in_width. change (2 ^ (8 * Z.of_nat 32)) with (2 ^ 256).
    lia. }
  cbn [residue_wellformed residue_decode]. rewrite Hv. split.
  - rewrite zlen_be_bytes, !andb_true_iff, Z.eqb_eq, !Z.ltb_lt, bool_decide_eq_true.
    repeat split; try lia; try done. apply be_bytes_ok.
  - f_equal. apply residue_eq. simpl. apply Z.mod_small. lia.
Qed.

Lemma residue_wellformed_true b :
  residue_wellformed b = true →
  ∃ x, b = 2 :: x ∧ zlen x = 32 ∧ bytes_ok x ∧ 0 < be_val x < order.
Proof.
  destruct b as [|t x]; [done|]. cbn [residue_wellformed].
  rewrite !andb_true_iff, !Z.eqb_eq, !Z.ltb_lt, bool_decide_eq_true.
  intros [[[[? ->] ?] ?] ?]. by exists x.
Qed.

#[refine] Definition sample_curve : Secp256k1 := {|
  point := residue;
  pt_zero := to_residue 0;
  pt_add a b := to_residue (proj1_sig a + proj1_sig b);
  pt_opp a := to_residue (- proj1_sig a);
  pt_mul k a := to_residue (k * proj1_sig a);
  gen_G := to_residue 1;
  sec1_wellformed := residue_wellformed;
  sec1_decode := residue_decode;
  sec1_encode := residue_encode;
  pubkey_from_slice b :=
    if residue_wellformed b then
      match residue_decode b with Some P => inr P | None => inl "malformed public key" end
    else inl "malformed public key";
  seckey_error b :=
    if (0 <? be_val b) && (be_val b <? order) then None
    else Some "malformed or out-of-range secret key";
  hash_to_curve _ _ := inr (to_residue 0x0e2cfc9aba78455ffd390cf5f1d17b9982d0ee29b266bb3ea6217b078f09d550);
|}.
Proof.
  all: try (intros; apply residue_eq; simpl;
            rewrite ?Zplus_mod_idemp_l, ?Zplus_mod_idemp_r, ?Zmult_mod_idemp_r; f_equal; lia).
  - intros P. apply residue_eq. simpl. rewrite Z.mod_small; [done|apply residue_range].
  - intros P. apply residue_eq. simpl. rewrite Z.mul_1_l. apply Z.mod_small, residue_range.
  - intros P. apply residue_eq. simpl. rewrite Z.mul_comm, Z_mod_mult. done.
  - intros s Hs H%(f_equal proj1_sig). simpl in H. rewrite Zmult_mod_idemp_r in H.
    rewrite Z.mul_1_r, Z.mod_small, Z.mod_0_l in H by lia. lia.
  - done.
  - intros P Hne. unfold residue_encode. destruct (Z.eqb_spec (proj1_sig P) 0) as [Hz|].
    + destruct Hne. apply residue_eq. by rewrite Hz.
    + by rewrite zlen_cons, zlen_be_bytes.
  - intros P. unfold residue_encode. destruct (proj1_sig P =? 0).
    + by repeat constructor.
    + constructor; [done|apply be_bytes_ok].
  - intros P Hne. unfold residue_encode. destruct (Z.eqb_spec (proj1_sig P) 0) as [Hz|].
    + destruct Hne. apply residue_eq. by rewrite Hz.
    + by left.
  - intros P Hne. by apply residue_decode_encode.
  - intros P Hne. by apply residue_decode_encode.
  - intros b P _ (x & -> & Hx & Hok & Hv)%residue_wellformed_true [= <-].
    intros H%(f_equal proj1_sig). simpl in H. rewrite Z.mod_small, Z.mod_0_l in H by lia. lia.
  - intros b P _ _ _ (x & -> & Hx & Hok & Hv)%residue_wellformed_true [= <-].
    unfold residue_encode, to_residue. cbn [proj1_sig]. rewrite Z.mod_small by lia.
    destruct (Z.eqb_spec (be_val x) 0); [lia|]. f_equal.
    rewrite <- (be_bytes_be_val x) at 2 by done. f_equal. unfold zlen in Hx. lia.
  - intros b P _. destruct (residue_wellformed b) eqn:Hw; [|naive_solver].
    apply residue_wellformed_true in Hw as (x & -> & _).
    assert (compressed_prefix (2 :: x)) by by left. simpl. naive_solver.
  - intros b _ _. destruct (Z.ltb_spec 0 (be_val b)), (Z.ltb_spec (be_val b) order);
      simpl; naive_solver lia.
Defined.
