(* ===== verification/Keys.v ===== *)
(** * Keys and the second generator ([crates/dom-crypto/src/keys.rs],
    [crates/dom-crypto/src/h_generator.rs])

    Validated scalars, secret keys and public keys, and the derivation of the
    generator [H] of Pedersen commitments. *)

From Stdlib Require Import ZArith Lia.
From stdpp Require Import base list strings.
From S2P Require Import Prelude CoreError Core Curve.

Section keys.
Context `{HC : Secp256k1}.

(** ** Scalars and secret keys *)

Record Scalar : Type := { scalar_le : bytes }.

Definition scalar_from_le_bytes (b : bytes) : Result Scalar :=
  match seckey_error (reverse b) with
  | Some e => Err (Invalid ("invalid scalar: " +:+ e))
  | None => Ok {| scalar_le := b |}
  end.
Definition scalar_from_be_bytes (b : bytes) : Result Scalar :=
  match seckey_error b with
  | Some e => Err (Invalid ("invalid scalar: " +:+ e))
  | None => Ok {| scalar_le := reverse b |}
  end.
Definition scalar_to_be_bytes (s : Scalar) : bytes := reverse (scalar_le s).

Record SecretKey : Type := { sk_bytes : bytes }.

Definition secret_key_from_bytes (b : bytes) : Result SecretKey :=
  if negb (zlen b =? 32) then
    Err (Malformed ("secret key must be 32 bytes, got " +:+ dec (zlen b)))
  else
    match seckey_error b with
    | Some e => Err (Invalid ("invalid secret key: " +:+ e))
    | None => Ok {| sk_bytes := b |}
    end.

Record PublicKey : Type := { pk_point : point }.

(** [expect("already validated")] *)
Definition public_key (sk : SecretKey) : Result PublicKey :=
  match seckey_error (sk_bytes sk) with
  | Some _ => Panic
  | None => Ok {| pk_point := pt_mul (be_val (sk_bytes sk)) gen_G |}
  end.

(** ** Public keys *)

Inductive CompressedKeyFrontier : Type :=
| WrongLength
| WrongPrefix
| Candidate.

Definition classify_compressed_key_frontier (length prefix : Z) : CompressedKeyFrontier :=
  if negb (length =? 33) then WrongLength
  else if negb (prefix =? 2) && negb (prefix =? 3) then WrongPrefix
  else Candidate.

Definition pk_from_compressed_bytes (b : bytes) : Result PublicKey :=
  let prefix := default 0 (head b) in
  match classify_compressed_key_frontier (zlen b) prefix with
  | WrongLength =>
      Err (Malformed ("compressed public key must be 33 bytes, got " +:+ dec (zlen b)))
  | WrongPrefix =>
      Err (Malformed ("compressed public key prefix must be 0x02 or 0x03, got 0x"
                      +:+ hex_byte prefix))
  | Candidate =>
      match pubkey_from_slice b with
      | inl e => Err (Invalid ("invalid public key point: " +:+ e))
      | inr P => Ok {| pk_point := P |}
      end
  end.

Definition to_compressed_bytes (pk : PublicKey) : bytes := sec1_encode (pk_point pk).

(** ** The generator [H] *)

Definition H2C_DST : string := "DOM:h2c:secp256k1:v6.1".
Definition H_COMPRESSED_FINAL : bytes :=
  [0x02; 0x0e; 0x2c; 0xfc; 0x9a; 0xba; 0x78; 0x45; 0x5f; 0xfd; 0x39; 0x0c; 0xf5; 0xf1; 0xd1;
   0x7b; 0x99; 0x82; 0xd0; 0xee; 0x29; 0xb2; 0x66; 0xbb; 0x3e; 0xa6; 0x21; 0x7b; 0x07; 0x8f;
   0x09; 0xd5; 0x50].
Definition G_COMPRESSED : bytes :=
  [0x02; 0x79; 0xBE; 0x66; 0x7E; 0xF9; 0xDC; 0xBB; 0xAC; 0x55; 0xA0; 0x62; 0x95; 0xCE; 0x87;
   0x0B; 0x07; 0x02; 0x9B; 0xFC; 0xDB; 0x2D; 0xCE; 0x28; 0xD9; 0x59; 0xF2; 0x81; 0x5B; 0x16;
   0xF8; 0x17; 0x98].

Definition derive_h_generator : Result bytes :=
  match hash_to_curve [] (str_bytes H2C_DST) with
  | inl e => Err (Internal ("hash_to_curve failed: " +:+ e))
  | inr P =>
      let b := sec1_encode P in
      if negb (zlen b =? 33) then Err (Internal "H encoding error") else Ok b
  end.

Definition newline : string := String (Ascii.ascii_of_nat 10) EmptyString.

Definition verify_h_matches_derivation : Result unit :=
  let? derived := derive_h_generator in
  if bool_decide (derived = H_COMPRESSED_FINAL) then Ok tt
  else Err (Internal ("H_COMPRESSED_FINAL mismatch!" +:+ newline +:+ "hardcoded: "
                      +:+ hex_concat H_COMPRESSED_FINAL +:+ newline +:+ "derived:   "
                      +:+ hex_concat derived +:+ newline +:+ "Update h_generator.rs")).

Definition verify_h_properties (h : bytes) : Result unit :=
  let? _ := map_err (λ e, Invalid ("H not valid curve point: " +:+ display_error e))
              (pk_from_compressed_bytes h) in
  if negb (default 0 (head h) =? 2) && negb (default 0 (head h) =? 3) then
    Err (Invalid "H invalid prefix")
  else if bool_decide (h = G_COMPRESSED) then Err (Invalid "H must not equal G")
  else Ok tt.

Definition h_compressed : Result bytes :=
  let? derived := derive_h_generator in
  if negb (bool_decide (derived = H_COMPRESSED_FINAL)) then
    Err (Internal ("H_COMPRESSED_FINAL mismatch. Run: cargo test -p dom-crypto print_h_generator -- --nocapture"
                   +:+ newline +:+ "Derived: " +:+ hex_concat derived
                   +:+ newline +:+ "Hardcoded: " +:+ hex_concat H_COMPRESSED_FINAL))
  else
    let? _ := verify_h_properties derived in
    Ok derived.
End keys.

(** What the repository pins down about the hash to the curve: the domain string
    derives a point that encodes to the hardcoded constant. *)
Class HGenerator `{HC : Secp256k1} : Type := {
  gen_H : point;
  hash_to_curve_H : hash_to_curve [] (str_bytes H2C_DST) = inr gen_H;
  gen_H_encoding : sec1_encode gen_H = H_COMPRESSED_FINAL;
  (** the curve has prime order, so every point but the identity has that order *)
  gen_H_order s : 0 < s < order → pt_mul s gen_H ≠ pt_zero;
}.

#[refine] Definition sample_h : @HGenerator sample_curve := {|
  gen_H := (to_residue 0x0e2cfc9aba78455ffd390cf5f1d17b9982d0ee29b266bb3ea6217b078f09d550
            : @point sample_curve);
|}.
Proof.
  - reflexivity.
  - vm_compute. reflexivity.
  - intros s Hs H. apply (f_equal proj1_sig) in H. simpl in H.
    rewrite Z.mod_0_l, Zmult_mod_idemp_r, Z.mul_comm in H by lia.
    apply Z.mod_divide in H; [|lia]. apply Z.gauss in H; [|vm_compute; reflexivity].
    apply Z.divide_pos_le in H; lia.
Defined.

(** ** Laws *)

Section key_laws.
Context `{HC : Secp256k1}.

Definition sk_ok (sk : SecretKey) : Prop :=
  zlen (sk_bytes sk) = 32 ∧ bytes_ok (sk_bytes sk) ∧ 0 < be_val (sk_bytes sk) < order.
Definition pk_ok (pk : PublicKey) : Prop := pk_point pk ≠ pt_zero.

Lemma classify_Candidate b :
  classify_compressed_key_frontier (zlen b) (default 0 (head b)) = Candidate ↔
  zlen b = 33 ∧ compressed_prefix b.
Proof.
  unfold classify_compressed_key_frontier, compressed_prefix.
  destruct b as [|t b]; [split; [done|]; by intros [? _]|].
  change (default 0 (head (t :: b))) with t. change (head (t :: b)) with (Some t).
  destruct (Z.eqb_spec (zlen (t :: b)) 33), (Z.eqb_spec t 2), (Z.eqb_spec t 3);
    simpl; naive_solver.
Qed.

Lemma pk_from_compressed_bytes_Ok b pk :
  pk_from_compressed_bytes b = Ok pk ↔
  zlen b = 33 ∧ compressed_prefix b ∧ sec1_wellformed b = true ∧
  sec1_decode b = Some (pk_point pk).
Proof.
  unfold pk_from_compressed_bytes. cbv zeta.
  destruct (classify_compressed_key_frontier _ _) eqn:Hc.
  3: { apply classify_Candidate in Hc as [Hl Hp].
       transitivity (pubkey_from_slice b = inr (pk_point pk)).
       - destruct pk, (pubkey_from_slice b); simpl; naive_solver.
       - rewrite pubkey_from_slice_point by done. naive_solver. }
  all: split; [done|]; intros (Hl & Hp & _);
    by rewrite (proj2 (classify_Candidate b) (conj Hl Hp)) in Hc.
Qed.

Lemma pk_from_compressed_bytes_ok b pk : pk_from_compressed_bytes b = Ok pk → pk_ok pk.
Proof.
  intros (Hl & _ & Hw & Hd)%pk_from_compressed_bytes_Ok. by eapply sec1_decode_nonzero.
Qed.

Lemma pk_roundtrip pk : pk_ok pk → pk_from_compressed_bytes (to_compressed_bytes pk) = Ok pk.
Proof.
  intros Hok. apply pk_from_compressed_bytes_Ok. unfold to_compressed_bytes, pk_ok in *.
  auto using sec1_encode_len, sec1_encode_prefix, sec1_encode_wellformed, sec1_decode_encode.
Qed.

Lemma secret_key_from_bytes_Ok b sk :
  bytes_ok b → secret_key_from_bytes b = Ok sk ↔ sk_bytes sk = b ∧ sk_ok sk.
Proof.
  intros Hb. unfold secret_key_from_bytes, sk_ok. destruct sk as [k]. simpl.
  destruct (Z.eqb_spec (zlen b) 32) as [Hl|Hl]; simpl.
  - pose proof (seckey_error_None b Hl Hb). destruct (seckey_error b); naive_solver.
  - naive_solver.
Qed.

Lemma public_key_Ok sk :
  sk_ok sk → public_key sk = Ok {| pk_point := pt_mul (be_val (sk_bytes sk)) gen_G |}.
Proof.
  intros (Hl & Hb & Hv). unfold public_key.
  by rewrite (proj2 (seckey_error_None _ Hl Hb) Hv).
Qed.

Lemma public_key_ok sk pk : sk_ok sk → public_key sk = Ok pk → pk_ok pk.
Proof.
  intros Hs. rewrite public_key_Ok by done. intros [= <-].
  apply gen_G_order, Hs.
Qed.

Context `{HH : !HGenerator}.

Lemma derive_h_generator_Ok : derive_h_generator = Ok H_COMPRESSED_FINAL.
Proof.
  unfold derive_h_generator. rewrite hash_to_curve_H, gen_H_encoding. done.
Qed.

Lemma gen_H_nonzero : gen_H ≠ pt_zero.
Proof.
  intros H. pose proof sec1_encode_zero as Hz. rewrite <- H, gen_H_encoding in Hz. done.
Qed.

Lemma verify_h_properties_Ok : verify_h_properties H_COMPRESSED_FINAL = Ok tt.
Proof.
  unfold verify_h_properties.
  pose proof (pk_roundtrip {| pk_point := gen_H |} gen_H_nonzero) as Hr.
  unfold to_compressed_bytes in Hr. cbn [pk_point] in Hr. rewrite gen_H_encoding in Hr.
  by rewrite Hr.
Qed.

Lemma h_compressed_Ok : h_compressed = Ok H_COMPRESSED_FINAL.
Proof.
  unfold h_compressed. rewrite derive_h_generator_Ok. cbn [rbind].
  rewrite bool_decide_eq_true_2 by done. cbn [negb]. by rewrite verify_h_properties_Ok.
Qed.
End key_laws.
#[export] Hint Resolve pk_from_compressed_bytes_ok public_key_ok : dom.
