(* ===== verification/Pedersen.v ===== *)
(** * Pedersen commitments ([crates/dom-crypto/src/pedersen.rs])

    Commitments [v*H + r*G] as 33-byte compressed points, blinding factors as
    32-byte scalars, and the transaction and block balance equations.  A copy of an
    encoding into a 33-byte array panics when the encoding is the single byte of the
    identity. *)

From Stdlib Require Import ZArith Lia.
From stdpp Require Import base list strings.
From S2P Require Import Prelude CoreError Core Curve Keys.

Record Commitment : Type := { commit_bytes : bytes }.
Record BlindingFactor : Type := { bf_bytes : bytes }.
Inductive BlindingFactorOrZero : Type :=
| NonZero (bf : BlindingFactor)
| Zero.

#[export] Instance Commitment_eq_dec : EqDecision Commitment.
Proof. solve_decision. Defined.

Section pedersen.
Context `{HC : Secp256k1}.

(** ** Points and scalars *)

(** [bytes.try_into().ok()?] then [Scalar::from_repr] *)
Definition scalar_from_bytes (b : bytes) : option Z :=
  if zlen b =? 32 then scalar_from_repr b else None.

(** [out.copy_from_slice(encoded.as_bytes())] for a 33-byte [out] *)
Definition encode33 (P : point) : Result bytes :=
  let b := sec1_encode P in
  if zlen b =? 33 then Ok b else Panic.

Definition h_point : Result point :=
  match h_compressed with
  | Ok h =>
      if sec1_wellformed h then expect (sec1_decode h) else Panic
  | _ => Panic
  end.

Definition commit_unblinded (value : Z) : Result Commitment :=
  let? h := h_point in
  let? b := encode33 (pt_mul value h) in
  Ok {| commit_bytes := b |}.

Definition commit (value : Z) (blinding : BlindingFactor) : Result Commitment :=
  let? h := h_point in
  let vh := pt_mul value h in
  let? r_scalar := expect (scalar_from_bytes (bf_bytes blinding)) in
  let rg := pt_mul r_scalar gen_G in
  let? b := encode33 (pt_add vh rg) in
  Ok {| commit_bytes := b |}.

Definition from_compressed_bytes (b : bytes) : Result Commitment :=
  if negb (zlen b =? 33) then
    Err (Malformed ("commitment must be 33 bytes, got " +:+ dec (zlen b)))
  else if negb (sec1_wellformed b) then
    Err (Invalid "commitment: invalid SEC1 encoding")
  else
    match sec1_decode b with
    | None => Err (Invalid "commitment: point not on secp256k1 curve")
    | Some _ => Ok {| commit_bytes := b |}
    end.

Definition to_projective (c : Commitment) : Result point :=
  if negb (sec1_wellformed (commit_bytes c)) then
    Err (Invalid "invalid commitment encoding")
  else ok_or (sec1_decode (commit_bytes c)) (Invalid "commitment point not on curve").

Definition commitment_add (self other : Commitment) : Result Commitment :=
  let? a := to_projective self in
  let? b := to_projective other in
  let sum := pt_add a b in
  if bool_decide (sum = pt_zero) then
    Err (Invalid "commitment addition produced the identity point")
  else
    let? e := encode33 sum in
    Ok {| commit_bytes := e |}.

Definition commitment_sub (self other : Commitment) : Result Commitment :=
  let? a := to_projective self in
  let? b := to_projective other in
  let diff := pt_add a (pt_opp b) in
  if bool_decide (diff = pt_zero) then
    Err (Invalid "commitment subtraction produced the identity point")
  else
    let? e := encode33 diff in
    Ok {| commit_bytes := e |}.

Definition commitment_verify (self : Commitment) (value : Z) (blinding : BlindingFactor)
  : Result bool :=
  let? expected := commit value blinding in
  Ok (bool_decide (commit_bytes self = commit_bytes expected)).

(** ** Blinding factors *)

Definition require_nonzero (b : BlindingFactorOrZero) : Result BlindingFactor :=
  match b with
  | NonZero bf => Ok bf
  | Zero => Err (Invalid "expected non-zero blinding factor")
  end.

Definition to_excess_point (b : BlindingFactorOrZero) : Result point :=
  match b with
  | NonZero bf =>
      let? s := expect (scalar_from_bytes (bf_bytes bf)) in
      Ok (pt_mul s gen_G)
  | Zero => Ok pt_zero
  end.

Definition bf_from_bytes (b : bytes) : Result BlindingFactor :=
  match scalar_from_bytes b with
  | None => Err (Invalid "blinding factor out of range")
  | Some s =>
      if s =? 0 then Err (Invalid "blinding factor is zero") else Ok {| bf_bytes := b |}
  end.

Definition bf_add (self other : BlindingFactor) : Result BlindingFactor :=
  let? a := ok_or (scalar_from_bytes (bf_bytes self)) (Invalid "invalid blinding factor a") in
  let? b := ok_or (scalar_from_bytes (bf_bytes other)) (Invalid "invalid blinding factor b") in
  let sum := scalar_add a b in
  if sum =? 0 then Err (Invalid "blinding factor sum is zero")
  else Ok {| bf_bytes := scalar_to_repr sum |}.

Definition bf_sub (self other : BlindingFactor) : Result BlindingFactorOrZero :=
  let? a := ok_or (scalar_from_bytes (bf_bytes self)) (Invalid "invalid blinding factor a") in
  let? b := ok_or (scalar_from_bytes (bf_bytes other)) (Invalid "invalid blinding factor b") in
  let diff := scalar_sub a b in
  if diff =? 0 then Ok Zero
  else Ok (NonZero {| bf_bytes := scalar_to_repr diff |}).

Definition bf_sub_nonzero (self other : BlindingFactor) : Result BlindingFactor :=
  let? d := bf_sub self other in
  match d with
  | NonZero bf => Ok bf
  | Zero => Err (Invalid "blinding factor difference is zero")
  end.

Definition negate_blinding (blinding : bytes) : Result bytes :=
  let? scalar := ok_or (scalar_from_bytes blinding) (Invalid "invalid blinding factor") in
  Ok (scalar_to_repr (scalar_neg scalar)).

Definition derive_complement_commitment (commitment : Commitment) (max_value : Z)
  : Result Commitment :=
  let? max_commit := commit_unblinded max_value in
  commitment_sub max_commit commitment.

(** ** Balance equations *)

Definition sum_projective (commits : list Commitment) : Result point :=
  try_fold (λ acc c, let? p := to_projective c in Ok (pt_add acc p)) pt_zero commits.

Definition add_offset (err : string) (acc : point) (offset : bytes) : Result point :=
  if bool_decide (offset = replicate 32 0) then Ok acc
  else
    let? s := ok_or (scalar_from_bytes offset) (Invalid err) in
    Ok (pt_add acc (pt_mul s gen_G)).

Definition add_value (acc : point) (value : Z) : Result point :=
  if 0 <? value then
    let? h := h_point in
    Ok (pt_add acc (pt_mul value h))
  else Ok acc.

Definition verify_balance_equation (output_commits input_commits kernel_excesses : list Commitment)
    (offset : bytes) (total_fee : Z) : Result bool :=
  let? sum_outputs := sum_projective output_commits in
  let? sum_inputs := sum_projective input_commits in
  let? lhs := add_value (pt_add sum_outputs (pt_opp sum_inputs)) total_fee in
  let? excesses := sum_projective kernel_excesses in
  let? rhs := add_offset "invalid offset scalar" excesses offset in
  Ok (bool_decide (lhs = rhs)).

Definition verify_block_balance_equation (all_outputs all_inputs all_excesses : list Commitment)
    (kernel_offset : bytes) (block_reward : Z) : Result bool :=
  let? sum_outputs := sum_projective all_outputs in
  let? sum_inputs := sum_projective all_inputs in
  let? excesses := sum_projective all_excesses in
  let? rhs := add_offset "invalid block kernel_offset scalar" excesses kernel_offset in
  let? rhs := add_value rhs block_reward in
  Ok (bool_decide (pt_add sum_outputs (pt_opp sum_inputs) = rhs)).
End pedersen.

(** ** Laws *)

Section laws.
Context `{HC : Secp256k1} `{HH : !HGenerator}.
Local Open Scope point_scope.

Definition decodes (c : Commitment) (P : point) : Prop :=
  sec1_wellformed (commit_bytes c) = true ∧ sec1_decode (commit_bytes c) = Some P.

(** [c] commits to the value [v] under the blinding scalar [r]. *)
Definition opens (c : Commitment) (vr : Z * Z) : Prop :=
  decodes c (vr.1 * gen_H + vr.2 * gen_G).

Definition bf_ok (b : BlindingFactor) : Prop :=
  zlen (bf_bytes b) = 32 ∧ bytes_ok (bf_bytes b) ∧ 0 < be_val (bf_bytes b) < order.

Definition offset_ok (b : bytes) : Prop :=
  zlen b = 32 ∧ bytes_ok b ∧ be_val b < order.

Definition commitment_ok (c : Commitment) : Prop :=
  zlen (commit_bytes c) = 33 ∧ bytes_ok (commit_bytes c) ∧ ∃ P, decodes c P.

Definition sum_points : list point → point := foldr pt_add pt_zero.

Lemma decodes_fun c P Q : decodes c P → decodes c Q → P = Q.
Proof. unfold decodes. naive_solver. Qed.

Lemma to_projective_Ok c P : to_projective c = Ok P ↔ decodes c P.
Proof.
  unfold to_projective, decodes. destruct (sec1_wellformed _); simpl; [|naive_solver].
  rewrite ok_or_Ok. naive_solver.
Qed.

Lemma from_compressed_bytes_Ok b c :
  from_compressed_bytes b = Ok c ↔
  c = {| commit_bytes := b |} ∧ zlen b = 33 ∧ ∃ P, decodes c P.
Proof.
  unfold from_compressed_bytes, decodes.
  destruct (Z.eqb_spec (zlen b) 33); cbn [negb];
    [|split; [done|]; by intros (_ & ? & _)].
  split.
  - destruct (sec1_wellformed b) eqn:Hw; [|done]. destruct (sec1_decode b) eqn:Hd; [|done].
    intros [= <-]. eauto.
  - intros (-> & _ & P & Hw & Hd). cbn [commit_bytes] in *. by rewrite Hw, Hd.
Qed.

Lemma encode33_Ok P b : encode33 P = Ok b ↔ P ≠ pt_zero ∧ b = sec1_encode P.
Proof.
  unfold encode33. destruct (decide (P = pt_zero)) as [->|Hne].
  - rewrite sec1_encode_zero. naive_solver.
  - rewrite sec1_encode_len by done. naive_solver.
Qed.

Lemma decodes_encode P : P ≠ pt_zero → decodes {| commit_bytes := sec1_encode P |} P.
Proof. split; simpl; [by apply sec1_encode_wellformed|by apply sec1_decode_encode]. Qed.

Lemma h_point_Ok : h_point = Ok gen_H.
Proof.
  unfold h_point. rewrite h_compressed_Ok, <- gen_H_encoding.
  by rewrite sec1_encode_wellformed, sec1_decode_encode by apply gen_H_nonzero.
Qed.

Lemma scalar_from_bytes_Ok b :
  offset_ok b → scalar_from_bytes b = Some (be_val b).
Proof.
  intros (Hl & Hb & Hv). unfold scalar_from_bytes, scalar_from_repr.
  by rewrite Hl, (proj2 (Z.ltb_lt _ _) Hv).
Qed.

Lemma bf_offset_ok b : bf_ok b → offset_ok (bf_bytes b).
Proof. intros (? & ? & ?). split_and!; lia || done. Qed.

Lemma scalar_repr_ok s : 0 ≤ s < order → offset_ok (scalar_to_repr s) ∧ be_val (scalar_to_repr s) = s.
Proof.
  intros Hs. pose proof order_range. unfold scalar_to_repr, offset_ok.
  rewrite be_val_be_bytes.
  - split_and!; [apply zlen_be_bytes|apply be_bytes_ok|lia|done].
  - unfold in_width. change (2 ^ (8 * Z.of_nat 32))%Z with (2 ^ 256)%Z. lia.
Qed.

Lemma mod_order_range a : (0 ≤ a mod order < order)%Z.
Proof. apply Z.mod_pos_bound. pose proof order_range. lia. Qed.

Lemma commit_Ok v b c :
  bf_ok b → commit v b = Ok c ↔
  v * gen_H + be_val (bf_bytes b) * gen_G ≠ pt_zero ∧
  c = {| commit_bytes := sec1_encode (v * gen_H + be_val (bf_bytes b) * gen_G) |}.
Proof.
  intros Hb. unfold commit. rewrite h_point_Ok, scalar_from_bytes_Ok by by apply bf_offset_ok.
  cbn [rbind expect]. rewrite rbind_Ok. setoid_rewrite encode33_Ok. naive_solver.
Qed.

Lemma commit_opens v b c :
  bf_ok b → commit v b = Ok c → opens c (v, be_val (bf_bytes b)).
Proof. intros Hb [Hne ->]%commit_Ok; [|done]. by apply decodes_encode. Qed.

Lemma commitment_add_Ok a b P Q c :
  decodes a P → decodes b Q →
  commitment_add a b = Ok c ↔ P + Q ≠ pt_zero ∧ c = {| commit_bytes := sec1_encode (P + Q) |}.
Proof.
  intros Ha%to_projective_Ok Hb%to_projective_Ok. unfold commitment_add. rewrite Ha, Hb.
  cbn [rbind]. case_bool_decide; [naive_solver|]. rewrite rbind_Ok.
  setoid_rewrite encode33_Ok. naive_solver.
Qed.

Lemma commitment_sub_Ok a b P Q c :
  decodes a P → decodes b Q →
  commitment_sub a b = Ok c ↔ P - Q ≠ pt_zero ∧ c = {| commit_bytes := sec1_encode (P - Q) |}.
Proof.
  intros Ha%to_projective_Ok Hb%to_projective_Ok. unfold commitment_sub. rewrite Ha, Hb.
  cbn [rbind]. case_bool_decide; [naive_solver|]. rewrite rbind_Ok.
  setoid_rewrite encode33_Ok. naive_solver.
Qed.

Lemma bf_add_Ok a b c :
  bf_ok a → bf_ok b → bf_add a b = Ok c →
  bf_ok c ∧ be_val (bf_bytes c) = ((be_val (bf_bytes a) + be_val (bf_bytes b)) mod order)%Z.
Proof.
  intros Ha%bf_offset_ok Hb%bf_offset_ok. unfold bf_add, scalar_add.
  rewrite !scalar_from_bytes_Ok by done. cbn [rbind ok_or].
  destruct (Z.eqb_spec ((be_val (bf_bytes a) + be_val (bf_bytes b)) mod order) 0); [done|].
  intros [= <-]. pose proof (mod_order_range (be_val (bf_bytes a) + be_val (bf_bytes b))) as Hr.
  destruct (scalar_repr_ok _ Hr) as [(? & ? & ?) He]. unfold bf_ok. simpl. rewrite He.
  split_and!; lia || done.
Qed.

Lemma sum_projective_from acc l Ps :
  Forall2 decodes l Ps →
  try_fold (λ acc c, let? p := to_projective c in Ok (pt_add acc p)) acc l
  = Ok (acc + sum_points Ps).
Proof.
  intros H. revert acc. induction H as [|c P l Ps Hc _ IH]; intros acc; simpl.
  - by rewrite pt_add_0_r.
  - rewrite (proj2 (to_projective_Ok c P) Hc). cbn [rbind]. by rewrite IH, pt_add_assoc.
Qed.

Lemma sum_projective_fold acc l S :
  try_fold (λ acc c, let? p := to_projective c in Ok (pt_add acc p)) acc l = Ok S →
  ∃ Ps, Forall2 decodes l Ps ∧ S = acc + sum_points Ps.
Proof.
  revert acc. induction l as [|c l IH]; simpl; intros acc H; res_inv.
  - exists []. split; [done|]. simpl. by rewrite pt_add_0_r.
  - destruct (IH _ H) as (Ps & Hl & ->). apply to_projective_Ok in Hm0.
    eexists (_ :: Ps). split; [by constructor|]. simpl. by rewrite pt_add_assoc.
Qed.

Lemma sum_projective_Ok l S :
  sum_projective l = Ok S ↔ ∃ Ps, Forall2 decodes l Ps ∧ S = sum_points Ps.
Proof.
  split.
  - intros (Ps & Hl & ->)%sum_projective_fold. exists Ps. split; [done|]. by rewrite pt_add_0_l.
  - intros (Ps & Hl & ->). unfold sum_projective.
    by rewrite (sum_projective_from _ _ _ Hl), pt_add_0_l.
Qed.

Lemma sum_points_app Ps Qs : sum_points (Ps ++ Qs) = sum_points Ps + sum_points Qs.
Proof.
  induction Ps as [|P Ps IH]; simpl; [by rewrite pt_add_0_l|].
  by rewrite IH, pt_add_assoc.
Qed.

Lemma add_value_Ok acc v : (0 ≤ v)%Z → add_value acc v = Ok (acc + v * gen_H).
Proof.
  intros Hv. unfold add_value. destruct (Z.ltb_spec 0 v).
  - by rewrite h_point_Ok.
  - replace v with 0%Z by lia. by rewrite pt_mul_0, pt_add_0_r.
Qed.

Lemma be_val_zeros32 : be_val (replicate 32 0%Z) = 0%Z.
Proof. done. Qed.

Lemma offset_ok_zeros : offset_ok (replicate 32 0%Z).
Proof.
  pose proof order_range. split_and!; [done|by apply bytes_ok_replicate|].
  rewrite be_val_zeros32. lia.
Qed.

Lemma add_offset_Ok err acc off P :
  zlen off = 32 → bytes_ok off →
  add_offset err acc off = Ok P ↔ offset_ok off ∧ P = acc + be_val off * gen_G.
Proof.
  intros Hl Hb. unfold add_offset. case_bool_decide as Hz.
  - rewrite Hz, be_val_zeros32, pt_mul_0, pt_add_0_r. split.
    + intros [= ->]. split; [apply offset_ok_zeros|done].
    + by intros [_ ->].
  - unfold scalar_from_bytes, scalar_from_repr, offset_ok. rewrite Hl. cbn [Z.eqb].
    destruct (Z.ltb_spec (be_val off) order); simpl; naive_solver lia.
Qed.

(** Neither the operations on commitments nor the equations panic. *)
Lemma to_projective_no_panic c : to_projective c ≠ Panic.
Proof. unfold to_projective. no_panic. Qed.

Lemma sum_projective_no_panic l : sum_projective l ≠ Panic.
Proof. unfold sum_projective. no_panic. apply to_projective_no_panic. Qed.

Lemma encode33_no_panic P : P ≠ pt_zero → encode33 P ≠ Panic.
Proof. intros HP. unfold encode33. by rewrite sec1_encode_len. Qed.

Lemma commitment_sub_no_panic a b : commitment_sub a b ≠ Panic.
Proof.
  unfold commitment_sub. no_panic; try apply to_projective_no_panic.
  apply encode33_no_panic. by eapply bool_decide_eq_false_1.
Qed.

Lemma derive_complement_no_panic c max :
  (0 < max < order)%Z → derive_complement_commitment c max ≠ Panic.
Proof.
  intros Hmax. unfold derive_complement_commitment, commit_unblinded. rewrite h_point_Ok.
  cbn [rbind]. no_panic; [by apply encode33_no_panic, gen_H_order|].
  apply commitment_sub_no_panic.
Qed.

Lemma add_offset_no_panic err acc off : add_offset err acc off ≠ Panic.
Proof. unfold add_offset. no_panic. Qed.

Lemma add_value_no_panic acc v : add_value acc v ≠ Panic.
Proof. unfold add_value. rewrite h_point_Ok. no_panic. Qed.

Lemma verify_balance_equation_no_panic outs ins excs off fee :
  verify_balance_equation outs ins excs off fee ≠ Panic.
Proof.
  unfold verify_balance_equation.
  no_panic; auto using sum_projective_no_panic, add_offset_no_panic, add_value_no_panic.
Qed.

Lemma verify_block_balance_equation_no_panic outs ins excs off reward :
  verify_block_balance_equation outs ins excs off reward ≠ Panic.
Proof.
  unfold verify_block_balance_equation.
  no_panic; auto using sum_projective_no_panic, add_offset_no_panic, add_value_no_panic.
Qed.

(** The two equations, on the points the commitments decode to. *)
Lemma verify_balance_equation_Ok outs ins excs off fee b :
  zlen off = 32 → bytes_ok off → (0 ≤ fee)%Z →
  verify_balance_equation outs ins excs off fee = Ok b ↔
  ∃ Os Is Es, Forall2 decodes outs Os ∧ Forall2 decodes ins Is ∧ Forall2 decodes excs Es ∧
    offset_ok off ∧
    b = bool_decide (sum_points Os - sum_points Is + fee * gen_H
                     = sum_points Es + be_val off * gen_G).
Proof.
  intros Hl Hb Hf. unfold verify_balance_equation. split.
  - intros H. res_inv.
    apply sum_projective_Ok in Hm as (Os & HO & ->), Hm0 as (Is & HI & ->),
      Hm2 as (Es & HE & ->).
    rewrite add_value_Ok in Hm1 by done. injection Hm1 as <-.
    apply add_offset_Ok in Hm3 as [Hoff ->]; [|done..]. exists Os, Is, Es. done.
  - intros (Os & Is & Es & HO & HI & HE & Hoff & ->).
    rewrite (proj2 (sum_projective_Ok outs _)) by eauto.
    rewrite (proj2 (sum_projective_Ok ins _)) by eauto. cbn [rbind].
    rewrite add_value_Ok, (proj2 (sum_projective_Ok excs _)) by eauto. cbn [rbind].
    by rewrite (proj2 (add_offset_Ok _ _ off _ Hl Hb)) by eauto.
Qed.

Lemma verify_block_balance_equation_Ok outs ins excs off reward b :
  zlen off = 32 → bytes_ok off → (0 ≤ reward)%Z →
  verify_block_balance_equation outs ins excs off reward = Ok b ↔
  ∃ Os Is Es, Forall2 decodes outs Os ∧ Forall2 decodes ins Is ∧ Forall2 decodes excs Es ∧
    offset_ok off ∧
    b = bool_decide (sum_points Os - sum_points Is
                     = sum_points Es + be_val off * gen_G + reward * gen_H).
Proof.
  intros Hl Hb Hf. unfold verify_block_balance_equation. split.
  - intros H. res_inv.
    apply sum_projective_Ok in Hm as (Os & HO & ->), Hm0 as (Is & HI & ->),
      Hm1 as (Es & HE & ->).
    apply add_offset_Ok in Hm2 as [Hoff ->]; [|done..].
    rewrite add_value_Ok in Hm3 by done. injection Hm3 as <-. exists Os, Is, Es. done.
  - intros (Os & Is & Es & HO & HI & HE & Hoff & ->).
    rewrite (proj2 (sum_projective_Ok outs _)) by eauto.
    rewrite (proj2 (sum_projective_Ok ins _)) by eauto. cbn [rbind].
    rewrite (proj2 (sum_projective_Ok excs _)) by eauto. cbn [rbind].
    rewrite (proj2 (add_offset_Ok _ _ off _ Hl Hb)) by eauto. cbn [rbind].
    by rewrite add_value_Ok.
Qed.

(** Moving terms across the equation *)
Lemma pt_eq_iff_zero P Q : P = Q ↔ P - Q = pt_zero.
Proof.
  split; [intros ->; apply pt_add_opp|]. intros H.
  replace P with (P - Q + Q) by module_solve. by rewrite H, pt_add_0_l.
Qed.

Lemma pt_eq_shift P Q R S : P - Q = R - S → P = Q ↔ R = S.
Proof. intros H. by rewrite (pt_eq_iff_zero P), (pt_eq_iff_zero R), H. Qed.

Lemma gen_G_zero x : x * gen_G = pt_zero ↔ (x mod order = 0)%Z.
Proof.
  rewrite <- (pt_mul_mod x). pose proof (mod_order_range x). split.
  - intros H0. destruct (decide (x mod order = 0)%Z); [done|].
    destruct (gen_G_order (x mod order)); [lia|done].
  - intros ->. apply pt_mul_0.
Qed.

Definition zsum : list Z → Z := foldr Z.add 0%Z.

Lemma opens_sum l vrs :
  Forall2 opens l vrs →
  ∃ Ps, Forall2 decodes l Ps ∧
    sum_points Ps = zsum vrs.*1 * gen_H + zsum vrs.*2 * gen_G.
Proof.
  induction 1 as [|c [v r] l vrs Hc _ (Ps & Hl & IH)].
  - exists []. split; [done|]. simpl. module_solve.
  - eexists (_ :: Ps). split; [by constructor|]. rewrite !fmap_cons.
    cbn [sum_points zsum foldr fst snd]. fold sum_points zsum. rewrite IH. module_solve.
Qed.
(** A kernel excess commits to the value zero. *)
Definition as_excess (k : Z) : Z * Z := (0%Z, k).

(** On commitments with known openings the transaction balance check returns a
    verdict, never an error, and accepts exactly when
    (sum of outputs + fee - sum of inputs)*H is the matching multiple of G; when the
    values balance, it accepts exactly when the blinding factors do modulo the group
    order. *)
Theorem balance_equation_openings outs ins excs off fee vos vis ks :
  Forall2 opens outs vos → Forall2 opens ins vis → Forall2 opens excs (as_excess <$> ks) →
  offset_ok off → (0 ≤ fee)%Z →
  let value := (zsum vos.*1 + fee - zsum vis.*1)%Z in
  let blind := (zsum ks + be_val off + zsum vis.*2 - zsum vos.*2)%Z in
  ∃ b, verify_balance_equation outs ins excs off fee = Ok b ∧
    (b = true ↔ value * gen_H = blind * gen_G) ∧
    (value = 0%Z → b = (blind mod order =? 0)%Z).
Proof.
  intros (Os & HO & EO)%opens_sum (Is & HI & EI)%opens_sum (Es & HE & EE)%opens_sum Hoff Hf
    value blind.
  assert (Hk : zsum (as_excess <$> ks).*1 = 0%Z ∧ zsum (as_excess <$> ks).*2 = zsum ks).
  { clear. induction ks as [|k ks [IH1 IH2]]; [done|]. rewrite !fmap_cons.
    cbn [zsum foldr fst snd as_excess]. fold zsum. by rewrite IH1, IH2. }
  destruct Hk as [Hk1 Hk2]. rewrite Hk1, Hk2 in EE.
  eexists. split; [apply verify_balance_equation_Ok; try apply Hoff; [done|]|].
  { exists Os, Is, Es. split_and!; [done..|]. reflexivity. }
  assert (Hiff : sum_points Os - sum_points Is + fee * gen_H
                 = sum_points Es + be_val off * gen_G ↔ value * gen_H = blind * gen_G).
  { apply pt_eq_shift. rewrite EO, EI, EE. unfold value, blind. module_solve. }
  rewrite bool_decide_eq_true. split; [done|]. intros Hv. rewrite Hv, pt_mul_0 in Hiff.
  apply Bool.eq_iff_eq_true. rewrite bool_decide_eq_true, Hiff, Z.eqb_eq, <- gen_G_zero.
  split; congruence.
Qed.

(** The arguments of one transaction's balance check *)
Record Balance : Type := {
  b_outputs : list Commitment;
  b_inputs : list Commitment;
  b_excesses : list Commitment;
  b_offset : bytes;
  b_fee : Z;
}.
Definition balanced (t : Balance) : Prop :=
  zlen (b_offset t) = 32 ∧ bytes_ok (b_offset t) ∧ (0 ≤ b_fee t)%Z ∧
  verify_balance_equation (b_outputs t) (b_inputs t) (b_excesses t) (b_offset t) (b_fee t)
  = Ok true.

Lemma balanced_sum txs :
  Forall balanced txs →
  ∃ Os Is Es, Forall2 decodes (txs ≫= b_outputs) Os ∧ Forall2 decodes (txs ≫= b_inputs) Is ∧
    Forall2 decodes (txs ≫= b_excesses) Es ∧
    sum_points Os - sum_points Is + zsum (b_fee <$> txs) * gen_H
    = sum_points Es + zsum (be_val ∘ b_offset <$> txs) * gen_G.
Proof.
  induction 1 as [|t txs (Hl & Hb & Hf & Ht) _ (Os & Is & Es & HO & HI & HE & IH)].
  - exists [], [], []. split_and!; try done. cbn. module_solve.
  - apply verify_balance_equation_Ok in Ht as (Os1 & Is1 & Es1 & HO1 & HI1 & HE1 & _ & Ht); [|done..].
    symmetry in Ht. apply bool_decide_eq_true in Ht.
    exists (Os1 ++ Os), (Is1 ++ Is), (Es1 ++ Es). rewrite !bind_cons, !sum_points_app, !fmap_cons.
    split_and!; try by apply Forall2_app. cbn [zsum foldr compose]. fold zsum.
    transitivity (sum_points Os1 - sum_points Is1 + b_fee t * gen_H
                  + (sum_points Os - sum_points Is + zsum (b_fee <$> txs) * gen_H));
      [module_solve|]. rewrite Ht, IH. module_solve.
Qed.

(** When every transaction of a block balances on its own and the header's offset
    is the sum of theirs modulo the group order, the block equation accepts exactly
    when the coinbase output is its excess plus (reward + all fees)*H: summing the
    transactions cancels the fees, and the coinbase can claim neither more nor less. *)
Theorem block_balance_from_transactions txs cb_out cb_exc P Q offset reward :
  Forall balanced txs → decodes cb_out P → decodes cb_exc Q →
  offset_ok offset → be_val offset = (zsum (be_val ∘ b_offset <$> txs) mod order)%Z →
  (0 ≤ reward)%Z →
  verify_block_balance_equation (cb_out :: (txs ≫= b_outputs)) (txs ≫= b_inputs)
    (cb_exc :: (txs ≫= b_excesses)) offset reward
  = Ok (bool_decide (P = Q + (reward + zsum (b_fee <$> txs))%Z * gen_H)).
Proof.
  intros (Os & Is & Es & HO & HI & HE & Hs)%balanced_sum HP HQ Hoff Hsum Hr.
  apply verify_block_balance_equation_Ok; [apply Hoff..|done|].
  exists (P :: Os), Is, (Q :: Es). split_and!; [by constructor|done|by constructor|done|].
  apply bool_decide_ext. rewrite Hsum, pt_mul_mod. cbn [sum_points foldr]. fold sum_points.
  apply pt_eq_shift. apply pt_eq_iff_zero in Hs. rewrite <- (pt_add_0_r (P - _)), <- Hs.
  module_solve.
Qed.

(** Commitments are additively homomorphic: adding the commitments of two values
    gives, byte for byte, the commitment of the sum of the values under the sum of the
    blinding factors, and the sum verifies against that opening. *)
Theorem commitment_homomorphic v1 v2 b1 b2 b c1 c2 c :
  bf_ok b1 → bf_ok b2 → commit v1 b1 = Ok c1 → commit v2 b2 = Ok c2 →
  bf_add b1 b2 = Ok b → commitment_add c1 c2 = Ok c →
  commit (v1 + v2)%Z b = Ok c ∧ commitment_verify c (v1 + v2)%Z b = Ok true.
Proof.
  intros Hb1 Hb2 H1%commit_opens H2%commit_opens Hb Hadd; [|done..].
  apply bf_add_Ok in Hb as [Hok Hval]; [|done..].
  apply (commitment_add_Ok _ _ _ _ _ H1 H2) in Hadd. cbn [fst snd] in Hadd.
  assert (Hc : commit (v1 + v2)%Z b = Ok c).
  { apply commit_Ok; [done|]. rewrite Hval, pt_mul_mod.
    replace ((v1 + v2)%Z * gen_H + _) with
      (v1 * gen_H + be_val (bf_bytes b1) * gen_G + (v2 * gen_H + be_val (bf_bytes b2) * gen_G))
      by module_solve. done. }
  split; [done|]. unfold commitment_verify. rewrite Hc. cbn [rbind].
  by rewrite bool_decide_eq_true_2.
Qed.

(** The complement used by the upper half of a two-sided range proof *)
Lemma derive_complement_Ok c P max c' :
  decodes c P → derive_complement_commitment c max = Ok c' →
  max * gen_H - P ≠ pt_zero ∧ c' = {| commit_bytes := sec1_encode (max * gen_H - P) |}.
Proof.
  intros Hc. unfold derive_complement_commitment, commit_unblinded.
  rewrite h_point_Ok. cbn [rbind].
  destruct (encode33 (max * gen_H)) as [e| |] eqn:He; cbn [rbind]; [|done..].
  apply encode33_Ok in He as [Hne ->].
  apply (commitment_sub_Ok _ _ _ _ _ (decodes_encode _ Hne) Hc).
Qed.

End laws.

(** ** Examples on the concrete group *)

Definition sample_bf (k : Z) : BlindingFactor := {| bf_bytes := be_bytes 32 k |}.
Definition sample_point (v r : Z) : point (Secp256k1 := sample_curve) :=
  to_residue (v * proj1_sig (gen_H (HGenerator := sample_h)) + r).
Definition sample_commitment (v r : Z) : Commitment :=
  {| commit_bytes := residue_encode (sample_point v r) |}.

Lemma sample_decodes v r :
  (proj1_sig (sample_point v r) =? 0) = false →
  decodes (HC := sample_curve) (sample_commitment v r) (sample_point v r).
Proof.
  intros H. apply residue_decode_encode. intros He. rewrite He in H. done.
Qed.

Lemma sample_bf_ok k : (0 <? k) && (k <? order) = true → bf_ok (sample_bf k).
Proof.
  rewrite andb_true_iff, !Z.ltb_lt. intros Hk.
  destruct (scalar_repr_ok k) as [(? & ? & ?) He]; [lia|].
  unfold bf_ok, sample_bf, scalar_to_repr in *. simpl. rewrite He. split_and!; lia || done.
Qed.

Lemma sample_offset_ok k : (0 <=? k) && (k <? order) = true → offset_ok (scalar_to_repr k).
Proof.
  rewrite andb_true_iff, Z.ltb_lt, Z.leb_le. intros Hk. by destruct (scalar_repr_ok k Hk).
Qed.

Lemma commitment_homomorphic_witness :
  commit (HC := sample_curve) 30 (sample_bf 12) = Ok (sample_commitment 30 12).
Proof.
  apply (commitment_homomorphic (HC := sample_curve) (HH := sample_h) 10 20
    (sample_bf 5) (sample_bf 7) (sample_bf 12) (sample_commitment 10 5) (sample_commitment 20 7)).
  1, 2: apply sample_bf_ok; vm_compute; reflexivity.
  all: vm_compute; reflexivity.
Defined.

(** One input of 100 spent into 60 and 30 with a fee of 10, offset 4. *)
Lemma balance_equation_openings_witness :
  verify_balance_equation (HC := sample_curve)
    [sample_commitment 60 21; sample_commitment 30 35] [sample_commitment 100 17]
    [sample_commitment 0 35] (scalar_to_repr 4) 10 = Ok true.
Proof.
  destruct (balance_equation_openings (HC := sample_curve) (HH := sample_h)
    [sample_commitment 60 21; sample_commitment 30 35] [sample_commitment 100 17]
    [sample_commitment 0 35] (scalar_to_repr 4) 10 [(60, 21); (30, 35)] [(100, 17)] [35])
    as (b & Hb & _ & Hv).
  1, 2, 3: repeat constructor; vm_compute; reflexivity.
  - apply sample_offset_ok. vm_compute. reflexivity.
  - lia.
  - rewrite Hb. f_equal. rewrite Hv; vm_compute; reflexivity.
Defined.

Definition sample_balance : Balance := {|
  b_outputs := [sample_commitment 60 21; sample_commitment 30 35];
  b_inputs := [sample_commitment 100 17];
  b_excesses := [sample_commitment 0 35];
  b_offset := scalar_to_repr 4;
  b_fee := 10;
|}.

(** A coinbase claiming the reward of 3300 and the fee of 10 *)
Lemma block_balance_from_transactions_witness :
  verify_block_balance_equation (HC := sample_curve)
    [sample_commitment 3310 9; sample_commitment 60 21; sample_commitment 30 35]
    [sample_commitment 100 17] [sample_commitment 0 9; sample_commitment 0 35]
    (scalar_to_repr 4) 3300 = Ok true.
Proof.
  refine (eq_trans (block_balance_from_transactions (HC := sample_curve) (HH := sample_h)
    [sample_balance] (sample_commitment 3310 9) (sample_commitment 0 9)
    (sample_point 3310 9) (sample_point 0 9)
    (scalar_to_repr 4) 3300 _ _ _ _ _ _) _).
  - constructor; [|constructor]. split_and!; [done|apply be_bytes_ok|done|].
    vm_compute. reflexivity.
  - apply sample_decodes. vm_compute. reflexivity.
  - apply sample_decodes. vm_compute. reflexivity.
  - apply sample_offset_ok. vm_compute. reflexivity.
  - vm_compute. reflexivity.
  - lia.
  - vm_compute. reflexivity.
Defined.
