(* ===== verification/Schnorr.v ===== *)
(** * Schnorr signatures ([crates/dom-crypto/src/schnorr.rs])

    Deterministic single signing, partial signing with aggregation, verification and
    the constant-time scalar checks.  HMAC-SHA256 is a third-party primitive and
    enters as the class [HmacSha256]. *)

From Stdlib Require Import ZArith Lia.
From stdpp Require Import base list strings.
From S2P Require Import Prelude CoreError Core CryptoHash Curve Keys Pedersen.

(** [Hmac<Sha256>]: the key, then the concatenation of the updates; 32 bytes *)
Class HmacSha256 : Type := {
  hmac_sha256 : bytes → bytes → bytes;
  hmac_len k d : zlen (hmac_sha256 k d) = 32;
  hmac_bytes k d : bytes_ok (hmac_sha256 k d);
}.

#[refine] Definition sample_hmac : HmacSha256 :=
  {| hmac_sha256 k d := sample_digest (k ++ d) |}.
Proof.
  - intros. apply zlen_le_bytes.
  - intros. apply le_bytes_ok.
Defined.

(** ** Scalar checks *)

Definition bytes_eq_zero_ct (b : bytes) : bool := bool_decide (b = replicate 32 0).

(** One byte position: the pair is (less so far, equal so far). *)
Definition lt_ct_step (acc : bool * bool) (ab : Z * Z) : bool * bool :=
  let a_lt_b := 0 <? ab.2 - ab.1 in
  let a_gt_b := 0 <? ab.1 - ab.2 in
  (acc.1 || (acc.2 && a_lt_b), acc.2 && negb (a_lt_b || a_gt_b)).
Definition bytes_lt_ct (a b : bytes) : bool :=
  (foldl lt_ct_step (false, true) (zip a b)).1.

Definition is_scalar_valid (b : bytes) : bool :=
  negb (bytes_eq_zero_ct b) && bytes_lt_ct b SECP256K1_N.
Definition is_scalar_canonical_allow_zero (b : bytes) : bool := bytes_lt_ct b SECP256K1_N.

(** ** Signatures *)

Record SchnorrSignature : Type := { r_compressed : bytes; sig_s : bytes }.
Record PartialSig : Type := { partial_s : bytes }.

Definition partial_signature_length_is_canonical (length : Z) : bool := length =? 32.
Definition signature_length_is_canonical (length : Z) : bool := length =? 65.

Definition partial_from_bytes (b : bytes) : Result PartialSig :=
  if negb (partial_signature_length_is_canonical (zlen b)) then
    Err (Malformed ("partial signature must be 32 bytes, got " +:+ dec (zlen b)))
  else if negb (is_scalar_valid b) then
    Err (Invalid "partial signature scalar is zero or >= n")
  else Ok {| partial_s := b |}.
Definition partial_to_bytes (p : PartialSig) : bytes := partial_s p.

Section schnorr.
Context `{HB : Blake2b256} `{HM : HmacSha256} `{HC : Secp256k1}.

Definition signature_from_bytes (b : bytes) : Result SchnorrSignature :=
  if negb (signature_length_is_canonical (zlen b)) then
    Err (Malformed ("signature must be 65 bytes, got " +:+ dec (zlen b)))
  else
    let r := take 33 b in
    let s := drop 33 b in
    let? _ := pk_from_compressed_bytes r in
    if negb (is_scalar_valid s) then
      Err (Invalid "signature scalar s is zero or >= n")
    else Ok {| r_compressed := r; sig_s := s |}.
Definition signature_to_bytes (s : SchnorrSignature) : bytes := r_compressed s ++ sig_s s.

Definition schnorr_challenge (r : bytes) (public_key : PublicKey) (chain_id message : bytes)
  : Hash256 :=
  blake2b_256_tagged TAG_KERNEL_SIG
    (r ++ to_compressed_bytes public_key ++ chain_id ++ message).

(** [Scalar::from_repr] of a 32-byte array *)
Definition scalar_from_array (b : bytes) : option Z := scalar_from_repr b.

Definition projective_to_compressed (p : point) : Result bytes := encode33 p.

Definition compressed_to_projective (b : bytes) : Result point :=
  if negb (sec1_wellformed b) then Err (Invalid "invalid compressed point")
  else ok_or (sec1_decode b) (Invalid "point not on curve").

Definition scalar_add_mul (a c b : bytes) : Result bytes :=
  let? a_s := ok_or (scalar_from_array a) (Invalid "a not valid scalar") in
  let? b_s := ok_or (scalar_from_array b) (Invalid "b not valid scalar") in
  let? c_s := ok_or (scalar_from_array c) (Invalid "c not valid scalar") in
  Ok (scalar_to_repr (scalar_add a_s (scalar_mul c_s b_s))).

(** [for _ in 0..100 { ... }]: the fuel is the source's bound *)
Fixpoint nonce_loop (fuel : nat) (k v : bytes) : Result bytes :=
  match fuel with
  | O => Err (Internal "RFC6979 failed after 100 attempts")
  | S fuel' =>
      let v := hmac_sha256 k v in
      if is_scalar_valid v then Ok v
      else
        let k := hmac_sha256 k (v ++ [0]) in
        let v := hmac_sha256 k v in
        nonce_loop fuel' k v
  end.

Definition rfc6979_nonce (sk msg : bytes) : Result bytes :=
  let v := replicate 32 1 in
  let k := replicate 32 0 in
  let k := hmac_sha256 k (v ++ [0] ++ sk ++ msg) in
  let v := hmac_sha256 k v in
  let k := hmac_sha256 k (v ++ [1] ++ sk ++ msg) in
  let v := hmac_sha256 k v in
  nonce_loop 100 k v.

Definition schnorr_sign (sk : SecretKey) (message chain_id : bytes)
  : Result SchnorrSignature :=
  let sk_b := sk_bytes sk in
  let? pk := public_key sk in
  let msg_hash := blake2b_256 (message ++ chain_id) in
  let? k_bytes := rfc6979_nonce sk_b (hash_bytes msg_hash) in
  let? k_scalar := ok_or (scalar_from_array k_bytes)
                     (Internal "RFC6979 produced invalid nonce") in
  let r_point := pt_mul k_scalar gen_G in
  let? r := projective_to_compressed r_point in
  let challenge_hash := schnorr_challenge r pk chain_id message in
  let? s_bytes := scalar_add_mul k_bytes (hash_bytes challenge_hash) sk_b in
  Ok {| r_compressed := r; sig_s := s_bytes |}.

Definition schnorr_add_public_keys (public_keys : list PublicKey) : Result PublicKey :=
  match public_keys with
  | [] => Err (Malformed "cannot aggregate an empty public key set")
  | _ =>
      let? sum := try_fold (λ acc pk,
                    let? p := compressed_to_projective (to_compressed_bytes pk) in
                    Ok (pt_add acc p)) pt_zero public_keys in
      if bool_decide (sum = pt_zero) then
        Err (Invalid "aggregated public key is the point at infinity")
      else
        let? compressed := projective_to_compressed sum in
        pk_from_compressed_bytes compressed
  end.

Definition schnorr_partial_sign (sk_i nonce_k_i : SecretKey) (agg_r agg_p : PublicKey)
    (chain_id message : bytes) : Result PartialSig :=
  let challenge_hash :=
    schnorr_challenge (to_compressed_bytes agg_r) agg_p chain_id message in
  let? s := scalar_add_mul (sk_bytes nonce_k_i) (hash_bytes challenge_hash) (sk_bytes sk_i) in
  partial_from_bytes s.

Definition schnorr_aggregate_sigs (partials : list PartialSig) (agg_r : PublicKey)
  : Result SchnorrSignature :=
  match partials with
  | [] => Err (Malformed "cannot aggregate an empty partial signature set")
  | _ =>
      let? sum := try_fold (λ acc partial,
                    let? scalar := ok_or (scalar_from_array (partial_s partial))
                                     (Invalid "partial signature scalar invalid") in
                    Ok (scalar_add acc scalar)) 0 partials in
      let s := scalar_to_repr sum in
      if negb (is_scalar_valid s) then
        Err (Invalid "aggregated signature scalar is zero or >= n")
      else Ok {| r_compressed := to_compressed_bytes agg_r; sig_s := s |}
  end.

Definition schnorr_verify (sig : SchnorrSignature) (public_key : PublicKey)
    (chain_id message : bytes) : Result bool :=
  let c_hash := schnorr_challenge (r_compressed sig) public_key chain_id message in
  let? s_scalar := ok_or (scalar_from_array (sig_s sig)) (Invalid "s is not a valid scalar") in
  let sg := pt_mul s_scalar gen_G in
  let? p_point := compressed_to_projective (to_compressed_bytes public_key) in
  let? c_scalar := ok_or (scalar_from_array (hash_bytes c_hash))
                     (Invalid "challenge scalar invalid") in
  let cp := pt_mul c_scalar p_point in
  let? r_point := compressed_to_projective (r_compressed sig) in
  Ok (bool_decide (sg = pt_add r_point cp)).
End schnorr.

(** ** The constant-time comparison *)

Lemma lt_ct_decided lt l : foldl lt_ct_step (lt, false) l = (lt, false).
Proof.
  revert lt. induction l as [|p l IH]; intros lt; [done|]. simpl.
  unfold lt_ct_step at 2. simpl. by rewrite orb_false_r, IH.
Qed.

Lemma bytes_lt_ct_val a b :
  length a = length b → bytes_ok a → bytes_ok b →
  bytes_lt_ct a b = (be_val a <? be_val b).
Proof.
  unfold bytes_lt_ct. intros Hl Ha. revert b Hl.
  induction Ha as [|x a Hx Ha IH]; intros [|y b] Hl Hb; try done; [].
  apply bytes_ok_cons in Hb as [Hy Hb]. injection Hl as Hl.
  cbn [zip zip_with foldl]. unfold lt_ct_step at 2. cbn [fst snd]. rewrite !be_val_cons.
  pose proof (be_val_bound a Ha). pose proof (be_val_bound b Hb).
  assert (Hz : zlen a = zlen b) by (unfold zlen; by rewrite Hl). rewrite Hz in *.
  unfold in_width in *.
  destruct (Z.lt_trichotomy x y) as [Hlt|[->|Hgt]].
  - destruct (Z.ltb_spec 0 (y - x)); [|lia]. simpl. rewrite lt_ct_decided. simpl.
    symmetry. apply Z.ltb_lt. nia.
  - rewrite Z.sub_diag. cbn [Z.ltb Z.compare andb orb negb]. rewrite (IH b Hl Hb).
    destruct (Z.ltb_spec (be_val a) (be_val b)); symmetry;
      [apply Z.ltb_lt|apply Z.ltb_ge]; lia.
  - destruct (Z.ltb_spec 0 (y - x)); [lia|]. destruct (Z.ltb_spec 0 (x - y)); [|lia].
    simpl. rewrite lt_ct_decided. simpl. symmetry. apply Z.ltb_ge. nia.
Qed.

Lemma be_val_zero b : zlen b = 32 → bytes_ok b → be_val b = 0 → b = replicate 32 0.
Proof.
  intros Hl Hb Hv. rewrite <- (be_bytes_be_val b Hb), Hv.
  replace (length b) with 32%nat by (unfold zlen in Hl; lia). done.
Qed.

Lemma SECP256K1_N_ok : bytes_ok SECP256K1_N.
Proof. refine (bool_decide_unpack _ _). vm_compute. exact I. Qed.

Lemma is_scalar_valid_val b :
  zlen b = 32 → bytes_ok b → is_scalar_valid b = true ↔ 0 < be_val b < order.
Proof.
  intros Hl Hb. unfold is_scalar_valid, bytes_eq_zero_ct.
  rewrite andb_true_iff, negb_true_iff, bool_decide_eq_false, bytes_lt_ct_val, Z.ltb_lt;
    [|unfold zlen in Hl; simpl; lia|done|apply SECP256K1_N_ok].
  pose proof (be_val_bound b Hb). fold order. split.
  - intros [Hne Hlt]. split; [|done]. destruct (decide (be_val b = 0)) as [Hz|]; [|lia].
    destruct Hne. by apply be_val_zero.
  - intros [Hp Hlt]. split; [|done]. intros ->. by rewrite be_val_zeros32 in Hp.
Qed.

(** The branch-free scalar checks decide the mathematical ranges: a 32-byte string
    is a valid scalar exactly when it denotes a number strictly between zero and the
    group order, and a canonical one exactly when it denotes a number below the order. *)
Theorem scalar_checks_exact b :
  zlen b = 32 → bytes_ok b →
  (is_scalar_valid b = true ↔ 0 < be_val b < order) ∧
  (is_scalar_canonical_allow_zero b = true ↔ 0 ≤ be_val b < order).
Proof.
  intros Hl Hb. split; [by apply is_scalar_valid_val|].
  unfold is_scalar_canonical_allow_zero.
  rewrite bytes_lt_ct_val, Z.ltb_lt;
    [|unfold zlen in Hl; simpl; lia|done|apply SECP256K1_N_ok].
  pose proof (be_val_bound b Hb). fold order. lia.
Qed.

Lemma scalar_checks_exact_witness :
  (is_scalar_valid (scalar_to_repr 1) = true ↔ 0 < 1 < order) ∧
  (is_scalar_canonical_allow_zero (scalar_to_repr 1) = true ↔ 0 ≤ 1 < order).
Proof. apply (scalar_checks_exact (scalar_to_repr 1)); [done|apply be_bytes_ok]. Defined.

(** ** Signing and verification *)

Section laws.
Context `{HB : Blake2b256} `{HM : HmacSha256} `{HC : Secp256k1}.
Local Open Scope point_scope.

Definition challenge_scalar (r : bytes) (pk : PublicKey) (chain_id message : bytes) : Z :=
  be_val (hash_bytes (schnorr_challenge r pk chain_id message)).

Lemma scalar_from_array_Some b s :
  scalar_from_array b = Some s ↔ s = be_val b ∧ (be_val b < order)%Z.
Proof.
  unfold scalar_from_array, scalar_from_repr.
  destruct (Z.ltb_spec (be_val b) order); naive_solver lia.
Qed.

Lemma scalar_add_mul_Ok a c b s :
  bytes_ok a → bytes_ok b → bytes_ok c →
  scalar_add_mul a c b = Ok s →
  offset_ok s ∧ (be_val c < order)%Z ∧
  be_val s = ((be_val a + be_val c * be_val b) mod order)%Z.
Proof.
  intros Ha Hb Hc. unfold scalar_add_mul. intros H. res_inv.
  apply scalar_from_array_Some in Hm as [-> ?], Hm0 as [-> ?], Hm1 as [-> ?].
  unfold scalar_add, scalar_mul. rewrite Zplus_mod_idemp_r.
  destruct (scalar_repr_ok _ (mod_order_range (be_val a + be_val c * be_val b))) as [? ->].
  done.
Qed.

Lemma nonce_loop_ok fuel k v b : nonce_loop fuel k v = Ok b → is_scalar_valid b = true ∧ zlen b = 32 ∧ bytes_ok b.
Proof.
  revert k v. induction fuel as [|fuel IH]; intros k v; [done|]. cbn [nonce_loop].
  destruct (is_scalar_valid (hmac_sha256 k v)) eqn:Hv; [|apply IH].
  intros [= <-]. auto using hmac_len, hmac_bytes.
Qed.

Lemma nonce_loop_no_panic fuel k v : nonce_loop fuel k v ≠ Panic.
Proof.
  revert k v. induction fuel as [|fuel IH]; intros k v; cbn [nonce_loop]; no_panic.
Qed.

Lemma rfc6979_nonce_ok sk m b :
  rfc6979_nonce sk m = Ok b → is_scalar_valid b = true ∧ zlen b = 32 ∧ bytes_ok b.
Proof. apply nonce_loop_ok. Qed.

Lemma rfc6979_nonce_no_panic sk m : rfc6979_nonce sk m ≠ Panic.
Proof. apply nonce_loop_no_panic. Qed.

Lemma compressed_to_projective_encode P :
  P ≠ pt_zero → compressed_to_projective (sec1_encode P) = Ok P.
Proof.
  intros Hp. unfold compressed_to_projective.
  by rewrite sec1_encode_wellformed, sec1_decode_encode by done.
Qed.

Lemma compressed_to_projective_pk pk :
  pk_ok pk → compressed_to_projective (to_compressed_bytes pk) = Ok (pk_point pk).
Proof.
  intros Hp. by apply compressed_to_projective_encode.
Qed.

(** The verification equation *)
Lemma schnorr_verify_Ok R s pk chain_id message :
  pk_ok pk → R ≠ pt_zero → offset_ok s →
  (challenge_scalar (sec1_encode R) pk chain_id message < order)%Z →
  schnorr_verify {| r_compressed := sec1_encode R; sig_s := s |} pk chain_id message
  = Ok (bool_decide (be_val s * gen_G
      = R + challenge_scalar (sec1_encode R) pk chain_id message * pk_point pk)).
Proof.
  intros Hp HR Hs Hc. unfold schnorr_verify. cbn [r_compressed sig_s].
  rewrite (proj2 (scalar_from_array_Some s _) (conj eq_refl (proj2 (proj2 Hs)))). cbn [rbind ok_or].
  rewrite compressed_to_projective_pk by done. cbn [rbind].
  rewrite (proj2 (scalar_from_array_Some (hash_bytes _) _) (conj eq_refl Hc)). cbn [rbind ok_or].
  by rewrite (compressed_to_projective_encode R HR).
Qed.
(** A signature made with a secret key verifies under its public key, on the same
    chain and message; signing itself never panics on a validated key. *)
Theorem schnorr_sign_verifies sk pk message chain_id :
  sk_ok sk → public_key sk = Ok pk →
  schnorr_sign sk message chain_id ≠ Panic ∧
  ∀ sig, schnorr_sign sk message chain_id = Ok sig →
    schnorr_verify sig pk chain_id message = Ok true.
Proof.
  intros Hsk Hpk. pose proof (public_key_ok _ _ Hsk Hpk) as Hp.
  rewrite public_key_Ok in Hpk by done. injection Hpk as Hpk.
  unfold schnorr_sign. rewrite public_key_Ok, Hpk by done. cbn [rbind].
  destruct (rfc6979_nonce _ _) as [k|e|] eqn:Hn; cbn [rbind]; [|done|].
  - apply rfc6979_nonce_ok in Hn as (Hv & Hl & Hb).
    apply is_scalar_valid_val in Hv; [|done..].
    rewrite (proj2 (scalar_from_array_Some k _)) by (split; [reflexivity|lia]).
    cbn [ok_or rbind]. pose proof (gen_G_order _ Hv) as HR.
    unfold projective_to_compressed. rewrite (proj2 (encode33_Ok _ _)) by done. cbn [rbind].
    split; [|intros sig Hs; res_inv].
    + unfold scalar_add_mul. no_panic.
    + destruct Hsk as (? & ? & ?).
      apply scalar_add_mul_Ok in Hm as (Hs & Hc & Hval); [|done..|apply blake2b_bytes].
      rewrite schnorr_verify_Ok by done. f_equal. apply bool_decide_eq_true_2.
      rewrite Hval, pt_mul_mod. unfold challenge_scalar. cbn [pk_point].
      rewrite pt_mul_add, pt_mul_mul. done.
  - by apply rfc6979_nonce_no_panic in Hn.
Qed.

(** *** Aggregation *)

Lemma pk_fold_Ok pks acc S :
  Forall pk_ok pks →
  try_fold (λ acc pk,
    let? p := compressed_to_projective (to_compressed_bytes pk) in
    Ok (pt_add acc p)) acc pks = Ok S →
  S = acc + sum_points (pk_point <$> pks).
Proof.
  intros H. revert acc. induction H as [|pk pks Hp _ IH]; intros acc.
  - intros [= <-]. rewrite fmap_nil. cbn [sum_points foldr]. by rewrite pt_add_0_r.
  - cbn [try_fold]. rewrite compressed_to_projective_pk by done. cbn [rbind].
    intros ->%IH. rewrite fmap_cons. cbn [sum_points foldr]. by rewrite pt_add_assoc.
Qed.

Lemma schnorr_add_public_keys_Ok pks agg :
  Forall pk_ok pks → schnorr_add_public_keys pks = Ok agg →
  pk_point agg = sum_points (pk_point <$> pks) ∧ pk_ok agg.
Proof.
  intros Hpks. unfold schnorr_add_public_keys. destruct pks as [|pk0 pks']; [done|].
  generalize (pk0 :: pks') Hpks. clear. intros pks Hpks H. res_inv.
  apply pk_fold_Ok in Hm as ->; [|done]. rewrite pt_add_0_l in *.
  apply bool_decide_eq_false in Heqb. unfold projective_to_compressed in Hm0.
  apply encode33_Ok in Hm0 as [_ ->].
  apply pk_from_compressed_bytes_Ok in H as (_ & _ & _ & Hd).
  rewrite sec1_decode_encode in Hd by done. injection Hd as Hd.
  split; [done|]. unfold pk_ok. by rewrite <- Hd.
Qed.

Lemma schnorr_add_public_keys_total pks :
  Forall pk_ok pks → pks ≠ [] → sum_points (pk_point <$> pks) ≠ pt_zero →
  schnorr_add_public_keys pks = Ok {| pk_point := sum_points (pk_point <$> pks) |}.
Proof.
  intros Hpks Hne Hz. unfold schnorr_add_public_keys. destruct pks as [|pk0 pks']; [done|].
  generalize (pk0 :: pks') Hpks Hz. clear. intros pks Hpks Hz.
  assert (Hf : ∀ acc, try_fold (λ acc pk,
      let? p := compressed_to_projective (to_compressed_bytes pk) in
      Ok (pt_add acc p)) acc pks = Ok (acc + sum_points (pk_point <$> pks))).
  { clear Hz. induction Hpks as [|pk pks Hp _ IH]; intros acc.
    - rewrite fmap_nil. cbn [sum_points foldr try_fold]. by rewrite pt_add_0_r.
    - cbn [try_fold]. rewrite compressed_to_projective_pk by done. cbn [rbind].
      rewrite IH, fmap_cons. cbn [sum_points foldr]. by rewrite pt_add_assoc. }
  rewrite Hf, pt_add_0_l. cbn [rbind]. rewrite bool_decide_eq_false_2 by done.
  unfold projective_to_compressed. rewrite (proj2 (encode33_Ok _ _)) by done. cbn [rbind].
  by apply (pk_roundtrip {| pk_point := sum_points (pk_point <$> pks) |}).
Qed.

Lemma partial_fold_Ok ps acc S :
  (0 ≤ acc < order)%Z →
  try_fold (λ acc partial,
    let? scalar := ok_or (scalar_from_array (partial_s partial))
                     (Invalid "partial signature scalar invalid") in
    Ok (scalar_add acc scalar)) acc ps = Ok S →
  (0 ≤ S < order)%Z ∧
  S * gen_G = acc * gen_G + sum_points ((λ p, be_val (partial_s p) * gen_G) <$> ps).
Proof.
  revert acc. induction ps as [|p ps IH]; intros acc Hacc H; cbn [try_fold] in H; res_inv.
  - rewrite fmap_nil. cbn [sum_points foldr]. by rewrite pt_add_0_r.
  - apply scalar_from_array_Some in Hm0 as [-> _]. unfold scalar_add in H.
    apply IH in H as [Hr ->]; [|apply mod_order_range]. split; [done|].
    rewrite pt_mul_mod, fmap_cons. cbn [sum_points foldr]. fold sum_points.
    rewrite pt_mul_add. by rewrite pt_add_assoc.
Qed.

Lemma partial_sign_point sk k agg_r agg_p chain_id message p :
  sk_ok sk → sk_ok k →
  schnorr_partial_sign sk k agg_r agg_p chain_id message = Ok p →
  let c := challenge_scalar (to_compressed_bytes agg_r) agg_p chain_id message in
  (c < order)%Z ∧
  be_val (partial_s p) * gen_G
  = be_val (sk_bytes k) * gen_G + c * (be_val (sk_bytes sk) * gen_G).
Proof.
  intros (_ & Hsk & _) (_ & Hk & _). unfold schnorr_partial_sign. intros H. res_inv.
  apply scalar_add_mul_Ok in Hm as (_ & Hc & Hv); [|done..|apply blake2b_bytes].
  unfold partial_from_bytes in H. res_inv. cbn [partial_s].
  by rewrite Hv, pt_mul_mod, pt_mul_add, pt_mul_mul.
Qed.

(** The sum of the partial equations *)
Lemma partials_sum parties pks rs ps agg_r agg_p chain_id message :
  Forall (λ p, sk_ok p.1 ∧ sk_ok p.2) parties →
  Forall2 (λ p pk, public_key p.1 = Ok pk) parties pks →
  Forall2 (λ p r, public_key p.2 = Ok r) parties rs →
  Forall2 (λ p s, schnorr_partial_sign p.1 p.2 agg_r agg_p chain_id message = Ok s) parties ps →
  let c := challenge_scalar (to_compressed_bytes agg_r) agg_p chain_id message in
  sum_points ((λ p, be_val (partial_s p) * gen_G) <$> ps)
  = sum_points (pk_point <$> rs) + c * sum_points (pk_point <$> pks).
Proof.
  intros Hok Hpk Hr Hs c. revert pks rs ps Hpk Hr Hs.
  induction Hok as [|[sk k] parties [Hsk Hk] _ IH]; intros pks rs ps Hpk Hr Hs.
  - inversion Hpk; inversion Hr; inversion Hs. cbn. by rewrite pt_mul_zero_r, pt_add_0_l.
  - inversion Hpk as [|? pk ? pks' Hpk1 Hpk2]; inversion Hr as [|? r ? rs' Hr1 Hr2];
      inversion Hs as [|? s ? ps' Hs1 Hs2]; simplify_eq/=.
    rewrite public_key_Ok in Hpk1, Hr1 by done. injection Hpk1 as <-. injection Hr1 as <-.
    apply partial_sign_point in Hs1 as [_ Hs1]; [|done..]. fold c in Hs1.
    rewrite Hs1, (IH _ _ _ Hpk2 Hr2 Hs2), pt_mul_add_r. cbn [pk_point]. module_solve.
Qed.

(** The multi-party protocol is complete: when every party signs its share with its
    own key and nonce against the aggregated nonce and key, the aggregated signature
    verifies under the aggregated public key. *)
Theorem aggregate_signature_verifies parties pks rs ps agg_r agg_p chain_id message sig :
  Forall (λ p, sk_ok p.1 ∧ sk_ok p.2) parties →
  Forall2 (λ p pk, public_key p.1 = Ok pk) parties pks →
  Forall2 (λ p r, public_key p.2 = Ok r) parties rs →
  schnorr_add_public_keys pks = Ok agg_p → schnorr_add_public_keys rs = Ok agg_r →
  Forall2 (λ p s, schnorr_partial_sign p.1 p.2 agg_r agg_p chain_id message = Ok s) parties ps →
  schnorr_aggregate_sigs ps agg_r = Ok sig →
  schnorr_verify sig agg_p chain_id message = Ok true.
Proof.
  intros Hok Hpk Hr Haggp Haggr Hs Hagg.
  assert (Hpks : ∀ f qs, (∀ p, sk_ok p.1 ∧ sk_ok p.2 → sk_ok (f p)) →
    Forall2 (λ (p : SecretKey * SecretKey) q, public_key (f p) = Ok q) parties qs → Forall pk_ok qs).
  { intros f qs Hf H. clear -H Hok Hf. revert H. induction 1 as [|p q ? ? Hq _ IH];
      [constructor|]. apply Forall_cons in Hok as [Hp Hok].
    constructor; [|by apply IH]. eapply public_key_ok; [|done]. by apply Hf. }
  apply schnorr_add_public_keys_Ok in Haggp as [Ep Hp]; [|eapply (Hpks fst); naive_solver].
  apply schnorr_add_public_keys_Ok in Haggr as [Er Hrr]; [|eapply (Hpks snd); naive_solver].
  pose proof (partials_sum _ _ _ _ _ _ _ _ Hok Hpk Hr Hs) as Hsum. cbv zeta in Hsum.
  assert (Hc : (challenge_scalar (to_compressed_bytes agg_r) agg_p chain_id message < order)%Z).
  { destruct Hs as [|[sk k] p ? ? Hs1 _]; [discriminate Hagg|].
    apply Forall_cons in Hok as [[Hsk Hk] _]. by apply (partial_sign_point _ _ _ _ _ _ _ Hsk Hk Hs1). }
  unfold schnorr_aggregate_sigs in Hagg. destruct ps as [|p0 ps']; [done|]. res_inv.
  apply partial_fold_Ok in Hm as [Ha Hsg]; [|pose proof order_range; lia].
  destruct (scalar_repr_ok a Ha) as [Hoff Hval].
  unfold to_compressed_bytes. rewrite schnorr_verify_Ok by done.
  f_equal. apply bool_decide_eq_true_2.
  rewrite <- Ep, <- Er in Hsum. rewrite Hval, Hsg, Hsum, pt_mul_0, pt_add_0_l. done.
Qed.

Lemma pk_from_compressed_bytes_no_panic b : pk_from_compressed_bytes b ≠ Panic.
Proof. unfold pk_from_compressed_bytes. cbv zeta. no_panic. Qed.

Lemma signature_from_bytes_no_panic b : signature_from_bytes b ≠ Panic.
Proof.
  unfold signature_from_bytes. cbv zeta. no_panic. apply pk_from_compressed_bytes_no_panic.
Qed.

Lemma schnorr_verify_no_panic sig pk chain_id message :
  schnorr_verify sig pk chain_id message ≠ Panic.
Proof. unfold schnorr_verify, compressed_to_projective. cbv zeta. no_panic. Qed.

Definition sig_ok (sig : SchnorrSignature) : Prop :=
  zlen (r_compressed sig) = 33 ∧ zlen (sig_s sig) = 32 ∧
  (∃ pk, pk_from_compressed_bytes (r_compressed sig) = Ok pk) ∧
  (0 < be_val (sig_s sig) < order)%Z.

(** Signature decoding is exact: it never panics, and it accepts a byte string
    precisely when that string is the encoding of a signature whose nonce is a
    compressed curve point and whose scalar lies strictly between zero and the
    group order. *)
Theorem signature_bytes_exact bs sig :
  bytes_ok bs →
  signature_from_bytes bs ≠ Panic ∧
  (signature_from_bytes bs = Ok sig ↔ sig_ok sig ∧ signature_to_bytes sig = bs).
Proof.
  intros Hb. split; [apply signature_from_bytes_no_panic|].
  unfold signature_from_bytes, signature_length_is_canonical.
  assert (Hbs : bytes_ok (drop 33 bs)) by by apply Forall_drop.
  destruct (Z.eqb_spec (zlen bs) 65) as [Hl|Hl]; cbn [negb].
  - assert (Hls : zlen (drop 33 bs) = 32 ∧ zlen (take 33 bs) = 33).
    { unfold zlen in *. rewrite length_drop, length_take. lia. }
    destruct Hls as [Hls Hlr]. cbv zeta. split.
    + intros H. res_inv. apply negb_false_iff, is_scalar_valid_val in Heqb; [|done..].
      unfold sig_ok. cbn [r_compressed sig_s]. split; [|apply take_drop].
      split_and!; [done..|by eauto|apply Heqb|apply Heqb].
    + intros [(Hr & Hs & (pk & Hpk) & Hv) <-]. unfold signature_to_bytes in *.
      assert (H33 : length (r_compressed sig) = 33%nat) by (unfold zlen in Hr; lia).
      rewrite <- H33, drop_app_length in Hbs.
      rewrite <- H33, take_app_length, drop_app_length, Hpk. cbn [rbind].
      rewrite (proj2 (is_scalar_valid_val _ Hs Hbs) Hv). by destruct sig.
  - split; [done|]. intros [(Hr & Hs & _) <-]. unfold signature_to_bytes in Hl.
    rewrite zlen_app in Hl. lia.
Qed.

End laws.

(** ** Examples on the concrete group *)

Definition sample_sk (k : Z) : SecretKey := {| sk_bytes := be_bytes 32 k |}.

Lemma sample_sk_ok k : (0 <? k) && (k <? order) = true → sk_ok (sample_sk k).
Proof. apply sample_bf_ok. Qed.

Lemma schnorr_sign_verifies_witness :
  ∃ sig, schnorr_sign (HB := sample_blake2b) (HM := sample_hmac) (HC := sample_curve)
           (sample_sk 42) [1; 2; 3] (replicate 32 7) = Ok sig ∧
         schnorr_verify (HB := sample_blake2b) (HC := sample_curve) sig
           {| pk_point := to_residue 42 : point (Secp256k1 := sample_curve) |} (replicate 32 7) [1; 2; 3]
         = Ok true.
Proof.
  eexists. split; [vm_compute; reflexivity|].
  refine (proj2 (schnorr_sign_verifies (HB := sample_blake2b) (HM := sample_hmac)
    (HC := sample_curve) (sample_sk 42) _ [1; 2; 3] (replicate 32 7) _ _) _ _).
  - apply sample_sk_ok. vm_compute. reflexivity.
  - unfold public_key. cbn. reflexivity.
  - vm_compute. reflexivity.
Defined.

Definition sample_pk (k : Z) : PublicKey (HC := sample_curve) :=
  {| pk_point := to_residue k : point (Secp256k1 := sample_curve) |}.

Lemma sample_pk_ok k : (k mod order =? 0) = false → pk_ok (HC := sample_curve) (sample_pk k).
Proof.
  intros H He. apply Z.eqb_neq in H. apply (f_equal proj1_sig) in He. simpl in He.
  rewrite Z.mod_0_l in He by (pose proof order_range; lia). done.
Qed.

Lemma sample_public_key k :
  (0 <? k) && (k <? order) = true →
  public_key (HC := sample_curve) (sample_sk k) = Ok (sample_pk k).
Proof.
  intros H. rewrite public_key_Ok by by apply sample_sk_ok. unfold sample_pk.
  do 2 f_equal.
  apply residue_eq. simpl. apply andb_true_iff in H as [H1 H2].
  apply Z.ltb_lt in H1, H2. unfold sample_sk. cbn [sk_bytes].
  destruct (scalar_repr_ok k) as [_ He]; [lia|]. unfold scalar_to_repr in He. rewrite He.
  rewrite Z.mul_1_r. done.
Qed.

Definition sample_sum (a b : Z) : PublicKey (HC := sample_curve) :=
  {| pk_point := sum_points [pk_point (sample_pk a); pk_point (sample_pk b)] |}.

Lemma sample_add_keys a b :
  (a mod order =? 0) = false → (b mod order =? 0) = false →
  (proj1_sig (pk_point (sample_sum a b)) =? 0) = false →
  schnorr_add_public_keys (HC := sample_curve) [sample_pk a; sample_pk b]
  = Ok (sample_sum a b).
Proof.
  intros Ha Hb Hs. apply (schnorr_add_public_keys_total [sample_pk a; sample_pk b]).
  - constructor; [|constructor; [|constructor]]; by apply sample_pk_ok.
  - done.
  - intros He. apply Z.eqb_neq in Hs. apply Hs. exact (f_equal proj1_sig He).
Qed.

(** Two parties with keys 42 and 43 and nonces 101 and 102 *)
Lemma aggregate_signature_verifies_witness :
  ∃ sig, schnorr_verify (HB := sample_blake2b) (HC := sample_curve) sig
           (sample_sum 42 43) (replicate 32 7) [1; 2; 3] = Ok true.
Proof.
  eexists.
  eapply (aggregate_signature_verifies (HB := sample_blake2b) (HC := sample_curve)
    [(sample_sk 42, sample_sk 101); (sample_sk 43, sample_sk 102)]
    [sample_pk 42; sample_pk 43] [sample_pk 101; sample_pk 102] _ (sample_sum 101 102)).
  - constructor; [|constructor; [|constructor]]; split; apply sample_sk_ok; vm_compute; reflexivity.
  - constructor; [|constructor; [|constructor]]; apply sample_public_key; vm_compute; reflexivity.
  - constructor; [|constructor; [|constructor]]; apply sample_public_key; vm_compute; reflexivity.
  - apply sample_add_keys; vm_compute; reflexivity.
  - apply sample_add_keys; vm_compute; reflexivity.
  - constructor; [|constructor; [|constructor]]; vm_compute; reflexivity.
  - vm_compute. reflexivity.
Defined.

Lemma signature_bytes_exact_witness :
  signature_from_bytes (HC := sample_curve) (2 :: be_bytes 32 3 ++ be_bytes 32 5)
  = Ok {| r_compressed := 2 :: be_bytes 32 3; sig_s := be_bytes 32 5 |}.
Proof.
  apply (signature_bytes_exact (HC := sample_curve)).
  - refine (bool_decide_unpack _ _). vm_compute. exact I.
  - split; [|done]. unfold sig_ok.
    split; [done|]. split; [done|]. split; [|vm_compute; by split].
    exists (sample_pk 3). apply (pk_roundtrip (HC := sample_curve) (sample_pk 3)).
    apply sample_pk_ok. vm_compute. reflexivity.
Defined.
