(* ===== verification/RangeProof.v ===== *)
(** * Range proof verification ([crates/dom-crypto/src/range_proof.rs], the verifier of
    [bulletproof_bp.rs], [sec1_zkp_bridge.rs], and the capsule framing of [recovery.rs])

    An output carries one aggregate proof over the pair of commitments to [v] and to
    [MAX_PROVABLE_VALUE - v].  The C library behind the proof system enters as the
    class [ZkpBackend]; the checks around the calls are the code's own. *)

From Stdlib Require Import ZArith Lia.
From stdpp Require Import base list strings.
From S2P Require Import Prelude CoreError Core Curve Keys Pedersen.

Definition RANGE_PROOF_SERIALIZATION_VERSION : Z := 1.
Definition MAX_PROVABLE_VALUE : Z := Z.shiftl 1 52 - 1.
Definition SINGLE_BULLETPROOF_SIZE : Z := 739.
Definition RANGE_PROOF_SIZE : Z := SINGLE_BULLETPROOF_SIZE.
Definition PROOF_NBITS : Z := 64.

Definition range_proof_length_is_canonical (length : Z) : bool := length =? RANGE_PROOF_SIZE.

(** ** Recovery capsules *)

Definition RECOVERY_VERSION : Z := 1.
Definition RECOVERY_PLAINTEXT_SIZE : Z := 64.
Definition RECOVERY_TAG_SIZE : Z := 16.
Definition RECOVERY_CIPHERTEXT_SIZE : Z := RECOVERY_PLAINTEXT_SIZE + RECOVERY_TAG_SIZE.

Inductive RecoveryCapsuleFrontier : Type :=
| CapsuleWrongLength
| UnsupportedVersion
| WrongCiphertextLength
| CapsuleCandidate.

Definition classify_recovery_capsule_frontier (length version ciphertext_length : Z)
  : RecoveryCapsuleFrontier :=
  if negb (length =? RECOVERY_CAPSULE_SIZE) then CapsuleWrongLength
  else if negb (version =? RECOVERY_VERSION) then UnsupportedVersion
  else if negb (ciphertext_length =? RECOVERY_CIPHERTEXT_SIZE) then WrongCiphertextLength
  else CapsuleCandidate.

Record RecoveryCapsule : Type := { capsule_bytes : bytes }.

Definition capsule_from_bytes (b : bytes) : Result RecoveryCapsule :=
  let version := if 2 <=? zlen b then le_val (slice b 0 2) else 0 in
  let ciphertext_len := if 16 <=? zlen b then le_val (slice b 14 16) else 0 in
  match classify_recovery_capsule_frontier (zlen b) version ciphertext_len with
  | CapsuleWrongLength =>
      Err (Malformed ("recovery capsule length " +:+ dec (zlen b) +:+ " != "
                      +:+ dec RECOVERY_CAPSULE_SIZE))
  | UnsupportedVersion =>
      Err (Malformed ("unsupported recovery capsule version " +:+ dec version))
  | WrongCiphertextLength =>
      Err (Malformed ("recovery ciphertext length " +:+ dec ciphertext_len +:+ " != "
                      +:+ dec RECOVERY_CIPHERTEXT_SIZE))
  | CapsuleCandidate => Ok {| capsule_bytes := b |}
  end.

(** ** The library behind the proofs *)

(** libsecp256k1-zkp: creation of the shared context and generators and of the scratch
    space (which may fail), the two parsers, the aggregate verifier (proof, parsed
    commitments, value generator, extra bytes), and whether the affine [y] coordinate
    of a point is a square (k256's [FieldElement::sqrt]). *)
Class ZkpBackend `{HC : Secp256k1} : Type := {
  context_created : bool;
  generators_created : bool;
  scratch_created : bool;
  generator_parse : bytes → option bytes;
  pedersen_commitment_parse : bytes → option bytes;
  bulletproof_verify : bytes → list bytes → bytes → bytes → bool;
  y_is_square : point → bool;
}.

Section verifier.
Context `{HC : Secp256k1} `{HZ : !ZkpBackend}.

Definition backend : Result unit :=
  if negb context_created then Err (Internal "grin context_create returned null")
  else if negb generators_created then Err (Internal "grin generators_create returned null")
  else Ok tt.

Definition scratch_new : Result unit :=
  if scratch_created then Ok tt else Err (Internal "grin scratch_space_create returned null").

Definition h_dom_zkp_serialized : Result bytes :=
  let? compressed := derive_h_generator in
  match compressed with
  | 2 :: x => Ok (0x0a :: x)
  | 3 :: x => Ok (0x0b :: x)
  | other :: _ =>
      Err (Internal ("unexpected SEC1 compressed prefix for H_DOM: 0x" +:+ hex_byte other))
  | [] => Panic
  end.

Definition h_dom_internal : Result bytes :=
  let? ser := h_dom_zkp_serialized in
  ok_or (generator_parse ser) (Internal "H_DOM generator_parse failed").

Definition zkp_prefix_from_y (P : point) : Z := if y_is_square P then 0x08 else 0x09.

Definition sec1_to_zkp (sec1_bytes : bytes) : Result bytes :=
  match pubkey_from_slice sec1_bytes with
  | inl e => Err (Invalid ("invalid SEC1: " +:+ e))
  | inr P => Ok (zkp_prefix_from_y P :: drop 1 sec1_bytes)
  end.

(** Four x-only points follow 64 bytes of scalars and one byte of parities. *)
Definition proof_point_ok (proof : bytes) (i : Z) : bool :=
  let parity := nth 64 proof 0 in
  let prefix := if Z.land parity (Z.shiftl 1 i) =? 0 then 2 else 3 in
  match pubkey_from_slice (prefix :: slice proof (65 + i * 32) (97 + i * 32)) with
  | inr _ => true
  | inl _ => false
  end.
Definition proof_has_valid_curve_points (proof : bytes) : bool :=
  if zlen proof <? 64 + 1 + 4 * 32 then false
  else forallb (proof_point_ok proof) [0; 1; 2; 3].

Fixpoint parse_commits (commits : list bytes) : option (list bytes) :=
  match commits with
  | [] => Some []
  | c :: t =>
      match pedersen_commitment_parse c with
      | None => None
      | Some ci => match parse_commits t with None => None | Some cis => Some (ci :: cis) end
      end
  end.

Definition verify_raw (commit_zkp33 : list bytes) (proof value_gen extra_commit : bytes)
  : Result bool :=
  match parse_commits commit_zkp33 with
  | None => Ok false
  | Some cis =>
      let? _ := scratch_new in
      Ok (bulletproof_verify proof cis value_gen extra_commit)
  end.

(** The commitment and its complement, then the verifier *)
Definition verify_pair (commitment_sec1 proof_bytes extra_commit : bytes) : Result bool :=
  let? _ := backend in
  let? h_dom := h_dom_internal in
  let? c := from_compressed_bytes commitment_sec1 in
  let? complement_sec1 := derive_complement_commitment c MAX_PROVABLE_VALUE in
  let? c_zkp := sec1_to_zkp commitment_sec1 in
  let? complement_zkp := sec1_to_zkp (commit_bytes complement_sec1) in
  verify_raw [c_zkp; complement_zkp] proof_bytes h_dom extra_commit.

Definition bp_verify (commitment_sec1 proof_bytes : bytes) : Result bool :=
  if zlen proof_bytes =? 0 then Err (Malformed "range proof is empty")
  else if negb (range_proof_length_is_canonical (zlen proof_bytes)) then
    Err (Malformed ("invalid range proof length: " +:+ dec (zlen proof_bytes)
                    +:+ " bytes (expected " +:+ dec SINGLE_BULLETPROOF_SIZE +:+ ")"))
  else if negb (proof_has_valid_curve_points proof_bytes) then Ok false
  else verify_pair commitment_sec1 proof_bytes [].

Definition bp_verify_with_extra_commit (commitment_sec1 proof_bytes extra_commit : bytes)
  : Result bool :=
  if zlen extra_commit =? 0 then
    Err (Malformed "range proof extra commitment must not be empty")
  else if negb (range_proof_length_is_canonical (zlen proof_bytes)) then
    Err (Malformed ("range proof length " +:+ dec (zlen proof_bytes) +:+ " != "
                    +:+ dec SINGLE_BULLETPROOF_SIZE))
  else verify_pair commitment_sec1 proof_bytes extra_commit.

Definition range_proof_verify (commitment_sec1 proof_bytes : bytes) : Result bool :=
  bp_verify commitment_sec1 proof_bytes.
Definition range_proof_verify_with_extra_commit
    (commitment_sec1 proof_bytes extra_commit : bytes) : Result bool :=
  bp_verify_with_extra_commit commitment_sec1 proof_bytes extra_commit.
End verifier.

(** ** What an accepted proof establishes *)

Section two_sided.
Context `{HC : Secp256k1} `{HH : !HGenerator} `{HZ : !ZkpBackend}.
Local Open Scope point_scope.

Definition zkp_encode (P : point) : bytes := zkp_prefix_from_y P :: drop 1 (sec1_encode P).

Lemma sec1_to_zkp_Ok b z :
  zlen b = 33 → bytes_ok b → sec1_to_zkp b = Ok z →
  ∃ P, decodes {| commit_bytes := b |} P ∧ z = zkp_encode P.
Proof.
  intros Hl Hb. unfold sec1_to_zkp. destruct (pubkey_from_slice b) as [e|P] eqn:Hp; [done|].
  intros [= <-]. apply pubkey_from_slice_point in Hp as (Hpre & Hw & Hd); [|done].
  exists P. split; [done|]. unfold zkp_encode. by rewrite (sec1_encode_decode b P).
Qed.

(** The verifier is called on the commitment and on its complement. *)
Lemma verify_pair_true b proof extra :
  zlen b = 33 → bytes_ok b → verify_pair b proof extra = Ok true →
  ∃ P cis h, decodes {| commit_bytes := b |} P ∧
    parse_commits [zkp_encode P; zkp_encode (MAX_PROVABLE_VALUE * gen_H - P)] = Some cis ∧
    bulletproof_verify proof cis h extra = true.
Proof.
  intros Hl Hb. unfold verify_pair. intros H. res_inv.
  apply from_compressed_bytes_Ok in Hm1 as (-> & _ & Q & HQ).
  apply sec1_to_zkp_Ok in Hm3 as (P & HP & ->); [|done..].
  pose proof (decodes_fun _ _ _ HQ HP) as ->.
  apply (derive_complement_Ok _ _ _ _ HP) in Hm2 as [Hd ->].
  cbn [commit_bytes] in Hm4.
  apply sec1_to_zkp_Ok in Hm4 as (P' & HP' & ->); [|by apply sec1_encode_len|apply sec1_encode_bytes].
  pose proof (decodes_fun _ _ _ (decodes_encode _ Hd) HP') as <-.
  unfold verify_raw in H. destruct (parse_commits _) as [cis|] eqn:Hc; [|done]. res_inv.
  by exists P, cis, a0.
Qed.
Lemma h_dom_internal_no_panic : h_dom_internal ≠ Panic.
Proof.
  unfold h_dom_internal, h_dom_zkp_serialized. rewrite derive_h_generator_Ok.
  cbn [rbind H_COMPRESSED_FINAL]. no_panic.
Qed.

Lemma verify_pair_no_panic b proof extra : verify_pair b proof extra ≠ Panic.
Proof.
  unfold verify_pair, backend, verify_raw, scratch_new, sec1_to_zkp, from_compressed_bytes.
  no_panic; try apply h_dom_internal_no_panic.
  apply derive_complement_no_panic. pose proof order_range. change MAX_PROVABLE_VALUE with (2 ^ 52 - 1)%Z. lia.
Qed.

Lemma range_proof_verify_no_panic b proof : range_proof_verify b proof ≠ Panic.
Proof. unfold range_proof_verify, bp_verify. no_panic. apply verify_pair_no_panic. Qed.

Lemma range_proof_verify_with_extra_commit_no_panic b proof extra :
  range_proof_verify_with_extra_commit b proof extra ≠ Panic.
Proof.
  unfold range_proof_verify_with_extra_commit, bp_verify_with_extra_commit. no_panic.
  apply verify_pair_no_panic.
Qed.

(** Knowledge soundness of the aggregate verifier, as its documentation states it: the
    openings an accepted proof proves knowledge of are openings of the commitments,
    with values of [PROOF_NBITS] bits. *)
Definition extracts_openings (extract : bytes → list bytes → list (Z * Z)) : Prop :=
  ∀ proof Ps cis h extra,
    parse_commits (zkp_encode <$> Ps) = Some cis →
    bulletproof_verify proof cis h extra = true →
    Forall2 (λ P vr, P = vr.1 * gen_H + vr.2 * gen_G ∧ (0 ≤ vr.1 < 2 ^ PROOF_NBITS)%Z)
      Ps (extract proof cis).

(** An accepted proof bounds the value on both sides: the value [v] whose opening
    the prover knows satisfies [0 <= v <= MAX_PROVABLE_VALUE], unless the prover also
    knows a multiple of [H] by a non-zero number of at most 65 bits as a multiple of
    [G].  Both verification entry points give it. *)
Theorem range_proof_two_sided extract b proof extra :
  extracts_openings extract → zlen b = 33 → bytes_ok b →
  range_proof_verify b proof = Ok true ∨
    range_proof_verify_with_extra_commit b proof extra = Ok true →
  ∃ cis v r v' r', extract proof cis = [(v, r); (v', r')] ∧
    opens {| commit_bytes := b |} (v, r) ∧
    ((0 ≤ v ≤ MAX_PROVABLE_VALUE)%Z ∨
     (let d := v + v' - MAX_PROVABLE_VALUE in
      d ≠ 0 ∧ Z.abs d < 2 ^ 65)%Z ∧
     ((v + v' - MAX_PROVABLE_VALUE)%Z * gen_H = (- (r + r'))%Z * gen_G)).
Proof.
  intros Hex Hl Hb Hv.
  assert (Hp : ∃ extra, verify_pair b proof extra = Ok true).
  { unfold range_proof_verify, range_proof_verify_with_extra_commit, bp_verify,
      bp_verify_with_extra_commit in Hv.
    destruct Hv as [Hv|Hv]; repeat case_match; simplify_eq; eauto. }
  destruct Hp as [ex Hp]. apply verify_pair_true in Hp as (P & cis & h & HP & Hc & Hbp); [|done..].
  specialize (Hex proof [P; MAX_PROVABLE_VALUE * gen_H - P] cis h ex Hc Hbp).
  inversion Hex as [|? [v r] ? l [Ev Rv] Hex']; simplify_eq/=.
  inversion Hex' as [|? [v' r'] ? l' [Ev' Rv'] Hnil]; simplify_eq/=. inversion Hnil; subst.
  exists cis, v, r, v', r'. split; [done|]. split; [done|].
  assert (Hrel : (v + v' - MAX_PROVABLE_VALUE)%Z * gen_H = (- (r + r'))%Z * gen_G).
  { apply pt_eq_iff_zero in Ev'. apply pt_eq_iff_zero.
    replace pt_zero with (- pt_zero) by module_solve. rewrite <- Ev'. module_solve. }
  change PROOF_NBITS with 64%Z in *.
  assert (Hmax : MAX_PROVABLE_VALUE = (2 ^ 52 - 1)%Z) by done.
  destruct (decide (v + v' - MAX_PROVABLE_VALUE = 0)%Z); [left; lia|right].
  split; [|done]. split; [done|]. lia.
Qed.

End two_sided.

(** ** A concrete backend

    A transparent proof system on the concrete group: the proof lists both openings. *)

Definition sample_openings (proof : bytes) : list (Z * Z) :=
  [(be_val (slice proof 193 225), be_val (slice proof 225 257));
   (be_val (slice proof 257 289), be_val (slice proof 289 321))].
Definition sample_zkp (P : residue) : bytes := 8 :: drop 1 (residue_encode P).
Definition opening_ok (c : bytes) (vr : Z * Z) : bool :=
  bool_decide (c = sample_zkp (sample_point vr.1 vr.2)) && (0 <=? vr.1) && (vr.1 <? 2 ^ 64).

Definition sample_zkp_backend : ZkpBackend (HC := sample_curve) := {|
  context_created := true;
  generators_created := true;
  scratch_created := true;
  generator_parse b := Some b;
  pedersen_commitment_parse b := Some b;
  bulletproof_verify proof cis _ _ :=
    match cis, sample_openings proof with
    | [c; c'], [vr; vr'] => opening_ok c vr && opening_ok c' vr'
    | _, _ => false
    end;
  y_is_square _ := true;
|}.

Lemma sample_zkp_inj P Q : sample_zkp P = sample_zkp Q → P = Q.
Proof.
  unfold sample_zkp, residue_encode. intros H. apply (f_equal tail) in H. cbn [tail] in H.
  apply residue_eq.
  destruct (Z.eqb_spec (proj1_sig P) 0) as [->|], (Z.eqb_spec (proj1_sig Q) 0) as [->|];
    cbn [skipn] in H; rewrite ?drop_0 in H; [done|..].
  - by apply (f_equal length) in H; rewrite length_be_bytes in H.
  - by apply (f_equal length) in H; rewrite length_be_bytes in H.
  - pose proof (residue_range P). pose proof (residue_range Q). pose proof order_range.
    apply (f_equal be_val) in H. rewrite !be_val_be_bytes in H; [done|..];
      unfold in_width; change (2 ^ (8 * Z.of_nat 32)) with (2 ^ 256); lia.
Qed.

Lemma sample_point_eq v r :
  sample_point v r = pt_add (Secp256k1 := sample_curve) (pt_mul v (gen_H (HGenerator := sample_h)))
                       (pt_mul r (gen_G (Secp256k1 := sample_curve))).
Proof.
  apply residue_eq. unfold sample_point. simpl.
  rewrite Z.mul_1_r, <- Zplus_mod. f_equal.
Qed.

Lemma opening_ok_spec P vr :
  opening_ok (zkp_encode (HZ := sample_zkp_backend) P) vr = true →
  P = pt_add (Secp256k1 := sample_curve) (pt_mul vr.1 (gen_H (HGenerator := sample_h)))
        (pt_mul vr.2 (gen_G (Secp256k1 := sample_curve))) ∧ 0 ≤ vr.1 < 2 ^ PROOF_NBITS.
Proof.
  unfold opening_ok. rewrite !andb_true_iff, bool_decide_eq_true, Z.leb_le, Z.ltb_lt.
  intros [[H ?] ?]. rewrite <- sample_point_eq. split; [|done]. by apply sample_zkp_inj.
Qed.

Lemma sample_extracts :
  extracts_openings (HH := sample_h) (HZ := sample_zkp_backend) (λ proof _, sample_openings proof).
Proof.
  intros proof Ps cis h extra Hp Hv.
  assert (Hid : ∀ l, parse_commits (HZ := sample_zkp_backend) l = Some l).
  { induction l as [|c l IH]; [done|]. cbn [parse_commits]. by rewrite IH. }
  rewrite Hid in Hp. injection Hp as <-.
  destruct Ps as [|P [|P' [|? ?]]]; try done.
  apply andb_true_iff in Hv as [H1 H2]. constructor; [|constructor; [|constructor]].
  - apply (opening_ok_spec P (be_val _, be_val _)), H1.
  - apply (opening_ok_spec P' (be_val _, be_val _)), H2.
Qed.

(** Scalars and parities are zero, the four points are the generator. *)
Definition sample_frame : bytes := replicate 65 0 ++ mjoin (replicate 4 (be_bytes 32 1)).
Definition sample_proof_of (v r v' r' : Z) : bytes :=
  sample_frame ++ be_bytes 32 v ++ be_bytes 32 r ++ be_bytes 32 v' ++ be_bytes 32 r' ++ replicate 418 0.
Definition sample_proof (v r : Z) : bytes :=
  sample_proof_of v r (MAX_PROVABLE_VALUE - v) ((- r) mod order).

Lemma range_proof_two_sided_witness :
  ∃ v r, opens (HH := sample_h) (sample_commitment 1000 5) (v, r) ∧ v = 1000.
Proof.
  destruct (range_proof_two_sided (HH := sample_h) (HZ := sample_zkp_backend)
    (λ proof _, sample_openings proof) (commit_bytes (sample_commitment 1000 5))
    (sample_proof 1000 5) [1]) as (cis & v & r & v' & r' & Hx & Ho & _).
  - apply sample_extracts.
  - vm_compute. reflexivity.
  - refine (bool_decide_unpack _ _). vm_compute. exact I.
  - left. vm_compute. reflexivity.
  - exists v, r. split; [exact Ho|]. vm_compute in Hx. congruence.
Defined.
