(* ===== verification/RangeProve.v ===== *)
(** * Range proof creation ([crates/dom-crypto/src/range_proof.rs], the prover of
    [bulletproof_bp.rs], and [zkp_to_sec1] of [sec1_zkp_bridge.rs])

    Committing and proving are calls of the C library and enter as the class [ZkpProver];
    the choice of the pair of values, the blinding of the complement, the nonces and the
    mapping between the point encodings are the code's own.  A proof made this way is
    accepted by the verifier of [RangeProof]. *)

From Stdlib Require Import ZArith Lia.
From stdpp Require Import base list strings.
From S2P Require Import Prelude CoreError Core CryptoHash Curve Keys Pedersen RangeProof.

Definition TAG_BP2_REWIND_NONCE : string := "DOM:bp2-rewind-nonce:v1".
Definition TAG_BP2_PRIVATE_NONCE : string := "DOM:bp2-private-nonce:v1".

(** [secp256k1_pedersen_commit] (blinding, value, value generator), the serialization of its
    result, [PedersenCommitment::from_slice] (the error, if any), and
    [secp256k1_bulletproof_rangeproof_prove] (values, blindings, value generator, rewind and
    private nonce, extra bytes) *)
Class ZkpProver : Type := {
  pedersen_commit : bytes → Z → bytes → option bytes;
  pedersen_commitment_serialize : bytes → bytes;
  pedersen_commitment_error : bytes → option string;
  bulletproof_prove : list Z → list bytes → bytes → bytes → bytes → bytes → option bytes;
}.

Record RangeProof : Type := { rp_bytes : bytes }.
Definition range_proof_from_bytes (b : bytes) : Result RangeProof :=
  if negb (range_proof_length_is_canonical (zlen b)) then
    Err (Invalid ("range proof length " +:+ dec (zlen b) +:+ " != " +:+ dec RANGE_PROOF_SIZE))
  else Ok {| rp_bytes := b |}.

Section prover.
Context `{HB : Blake2b256} `{HC : Secp256k1} `{HZ : !ZkpBackend} `{HP : ZkpProver}.

(** The compressed encoding whose square class is the one of the prefix *)
Definition sec1_candidate (zkp_bytes : bytes) (prefix : Z) : option bytes :=
  let sec1_bytes := prefix :: drop 1 zkp_bytes in
  match pubkey_from_slice sec1_bytes with
  | inr P => if zkp_prefix_from_y P =? default 0 (head zkp_bytes) then Some sec1_bytes else None
  | inl _ => None
  end.
Definition zkp_to_sec1 (zkp_bytes : bytes) : Result bytes :=
  match pedersen_commitment_error zkp_bytes with
  | Some e => Err (Invalid ("invalid zkp: " +:+ e))
  | None =>
      match sec1_candidate zkp_bytes 2 with
      | Some b => Ok b
      | None => ok_or (sec1_candidate zkp_bytes 3) (Internal "zkp→SEC1: no valid prefix found")
      end
  end.

Definition commit_zkp (value : Z) (blind value_gen : bytes) : Result bytes :=
  match pedersen_commit blind value value_gen with
  | None => Err (Invalid "pedersen_commit failed")
  | Some ci => Ok (pedersen_commitment_serialize ci)
  end.

Definition prove_raw_values_with_nonces (values : list Z) (blinds : list bytes)
    (value_gen rewind private extra_commit : bytes) : Result bytes :=
  let? _ := scratch_new in
  ok_or (bulletproof_prove values blinds value_gen rewind private extra_commit)
    (Internal "bulletproof prove failed").

Definition prove_raw_with_nonces (value : Z) (blind value_gen rewind private extra_commit : bytes)
  : Result bytes :=
  let? complement_value := ok_or (checked_sub MAX_PROVABLE_VALUE value)
                             (Invalid "value exceeds MAX_PROVABLE_VALUE") in
  let? complement_blind := negate_blinding blind in
  prove_raw_values_with_nonces [value; complement_value] [blind; complement_blind]
    value_gen rewind private extra_commit.

Definition value_error (value : Z) : DomError :=
  Invalid ("value " +:+ dec value +:+ " > MAX_PROVABLE_VALUE " +:+ dec MAX_PROVABLE_VALUE).

(** The nonces of [prove_raw] are drawn from the thread's generator. *)
Definition bp_prove (value : Z) (blinding : BlindingFactor) (rewind private : bytes)
  : Result (bytes * bytes) :=
  if MAX_PROVABLE_VALUE <? value then Err (value_error value)
  else
    let? _ := backend in
    let? h_dom := h_dom_internal in
    let blind := bf_bytes blinding in
    let? zkp := commit_zkp value blind h_dom in
    let? sec1 := zkp_to_sec1 zkp in
    let? proof := prove_raw_with_nonces value blind h_dom rewind private [] in
    Ok (proof, sec1).

Definition bp_prove_with_extra_commit (value : Z) (blinding : BlindingFactor)
    (extra_commit rewind private : bytes) : Result (bytes * bytes) :=
  if MAX_PROVABLE_VALUE <? value then Err (value_error value)
  else if zlen extra_commit =? 0 then
    Err (Invalid "range proof extra commitment must not be empty")
  else
    let? _ := backend in
    let? h_dom := h_dom_internal in
    let blind := bf_bytes blinding in
    let? zkp := commit_zkp value blind h_dom in
    let? sec1 := zkp_to_sec1 zkp in
    let? proof := prove_raw_with_nonces value blind h_dom rewind private extra_commit in
    Ok (proof, sec1).

Definition bp_prove_with_nonce (value : Z) (blinding : BlindingFactor) (nonce_bytes : bytes)
  : Result (bytes * bytes) :=
  if MAX_PROVABLE_VALUE <? value then Err (value_error value)
  else
    let rewind := hash_bytes (blake2b_256_tagged TAG_BP2_REWIND_NONCE nonce_bytes) in
    let private := hash_bytes (blake2b_256_tagged TAG_BP2_PRIVATE_NONCE nonce_bytes) in
    let? _ := backend in
    let? h_dom := h_dom_internal in
    let blind := bf_bytes blinding in
    let? zkp := commit_zkp value blind h_dom in
    let? sec1 := zkp_to_sec1 zkp in
    let? proof := prove_raw_with_nonces value blind h_dom rewind private [] in
    Ok (proof, sec1).

(** ** The public interface *)

Definition range_proof_prove (value : Z) (blinding : BlindingFactor) (rewind private : bytes)
  : Result (RangeProof * bytes) :=
  let? (proof, commitment) := bp_prove value blinding rewind private in
  let? p := range_proof_from_bytes proof in
  Ok (p, commitment).
Definition range_proof_prove_with_nonce (value : Z) (blinding : BlindingFactor) (nonce : bytes)
  : Result (RangeProof * bytes) :=
  let? (proof, commitment) := bp_prove_with_nonce value blinding nonce in
  let? p := range_proof_from_bytes proof in
  Ok (p, commitment).
Definition range_proof_prove_bytes (value : Z) (blinding : BlindingFactor) (rewind private : bytes)
  : Result (bytes * bytes) := bp_prove value blinding rewind private.
Definition range_proof_prove_bytes_with_extra_commit (value : Z) (blinding : BlindingFactor)
    (extra_commit rewind private : bytes) : Result (bytes * bytes) :=
  bp_prove_with_extra_commit value blinding extra_commit rewind private.
Definition range_proof_prove_bytes_with_nonce (value : Z) (blinding : BlindingFactor) (nonce : bytes)
  : Result (bytes * bytes) := bp_prove_with_nonce value blinding nonce.
End prover.

(** ** Completeness *)

Section complete.
Context `{HB : Blake2b256} `{HC : Secp256k1} `{HH : !HGenerator} `{HZ : !ZkpBackend} `{HP : ZkpProver}.
Local Open Scope point_scope.

(** The internal form of [H] *)
Definition value_generator (h : bytes) : Prop := h_dom_internal = Ok h.

(** The library as its documentation describes it: the shared objects exist, commitments to
    values of 64 bits serialize to the encoding of their point and parse again, one of the two
    points with an [x] coordinate has a square [y], and an aggregate proof of two openings has
    the size of the format, lists points of the curve and verifies for the commitments. *)
Record working_library : Prop := {
  wl_context : context_created = true;
  wl_generators : generators_created = true;
  wl_scratch : scratch_created = true;
  wl_generator : ∃ h, value_generator h;
  wl_commit v b h : value_generator h → (0 ≤ v < 2 ^ 64)%Z → offset_ok b →
    v * gen_H + be_val b * gen_G ≠ pt_zero →
    ∃ ci, pedersen_commit b v h = Some ci ∧
          pedersen_commitment_serialize ci = zkp_encode (v * gen_H + be_val b * gen_G);
  wl_parse P : P ≠ pt_zero →
    pedersen_commitment_error (zkp_encode P) = None ∧ is_Some (pedersen_commitment_parse (zkp_encode P));
  wl_square P Q prefix : P ≠ pt_zero →
    sec1_decode (prefix :: drop 1 (sec1_encode P)) = Some Q → y_is_square Q = y_is_square P → Q = P;
  wl_prove v v' b b' h rewind private extra : value_generator h →
    (0 ≤ v < 2 ^ 64)%Z → (0 ≤ v' < 2 ^ 64)%Z → offset_ok b → offset_ok b' →
    let Ps := [v * gen_H + be_val b * gen_G; v' * gen_H + be_val b' * gen_G] in
    ∃ proof, bulletproof_prove [v; v'] [b; b'] h rewind private extra = Some proof ∧
      zlen proof = SINGLE_BULLETPROOF_SIZE ∧ bytes_ok proof ∧
      proof_has_valid_curve_points proof = true ∧
      ∀ cis, parse_commits (zkp_encode <$> Ps) = Some cis → bulletproof_verify proof cis h extra = true;
}.
Hypothesis Hlib : working_library.

Lemma sec1_split P : P ≠ pt_zero → ∃ p, (p = 2 ∨ p = 3)%Z ∧ sec1_encode P = p :: drop 1 (sec1_encode P).
Proof.
  intros HP0. destruct (sec1_encode_prefix P HP0) as [H|H];
    (destruct (sec1_encode P) as [|p x]; [done|]); injection H as ->; eexists; (split; [|done]); auto.
Qed.

Lemma sec1_candidate_Some P prefix b :
  P ≠ pt_zero → sec1_candidate (zkp_encode P) prefix = Some b → b = sec1_encode P.
Proof.
  intros HP0. unfold sec1_candidate, zkp_encode. rewrite skipn_cons, drop_0. cbn [head default].
  assert (Hl : zlen (prefix :: drop 1 (sec1_encode P)) = 33%Z).
  { destruct (sec1_split P HP0) as (p & _ & E). pose proof (sec1_encode_len P HP0) as Hl.
    rewrite E, zlen_cons in Hl. by rewrite zlen_cons. }
  destruct (pubkey_from_slice _) as [e|Q] eqn:HQ; [done|].
  apply pubkey_from_slice_point in HQ as (Hp & Hw & Hd); [|done].
  destruct (_ =? _)%Z eqn:Hs; [|done]. intros [= <-]. apply Z.eqb_eq in Hs.
  assert (y_is_square Q = y_is_square P).
  { unfold zkp_prefix_from_y in Hs. by destruct (y_is_square Q), (y_is_square P). }
  assert (Q = P) as -> by (eapply wl_square; eauto).
  symmetry. apply sec1_encode_decode; try done.
  apply bytes_ok_cons. split; [destruct Hp as [[= ->]|[= ->]]; done|].
  apply Forall_drop, sec1_encode_bytes.
Qed.

Lemma zkp_to_sec1_encode P : P ≠ pt_zero → zkp_to_sec1 (zkp_encode P) = Ok (sec1_encode P).
Proof.
  intros HP0. unfold zkp_to_sec1. destruct (wl_parse Hlib P HP0) as [-> _].
  destruct (sec1_candidate _ 2) as [b|] eqn:H2; [by rewrite (sec1_candidate_Some P 2 b)|].
  destruct (sec1_candidate _ 3) as [b|] eqn:H3; [by rewrite (sec1_candidate_Some P 3 b)|].
  exfalso. destruct (sec1_split P HP0) as (p & Hp & E).
  assert (Hc : sec1_candidate (zkp_encode P) p = Some (sec1_encode P)).
  { unfold sec1_candidate, zkp_encode. rewrite skipn_cons, drop_0. cbn [head default]. rewrite <- E.
    assert (HQ : pubkey_from_slice (sec1_encode P) = inr P)
      by (apply pubkey_from_slice_point; auto using sec1_encode_len, sec1_encode_prefix,
            sec1_encode_wellformed, sec1_decode_encode).
    by rewrite HQ, Z.eqb_refl. }
  destruct Hp as [->| ->]; congruence.
Qed.

Lemma sec1_to_zkp_encode P : P ≠ pt_zero → sec1_to_zkp (sec1_encode P) = Ok (zkp_encode P).
Proof.
  intros HP0. unfold sec1_to_zkp.
  assert (HQ : pubkey_from_slice (sec1_encode P) = inr P)
    by (apply pubkey_from_slice_point; auto using sec1_encode_len, sec1_encode_prefix,
          sec1_encode_wellformed, sec1_decode_encode).
  by rewrite HQ.
Qed.

Lemma derive_complement_total P max :
  (0 < max < order)%Z → P ≠ pt_zero → max * gen_H - P ≠ pt_zero →
  derive_complement_commitment {| commit_bytes := sec1_encode P |} max
  = Ok {| commit_bytes := sec1_encode (max * gen_H - P) |}.
Proof.
  intros Hmax HP0 Hd. pose proof (gen_H_order _ Hmax) as HM.
  unfold derive_complement_commitment, commit_unblinded. rewrite h_point_Ok. cbn [rbind].
  rewrite (proj2 (encode33_Ok _ _) (conj HM eq_refl)). cbn [rbind]. unfold commitment_sub.
  rewrite (proj2 (to_projective_Ok _ _) (decodes_encode _ HM)). cbn [rbind].
  rewrite (proj2 (to_projective_Ok _ _) (decodes_encode _ HP0)). cbn [rbind].
  rewrite bool_decide_false by done. by rewrite (proj2 (encode33_Ok _ _) (conj Hd eq_refl)).
Qed.

(** A value and a blinding whose commitment and its complement are points of the format: the
    code rejects the identity, whose opening would be the discrete logarithm of [H]. *)
Record provable (v : Z) (b : BlindingFactor) : Prop := {
  pv_value : (0 ≤ v ≤ MAX_PROVABLE_VALUE)%Z;
  pv_blinding : bf_ok b;
  pv_point : v * gen_H + be_val (bf_bytes b) * gen_G ≠ pt_zero;
  pv_complement : (MAX_PROVABLE_VALUE - v)%Z * gen_H - be_val (bf_bytes b) * gen_G ≠ pt_zero;
}.

Lemma max_provable : MAX_PROVABLE_VALUE = (2 ^ 52 - 1)%Z.
Proof. done. Qed.

Lemma complement_point v b b' :
  be_val b' = ((- b) mod order)%Z →
  (MAX_PROVABLE_VALUE - v)%Z * gen_H + be_val b' * gen_G
  = MAX_PROVABLE_VALUE * gen_H - (v * gen_H + b * gen_G).
Proof. intros ->. rewrite pt_mul_mod. module_solve. Qed.

Lemma prove_pair v b rewind private extra :
  provable v b →
  let P := v * gen_H + be_val (bf_bytes b) * gen_G in
  ∃ h proof, h_dom_internal = Ok h ∧
    commit_zkp v (bf_bytes b) h = Ok (zkp_encode P) ∧
    prove_raw_with_nonces v (bf_bytes b) h rewind private extra = Ok proof ∧
    zlen proof = SINGLE_BULLETPROOF_SIZE ∧ bytes_ok proof ∧ proof_has_valid_curve_points proof = true ∧
    verify_pair (sec1_encode P) proof extra = Ok true.
Proof.
  intros [Hv Hb HP0 HC0] P. pose proof order_range as Ho. pose proof (bf_offset_ok _ Hb) as Hoff.
  rewrite max_provable in Hv. destruct (wl_generator Hlib) as [h Hh].
  destruct (wl_commit Hlib v (bf_bytes b) h Hh ltac:(lia) Hoff HP0) as (ci & Hci & Hser).
  destruct (scalar_repr_ok _ (mod_order_range (- be_val (bf_bytes b)))) as [Hoff' Hval'].
  set (b' := scalar_to_repr _) in *.
  destruct (wl_prove Hlib v (MAX_PROVABLE_VALUE - v) (bf_bytes b) b' h rewind private extra Hh
    ltac:(lia) ltac:(rewrite max_provable; lia) Hoff Hoff') as (proof & Hpr & Hlen & Hbok & Hpts & Hver).
  rewrite (complement_point _ _ _ Hval') in Hver. fold P in Hver.
  assert (HM0 : MAX_PROVABLE_VALUE * gen_H - P ≠ pt_zero).
  { intros H. apply HC0. rewrite <- H. unfold P. module_solve. }
  exists h, proof. split_and!; try done.
  - unfold commit_zkp. rewrite Hci. cbn. by rewrite Hser.
  - unfold prove_raw_with_nonces, prove_raw_values_with_nonces, negate_blinding, scratch_new.
    rewrite checked_sub_ok by (rewrite max_provable; lia). cbn [ok_or rbind].
    destruct Hoff as (Hl & _ & Hlt). unfold scalar_from_bytes, scalar_from_repr.
    rewrite Hl, (proj2 (Z.ltb_lt _ _) Hlt). cbn [Z.eqb Pos.eqb ok_or rbind].
    unfold scalar_neg. fold b'. by rewrite (wl_scratch Hlib), Hpr.
  - unfold verify_pair, backend. rewrite (wl_context Hlib), (wl_generators Hlib). cbn [negb rbind].
    rewrite Hh. cbn [rbind].
    rewrite (proj2 (from_compressed_bytes_Ok _ {| commit_bytes := sec1_encode P |})); cbn [rbind].
    2:{ split_and!; [done|by apply sec1_encode_len|]. exists P. by apply decodes_encode. }
    rewrite derive_complement_total; [|rewrite max_provable; lia|done|done]. cbn [rbind commit_bytes].
    rewrite (sec1_to_zkp_encode P HP0). cbn [rbind]. rewrite (sec1_to_zkp_encode _ HM0). cbn [rbind].
    destruct (wl_parse Hlib P HP0) as [_ [c1 Hc1]]. destruct (wl_parse Hlib _ HM0) as [_ [c2 Hc2]].
    assert (Hcs : parse_commits [zkp_encode P; zkp_encode (MAX_PROVABLE_VALUE * gen_H - P)] = Some [c1; c2]).
    { cbn [parse_commits]. by rewrite Hc1, Hc2. }
    unfold verify_raw, scratch_new. rewrite Hcs, (wl_scratch Hlib). cbn [rbind].
    by rewrite (Hver [c1; c2] Hcs).
Qed.

Lemma commit_total v b :
  bf_ok b → v * gen_H + be_val (bf_bytes b) * gen_G ≠ pt_zero →
  commit v b = Ok {| commit_bytes := sec1_encode (v * gen_H + be_val (bf_bytes b) * gen_G) |}.
Proof. intros Hb HP0. by apply commit_Ok. Qed.

Lemma prove_bytes_total v b rewind private :
  provable v b →
  ∃ c proof, commit v b = Ok c ∧ opens c (v, be_val (bf_bytes b)) ∧
    range_proof_prove_bytes v b rewind private = Ok (proof, commit_bytes c) ∧
    zlen proof = RANGE_PROOF_SIZE ∧ bytes_ok proof ∧
    range_proof_verify (commit_bytes c) proof = Ok true.
Proof.
  intros Hp. destruct (prove_pair v b rewind private [] Hp) as (h & proof & Hh & Hc & Hr & Hl & Hb & Hpts & Hv).
  destruct Hp as [Hva Hbf HP0 HC0]. eexists _, proof.
  split; [by apply commit_total|]. cbn [commit_bytes]. split; [by apply decodes_encode|].
  split_and!; try done.
  - unfold range_proof_prove_bytes, bp_prove, backend.
    rewrite (proj2 (Z.ltb_ge _ _) (proj2 Hva)), (wl_context Hlib), (wl_generators Hlib). cbn [negb rbind].
    rewrite Hh. cbn [rbind]. rewrite Hc. cbn [rbind]. rewrite zkp_to_sec1_encode by done. cbn [rbind].
    by rewrite Hr.
  - unfold range_proof_verify, bp_verify, range_proof_length_is_canonical. by rewrite Hl, Hpts.
Qed.

Lemma prove_bytes_with_extra_total v b extra rewind private :
  provable v b → 0 < zlen extra →
  ∃ c proof, commit v b = Ok c ∧ opens c (v, be_val (bf_bytes b)) ∧
    range_proof_prove_bytes_with_extra_commit v b extra rewind private = Ok (proof, commit_bytes c) ∧
    zlen proof = RANGE_PROOF_SIZE ∧ bytes_ok proof ∧
    range_proof_verify_with_extra_commit (commit_bytes c) proof extra = Ok true.
Proof.
  intros Hp He. destruct (prove_pair v b rewind private extra Hp) as (h & proof & Hh & Hc & Hr & Hl & Hb & _ & Hv).
  destruct Hp as [Hva Hbf HP0 HC0]. eexists _, proof.
  assert (Hne : (zlen extra =? 0)%Z = false) by (apply Z.eqb_neq; lia).
  split; [by apply commit_total|]. cbn [commit_bytes]. split; [by apply decodes_encode|].
  split_and!; try done.
  - unfold range_proof_prove_bytes_with_extra_commit, bp_prove_with_extra_commit, backend.
    rewrite (proj2 (Z.ltb_ge _ _) (proj2 Hva)), Hne, (wl_context Hlib), (wl_generators Hlib). cbn [negb rbind].
    rewrite Hh. cbn [rbind]. rewrite Hc. cbn [rbind]. rewrite zkp_to_sec1_encode by done. cbn [rbind].
    by rewrite Hr.
  - unfold range_proof_verify_with_extra_commit, bp_verify_with_extra_commit, range_proof_length_is_canonical.
    by rewrite Hne, Hl.
Qed.

(** Range proofs are complete: with a working library, proving a value within the
    bound gives a proof of the canonical size together with the Pedersen commitment of the
    value and the blinding, and the verifier accepts the pair; the same with bytes bound into
    the transcript, for those bytes. *)
Theorem range_proof_complete v b extra rewind private :
  provable v b → 0 < zlen extra →
  ∃ c proof proof', commit v b = Ok c ∧
    range_proof_prove_bytes v b rewind private = Ok (proof, commit_bytes c) ∧
    range_proof_verify (commit_bytes c) proof = Ok true ∧
    range_proof_prove_bytes_with_extra_commit v b extra rewind private = Ok (proof', commit_bytes c) ∧
    range_proof_verify_with_extra_commit (commit_bytes c) proof' extra = Ok true.
Proof.
  intros Hp He. destruct (prove_bytes_total v b rewind private Hp) as (c & proof & Hc & _ & Hpr & _ & _ & Hv).
  destruct (prove_bytes_with_extra_total v b extra rewind private Hp He) as (c' & proof' & Hc' & _ & Hpr' & _ & _ & Hv').
  assert (c' = c) as -> by congruence. by exists c, proof, proof'.
Qed.
End complete.

(** ** A concrete library *)

Definition sample_prover : ZkpProver := {|
  pedersen_commit b v _ := Some (sample_zkp (sample_point v (be_val b)));
  pedersen_commitment_serialize c := c;
  pedersen_commitment_error _ := None;
  bulletproof_prove vs bs _ _ _ _ :=
    match vs, bs with
    | [v; v'], [b; b'] => Some (sample_proof_of v (be_val b) v' (be_val b'))
    | _, _ => None
    end;
|}.

Lemma sample_proof_openings v r v' r' :
  0 ≤ v < 2 ^ 256 → 0 ≤ r < 2 ^ 256 → 0 ≤ v' < 2 ^ 256 → 0 ≤ r' < 2 ^ 256 →
  sample_openings (sample_proof_of v r v' r') = [(v, r); (v', r')].
Proof.
  intros Hv Hr Hv' Hr'. unfold sample_openings, sample_proof_of.
  assert (Hf : zlen sample_frame = 193) by (vm_compute; reflexivity).
  assert (Hz : ∀ x, zlen (be_bytes 32 x) = 32) by (intros; apply zlen_be_bytes).
  assert (Hval : ∀ x, 0 ≤ x < 2 ^ 256 → be_val (be_bytes 32 x) = x)
    by (intros; apply be_val_be_bytes; unfold in_width; done).
  assert (Hs : ∀ x r', slice (be_bytes 32 x ++ r') 0 32 = be_bytes 32 x) by (intros; apply slice_here, Hz).
  repeat (rewrite slice_skip by (rewrite ?Hf, ?Hz; lia); rewrite ?Hf, ?Hz;
    cbn [Z.sub Z.add Z.opp Z.pos_sub Pos.pred_double Z.succ_double Z.pred_double Z.double]; rewrite ?Hs).
  rewrite !Hval by done. done.
Qed.

Lemma sample_proof_shape v r v' r' :
  zlen (sample_proof_of v r v' r') = SINGLE_BULLETPROOF_SIZE ∧
  bytes_ok (sample_proof_of v r v' r') ∧
  proof_has_valid_curve_points (HC := sample_curve) (sample_proof_of v r v' r') = true.
Proof.
  assert (Hf : zlen sample_frame = 193) by (vm_compute; reflexivity).
  assert (Hl : zlen (sample_proof_of v r v' r') = SINGLE_BULLETPROOF_SIZE).
  { unfold sample_proof_of. rewrite !zlen_app, !zlen_be_bytes, Hf, zlen_replicate. done. }
  split; [done|]. split.
  - unfold sample_proof_of. rewrite !bytes_ok_app.
    split_and!; try apply be_bytes_ok; refine (bool_decide_unpack _ _); vm_compute; exact I.
  - unfold proof_has_valid_curve_points. rewrite Hl.
    assert (Hp : ∀ i, 0 ≤ i ≤ 3 → proof_point_ok (HC := sample_curve) (sample_proof_of v r v' r') i
                                 = proof_point_ok (HC := sample_curve) sample_frame i).
    { intros i Hi. unfold proof_point_ok, sample_proof_of. rewrite slice_app_l by lia.
      rewrite app_nth1; [done|]. unfold zlen in Hf. lia. }
    cbn [forallb]. rewrite !Hp by lia. vm_compute. reflexivity.
Qed.

Lemma sample_square P Q prefix :
  P ≠ pt_zero (Secp256k1 := sample_curve) →
  sec1_decode (Secp256k1 := sample_curve) (prefix :: drop 1 (sec1_encode P)) = Some Q → Q = P.
Proof.
  intros HP0 H. destruct (residue_decode_encode P HP0) as [_ HP].
  cbn [sec1_decode sec1_encode sample_curve] in *. cbn [residue_decode] in H.
  destruct (residue_encode P) as [|t x]; [done|]. cbn [residue_decode] in HP.
  change (drop 1 (t :: x)) with (drop 0 x) in H. rewrite drop_0 in H. congruence.
Qed.

Lemma sample_working :
  working_library (HC := sample_curve) (HH := sample_h) (HZ := sample_zkp_backend) (HP := sample_prover).
Proof.
  split.
  1-3: reflexivity.
  - eexists. reflexivity.
  - intros v b h _ _ _ _. eexists. split; [reflexivity|].
    cbn [pedersen_commitment_serialize sample_prover]. rewrite sample_point_eq. done.
  - intros P HP0. split; [reflexivity|by eexists].
  - intros P Q prefix HP0 HQ _. by eapply sample_square.
  - intros v v' b b' h rewind private extra _ Hv Hv' (_ & Hb & Hlb) (_ & Hb' & Hlb') Ps.
    pose proof order_range. pose proof (be_val_bound b Hb). pose proof (be_val_bound b' Hb').
    eexists. split; [reflexivity|]. destruct (sample_proof_shape v (be_val b) v' (be_val b')) as (Hl & Hok & Hpt).
    split_and!; try done. intros cis Hc.
    assert (cis = zkp_encode (HZ := sample_zkp_backend) <$> Ps) as ->.
    { cbn in Hc. by injection Hc as <-. }
    cbn [bulletproof_verify sample_zkp_backend]. rewrite sample_proof_openings by lia.
    unfold Ps, opening_ok. cbn [fmap list_fmap fst snd]. rewrite !sample_point_eq.
    rewrite !andb_true_iff, !bool_decide_eq_true, !Z.leb_le, !Z.ltb_lt. repeat split; lia.
Qed.

Lemma sample_provable v k :
  (0 <=? v) && (v <=? MAX_PROVABLE_VALUE) && (0 <? k) && (k <? order)
  && negb (proj1_sig (sample_point v k) =? 0) && negb (proj1_sig (sample_point (MAX_PROVABLE_VALUE - v) (- k)) =? 0) = true →
  provable (HC := sample_curve) (HH := sample_h) v (sample_bf k).
Proof.
  rewrite !andb_true_iff, !negb_true_iff, !Z.ltb_lt, !Z.leb_le, !Z.eqb_neq. intros (((([? ?] & ?) & ?) & Hp) & Hq).
  assert (Hb : bf_ok (sample_bf k)) by (apply sample_bf_ok, andb_true_iff; split; by apply Z.ltb_lt).
  assert (Hv : be_val (bf_bytes (sample_bf k)) = k) by (apply (scalar_repr_ok k); lia).
  split; [lia|done|..]; rewrite Hv; intros He.
  - rewrite <- sample_point_eq in He. apply Hp. by rewrite He.
  - apply Hq. rewrite sample_point_eq. replace (pt_mul (- k) gen_G) with (pt_opp (pt_mul k (gen_G (Secp256k1 := sample_curve))))
      by module_solve. by rewrite He.
Qed.

Lemma range_proof_complete_witness :
  ∃ c proof, commit (HC := sample_curve) 1000 {| bf_bytes := be_bytes 32 5 |} = Ok c ∧
    range_proof_verify (HC := sample_curve) (HZ := sample_zkp_backend) (commit_bytes c) proof = Ok true.
Proof.
  destruct (range_proof_complete (HP := sample_prover) sample_working 1000 {| bf_bytes := be_bytes 32 5 |}
    [7] (be_bytes 32 8) (be_bytes 32 9)) as (c & proof & _ & Hc & _ & Hv & _); 
    [|reflexivity|exists c, proof; exact (conj Hc Hv)].
  apply sample_provable. vm_compute. reflexivity.
Defined.
