(* ===== verification/Recovery.v ===== *)
(** * Recovery of outputs from the seed

    [dom-crypto/src/recovery.rs]: the encrypted metadata an output carries so that its owner finds
    it again from the wallet seed.  HKDF-SHA256 and ChaCha20-Poly1305 come from libraries and are
    the parameter [RecoveryCrypto]. *)

From Stdlib Require Import ZArith Lia Btauto.
From stdpp Require Import base list strings.
From S2P Require Import Prelude CoreError Core CryptoHash Curve Keys Pedersen RangeProof.
Local Open Scope string_scope.
Local Open Scope list_scope.
Local Open Scope Z_scope.

Definition RECOVERY_METADATA_VERSION : Z := 1.
Definition RECOVERY_NONCE_SIZE : Z := 12.

Definition TAG_RECOVERY_ROOT : bytes := str_bytes "DOM:wallet-v3:recovery-root".
Definition TAG_RECOVERY_DETECTION : bytes := str_bytes "DOM:wallet-v3:recovery-detection".
Definition TAG_RECOVERY_AEAD : bytes := str_bytes "DOM:wallet-v3:recovery-aead".
Definition TAG_OUTPUT_BLINDING : bytes := str_bytes "DOM:wallet-v3:output-blinding".
Definition TAG_COINBASE_OUTPUT : bytes := str_bytes "DOM:wallet-v3:coinbase-output".
Definition TAG_CHANGE_OUTPUT : bytes := str_bytes "DOM:wallet-v3:change-output".
Definition TAG_RECEIVED_OUTPUT : bytes := str_bytes "DOM:wallet-v3:received-output".
Definition TAG_SELF_TRANSFER_OUTPUT : bytes := str_bytes "DOM:wallet-v3:self-transfer-output".
Definition TAG_RECOVERY_AAD : bytes := str_bytes "DOM:wallet-v3:recovery-aad:v1".

(** ** The libraries *)

(** [Hkdf::<Sha256>::new(Some(salt), ikm).expand(info, &mut [0; 32])] (fails only for outputs
    beyond 255 blocks), and encryption and decryption with key, nonce, associated data and
    message.  Decryption accepts a ciphertext exactly when it is the encryption of the plaintext
    it returns: the stream and the tag are functions of the key, the nonce and the inputs. *)
Class RecoveryCrypto : Type := {
  hkdf_expand32 : bytes → bytes → bytes → option bytes;
  aead_encrypt : bytes → bytes → bytes → bytes → option bytes;
  aead_decrypt : bytes → bytes → bytes → bytes → option bytes;
  hkdf_expand32_ok salt ikm info :
    ∃ out, hkdf_expand32 salt ikm info = Some out ∧ zlen out = 32 ∧ bytes_ok out;
  aead_encrypt_ok key nonce aad msg :
    zlen key = 32 → zlen nonce = 12 → bytes_ok msg → zlen msg = 64 →
    ∃ c, aead_encrypt key nonce aad msg = Some c ∧ zlen c = zlen msg + 16 ∧ bytes_ok c;
  aead_exact key nonce aad msg c :
    zlen key = 32 → zlen nonce = 12 → bytes_ok c → zlen c = 80 →
    aead_decrypt key nonce aad c = Some msg ↔
    bytes_ok msg ∧ zlen msg = 64 ∧ aead_encrypt key nonce aad msg = Some c;
}.

(** ** Contexts and roles *)

Inductive PublicOutputKind : Type := Kind_Regular | Kind_Coinbase.
Definition kind_byte (k : PublicOutputKind) : Z := match k with Kind_Regular => 0 | Kind_Coinbase => 1 end.
Definition kind_try_from (value : Z) : Result PublicOutputKind :=
  if value =? 0 then Ok Kind_Regular
  else if value =? 1 then Ok Kind_Coinbase
  else Err (Malformed ("unsupported public output kind " +:+ dec value)).

Inductive OutputRecoveryDomain : Type := Received | Change | Coinbase | SelfTransfer.
#[export] Instance PublicOutputKind_eq_dec : EqDecision PublicOutputKind.
Proof. solve_decision. Defined.
#[export] Instance OutputRecoveryDomain_eq_dec : EqDecision OutputRecoveryDomain.
Proof. solve_decision. Defined.

Definition domain_byte (d : OutputRecoveryDomain) : Z :=
  match d with Received => 0 | Change => 1 | Coinbase => 2 | SelfTransfer => 3 end.
Definition public_kind (d : OutputRecoveryDomain) : PublicOutputKind :=
  match d with Coinbase => Kind_Coinbase | Received | Change | SelfTransfer => Kind_Regular end.
Definition derivation_tag (d : OutputRecoveryDomain) : bytes :=
  match d with
  | Received => TAG_RECEIVED_OUTPUT
  | Change => TAG_CHANGE_OUTPUT
  | Coinbase => TAG_COINBASE_OUTPUT
  | SelfTransfer => TAG_SELF_TRANSFER_OUTPUT
  end.
Definition domain_try_from (value : Z) : Result OutputRecoveryDomain :=
  if value =? 0 then Ok Received
  else if value =? 1 then Ok Change
  else if value =? 2 then Ok Coinbase
  else if value =? 3 then Ok SelfTransfer
  else Err (Malformed ("unsupported recovery output domain " +:+ dec value)).

Record RecoveryChainContext : Type := { rc_network_magic : Z; rc_chain_id : bytes }.
Definition context_bytes (c : RecoveryChainContext) : bytes := le_bytes 4 (rc_network_magic c) ++ rc_chain_id c.

Record RecoveryRoot : Type := { root_bytes : bytes }.

Record RecoveredOutput : Type := {
  ro_value : Z;
  ro_account : Z;
  ro_derivation_index : Z;
  ro_domain : OutputRecoveryDomain;
  ro_blinding : BlindingFactor;
}.

Section recovery.
Context `{HR : RecoveryCrypto} `{HC : Secp256k1}.

Definition derive_recovery_root (seed : bytes) (chain : RecoveryChainContext) : Result RecoveryRoot :=
  if zlen seed =? 0 then Err (Invalid "wallet seed must not be empty")
  else
    let? root := ok_or (hkdf_expand32 (context_bytes chain) seed TAG_RECOVERY_ROOT)
                   (Internal "recovery root HKDF expansion failed") in
    Ok {| root_bytes := root |}.

Definition expand_root (root : RecoveryRoot) (chain : RecoveryChainContext) (tag : bytes) : Result bytes :=
  ok_or (hkdf_expand32 (context_bytes chain) (root_bytes root) tag)
    (Internal "recovery subkey HKDF expansion failed").

Definition output_aead_key (root : RecoveryRoot) (chain : RecoveryChainContext) (commitment : bytes)
  : Result bytes :=
  let? detection := expand_root root chain TAG_RECOVERY_DETECTION in
  let? aead := expand_root root chain TAG_RECOVERY_AEAD in
  ok_or (hkdf_expand32 commitment (detection ++ aead) TAG_RECOVERY_AEAD)
    (Internal "per-output AEAD HKDF expansion failed").

Definition output_blinding_mask (root : RecoveryRoot) (chain : RecoveryChainContext) (commitment : bytes)
    (domain : OutputRecoveryDomain) : Result bytes :=
  let? blinding_root := expand_root root chain TAG_OUTPUT_BLINDING in
  ok_or (hkdf_expand32 commitment blinding_root (TAG_OUTPUT_BLINDING ++ derivation_tag domain))
    (Internal "output blinding HKDF expansion failed").

Definition associated_data (chain : RecoveryChainContext) (commitment : bytes) (range_proof_version : Z)
    (output_kind : PublicOutputKind) : bytes :=
  TAG_RECOVERY_AAD ++ le_bytes 2 RECOVERY_VERSION ++ le_bytes 4 (rc_network_magic chain)
  ++ rc_chain_id chain ++ commitment ++ [range_proof_version] ++ [kind_byte output_kind]
  ++ le_bytes 2 RECOVERY_CIPHERTEXT_SIZE.

Definition encode_metadata (root : RecoveryRoot) (chain : RecoveryChainContext) (commitment : bytes)
    (value account derivation_index : Z) (domain : OutputRecoveryDomain) (blinding : BlindingFactor)
  : Result bytes :=
  if MAX_PROVABLE_VALUE <? value then
    Err (Invalid ("recovery value " +:+ dec value +:+ " exceeds MAX_PROVABLE_VALUE "
                  +:+ dec MAX_PROVABLE_VALUE))
  else
    let? mask := output_blinding_mask root chain commitment domain in
    Ok (le_bytes 2 RECOVERY_METADATA_VERSION ++ le_bytes 8 value ++ le_bytes 4 account
        ++ le_bytes 8 derivation_index ++ [domain_byte domain]
        ++ [if bool_decide (domain = Coinbase) then 1 else 0]
        ++ zip_with Z.lxor (bf_bytes blinding) mask ++ replicate 8 0).

(** [create_recovery_capsule] draws [nonce_bytes] from the thread's generator. *)
Definition create_recovery_capsule_with_nonce (root : RecoveryRoot) (chain : RecoveryChainContext)
    (commitment : bytes) (range_proof_version value account derivation_index : Z)
    (domain : OutputRecoveryDomain) (blinding : BlindingFactor) (nonce_bytes : bytes)
  : Result RecoveryCapsule :=
  let? key := output_aead_key root chain commitment in
  let? plaintext := encode_metadata root chain commitment value account derivation_index domain blinding in
  let aad := associated_data chain commitment range_proof_version (public_kind domain) in
  let? ciphertext := ok_or (aead_encrypt key nonce_bytes aad plaintext)
                       (Internal "recovery capsule encryption failed") in
  if negb (zlen ciphertext =? RECOVERY_CIPHERTEXT_SIZE) then
    Err (Internal "recovery AEAD returned a noncanonical ciphertext length")
  else Ok {| capsule_bytes := le_bytes 2 RECOVERY_VERSION ++ nonce_bytes
                              ++ le_bytes 2 RECOVERY_CIPHERTEXT_SIZE ++ ciphertext |}.

Definition parse_and_validate_metadata (root : RecoveryRoot) (chain : RecoveryChainContext)
    (plaintext commitment : bytes) (output_kind : PublicOutputKind) : Result RecoveredOutput :=
  if negb (zlen plaintext =? RECOVERY_PLAINTEXT_SIZE) then
    Err (Malformed "noncanonical recovery plaintext length")
  else
    let version := le_val (slice plaintext 0 2) in
    if negb (version =? RECOVERY_METADATA_VERSION) then
      Err (Malformed ("unsupported recovery metadata version " +:+ dec version))
    else if negb (Z.land (nth 23 plaintext 0) 254 =? 0)
            || negb (bool_decide (slice plaintext 56 64 = replicate 8 0)) then
      Err (Malformed "recovery metadata contains noncanonical flags or reserved bytes")
    else
      let value := le_val (slice plaintext 2 10) in
      if MAX_PROVABLE_VALUE <? value then Err (Invalid "recovered value exceeds proof range")
      else
        let account := le_val (slice plaintext 10 14) in
        let derivation_index := le_val (slice plaintext 14 22) in
        let? domain := domain_try_from (nth 22 plaintext 0) in
        let expected_coinbase := bool_decide (domain = Coinbase) in
        if negb (Bool.eqb (nth 23 plaintext 0 =? 1) expected_coinbase)
           || negb (bool_decide (public_kind domain = output_kind)) then
          Err (Invalid "recovered output domain does not match canonical output context")
        else
          let? mask := output_blinding_mask root chain commitment domain in
          let blinding_bytes := zip_with Z.lxor (slice plaintext 24 56) mask in
          let? blinding := bf_from_bytes blinding_bytes in
          let? recomputed := commit value blinding in
          if negb (bool_decide (commit_bytes recomputed = commitment)) then
            Err (Invalid "recovered value and blinding do not reconstruct commitment")
          else
            Ok {| ro_value := value; ro_account := account; ro_derivation_index := derivation_index;
                  ro_domain := domain; ro_blinding := blinding |}.

(** A failed decryption is no error: the output is not ours. *)
Definition recover_output_from_capsule (root : RecoveryRoot) (chain : RecoveryChainContext)
    (commitment : bytes) (range_proof_version : Z) (output_kind : PublicOutputKind)
    (capsule : RecoveryCapsule) : Result (option RecoveredOutput) :=
  let? key := output_aead_key root chain commitment in
  let aad := associated_data chain commitment range_proof_version output_kind in
  let nonce_bytes := slice (capsule_bytes capsule) 2 14 in
  match aead_decrypt key nonce_bytes aad (drop 16 (capsule_bytes capsule)) with
  | None => Ok None
  | Some plaintext =>
      let? r := parse_and_validate_metadata root chain plaintext commitment output_kind in
      Ok (Some r)
  end.
End recovery.
