(* ===== verification/RecoveryLaws.v ===== *)
(** * Laws of output recovery

    [Recovery.v]: a capsule yields metadata to its owner exactly when it was created from that
    metadata for the same root, chain, commitment, proof version and kind of output. *)

From Stdlib Require Import ZArith Lia Btauto.
From stdpp Require Import base list strings.
From S2P Require Import Prelude CoreError Core CryptoHash Curve Keys Pedersen RangeProof Recovery.
Local Open Scope Z_scope.

(** ** Masks *)

Lemma zip_lxor_involutive (x m : bytes) :
  length x = length m → zip_with Z.lxor (zip_with Z.lxor x m) m = x.
Proof.
  revert m. induction x as [|a x IH]; intros [|b m] Hl; try done. cbn [zip_with]. injection Hl as Hl.
  f_equal; [|by apply IH]. apply Z.bits_inj'. intros i _. rewrite !Z.lxor_spec. btauto.
Qed.

Lemma lxor_byte a b : u8_ok a → u8_ok b → u8_ok (Z.lxor a b).
Proof.
  intros Ha Hb. assert (H0 : 0 ≤ Z.lxor a b) by (apply Z.lxor_nonneg; unfold in_width in *; lia).
  split; [done|]. destruct (decide (Z.lxor a b = 0)) as [->|]; [done|].
  apply Z.log2_lt_pow2; [lia|]. eapply Z.le_lt_trans; [apply Z.log2_lxor; apply Ha || apply Hb|].
  assert (Hlog : ∀ x, u8_ok x → Z.log2 x < 8).
  { intros x [Hx0 Hx]. destruct (decide (x = 0)) as [->|]; [done|]. apply Z.log2_lt_pow2; lia. }
  apply Z.max_lub_lt; auto.
Qed.

Lemma zip_lxor_bytes x m : bytes_ok x → bytes_ok m → bytes_ok (zip_with Z.lxor x m).
Proof.
  intros Hx. revert m. induction Hx as [|a x Ha Hx IH]; intros [|b m] Hm; try constructor.
  - apply Forall_cons in Hm as [? _]. by apply lxor_byte.
  - apply Forall_cons in Hm as [_ ?]. by apply IH.
Qed.

Lemma zlen_zip_lxor (x m : bytes) : zlen x = zlen m → zlen (zip_with Z.lxor x m) = zlen x.
Proof. unfold zlen. rewrite length_zip_with. lia. Qed.

(** ** The layout of the metadata *)

Definition metadata (value account index domain flag : Z) (masked : bytes) : bytes :=
  le_bytes 2 RECOVERY_METADATA_VERSION ++ le_bytes 8 value ++ le_bytes 4 account ++ le_bytes 8 index
  ++ [domain] ++ [flag] ++ masked ++ replicate 8 0.

Lemma le_slice p a b n :
  bytes_ok p → 0 ≤ a ≤ b → b ≤ zlen p → b - a = Z.of_nat n → le_bytes n (le_val (slice p a b)) = slice p a b.
Proof.
  intros Hp Hab Hb Hn. pose proof (le_bytes_le_val (slice p a b) (slice_ok p a b Hp)) as H.
  pose proof (zlen_slice p a b Hab Hb) as Hl. unfold zlen in Hl.
  assert (Hlen : length (slice p a b) = n) by lia. by rewrite Hlen in H.
Qed.

Lemma le_slice_width p a b w :
  bytes_ok p → 0 ≤ a ≤ b → b ≤ zlen p → w = 8 * (b - a) → in_width w (le_val (slice p a b)).
Proof.
  intros Hp Hab Hb ->. pose proof (le_val_bound (slice p a b) (slice_ok p a b Hp)) as H.
  rewrite zlen_slice in H by done. unfold in_width. rewrite Z.pow_mul_r by lia. apply H.
Qed.

Lemma metadata_split p :
  bytes_ok p → zlen p = 64 → le_val (slice p 0 2) = RECOVERY_METADATA_VERSION → slice p 56 64 = replicate 8 0 →
  p = metadata (le_val (slice p 2 10)) (le_val (slice p 10 14)) (le_val (slice p 14 22))
        (nth 22 p 0) (nth 23 p 0) (slice p 24 56).
Proof.
  intros Hp Hl Hv Hz. unfold metadata. rewrite <- Hv, <- Hz.
  rewrite (le_slice p 0 2 2), (le_slice p 2 10 8), (le_slice p 10 14 4), (le_slice p 14 22 8) by (done || lia).
  change (nth 22 p 0) with (nth (Z.to_nat 22) p 0). change (nth 23 p 0) with (nth (Z.to_nat 23) p 0).
  rewrite <- !(slice_one p _ 0) by lia. change (22 + 1) with 23. change (23 + 1) with 24.
  rewrite !slice_cat by lia. by rewrite slice_full.
Qed.

Lemma metadata_parts v a i d f x :
  u64_ok v → u32_ok a → u64_ok i → zlen x = 32 →
  let p := metadata v a i d f x in
  zlen p = 64 ∧ le_val (slice p 0 2) = RECOVERY_METADATA_VERSION ∧ le_val (slice p 2 10) = v ∧
  le_val (slice p 10 14) = a ∧ le_val (slice p 14 22) = i ∧ nth 22 p 0 = d ∧ nth 23 p 0 = f ∧
  slice p 24 56 = x ∧ slice p 56 64 = replicate 8 0.
Proof.
  intros Hv Ha Hi Hx p.
  assert (Hl : zlen p = 64) by (unfold p, metadata; rewrite !zlen_app, !zlen_le_bytes, Hx; done).
  assert (E : slice p 0 2 ++ slice p 2 10 ++ slice p 10 14 ++ slice p 14 22 ++ slice p 22 23 ++ slice p 23 24
              ++ slice p 24 56 ++ slice p 56 64 = p) by (rewrite !slice_cat by lia; by apply slice_full).
  unfold p in E at 9. unfold metadata in E.
  assert (Hlen : ∀ (l l' : bytes) s e, l = slice p s e → 0 ≤ s ≤ e → e ≤ 64 → zlen l' = e - s → length l = length l').
  { intros l l' s e -> Hs He Hz. pose proof (zlen_slice p s e Hs ltac:(lia)) as H. unfold zlen in *. lia. }
  do 7 (apply app_inj_1 in E as [? E];
    [|eapply Hlen; [reflexivity|lia|lia|rewrite ?zlen_le_bytes; first [exact Hx|done]]]).
  split; [done|]. rewrite H, H0, H1, H2, H5. rewrite !le_val_le_bytes_id by done. done.
Qed.

Lemma flag_bit f : u8_ok f → Z.land f 254 = 0 → f = if f =? 1 then 1 else 0.
Proof.
  intros Hf H. pose proof (below_all (λ f, negb (Z.land f 254 =? 0) || (f =? if f =? 1 then 1 else 0)) 256 f
    ltac:(vm_compute; reflexivity) Hf) as Hc. cbn beta in Hc. rewrite H in Hc. by apply Z.eqb_eq in Hc.
Qed.

Lemma domain_try_from_Ok z d : domain_try_from z = Ok d ↔ z = domain_byte d.
Proof.
  unfold domain_try_from. split.
  - intros H. repeat match type of H with (if ?b then _ else _) = _ => destruct b eqn:E; [|clear E] end; [..|done].
    all: apply Z.eqb_eq in E as ->; by injection H as <-.
  - intros ->. by destruct d.
Qed.

Section laws.
Context `{HR : RecoveryCrypto} `{HC : Secp256k1}.

Lemma bf_from_bytes_exact b bf :
  zlen b = 32 → bytes_ok b → bf_from_bytes b = Ok bf ↔ bf = {| bf_bytes := b |} ∧ bf_ok bf.
Proof.
  intros Hl Hb. unfold bf_from_bytes, scalar_from_bytes, scalar_from_repr, bf_ok. rewrite Hl. cbn [Z.eqb Pos.eqb].
  pose proof (be_val_bound b Hb) as Hpos. destruct (Z.ltb_spec (be_val b) order) as [Hlt|Hge].
  - destruct (Z.eqb_spec (be_val b) 0) as [H0|H0].
    + split; [done|]. intros [-> (_ & _ & H)]. cbn [bf_bytes] in H. lia.
    + split; [intros [= <-]; cbn [bf_bytes]; split_and!; done || lia|by intros [-> _]].
  - split; [done|]. intros [-> (_ & _ & H)]. cbn [bf_bytes] in H. lia.
Qed.

Lemma mask_total root chain commitment domain :
  ∃ mask, output_blinding_mask root chain commitment domain = Ok mask ∧ zlen mask = 32 ∧ bytes_ok mask.
Proof.
  unfold output_blinding_mask, expand_root.
  destruct (hkdf_expand32_ok (context_bytes chain) (root_bytes root) TAG_OUTPUT_BLINDING) as (o & -> & _). cbn [ok_or rbind].
  destruct (hkdf_expand32_ok commitment o (TAG_OUTPUT_BLINDING ++ derivation_tag domain)) as (m & -> & ? & ?).
  by exists m.
Qed.

Lemma key_total root chain commitment : ∃ key, output_aead_key root chain commitment = Ok key ∧ zlen key = 32.
Proof.
  unfold output_aead_key, expand_root.
  destruct (hkdf_expand32_ok (context_bytes chain) (root_bytes root) TAG_RECOVERY_DETECTION) as (o & -> & _). cbn [ok_or rbind].
  destruct (hkdf_expand32_ok (context_bytes chain) (root_bytes root) TAG_RECOVERY_AEAD) as (o' & -> & _). cbn [ok_or rbind].
  destruct (hkdf_expand32_ok commitment (o ++ o') TAG_RECOVERY_AEAD) as (m & -> & ? & _). by exists m.
Qed.

Record recovered_ok (r : RecoveredOutput) : Prop := {
  rk_value : 0 ≤ ro_value r ≤ MAX_PROVABLE_VALUE;
  rk_account : u32_ok (ro_account r);
  rk_index : u64_ok (ro_derivation_index r);
  rk_blinding : bf_ok (ro_blinding r);
}.
Definition encode_output (root : RecoveryRoot) (chain : RecoveryChainContext) (commitment : bytes)
    (r : RecoveredOutput) : Result bytes :=
  encode_metadata root chain commitment (ro_value r) (ro_account r) (ro_derivation_index r) (ro_domain r) (ro_blinding r).

Lemma encode_output_Ok root chain commitment r p :
  recovered_ok r → encode_output root chain commitment r = Ok p ↔
  ∃ mask, output_blinding_mask root chain commitment (ro_domain r) = Ok mask ∧
    p = metadata (ro_value r) (ro_account r) (ro_derivation_index r) (domain_byte (ro_domain r))
          (if bool_decide (ro_domain r = Coinbase) then 1 else 0) (zip_with Z.lxor (bf_bytes (ro_blinding r)) mask).
Proof.
  intros [[_ Hv] _ _ _]. unfold encode_output, encode_metadata.
  destruct (Z.ltb_spec MAX_PROVABLE_VALUE (ro_value r)); [lia|]. rewrite rbind_Ok. unfold metadata. naive_solver.
Qed.

(** Parsing the plaintext inverts encoding it, and accepts nothing else. *)
Lemma metadata_exact root chain commitment kind p r :
  bytes_ok p → zlen p = 64 →
  parse_and_validate_metadata root chain p commitment kind = Ok r ↔
  recovered_ok r ∧ public_kind (ro_domain r) = kind ∧
  commit (ro_value r) (ro_blinding r) = Ok {| commit_bytes := commitment |} ∧
  encode_output root chain commitment r = Ok p.
Proof.
  intros Hp Hl. unfold parse_and_validate_metadata. rewrite Hl. cbn [negb Z.eqb Pos.eqb RECOVERY_PLAINTEXT_SIZE]. split.
  - intros H. res_inv. bool_inv. rename a into d, a0 into mask, a1 into bf, a2 into c.
    destruct (mask_total root chain commitment d) as (mask' & Hmask & Hml & Hmb).
    assert (mask' = mask) as -> by congruence. repeat match goal with H : bool_decide _ = true |- _ => apply bool_decide_eq_true in H end.
    assert (Hx : zlen (slice p 24 56) = 32) by (rewrite zlen_slice; lia).
    assert (Hxl : length (slice p 24 56) = length mask) by (unfold zlen in *; lia).
    apply bf_from_bytes_exact in Hm1 as [-> Hbf]; [|rewrite zlen_zip_lxor; lia|apply zip_lxor_bytes; [by apply slice_ok|done]].
    apply domain_try_from_Ok in Hm. assert (Hok : recovered_ok {| ro_value := le_val (slice p 2 10);
      ro_account := le_val (slice p 10 14); ro_derivation_index := le_val (slice p 14 22); ro_domain := d;
      ro_blinding := {| bf_bytes := zip_with Z.lxor (slice p 24 56) mask |} |}).
    { split; cbn [ro_value ro_account ro_derivation_index ro_blinding]; [|apply le_slice_width; done || lia..|done].
      split; [|done]. apply (le_slice_width p 2 10 64); done || lia. }
    split_and!; [done|done|cbn [ro_value ro_blinding]; rewrite Hm2; destruct c; cbn in *; by subst|].
    apply encode_output_Ok; [done|]. exists mask. cbn [ro_value ro_account ro_derivation_index ro_domain ro_blinding bf_bytes].
    split; [done|]. rewrite zip_lxor_involutive by done. rewrite (metadata_split p) at 1 by done. rewrite <- Hm. f_equal.
    assert (Hf : u8_ok (nth 23 p 0)) by (apply Forall_nth; [done|unfold zlen in Hl; lia]).
    rewrite (flag_bit _ Hf) by done. match goal with H : eqb _ _ = true |- _ => apply eqb_prop in H; rewrite H end.
    by destruct (bool_decide (d = Coinbase)).
  - intros (Hok & Hk & Hc & He). pose proof He as (mask & Hmask & ->)%encode_output_Ok; [|done].
    destruct Hok as [Hv Ha Hi Hb]. destruct (mask_total root chain commitment (ro_domain r)) as (mask' & Hmask' & Hml & Hmb).
    assert (mask' = mask) as -> by congruence. pose proof Hb as (Hbl & Hbb & _).
    destruct (metadata_parts (ro_value r) (ro_account r) (ro_derivation_index r) (domain_byte (ro_domain r))
      (if bool_decide (ro_domain r = Coinbase) then 1 else 0) (zip_with Z.lxor (bf_bytes (ro_blinding r)) mask))
      as (_ & E0 & E1 & E2 & E3 & E4 & E5 & E6 & E7);
      [change MAX_PROVABLE_VALUE with (2 ^ 52 - 1) in Hv; unfold in_width; lia|done|done|rewrite zlen_zip_lxor; lia|].
    rewrite E0, E1, E2, E3, E4, E5, E6, E7, Z.eqb_refl. cbn [negb]. rewrite (bool_decide_eq_true_2 _ eq_refl).
    destruct (Z.ltb_spec MAX_PROVABLE_VALUE (ro_value r)); [lia|].
    rewrite (proj2 (domain_try_from_Ok _ (ro_domain r)) eq_refl). cbn [rbind]. rewrite Hk, (bool_decide_eq_true_2 _ eq_refl).
    assert (Hz : length (bf_bytes (ro_blinding r)) = length mask) by (unfold zlen in *; lia).
    rewrite Hmask. cbn [rbind]. rewrite zip_lxor_involutive by done.
    rewrite (proj2 (bf_from_bytes_exact _ (ro_blinding r) Hbl Hbb)) by (split; [by destruct (ro_blinding r)|done]). cbn [rbind].
    rewrite Hc. cbn [rbind commit_bytes]. rewrite (bool_decide_eq_true_2 _ eq_refl).
    destruct (bool_decide (ro_domain r = Coinbase)); by destruct r.
Qed.

(** ** Capsules *)

Definition array_bytes (n : Z) (b : bytes) : Prop := zlen b = n ∧ bytes_ok b.

Definition create_for (root : RecoveryRoot) (chain : RecoveryChainContext) (commitment : bytes) (version : Z)
    (r : RecoveredOutput) (nonce : bytes) : Result RecoveryCapsule :=
  create_recovery_capsule_with_nonce root chain commitment version (ro_value r) (ro_account r)
    (ro_derivation_index r) (ro_domain r) (ro_blinding r) nonce.

Lemma encode_output_total root chain commitment r :
  recovered_ok r → ∃ p, encode_output root chain commitment r = Ok p ∧ bytes_ok p ∧ zlen p = 64.
Proof.
  intros Hok. destruct (mask_total root chain commitment (ro_domain r)) as (mask & Hmask & Hml & Hmb).
  eexists. split; [apply encode_output_Ok; [done|]; by exists mask|]. destruct Hok as [Hv Ha Hi (Hbl & Hbb & _)].
  split.
  - unfold metadata. rewrite !bytes_ok_app. repeat split; try apply le_bytes_ok.
    + by destruct (ro_domain r); repeat constructor.
    + by destruct (bool_decide _); repeat constructor.
    + by apply zip_lxor_bytes.
    + by apply bytes_ok_replicate.
  - unfold metadata. rewrite !zlen_app, !zlen_le_bytes, zlen_zip_lxor by lia. rewrite Hbl. done.
Qed.

(** Creation with known intermediate results *)
Lemma create_for_eq root chain commitment version r nonce key p c :
  output_aead_key root chain commitment = Ok key → encode_output root chain commitment r = Ok p →
  aead_encrypt key nonce (associated_data chain commitment version (public_kind (ro_domain r))) p = Some c →
  zlen c = 80 →
  create_for root chain commitment version r nonce
  = Ok {| capsule_bytes := le_bytes 2 RECOVERY_VERSION ++ nonce ++ le_bytes 2 RECOVERY_CIPHERTEXT_SIZE ++ c |}.
Proof.
  intros Hk Hp Hc Hl. unfold create_for, create_recovery_capsule_with_nonce. rewrite Hk. cbn [rbind].
  unfold encode_output in Hp. rewrite Hp. cbn [rbind]. rewrite Hc. cbn [ok_or rbind]. by rewrite Hl.
Qed.

(** A framed capsule, cut at its fields *)
Lemma capsule_frame b :
  bytes_ok b → capsule_from_bytes b = Ok {| capsule_bytes := b |} ↔
  zlen b = 96 ∧ b = le_bytes 2 RECOVERY_VERSION ++ slice b 2 14 ++ le_bytes 2 RECOVERY_CIPHERTEXT_SIZE ++ drop 16 b.
Proof.
  intros Hb. unfold capsule_from_bytes, classify_recovery_capsule_frontier. cbv zeta.
  assert (Hcut : zlen b = 96 → b = slice b 0 2 ++ slice b 2 14 ++ slice b 14 16 ++ drop 16 b).
  { intros Hl. replace (drop 16 b) with (slice b 16 96).
    - rewrite !slice_cat by lia. by rewrite slice_full.
    - unfold slice. apply take_ge. rewrite length_drop. unfold zlen in Hl. lia. }
  split.
  - intros H. destruct (Z.eqb_spec (zlen b) RECOVERY_CAPSULE_SIZE) as [Hl|]; [|done]. change RECOVERY_CAPSULE_SIZE with 96 in Hl.
    rewrite Hl in H. cbn [negb Z.leb Z.compare Pos.compare Pos.compare_cont] in H.
    destruct (Z.eqb_spec (le_val (slice b 0 2)) RECOVERY_VERSION) as [Hv|]; [|done].
    destruct (Z.eqb_spec (le_val (slice b 14 16)) RECOVERY_CIPHERTEXT_SIZE) as [Hc|]; [|done].
    split; [done|]. rewrite (Hcut Hl) at 1. rewrite <- Hv, <- Hc, !le_slice by (done || lia). done.
  - intros [Hl Heq]. pose proof (Hcut Hl) as Hc. rewrite Heq in Hc at 1.
    assert (Hs : ∀ s e, 0 ≤ s ≤ e → e ≤ 96 → length (slice b s e) = Z.to_nat (e - s)).
    { intros s e Hse He. pose proof (zlen_slice b s e Hse ltac:(lia)) as H. unfold zlen in H. lia. }
    apply app_inj_1 in Hc as [H1 Hc]; [|by rewrite length_le_bytes, Hs by lia].
    apply app_inj_1 in Hc as [_ Hc]; [|done]. apply app_inj_1 in Hc as [H2 _]; [|by rewrite length_le_bytes, Hs by lia].
    rewrite <- H1, <- H2, !le_val_le_bytes_id by done. by rewrite Hl.
Qed.

Lemma recover_iff root chain commitment version kind capsule r :
  bytes_ok (capsule_bytes capsule) → capsule_from_bytes (capsule_bytes capsule) = Ok capsule →
  recover_output_from_capsule root chain commitment version kind capsule = Ok (Some r) ↔
  recovered_ok r ∧ public_kind (ro_domain r) = kind ∧
  commit (ro_value r) (ro_blinding r) = Ok {| commit_bytes := commitment |} ∧
  create_for root chain commitment version r (slice (capsule_bytes capsule) 2 14) = Ok capsule.
Proof.
  intros Hb Hf. destruct capsule as [b]. cbn [capsule_bytes] in *. apply capsule_frame in Hf as [Hl Hfr]; [|done].
  destruct (key_total root chain commitment) as (key & Hk & Hkl).
  assert (Hn : zlen (slice b 2 14) = 12) by (rewrite zlen_slice; lia).
  assert (Hdl : zlen (drop 16 b) = 80) by (unfold zlen in *; rewrite length_drop; lia).
  assert (Hdb : bytes_ok (drop 16 b)) by by apply Forall_drop.
  unfold recover_output_from_capsule. rewrite Hk. cbn [rbind capsule_bytes]. split.
  - destruct (aead_decrypt _ _ _ _) as [p|] eqn:Hd; [|done]. intros H. res_inv.
    apply aead_exact in Hd as (Hp & Hpl & Henc); try done. apply metadata_exact in Hm as (Hok & Hkind & Hc & He); try done.
    split_and!; try done. rewrite <- Hkind in Henc.
    rewrite (create_for_eq _ _ _ _ _ _ _ _ _ Hk He Henc Hdl). by rewrite <- Hfr.
  - intros (Hok & Hkind & Hc & Hcr). destruct (encode_output_total root chain commitment r Hok) as (p & He & Hp & Hpl).
    destruct (aead_encrypt_ok key (slice b 2 14) (associated_data chain commitment version (public_kind (ro_domain r))) p)
      as (c & Henc & Hcl & Hcb); try done.
    rewrite (create_for_eq _ _ _ _ _ _ _ _ _ Hk He Henc) in Hcr by lia.
    apply (f_equal (λ x, match x with Ok k => capsule_bytes k | _ => [] end)) in Hcr. cbn [capsule_bytes] in Hcr.
    assert (Hcd : c = drop 16 b).
    { rewrite Hfr in Hcr at 2. apply app_inj_1 in Hcr as [_ Hcr]; [|done]. apply app_inj_1 in Hcr as [_ Hcr]; [|done].
      by apply app_inj_1 in Hcr as [_ ?]. }
    subst c. rewrite Hkind in Henc. rewrite (proj2 (aead_exact _ _ _ _ _ Hkl Hn Hdb Hdl) (conj Hp (conj Hpl Henc))).
    by rewrite (proj2 (metadata_exact root chain commitment kind p r Hp Hpl) (conj Hok (conj Hkind (conj Hc He)))).
Qed.

(** Creating a capsule succeeds for any nonce and frames it. *)
Lemma create_total root chain commitment version r nonce :
  recovered_ok r → array_bytes 12 nonce → commit (ro_value r) (ro_blinding r) = Ok {| commit_bytes := commitment |} →
  ∃ capsule, create_for root chain commitment version r nonce = Ok capsule ∧
    bytes_ok (capsule_bytes capsule) ∧ capsule_from_bytes (capsule_bytes capsule) = Ok capsule ∧
    slice (capsule_bytes capsule) 2 14 = nonce.
Proof.
  intros Hok [Hnl Hnb] Hc. destruct (key_total root chain commitment) as (key & Hk & Hkl).
  destruct (encode_output_total root chain commitment r Hok) as (p & He & Hp & Hpl).
  destruct (aead_encrypt_ok key nonce (associated_data chain commitment version (public_kind (ro_domain r))) p)
    as (c & Henc & Hcl & Hcb); try done.
  eexists. split; [eapply create_for_eq; [done..|lia]|]. cbn [capsule_bytes].
  set (b := le_bytes 2 RECOVERY_VERSION ++ nonce ++ le_bytes 2 RECOVERY_CIPHERTEXT_SIZE ++ c).
  assert (Hbok : bytes_ok b) by (unfold b; rewrite !bytes_ok_app; split_and!; try done; apply le_bytes_ok).
  assert (Hs : slice b 2 14 = nonce).
  { unfold b. rewrite slice_skip by (rewrite zlen_le_bytes; lia). rewrite zlen_le_bytes. by apply slice_here. }
  split_and!; [done| |done]. apply capsule_frame; [done|]. split.
  - unfold b. rewrite !zlen_app, !zlen_le_bytes, Hnl, Hcl, Hpl. done.
  - rewrite Hs. unfold b at 1. do 3 f_equal. unfold b. rewrite !app_assoc. rewrite drop_app_length'; [done|].
    rewrite !length_app, !length_le_bytes. unfold zlen in Hnl. lia.
Qed.

Lemma recovery_roundtrip root chain commitment version r nonce :
  recovered_ok r → array_bytes 12 nonce → commit (ro_value r) (ro_blinding r) = Ok {| commit_bytes := commitment |} →
  ∃ capsule, create_for root chain commitment version r nonce = Ok capsule ∧
    bytes_ok (capsule_bytes capsule) ∧ capsule_from_bytes (capsule_bytes capsule) = Ok capsule ∧
    recover_output_from_capsule root chain commitment version (public_kind (ro_domain r)) capsule = Ok (Some r).
Proof.
  intros Hok Hn Hc. destruct (create_total root chain commitment version r nonce Hok Hn Hc) as (capsule & Hcr & Hb & Hf & Hs).
  exists capsule. split_and!; try done. apply recover_iff; try done. by rewrite Hs.
Qed.

(** C39: recovery is exact: from an output's capsule the wallet obtains metadata [r] precisely when
    [r] is in range, its role fits the kind of output, its value and blinding open the output's
    commitment, and the capsule is the one created from [r] under the wallet's root for that
    chain, commitment and proof version.  For every [r] that opens the commitment and every nonce,
    creation succeeds and its capsule gives [r] back. *)
Theorem recovery_exact root chain commitment version kind capsule r nonce :
  bytes_ok (capsule_bytes capsule) → capsule_from_bytes (capsule_bytes capsule) = Ok capsule → array_bytes 12 nonce →
  (recover_output_from_capsule root chain commitment version kind capsule = Ok (Some r) ↔
    recovered_ok r ∧ public_kind (ro_domain r) = kind ∧
    commit (ro_value r) (ro_blinding r) = Ok {| commit_bytes := commitment |} ∧
    create_for root chain commitment version r (slice (capsule_bytes capsule) 2 14) = Ok capsule) ∧
  (recovered_ok r → commit (ro_value r) (ro_blinding r) = Ok {| commit_bytes := commitment |} →
    ∃ c, create_for root chain commitment version r nonce = Ok c ∧
      recover_output_from_capsule root chain commitment version (public_kind (ro_domain r)) c = Ok (Some r)).
Proof.
  intros Hb Hf Hn. split; [by apply recover_iff|]. intros Hok Hc.
  destruct (recovery_roundtrip root chain commitment version r nonce Hok Hn Hc) as (c & Hcr & _ & _ & Hr). by exists c.
Qed.
End laws.

(** ** A concrete library

    The plaintext in the clear behind a tag that sums the key, the nonce and the associated data. *)

Definition sample_tag (key nonce aad : bytes) : bytes := replicate 16 (zsum (key ++ nonce ++ aad) mod 256).

#[export, refine] Instance sample_recovery : RecoveryCrypto := {|
  hkdf_expand32 salt ikm info := Some (replicate 32 (zsum (salt ++ ikm ++ info) mod 256));
  aead_encrypt key nonce aad msg := Some (msg ++ sample_tag key nonce aad);
  aead_decrypt key nonce aad c :=
    if bool_decide (drop 64 c = sample_tag key nonce aad) then Some (take 64 c) else None;
|}.
Proof.
  - intros. eexists. split; [done|]. split; [by rewrite zlen_replicate|].
    apply bytes_ok_replicate, Z.mod_pos_bound. done.
  - intros key nonce aad msg _ _ Hm Hl. eexists. split; [done|]. split; [by rewrite zlen_app, Hl|].
    apply bytes_ok_app. split; [done|]. apply bytes_ok_replicate, Z.mod_pos_bound. done.
  - intros key nonce aad msg c _ _ Hc Hl. assert (Hlen : length c = 80%nat) by (unfold zlen in Hl; lia).
    case_bool_decide as Ht; split.
    + intros [= <-]. split; [by apply Forall_take|]. split; [unfold zlen; rewrite length_take; lia|].
      rewrite <- Ht. by rewrite take_drop.
    + intros (_ & Hml & [= <-]). f_equal. apply take_app_length'. unfold zlen in Hml. lia.
    + done.
    + intros (_ & Hml & [= <-]). destruct Ht. apply drop_app_length'. unfold zlen in Hml. lia.
Defined.

Definition sample_root : RecoveryRoot := {| root_bytes := replicate 32 9 |}.
Definition sample_chain_context : RecoveryChainContext :=
  {| rc_network_magic := NETWORK_MAGIC_REGTEST; rc_chain_id := replicate 32 7 |}.
Definition sample_recovered : RecoveredOutput := {|
  ro_value := 42; ro_account := 4; ro_derivation_index := 11; ro_domain := Change; ro_blinding := sample_bf 5 |}.

Lemma sample_recovered_ok : recovered_ok sample_recovered.
Proof. split; [done|done|done|by apply sample_bf_ok]. Qed.
Lemma sample_nonce_ok : array_bytes 12 (replicate 12 3).
Proof. split; [done|]. by apply bytes_ok_replicate. Qed.

Lemma recovery_exact_witness :
  ∃ commitment capsule,
    commit (HC := sample_curve) 42 (sample_bf 5) = Ok {| commit_bytes := commitment |} ∧
    recover_output_from_capsule (HC := sample_curve) sample_root sample_chain_context commitment 1
      Kind_Regular capsule = Ok (Some sample_recovered).
Proof.
  exists (commit_bytes (sample_commitment 42 5)).
  assert (Hc : commit (HC := sample_curve) 42 (sample_bf 5) = Ok {| commit_bytes := commit_bytes (sample_commitment 42 5) |})
    by (vm_compute; reflexivity).
  pose proof sample_recovered_ok as Hok.
  destruct (create_total (HC := sample_curve) sample_root sample_chain_context
    (commit_bytes (sample_commitment 42 5)) 1 sample_recovered (replicate 12 3) Hok sample_nonce_ok Hc)
    as (capsule & Hcr & Hb & Hf & Hs).
  exists capsule. split; [exact Hc|].
  apply (proj2 (proj1 (recovery_exact (HC := sample_curve) sample_root sample_chain_context
    (commit_bytes (sample_commitment 42 5)) 1 Kind_Regular capsule sample_recovered (replicate 12 3) Hb Hf sample_nonce_ok))).
  rewrite Hs. exact (conj Hok (conj eq_refl (conj Hc Hcr))).
Defined.
