(* ===== verification/Transaction.v ===== *)
(** * Transactions ([crates/dom-consensus/src/transaction.rs])

    Inputs, outputs, kernels, transactions and coinbase transactions, their wire
    format, and the structural, signature, range-proof and balance checks.  The laws
    are in [TransactionLaws.v]. *)

From Stdlib Require Import ZArith Lia.
From stdpp Require Import base list strings.
From S2P Require Import Prelude CoreError Core FeePolicy Serialization.
From S2P Require Import CryptoHash Curve Keys Pedersen Schnorr RangeProof.

(** ** Kernel features and lock heights *)

Definition is_known_kernel_features (features : Z) : bool :=
  (features =? KERNEL_FEAT_PLAIN) || (features =? KERNEL_FEAT_COINBASE)
  || (features =? KERNEL_FEAT_HEIGHT_LOCKED).

Definition validate_kernel_features (features : Z) : Result unit :=
  if is_known_kernel_features features then Ok tt
  else Err (Invalid ("unknown kernel features 0x" +:+ hex_byte features)).

Inductive KernelLockClassification : Type :=
| LockCanonical
| HeightLockedAtZero
| NonHeightLockedAtNonzero.

Definition classify_kernel_lock_fields (features lock_height : Z) : KernelLockClassification :=
  if (features =? KERNEL_FEAT_HEIGHT_LOCKED) && (lock_height =? 0) then HeightLockedAtZero
  else if negb (features =? KERNEL_FEAT_HEIGHT_LOCKED) && negb (lock_height =? 0) then
    NonHeightLockedAtNonzero
  else LockCanonical.

(** ** Coinbase value *)

Inductive CoinbaseValueClassification : Type :=
| CoinbaseAccept
| RewardFeeOverflow
| ExpectedAboveMaximum
| ExplicitAboveMaximum
| ValueMismatch.

Definition classify_coinbase_value
    (reward total_tx_fees explicit_value maximum_provable_value : Z)
  : CoinbaseValueClassification :=
  match checked_add 64 reward total_tx_fees with
  | None => RewardFeeOverflow
  | Some expected =>
      if maximum_provable_value <? expected then ExpectedAboveMaximum
      else if maximum_provable_value <? explicit_value then ExplicitAboveMaximum
      else if negb (explicit_value =? expected) then ValueMismatch
      else CoinbaseAccept
  end.

(** ** Data *)

Record TransactionInput : Type := { in_commitment : Commitment }.

Record TransactionOutput : Type := {
  out_commitment : Commitment;
  proof : bytes;
}.

Record TransactionKernel : Type := {
  features : Z;
  fee : Amount;
  lock_height : Z;
  excess : Commitment;
  excess_signature : bytes;
}.

Record CoinbaseKernel : Type := {
  cb_features : Z;
  explicit_value : Z;
  cb_excess : Commitment;
  cb_excess_signature : bytes;
}.

Record Transaction : Type := {
  inputs : list TransactionInput;
  outputs : list TransactionOutput;
  kernels : list TransactionKernel;
  offset : bytes;
}.

Record CoinbaseTransaction : Type := {
  output : TransactionOutput;
  kernel : CoinbaseKernel;
  cb_offset : bytes;
}.

(** ** Output proof envelopes *)

Definition with_recovery_capsule (commitment : Commitment) (range_proof : bytes)
    (capsule : RecoveryCapsule) : Result TransactionOutput :=
  if negb (zlen range_proof =? RANGE_PROOF_SIZE) then
    Err (Invalid ("range proof length " +:+ dec (zlen range_proof) +:+ " != "
                  +:+ dec RANGE_PROOF_SIZE))
  else Ok {| out_commitment := commitment; proof := range_proof ++ capsule_bytes capsule |}.

Definition range_proof_bytes (o : TransactionOutput) : Result bytes :=
  if zlen (proof o) =? RANGE_PROOF_SIZE then Ok (proof o)
  else if zlen (proof o) =? MAX_OUTPUT_PROOF_ENVELOPE_SIZE then
    Ok (slice (proof o) 0 RANGE_PROOF_SIZE)
  else Err (Invalid ("noncanonical output proof envelope length " +:+ dec (zlen (proof o)))).

Definition recovery_capsule (o : TransactionOutput) : Result (option RecoveryCapsule) :=
  if zlen (proof o) =? RANGE_PROOF_SIZE then Ok None
  else if zlen (proof o) =? MAX_OUTPUT_PROOF_ENVELOPE_SIZE then
    let? c := capsule_from_bytes (slice (proof o) RANGE_PROOF_SIZE (zlen (proof o))) in
    Ok (Some c)
  else Err (Invalid ("noncanonical output proof envelope length " +:+ dec (zlen (proof o)))).

(** ** Weight and fees *)

Definition tx_kernel_weight (k : TransactionKernel) : Z := WEIGHT_KERNEL.
Definition cb_kernel_weight (k : CoinbaseKernel) : Z := WEIGHT_COINBASE_KERNEL.

Definition fee_shape (tx : Transaction) : Result TransactionShape :=
  from_counts (zlen (inputs tx)) (zlen (outputs tx)) (zlen (kernels tx)).

Definition weight_checked (tx : Transaction) : Result Z :=
  let? shape := fee_shape tx in
  let? weight := transaction_weight shape in
  if total_weight weight <=? u32_max then Ok (total_weight weight)
  else Err (Internal "transaction weight conversion overflow").

(** [expect("deserialized transaction count limits keep weight in u32")] *)
Definition weight (tx : Transaction) : Result Z :=
  match weight_checked tx with Ok w => Ok w | _ => Panic end.

Definition total_fee (tx : Transaction) : Result Z :=
  try_fold (λ acc k, ok_or (checked_add 64 acc (noms (fee k))) (Invalid "fee sum overflow"))
    0 (kernels tx).

(** ** Structure *)

Definition check_output_envelope (i : Z) (o : TransactionOutput) : Result unit :=
  if zlen (proof o) =? 0 then
    Err (Invalid ("output " +:+ dec i +:+ " has empty range proof"))
  else if MAX_OUTPUT_PROOF_ENVELOPE_SIZE <? zlen (proof o) then
    Err (Invalid ("output " +:+ dec i +:+ " proof envelope too large"))
  else Ok tt.

Definition check_kernel_structure (i : Z) (k : TransactionKernel) : Result unit :=
  let? _ := validate_kernel_features (features k) in
  if features k =? KERNEL_FEAT_COINBASE then
    Err (Invalid ("kernel " +:+ dec i +:+ ": COINBASE feature in non-coinbase transaction"))
  else
    match classify_kernel_lock_fields (features k) (lock_height k) with
    | LockCanonical => Ok tt
    | HeightLockedAtZero =>
        Err (Invalid ("kernel " +:+ dec i +:+ ": HEIGHT_LOCKED with lock_height == 0"))
    | NonHeightLockedAtNonzero =>
        Err (Invalid ("kernel " +:+ dec i
          +:+ ": lock_height must be 0 for non-HEIGHT_LOCKED kernels (got "
          +:+ dec (lock_height k) +:+ ")"))
    end.

Definition input_commits (tx : Transaction) : list Commitment := in_commitment <$> inputs tx.
Definition output_commits (tx : Transaction) : list Commitment := out_commitment <$> outputs tx.
Definition kernel_excesses (tx : Transaction) : list Commitment := excess <$> kernels tx.

Definition validate_transaction_structure (tx : Transaction) : Result unit :=
  if MAX_INPUTS_PER_TX <? zlen (inputs tx) then
    Err (Invalid ("too many inputs: " +:+ dec (zlen (inputs tx))))
  else if MAX_OUTPUTS_PER_TX <? zlen (outputs tx) then
    Err (Invalid ("too many outputs: " +:+ dec (zlen (outputs tx))))
  else if MAX_KERNELS_PER_TX <? zlen (kernels tx) then
    Err (Invalid ("too many kernels: " +:+ dec (zlen (kernels tx))))
  else if zlen (kernels tx) =? 0 then
    Err (Invalid "transaction must have at least one kernel")
  else
    let? _ := try_eachi check_output_envelope 0 (outputs tx) in
    let? _ := try_eachi check_kernel_structure 0 (kernels tx) in
    let? _ := insert_distinct (Invalid "duplicate input commitment") [] (input_commits tx) in
    let? _ := insert_distinct (Invalid "duplicate output commitment") [] (output_commits tx) in
    let? _ := total_fee tx in
    let? w := weight_checked tx in
    if MAX_TX_WEIGHT <? w then
      Err (Invalid ("tx weight " +:+ dec w +:+ " > MAX_TX_WEIGHT " +:+ dec MAX_TX_WEIGHT))
    else Ok tt.

Definition check_kernel_lock (current : BlockHeight) (k : TransactionKernel) : Result unit :=
  if (features k =? KERNEL_FEAT_HEIGHT_LOCKED) && (height_val current <? lock_height k) then
    Err (TemporarilyInvalid ("kernel locked until height " +:+ dec (lock_height k)
                             +:+ ", current " +:+ dec (height_val current)))
  else Ok tt.
Definition validate_lock_heights (tx : Transaction) (current : BlockHeight) : Result unit :=
  try_each (check_kernel_lock current) (kernels tx).

Definition validate_explicit_value (k : CoinbaseKernel) (block_height : BlockHeight)
    (total_tx_fees : Z) : Result unit :=
  let? r := block_reward block_height in
  let reward := noms r in
  let expected := checked_add 64 reward total_tx_fees in
  match classify_coinbase_value reward total_tx_fees (explicit_value k) MAX_PROVABLE_VALUE with
  | CoinbaseAccept => Ok tt
  | RewardFeeOverflow => Err (Invalid "coinbase value overflow")
  | ExpectedAboveMaximum =>
      let? expected := expect expected in
      Err (Invalid ("coinbase expected value " +:+ dec expected
                    +:+ " exceeds MAX_PROVABLE_VALUE " +:+ dec MAX_PROVABLE_VALUE))
  | ExplicitAboveMaximum =>
      Err (Invalid ("coinbase explicit_value " +:+ dec (explicit_value k)
                    +:+ " exceeds MAX_PROVABLE_VALUE " +:+ dec MAX_PROVABLE_VALUE))
  | ValueMismatch =>
      let? expected := expect expected in
      Err (Invalid ("coinbase explicit_value " +:+ dec (explicit_value k) +:+ ": expected "
                    +:+ dec expected +:+ " (reward=" +:+ dec reward +:+ " + fees="
                    +:+ dec total_tx_fees +:+ ")"))
  end.

Definition reject_plain_kernel_as_coinbase (data : bytes) : Result unit :=
  match data with
  | [] => Ok tt
  | f :: _ =>
      if negb (f =? KERNEL_FEAT_COINBASE) then
        Err (Malformed ("plain kernel (features=0x" +:+ hex_byte f
                        +:+ ") cannot be used as coinbase"))
      else Ok tt
  end.

(** ** Wire format *)

#[export] Instance TransactionInput_serialize : DomSerialize TransactionInput :=
  λ i w, Ok (write_bytes w (commit_bytes (in_commitment i))).
#[export] Instance TransactionOutput_serialize : DomSerialize TransactionOutput :=
  λ o w, write_vec (write_bytes w (commit_bytes (out_commitment o))) (proof o).
#[export] Instance TransactionKernel_serialize : DomSerialize TransactionKernel :=
  λ k w,
    let? w := serialize (fee k) (write_u8 w (features k)) in
    let w := write_u64 w (lock_height k) in
    let w := write_bytes w (commit_bytes (excess k)) in
    Ok (write_bytes w (excess_signature k)).
#[export] Instance CoinbaseKernel_serialize : DomSerialize CoinbaseKernel :=
  λ k w,
    let w := write_u8 w (cb_features k) in
    let w := write_u64 w (explicit_value k) in
    let w := write_bytes w (commit_bytes (cb_excess k)) in
    Ok (write_bytes w (cb_excess_signature k)).
#[export] Instance Transaction_serialize : DomSerialize Transaction :=
  λ t w,
    let? w := write_list w (inputs t) in
    let? w := write_list w (outputs t) in
    let? w := write_list w (kernels t) in
    Ok (write_bytes w (offset t)).
#[export] Instance CoinbaseTransaction_serialize : DomSerialize CoinbaseTransaction :=
  λ c w,
    let? w := serialize (output c) w in
    let? w := serialize (kernel c) w in
    Ok (write_bytes w (cb_offset c)).

Section decode.
Context `{HC : Secp256k1}.

#[export] Instance TransactionInput_deserialize : DomDeserialize TransactionInput := {|
  MIN_SERIALIZED_SIZE := 33;
  deserialize :=
    read! b := read_array 33 in
    read! c := rd_lift (from_compressed_bytes b) in
    rd_ret {| in_commitment := c |};
|}.
#[export] Instance TransactionOutput_deserialize : DomDeserialize TransactionOutput := {|
  MIN_SERIALIZED_SIZE := 33 + 4;
  deserialize :=
    read! commitment_bytes := read_array 33 in
    read! proof := read_vec MAX_OUTPUT_PROOF_ENVELOPE_SIZE in
    read! c := rd_lift (from_compressed_bytes commitment_bytes) in
    rd_ret {| out_commitment := c; proof := proof |};
|}.
#[export] Instance TransactionKernel_deserialize : DomDeserialize TransactionKernel := {|
  MIN_SERIALIZED_SIZE := 1 + 8 + 8 + 33 + 65;
  deserialize :=
    read! features := read_u8 in
    read! fee := deserialize (T := Amount) in
    read! lock_height := read_u64 in
    read! b := read_array 33 in
    read! c := rd_lift (from_compressed_bytes b) in
    read! sig := read_array 65 in
    rd_ret {| features := features; fee := fee; lock_height := lock_height;
              excess := c; excess_signature := sig |};
|}.
#[export] Instance CoinbaseKernel_deserialize : DomDeserialize CoinbaseKernel := {|
  MIN_SERIALIZED_SIZE := 1 + 8 + 33 + 65;
  deserialize :=
    read! features := read_u8 in
    if negb (features =? KERNEL_FEAT_COINBASE) then
      rd_fail (Malformed ("expected coinbase features 0x01, got 0x" +:+ hex_byte features))
    else
      read! explicit_value := read_u64 in
      read! b := read_array 33 in
      read! c := rd_lift (from_compressed_bytes b) in
      read! sig := read_array 65 in
      rd_ret {| cb_features := features; explicit_value := explicit_value;
                cb_excess := c; cb_excess_signature := sig |};
|}.
#[export] Instance Transaction_deserialize : DomDeserialize Transaction := {|
  MIN_SERIALIZED_SIZE := 4 + 4 + 4 + 32;
  deserialize :=
    read! inputs := read_list TransactionInput MAX_INPUTS_PER_TX in
    read! outputs := read_list TransactionOutput MAX_OUTPUTS_PER_TX in
    read! kernels := read_list TransactionKernel MAX_KERNELS_PER_TX in
    read! offset := read_array 32 in
    rd_ret {| inputs := inputs; outputs := outputs; kernels := kernels; offset := offset |};
|}.
#[export] Instance CoinbaseTransaction_deserialize : DomDeserialize CoinbaseTransaction := {|
  MIN_SERIALIZED_SIZE :=
    MIN_SERIALIZED_SIZE TransactionOutput + MIN_SERIALIZED_SIZE CoinbaseKernel + 32;
  deserialize :=
    read! output := deserialize (T := TransactionOutput) in
    read! kernel := deserialize (T := CoinbaseKernel) in
    read! offset := read_array 32 in
    rd_ret {| output := output; kernel := kernel; cb_offset := offset |};
|}.
End decode.

(** ** Cryptographic checks *)

Section crypto.
Context `{HB : Blake2b256} `{HC : Secp256k1} `{HZ : !ZkpBackend}.

(** The proof of one output, with or without a bound recovery capsule *)
Definition verify_output_proof (o : TransactionOutput) : Result (Result bool) :=
  let? range_proof := range_proof_bytes o in
  let? capsule := recovery_capsule o in
  Ok (match capsule with
      | Some capsule =>
          range_proof_verify_with_extra_commit (commit_bytes (out_commitment o)) range_proof
            (capsule_bytes capsule)
      | None => range_proof_verify (commit_bytes (out_commitment o)) range_proof
      end).

Definition check_range_proof (i : Z) (o : TransactionOutput) : Result unit :=
  let? valid := verify_output_proof o in
  match valid with
  | Ok true => Ok tt
  | Ok false => Err (Invalid ("output " +:+ dec i +:+ " range proof verification failed"))
  | Err e =>
      Err (Invalid ("output " +:+ dec i +:+ " range proof error: " +:+ display_error e))
  | Panic => Panic
  end.
Definition validate_range_proofs (tx : Transaction) : Result unit :=
  try_eachi check_range_proof 0 (outputs tx).

Definition to_crypto (c : Commitment) : Result Commitment :=
  map_err (λ e, Invalid ("commitment parse: " +:+ display_error e))
    (from_compressed_bytes (commit_bytes c)).

Definition validate_balance_equation (tx : Transaction) : Result unit :=
  let? outputs := try_map to_crypto (output_commits tx) in
  let? inputs := try_map to_crypto (input_commits tx) in
  let? excesses := try_map to_crypto (kernel_excesses tx) in
  let? total_fee := total_fee tx in
  let? valid := verify_balance_equation outputs inputs excesses (offset tx) total_fee in
  if negb valid then Err (Invalid "transaction balance equation does not hold")
  else Ok tt.

(** RFC-0009: the message a coinbase kernel signs *)
Definition coinbase_message (k : CoinbaseKernel) : Hash256 :=
  blake2b_256_tagged TAG_KERNEL_MSG_COINBASE
    ([cb_features k] ++ le_bytes 8 (explicit_value k)).

Definition validate_coinbase_signature (cb : CoinbaseTransaction) (chain_id : bytes)
  : Result unit :=
  let kernel_message := coinbase_message (kernel cb) in
  let? sig := map_err (λ e, Invalid ("coinbase signature malformed: " +:+ display_error e))
                (signature_from_bytes (cb_excess_signature (kernel cb))) in
  let? pk := map_err (λ e, Invalid ("coinbase excess invalid: " +:+ display_error e))
               (pk_from_compressed_bytes (commit_bytes (cb_excess (kernel cb)))) in
  match schnorr_verify sig pk chain_id (hash_bytes kernel_message) with
  | Ok true => Ok tt
  | Ok false =>
      Err (peer_misbehavior InvalidSignature
             "coinbase kernel signature invalid — miner does not prove ownership")
  | Err (Internal msg) => Err (Internal ("coinbase sig: " +:+ msg))
  | Err e => Err e
  | Panic => Panic
  end.

Definition coinbase_validate (cb : CoinbaseTransaction) (height : BlockHeight)
    (total_tx_fees : Z) (chain_id : bytes) : Result unit :=
  if negb (cb_features (kernel cb) =? KERNEL_FEAT_COINBASE) then
    Err (Invalid ("coinbase kernel features must be 0x" +:+ hex_byte KERNEL_FEAT_COINBASE
                  +:+ ", got 0x" +:+ hex_byte (cb_features (kernel cb))))
  else if negb (bool_decide (cb_offset cb = replicate 32 0)) then
    Err (Invalid "coinbase offset must be zero")
  else
    let? _ := validate_explicit_value (kernel cb) height total_tx_fees in
    if zlen (proof (output cb)) =? 0 then
      Err (Invalid "coinbase output has empty range proof")
    else
      let? valid := verify_output_proof (output cb) in
      let? _ :=
        match valid with
        | Ok true => Ok tt
        | Ok false => Err (Invalid "coinbase range proof verification failed")
        | Err e => Err (Invalid ("coinbase range proof error: " +:+ display_error e))
        | Panic => Panic
        end in
      validate_coinbase_signature cb chain_id.
End crypto.
