(* ===== verification/TransactionLaws.v ===== *)
(** * Laws of transactions

    The wire format of every transaction part is a [Codec]; what the validation
    functions of [Transaction.v] accept, and that they do not panic. *)

From Stdlib Require Import ZArith Lia.
From stdpp Require Import base list strings.
From S2P Require Import Prelude CoreError Core FeePolicy Serialization.
From S2P Require Import CryptoHash Curve Keys Pedersen Schnorr RangeProof.
From S2P Require Import Transaction.

(** ** Wire format *)

Definition sig_bytes_ok (b : bytes) : Prop := zlen b = 65 ∧ bytes_ok b.
Definition scalar_bytes_ok (b : bytes) : Prop := zlen b = 32 ∧ bytes_ok b.

Lemma bytes_ok_one b : u8_ok b → bytes_ok [b].
Proof. intros. apply bytes_ok_cons. auto with dom. Qed.

Section codecs.
Context `{HC : Secp256k1}.

Lemma from_compressed_bytes_no_panic b : from_compressed_bytes b ≠ Panic.
Proof. unfold from_compressed_bytes. no_panic. Qed.

Lemma commitment_ok_intro b c :
  bytes_ok b → from_compressed_bytes b = Ok c ↔ commitment_ok c ∧ commit_bytes c = b.
Proof.
  intros Hb. rewrite from_compressed_bytes_Ok. unfold commitment_ok. destruct c as [cb].
  cbn [commit_bytes]. split.
  - intros ([= ->] & Hl & HP). done.
  - intros ((Hl & _ & HP) & ->). done.
Qed.

Lemma commitment_ok_bytes c :
  commitment_ok c → zlen (commit_bytes c) = 33 ∧ bytes_ok (commit_bytes c).
Proof. by intros (? & ? & _). Qed.

(** A commitment field of a record *)
Lemma parses_commitment {T} (k : Commitment → Rd T) (f : T → Commitment) (C R : T → Prop) v :
  (∀ c, commitment_ok c → parses (k c) (λ t, (C t ∧ f t = c) ∧ R t) v) →
  parses (read! b := read_array 33 in read! c := rd_lift (from_compressed_bytes b) in k c)
    (λ t, C t ∧ commitment_ok (f t) ∧ R t) (λ t, commit_bytes (f t) ++ v t).
Proof.
  intros Hk. eapply parses_equiv.
  - eapply (parses_bind _ _ (λ t, commit_bytes (f t)) _ C (λ t, commitment_ok (f t) ∧ R t));
      [apply read_array_parses; lia|].
    intros b [Hl Hb].
    apply parses_lift; [apply from_compressed_bytes_no_panic|..].
    + intros c Hc. apply commitment_ok_intro in Hc as [Hok <-]; [|done].
      eapply parses_equiv; [apply (Hk c Hok)| |done].
      intros t. split; [by intros ((? & <-) & ?)|].
      intros ((? & He) & Hf & ?). split; [split; [done|]|done].
      destruct (f t), c; simpl in *; congruence.
    + intros Hno t ((_ & He) & Hf & _). apply (Hno (f t)). by apply commitment_ok_intro.
  - intros t. split; [tauto|]. intros (? & Hf & ?).
    pose proof (commitment_ok_bytes _ Hf). tauto.
  - done.
Qed.

#[export, refine] Instance TransactionInput_codec : Codec TransactionInput := {|
  wf i := commitment_ok (in_commitment i);
  wire i := commit_bytes (in_commitment i);
|}.
Proof.
  - done.
  - eapply parses_equiv.
    + apply (parses_commitment _ in_commitment (λ _, True) (λ _, True) (λ _, [])).
      intros c Hc. apply parses_ret. intros [i]. simpl. naive_solver.
    + intros i. simpl. tauto.
    + intros i _. simpl. by rewrite app_nil_r.
  - intros i Hi. apply (commitment_ok_bytes _ Hi).
  - intros i Hi. cbn [MIN_SERIALIZED_SIZE TransactionInput_deserialize].
    by rewrite (proj1 (commitment_ok_bytes _ Hi)).
  - done.
Defined.

#[export, refine] Instance TransactionOutput_codec : Codec TransactionOutput := {|
  wf o := commitment_ok (out_commitment o) ∧ vec_ok MAX_OUTPUT_PROOF_ENVELOPE_SIZE (proof o);
  wire o := commit_bytes (out_commitment o) ++ vec_wire (proof o);
|}.
Proof.
  - intros o w [Hc Hp]. unfold serialize, TransactionOutput_serialize, write_bytes.
    by rewrite (write_vec_ok _ _ _ Hp), append_append.
  - eapply parses_equiv.
    + eapply (parses_bind _ _ (λ o, commit_bytes (out_commitment o)) _ (λ _, True)
        (λ o, vec_ok MAX_OUTPUT_PROOF_ENVELOPE_SIZE (proof o) ∧ commitment_ok (out_commitment o)));
        [apply read_array_parses; lia|].
      intros b [Hl Hb]. eapply (parses_bind _ _ proof); [apply read_vec_parses|].
      intros p Hp. apply parses_lift; [apply from_compressed_bytes_no_panic|..].
      * intros c Hc. apply commitment_ok_intro in Hc as [Hok <-]; [|done].
        apply parses_ret. intros [[cb] p']. destruct c as [cb']. simpl. naive_solver.
      * intros Hno o (((_ & He) & _) & Hf). apply (Hno (out_commitment o)).
        by apply commitment_ok_intro.
    + intros o. simpl. split; [tauto|]. intros (Hf & ?).
      pose proof (commitment_ok_bytes _ Hf). tauto.
    + intros o _. simpl. by rewrite app_nil_r.
  - intros o [Hc Hp]. apply bytes_ok_app.
    split; [apply (commitment_ok_bytes _ Hc)|by eapply vec_wire_ok].
  - intros o [Hc Hp]. cbn [MIN_SERIALIZED_SIZE TransactionOutput_deserialize].
    rewrite zlen_app, zlen_vec_wire, (proj1 (commitment_ok_bytes _ Hc)).
    pose proof (zlen_nonneg (proof o)). lia.
  - done.
Defined.

Definition kernel_ok (k : TransactionKernel) : Prop :=
  u8_ok (features k) ∧ amount_ok (fee k) ∧ u64_ok (lock_height k) ∧
  commitment_ok (excess k) ∧ sig_bytes_ok (excess_signature k).
Definition cb_kernel_ok (k : CoinbaseKernel) : Prop :=
  cb_features k = KERNEL_FEAT_COINBASE ∧ u64_ok (explicit_value k) ∧
  commitment_ok (cb_excess k) ∧ sig_bytes_ok (cb_excess_signature k).

#[export, refine] Instance TransactionKernel_codec : Codec TransactionKernel := {|
  wf := kernel_ok;
  wire k := [features k] ++ le_bytes 8 (noms (fee k)) ++ le_bytes 8 (lock_height k)
            ++ commit_bytes (excess k) ++ excess_signature k;
|}.
Proof.
  - intros k w (_ & Hf & _). unfold serialize at 1, TransactionKernel_serialize.
    rewrite serialize_wire by done. cbn [rbind].
    unfold write_u64, write_bytes, write_u8. by rewrite !append_append.
  - eapply parses_equiv.
    + eapply (parses_bind _ _ features _ (λ _, True)); [apply read_u8_parses|]. intros f Hf.
      eapply (parses_bind _ _ fee); [apply (deserialize_parses (T := Amount))|]. intros a Ha.
      eapply (parses_bind _ _ lock_height); [apply read_u64_parses|]. intros l Hl.
      eapply (parses_commitment _ excess). intros c Hc.
      eapply (parses_bind _ _ excess_signature _ _ (λ _, True) _ (λ _, []));
        [apply read_array_parses; lia|]. intros s Hs.
      apply parses_ret. intros []. simpl. naive_solver.
    + intros k. unfold kernel_ok, sig_bytes_ok. simpl. tauto.
    + intros k _. simpl. by rewrite app_nil_r.
  - intros k (? & ? & ? & Hc & [_ Hs]). apply bytes_ok_app. split; [by apply bytes_ok_one|].
    rewrite !bytes_ok_app. pose proof (commitment_ok_bytes _ Hc). split_and!; auto with dom. tauto.
  - intros k (? & ? & ? & Hc & [Hs _]). cbn [MIN_SERIALIZED_SIZE TransactionKernel_deserialize].
    rewrite !zlen_app, !zlen_le_bytes, Hs, (proj1 (commitment_ok_bytes _ Hc)). done.
  - done.
Defined.

#[export, refine] Instance CoinbaseKernel_codec : Codec CoinbaseKernel := {|
  wf := cb_kernel_ok;
  wire k := [cb_features k] ++ le_bytes 8 (explicit_value k)
            ++ commit_bytes (cb_excess k) ++ cb_excess_signature k;
|}.
Proof.
  - intros k w _. unfold serialize, CoinbaseKernel_serialize, write_u64, write_bytes, write_u8.
    by rewrite !append_append.
  - eapply parses_equiv.
    + eapply (parses_bind _ _ cb_features _ (λ _, True)
        (λ k, cb_features k = KERNEL_FEAT_COINBASE ∧ u64_ok (explicit_value k) ∧
              commitment_ok (cb_excess k) ∧ sig_bytes_ok (cb_excess_signature k))
        _ (λ k, le_bytes 8 (explicit_value k) ++ commit_bytes (cb_excess k)
                ++ cb_excess_signature k)); [apply read_u8_parses|]. intros f Hf.
      apply parses_guard.
      { intros Hn k ((_ & <-) & He & _). by rewrite He in Hn. }
      intros Hf1%negb_false_iff%Z.eqb_eq. eapply parses_equiv.
      * eapply (parses_bind _ _ explicit_value _ (λ k, True ∧ cb_features k = f));
          [apply read_u64_parses|]. intros e He.
        eapply (parses_commitment _ cb_excess). intros c Hc.
        eapply (parses_bind _ _ cb_excess_signature _ _ (λ _, True) _ (λ _, []));
          [apply read_array_parses; lia|]. intros s Hs.
        apply parses_ret. intros []. simpl. naive_solver.
      * intros k. unfold sig_bytes_ok. simpl. naive_solver.
      * intros k _. simpl. by rewrite app_nil_r.
    + intros k. unfold cb_kernel_ok. split; [tauto|]. intros H. split; [done|].
      split; [|tauto]. by rewrite (proj1 H).
    + done.
  - intros k (Hf & ? & Hc & [_ Hs]). apply bytes_ok_app.
    split; [by rewrite Hf; apply bytes_ok_one|].
    rewrite !bytes_ok_app. pose proof (commitment_ok_bytes _ Hc). split_and!; auto with dom. tauto.
  - intros k (? & ? & Hc & [Hs _]). cbn [MIN_SERIALIZED_SIZE CoinbaseKernel_deserialize].
    rewrite !zlen_app, !zlen_le_bytes, Hs, (proj1 (commitment_ok_bytes _ Hc)). done.
  - done.
Defined.

Definition tx_ok (t : Transaction) : Prop :=
  list_ok MAX_INPUTS_PER_TX (inputs t) ∧ list_ok MAX_OUTPUTS_PER_TX (outputs t) ∧
  list_ok MAX_KERNELS_PER_TX (kernels t) ∧ scalar_bytes_ok (offset t).
Definition coinbase_ok (c : CoinbaseTransaction) : Prop :=
  wf (output c) ∧ cb_kernel_ok (kernel c) ∧ scalar_bytes_ok (cb_offset c).

#[export, refine] Instance Transaction_codec : Codec Transaction := {|
  wf := tx_ok;
  wire t := list_wire (inputs t) ++ list_wire (outputs t) ++ list_wire (kernels t) ++ offset t;
|}.
Proof.
  - intros t w (Hi & Ho & Hk & _). unfold serialize, Transaction_serialize.
    rewrite (write_list_ok _ _ _ Hi). cbn [rbind].
    rewrite (write_list_ok _ _ _ Ho). cbn [rbind].
    rewrite (write_list_ok _ _ _ Hk). cbn [rbind].
    unfold write_bytes. by rewrite !append_append.
  - eapply parses_equiv.
    + eapply (parses_bind _ _ inputs _ (λ _, True)); [apply read_list_parses|]. intros i Hi.
      eapply (parses_bind _ _ outputs); [apply read_list_parses|]. intros o Ho.
      eapply (parses_bind _ _ kernels); [apply read_list_parses|]. intros k Hk.
      eapply (parses_bind _ _ offset _ _ (λ _, True) _ (λ _, []));
        [apply read_array_parses; lia|]. intros s Hs.
      apply parses_ret. intros []. simpl. naive_solver.
    + intros t. unfold tx_ok, scalar_bytes_ok. simpl. tauto.
    + intros t _. simpl. by rewrite app_nil_r.
  - intros t (Hi & Ho & Hk & [_ Hs]). rewrite !bytes_ok_app.
    split_and!; [by eapply list_wire_ok..|done].
  - intros t (Hi & Ho & Hk & [Hs _]). cbn [MIN_SERIALIZED_SIZE Transaction_deserialize].
    rewrite !zlen_app, Hs. pose proof (zlen_list_wire_min (inputs t)).
    pose proof (zlen_list_wire_min (outputs t)). pose proof (zlen_list_wire_min (kernels t)). lia.
  - done.
Defined.

#[export, refine] Instance CoinbaseTransaction_codec : Codec CoinbaseTransaction := {|
  wf := coinbase_ok;
  wire c := wire (output c) ++ wire (kernel c) ++ cb_offset c;
|}.
Proof.
  - intros c w (Ho & Hk & _). unfold serialize at 1, CoinbaseTransaction_serialize.
    rewrite serialize_wire by done. cbn [rbind]. rewrite serialize_wire by done. cbn [rbind].
    unfold write_bytes. by rewrite !append_append.
  - eapply parses_equiv.
    + eapply (parses_bind _ _ output _ (λ _, True));
        [apply (deserialize_parses (T := TransactionOutput))|]. intros o Ho.
      eapply (parses_bind _ _ kernel); [apply (deserialize_parses (T := CoinbaseKernel))|].
      intros k Hk.
      eapply (parses_bind _ _ cb_offset _ _ (λ _, True) _ (λ _, []));
        [apply read_array_parses; lia|]. intros s Hs.
      apply parses_ret. intros []. simpl. naive_solver.
    + intros c. unfold coinbase_ok, scalar_bytes_ok. simpl. tauto.
    + intros c _. simpl. by rewrite app_nil_r.
  - intros c (Ho & Hk & [_ Hs]). rewrite !bytes_ok_app.
    split_and!; [by apply wire_bytes_ok..|done].
  - intros c (Ho & Hk & [Hs _]). cbn [MIN_SERIALIZED_SIZE CoinbaseTransaction_deserialize].
    rewrite !zlen_app, Hs. pose proof (wire_min_size (output c) Ho).
    pose proof (wire_min_size (kernel c) Hk). lia.
  - done.
Defined.
End codecs.

(** ** Structure *)

Definition fee_sum (ks : list TransactionKernel) : Z := zsum (noms ∘ fee <$> ks).
Definition fees_ok (ks : list TransactionKernel) : Prop := Forall (λ k, amount_ok (fee k)) ks.

Definition plain_kernel (k : TransactionKernel) : Prop :=
  features k = KERNEL_FEAT_PLAIN ∧ lock_height k = 0 ∨
  features k = KERNEL_FEAT_HEIGHT_LOCKED ∧ lock_height k ≠ 0.

(** The structural rules of a transaction *)
Record structure_ok (tx : Transaction) : Prop := {
  so_inputs : zlen (inputs tx) ≤ MAX_INPUTS_PER_TX;
  so_outputs : zlen (outputs tx) ≤ MAX_OUTPUTS_PER_TX;
  so_kernels : 1 ≤ zlen (kernels tx) ≤ MAX_KERNELS_PER_TX;
  so_proofs : Forall (λ o, 1 ≤ zlen (proof o) ≤ MAX_OUTPUT_PROOF_ENVELOPE_SIZE) (outputs tx);
  so_features : Forall plain_kernel (kernels tx);
  so_distinct_inputs : NoDup (input_commits tx);
  so_distinct_outputs : NoDup (output_commits tx);
  so_fees : fee_sum (kernels tx) < 2 ^ 64;
  so_weight : weight_of (zlen (inputs tx)) (zlen (outputs tx)) (zlen (kernels tx))
              ≤ MAX_TX_WEIGHT;
}.

Lemma fee_sum_nonneg ks : fees_ok ks → 0 ≤ fee_sum ks.
Proof.
  induction 1 as [|k ks [Hk _] _ IH]; [done|]. unfold fee_sum in *. rewrite fmap_cons.
  cbn [zsum foldr compose]. fold zsum. lia.
Qed.

Lemma fee_fold_Ok ks acc t :
  fees_ok ks → 0 ≤ acc < 2 ^ 64 →
  try_fold (λ acc k, ok_or (checked_add 64 acc (noms (fee k))) (Invalid "fee sum overflow"))
    acc ks = Ok t ↔ t = acc + fee_sum ks ∧ t < 2 ^ 64.
Proof.
  intros Hks. revert acc. induction Hks as [|k ks [Hk _] Hks IH]; intros acc Hacc.
  - cbn. split; [intros [= <-]; lia|intros [-> _]; f_equal; lia].
  - cbn [try_fold]. pose proof (fee_sum_nonneg ks Hks).
    unfold fee_sum in *. rewrite fmap_cons. cbn [zsum foldr compose]. fold zsum.
    destruct (checked_add 64 acc (noms (fee k))) as [a|] eqn:Ha; cbn [ok_or rbind].
    + apply checked_add_Some in Ha as [-> ?]. rewrite IH by lia. rewrite Z.add_assoc. done.
    + apply checked_add_None in Ha. split; [done|]. lia.
Qed.

Lemma total_fee_Ok tx t :
  fees_ok (kernels tx) → total_fee tx = Ok t ↔ t = fee_sum (kernels tx) ∧ t < 2 ^ 64.
Proof. intros H. unfold total_fee. rewrite fee_fold_Ok by done. by rewrite Z.add_0_l. Qed.

Lemma total_fee_no_panic tx : total_fee tx ≠ Panic.
Proof. unfold total_fee. no_panic. Qed.

Lemma weight_of_bound i o k :
  0 ≤ i ≤ MAX_INPUTS_PER_TX → 0 ≤ o ≤ MAX_OUTPUTS_PER_TX → 0 ≤ k ≤ MAX_KERNELS_PER_TX →
  0 ≤ weight_of i o k < 2 ^ 16.
Proof.
  unfold weight_of, MAX_INPUTS_PER_TX, MAX_OUTPUTS_PER_TX, MAX_KERNELS_PER_TX,
    WEIGHT_INPUT, WEIGHT_OUTPUT, WEIGHT_KERNEL. lia.
Qed.

Lemma weight_checked_Ok tx w :
  weight_checked tx = Ok w ↔
  w = weight_of (zlen (inputs tx)) (zlen (outputs tx)) (zlen (kernels tx)) ∧
  zlen (inputs tx) ≤ MAX_INPUTS_PER_TX ∧ zlen (outputs tx) ≤ MAX_OUTPUTS_PER_TX ∧
  zlen (kernels tx) ≤ MAX_KERNELS_PER_TX.
Proof.
  pose proof (zlen_nonneg (inputs tx)) as Hi. pose proof (zlen_nonneg (outputs tx)) as Ho.
  pose proof (zlen_nonneg (kernels tx)) as Hk. unfold weight_checked, fee_shape. split.
  - intros Hw. res_inv. pose proof (from_counts_shape_ok _ _ _ _ Hi Ho Hk Hm) as [Hs He].
    apply from_counts_Ok in Hm as (_ & ?); [|done..].
    rewrite transaction_weight_eq in Hm0 by done. injection Hm0 as <-. cbn. by rewrite He.
  - intros (-> & ? & ? & ?). rewrite (proj2 (from_counts_Ok _ _ _ _ Hi Ho Hk)) by eauto.
    cbn [rbind].
    pose proof (weight_of_bound (zlen (inputs tx)) (zlen (outputs tx)) (zlen (kernels tx))
      ltac:(lia) ltac:(lia) ltac:(lia)) as Hb.
    rewrite transaction_weight_eq.
    + cbn [rbind total_weight]. unfold shape_weight. cbn [input_count output_count kernel_count].
      rewrite (proj2 (Z.leb_le _ _)); [done|]. unfold u32_max. lia.
    + unfold shape_ok, in_width, MAX_INPUTS_PER_TX, MAX_OUTPUTS_PER_TX, MAX_KERNELS_PER_TX in *.
      cbn [input_count output_count kernel_count]. lia.
Qed.

Lemma weight_checked_no_panic tx : weight_checked tx ≠ Panic.
Proof.
  unfold weight_checked, fee_shape, from_counts, to_u32, transaction_weight. no_panic.
Qed.

Lemma check_output_envelope_Ok i o :
  check_output_envelope i o = Ok tt ↔ 1 ≤ zlen (proof o) ≤ MAX_OUTPUT_PROOF_ENVELOPE_SIZE.
Proof.
  pose proof (zlen_nonneg (proof o)). unfold check_output_envelope.
  destruct (Z.eqb_spec (zlen (proof o)) 0),
    (Z.ltb_spec MAX_OUTPUT_PROOF_ENVELOPE_SIZE (zlen (proof o))); split; intros; done || lia.
Qed.

Lemma check_kernel_structure_Ok i k : check_kernel_structure i k = Ok tt ↔ plain_kernel k.
Proof.
  unfold check_kernel_structure, validate_kernel_features, is_known_kernel_features,
    classify_kernel_lock_fields, plain_kernel, KERNEL_FEAT_PLAIN, KERNEL_FEAT_COINBASE,
    KERNEL_FEAT_HEIGHT_LOCKED.
  destruct (Z.eqb_spec (features k) 0), (Z.eqb_spec (features k) 1),
    (Z.eqb_spec (features k) 2), (Z.eqb_spec (lock_height k) 0);
    cbn [orb andb negb rbind]; split; intros; done || lia || tauto.
Qed.

Lemma insert_distinct_fresh {E A} `{!EqDecision A} (e : E) (l s : list A) :
  insert_distinct e [] l = Ok s ↔ NoDup l ∧ s = reverse l.
Proof.
  rewrite insert_distinct_Ok, app_nil_r. split; [tauto|]. intros [? ->].
  split_and!; [done|by intros ? _ ?%not_elem_of_nil|done].
Qed.

Lemma validate_transaction_structure_no_panic tx : validate_transaction_structure tx ≠ Panic.
Proof.
  unfold validate_transaction_structure. no_panic.
  - unfold check_output_envelope. no_panic.
  - unfold check_kernel_structure, validate_kernel_features. no_panic.
  - apply total_fee_no_panic.
  - apply weight_checked_no_panic.
Qed.

Lemma validate_transaction_structure_Ok tx :
  fees_ok (kernels tx) → validate_transaction_structure tx = Ok tt ↔ structure_ok tx.
Proof.
  intros Hfees. pose proof (zlen_nonneg (kernels tx)).
  unfold validate_transaction_structure. split.
  - intros H0. res_inv. bool_inv.
    apply (try_eachi_Ok _ _ _ _ check_output_envelope_Ok) in Hm.
    apply (try_eachi_Ok _ _ _ _ check_kernel_structure_Ok) in Hm0.
    apply insert_distinct_fresh in Hm1 as [? _], Hm2 as [? _].
    apply total_fee_Ok in Hm3 as [-> ?]; [|done]. apply weight_checked_Ok in Hm4 as (-> & _).
    split; done || lia.
  - intros [Hi Ho [Hk1 Hk2] Hp Hf Hdi Hdo Hs Hw].
    destruct (Z.ltb_spec MAX_INPUTS_PER_TX (zlen (inputs tx))); [lia|].
    destruct (Z.ltb_spec MAX_OUTPUTS_PER_TX (zlen (outputs tx))); [lia|].
    destruct (Z.ltb_spec MAX_KERNELS_PER_TX (zlen (kernels tx))); [lia|].
    destruct (Z.eqb_spec (zlen (kernels tx)) 0); [lia|].
    rewrite (proj2 (try_eachi_Ok _ _ _ _ check_output_envelope_Ok)) by done. cbn [rbind].
    rewrite (proj2 (try_eachi_Ok _ _ _ _ check_kernel_structure_Ok)) by done. cbn [rbind].
    rewrite (proj2 (insert_distinct_fresh _ _ _) (conj Hdi eq_refl)). cbn [rbind].
    rewrite (proj2 (insert_distinct_fresh _ _ _) (conj Hdo eq_refl)). cbn [rbind].
    rewrite (proj2 (total_fee_Ok tx _ Hfees)) by (split; [reflexivity|done]). cbn [rbind].
    rewrite (proj2 (weight_checked_Ok tx _)) by (split; [reflexivity|done]). cbn [rbind].
    destruct (Z.ltb_spec MAX_TX_WEIGHT (weight_of (zlen (inputs tx)) (zlen (outputs tx))
      (zlen (kernels tx)))); [lia|done].
Qed.

(** Structural validation accepts exactly the transactions within the count
    limits, with at least one kernel, non-empty bounded proof envelopes, canonical
    plain or height-locked kernels, pairwise distinct inputs and pairwise distinct
    outputs, a fee sum that fits 64 bits and a weight (1 per input, 21 per output,
    3 per kernel) of at most 4000; it never panics. *)
Theorem transaction_structure_exact tx :
  fees_ok (kernels tx) →
  validate_transaction_structure tx ≠ Panic ∧
  (validate_transaction_structure tx = Ok tt ↔ structure_ok tx).
Proof.
  intros Hfees. split; [apply validate_transaction_structure_no_panic|].
  by apply validate_transaction_structure_Ok.
Qed.

Lemma structure_ok_weight tx :
  structure_ok tx →
  weight tx = Ok (weight_of (zlen (inputs tx)) (zlen (outputs tx)) (zlen (kernels tx))).
Proof.
  intros [Hi Ho [_ Hk] _ _ _ _ _ _]. unfold weight.
  by rewrite (proj2 (weight_checked_Ok tx _) (conj eq_refl (conj Hi (conj Ho Hk)))).
Qed.

(** ** Lock heights and the coinbase value *)

Lemma validate_lock_heights_Ok tx h :
  validate_lock_heights tx h = Ok tt ↔
  Forall (λ k, features k = KERNEL_FEAT_HEIGHT_LOCKED → lock_height k ≤ height_val h) (kernels tx).
Proof.
  unfold validate_lock_heights. rewrite try_each_Ok. apply Forall_iff. intros k.
  unfold check_kernel_lock.
  destruct (Z.eqb_spec (features k) KERNEL_FEAT_HEIGHT_LOCKED),
    (Z.ltb_spec (height_val h) (lock_height k)); simpl; split; intros; done || lia || tauto.
Qed.

Lemma validate_lock_heights_no_panic tx h : validate_lock_heights tx h ≠ Panic.
Proof. unfold validate_lock_heights, check_kernel_lock. no_panic. Qed.

(** The coinbase claims exactly the subsidy of its height plus the fees, and a value
    the range proof covers. *)
Lemma validate_explicit_value_Ok k h fees :
  0 ≤ height_val h → 0 ≤ fees →
  validate_explicit_value k h fees = Ok tt ↔
  explicit_value k = reward_at (height_val h) + fees ∧ explicit_value k ≤ MAX_PROVABLE_VALUE.
Proof.
  intros Hh Hf. unfold validate_explicit_value. rewrite block_reward_eq by done.
  cbn [rbind noms]. unfold classify_coinbase_value.
  pose proof (reward_at_nonneg (height_val h)).
  assert (Hmax : MAX_PROVABLE_VALUE = 2 ^ 52 - 1) by done.
  destruct (checked_add 64 (reward_at (height_val h)) fees) as [e|] eqn:He.
  - apply checked_add_Some in He as [-> ?].
    destruct (Z.ltb_spec MAX_PROVABLE_VALUE (reward_at (height_val h) + fees));
      [cbn [expect rbind]; split; [done|lia]|].
    destruct (Z.ltb_spec MAX_PROVABLE_VALUE (explicit_value k)); [split; [done|lia]|].
    destruct (Z.eqb_spec (explicit_value k) (reward_at (height_val h) + fees));
      cbn [negb expect rbind];
      split; intros; done || lia.
  - apply checked_add_None in He. split; [done|lia].
Qed.

Lemma validate_explicit_value_no_panic k h fees :
  0 ≤ height_val h → validate_explicit_value k h fees ≠ Panic.
Proof.
  intros Hh. unfold validate_explicit_value. rewrite block_reward_eq by done.
  cbn [rbind noms]. unfold classify_coinbase_value.
  destruct (checked_add 64 _ _); cbn [expect rbind]; no_panic.
Qed.
