(* ===== verification/Slate.v ===== *)
(** * Slates

    [dom-tx/src/slate.rs]: the body and the envelope wallets exchange to build a transaction,
    their wire formats and their validation. *)

From Stdlib Require Import ZArith Lia.
From stdpp Require Import base list strings.
From S2P Require Import Prelude CoreError Core Address Serialization CryptoHash Curve Keys.
From S2P Require Import Pedersen Schnorr RangeProof RangeProve.
Local Open Scope string_scope.
Local Open Scope list_scope.
Local Open Scope Z_scope.

Definition CURRENT_SLATE_VERSION : Z := 3.
Definition RECOVERY_SLATE_VERSION : Z := 4.
Definition CURRENT_SLATE_ENVELOPE_VERSION : Z := 3.
Definition RECOVERY_SLATE_ENVELOPE_VERSION : Z := 4.
Definition SLATE_SIGNATURE_DIGEST_DOMAIN : string := "DOM:slate-signature-digest:v3".
Definition RECOVERY_SLATE_SIGNATURE_DIGEST_DOMAIN : string := "DOM:slate-signature-digest:v4".
Definition SLATE_FLOW_STANDARD_SEND : Z := 0.
Definition SLATE_PHASE_SENDER_OFFER : Z := 0.
Definition SLATE_PHASE_RECEIVER_RESPONSE : Z := 1.
Definition SLATE_PHASE_FINALIZED : Z := 2.
Definition SLATE_ROLE_SENDER : Z := 0.
Definition SLATE_ROLE_RECEIVER : Z := 1.

Record OutputCommitmentAndProof : Type := {
  ocp_commitment : Commitment;
  ocp_proof : RangeProof;
}.

(** ** Options on the wire *)

Definition write_option {T} (w : Writer) (value : option T) (write_value : Writer → T → Result Writer)
  : Result Writer :=
  match value with
  | Some value => write_value (write_u8 w 1) value
  | None => Ok (write_u8 w 0)
  end.
Definition read_option {T} (read_value : Rd T) : Rd (option T) :=
  read! flag := read_u8 in
  if flag =? 0 then rd_ret None
  else if flag =? 1 then read! v := read_value in rd_ret (Some v)
  else rd_fail (Malformed ("invalid option presence flag " +:+ dec flag)).

Definition write_commitment_list (w : Writer) (commitments : list Commitment) : Result Writer :=
  if 2 ^ 32 <=? zlen commitments then Err (Malformed "sender input count exceeds u32")
  else Ok (foldl (λ w c, write_bytes w (commit_bytes c)) (write_u32 w (zlen commitments)) commitments).

#[export] Instance OutputCommitmentAndProof_serialize : DomSerialize OutputCommitmentAndProof :=
  λ o w, write_vec (write_bytes w (commit_bytes (ocp_commitment o))) (rp_bytes (ocp_proof o)).

Section slate.
Context `{HB : Blake2b256} `{HC : Secp256k1}.

#[export] Instance OutputCommitmentAndProof_deserialize : DomDeserialize OutputCommitmentAndProof := {|
  MIN_SERIALIZED_SIZE := 33 + 4;
  deserialize :=
    read! commitment_bytes := read_array 33 in
    read! proof_bytes := read_vec MAX_PROOF_SIZE in
    read! c := rd_lift (from_compressed_bytes commitment_bytes) in
    read! p := rd_lift (range_proof_from_bytes proof_bytes) in
    rd_ret {| ocp_commitment := c; ocp_proof := p |};
|}.

Record Slate : Type := {
  slate_version : Z;
  slate_chain_id : bytes;
  slate_amount : Z;
  slate_fee : Z;
  slate_lock_height : Z;
  sender_inputs : list Commitment;
  sender_change_output : option OutputCommitmentAndProof;
  sender_public_excess : PublicKey;
  sender_public_nonce : PublicKey;
  sender_offset_contribution : bytes;
  recipient_output : option OutputCommitmentAndProof;
  recipient_public_excess : option PublicKey;
  recipient_public_nonce : option PublicKey;
  sender_partial_sig : option PartialSig;
  recipient_partial_sig : option PartialSig;
  sender_change_recovery_capsule : bytes;
  recipient_recovery_capsule : bytes;
}.

Definition slate_new (chain_id : bytes) (amount fee lock_height : Z) (inputs : list Commitment)
    (change : option OutputCommitmentAndProof) (public_excess public_nonce : PublicKey)
    (offset_contribution : bytes) : Slate := {|
  slate_version := CURRENT_SLATE_VERSION; slate_chain_id := chain_id; slate_amount := amount;
  slate_fee := fee; slate_lock_height := lock_height; sender_inputs := inputs;
  sender_change_output := change; sender_public_excess := public_excess;
  sender_public_nonce := public_nonce; sender_offset_contribution := offset_contribution;
  recipient_output := None; recipient_public_excess := None; recipient_public_nonce := None;
  sender_partial_sig := None; recipient_partial_sig := None;
  sender_change_recovery_capsule := []; recipient_recovery_capsule := [] |}.

Definition with_capsules (s : Slate) (change recipient : bytes) : Slate := {|
  slate_version := slate_version s; slate_chain_id := slate_chain_id s; slate_amount := slate_amount s;
  slate_fee := slate_fee s; slate_lock_height := slate_lock_height s; sender_inputs := sender_inputs s;
  sender_change_output := sender_change_output s; sender_public_excess := sender_public_excess s;
  sender_public_nonce := sender_public_nonce s;
  sender_offset_contribution := sender_offset_contribution s;
  recipient_output := recipient_output s; recipient_public_excess := recipient_public_excess s;
  recipient_public_nonce := recipient_public_nonce s; sender_partial_sig := sender_partial_sig s;
  recipient_partial_sig := recipient_partial_sig s;
  sender_change_recovery_capsule := change; recipient_recovery_capsule := recipient |}.

Definition is_some {A} (o : option A) : bool := match o with Some _ => true | None => false end.
Definition bytes_is_empty (b : bytes) : bool := zlen b =? 0.

Definition validate_recovery_capsules (s : Slate) : Result unit :=
  if Bool.eqb (is_some (sender_change_output s)) (bytes_is_empty (sender_change_recovery_capsule s)) then
    Err (Invalid "Slate recovery extension change output/capsule mismatch")
  else
    let? _ := (if negb (bytes_is_empty (sender_change_recovery_capsule s)) then
                 let? _ := capsule_from_bytes (sender_change_recovery_capsule s) in Ok tt
               else Ok tt) in
    if Bool.eqb (is_some (recipient_output s)) (bytes_is_empty (recipient_recovery_capsule s)) then
      Err (Invalid "Slate recovery extension recipient output/capsule mismatch")
    else if negb (bytes_is_empty (recipient_recovery_capsule s)) then
      let? _ := capsule_from_bytes (recipient_recovery_capsule s) in Ok tt
    else Ok tt.

Definition known_slate_version (v : Z) : bool :=
  (v =? CURRENT_SLATE_VERSION) || (v =? RECOVERY_SLATE_VERSION).

Definition slate_validate (s : Slate) : Result unit :=
  if negb (known_slate_version (slate_version s)) then
    Err (Invalid ("unsupported slate version " +:+ dec (slate_version s)))
  else
    let? _ := (if slate_version s =? RECOVERY_SLATE_VERSION then validate_recovery_capsules s else Ok tt) in
    let? _ := from_noms (slate_amount s) in
    let? _ := from_noms (slate_fee s) in
    Ok tt.

Definition write_public_key (w : Writer) (pk : PublicKey) : Result Writer :=
  Ok (write_bytes w (to_compressed_bytes pk)).
Definition read_public_key : Rd PublicKey :=
  read! b := read_array 33 in rd_lift (pk_from_compressed_bytes b).
Definition write_partial_sig (w : Writer) (p : PartialSig) : Result Writer :=
  Ok (write_bytes w (partial_to_bytes p)).
Definition read_partial_sig : Rd PartialSig :=
  read! b := read_array 32 in rd_lift (partial_from_bytes b).
Definition read_commitment : Rd Commitment :=
  read! b := read_array 33 in rd_lift (from_compressed_bytes b).
Definition read_commitment_list : Rd (list Commitment) :=
  read! count := read_u32 in
  if MAX_INPUTS_PER_TX <? count then
    rd_fail (Malformed ("sender input count " +:+ dec count +:+ " exceeds limit " +:+ dec MAX_INPUTS_PER_TX))
  else read_items read_commitment (Z.to_nat count).

#[export] Instance Slate_serialize : DomSerialize Slate := λ s w,
  let w := write_u16 w (slate_version s) in
  let w := write_bytes w (slate_chain_id s) in
  let w := write_u64 w (slate_amount s) in
  let w := write_u64 w (slate_fee s) in
  let w := write_u64 w (slate_lock_height s) in
  let? w := write_commitment_list w (sender_inputs s) in
  let? w := write_option w (sender_change_output s) (λ w o, serialize o w) in
  let? w := write_public_key w (sender_public_excess s) in
  let? w := write_public_key w (sender_public_nonce s) in
  let w := write_bytes w (sender_offset_contribution s) in
  let? w := write_option w (recipient_output s) (λ w o, serialize o w) in
  let? w := write_option w (recipient_public_excess s) write_public_key in
  let? w := write_option w (recipient_public_nonce s) write_public_key in
  let? w := write_option w (sender_partial_sig s) write_partial_sig in
  let? w := write_option w (recipient_partial_sig s) write_partial_sig in
  if slate_version s =? RECOVERY_SLATE_VERSION then
    let? w := write_vec w (sender_change_recovery_capsule s) in
    write_vec w (recipient_recovery_capsule s)
  else if negb (bytes_is_empty (sender_change_recovery_capsule s)) || negb (bytes_is_empty (recipient_recovery_capsule s))
  then Err (Invalid "Slate version 3 cannot carry recovery capsules")
  else Ok w.

#[export] Instance Slate_deserialize : DomDeserialize Slate := {|
  MIN_SERIALIZED_SIZE := 2 + 32 + 8 + 8 + 8 + 4 + 1 + 33 + 33 + 32 + 1 + 1 + 1 + 1 + 1;
  deserialize :=
    read! version := read_u16 in
    if negb (known_slate_version version) then
      rd_fail (Invalid ("unsupported slate version " +:+ dec version))
    else
      read! chain_id := read_array 32 in
      read! amount := read_u64 in
      read! fee := read_u64 in
      read! lock_height := read_u64 in
      read! inputs := read_commitment_list in
      read! change := read_option (deserialize (T := OutputCommitmentAndProof)) in
      read! s_excess := read_public_key in
      read! s_nonce := read_public_key in
      read! offset := read_array 32 in
      read! r_output := read_option (deserialize (T := OutputCommitmentAndProof)) in
      read! r_excess := read_option read_public_key in
      read! r_nonce := read_option read_public_key in
      read! s_sig := read_option read_partial_sig in
      read! r_sig := read_option read_partial_sig in
      let slate := {|
        slate_version := version; slate_chain_id := chain_id; slate_amount := amount; slate_fee := fee;
        slate_lock_height := lock_height; sender_inputs := inputs; sender_change_output := change;
        sender_public_excess := s_excess; sender_public_nonce := s_nonce;
        sender_offset_contribution := offset; recipient_output := r_output;
        recipient_public_excess := r_excess; recipient_public_nonce := r_nonce;
        sender_partial_sig := s_sig; recipient_partial_sig := r_sig;
        sender_change_recovery_capsule := []; recipient_recovery_capsule := [] |} in
      if version =? RECOVERY_SLATE_VERSION then
        read! change_capsule := read_vec RECOVERY_CAPSULE_SIZE in
        read! recipient_capsule := read_vec RECOVERY_CAPSULE_SIZE in
        let slate := with_capsules slate change_capsule recipient_capsule in
        read! _ := rd_lift (validate_recovery_capsules slate) in
        rd_ret slate
      else rd_ret slate;
|}.

(** ** Envelopes *)

Record SlateEnvelope : Type := {
  envelope_version : Z;
  env_network_magic : Z;
  env_chain_id : bytes;
  slate_id : bytes;
  replay_id : bytes;
  flow : Z;
  phase : Z;
  expires_at_height : Z;
  sender_address : Address;
  receiver_address : Address;
  body : Slate;
}.

Definition supported_pair (envelope_version body_version : Z) : bool :=
  (envelope_version =? CURRENT_SLATE_ENVELOPE_VERSION) && (body_version =? CURRENT_SLATE_VERSION)
  || (envelope_version =? RECOVERY_SLATE_ENVELOPE_VERSION) && (body_version =? RECOVERY_SLATE_VERSION).
Definition known_network (m : Z) : bool :=
  (m =? NETWORK_MAGIC_MAINNET) || (m =? NETWORK_MAGIC_TESTNET) || (m =? NETWORK_MAGIC_REGTEST).
Definition known_phase (p : Z) : bool :=
  (p =? SLATE_PHASE_SENDER_OFFER) || (p =? SLATE_PHASE_RECEIVER_RESPONSE) || (p =? SLATE_PHASE_FINALIZED).

Definition envelope_validate (e : SlateEnvelope) : Result unit :=
  if negb (supported_pair (envelope_version e) (slate_version (body e))) then
    Err (Invalid ("unsupported slate envelope/body version pair " +:+ dec (envelope_version e)
                  +:+ "/" +:+ dec (slate_version (body e))))
  else if negb (bool_decide (slate_chain_id (body e) = env_chain_id e)) then
    Err (Invalid "slate body chain_id does not match envelope chain_id")
  else if negb (known_network (env_network_magic e)) then
    Err (Invalid ("unsupported slate network magic 0x" +:+ hex_u32 (env_network_magic e)))
  else
    let? _ := validate_for_network (sender_address e) (env_network_magic e) in
    let? _ := validate_for_network (receiver_address e) (env_network_magic e) in
    if bool_decide (addr_payload (sender_address e) = addr_payload (receiver_address e)) then
      Err (Invalid "duplicate sender and receiver address identity")
    else if negb (flow e =? SLATE_FLOW_STANDARD_SEND) then
      Err (Invalid ("unsupported slate flow " +:+ dec (flow e)))
    else if negb (known_phase (phase e)) then
      Err (Invalid ("unsupported slate phase " +:+ dec (phase e)))
    else if expires_at_height e =? 0 then Err (Invalid "slate expiry height must be non-zero")
    else if bool_decide (slate_id e = replicate 32 0) || bool_decide (replay_id e = replicate 32 0) then
      Err (Invalid "slate_id and replay_id must be non-zero")
    else slate_validate (body e).

Definition envelope_new (network_magic : Z) (chain_id slate_id replay_id : bytes)
    (phase expires_at_height : Z) (sender_address receiver_address : Address) (body : Slate)
  : Result SlateEnvelope :=
  let envelope := {|
    envelope_version := if slate_version body =? RECOVERY_SLATE_VERSION
                        then RECOVERY_SLATE_ENVELOPE_VERSION else CURRENT_SLATE_ENVELOPE_VERSION;
    env_network_magic := network_magic; env_chain_id := chain_id; slate_id := slate_id;
    replay_id := replay_id; flow := SLATE_FLOW_STANDARD_SEND; phase := phase;
    expires_at_height := expires_at_height; sender_address := sender_address;
    receiver_address := receiver_address; body := body |} in
  let? _ := envelope_validate envelope in
  Ok envelope.

Definition is_expired_at (e : SlateEnvelope) (current_height : Z) : bool := expires_at_height e <? current_height.

Definition signature_digest (e : SlateEnvelope) (role : Z) : Result bytes :=
  if negb ((role =? SLATE_ROLE_SENDER) || (role =? SLATE_ROLE_RECEIVER)) then
    Err (Invalid ("unsupported slate participant role " +:+ dec role))
  else
    let? body_bytes := to_bytes (body e) in
    let data := le_bytes 2 (envelope_version e) ++ le_bytes 4 (env_network_magic e) ++ env_chain_id e
                ++ slate_id e ++ replay_id e ++ [flow e] ++ [phase e] ++ [role]
                ++ le_bytes 8 (expires_at_height e) ++ to_payload_bytes (sender_address e)
                ++ to_payload_bytes (receiver_address e) ++ body_bytes in
    let domain := if envelope_version e =? RECOVERY_SLATE_ENVELOPE_VERSION
                  then RECOVERY_SLATE_SIGNATURE_DIGEST_DOMAIN else SLATE_SIGNATURE_DIGEST_DOMAIN in
    Ok (hash_bytes (blake2b_256_tagged domain data)).

#[export] Instance SlateEnvelope_serialize : DomSerialize SlateEnvelope := λ e w,
  let w := write_u16 w (envelope_version e) in
  let w := write_u32 w (env_network_magic e) in
  let w := write_bytes w (env_chain_id e) in
  let w := write_bytes w (slate_id e) in
  let w := write_bytes w (replay_id e) in
  let w := write_u8 w (flow e) in
  let w := write_u8 w (phase e) in
  let w := write_u64 w (expires_at_height e) in
  let w := write_bytes w (to_payload_bytes (sender_address e)) in
  let w := write_bytes w (to_payload_bytes (receiver_address e)) in
  serialize (body e) w.

Definition address_from_payload_bytes (b : bytes) : Result Address :=
  let network_magic := le_val (slice b 3 7) in
  let key := slice b 7 40 in
  let? address := new_for_network key network_magic in
  if negb (bool_decide (to_payload_bytes address = b)) then
    Err (Malformed "non-canonical address payload in slate envelope")
  else Ok address.

Definition read_address : Rd Address :=
  read! b := read_array 40 in rd_lift (address_from_payload_bytes b).

#[export] Instance SlateEnvelope_deserialize : DomDeserialize SlateEnvelope := {|
  MIN_SERIALIZED_SIZE := 2 + 4 + 32 + 32 + 32 + 1 + 1 + 8 + 40 + 40 + MIN_SERIALIZED_SIZE Slate;
  deserialize :=
    read! version := read_u16 in
    if negb ((version =? CURRENT_SLATE_ENVELOPE_VERSION) || (version =? RECOVERY_SLATE_ENVELOPE_VERSION)) then
      rd_fail (Invalid ("unsupported slate envelope version " +:+ dec version))
    else
      read! network_magic := read_u32 in
      read! chain_id := read_array 32 in
      read! sid := read_array 32 in
      read! rid := read_array 32 in
      read! flow := read_u8 in
      read! phase := read_u8 in
      read! expires := read_u64 in
      read! sender := read_address in
      read! receiver := read_address in
      read! body := deserialize (T := Slate) in
      let envelope := {|
        envelope_version := version; env_network_magic := network_magic; env_chain_id := chain_id;
        slate_id := sid; replay_id := rid; flow := flow; phase := phase; expires_at_height := expires;
        sender_address := sender; receiver_address := receiver; body := body |} in
      read! _ := rd_lift (envelope_validate envelope) in
      rd_ret envelope;
|}.
End slate.
