(* ===== verification/SlateLaws.v ===== *)
(** * Laws of slates

    The wire formats of [Slate.v] are exact: decoding accepts precisely the encodings of
    well-formed slates and envelopes. *)

From Stdlib Require Import ZArith Lia.
From stdpp Require Import base list strings.
From S2P Require Import Prelude CoreError Core Address AddressLaws Serialization CryptoHash Curve Keys.
From S2P Require Import Pedersen Schnorr RangeProof RangeProve Transaction TransactionLaws Slate.
Local Open Scope Z_scope.

(** ** Fields *)

Definition array_ok (n : Z) (b : bytes) : Prop := zlen b = n ∧ bytes_ok b.
Definition opt_ok {A} (P : A → Prop) (o : option A) : Prop := match o with Some x => P x | None => True end.
Definition opt_wire {A} (w : A → bytes) (o : option A) : bytes :=
  match o with Some x => 1 :: w x | None => [0] end.

Lemma parses_decoded {A} n (dec : bytes → Result A) (P : A → Prop) (enc : A → bytes) :
  0 ≤ n < 2 ^ 63 → (∀ x, P x → array_ok n (enc x)) →
  (∀ b, array_ok n b → dec b ≠ Panic ∧ ∀ x, dec b = Ok x ↔ P x ∧ enc x = b) →
  parses (read! b := read_array n in rd_lift (dec b)) P enc.
Proof.
  intros Hn Henc Hdec. eapply parses_equiv.
  - eapply (parses_bind _ _ enc _ (λ _, True) P _ (λ _, [])); [by apply read_array_parses|].
    intros b Hb. destruct (Hdec b Hb) as [Hnp Hiff]. apply parses_lift_ret; [done|].
    intros x. rewrite Hiff. tauto.
  - intros x. cbn beta. split; [tauto|]. intros Hx. split; [done|]. split; [by apply Henc|done].
  - intros x _. cbn beta. unfold id. by rewrite app_nil_r.
Qed.

(** A field that is checked as soon as it is read *)
Lemma parses_bind_guard {A T} (d : Rd A) (bad : A → bool) (e : A → DomError) (k : A → Rd T) (f : T → A)
    (P : A → Prop) (C R : T → Prop) (w : A → bytes) (v : T → bytes) :
  parses d P w →
  (∀ x, P x → bad x = false → parses (k x) (λ t, (C t ∧ f t = x) ∧ R t) v) →
  parses (read! x := d in if bad x then rd_fail (e x) else k x)
    (λ t, C t ∧ (P (f t) ∧ bad (f t) = false) ∧ R t) (λ t, w (f t) ++ v t).
Proof.
  intros Hd Hk.
  apply (parses_ext (rd_bind (rd_bind d (λ x, if bad x then rd_fail (e x) else rd_ret x)) k)).
  { intros r. rewrite rd_bind_assoc. unfold rd_bind. destruct (d r) as [[x r']| |]; [|done..]. cbn [rbind].
    by destruct (bad x). }
  apply parses_bind with (P := λ x, P x ∧ bad x = false); [|by intros x [? ?]; apply Hk].
  eapply parses_equiv.
  - eapply (parses_bind d _ id P (λ _, True) (λ x, bad x = false) w (λ _, [])); [done|]. intros x Hx.
    apply parses_guard; [intros Hb a ((_ & <-) & H); unfold id in *; congruence|]. intros Hb.
    apply parses_ret. intros a. unfold id. naive_solver.
  - intros x. unfold id. tauto.
  - intros x _. unfold id. by rewrite app_nil_r.
Qed.

Lemma parses_option {A} (d : Rd A) (P : A → Prop) w :
  parses d P w → parses (read_option d) (opt_ok P) (opt_wire w).
Proof.
  intros Hd. unfold read_option.
  eapply parses_equiv.
  - eapply (parses_bind read_u8 _ (λ o : option A, match o with Some _ => 1 | None => 0 end) _ (λ _, True) (opt_ok P) _
      (λ o, match o with Some x => w x | None => [] end)); [apply read_u8_parses|]. intros f Hf.
    destruct (Z.eqb_spec f 0) as [->|H0].
    + eapply parses_equiv; [apply (parses_ret None (λ o, o = None)); done| |by intros ? ->].
      intros [x|]; cbn; naive_solver.
    + destruct (Z.eqb_spec f 1) as [->|H1].
      * intros r Hr. destruct (Hd r Hr) as [Hnp Hiff]. unfold rd_bind, rd_ret. split.
        -- intros [H|([x r'] & _ & H)]%rbind_Panic; done.
        -- intros o r'. rewrite rbind_Ok. split.
           ++ intros ([x r1] & Hx & [= <- <-]). apply Hiff in Hx as [HPx Hx]. by split.
           ++ intros (((_ & Ho) & HP) & Hp). destruct o as [x|]; [|done]. exists (x, r'). split; [by apply Hiff|done].
      * intros r Hr. split; [done|]. intros o r'. split; [done|]. intros [[[_ Ho] _] _]. by destruct o.
  - intros o. cbn beta. split; [tauto|]. intros H. split; [done|]. split; [by destruct o|done].
  - intros [x|] _; done.
Qed.

Lemma write_option_ok {A} (f : Writer → A → Result Writer) (P : A → Prop) enc w o :
  (∀ w x, P x → f w x = Ok (append w (enc x))) → opt_ok P o → write_option w o f = Ok (append w (opt_wire enc o)).
Proof.
  intros Hf Ho. destruct o as [x|]; [|done]. cbn [write_option opt_wire]. rewrite Hf by done.
  unfold write_u8. by rewrite append_append.
Qed.

Lemma opt_wire_ok {A} (P : A → Prop) enc o : (∀ x, P x → bytes_ok (enc x)) → opt_ok P o → bytes_ok (opt_wire enc o).
Proof.
  intros He Ho. destruct o as [x|]; cbn; apply bytes_ok_cons; split; try done; auto with dom.
Qed.
Lemma zlen_opt_wire {A} (enc : A → bytes) o : 1 ≤ zlen (opt_wire enc o).
Proof. destruct o as [x|]; [|done]. cbn [opt_wire]. rewrite zlen_cons. pose proof (zlen_nonneg (enc x)). lia. Qed.

Section laws.
Context `{HB : Blake2b256} `{HC : Secp256k1}.

Definition partial_ok (p : PartialSig) : Prop := array_ok 32 (partial_s p) ∧ is_scalar_valid (partial_s p) = true.
Definition ocp_ok (o : OutputCommitmentAndProof) : Prop :=
  commitment_ok (ocp_commitment o) ∧ array_ok RANGE_PROOF_SIZE (rp_bytes (ocp_proof o)).
Definition ocp_wire (o : OutputCommitmentAndProof) : bytes :=
  commit_bytes (ocp_commitment o) ++ vec_wire (rp_bytes (ocp_proof o)).

Lemma pk_array pk : pk_ok pk → array_ok 33 (to_compressed_bytes pk).
Proof. intros H. split; [by apply sec1_encode_len|apply sec1_encode_bytes]. Qed.

Lemma read_public_key_parses : parses read_public_key pk_ok to_compressed_bytes.
Proof.
  apply parses_decoded; [done|apply pk_array|]. intros b [Hl Hb]. split; [apply pk_from_compressed_bytes_no_panic|].
  intros pk. split.
  - intros H. split; [by eapply pk_from_compressed_bytes_ok|].
    apply pk_from_compressed_bytes_Ok in H as (_ & Hp & Hw & Hd). by apply sec1_encode_decode.
  - intros [Hok <-]. by apply pk_roundtrip.
Qed.

Lemma read_partial_sig_parses : parses read_partial_sig partial_ok partial_to_bytes.
Proof.
  apply parses_decoded; [done|by intros p [? _]|]. intros b [Hl Hb]. unfold partial_from_bytes,
    partial_signature_length_is_canonical, partial_ok, partial_to_bytes. rewrite Hl. cbn [negb Z.eqb Pos.eqb].
  split; [by destruct (is_scalar_valid b)|]. intros [p]. cbn [partial_s]. destruct (is_scalar_valid b) eqn:Hv; cbn [negb].
  - split; [intros [= <-]; done|by intros [_ ->]].
  - split; [done|]. intros [[_ H] ->]. congruence.
Qed.

Lemma read_commitment_parses : parses read_commitment commitment_ok commit_bytes.
Proof.
  apply parses_decoded; [done|apply commitment_ok_bytes|]. intros b [Hl Hb]. split; [apply from_compressed_bytes_no_panic|].
  intros c. by apply commitment_ok_intro.
Qed.

Definition inputs_ok (l : list Commitment) : Prop := zlen l ≤ MAX_INPUTS_PER_TX ∧ Forall commitment_ok l.
Definition inputs_wire (l : list Commitment) : bytes := le_bytes 4 (zlen l) ++ mjoin (commit_bytes <$> l).

Lemma read_commitment_list_parses : parses read_commitment_list inputs_ok inputs_wire.
Proof.
  eapply parses_equiv.
  - eapply (parses_bind_guard read_u32 (λ c, MAX_INPUTS_PER_TX <? c) _ _ zlen _ (λ _, True) (Forall commitment_ok) _
      (λ l, mjoin (commit_bytes <$> l))); [apply read_u32_parses|]. intros n Hn _.
    eapply parses_equiv; [apply (read_items_parses _ _ _ (Z.to_nat n) read_commitment_parses)| |done].
    intros l. cbn beta. unfold zlen, in_width in *. split; [intros [? ?]; split; [split; [done|lia]|done]|].
    intros [[_ ?] ?]. split; [lia|done].
  - intros l. cbn beta. unfold inputs_ok. rewrite Z.ltb_ge. split; [tauto|]. intros [Hle Hl].
    split; [done|]. split; [split; [|done]|done]. pose proof (zlen_nonneg l). unfold in_width, MAX_INPUTS_PER_TX in *. lia.
  - done.
Qed.

Lemma write_commitments w l :
  foldl (λ w c, write_bytes w (commit_bytes c)) w l = append w (mjoin (commit_bytes <$> l)).
Proof.
  revert w. induction l as [|c l IH]; intros w; [by rewrite append_nil|]. cbn [foldl fmap list_fmap mjoin list_join].
  rewrite IH. unfold write_bytes. by rewrite append_append.
Qed.

Lemma write_commitment_list_ok w l : inputs_ok l → write_commitment_list w l = Ok (append w (inputs_wire l)).
Proof.
  intros [Hle _]. unfold write_commitment_list. destruct (Z.leb_spec (2 ^ 32) (zlen l)) as [H|_].
  { unfold MAX_INPUTS_PER_TX in Hle. lia. }
  rewrite write_commitments. unfold write_u32. by rewrite append_append.
Qed.

Lemma inputs_wire_ok l : inputs_ok l → bytes_ok (inputs_wire l) ∧ 4 ≤ zlen (inputs_wire l).
Proof.
  intros [_ Hl]. unfold inputs_wire. rewrite zlen_app, zlen_le_bytes.
  split; [|pose proof (zlen_nonneg (mjoin (commit_bytes <$> l))); lia].
  apply bytes_ok_app. split; [apply le_bytes_ok|]. induction Hl as [|c l Hc Hl IH]; [constructor|].
  cbn [fmap list_fmap mjoin list_join]. apply bytes_ok_app. split; [by apply commitment_ok_bytes|done].
Qed.

Lemma range_proof_from_bytes_Ok b p :
  range_proof_from_bytes b = Ok p ↔ zlen b = RANGE_PROOF_SIZE ∧ p = {| rp_bytes := b |}.
Proof.
  unfold range_proof_from_bytes, range_proof_length_is_canonical.
  destruct (Z.eqb_spec (zlen b) RANGE_PROOF_SIZE); cbn [negb]; naive_solver.
Qed.

#[export, refine] Instance OutputCommitmentAndProof_codec : Codec OutputCommitmentAndProof := {|
  wf := ocp_ok; wire := ocp_wire |}.
Proof.
  - intros o w [Hc [Hl Hp]]. unfold serialize, OutputCommitmentAndProof_serialize, write_bytes.
    rewrite (write_vec_ok MAX_PROOF_SIZE); [by rewrite append_append|]. unfold vec_ok. by rewrite Hl.
  - eapply parses_equiv.
    + eapply (parses_bind _ _ (λ o, commit_bytes (ocp_commitment o)) _ (λ _, True)
        (λ o, vec_ok MAX_PROOF_SIZE (rp_bytes (ocp_proof o)) ∧
              (commitment_ok (ocp_commitment o) ∧ zlen (rp_bytes (ocp_proof o)) = RANGE_PROOF_SIZE)));
        [apply read_array_parses; lia|]. intros b [Hl Hb].
      eapply (parses_bind _ _ (λ o, rp_bytes (ocp_proof o)) _ _ _ _ (λ _, [])); [apply read_vec_parses|]. intros p Hp.
      apply parses_lift; [apply from_compressed_bytes_no_panic|..].
      * intros c Hc. apply commitment_ok_intro in Hc as [Hok <-]; [|done].
        apply parses_lift; [unfold range_proof_from_bytes; by destruct (negb _)|..].
        -- intros rp [Hrl ->]%range_proof_from_bytes_Ok. apply parses_ret. intros [[cb] [pb]]. destruct c as [cb'].
           cbn. naive_solver.
        -- intros Hno o (((_ & _) & He) & _ & Hrl). apply (Hno {| rp_bytes := p |}), range_proof_from_bytes_Ok.
           by rewrite <- He.
      * intros Hno o (((_ & He) & _) & Hf & _). apply (Hno (ocp_commitment o)). by apply commitment_ok_intro.
    + intros o. cbn beta. unfold ocp_ok, array_ok, vec_ok. split; [tauto|]. intros (Hf & Hl & Hb).
      pose proof (commitment_ok_bytes _ Hf). rewrite Hl. done.
    + intros o _. unfold id, ocp_wire. by rewrite app_nil_r.
  - intros o [Hc [Hl Hp]]. apply bytes_ok_app. split; [by apply commitment_ok_bytes|].
    eapply (vec_wire_ok MAX_PROOF_SIZE). unfold vec_ok. by rewrite Hl.
  - intros o [Hc [Hl Hp]]. unfold ocp_wire. rewrite zlen_app, zlen_vec_wire, Hl, (proj1 (commitment_ok_bytes _ Hc)). done.
  - done.
Defined.

(** ** The body *)

Definition capsules_ok (s : Slate) : Prop :=
  if slate_version s =? RECOVERY_SLATE_VERSION then
    vec_ok RECOVERY_CAPSULE_SIZE (sender_change_recovery_capsule s) ∧
    vec_ok RECOVERY_CAPSULE_SIZE (recipient_recovery_capsule s) ∧ validate_recovery_capsules s = Ok tt
  else sender_change_recovery_capsule s = [] ∧ recipient_recovery_capsule s = [].
Definition capsules_wire (s : Slate) : bytes :=
  if slate_version s =? RECOVERY_SLATE_VERSION
  then vec_wire (sender_change_recovery_capsule s) ++ vec_wire (recipient_recovery_capsule s) else [].

Record slate_ok (s : Slate) : Prop := {
  sw_version : known_slate_version (slate_version s) = true;
  sw_chain : array_ok 32 (slate_chain_id s);
  sw_amount : u64_ok (slate_amount s);
  sw_fee : u64_ok (slate_fee s);
  sw_lock : u64_ok (slate_lock_height s);
  sw_inputs : inputs_ok (sender_inputs s);
  sw_change : opt_ok ocp_ok (sender_change_output s);
  sw_excess : pk_ok (sender_public_excess s);
  sw_nonce : pk_ok (sender_public_nonce s);
  sw_offset : array_ok 32 (sender_offset_contribution s);
  sw_output : opt_ok ocp_ok (recipient_output s);
  sw_r_excess : opt_ok pk_ok (recipient_public_excess s);
  sw_r_nonce : opt_ok pk_ok (recipient_public_nonce s);
  sw_s_sig : opt_ok partial_ok (sender_partial_sig s);
  sw_r_sig : opt_ok partial_ok (recipient_partial_sig s);
  sw_capsules : capsules_ok s;
}.

Definition slate_wire (s : Slate) : bytes :=
  le_bytes 2 (slate_version s) ++ slate_chain_id s ++ le_bytes 8 (slate_amount s) ++ le_bytes 8 (slate_fee s)
  ++ le_bytes 8 (slate_lock_height s) ++ inputs_wire (sender_inputs s)
  ++ opt_wire ocp_wire (sender_change_output s) ++ to_compressed_bytes (sender_public_excess s)
  ++ to_compressed_bytes (sender_public_nonce s) ++ sender_offset_contribution s
  ++ opt_wire ocp_wire (recipient_output s) ++ opt_wire to_compressed_bytes (recipient_public_excess s)
  ++ opt_wire to_compressed_bytes (recipient_public_nonce s) ++ opt_wire partial_to_bytes (sender_partial_sig s)
  ++ opt_wire partial_to_bytes (recipient_partial_sig s) ++ capsules_wire s.

Lemma known_version_u16 v : known_slate_version v = true → u16_ok v.
Proof. intros [H|H]%orb_true_iff; apply Z.eqb_eq in H as ->; done. Qed.

Lemma slate_serialize s w : slate_ok s → serialize s w = Ok (append w (slate_wire s)).
Proof.
  intros [Hv Hc Ha Hf Hl Hi Hch He Hn Ho Hr Hre Hrn Hs Hrs Hcap].
  assert (Hocp : ∀ w o, ocp_ok o → serialize o w = Ok (append w (ocp_wire o)))
    by (intros w0 o H0; exact (serialize_wire o w0 H0)).
  unfold serialize at 1, Slate_serialize, write_u16, write_u64, write_bytes. rewrite !append_append.
  rewrite write_commitment_list_ok by done. cbn [rbind].
  rewrite (write_option_ok (λ w o, serialize o w) ocp_ok ocp_wire) by done. cbn [rbind].
  unfold write_public_key at 1 2. cbn [rbind]. unfold write_bytes. rewrite !append_append.
  rewrite (write_option_ok (λ w o, serialize o w) ocp_ok ocp_wire) by done. cbn [rbind].
  do 2 (rewrite (write_option_ok write_public_key pk_ok to_compressed_bytes) by done; cbn [rbind]).
  do 2 (rewrite (write_option_ok write_partial_sig partial_ok partial_to_bytes) by done; cbn [rbind]).
  rewrite !append_append. unfold slate_wire, capsules_wire, capsules_ok in *.
  destruct (slate_version s =? RECOVERY_SLATE_VERSION).
  - destruct Hcap as (H1 & H2 & _). rewrite (write_vec_ok _ _ _ H1). cbn [rbind].
    rewrite (write_vec_ok _ _ _ H2), !append_append. by rewrite <- !app_assoc.
  - destruct Hcap as [-> ->]. cbn [bytes_is_empty negb orb]. rewrite app_nil_r. by rewrite <- !app_assoc.
Qed.

(** What the fields before the capsules fix *)
Definition same_fields (s t : Slate) : Prop :=
  t = with_capsules s (sender_change_recovery_capsule t) (recipient_recovery_capsule t).

Lemma capsules_tail_parses (s : Slate) :
  sender_change_recovery_capsule s = [] → recipient_recovery_capsule s = [] →
  parses (if slate_version s =? RECOVERY_SLATE_VERSION then
            read! change_capsule := read_vec RECOVERY_CAPSULE_SIZE in
            read! recipient_capsule := read_vec RECOVERY_CAPSULE_SIZE in
            read! _ := rd_lift (validate_recovery_capsules (with_capsules s change_capsule recipient_capsule)) in
            rd_ret (with_capsules s change_capsule recipient_capsule)
          else rd_ret s) (λ t, same_fields s t ∧ capsules_ok t) capsules_wire.
Proof.
  intros H1 H2. destruct (slate_version s =? RECOVERY_SLATE_VERSION) eqn:Hv.
  - eapply parses_equiv.
    + eapply (parses_bind _ _ sender_change_recovery_capsule _ (same_fields s)); [apply read_vec_parses|]. intros c Hc.
      eapply (parses_bind _ _ recipient_recovery_capsule _ _ (λ t, validate_recovery_capsules t = Ok tt) _ (λ _, []));
        [apply read_vec_parses|]. intros r Hr.
      apply parses_lift.
      * unfold validate_recovery_capsules, capsule_from_bytes. cbv zeta. no_panic.
      * intros [] Hok. apply parses_ret. intros t. split.
        -- intros [[[-> <-] <-] _]. done.
        -- intros ->. done.
      * intros Hno t [[[Ht <-] <-] Hok]. apply (Hno tt). by rewrite <- Ht.
    + intros t. cbn beta. unfold capsules_ok. split.
      * intros (Ht & ?). split; [done|]. assert (slate_version t = slate_version s) as -> by by rewrite Ht. by rewrite Hv.
      * intros (Ht & Hc). assert (slate_version t = slate_version s) as He by by rewrite Ht. by rewrite He, Hv in Hc.
    + intros t (Ht & _). cbn beta. unfold capsules_wire. assert (slate_version t = slate_version s) as -> by by rewrite Ht.
      by rewrite Hv, app_nil_r.
  - eapply parses_equiv; [apply (parses_ret s (λ t, t = s)); done| |].
    + intros t. unfold same_fields, capsules_ok. split.
      * intros ->. rewrite Hv. split; [by destruct s|done].
      * intros [Ht Hc]. assert (slate_version t = slate_version s) as He by by rewrite Ht.
        rewrite He, Hv in Hc. destruct Hc as [Hc1 Hc2]. rewrite Hc1, Hc2 in Ht. rewrite Ht. destruct s. cbn in *. by subst.
    + intros t ->. unfold capsules_wire. by rewrite Hv.
Qed.

Lemma slate_parses : parses (deserialize (T := Slate)) slate_ok slate_wire.
Proof.
  eapply parses_equiv.
  - eapply (parses_bind_guard _ _ _ _ slate_version _ (λ _, True)); [apply read_u16_parses|]. intros v Hv1 Hv2.
    eapply (parses_bind _ _ slate_chain_id); [by apply read_array_parses|]. intros chain Hchain.
    eapply (parses_bind _ _ slate_amount); [apply read_u64_parses|]. intros amount Hamount.
    eapply (parses_bind _ _ slate_fee); [apply read_u64_parses|]. intros fee Hfee.
    eapply (parses_bind _ _ slate_lock_height); [apply read_u64_parses|]. intros lock Hlock.
    eapply (parses_bind _ _ sender_inputs); [apply read_commitment_list_parses|]. intros ins Hins.
    eapply (parses_bind _ _ sender_change_output); [apply parses_option, (deserialize_parses (T := OutputCommitmentAndProof))|]. intros change Hchange.
    eapply (parses_bind _ _ sender_public_excess); [apply read_public_key_parses|]. intros se Hse.
    eapply (parses_bind _ _ sender_public_nonce); [apply read_public_key_parses|]. intros sn Hsn.
    eapply (parses_bind _ _ sender_offset_contribution); [by apply read_array_parses|]. intros off Hoff.
    eapply (parses_bind _ _ recipient_output); [apply parses_option, (deserialize_parses (T := OutputCommitmentAndProof))|]. intros ro Hro.
    eapply (parses_bind _ _ recipient_public_excess); [apply parses_option, read_public_key_parses|]. intros re Hre.
    eapply (parses_bind _ _ recipient_public_nonce); [apply parses_option, read_public_key_parses|]. intros rn Hrn.
    eapply (parses_bind _ _ sender_partial_sig); [apply parses_option, read_partial_sig_parses|]. intros ss Hss.
    eapply (parses_bind _ _ recipient_partial_sig _ _ capsules_ok _ capsules_wire); [apply parses_option, read_partial_sig_parses|]. intros rs Hrs.
    cbv zeta. eapply parses_equiv; [apply (capsules_tail_parses {|
        slate_version := v; slate_chain_id := chain; slate_amount := amount; slate_fee := fee;
        slate_lock_height := lock; sender_inputs := ins; sender_change_output := change;
        sender_public_excess := se; sender_public_nonce := sn;
        sender_offset_contribution := off; recipient_output := ro;
        recipient_public_excess := re; recipient_public_nonce := rn;
        sender_partial_sig := ss; recipient_partial_sig := rs;
        sender_change_recovery_capsule := []; recipient_recovery_capsule := [] |}); done| |done].
    intros t. unfold same_fields, with_capsules. cbn. split.
    + intros [Ht Hcap]. split; [|done]. rewrite Ht. cbn. tauto.
    + intros [Ht Hcap]. split; [|done]. destruct_and! Ht. destruct t. cbn in *. subst. reflexivity.
  - intros s. cbn beta. split.
    + intros H. destruct_and! H. split; try done. by apply negb_false_iff.
    + intros []. split; [done|]. split; [split; [by apply known_version_u16|by apply negb_false_iff]|].
      repeat (split; [assumption|]). assumption.
  - intros s _. done.
Qed.

Lemma pk_wire_ok pk : pk_ok pk → bytes_ok (to_compressed_bytes pk).
Proof. by intros [_ ?]%pk_array. Qed.
Lemma partial_wire_ok p : partial_ok p → bytes_ok (partial_to_bytes p).
Proof. by intros [[_ ?] _]. Qed.
Lemma ocp_wire_ok o : ocp_ok o → bytes_ok (ocp_wire o).
Proof. exact (wire_bytes_ok (T := OutputCommitmentAndProof) o). Qed.

Lemma capsules_wire_ok s : capsules_ok s → bytes_ok (capsules_wire s).
Proof.
  unfold capsules_ok, capsules_wire. destruct (_ =? _); [|constructor]. intros (H1 & H2 & _).
  apply bytes_ok_app. split; by eapply vec_wire_ok.
Qed.

Lemma slate_wire_bytes s : slate_ok s → bytes_ok (slate_wire s).
Proof.
  intros [Hv Hc Ha Hf Hl Hi Hch He Hn Ho Hr Hre Hrn Hs Hrs Hcap]. unfold slate_wire. rewrite !bytes_ok_app.
  repeat split; try apply le_bytes_ok; try apply Hc; try apply Ho; try (by apply pk_wire_ok);
    try (by apply inputs_wire_ok); try (by eapply opt_wire_ok; [apply ocp_wire_ok|]);
    try (by eapply opt_wire_ok; [apply pk_wire_ok|]); try (by eapply opt_wire_ok; [apply partial_wire_ok|]).
  by apply capsules_wire_ok.
Qed.

Lemma slate_wire_size s : slate_ok s → MIN_SERIALIZED_SIZE Slate ≤ zlen (slate_wire s).
Proof.
  intros [Hv Hc Ha Hf Hl Hi Hch He Hn Ho Hr Hre Hrn Hs Hrs Hcap]. unfold slate_wire.
  rewrite !zlen_app, !zlen_le_bytes, (proj1 Hc), (proj1 Ho), !(proj1 (pk_array _ He)), (proj1 (pk_array _ Hn)).
  pose proof (proj2 (inputs_wire_ok _ Hi)). pose proof (zlen_nonneg (capsules_wire s)).
  pose proof (zlen_opt_wire ocp_wire (sender_change_output s)).
  pose proof (zlen_opt_wire ocp_wire (recipient_output s)).
  pose proof (zlen_opt_wire to_compressed_bytes (recipient_public_excess s)).
  pose proof (zlen_opt_wire to_compressed_bytes (recipient_public_nonce s)).
  pose proof (zlen_opt_wire partial_to_bytes (sender_partial_sig s)).
  pose proof (zlen_opt_wire partial_to_bytes (recipient_partial_sig s)).
  cbn [MIN_SERIALIZED_SIZE Slate_deserialize]. lia.
Qed.

#[export] Instance Slate_codec : Codec Slate := {|
  wf := slate_ok; wire := slate_wire; serialize_wire := slate_serialize;
  deserialize_parses := slate_parses; wire_bytes_ok := slate_wire_bytes;
  wire_min_size := slate_wire_size; min_size_pos := conj eq_refl eq_refl |}.

(** ** The envelope *)

Lemma address_from_payload_exact b a :
  array_ok 40 b → address_from_payload_bytes b = Ok a ↔ address_ok a ∧ to_payload_bytes a = b.
Proof.
  intros [Hl Hb]. unfold address_from_payload_bytes. split.
  - intros H. res_inv. bool_inv. match goal with H : bool_decide _ = true |- _ => apply bool_decide_eq_true in H as He end.
    match goal with H : new_for_network _ _ = Ok _ |- _ => rename H into Hn end. split; [|done].
    pose proof Hn as (_ & _ & Ha)%new_for_network_Ok. split_and!.
    + rewrite Ha. cbn [addr_payload]. unfold slice, zlen. rewrite length_take, length_drop. unfold zlen in Hl. lia.
    + rewrite Ha. cbn [addr_payload]. by apply Forall_take, Forall_drop.
    + rewrite Ha. cbn [addr_payload addr_network_magic]. rewrite Hn. by f_equal.
  - intros [Hok <-]. pose proof Hok as (Hp & _ & Hn).
    destruct (payload_parts a) as (_ & _ & _ & -> & ->);
      [by apply new_for_network_Ok in Hn as ((hrp & Hm) & _ & _); apply hrp_known in Hm as [? _]|done|].
    rewrite Hn. cbn [rbind]. by rewrite bool_decide_eq_true_2.
Qed.

Lemma new_for_network_no_panic p m : new_for_network p m ≠ Panic.
Proof. unfold new_for_network, validate_compressed_public_key. cbv zeta. no_panic. Qed.

Lemma read_address_parses : parses read_address address_ok to_payload_bytes.
Proof.
  apply parses_decoded; [done|intros a Ha; destruct (payload_bytes_ok a Ha); by split|]. intros b Hb. split.
  - unfold address_from_payload_bytes. no_panic. apply new_for_network_no_panic.
  - intros a. by apply address_from_payload_exact.
Qed.

Lemma envelope_validate_no_panic e : envelope_validate e ≠ Panic.
Proof.
  unfold envelope_validate, validate_for_network, validate_compressed_public_key, slate_validate,
    validate_recovery_capsules, capsule_from_bytes, from_noms. cbv zeta. no_panic.
Qed.

Record envelope_ok (e : SlateEnvelope) : Prop := {
  eo_chain : array_ok 32 (env_chain_id e);
  eo_slate_id : array_ok 32 (slate_id e);
  eo_replay_id : array_ok 32 (replay_id e);
  eo_expires : u64_ok (expires_at_height e);
  eo_sender : address_ok (sender_address e);
  eo_receiver : address_ok (receiver_address e);
  eo_body : slate_ok (body e);
  eo_valid : envelope_validate e = Ok tt;
}.

Definition envelope_wire (e : SlateEnvelope) : bytes :=
  le_bytes 2 (envelope_version e) ++ le_bytes 4 (env_network_magic e) ++ env_chain_id e ++ slate_id e
  ++ replay_id e ++ [flow e] ++ [phase e] ++ le_bytes 8 (expires_at_height e)
  ++ to_payload_bytes (sender_address e) ++ to_payload_bytes (receiver_address e) ++ slate_wire (body e).

(** What validation fixes of the header fields *)
Lemma envelope_validate_fields e :
  envelope_validate e = Ok tt →
  (envelope_version e = 3 ∨ envelope_version e = 4) ∧ u32_ok (env_network_magic e) ∧
  u8_ok (flow e) ∧ u8_ok (phase e).
Proof.
  unfold envelope_validate. intros H. destruct (supported_pair _ _) eqn:Hv; [|done]. cbn [negb] in H.
  destruct (bool_decide _); [|done]. cbn [negb] in H. destruct (known_network _) eqn:Hn; [|done]. cbn [negb] in H.
  res_inv. bool_inv. split_and!.
  - unfold supported_pair in Hv. apply orb_true_iff in Hv as [[Hv _]%andb_prop|[Hv _]%andb_prop];
      apply Z.eqb_eq in Hv; auto.
  - unfold known_network in Hn. repeat apply orb_true_iff in Hn as [Hn|Hn]; apply Z.eqb_eq in Hn as ->; done.
  - match goal with H : flow e = _ |- _ => by rewrite H end.
  - match goal with H : known_phase _ = true |- _ => unfold known_phase in H; rename H into Hp end.
    apply orb_true_iff in Hp as [Hp|Hp]; [apply orb_true_iff in Hp as [Hp|Hp]|]; apply Z.eqb_eq in Hp as ->; done.
Qed.

Lemma envelope_serialize e w : envelope_ok e → serialize e w = Ok (append w (envelope_wire e)).
Proof.
  intros [Hc Hs Hr He Hsa Hra Hb Hv]. unfold serialize at 1, SlateEnvelope_serialize.
  rewrite (slate_serialize (body e) _ Hb). unfold write_u16, write_u32, write_u8, write_u64, write_bytes.
  by rewrite !append_append.
Qed.

Lemma envelope_parses : parses (deserialize (T := SlateEnvelope)) envelope_ok envelope_wire.
Proof.
  eapply parses_equiv.
  - eapply (parses_bind_guard _ _ _ _ envelope_version _ (λ _, True)); [apply read_u16_parses|]. intros v Hv1 Hv2.
    eapply (parses_bind _ _ env_network_magic); [apply read_u32_parses|]. intros m Hm.
    eapply (parses_bind _ _ env_chain_id); [by apply read_array_parses|]. intros chain Hchain.
    eapply (parses_bind _ _ slate_id); [by apply read_array_parses|]. intros sid Hsid.
    eapply (parses_bind _ _ replay_id); [by apply read_array_parses|]. intros rid Hrid.
    eapply (parses_bind _ _ flow); [apply read_u8_parses|]. intros fl Hfl.
    eapply (parses_bind _ _ phase); [apply read_u8_parses|]. intros ph Hph.
    eapply (parses_bind _ _ expires_at_height); [apply read_u64_parses|]. intros ex Hex.
    eapply (parses_bind _ _ sender_address); [apply read_address_parses|]. intros sa Hsa.
    eapply (parses_bind _ _ receiver_address); [apply read_address_parses|]. intros ra Hra.
    eapply (parses_bind _ _ body _ _ (λ e, envelope_validate e = Ok tt) _ (λ _, [])); [apply slate_parses|]. intros b Hb.
    cbv zeta. apply parses_lift; [apply envelope_validate_no_panic|..].
    + intros [] Hok. apply parses_ret. intros e. split.
      * intros [He _]. destruct_and! He. destruct e. cbn in *. subst. reflexivity.
      * intros ->. cbn. tauto.
    + intros Hno e [He Hok]. apply (Hno tt). rewrite <- Hok. f_equal. destruct_and! He. destruct e. cbn in *. by subst.
  - intros e. cbn beta. split.
    + intros H. destruct_and! H. by split.
    + intros [Hc Hs Hr He Hsa Hra Hb Hv]. destruct (envelope_validate_fields e Hv) as (Hver & Hm & Hf & Hp).
      split; [done|]. split; [split; destruct Hver as [->| ->]; done|].
      repeat (split; [assumption|]). assumption.
  - intros e _. cbn beta. unfold envelope_wire, id. by rewrite app_nil_r.
Qed.

#[export, refine] Instance SlateEnvelope_codec : Codec SlateEnvelope := {|
  wf := envelope_ok; wire := envelope_wire; serialize_wire := envelope_serialize;
  deserialize_parses := envelope_parses |}.
Proof.
  - intros e [Hc Hs Hr He Hsa Hra Hb Hv]. destruct (envelope_validate_fields e Hv) as (_ & _ & Hf & Hp).
    unfold envelope_wire. rewrite !bytes_ok_app.
    repeat split; try apply le_bytes_ok; try apply Hc; try apply Hs; try apply Hr; try (by apply bytes_ok_one);
      try (by apply payload_bytes_ok). by apply slate_wire_bytes.
  - intros e [Hc Hs Hr He Hsa Hra Hb Hv]. unfold envelope_wire. rewrite !zlen_app, !zlen_le_bytes.
    rewrite (proj1 Hc), (proj1 Hs), (proj1 Hr), (proj2 (payload_bytes_ok _ Hsa)), (proj2 (payload_bytes_ok _ Hra)).
    pose proof (slate_wire_size _ Hb). change (zlen [flow e]) with 1. change (zlen [phase e]) with 1.
    cbn [MIN_SERIALIZED_SIZE SlateEnvelope_deserialize]. lia.
  - done.
Defined.

(** C36: the exchange format of slates is exact: decoding arbitrary bytes never panics, and it
    yields an envelope precisely when the envelope is well formed (its fields have the widths of
    the format, its addresses, keys, commitments, proofs and partial signatures are canonical,
    capsules are present exactly where a version 4 body needs them, and [validate] accepts it)
    and the bytes are the ones [to_canonical_bytes] writes for it. *)
Theorem envelope_codec_exact bs e :
  bytes_ok bs → zlen bs < 2 ^ 63 →
  from_bytes SlateEnvelope bs ≠ Panic ∧
  (from_bytes SlateEnvelope bs = Ok e ↔ envelope_ok e ∧ to_bytes e = Ok bs).
Proof. exact (codec_exact (T := SlateEnvelope) bs e). Qed.

(** The same for a body alone *)
Lemma slate_codec_exact bs s :
  bytes_ok bs → zlen bs < 2 ^ 63 →
  from_bytes Slate bs ≠ Panic ∧ (from_bytes Slate bs = Ok s ↔ slate_ok s ∧ to_bytes s = Ok bs).
Proof. exact (codec_exact (T := Slate) bs s). Qed.
End laws.

(** ** A concrete envelope *)

#[local] Existing Instances sample_blake2b sample_curve.

Definition sample_party (k : Z) : Address := {|
  addr_payload := 2 :: replicate 32 k; addr_is_mainnet := true; addr_version := 1; addr_type := 0;
  addr_key_type := 0; addr_network_magic := NETWORK_MAGIC_MAINNET |}.
Definition sample_envelope : SlateEnvelope := {|
  envelope_version := CURRENT_SLATE_ENVELOPE_VERSION; env_network_magic := NETWORK_MAGIC_MAINNET; env_chain_id := replicate 32 7;
  slate_id := replicate 32 1; replay_id := replicate 32 2; flow := SLATE_FLOW_STANDARD_SEND; phase := 1;
  expires_at_height := 900; sender_address := sample_party 2; receiver_address := sample_party 3;
  body := slate_new (replicate 32 7) 1000 10 0 [sample_commitment 1010 17] None
    (sample_pk 5) (sample_pk 6) (replicate 32 4) |}.
Definition sample_envelope_bytes : bytes := Eval vm_compute in
  match to_bytes sample_envelope with Ok w => w | _ => [] end.

Lemma sample_envelope_bytes_ok : bytes_ok sample_envelope_bytes ∧ zlen sample_envelope_bytes < 2 ^ 63.
Proof. split; [refine (bool_decide_unpack _ _); vm_compute; exact I|vm_compute; reflexivity]. Qed.

Lemma sample_body_ok : slate_ok (body sample_envelope).
Proof.
  split; try (refine (bool_decide_unpack _ _); vm_compute; exact I).
  split; [done|]. constructor; [|constructor].
  split_and!; [done|refine (bool_decide_unpack _ _); vm_compute; exact I|].
  exists (sample_point 1010 17). apply sample_decodes. vm_compute. reflexivity.
Qed.

Lemma sample_envelope_ok : envelope_ok sample_envelope.
Proof.
  split; [..|exact sample_body_ok|vm_compute; reflexivity].
  1-3: split; [done|]; refine (bool_decide_unpack _ _); vm_compute; exact I.
  1: by vm_compute.
  all: split_and!; [done| |done]; by repeat constructor.
Qed.

Lemma envelope_codec_exact_witness : from_bytes SlateEnvelope sample_envelope_bytes = Ok sample_envelope.
Proof.
  apply (envelope_codec_exact sample_envelope_bytes sample_envelope (proj1 sample_envelope_bytes_ok)
    (proj2 sample_envelope_bytes_ok)).
  split; [exact sample_envelope_ok|vm_compute; reflexivity].
Defined.
