(* ===== verification/BlockHeader.v ===== *)
(** * Block headers ([crates/dom-consensus/src/block.rs])

    The header and its proof of work, their 256-byte wire format, and the header
    checks: syntax, kernel offset, timestamps, median time past and proof of work. *)

From Stdlib Require Import ZArith Lia.
From stdpp Require Import base list strings sorting.
From S2P Require Import Prelude CoreError Core Serialization CryptoHash Pow.
From S2P Require Import PowLaws Curve Pedersen Schnorr.

(** ** Classification *)

Inductive HeaderLinkClassification : Type :=
| LinkValid
| GenesisWithNonzeroPrevious
| NonGenesisWithZeroPrevious.

Definition classify_header_link (height : Z) (previous_hash_is_zero : bool)
  : HeaderLinkClassification :=
  if (height =? 0) && negb previous_hash_is_zero then GenesisWithNonzeroPrevious
  else if negb (height =? 0) && previous_hash_is_zero then NonGenesisWithZeroPrevious
  else LinkValid.

Inductive KernelOffsetClassification : Type :=
| OffsetCanonical
| EqualToCurveOrder
| AboveCurveOrder.

(** The loop over the bytes of the offset and of the curve order *)
Fixpoint classify_offset_bytes (pairs : list (Z * Z)) : KernelOffsetClassification :=
  match pairs with
  | [] => EqualToCurveOrder
  | (candidate, order) :: t =>
      if candidate <? order then OffsetCanonical
      else if order <? candidate then AboveCurveOrder
      else classify_offset_bytes t
  end.
Definition classify_kernel_offset (offset : bytes) : KernelOffsetClassification :=
  classify_offset_bytes (zip offset SECP256K1_N).

Inductive FutureTimestampClassification : Type :=
| FutureAccept
| FutureDefer
| FutureReject (soft_limit : Z)
| FutureOverflow.

Definition classify_future_timestamp_window (block_timestamp now hard_delta soft_delta : Z)
  : FutureTimestampClassification :=
  match checked_add 64 now hard_delta with
  | None => FutureOverflow
  | Some hard_limit =>
      match checked_add 64 hard_delta soft_delta with
      | None => FutureOverflow
      | Some combined_delta =>
          match checked_add 64 now combined_delta with
          | None => FutureOverflow
          | Some soft_limit =>
              if soft_limit <? block_timestamp then FutureReject soft_limit
              else if hard_limit <? block_timestamp then FutureDefer
              else FutureAccept
          end
      end
  end.

(** ** Data *)

Record ProofOfWork : Type := { nonce : Z; randomx_proof : Hash256 }.

Record BlockHeader : Type := {
  version : Z;
  height : BlockHeight;
  prev_hash : Hash256;
  timestamp : Timestamp;
  output_root : Hash256;
  kernel_root : Hash256;
  rangeproof_root : Hash256;
  total_kernel_offset : bytes;
  target : CompactTarget;
  total_difficulty : Z;
  pow : ProofOfWork;
}.

Definition pow_preimage (h : BlockHeader) : bytes :=
  le_bytes 4 (version h) ++ hash_bytes (prev_hash h) ++ le_bytes 8 (height_val (height h))
  ++ le_bytes 8 (time_val (timestamp h)) ++ hash_bytes (output_root h)
  ++ hash_bytes (kernel_root h) ++ hash_bytes (rangeproof_root h) ++ total_kernel_offset h
  ++ le_bytes 4 (compact_bits (target h)) ++ be_bytes 32 (total_difficulty h)
  ++ le_bytes 8 (nonce (pow h)).

#[export] Instance ProofOfWork_serialize : DomSerialize ProofOfWork :=
  λ p w, serialize (randomx_proof p) (write_u64 w (nonce p)).
#[export] Instance ProofOfWork_deserialize : DomDeserialize ProofOfWork := {|
  MIN_SERIALIZED_SIZE := 8 + 32;
  deserialize :=
    read! nonce := read_u64 in
    read! hash := deserialize (T := Hash256) in
    rd_ret {| nonce := nonce; randomx_proof := hash |};
|}.

#[export] Instance BlockHeader_serialize : DomSerialize BlockHeader :=
  λ h w,
    let w := write_u32 w (version h) in
    let? w := serialize (height h) w in
    let? w := serialize (prev_hash h) w in
    let? w := serialize (timestamp h) w in
    let? w := serialize (output_root h) w in
    let? w := serialize (kernel_root h) w in
    let? w := serialize (rangeproof_root h) w in
    let w := write_bytes w (total_kernel_offset h) in
    let? w := serialize (target h) w in
    let w := write_bytes w (be_bytes 32 (total_difficulty h)) in
    serialize (pow h) w.
#[export] Instance BlockHeader_deserialize : DomDeserialize BlockHeader := {|
  MIN_SERIALIZED_SIZE := 4 + 8 + 32 + 8 + 32 + 32 + 32 + 32 + 4 + 32 + 40;
  deserialize :=
    read! version := read_u32 in
    read! height := deserialize (T := BlockHeight) in
    read! prev_hash := deserialize (T := Hash256) in
    read! timestamp := deserialize (T := Timestamp) in
    read! output_root := deserialize (T := Hash256) in
    read! kernel_root := deserialize (T := Hash256) in
    read! rangeproof_root := deserialize (T := Hash256) in
    read! total_kernel_offset := read_array 32 in
    read! target := deserialize (T := CompactTarget) in
    read! total_difficulty := (read! bytes := read_array 32 in rd_ret (be_val bytes)) in
    read! pow := deserialize (T := ProofOfWork) in
    rd_ret {| version := version; height := height; prev_hash := prev_hash;
              timestamp := timestamp; output_root := output_root; kernel_root := kernel_root;
              rangeproof_root := rangeproof_root; total_kernel_offset := total_kernel_offset;
              target := target; total_difficulty := total_difficulty; pow := pow |};
|}.

(** ** Checks *)

Definition validate_kernel_offset_canonical (offset : bytes) : Result unit :=
  match classify_kernel_offset offset with
  | OffsetCanonical => Ok tt
  | AboveCurveOrder =>
      Err (Malformed "total_kernel_offset >= secp256k1 order n — non-canonical scalar")
  | EqualToCurveOrder =>
      Err (Malformed "total_kernel_offset == secp256k1 order n — non-canonical scalar")
  end.

Definition validate_header_syntax (header : BlockHeader) (network_magic : Z) : Result unit :=
  let required_version :=
    required_block_version_for_network network_magic (height_val (height header)) in
  if negb (version header =? required_version) then
    Err (Invalid ("invalid block version " +:+ dec (version header) +:+ " at height "
                  +:+ dec (height_val (height header)) +:+ " (required "
                  +:+ dec required_version +:+ ")"))
  else
    match classify_header_link (height_val (height header))
            (bool_decide (prev_hash header = Hash256_ZERO)) with
    | GenesisWithNonzeroPrevious => Err (Invalid "genesis block must have zero prev_hash")
    | NonGenesisWithZeroPrevious =>
        Err (Invalid "non-genesis block must have non-zero prev_hash")
    | LinkValid => validate_kernel_offset_canonical (total_kernel_offset header)
    end.

Definition validate_future_timestamp_with_limit (header : BlockHeader) (now : Timestamp)
    (max_future_block_time : Z) : Result unit :=
  let? limit := ok_or (checked_add_secs now max_future_block_time)
                  (Internal "timestamp limit overflow") in
  if time_val limit <? time_val (timestamp header) then
    Err (TemporarilyInvalid ("block timestamp " +:+ dec (time_val (timestamp header))
                             +:+ " too far in future (limit " +:+ dec (time_val limit) +:+ ")"))
  else Ok tt.
Definition validate_future_timestamp (header : BlockHeader) (now : Timestamp) : Result unit :=
  validate_future_timestamp_with_limit header now MAX_FUTURE_BLOCK_TIME.

Inductive TimestampDecision : Type := TD_Accept | TD_Defer.

Definition validate_future_timestamp_with_buffer_limits (header : BlockHeader) (now : Timestamp)
    (max_future_block_time future_block_soft_buffer_secs : Z) : Result TimestampDecision :=
  match classify_future_timestamp_window (time_val (timestamp header)) (time_val now)
          max_future_block_time future_block_soft_buffer_secs with
  | FutureAccept => Ok TD_Accept
  | FutureDefer => Ok TD_Defer
  | FutureReject soft_limit =>
      Err (TemporarilyInvalid ("block timestamp " +:+ dec (time_val (timestamp header))
                               +:+ " too far in future (soft limit " +:+ dec soft_limit +:+ ")"))
  | FutureOverflow => Err (Invalid "timestamp overflow")
  end.
Definition validate_future_timestamp_with_buffer (header : BlockHeader) (now : Timestamp)
  : Result TimestampDecision :=
  validate_future_timestamp_with_buffer_limits header now MAX_FUTURE_BLOCK_TIME
    FUTURE_BLOCK_SOFT_BUFFER_SECS.

Definition validate_parent_timestamp_progression (header parent : BlockHeader) : Result unit :=
  if time_val (timestamp header) <=? time_val (timestamp parent) then
    Err (Invalid ("block timestamp " +:+ dec (time_val (timestamp header))
                  +:+ " not greater than parent timestamp "
                  +:+ dec (time_val (timestamp parent))))
  else Ok tt.

(** [sort_unstable] on integers; [sorted[MEDIAN_TIME_WINDOW / 2]] *)
Definition validate_median_time_past (header : BlockHeader) (ancestor_timestamps : list Timestamp)
  : Result unit :=
  if zlen ancestor_timestamps <? MEDIAN_TIME_WINDOW then Ok tt
  else
    let sorted := merge_sort Z.le
                    (time_val <$> take (Z.to_nat MEDIAN_TIME_WINDOW) ancestor_timestamps) in
    let? median := expect (sorted !! Z.to_nat (MEDIAN_TIME_WINDOW / 2)) in
    if time_val (timestamp header) <=? median then
      Err (Invalid ("block timestamp " +:+ dec (time_val (timestamp header))
                    +:+ " not greater than median-time-past " +:+ dec median))
    else Ok tt.

Section pow.
Context `{HB : Blake2b256, HR : RandomXHash}.

Definition validate_pow (header : BlockHeader) (seed : bytes) : Result unit :=
  let? target := map_err (λ e, Invalid ("invalid compact target: " +:+ display_error e))
                   (to_target (target header)) in
  let preimage := pow_preimage header in
  let claimed_hash := hash_bytes (randomx_proof (pow header)) in
  let? ok := validate_pow_randomx preimage claimed_hash seed target in
  if negb ok then
    Err (peer_misbehavior InvalidPow
           "proof-of-work invalid: RandomX hash mismatch or does not meet target")
  else Ok tt.

(** [env] is the value of the [DOM_REGTEST_FAST_MINING] variable *)
Definition validate_header_pow_for_network (env : option string) (network_magic : Z)
    (header : BlockHeader) (seed : bytes) : Result unit :=
  let? target := map_err (λ e, Invalid ("invalid compact target: " +:+ display_error e))
                   (to_target (target header)) in
  let preimage := pow_preimage header in
  let claimed_hash := hash_bytes (randomx_proof (pow header)) in
  let? ok := validate_pow_for_network env network_magic preimage claimed_hash seed target in
  if negb ok then
    Err (peer_misbehavior InvalidPow
           "proof-of-work invalid: hash mismatch or does not meet target")
  else Ok tt.
End pow.

(** ** Wire format *)

Definition pow_ok (p : ProofOfWork) : Prop := u64_ok (nonce p) ∧ hash_ok (randomx_proof p).

#[export, refine] Instance ProofOfWork_codec : Codec ProofOfWork := {|
  wf := pow_ok;
  wire p := le_bytes 8 (nonce p) ++ hash_bytes (randomx_proof p);
|}.
Proof.
  - intros p w [_ Hh]. unfold serialize at 1, ProofOfWork_serialize.
    rewrite serialize_wire by done. unfold write_u64. by rewrite append_append.
  - eapply parses_equiv.
    + eapply (parses_bind _ _ nonce _ (λ _, True)); [apply read_u64_parses|]. intros n Hn.
      eapply (parses_bind _ _ randomx_proof _ _ (λ _, True) _ (λ _, []));
        [apply (deserialize_parses (T := Hash256))|]. intros h Hh.
      apply parses_ret. intros []. simpl. naive_solver.
    + intros p. unfold pow_ok. simpl. tauto.
    + intros p _. simpl. by rewrite app_nil_r.
  - intros p [_ [Hb _]]. apply bytes_ok_app. auto with dom.
  - intros p [_ [_ Hl]]. cbn [MIN_SERIALIZED_SIZE ProofOfWork_deserialize].
    rewrite zlen_app, zlen_le_bytes, Hl. done.
  - done.
Defined.

Record header_ok (h : BlockHeader) : Prop := {
  ho_version : u32_ok (version h);
  ho_height : u64_ok (height_val (height h));
  ho_prev : hash_ok (prev_hash h);
  ho_time : u64_ok (time_val (timestamp h));
  ho_output : hash_ok (output_root h);
  ho_kernel : hash_ok (kernel_root h);
  ho_rangeproof : hash_ok (rangeproof_root h);
  ho_offset : zlen (total_kernel_offset h) = 32 ∧ bytes_ok (total_kernel_offset h);
  ho_target : u32_ok (compact_bits (target h));
  ho_difficulty : 0 ≤ total_difficulty h < 2 ^ 256;
  ho_pow : pow_ok (pow h);
}.

Definition header_wire (h : BlockHeader) : bytes :=
  le_bytes 4 (version h) ++ le_bytes 8 (height_val (height h)) ++ hash_bytes (prev_hash h)
  ++ le_bytes 8 (time_val (timestamp h)) ++ hash_bytes (output_root h)
  ++ hash_bytes (kernel_root h) ++ hash_bytes (rangeproof_root h) ++ total_kernel_offset h
  ++ le_bytes 4 (compact_bits (target h)) ++ be_bytes 32 (total_difficulty h)
  ++ wire (pow h).

(** The big-endian difficulty field *)
Lemma u256_be_bytes b : zlen b = 32 → bytes_ok b →
  be_bytes 32 (be_val b) = b ∧ 0 ≤ be_val b < 2 ^ 256.
Proof.
  intros Hl Hb. pose proof (be_val_bound b Hb) as Hr. rewrite Hl in Hr.
  change (256 ^ 32) with (2 ^ 256) in Hr. split; [|done].
  rewrite <- (be_bytes_be_val b Hb) at 2. f_equal. unfold zlen in Hl. lia.
Qed.

Lemma be_val_u256 v : 0 ≤ v < 2 ^ 256 → be_val (be_bytes 32 v) = v.
Proof. intros Hv. apply be_val_be_bytes. done. Qed.

Lemma read_u256_parses :
  parses (read! b := read_array 32 in rd_ret (be_val b)) (λ v, 0 ≤ v < 2 ^ 256) (be_bytes 32).
Proof.
  eapply parses_equiv.
  - eapply (parses_bind _ _ (be_bytes 32) _ (λ _, True) (λ v, 0 ≤ v < 2 ^ 256) _ (λ _, []));
      [apply read_array_parses; lia|].
    intros b [Hl Hb]. destruct (u256_be_bytes b Hl Hb) as [He Hr]. apply parses_ret.
    intros v. split.
    + intros [[_ <-] Hv]. by rewrite be_val_u256.
    + intros ->. done.
  - intros v. cbn beta. rewrite zlen_be_bytes. pose proof (be_bytes_ok 32 v). tauto.
  - intros v _. cbn beta. by rewrite app_nil_r.
Qed.

Lemma parses_header : parses (deserialize (T := BlockHeader)) header_ok header_wire.
Proof.
  eapply parses_equiv.
  - eapply (parses_bind _ _ version _ (λ _, True)); [apply read_u32_parses|]. intros ? ?.
    eapply (parses_bind _ _ height); [apply (deserialize_parses (T := BlockHeight))|]. intros ? ?.
    eapply (parses_bind _ _ prev_hash); [apply (deserialize_parses (T := Hash256))|]. intros ? ?.
    eapply (parses_bind _ _ timestamp); [apply (deserialize_parses (T := Timestamp))|]. intros ? ?.
    eapply (parses_bind _ _ output_root); [apply (deserialize_parses (T := Hash256))|]. intros ? ?.
    eapply (parses_bind _ _ kernel_root); [apply (deserialize_parses (T := Hash256))|]. intros ? ?.
    eapply (parses_bind _ _ rangeproof_root); [apply (deserialize_parses (T := Hash256))|]. intros ? ?.
    eapply (parses_bind _ _ total_kernel_offset); [apply read_array_parses; lia|]. intros ? ?.
    eapply (parses_bind _ _ target); [apply (deserialize_parses (T := CompactTarget))|]. intros ? ?.
    eapply (parses_bind _ _ total_difficulty); [apply read_u256_parses|]. intros ? ?.
    eapply (parses_bind _ _ pow _ _ (λ _, True) _ (λ _, []));
      [apply (deserialize_parses (T := ProofOfWork))|]. intros ? ?.
    apply parses_ret. intros [].
    cbn [version height prev_hash timestamp output_root kernel_root rangeproof_root
         total_kernel_offset target total_difficulty pow].
    split; [intros; destruct_and?; congruence|intros [= -> -> -> -> -> -> -> -> -> -> ->]; tauto].
  - intros h. split; [|intros []; cbn; tauto].
    intros H. cbn beta in H. destruct_and! H. by split.
  - intros h _. unfold header_wire. by rewrite app_nil_r.
Qed.

Lemma zlen_header_wire h : header_ok h → zlen (header_wire h) = 256.
Proof.
  intros [_ _ [_ Hp] _ [_ Ho] [_ Hk] [_ Hr] [Hf _] _ _ [_ [_ Hw]]].
  unfold header_wire. cbn [wire ProofOfWork_codec].
  rewrite !zlen_app, !zlen_le_bytes, zlen_be_bytes, Hp, Ho, Hk, Hr, Hf, Hw. done.
Qed.

#[export, refine] Instance BlockHeader_codec : Codec BlockHeader := {|
  wf := header_ok;
  wire := header_wire;
|}.
Proof.
  - intros h w []. unfold serialize at 1, BlockHeader_serialize, write_u32, write_bytes.
    repeat (rewrite serialize_wire by done; cbn [rbind]).
    rewrite !append_append. done.
  - apply parses_header.
  - intros h []. unfold header_wire. rewrite !bytes_ok_app.
    split_and!; auto with dom; try apply ho_offset0.
    all: try (match goal with H : hash_ok ?x |- bytes_ok (hash_bytes ?x) => apply H end).
    by apply (wire_bytes_ok (pow h)).
  - intros h Hh. by rewrite zlen_header_wire.
  - done.
Defined.

(** ** Laws of the checks *)

Lemma classify_offset_bytes_spec a b :
  length a = length b → bytes_ok a → bytes_ok b →
  classify_offset_bytes (zip a b) =
  match be_val a ?= be_val b with
  | Lt => OffsetCanonical | Eq => EqualToCurveOrder | Gt => AboveCurveOrder
  end.
Proof.
  intros Hl Ha. revert b Hl. induction Ha as [|x a Hx Ha IH]; intros [|y b] Hl Hb; try done; [].
  apply bytes_ok_cons in Hb as [Hy Hb]. injection Hl as Hl.
  cbn [zip zip_with classify_offset_bytes]. rewrite !be_val_cons.
  pose proof (be_val_bound a Ha). pose proof (be_val_bound b Hb).
  assert (Hz : zlen a = zlen b) by (unfold zlen; by rewrite Hl). rewrite Hz in *.
  unfold in_width in *. destruct (Z.ltb_spec x y); [|destruct (Z.ltb_spec y x)].
  - rewrite (proj2 (Z.compare_lt_iff _ _)); [done|nia].
  - rewrite (proj2 (Z.compare_gt_iff _ _)); [done|nia].
  - assert (x = y) as -> by lia. rewrite IH by done. by rewrite Zcompare_plus_compat.
Qed.

Lemma validate_kernel_offset_canonical_Ok off :
  zlen off = 32 → bytes_ok off →
  validate_kernel_offset_canonical off = Ok tt ↔ be_val off < order.
Proof.
  intros Hl Hb. unfold validate_kernel_offset_canonical, classify_kernel_offset.
  rewrite classify_offset_bytes_spec; [|unfold zlen in Hl; simpl; lia|done|apply SECP256K1_N_ok].
  fold order. destruct (Z.compare_spec (be_val off) order); split; intros; done || lia.
Qed.

Lemma validate_kernel_offset_canonical_no_panic off :
  validate_kernel_offset_canonical off ≠ Panic.
Proof. unfold validate_kernel_offset_canonical. no_panic. Qed.

(** The header syntax check accepts exactly the headers whose version is the one
    the network requires at that height, that point to the zero hash if and only if
    they are at height zero, and whose kernel offset is a scalar below the curve
    order; it never panics. *)
Theorem header_syntax_exact h magic :
  header_ok h →
  validate_header_syntax h magic ≠ Panic ∧
  (validate_header_syntax h magic = Ok tt ↔
   version h = required_block_version_for_network magic (height_val (height h)) ∧
   (prev_hash h = Hash256_ZERO ↔ height_val (height h) = 0) ∧
   be_val (total_kernel_offset h) < order).
Proof.
  intros Hh. destruct (ho_offset h Hh) as [Hl Hb].
  unfold validate_header_syntax. split.
  { no_panic. apply validate_kernel_offset_canonical_no_panic. }
  pose proof (validate_kernel_offset_canonical_Ok _ Hl Hb) as Hoff.
  destruct (Z.eqb_spec (version h)
    (required_block_version_for_network magic (height_val (height h)))); cbn [negb];
    [|split; [done|tauto]].
  unfold classify_header_link.
  destruct (Z.eqb_spec (height_val (height h)) 0); case_bool_decide; cbn [andb negb];
    try (split; [done|tauto]); rewrite Hoff; tauto.
Qed.

(** *** Median time past *)

Lemma sorted_lookup_lt (l : list Z) i m ts :
  StronglySorted Z.le l → l !! i = Some m →
  m < ts ↔ (i < length (filter (λ t, (t < ts)%Z) l))%nat.
Proof.
  intros Hs. revert i. induction Hs as [|x l Hs IH Hx]; intros i; [done|].
  destruct (decide (x < ts)) as [Hlt|Hge].
  - rewrite filter_cons_True by done. destruct i as [|i]; cbn.
    + intros [= <-]. split; [lia|done].
    + intros Hi. rewrite (IH i Hi). lia.
  - intros Hi. rewrite filter_cons_False by done.
    assert (Hnil : filter (λ t, (t < ts)%Z) l = []).
    { apply elem_of_nil_inv. intros y [Hy Hin]%list_elem_of_filter.
      rewrite Forall_forall in Hx. specialize (Hx y Hin). lia. }
    rewrite Hnil. simpl. split; [|lia]. intros Hm.
    destruct i as [|i]; cbn in Hi; [injection Hi as ->; lia|].
    rewrite Forall_forall in Hx. specialize (Hx m (list_elem_of_lookup_2 _ _ _ Hi)). lia.
Qed.

Definition ancestors_before (h : BlockHeader) (anc : list Timestamp) : nat :=
  length (filter (λ t, (t < time_val (timestamp h))%Z)
            (time_val <$> take (Z.to_nat MEDIAN_TIME_WINDOW) anc)).

(** The median-time-past rule never panics and accepts a header exactly when there
    are fewer than eleven ancestors or a strict majority (at least six) of the first
    eleven ancestor timestamps lie strictly before the header's. *)
Theorem median_time_past_majority h anc :
  validate_median_time_past h anc ≠ Panic ∧
  (validate_median_time_past h anc = Ok tt ↔
   zlen anc < MEDIAN_TIME_WINDOW ∨ (6 ≤ ancestors_before h anc)%nat).
Proof.
  unfold validate_median_time_past, ancestors_before.
  destruct (Z.ltb_spec (zlen anc) MEDIAN_TIME_WINDOW) as [Hlt|Hge]; [split; [done|by split; [left|]]|].
  set (l := time_val <$> take (Z.to_nat MEDIAN_TIME_WINDOW) anc). cbv zeta.
  pose proof (merge_sort_Permutation Z.le l) as Hp.
  pose proof (StronglySorted_merge_sort Z.le l) as Hs.
  assert (Hlen : length l = 11%nat).
  { unfold l. rewrite length_fmap, length_take. unfold zlen, MEDIAN_TIME_WINDOW in *. lia. }
  destruct (lookup_lt_is_Some_2 (merge_sort Z.le l) 5) as [m Hm].
  { rewrite (Permutation_length Hp). lia. }
  change (Z.to_nat (MEDIAN_TIME_WINDOW / 2)) with 5%nat. rewrite Hm. cbn [expect rbind].
  pose proof (sorted_lookup_lt _ 5 m (time_val (timestamp h)) Hs Hm) as Hiff.
  assert (Hc : length (filter (λ t, (t < time_val (timestamp h))%Z) (merge_sort Z.le l))
               = length (filter (λ t, (t < time_val (timestamp h))%Z) l)).
  { apply Permutation_length. by rewrite Hp. }
  rewrite Hc in Hiff. destruct (Z.leb_spec (time_val (timestamp h)) m); split; try done;
    split; intros; done || lia.
Qed.

(** *** The bytes the proof of work is computed over *)

(** The proof-of-work preimage binds the header: two well-formed headers with the
    same preimage agree on every field but the claimed proof hash. *)
Theorem pow_preimage_binds h1 h2 :
  header_ok h1 → header_ok h2 → pow_preimage h1 = pow_preimage h2 →
  h1 = {| version := version h2; height := height h2; prev_hash := prev_hash h2;
          timestamp := timestamp h2; output_root := output_root h2;
          kernel_root := kernel_root h2; rangeproof_root := rangeproof_root h2;
          total_kernel_offset := total_kernel_offset h2; target := target h2;
          total_difficulty := total_difficulty h2;
          pow := {| nonce := nonce (pow h2); randomx_proof := randomx_proof (pow h1) |} |}.
Proof.
  intros [? ? [_ ?] ? [_ ?] [_ ?] [_ ?] [? _] ? ? [? _]] [? ? [_ ?] ? [_ ?] [_ ?] [_ ?] [? _] ? ? [? _]].
  unfold pow_preimage. intros He.
  repeat (apply rest_inj_r in He as [? He]; [|rewrite ?zlen_le_bytes, ?zlen_be_bytes; congruence]).
  repeat match goal with
  | H : le_bytes _ _ = le_bytes _ _ |- _ => apply le_bytes_inj in H; [|done..]
  | H : be_bytes 32 _ = be_bytes 32 _ |- _ =>
      apply (f_equal be_val) in H; rewrite !be_val_u256 in H by done
  end.
  destruct h1 as [? [] [] [] [] [] [] ? [] ? []], h2 as [? [] [] [] [] [] [] ? [] ? []].
  simpl in *. subst. done.
Qed.

(** ** Examples *)

Definition sample_hash (b : Z) : Hash256 := {| hash_bytes := replicate 32 b |}.
Lemma sample_hash_ok b : (0 <=? b) && (b <? 256) = true → hash_ok (sample_hash b).
Proof.
  rewrite andb_true_iff, Z.leb_le, Z.ltb_lt. intros Hb. split; [|done].
  apply bytes_ok_replicate. done.
Qed.

Definition sample_header (proof_byte : Z) : BlockHeader := {|
  version := 2; height := {| height_val := 5 |}; prev_hash := sample_hash 1;
  timestamp := {| time_val := 1784072029 |}; output_root := sample_hash 2;
  kernel_root := sample_hash 3; rangeproof_root := sample_hash 4;
  total_kernel_offset := be_bytes 32 77; target := {| compact_bits := 0x1e00ffff |};
  total_difficulty := 123456;
  pow := {| nonce := 99; randomx_proof := sample_hash proof_byte |};
|}.

Lemma sample_header_ok b : (0 <=? b) && (b <? 256) = true → header_ok (sample_header b).
Proof.
  intros Hb. split; try (by apply sample_hash_ok); try (by split).
  - split; [done|apply be_bytes_ok].
  - split; [done|by apply sample_hash_ok].
Qed.

Lemma header_syntax_exact_witness :
  validate_header_syntax (sample_header 6) NETWORK_MAGIC_MAINNET = Ok tt.
Proof.
  apply (header_syntax_exact (sample_header 6) NETWORK_MAGIC_MAINNET).
  - apply sample_header_ok. reflexivity.
  - split; [reflexivity|]. split; [split; [|done]|].
    + intros [=].
    + vm_compute. reflexivity.
Defined.

Lemma pow_preimage_binds_witness :
  sample_header 6 =
  {| version := 2; height := {| height_val := 5 |}; prev_hash := sample_hash 1;
     timestamp := {| time_val := 1784072029 |}; output_root := sample_hash 2;
     kernel_root := sample_hash 3; rangeproof_root := sample_hash 4;
     total_kernel_offset := be_bytes 32 77; target := {| compact_bits := 0x1e00ffff |};
     total_difficulty := 123456;
     pow := {| nonce := 99; randomx_proof := sample_hash 6 |} |}.
Proof.
  apply (pow_preimage_binds (sample_header 6) (sample_header 7)).
  - apply sample_header_ok. reflexivity.
  - apply sample_header_ok. reflexivity.
  - reflexivity.
Defined.
