(* ===== verification/Consensus.v ===== *)
(** * Consensus validation ([crates/dom-consensus/src/lib.rs], [block_full.rs],
    [cutthrough.rs])

    The orchestrated transaction and block validation, block weight, the Merkle roots
    of a block body, the chain identifier, and cut-through.  The laws are in
    [ConsensusLaws.v]. *)

From Stdlib Require Import ZArith Lia.
From stdpp Require Import base list strings.
From S2P Require Import Prelude CoreError Core FeePolicy Serialization.
From S2P Require Import CryptoHash Pmmr Curve Keys Pedersen Schnorr RangeProof.
From S2P Require Import Transaction BlockHeader.

Record ValidationContext : Type := {
  current_height : BlockHeight;
  chain_id : bytes;
  now : Timestamp;
}.

Record Block : Type := {
  header : BlockHeader;
  coinbase : CoinbaseTransaction;
  transactions : list Transaction;
}.

#[export] Instance Block_serialize : DomSerialize Block :=
  λ b w,
    let? w := serialize (header b) w in
    let? w := serialize (coinbase b) w in
    write_list w (transactions b).
#[export] Instance Block_deserialize `{HC : Secp256k1} : DomDeserialize Block := {|
  MIN_SERIALIZED_SIZE :=
    MIN_SERIALIZED_SIZE BlockHeader + MIN_SERIALIZED_SIZE CoinbaseTransaction + 4;
  deserialize :=
    read! header := deserialize (T := BlockHeader) in
    read! coinbase := deserialize (T := CoinbaseTransaction) in
    read! transactions := read_list Transaction MAX_BLOCK_TXS in
    rd_ret {| header := header; coinbase := coinbase; transactions := transactions |};
|}.

(** ** Weight, fees and work *)

Definition block_weight (coinbase : CoinbaseTransaction) (transactions : list Transaction)
  : Result Z :=
  let total := cb_kernel_weight (kernel coinbase) in
  let? total := ok_or (checked_add 32 total WEIGHT_OUTPUT) (Invalid "block weight overflow") in
  try_fold (λ total tx,
    let? w := weight tx in
    ok_or (checked_add 32 total w) (Invalid "block weight overflow")) total transactions.

Definition block_total_fees (b : Block) : Result Z :=
  try_fold (λ total tx,
    let? fee := total_fee tx in
    ok_or (checked_add 64 total fee) (Invalid "block fee overflow")) 0 (transactions b).

Definition checked_accumulated_difficulty (parent_total block_difficulty : Z) : Result Z :=
  ok_or (checked_add 256 parent_total block_difficulty) (Invalid "total_difficulty overflow").

(** ** Cut-through *)

Definition apply_cut_through (transactions : list Transaction)
  : Result (list TransactionInput * list TransactionOutput) :=
  let all_inputs := transactions ≫= inputs in
  let all_outputs := transactions ≫= outputs in
  let? _ := insert_distinct (Invalid "duplicate input before cut-through") []
              (in_commitment <$> all_inputs) in
  let? _ := insert_distinct (Invalid "duplicate output before cut-through") []
              (out_commitment <$> all_outputs) in
  let input_commits := in_commitment <$> all_inputs in
  let output_commits := out_commitment <$> all_outputs in
  let eliminated := filter (.∈ output_commits) input_commits in
  let outputs_after := filter (λ o, out_commitment o ∉ eliminated) all_outputs in
  let inputs_after := filter (λ i, in_commitment i ∉ eliminated) all_inputs in
  let? _ := insert_distinct (Invalid "duplicate input after cut-through") []
              (in_commitment <$> inputs_after) in
  let? _ := insert_distinct (Invalid "duplicate output after cut-through") []
              (out_commitment <$> outputs_after) in
  Ok (inputs_after, outputs_after).

(** ** Merkle roots of a block body *)

Section roots.
Context `{HB : Blake2b256}.

Definition push_leaf (t : Pmmr) (payload : bytes) : Result Pmmr :=
  let? (t', _) := push t payload in Ok t'.

(** The three accumulators: outputs, kernels, range proofs *)
Definition push_output (mmrs : Pmmr * Pmmr * Pmmr) (o : TransactionOutput)
  : Result (Pmmr * Pmmr * Pmmr) :=
  let '(om, km, rm) := mmrs in
  let? om := push_leaf om (commit_bytes (out_commitment o)) in
  let? rm := push_leaf rm (proof o) in
  Ok (om, km, rm).
Definition push_kernel (mmrs : Pmmr * Pmmr * Pmmr) (excess : Commitment)
  : Result (Pmmr * Pmmr * Pmmr) :=
  let '(om, km, rm) := mmrs in
  let? km := push_leaf km (commit_bytes excess) in
  Ok (om, km, rm).
Definition push_tx (mmrs : Pmmr * Pmmr * Pmmr) (tx : Transaction)
  : Result (Pmmr * Pmmr * Pmmr) :=
  let? mmrs := try_fold push_output mmrs (outputs tx) in
  try_fold push_kernel mmrs (kernel_excesses tx).

Definition compute_unbound_block_pmmr_roots (coinbase : CoinbaseTransaction)
    (transactions : list Transaction) : Result (Hash256 * Hash256 * Hash256) :=
  let? mmrs := push_output (pmmr_new, pmmr_new, pmmr_new) (output coinbase) in
  let? mmrs := push_kernel mmrs (cb_excess (kernel coinbase)) in
  let? mmrs := try_fold push_tx mmrs transactions in
  let '(om, km, rm) := mmrs in
  let? output_root := root om in
  let? kernel_root := root km in
  let? rangeproof_root := root rm in
  Ok (output_root, kernel_root, rangeproof_root).

Definition canonical_block_body_bytes (coinbase : CoinbaseTransaction)
    (transactions : list Transaction) : Result bytes :=
  let? w := serialize coinbase writer_new in
  let? w := write_list w transactions in
  Ok (writer_finish w).

Definition compute_block_body_commitment (coinbase : CoinbaseTransaction)
    (transactions : list Transaction) : Result Hash256 :=
  let? body := canonical_block_body_bytes coinbase transactions in
  Ok (blake2b_256_tagged TAG_BLOCK_BODY_COMMITMENT body).

Definition compute_block_pmmr_roots (block_height : BlockHeight)
    (coinbase : CoinbaseTransaction) (transactions : list Transaction)
  : Result (Hash256 * Hash256 * Hash256) :=
  let? (output_root, kernel_root, rangeproof_root) :=
    compute_unbound_block_pmmr_roots coinbase transactions in
  if height_val block_height =? height_val GENESIS then
    Ok (output_root, kernel_root, rangeproof_root)
  else
    let? body_commitment := compute_block_body_commitment coinbase transactions in
    let binding := hash_bytes rangeproof_root ++ hash_bytes body_commitment in
    Ok (output_root, kernel_root, blake2b_256_tagged TAG_BOUND_RANGEPROOF_ROOT binding).

Definition root_mismatch (name : string) (claimed computed : Hash256) : DomError :=
  Invalid (name +:+ " mismatch: header=" +:+ hex_concat (hash_bytes claimed)
           +:+ " computed=" +:+ hex_concat (hash_bytes computed)).

Definition validate_pmmr_roots (b : Block) : Result unit :=
  let? (computed_output_root, computed_kernel_root, computed_rangeproof_root) :=
    compute_block_pmmr_roots (height (header b)) (coinbase b) (transactions b) in
  if negb (bool_decide (computed_output_root = output_root (header b))) then
    Err (root_mismatch "output_root" (output_root (header b)) computed_output_root)
  else if negb (bool_decide (computed_kernel_root = kernel_root (header b))) then
    Err (root_mismatch "kernel_root" (kernel_root (header b)) computed_kernel_root)
  else if negb (bool_decide (computed_rangeproof_root = rangeproof_root (header b))) then
    Err (root_mismatch "rangeproof_root" (rangeproof_root (header b)) computed_rangeproof_root)
  else Ok tt.

Definition derive_chain_id (network_magic : Z) (genesis_hash : Hash256) : Hash256 :=
  blake2b_256_tagged TAG_CHAIN_ID (be_bytes 4 network_magic ++ hash_bytes genesis_hash).
End roots.

(** ** Validation *)

Section validate.
Context `{HB : Blake2b256} `{HC : Secp256k1} `{HZ : !ZkpBackend}.

(** RFC-0009: the message a kernel signs *)
Definition kernel_message (k : TransactionKernel) : Hash256 :=
  blake2b_256_tagged TAG_KERNEL_MSG
    ([features k] ++ le_bytes 8 (noms (fee k)) ++ le_bytes 8 (lock_height k)).

Definition check_kernel_signature (chain_id : bytes) (i : Z) (k : TransactionKernel)
  : Result unit :=
  let? sig := map_err (λ e, Invalid ("kernel " +:+ dec i +:+ " bad signature: "
                                     +:+ display_error e))
                (signature_from_bytes (excess_signature k)) in
  let? pk := map_err (λ e, Invalid ("kernel " +:+ dec i +:+ " bad excess point: "
                                    +:+ display_error e))
               (pk_from_compressed_bytes (commit_bytes (excess k))) in
  match schnorr_verify sig pk chain_id (hash_bytes (kernel_message k)) with
  | Ok true => Ok tt
  | Ok false =>
      Err (peer_misbehavior InvalidSignature
             ("kernel " +:+ dec i +:+ " Schnorr signature invalid"))
  | Err (Internal msg) => Err (Internal ("kernel sig: " +:+ msg))
  | Err e => Err e
  | Panic => Panic
  end.
Definition validate_kernel_signatures (tx : Transaction) (chain_id : bytes) : Result unit :=
  try_eachi (check_kernel_signature chain_id) 0 (kernels tx).

Definition validate_transaction (tx : Transaction) (ctx : ValidationContext) : Result unit :=
  let? _ := validate_transaction_structure tx in
  let? _ := validate_lock_heights tx (current_height ctx) in
  let? _ := validate_range_proofs tx in
  let? _ := validate_kernel_signatures tx (chain_id ctx) in
  let? _ := total_fee tx in
  let? w := weight tx in
  if MAX_TX_WEIGHT <? w then
    Err (Invalid ("tx weight " +:+ dec w +:+ " > MAX_TX_WEIGHT " +:+ dec MAX_TX_WEIGHT))
  else validate_balance_equation tx.

(** The loop over the transactions threads the index and the fees so far. *)
Definition validate_step (ctx : ValidationContext) (acc : Z * Z) (tx : Transaction)
  : Result (Z * Z) :=
  let '(i, actual_total_fees) := acc in
  let? _ := validate_transaction tx ctx in
  let? tx_fees := map_err (λ e, Invalid ("tx " +:+ dec i +:+ " fee error: "
                                         +:+ display_error e)) (total_fee tx) in
  let? fees := ok_or (checked_add 64 actual_total_fees tx_fees)
                 (Invalid "block total fees overflow") in
  Ok (i + 1, fees).

Definition validate_block_transactions (transactions : list Transaction)
    (coinbase : CoinbaseTransaction) (ctx : ValidationContext) (block_height : BlockHeight)
    (claimed_total_fees : Z) : Result unit :=
  let? total_block_weight := block_weight coinbase transactions in
  let? (_, actual_total_fees) := try_fold (validate_step ctx) (0, 0) transactions in
  if MAX_BLOCK_WEIGHT <? total_block_weight then
    Err (Invalid ("block weight " +:+ dec total_block_weight +:+ " > MAX_BLOCK_WEIGHT "
                  +:+ dec MAX_BLOCK_WEIGHT))
  else
    let? _ := coinbase_validate coinbase block_height actual_total_fees (chain_id ctx) in
    if negb (claimed_total_fees =? actual_total_fees) then
      Err (Invalid ("claimed fees " +:+ dec claimed_total_fees +:+ " != actual fees "
                    +:+ dec actual_total_fees))
    else Ok tt.

(** [flat_map] over the transactions of a block *)
Definition block_inputs (b : Block) : list Commitment := transactions b ≫= input_commits.
Definition block_outputs (b : Block) : list Commitment :=
  out_commitment (output (coinbase b)) :: (transactions b ≫= output_commits).
Definition block_excesses (b : Block) : list Commitment :=
  cb_excess (kernel (coinbase b)) :: (transactions b ≫= kernel_excesses).

Definition check_not_output (seen_outputs : list Commitment) (c : Commitment) : Result unit :=
  if bool_decide (c ∈ seen_outputs) then
    Err (Invalid "block-level cut-through violation: input commitment matches a block output")
  else Ok tt.

Definition validate_block_for_network (b : Block) (ctx : ValidationContext)
    (network_magic : Z) : Result unit :=
  let? _ := validate_header_syntax (header b) network_magic in
  let? w := block_weight (coinbase b) (transactions b) in
  if MAX_BLOCK_WEIGHT <? w then
    Err (Invalid ("block weight " +:+ dec w +:+ " > MAX_BLOCK_WEIGHT "
                  +:+ dec MAX_BLOCK_WEIGHT))
  else if MAX_BLOCK_TXS <? zlen (transactions b) then
    Err (Invalid ("too many transactions: " +:+ dec (zlen (transactions b)) +:+ " > "
                  +:+ dec MAX_BLOCK_TXS))
  else
    let? _ := insert_distinct (Invalid "duplicate input commitment across block") []
                (block_inputs b) in
    let? seen_outputs := insert_distinct (Invalid "duplicate output commitment in block") []
                [out_commitment (output (coinbase b))] in
    let? seen_outputs := insert_distinct (Invalid "duplicate output commitment across block")
                seen_outputs (transactions b ≫= output_commits) in
    let? _ := try_each (check_not_output seen_outputs) (block_inputs b) in
    let? total_fees := block_total_fees b in
    let? _ := validate_block_transactions (transactions b) (coinbase b) ctx
                (height (header b)) total_fees in
    let? base_reward := block_reward (height (header b)) in
    let? valid := verify_block_balance_equation (block_outputs b) (block_inputs b)
                    (block_excesses b) (total_kernel_offset (header b)) (noms base_reward) in
    if negb valid then Err (Invalid "aggregate block balance equation does not hold")
    else validate_pmmr_roots b.

Definition validate_block (b : Block) (ctx : ValidationContext) : Result unit :=
  validate_block_for_network b ctx NETWORK_MAGIC_MAINNET.
End validate.
