(* ===== verification/ConsensusLaws.v ===== *)
(** * Laws of consensus validation

    What an accepted transaction and an accepted block satisfy: exact wire format,
    no double spend, no inflation, binding of the header to the body, cut-through,
    and the absence of panics on decoded blocks. *)

From Stdlib Require Import ZArith Lia.
From stdpp Require Import base list strings.
From S2P Require Import Prelude CoreError Core FeePolicy Serialization.
From S2P Require Import CryptoHash Pmmr Curve Keys Pedersen Schnorr RangeProof.
From S2P Require Import Transaction TransactionLaws BlockHeader Consensus.

(** ** Wire format *)

Section codec.
Context `{HC : Secp256k1}.

Definition block_ok (b : Block) : Prop :=
  header_ok (header b) ∧ coinbase_ok (coinbase b) ∧ list_ok MAX_BLOCK_TXS (transactions b).

#[export, refine] Instance Block_codec : Codec Block := {|
  wf := block_ok;
  wire b := wire (header b) ++ wire (coinbase b) ++ list_wire (transactions b);
|}.
Proof.
  - intros b w (Hh & Hc & Ht). unfold serialize at 1, Block_serialize.
    rewrite serialize_wire by done. cbn [rbind]. rewrite serialize_wire by done. cbn [rbind].
    rewrite (write_list_ok _ _ _ Ht). by rewrite !append_append.
  - eapply parses_equiv.
    + eapply (parses_bind _ _ header _ (λ _, True));
        [apply (deserialize_parses (T := BlockHeader))|]. intros ? ?.
      eapply (parses_bind _ _ coinbase);
        [apply (deserialize_parses (T := CoinbaseTransaction))|]. intros ? ?.
      eapply (parses_bind _ _ transactions _ _ (λ _, True) _ (λ _, []));
        [apply read_list_parses|]. intros ? ?.
      apply parses_ret. intros []. simpl. naive_solver.
    + intros b. unfold block_ok. simpl. tauto.
    + intros b _. simpl. by rewrite app_nil_r.
  - intros b (Hh & Hc & Ht). rewrite !bytes_ok_app.
    split_and!; [by apply wire_bytes_ok..|by eapply list_wire_ok].
  - intros b (Hh & Hc & Ht). cbn [MIN_SERIALIZED_SIZE Block_deserialize].
    rewrite !zlen_app. pose proof (wire_min_size (header b) Hh).
    pose proof (wire_min_size (coinbase b) Hc).
    pose proof (zlen_list_wire_min (transactions b)). lia.
  - done.
Defined.

(** C35: Block decoding is exact: whatever the bytes it never panics, and it returns a
    block exactly when that block is well formed and the bytes are its encoding, so
    every block has one encoding and every accepted encoding one block.  The same
    holds for a transaction on its own. *)
Theorem block_codec_exact bs b tx :
  bytes_ok bs → zlen bs < 2 ^ 63 →
  from_bytes Block bs ≠ Panic ∧
  (from_bytes Block bs = Ok b ↔ wf b ∧ to_bytes b = Ok bs) ∧
  from_bytes Transaction bs ≠ Panic ∧
  (from_bytes Transaction bs = Ok tx ↔ wf tx ∧ to_bytes tx = Ok bs).
Proof.
  intros Hb Hl. destruct (codec_exact (T := Block) bs b Hb Hl) as [H1 H2].
  destruct (codec_exact (T := Transaction) bs tx Hb Hl) as [H3 H4]. done.
Qed.
End codec.

(** Encodings determine the value, also with more bytes behind them. *)
Lemma wire_prefix_inj {T} `{HS : !DomSerialize T, HD : !DomDeserialize T, HT : !Codec T}
    (a b : T) p q :
  wf a → wf b → bytes_ok p → zlen (wire a ++ p) < 2 ^ 63 →
  wire a ++ p = wire b ++ q → a = b ∧ p = q.
Proof.
  intros Ha Hb Hp Hl He.
  assert (Hr : reader_ok (reader_new (wire a ++ p))).
  { apply reader_ok_new; [|done]. apply bytes_ok_app. split; [by apply wire_bytes_ok|done]. }
  destruct (deserialize_parses _ Hr) as [_ Hd].
  assert (H1 := proj2 (Hd a _) (conj Ha (ex_intro _ p (conj eq_refl eq_refl)))).
  assert (H2 := proj2 (Hd b _) (conj Hb (ex_intro _ q (conj He eq_refl)))).
  rewrite H1 in H2. injection H2 as -> _. split; [done|]. by apply app_inv_head in He.
Qed.

Lemma list_wire_inj {T} `{HS : !DomSerialize T, HD : !DomDeserialize T, HT : !Codec T}
    m (l1 l2 : list T) :
  list_ok m l1 → list_ok m l2 → zlen (list_wire l1) < 2 ^ 63 →
  list_wire l1 = list_wire l2 → l1 = l2.
Proof.
  intros H1 H2 Hl He.
  assert (Hr : reader_ok (reader_new (list_wire l1))).
  { apply reader_ok_new; [by eapply list_wire_ok|done]. }
  destruct (read_list_parses m _ Hr) as [_ Hd].
  assert (Hx := proj2 (Hd l1 _) (conj H1 (ex_intro _ [] (conj (eq_sym (app_nil_r _)) eq_refl)))).
  assert (Hy := proj2 (Hd l2 _) (conj H2 (ex_intro _ []
    (conj (eq_trans He (eq_sym (app_nil_r _))) eq_refl)))).
  rewrite Hx in Hy. by injection Hy as ->.
Qed.

(** ** Transactions *)

Section transaction.
Context `{HB : Blake2b256} `{HC : Secp256k1} `{HH : !HGenerator} `{HZ : !ZkpBackend}.
Local Open Scope point_scope.

Lemma to_crypto_Ok c c' : to_crypto c = Ok c' → c' = c.
Proof.
  unfold to_crypto. intros H%map_err_Ok. apply from_compressed_bytes_Ok in H as (-> & _).
  by destruct c.
Qed.

Lemma try_map_to_crypto l l' : try_map to_crypto l = Ok l' → l' = l.
Proof.
  intros H%try_map_Ok. induction H as [|c c' l l' Hc _ ->]; [done|].
  by rewrite (to_crypto_Ok _ _ Hc).
Qed.

(** The balance check of a transaction, as the arguments of the equation *)
Definition tx_balance (tx : Transaction) : Balance := {|
  b_outputs := output_commits tx;
  b_inputs := input_commits tx;
  b_excesses := kernel_excesses tx;
  b_offset := offset tx;
  b_fee := fee_sum (kernels tx);
|}.

Lemma tx_ok_fees tx : tx_ok tx → fees_ok (kernels tx).
Proof.
  intros (_ & _ & (_ & _ & Hk) & _). eapply Forall_impl; [exact Hk|]. by intros k (_ & ? & _).
Qed.

Lemma validate_balance_equation_Ok tx :
  tx_ok tx → validate_balance_equation tx = Ok tt → balanced (tx_balance tx).
Proof.
  intros Htx. pose proof (tx_ok_fees tx Htx) as Hfees. destruct Htx as (_ & _ & _ & Hl & Hb).
  unfold validate_balance_equation. intros H. res_inv.
  apply try_map_to_crypto in Hm as ->, Hm0 as ->, Hm1 as ->.
  apply total_fee_Ok in Hm2 as [-> _]; [|done]. destruct a3; [|done].
  split_and!; try done. by apply fee_sum_nonneg.
Qed.

(** A kernel's signature equation *)
Definition signed (sig_bytes chain_id message : bytes) (c : Commitment) : Prop :=
  ∃ sig pk, signature_from_bytes sig_bytes = Ok sig ∧
    pk_from_compressed_bytes (commit_bytes c) = Ok pk ∧
    schnorr_verify sig pk chain_id message = Ok true.

Lemma check_kernel_signature_Ok cid i k :
  check_kernel_signature cid i k = Ok tt ↔
  signed (excess_signature k) cid (hash_bytes (kernel_message k)) (excess k).
Proof.
  unfold check_kernel_signature, signed. split.
  - intros H. res_inv. exists a, a0. split_and!; [done..|].
    by destruct (schnorr_verify a a0 cid _) as [[]|[]|].
  - intros (sig & pk & -> & -> & Hv). cbn [map_err rbind]. by rewrite Hv.
Qed.

Definition range_proved (o : TransactionOutput) : Prop := verify_output_proof o = Ok (Ok true).

Lemma check_range_proof_Ok i o : check_range_proof i o = Ok tt ↔ range_proved o.
Proof.
  unfold check_range_proof, range_proved. destruct (verify_output_proof o) as [v| |]; cbn [rbind].
  - destruct v as [[]| |]; naive_solver.
  - done.
  - done.
Qed.

(** The rules an accepted transaction satisfies *)
Record transaction_rules (tx : Transaction) (ctx : ValidationContext) : Prop := {
  tr_structure : structure_ok tx;
  tr_unlocked : Forall (λ k, features k = KERNEL_FEAT_HEIGHT_LOCKED →
                  (lock_height k ≤ height_val (current_height ctx))%Z) (kernels tx);
  tr_range : Forall range_proved (outputs tx);
  tr_signed : Forall (λ k, signed (excess_signature k) (chain_id ctx)
                  (hash_bytes (kernel_message k)) (excess k)) (kernels tx);
  tr_balanced : balanced (tx_balance tx);
}.

Lemma try_map_to_crypto_id l : Forall commitment_ok l → try_map to_crypto l = Ok l.
Proof.
  intros H. apply try_map_Ok. induction H as [|c l Hc _ IH]; [constructor|].
  constructor; [|done]. unfold to_crypto. apply map_err_Ok, commitment_ok_intro; [apply Hc|done].
Qed.

Lemma tx_ok_commitments tx :
  tx_ok tx → Forall commitment_ok (output_commits tx) ∧ Forall commitment_ok (input_commits tx) ∧
             Forall commitment_ok (kernel_excesses tx).
Proof.
  intros ((_ & _ & Hi) & (_ & _ & Ho) & (_ & _ & Hk) & _).
  unfold output_commits, input_commits, kernel_excesses. rewrite !Forall_fmap.
  split_and!; (eapply Forall_impl; [eassumption|]).
  - by intros o [? _].
  - done.
  - by intros k (_ & _ & _ & ? & _).
Qed.

Lemma validate_balance_equation_total tx :
  tx_ok tx → (fee_sum (kernels tx) < 2 ^ 64)%Z → balanced (tx_balance tx) →
  validate_balance_equation tx = Ok tt.
Proof.
  intros Htx Hs (_ & _ & _ & Hv). destruct (tx_ok_commitments tx Htx) as (Ho & Hi & Hk).
  unfold validate_balance_equation. rewrite !try_map_to_crypto_id by done. cbn [rbind].
  rewrite (proj2 (total_fee_Ok tx _ (tx_ok_fees tx Htx)) (conj eq_refl Hs)). cbn [rbind].
  cbn [tx_balance b_outputs b_inputs b_excesses b_offset b_fee] in Hv. by rewrite Hv.
Qed.

Lemma validate_transaction_Ok tx ctx :
  tx_ok tx → validate_transaction tx ctx = Ok tt ↔ transaction_rules tx ctx.
Proof.
  intros Htx. pose proof (tx_ok_fees tx Htx) as Hfees. unfold validate_transaction.
  pose proof (validate_transaction_structure_Ok tx Hfees) as Hst. split.
  - intros H. res_inv. apply (proj1 Hst) in Hm.
    apply validate_lock_heights_Ok in Hm0.
    apply (try_eachi_Ok _ _ _ _ check_range_proof_Ok) in Hm1.
    apply (try_eachi_Ok _ _ _ _ (check_kernel_signature_Ok (chain_id ctx))) in Hm2.
    split; try done. by apply validate_balance_equation_Ok.
  - intros [Hs Hl Hr Hk Hb]. rewrite (proj2 Hst Hs). cbn [rbind].
    rewrite (proj2 (validate_lock_heights_Ok tx _) Hl). cbn [rbind].
    unfold validate_range_proofs, validate_kernel_signatures.
    rewrite (proj2 (try_eachi_Ok _ _ _ _ check_range_proof_Ok)) by done. cbn [rbind].
    rewrite (proj2 (try_eachi_Ok _ _ _ _ (check_kernel_signature_Ok (chain_id ctx)))) by done.
    cbn [rbind].
    rewrite (proj2 (total_fee_Ok tx _ Hfees) (conj eq_refl (so_fees _ Hs))). cbn [rbind].
    rewrite structure_ok_weight by done. cbn [rbind].
    destruct (Z.ltb_spec MAX_TX_WEIGHT (weight_of (zlen (inputs tx)) (zlen (outputs tx))
      (zlen (kernels tx)))); [pose proof (so_weight _ Hs); lia|].
    apply validate_balance_equation_total; [done| |done]. apply Hs.
Qed.
End transaction.

(** ** Blocks *)

Section block.
Context `{HB : Blake2b256} `{HC : Secp256k1} `{HH : !HGenerator} `{HZ : !ZkpBackend}.
Local Open Scope point_scope.

Definition block_fees (b : Block) : Z := zsum ((λ tx, fee_sum (kernels tx)) <$> transactions b).
Definition tx_weight (tx : Transaction) : Z :=
  weight_of (zlen (inputs tx)) (zlen (outputs tx)) (zlen (kernels tx)).

Lemma list_ok_Forall {T} `{!DomSerialize T, !DomDeserialize T, !Codec T} m (l : list T) :
  list_ok m l → Forall wf l.
Proof. by intros (_ & _ & ?). Qed.

Lemma block_ok_txs b : block_ok b → Forall tx_ok (transactions b).
Proof. intros (_ & _ & (_ & _ & H)). exact H. Qed.

Lemma tx_ok_weight tx : tx_ok tx → weight tx = Ok (tx_weight tx).
Proof.
  intros ((Hi & _) & (Ho & _) & (Hk & _) & _). unfold weight, tx_weight.
  by rewrite (proj2 (weight_checked_Ok tx _) (conj eq_refl (conj Hi (conj Ho Hk)))).
Qed.

Lemma weight_fold_Ok txs acc w :
  Forall tx_ok txs →
  try_fold (λ total tx, let? w := weight tx in
    ok_or (checked_add 32 total w) (Invalid "block weight overflow")) acc txs = Ok w →
  w = (acc + zsum (tx_weight <$> txs))%Z.
Proof.
  intros H. revert acc. induction H as [|tx txs Htx _ IH]; intros acc; cbn [try_fold].
  - intros [= <-]. cbn. lia.
  - rewrite tx_ok_weight by done. cbn [rbind]. intros Hf. res_inv.
    apply IH in Hf as ->. rewrite fmap_cons. cbn [zsum foldr]. fold zsum. lia.
Qed.

Lemma block_weight_Ok cb txs w :
  Forall tx_ok txs → block_weight cb txs = Ok w → w = (23 + zsum (tx_weight <$> txs))%Z.
Proof.
  intros Ht. unfold block_weight. intros H. res_inv. by apply weight_fold_Ok in H.
Qed.

Lemma block_fees_fold txs acc t :
  Forall tx_ok txs →
  try_fold (λ total tx, let? fee := total_fee tx in
    ok_or (checked_add 64 total fee) (Invalid "block fee overflow")) acc txs = Ok t →
  t = (acc + zsum ((λ tx, fee_sum (kernels tx)) <$> txs))%Z.
Proof.
  intros H. revert acc. induction H as [|tx txs Htx _ IH]; intros acc; cbn [try_fold].
  - intros [= <-]. cbn. lia.
  - intros Hf. res_inv. apply total_fee_Ok in Hm0 as [-> _]; [|by apply tx_ok_fees].
    apply IH in Hf as ->. rewrite fmap_cons. cbn [zsum foldr]. fold zsum. lia.
Qed.

Lemma validate_step_fold ctx txs i acc j t :
  Forall tx_ok txs → try_fold (validate_step ctx) (i, acc) txs = Ok (j, t) →
  Forall (λ tx, transaction_rules tx ctx) txs ∧
  t = (acc + zsum ((λ tx, fee_sum (kernels tx)) <$> txs))%Z.
Proof.
  intros H. revert i acc. induction H as [|tx txs Htx _ IH]; intros i acc; cbn [try_fold].
  - intros [= <- <-]. split; [constructor|]. cbn. lia.
  - intros Hf. unfold validate_step at 1 in Hf. res_inv.
    apply total_fee_Ok in Hm1 as [-> _]; [|by apply tx_ok_fees].
    apply validate_transaction_Ok in Hm0; [|done].
    apply IH in Hf as [? ->]. split; [by constructor|].
    rewrite fmap_cons. cbn [zsum foldr]. fold zsum. lia.
Qed.

(** What an accepted coinbase satisfies *)
Record coinbase_rules (cb : CoinbaseTransaction) (h : BlockHeight) (fees : Z) (cid : bytes)
  : Prop := {
  cr_features : cb_features (kernel cb) = KERNEL_FEAT_COINBASE;
  cr_offset : cb_offset cb = replicate 32 0%Z;
  cr_value : explicit_value (kernel cb) = (reward_at (height_val h) + fees)%Z;
  cr_provable : (explicit_value (kernel cb) ≤ MAX_PROVABLE_VALUE)%Z;
  cr_range : range_proved (output cb);
  cr_signed : signed (cb_excess_signature (kernel cb)) cid
                (hash_bytes (coinbase_message (kernel cb))) (cb_excess (kernel cb));
}.

Lemma validate_coinbase_signature_Ok cb cid :
  validate_coinbase_signature cb cid = Ok tt →
  signed (cb_excess_signature (kernel cb)) cid (hash_bytes (coinbase_message (kernel cb)))
    (cb_excess (kernel cb)).
Proof.
  unfold validate_coinbase_signature, signed. intros H. res_inv. exists a, a0.
  split_and!; [done..|]. by destruct (schnorr_verify a a0 cid _) as [[]|[]|].
Qed.

Lemma coinbase_validate_Ok cb h fees cid :
  (0 ≤ height_val h)%Z → (0 ≤ fees)%Z → coinbase_validate cb h fees cid = Ok tt →
  coinbase_rules cb h fees cid.
Proof.
  intros Hh Hf. unfold coinbase_validate. intros H. res_inv. bool_inv.
  apply validate_explicit_value_Ok in Hm as [? ?]; [|done..].
  apply validate_coinbase_signature_Ok in H.
  split; try done.
  - by eapply bool_decide_eq_true_1.
  - unfold range_proved. by destruct a0 as [[]| |].
Qed.

(** Every rule an accepted block satisfies *)
Record block_rules (b : Block) (ctx : ValidationContext) (magic : Z) : Prop := {
  br_syntax : validate_header_syntax (header b) magic = Ok tt;
  br_weight : (23 + zsum (tx_weight <$> transactions b) ≤ MAX_BLOCK_WEIGHT)%Z;
  br_inputs : NoDup (block_inputs b);
  br_outputs : NoDup (block_outputs b);
  br_cut_through : ∀ c, c ∈ block_inputs b → c ∉ block_outputs b;
  br_txs : Forall (λ tx, transaction_rules tx ctx) (transactions b);
  br_coinbase : coinbase_rules (coinbase b) (height (header b)) (block_fees b) (chain_id ctx);
  br_balance : verify_block_balance_equation (block_outputs b) (block_inputs b)
                 (block_excesses b) (total_kernel_offset (header b))
                 (reward_at (height_val (height (header b)))) = Ok true;
  br_roots : validate_pmmr_roots b = Ok tt;
}.

Lemma check_not_output_Ok s c : check_not_output s c = Ok tt ↔ c ∉ s.
Proof. unfold check_not_output. case_bool_decide; naive_solver. Qed.

Lemma block_fees_nonneg b : Forall tx_ok (transactions b) → (0 ≤ block_fees b)%Z.
Proof.
  unfold block_fees. induction 1 as [|tx txs Htx _ IH]; [done|]. rewrite fmap_cons.
  cbn [zsum foldr]. fold zsum. pose proof (fee_sum_nonneg _ (tx_ok_fees tx Htx)). lia.
Qed.

Lemma validate_block_transactions_Ok b ctx claimed :
  Forall tx_ok (transactions b) → (0 ≤ height_val (height (header b)))%Z →
  validate_block_transactions (transactions b) (coinbase b) ctx (height (header b)) claimed
  = Ok tt →
  Forall (λ tx, transaction_rules tx ctx) (transactions b) ∧
  coinbase_rules (coinbase b) (height (header b)) (block_fees b) (chain_id ctx).
Proof.
  intros Htxs Hh. unfold validate_block_transactions. intros H. res_inv. bool_inv.
  apply validate_step_fold in Hm0 as [Htr Hfees]; [|done]. rewrite Z.add_0_l in Hfees.
  fold (block_fees b) in Hfees. subst. split; [done|].
  apply coinbase_validate_Ok in Hm1; [done|done|]. by apply block_fees_nonneg.
Qed.

Lemma validate_block_rules b ctx magic :
  block_ok b → validate_block_for_network b ctx magic = Ok tt → block_rules b ctx magic.
Proof.
  intros Hb. pose proof (block_ok_txs b Hb) as Htxs.
  assert (Hh : (0 ≤ height_val (height (header b)))%Z) by apply Hb.
  unfold validate_block_for_network. intros H. res_inv. bool_inv. subst.
  apply block_weight_Ok in Hm0 as ->; [|done].
  apply insert_distinct_fresh in Hm1 as [Hdi _].
  apply insert_distinct_fresh in Hm2 as [_ ->].
  apply insert_distinct_Ok in Hm3 as (Hdo & Hcb & ->).
  apply try_each_Ok in Hm4. setoid_rewrite check_not_output_Ok in Hm4.
  apply block_fees_fold in Hm5 as ->; [|done].
  apply validate_block_transactions_Ok in Hm6 as [Htr Hcr]; [|done..].
  rewrite block_reward_eq in Hm7 by done. injection Hm7 as <-.
  assert (Hmem : ∀ c, c ∈ reverse (transactions b ≫= output_commits) ++ reverse [out_commitment (output (coinbase b))] ↔ c ∈ block_outputs b).
  { intros c. unfold block_outputs. rewrite elem_of_app, !elem_of_reverse.
    rewrite list_elem_of_singleton, elem_of_cons. tauto. }
  split; try done.
  - unfold block_outputs. apply NoDup_cons. split; [|done]. intros Hin.
    apply (Hcb _ Hin). by apply list_elem_of_singleton.
  - intros c Hc. rewrite Forall_forall in Hm4. rewrite <- Hmem. by apply Hm4.
Qed.

Lemma decodes_list_fun l Ps Qs : Forall2 decodes l Ps → Forall2 decodes l Qs → Ps = Qs.
Proof.
  intros HP. revert Qs. induction HP as [|c P l Ps Hc _ IH]; intros Qs HQ; inversion HQ; subst;
    [done|]. f_equal; [by eapply decodes_fun|by apply IH].
Qed.

Definition block_offsets (b : Block) : Z := zsum ((λ tx, be_val (offset tx)) <$> transactions b).

(** The coinbase equation an accepted block leaves *)
Lemma block_rules_coinbase b ctx magic :
  block_ok b → block_rules b ctx magic →
  ∃ P Q, decodes (out_commitment (output (coinbase b))) P ∧
    decodes (cb_excess (kernel (coinbase b))) Q ∧
    P = Q + explicit_value (kernel (coinbase b)) * gen_H
          + (be_val (total_kernel_offset (header b)) - block_offsets b)%Z * gen_G.
Proof.
  intros Hb Hr. destruct (ho_offset _ (proj1 Hb)) as [Hol Hob].
  pose proof (br_balance _ _ _ Hr) as Heq.
  apply verify_block_balance_equation_Ok in Heq
    as (Os & Is & Es & HO & HI & HE & _ & Heq); [|done|done|apply reward_at_nonneg].
  symmetry in Heq. apply bool_decide_eq_true in Heq.
  destruct (balanced_sum (tx_balance <$> transactions b)) as (Os' & Is' & Es' & HO' & HI' & HE' & Hs).
  { apply Forall_fmap. eapply Forall_impl; [apply (br_txs _ _ _ Hr)|]. by intros tx []. }
  rewrite !list_fmap_bind in HO', HI', HE'. rewrite <- !list_fmap_compose in Hs.
  unfold block_outputs, block_inputs, block_excesses in *.
  inversion HO as [|? P ? Os1 HP HO1]; inversion HE as [|? Q ? Es1 HQ HE1]; subst.
  assert (Os1 = Os') as -> by (eapply decodes_list_fun; [apply HO1|apply HO']).
  assert (Is = Is') as -> by (eapply decodes_list_fun; [apply HI|apply HI']).
  assert (Es1 = Es') as -> by (eapply decodes_list_fun; [apply HE1|apply HE']).
  exists P, Q. split_and!; [done..|].
  rewrite (cr_value _ _ _ _ (br_coinbase _ _ _ Hr)). unfold block_fees, block_offsets.
  cbn [sum_points foldr] in Heq. fold sum_points in Heq.
  apply pt_eq_iff_zero in Heq, Hs. apply pt_eq_iff_zero.
  match type of Heq with ?x = _ => match type of Hs with ?y = _ =>
    transitivity (x - y); [|rewrite Heq, Hs; module_solve] end end.
  unfold compose. cbn [tx_balance b_fee b_offset]. module_solve.
Qed.

(** C1: No inflation.  In a block that validation accepts, the coinbase claims exactly
    the subsidy of its height plus the fees of the transactions, within the provable
    range, and its output is its excess plus that value times H plus a multiple of G
    (the header offset minus the transaction offsets): beyond the coinbase value the
    block creates nothing. *)
Theorem block_no_inflation b ctx magic :
  block_ok b → validate_block_for_network b ctx magic = Ok tt →
  let v := explicit_value (kernel (coinbase b)) in
  v = (reward_at (height_val (height (header b))) + block_fees b)%Z ∧
  (v ≤ MAX_PROVABLE_VALUE)%Z ∧
  ∃ P Q, decodes (out_commitment (output (coinbase b))) P ∧
    decodes (cb_excess (kernel (coinbase b))) Q ∧
    P = Q + v * gen_H
          + (be_val (total_kernel_offset (header b)) - block_offsets b)%Z * gen_G.
Proof.
  intros Hb Hv. apply validate_block_rules in Hv; [|done]. cbv zeta.
  split_and!; [apply Hv..|]. by eapply block_rules_coinbase.
Qed.

(** C8: No double spend inside a block.  In an accepted block no commitment is spent
    twice, none is created twice (coinbase included), none is both created and spent,
    every transaction passes the structural, lock-height, range-proof, signature and
    balance rules, and the weight is within the limit. *)
Theorem block_no_double_spend b ctx magic :
  block_ok b → validate_block_for_network b ctx magic = Ok tt →
  NoDup (block_inputs b) ∧ NoDup (block_outputs b) ∧
  (∀ c, c ∈ block_inputs b → c ∉ block_outputs b) ∧
  Forall (λ tx, transaction_rules tx ctx) (transactions b) ∧
  (23 + zsum (tx_weight <$> transactions b) ≤ MAX_BLOCK_WEIGHT)%Z.
Proof. intros Hb Hv. apply validate_block_rules in Hv; [|done]. by split_and!; apply Hv. Qed.

(** *** Absence of panics *)

Lemma capsule_from_bytes_no_panic b : capsule_from_bytes b ≠ Panic.
Proof. unfold capsule_from_bytes. cbv zeta. no_panic. Qed.

Lemma verify_output_proof_no_panic o :
  verify_output_proof o ≠ Panic ∧ verify_output_proof o ≠ Ok Panic.
Proof.
  assert (H1 : verify_output_proof o ≠ Panic).
  { unfold verify_output_proof, range_proof_bytes, recovery_capsule. no_panic.
    apply capsule_from_bytes_no_panic. }
  split; [done|]. unfold verify_output_proof. intros H. res_inv. destruct a0.
  - by apply range_proof_verify_with_extra_commit_no_panic in H.
  - by apply range_proof_verify_no_panic in H.
Qed.

Lemma check_range_proof_no_panic i o : check_range_proof i o ≠ Panic.
Proof.
  destruct (verify_output_proof_no_panic o) as [H1 H2]. unfold check_range_proof.
  destruct (verify_output_proof o) as [[[]| |]| |]; cbn [rbind]; done.
Qed.

Lemma check_kernel_signature_no_panic cid i k : check_kernel_signature cid i k ≠ Panic.
Proof.
  unfold check_kernel_signature.
  no_panic; auto using signature_from_bytes_no_panic, pk_from_compressed_bytes_no_panic.
  exfalso. by eapply schnorr_verify_no_panic.
Qed.

Lemma validate_balance_equation_no_panic tx : validate_balance_equation tx ≠ Panic.
Proof.
  unfold validate_balance_equation, to_crypto.
  no_panic; auto using from_compressed_bytes_no_panic, total_fee_no_panic,
    verify_balance_equation_no_panic.
Qed.

Lemma validate_transaction_no_panic tx ctx : tx_ok tx → validate_transaction tx ctx ≠ Panic.
Proof.
  intros Htx. unfold validate_transaction, validate_range_proofs, validate_kernel_signatures.
  rewrite tx_ok_weight by done. cbn [rbind].
  no_panic; auto using validate_transaction_structure_no_panic, validate_lock_heights_no_panic,
    check_range_proof_no_panic, check_kernel_signature_no_panic, total_fee_no_panic,
    validate_balance_equation_no_panic.
Qed.

Lemma coinbase_validate_no_panic cb h fees cid :
  (0 ≤ height_val h)%Z → coinbase_validate cb h fees cid ≠ Panic.
Proof.
  intros Hh. destruct (verify_output_proof_no_panic (output cb)) as [H1 H2].
  unfold coinbase_validate, validate_coinbase_signature.
  no_panic; auto using validate_explicit_value_no_panic, signature_from_bytes_no_panic,
    pk_from_compressed_bytes_no_panic; try congruence.
  exfalso. by eapply schnorr_verify_no_panic.
Qed.

Lemma block_weight_no_panic cb txs : Forall tx_ok txs → block_weight cb txs ≠ Panic.
Proof.
  intros Ht. unfold block_weight. no_panic.
  rewrite Forall_forall in Ht. by rewrite tx_ok_weight by auto.
Qed.

Lemma validate_block_transactions_no_panic txs cb ctx h claimed :
  Forall tx_ok txs → (0 ≤ height_val h)%Z →
  validate_block_transactions txs cb ctx h claimed ≠ Panic.
Proof.
  intros Ht Hh. unfold validate_block_transactions.
  no_panic; auto using block_weight_no_panic, coinbase_validate_no_panic.
  unfold validate_step. no_panic; auto using total_fee_no_panic.
  rewrite Forall_forall in Ht. by apply validate_transaction_no_panic, Ht.
Qed.
End block.

(** ** Merkle roots *)

Section roots.
Context `{HB : Blake2b256}.

Lemma push_all_cons t x l t' :
  push_all t (x :: l) = Ok t' ↔ ∃ t1, push_leaf t x = Ok t1 ∧ push_all t1 l = Ok t'.
Proof. unfold push_all, push_leaf. cbn [try_fold]. by rewrite rbind_Ok. Qed.

Lemma push_all_app t l1 l2 :
  push_all t (l1 ++ l2) = let? t1 := push_all t l1 in push_all t1 l2.
Proof. apply try_fold_app. Qed.

Lemma push_output_fold os om km rm om' rm' :
  push_all om (commit_bytes ∘ out_commitment <$> os) = Ok om' →
  push_all rm (proof <$> os) = Ok rm' →
  try_fold push_output (om, km, rm) os = Ok (om', km, rm').
Proof.
  revert om rm. induction os as [|o os IH]; intros om rm; [by intros [= <-] [= <-]|].
  rewrite !fmap_cons, !push_all_cons. intros (om1 & H1 & H2) (rm1 & H3 & H4).
  cbn [try_fold push_output]. cbn [compose] in H1. rewrite H1. cbn [rbind]. rewrite H3.
  cbn [rbind]. by apply IH.
Qed.

Lemma push_kernel_fold es om km rm km' :
  push_all km (commit_bytes <$> es) = Ok km' →
  try_fold push_kernel (om, km, rm) es = Ok (om, km', rm).
Proof.
  revert km. induction es as [|e es IH]; intros km; [by intros [= <-]|].
  rewrite fmap_cons, push_all_cons. intros (km1 & H1 & H2).
  cbn [try_fold push_kernel]. rewrite H1. cbn [rbind]. by apply IH.
Qed.

(** The leaves of the three trees *)
Definition output_leaves (cb : CoinbaseTransaction) (txs : list Transaction) : list bytes :=
  commit_bytes (out_commitment (output cb))
  :: (txs ≫= λ tx, commit_bytes ∘ out_commitment <$> outputs tx).
Definition kernel_leaves (cb : CoinbaseTransaction) (txs : list Transaction) : list bytes :=
  commit_bytes (cb_excess (kernel cb)) :: (txs ≫= λ tx, commit_bytes <$> kernel_excesses tx).
Definition proof_leaves (cb : CoinbaseTransaction) (txs : list Transaction) : list bytes :=
  proof (output cb) :: (txs ≫= λ tx, proof <$> outputs tx).

Lemma push_tx_fold txs om km rm om' km' rm' :
  push_all om (txs ≫= λ tx, commit_bytes ∘ out_commitment <$> outputs tx) = Ok om' →
  push_all km (txs ≫= λ tx, commit_bytes <$> kernel_excesses tx) = Ok km' →
  push_all rm (txs ≫= λ tx, proof <$> outputs tx) = Ok rm' →
  try_fold push_tx (om, km, rm) txs = Ok (om', km', rm').
Proof.
  revert om km rm. induction txs as [|tx txs IH]; intros om km rm;
    [by intros [= <-] [= <-] [= <-]|].
  rewrite !bind_cons, !push_all_app, !rbind_Ok.
  intros (om1 & Ho & Ho') (km1 & Hk & Hk') (rm1 & Hr & Hr').
  cbn [try_fold]. unfold push_tx at 1.
  rewrite (push_output_fold _ _ _ _ _ _ Ho Hr). cbn [rbind].
  rewrite (push_kernel_fold _ _ _ _ _ Hk). cbn [rbind]. by apply IH.
Qed.

Lemma compute_unbound_eq cb txs :
  zlen (output_leaves cb txs) ≤ 2 ^ 61 → zlen (kernel_leaves cb txs) ≤ 2 ^ 61 →
  zlen (proof_leaves cb txs) ≤ 2 ^ 61 →
  compute_unbound_block_pmmr_roots cb txs
  = Ok (mmr_root (output_leaves cb txs), mmr_root (kernel_leaves cb txs),
        mmr_root (proof_leaves cb txs)).
Proof.
  intros HO HK HR.
  destruct (pmmr_build _ HO) as (om & Ho & Hoi & Hoc).
  destruct (pmmr_build _ HK) as (km & Hk & Hki & Hkc).
  destruct (pmmr_build _ HR) as (rm & Hr & Hri & Hrc).
  unfold output_leaves, kernel_leaves, proof_leaves in Ho, Hk, Hr.
  apply push_all_cons in Ho as (om1 & Ho1 & Ho2), Hk as (km1 & Hk1 & Hk2), Hr as (rm1 & Hr1 & Hr2).
  unfold compute_unbound_block_pmmr_roots. cbn [push_output]. rewrite Ho1. cbn [rbind].
  rewrite Hr1. cbn [rbind push_kernel]. rewrite Hk1. cbn [rbind].
  rewrite (push_tx_fold _ _ _ _ _ _ _ Ho2 Hk2 Hr2). cbn [rbind].
  rewrite (root_correct _ _ Hoi Hoc HO). cbn [rbind].
  rewrite (root_correct _ _ Hki Hkc HK). cbn [rbind].
  by rewrite (root_correct _ _ Hri Hrc HR).
Qed.
End roots.

Section binding.
Context `{HB : Blake2b256} `{HC : Secp256k1}.

Lemma zlen_bind_le {A B} (f : A → list B) (l : list A) m :
  0 ≤ m → Forall (λ x, zlen (f x) ≤ m) l → zlen (l ≫= f) ≤ zlen l * m.
Proof.
  intros Hm. induction 1 as [|x l Hx _ IH]; [done|].
  rewrite bind_cons, zlen_app, zlen_cons, Z.mul_add_distr_r. lia.
Qed.

Lemma block_leaves_bound b :
  block_ok b →
  zlen (output_leaves (coinbase b) (transactions b)) ≤ 2 ^ 61 ∧
  zlen (kernel_leaves (coinbase b) (transactions b)) ≤ 2 ^ 61 ∧
  zlen (proof_leaves (coinbase b) (transactions b)) ≤ 2 ^ 61.
Proof.
  intros (_ & _ & (Hn & _ & Ht)).
  assert (Hb : ∀ {B} (f : Transaction → list B),
    (∀ tx, tx_ok tx → zlen (f tx) ≤ 255) → zlen (transactions b ≫= f) ≤ 5000 * 255).
  { intros B f Hf. etransitivity; [apply (zlen_bind_le f _ 255); [done|]|].
    - eapply Forall_impl; [exact Ht|]. exact Hf.
    - change MAX_BLOCK_TXS with 5000 in Hn. lia. }
  unfold output_leaves, kernel_leaves, proof_leaves, kernel_excesses. rewrite !zlen_cons.
  split_and!; (etransitivity; [apply Z.add_le_mono_l, Hb; intros tx (Hi & Ho & Hk & _)|lia]);
    rewrite ?zlen_fmap; [apply Ho| |apply Ho].
  destruct Hk as [Hk _]. change MAX_KERNELS_PER_TX with 16 in Hk. lia.
Qed.

(** The canonical encoding of a block's body *)
Definition body_wire (b : Block) : bytes := wire (coinbase b) ++ list_wire (transactions b).

Lemma canonical_body_eq b :
  block_ok b → canonical_block_body_bytes (coinbase b) (transactions b) = Ok (body_wire b).
Proof.
  intros (_ & Hc & Ht). unfold canonical_block_body_bytes.
  rewrite serialize_wire by done. cbn [rbind]. rewrite (write_list_ok _ _ _ Ht). cbn [rbind].
  by rewrite append_append.
Qed.

(** The strings hashed for the third root of a block past genesis *)
Definition body_query (b : Block) : bytes :=
  tag_prefix TAG_BLOCK_BODY_COMMITMENT ++ body_wire b.
Definition root_query (b : Block) : bytes :=
  tag_prefix TAG_BOUND_RANGEPROOF_ROOT
  ++ (hash_bytes (mmr_root (proof_leaves (coinbase b) (transactions b)))
      ++ blake2b (body_query b)).

Lemma block_roots_eq b :
  block_ok b →
  compute_block_pmmr_roots (height (header b)) (coinbase b) (transactions b)
  = Ok (mmr_root (output_leaves (coinbase b) (transactions b)),
        mmr_root (kernel_leaves (coinbase b) (transactions b)),
        if height_val (height (header b)) =? 0
        then mmr_root (proof_leaves (coinbase b) (transactions b))
        else {| hash_bytes := blake2b (root_query b) |}).
Proof.
  intros Hb. destruct (block_leaves_bound b Hb) as (HO & HK & HR).
  unfold compute_block_pmmr_roots. rewrite compute_unbound_eq by done. cbn [rbind].
  change (height_val GENESIS) with 0.
  destruct (height_val (height (header b)) =? 0); [done|].
  unfold compute_block_body_commitment. rewrite canonical_body_eq by done. done.
Qed.

Lemma validate_pmmr_roots_Ok b :
  block_ok b →
  validate_pmmr_roots b = Ok tt ↔
  output_root (header b) = mmr_root (output_leaves (coinbase b) (transactions b)) ∧
  kernel_root (header b) = mmr_root (kernel_leaves (coinbase b) (transactions b)) ∧
  rangeproof_root (header b) =
    if height_val (height (header b)) =? 0
    then mmr_root (proof_leaves (coinbase b) (transactions b))
    else {| hash_bytes := blake2b (root_query b) |}.
Proof.
  intros Hb. unfold validate_pmmr_roots. rewrite block_roots_eq by done. cbn [rbind].
  repeat case_bool_decide; cbn [negb]; split; intros; try done; destruct_and?; congruence || tauto.
Qed.

(** C9: Past genesis a header commits to its whole body: two blocks whose roots validate
    and whose third roots agree have the same coinbase and the same transactions,
    byte for byte, unless BLAKE2b collides on the strings hashed for them. *)
Theorem header_binds_body b1 b2 :
  block_ok b1 → block_ok b2 →
  height_val (height (header b1)) ≠ 0 → height_val (height (header b2)) ≠ 0 →
  zlen (body_wire b1) < 2 ^ 63 →
  validate_pmmr_roots b1 = Ok tt → validate_pmmr_roots b2 = Ok tt →
  rangeproof_root (header b1) = rangeproof_root (header b2) →
  (coinbase b1 = coinbase b2 ∧ transactions b1 = transactions b2) ∨
  (root_query b1 ≠ root_query b2 ∧ blake2b (root_query b1) = blake2b (root_query b2)) ∨
  (body_query b1 ≠ body_query b2 ∧ blake2b (body_query b1) = blake2b (body_query b2)).
Proof.
  intros H1 H2 Hh1 Hh2 Hl (_ & _ & R1)%validate_pmmr_roots_Ok (_ & _ & R2)%validate_pmmr_roots_Ok He;
    [|done..].
  rewrite (proj2 (Z.eqb_neq _ _) Hh1) in R1. rewrite (proj2 (Z.eqb_neq _ _) Hh2) in R2.
  rewrite R1, R2 in He. injection He as He.
  destruct (decide (root_query b1 = root_query b2)) as [Hq|]; [|right; left; done].
  apply app_inv_head, app_inj_2 in Hq as [_ Hq].
  2: { pose proof (blake2b_len (body_query b1)). pose proof (blake2b_len (body_query b2)).
       unfold zlen in *. lia. }
  destruct (decide (body_query b1 = body_query b2)) as [Hbq|]; [left|right; right; done].
  apply app_inv_head in Hbq. unfold body_wire in *.
  destruct H1 as (_ & Hc1 & Ht1), H2 as (_ & Hc2 & Ht2).
  apply wire_prefix_inj in Hbq as [-> Hbq]; [|done|done|by eapply list_wire_ok|done].
  split; [done|]. eapply list_wire_inj; [exact Ht1|exact Ht2| |exact Hbq].
  rewrite zlen_app in Hl. pose proof (zlen_nonneg (wire (coinbase b1))).
  pose proof (zlen_nonneg (wire (coinbase b2))). lia.
Qed.
End binding.

Section total.
Context `{HB : Blake2b256} `{HC : Secp256k1} `{HH : !HGenerator} `{HZ : !ZkpBackend}.

(** C10: Transaction validation accepts a decoded transaction exactly when it is
    structurally sound, its locked kernels are mature, every output has a verifying
    range proof, every kernel a verifying signature, and inputs, outputs, excesses, fee
    and offset balance; it never panics. *)
Theorem validate_transaction_exact tx ctx :
  tx_ok tx →
  validate_transaction tx ctx ≠ Panic ∧
  (validate_transaction tx ctx = Ok tt ↔ transaction_rules tx ctx).
Proof.
  intros Htx. split; [by apply validate_transaction_no_panic|by apply validate_transaction_Ok].
Qed.

(** C34: Validating a decoded block never panics, whatever its contents, the network, the
    height and the chain: every rejection is an error value. *)
Theorem validate_block_never_panics b ctx magic :
  block_ok b → validate_block_for_network b ctx magic ≠ Panic.
Proof.
  intros Hb. pose proof (block_ok_txs b Hb) as Ht.
  assert (Hh : 0 ≤ height_val (height (header b))) by apply Hb.
  unfold validate_block_for_network, validate_header_syntax, check_not_output, block_total_fees.
  rewrite block_reward_eq by done.
  no_panic.
  - apply validate_kernel_offset_canonical_no_panic.
  - by apply block_weight_no_panic.
  - apply total_fee_no_panic.
  - by apply validate_block_transactions_no_panic.
  - apply verify_block_balance_equation_no_panic.
  - unfold validate_pmmr_roots. rewrite block_roots_eq by done. cbn [rbind]. no_panic.
Qed.
End total.

(** ** Cut-through *)

Section cut_through.
Context `{HC : Secp256k1}.
Local Open Scope point_scope.

Lemma NoDup_filter_fmap {A B} (f : A → B) (P : A → Prop) `{!∀ x, Decision (P x)} (l : list A) :
  NoDup (f <$> l) → NoDup (f <$> filter P l).
Proof.
  induction l as [|x l IH]; [done|]. rewrite fmap_cons, NoDup_cons. intros [Hx Hl].
  rewrite filter_cons. destruct (decide (P x)); [|by apply IH].
  rewrite fmap_cons, NoDup_cons. split; [|by apply IH].
  intros Hin. apply Hx. apply list_elem_of_fmap in Hin as (y & -> & Hy).
  apply list_elem_of_filter in Hy as [_ Hy]. by apply list_elem_of_fmap_2.
Qed.

Lemma split_fmap {A B} (f : A → B) (P : B → Prop) `{!∀ x, Decision (P x)} (l : list A) :
  f <$> l ≡ₚ filter P (f <$> l) ++ (f <$> filter (λ x, ¬ P (f x)) l).
Proof.
  induction l as [|x l IH]; [done|]. rewrite fmap_cons, !filter_cons.
  destruct (decide (P (f x))), (decide (¬ P (f x))); try done.
  - by rewrite <- app_comm_cons, <- IH.
  - rewrite fmap_cons, <- Permutation_middle. by rewrite <- IH.
Qed.

Definition all_inputs (txs : list Transaction) : list Commitment :=
  in_commitment <$> (txs ≫= inputs).
Definition all_outputs (txs : list Transaction) : list Commitment :=
  out_commitment <$> (txs ≫= outputs).

Lemma sum_points_perm Ps Qs : Ps ≡ₚ Qs → sum_points Ps = sum_points Qs.
Proof.
  induction 1 as [|P Ps Qs _ IH|P Q Ps|Ps Qs Rs _ IH1 _ IH2]; cbn [sum_points foldr];
    fold sum_points; [done|by rewrite IH| |by rewrite IH1].
  module_solve.
Qed.

Lemma decodes_perm l l' Ps :
  l ≡ₚ l' → Forall2 decodes l Ps → ∃ Ps', Forall2 decodes l' Ps' ∧ Ps ≡ₚ Ps'.
Proof.
  intros Hp. revert Ps. induction Hp as [|c l l' _ IH|c d l|l l' l'' _ IH1 _ IH2]; intros Ps H.
  - inversion H. by exists [].
  - inversion H as [|? P ? Ps1 HP HPs]; subst. destruct (IH _ HPs) as (Qs & ? & ?).
    exists (P :: Qs). split; [by constructor|by constructor].
  - inversion H as [|? P ? Ps1 HP HPs]; subst. inversion HPs as [|? Q ? Ps2 HQ HPs2]; subst.
    exists (Q :: P :: Ps2). split; [by constructor; [|constructor]|by constructor].
  - destruct (IH1 _ H) as (Qs & HQ & ?). destruct (IH2 _ HQ) as (Rs & ? & ?).
    exists Rs. split; [done|by etrans].
Qed.

(** Removing the same commitments from both sides keeps the balance. *)
Lemma eliminated_balance elim ins outs ins' outs' Is Os :
  ins ≡ₚ elim ++ ins' → outs ≡ₚ elim ++ outs' →
  Forall2 decodes ins Is → Forall2 decodes outs Os →
  ∃ Is' Os', Forall2 decodes ins' Is' ∧ Forall2 decodes outs' Os' ∧
    sum_points Os' - sum_points Is' = sum_points Os - sum_points Is.
Proof.
  intros Hi Ho HI HO.
  destruct (decodes_perm _ _ _ Hi HI) as (Is1 & HI1 & PI).
  destruct (decodes_perm _ _ _ Ho HO) as (Os1 & HO1 & PO).
  apply Forall2_app_inv_l in HI1 as (E1 & Is' & HE1 & HI' & ->).
  apply Forall2_app_inv_l in HO1 as (E2 & Os' & HE2 & HO' & ->).
  pose proof (decodes_list_fun _ _ _ HE1 HE2) as <-.
  exists Is', Os'. split_and!; [done..|].
  rewrite (sum_points_perm _ _ PI), (sum_points_perm _ _ PO), !sum_points_app. module_solve.
Qed.

(** Cut-through succeeds exactly when no input and no output occurs twice.  Its
    result removes one and the same collection of commitments from both sides, keeps
    the rest, leaves no commitment that is both an input and an output, and does not
    change the sum of the outputs minus the sum of the inputs. *)
Theorem cut_through_exact txs :
  (NoDup (all_inputs txs) ∧ NoDup (all_outputs txs) ↔ ∃ r, apply_cut_through txs = Ok r) ∧
  ∀ ins outs, apply_cut_through txs = Ok (ins, outs) →
    (∃ eliminated, all_inputs txs ≡ₚ eliminated ++ (in_commitment <$> ins) ∧
                   all_outputs txs ≡ₚ eliminated ++ (out_commitment <$> outs)) ∧
    (∀ c, c ∈ in_commitment <$> ins → c ∉ out_commitment <$> outs) ∧
    (∀ Is Os, Forall2 decodes (all_inputs txs) Is → Forall2 decodes (all_outputs txs) Os →
      ∃ Is' Os', Forall2 decodes (in_commitment <$> ins) Is' ∧
        Forall2 decodes (out_commitment <$> outs) Os' ∧
        sum_points Os' - sum_points Is' = sum_points Os - sum_points Is).
Proof.
  unfold apply_cut_through. fold (all_inputs txs) (all_outputs txs).
  set (I := all_inputs txs). set (O := all_outputs txs). cbv zeta.
  set (elim := filter (.∈ O) I).
  set (outs' := filter (λ o, out_commitment o ∉ elim) (txs ≫= outputs)).
  set (ins' := filter (λ i, in_commitment i ∉ elim) (txs ≫= inputs)).
  assert (Hok : NoDup I → NoDup O → ∀ (e1 e2 : DomError),
    insert_distinct e1 [] (in_commitment <$> ins') = Ok (reverse (in_commitment <$> ins')) ∧
    insert_distinct e2 [] (out_commitment <$> outs') = Ok (reverse (out_commitment <$> outs'))).
  { intros HI HO e1 e2. split; apply insert_distinct_fresh; (split; [by apply NoDup_filter_fmap|done]). }
  split.
  - split.
    + intros [HI HO]. destruct (Hok HI HO (Invalid "duplicate input after cut-through")
        (Invalid "duplicate output after cut-through")) as [H1 H2].
      rewrite (proj2 (insert_distinct_fresh _ I _) (conj HI eq_refl)). cbn [rbind].
      rewrite (proj2 (insert_distinct_fresh _ O _) (conj HO eq_refl)). cbn [rbind].
      rewrite H1. cbn [rbind]. rewrite H2. eauto.
    + intros [r H]. res_inv. by apply insert_distinct_fresh in Hm as [? _], Hm0 as [? _].
  - intros ins outs H. res_inv.
    apply insert_distinct_fresh in Hm as [HI _], Hm0 as [HO _].
    assert (Helim : ∀ c, c ∈ elim ↔ c ∈ O ∧ c ∈ I) by (intros c; unfold elim; by rewrite list_elem_of_filter).
    assert (Hperm : ∀ L, NoDup L → (∀ c, c ∈ elim → c ∈ L) → filter (.∈ elim) L ≡ₚ elim).
    { intros L HL Hsub. apply NoDup_Permutation; [by apply NoDup_filter|by apply NoDup_filter|].
      intros c. rewrite list_elem_of_filter. naive_solver. }
    assert (H1 : I ≡ₚ elim ++ (in_commitment <$> ins')).
    { rewrite <- (Hperm I HI) at 1; [exact (split_fmap in_commitment (.∈ elim) (txs ≫= inputs))|].
      intros c Hc. by apply Helim. }
    assert (H2 : O ≡ₚ elim ++ (out_commitment <$> outs')).
    { rewrite <- (Hperm O HO) at 1; [exact (split_fmap out_commitment (.∈ elim) (txs ≫= outputs))|].
      intros c Hc. by apply Helim. }
    split_and!; [by exists elim| |intros Is Os; by apply (eliminated_balance elim)].
    + intros c (i & -> & [Hi Hin]%list_elem_of_filter)%list_elem_of_fmap
        (o & Ho & [_ Hout]%list_elem_of_filter)%list_elem_of_fmap.
      apply Hi, Helim. rewrite Ho at 1. split; by apply list_elem_of_fmap_2.
Qed.

End cut_through.
