(* ===== verification/BlockExamples.v ===== *)
(** * A concrete block

    One transaction spends 100000 into 60000 with a fee of 40000; the coinbase at
    height 5 claims the subsidy and the fee.  Proof envelopes carry a recovery capsule. *)

From Stdlib Require Import ZArith Lia.
From stdpp Require Import base list strings.
From S2P Require Import Prelude CoreError Core FeePolicy Serialization.
From S2P Require Import CryptoHash Pmmr Pow Curve Keys Pedersen Schnorr.
From S2P Require Import RangeProof Transaction TransactionLaws BlockHeader.
From S2P Require Import Consensus ConsensusLaws.

Definition cid : bytes := replicate 32 7.
Definition capsule : bytes := [1; 0] ++ replicate 12 0 ++ [80; 0] ++ replicate 80 0.
Definition sample_output (v r : Z) : TransactionOutput :=
  {| out_commitment := sample_commitment v r; proof := sample_proof v r ++ capsule |}.
Definition sign (k : Z) (message : bytes) : bytes :=
  match schnorr_sign (HB := sample_blake2b) (HM := sample_hmac) (HC := sample_curve)
          (sample_sk k) message cid with
  | Ok s => signature_to_bytes s
  | _ => []
  end.
Definition unsigned_kernel : TransactionKernel :=
  {| features := KERNEL_FEAT_PLAIN; fee := {| noms := 40000 |}; lock_height := 0;
     excess := sample_commitment 0 29; excess_signature := [] |}.
Definition sample_kernel : TransactionKernel := Eval vm_compute in
  {| features := KERNEL_FEAT_PLAIN; fee := {| noms := 40000 |}; lock_height := 0;
     excess := sample_commitment 0 29;
     excess_signature := sign 29 (hash_bytes (kernel_message (HB := sample_blake2b) unsigned_kernel)) |}.
(** output blinding 50 = input blinding 17 + excess 29 + offset 4 *)
Definition sample_tx : Transaction := Eval vm_compute in
  {| inputs := [{| in_commitment := sample_commitment 100000 17 |}];
     outputs := [sample_output 60000 50];
     kernels := [sample_kernel];
     offset := scalar_to_repr 4 |}.

Definition cb_value : Z := INITIAL_BLOCK_REWARD + 40000.
Definition unsigned_cb : CoinbaseKernel :=
  {| cb_features := KERNEL_FEAT_COINBASE; explicit_value := cb_value;
     cb_excess := sample_commitment 0 9; cb_excess_signature := [] |}.
Definition sample_coinbase : CoinbaseTransaction := Eval vm_compute in
  {| output := sample_output cb_value 9;
     kernel := {| cb_features := KERNEL_FEAT_COINBASE; explicit_value := cb_value;
                  cb_excess := sample_commitment 0 9;
                  cb_excess_signature :=
                    sign 9 (hash_bytes (coinbase_message (HB := sample_blake2b) unsigned_cb)) |};
     cb_offset := replicate 32 0 |}.

Definition sample_roots : Hash256 * Hash256 * Hash256 :=
  match compute_block_pmmr_roots (HB := sample_blake2b) {| height_val := 5 |} sample_coinbase
          [sample_tx] with
  | Ok r => r
  | _ => (Hash256_ZERO, Hash256_ZERO, Hash256_ZERO)
  end.
Definition sample_block : Block := Eval vm_compute in
  {| header :=
       {| version := 2; height := {| height_val := 5 |}; prev_hash := sample_hash 1;
          timestamp := {| time_val := 1784072029 |}; output_root := sample_roots.1.1;
          kernel_root := sample_roots.1.2; rangeproof_root := sample_roots.2;
          total_kernel_offset := scalar_to_repr 4; target := {| compact_bits := 0x1e00ffff |};
          total_difficulty := 123456;
          pow := {| nonce := 99; randomx_proof := sample_hash 6 |} |};
     coinbase := sample_coinbase;
     transactions := [sample_tx] |}.
Definition sample_ctx : ValidationContext :=
  {| current_height := {| height_val := 5 |}; chain_id := cid;
     now := {| time_val := 1784072030 |} |}.

Lemma sample_block_valid :
  validate_block_for_network (HB := sample_blake2b) (HC := sample_curve)
    (HZ := sample_zkp_backend) sample_block sample_ctx NETWORK_MAGIC_MAINNET = Ok tt.
Proof. vm_compute. reflexivity. Qed.

(** The encoding of the block, and the block read back from it *)
Definition sample_wire : bytes := Eval vm_compute in
  match to_bytes sample_block with Ok w => w | _ => [] end.

Lemma sample_wire_ok : bytes_ok sample_wire ∧ zlen sample_wire < 2 ^ 63.
Proof. split; [refine (bool_decide_unpack _ _); vm_compute; exact I|vm_compute; reflexivity]. Qed.

Lemma sample_block_ok : block_ok (HC := sample_curve) sample_block.
Proof.
  destruct sample_wire_ok as [Hb Hl].
  refine (proj1 (proj1 (proj2 (codec_exact (T := Block) (HD := Block_deserialize (HC := sample_curve))
    sample_wire sample_block Hb Hl)) _)).
  vm_compute. reflexivity.
Qed.

(** ** The block theorems at this block *)

#[local] Existing Instances sample_blake2b sample_curve sample_h sample_zkp_backend.

Lemma sample_tx_ok : tx_ok sample_tx.
Proof. exact (Forall_inv (block_ok_txs _ sample_block_ok)). Qed.

Lemma block_codec_exact_witness :
  from_bytes Block sample_wire = Ok sample_block ↔
  wf sample_block ∧ to_bytes sample_block = Ok sample_wire.
Proof.
  destruct sample_wire_ok as [Hb Hl].
  apply (block_codec_exact sample_wire sample_block sample_tx Hb Hl).
Defined.

Lemma block_no_inflation_witness :
  cb_value = reward_at 5 + block_fees sample_block.
Proof.
  apply (block_no_inflation sample_block sample_ctx NETWORK_MAGIC_MAINNET
    sample_block_ok sample_block_valid).
Defined.

Lemma block_no_double_spend_witness : NoDup (block_outputs sample_block).
Proof.
  apply (block_no_double_spend sample_block sample_ctx NETWORK_MAGIC_MAINNET
    sample_block_ok sample_block_valid).
Defined.

Lemma validate_transaction_exact_witness : transaction_rules sample_tx sample_ctx.
Proof.
  apply (validate_transaction_exact sample_tx sample_ctx sample_tx_ok).
  vm_compute. reflexivity.
Defined.

Lemma validate_block_never_panics_witness :
  validate_block_for_network sample_block sample_ctx 0 ≠ Panic.
Proof. apply (validate_block_never_panics sample_block sample_ctx 0 sample_block_ok). Defined.

(** The same body under another nonce *)
Definition remined_block : Block := Eval vm_compute in
  let h := header sample_block in
  {| header :=
       {| version := version h; height := height h; prev_hash := prev_hash h;
          timestamp := timestamp h; output_root := output_root h;
          kernel_root := kernel_root h; rangeproof_root := rangeproof_root h;
          total_kernel_offset := total_kernel_offset h; target := target h;
          total_difficulty := total_difficulty h;
          pow := {| nonce := 100; randomx_proof := sample_hash 6 |} |};
     coinbase := coinbase sample_block;
     transactions := transactions sample_block |}.

Lemma remined_block_ok : block_ok remined_block.
Proof.
  destruct sample_block_ok as ([H1 H2 H3 H4 H5 H6 H7 H8 H9 H10 H11] & Hc & Ht).
  split; [|exact (conj Hc Ht)].
  constructor; [exact H1|exact H2|exact H3|exact H4|exact H5|exact H6|exact H7|exact H8|
    exact H9|exact H10|split; [done|by apply sample_hash_ok]].
Qed.

Lemma header_binds_body_witness :
  (coinbase sample_block = coinbase remined_block ∧
   transactions sample_block = transactions remined_block) ∨
  (root_query sample_block ≠ root_query remined_block ∧
   blake2b (root_query sample_block) = blake2b (root_query remined_block)) ∨
  (body_query sample_block ≠ body_query remined_block ∧
   blake2b (body_query sample_block) = blake2b (body_query remined_block)).
Proof.
  apply (header_binds_body sample_block remined_block);
    [exact sample_block_ok|exact remined_block_ok|done|done|vm_compute; reflexivity..].
Defined.

Lemma transaction_structure_exact_witness : structure_ok sample_tx.
Proof.
  apply (transaction_structure_exact sample_tx (tx_ok_fees _ sample_tx_ok)).
  vm_compute. reflexivity.
Defined.
