(* ===== verification/Spend.v ===== *)
(** * Building spends

    [dom-tx/src/lib.rs]: Wallet V3 outputs with a recovery capsule, and the builder of standard
    spend transactions.  Randomness (the blinding of a new output, the nonces of a capsule and of
    the range proofs, the kernel offset) is an argument of the operation that draws it. *)

From Stdlib Require Import ZArith Lia.
From stdpp Require Import base list strings.
From S2P Require Import Prelude CoreError Core Serialization CryptoHash Curve Keys Pedersen Schnorr.
From S2P Require Import RangeProof RangeProve Recovery Transaction Consensus.
Local Open Scope string_scope.
Local Open Scope list_scope.
Local Open Scope Z_scope.

Inductive TxError : Type :=
| TxInvalidInput (msg : string)
| TxInvalidOutput (msg : string)
| TxInvalidFee (msg : string)
| TxInvalidTransaction (msg : string)
| TxCrypto (msg : string)
| TxSerialization (msg : string).

Definition tx_error_from (e : DomError) : TxError :=
  match e with
  | Malformed msg => TxSerialization msg
  | Invalid msg => TxInvalidTransaction msg
  | TemporarilyInvalid msg => TxInvalidTransaction msg
  | Orphan msg => TxInvalidTransaction msg
  | PolicyRejected msg => TxInvalidTransaction msg
  | Misbehavior _ msg => TxInvalidTransaction msg
  | Internal msg => TxCrypto msg
  end.

(** [?] on a [DomError] inside a function returning [TxError] *)
Definition tx_lift {A} (m : Result A) : result TxError A := map_err_to tx_error_from m.

(** [trait InputSource] *)
Record InputSource : Type := {
  src_commitment : bytes;
  src_value : Z;
  src_blinding : bytes;
  src_block_height : Z;
  src_is_coinbase : bool;
}.
Record BuilderInput : Type := { bi_commitment : Commitment; bi_value : Z; bi_blinding : BlindingFactor }.
Record BuilderOutput : Type := {
  bo_value : Z;
  bo_blinding : BlindingFactor;
  bo_canonical : option TransactionOutput;
}.
Record RecoverableOutputMaterial : Type := {
  rm_value : Z;
  rm_blinding : BlindingFactor;
  rm_output : TransactionOutput;
}.

Record SpendBuilder : Type := {
  sb_chain_id : bytes;
  sb_inputs : list BuilderInput;
  sb_outputs : list BuilderOutput;
  sb_fee : Z;
  sb_lock_height : Z;
}.
Definition sb_with_inputs (b : SpendBuilder) (l : list BuilderInput) : SpendBuilder :=
  {| sb_chain_id := sb_chain_id b; sb_inputs := l; sb_outputs := sb_outputs b; sb_fee := sb_fee b;
     sb_lock_height := sb_lock_height b |}.
Definition builder_push_output (b : SpendBuilder) (o : BuilderOutput) : SpendBuilder :=
  {| sb_chain_id := sb_chain_id b; sb_inputs := sb_inputs b; sb_outputs := sb_outputs b ++ [o];
     sb_fee := sb_fee b; sb_lock_height := sb_lock_height b |}.

Definition builder_new (chain_id : bytes) : SpendBuilder :=
  {| sb_chain_id := chain_id; sb_inputs := []; sb_outputs := []; sb_fee := 0; sb_lock_height := 0 |}.
Definition builder_fee (b : SpendBuilder) (fee : Z) : SpendBuilder :=
  {| sb_chain_id := sb_chain_id b; sb_inputs := sb_inputs b; sb_outputs := sb_outputs b; sb_fee := fee;
     sb_lock_height := sb_lock_height b |}.
Definition builder_lock_height (b : SpendBuilder) (lock_height : Z) : SpendBuilder :=
  {| sb_chain_id := sb_chain_id b; sb_inputs := sb_inputs b; sb_outputs := sb_outputs b; sb_fee := sb_fee b;
     sb_lock_height := lock_height |}.

Definition add_output (b : SpendBuilder) (amount : Z) (blinding : BlindingFactor)
  : SpendBuilder * result TxError unit :=
  if amount =? 0 then (b, Err (TxInvalidOutput "zero-value outputs are not allowed"))
  else
    match map_err_to (λ e, TxInvalidOutput ("invalid output amount: " +:+ display_error e)) (from_noms amount) with
    | Ok _ => (builder_push_output b {| bo_value := amount; bo_blinding := blinding; bo_canonical := None |}, Ok tt)
    | Err e => (b, Err e)
    | Panic => (b, Panic)
    end.

Definition add_recoverable_output (b : SpendBuilder) (material : RecoverableOutputMaterial)
  : SpendBuilder * result TxError unit :=
  if rm_value material =? 0 then (b, Err (TxInvalidOutput "zero-value outputs are not allowed"))
  else (builder_push_output b {| bo_value := rm_value material; bo_blinding := rm_blinding material;
                         bo_canonical := Some (rm_output material) |}, Ok tt).

Definition kernel_features_for_lock_height (lock_height : Z) : Z :=
  if lock_height =? 0 then KERNEL_FEAT_PLAIN else KERNEL_FEAT_HEIGHT_LOCKED.

Definition checked_sum (values : list Z) : result string Z :=
  try_fold (λ acc v, ok_or (checked_add 64 acc v) "u64 overflow") 0 values.

Definition validate_builder_state (b : SpendBuilder) : result TxError unit :=
  if zlen (sb_inputs b) =? 0 then Err (TxInvalidInput "transaction must contain at least one input")
  else if zlen (sb_outputs b) =? 0 then Err (TxInvalidOutput "transaction must contain at least one output")
  else
    let? _ := map_err_to (λ e, TxInvalidFee ("invalid fee amount: " +:+ display_error e)) (from_noms (sb_fee b)) in
    Ok tt.

Section spend.
Context `{HB : Blake2b256} `{HM : HmacSha256} `{HC : Secp256k1} `{HZ : !ZkpBackend} `{HP : ZkpProver}.
Context `{HR : RecoveryCrypto}.

(** [blinding] is [BlindingFactor::random()], [nonce] the capsule's, the last two the proof's. *)
Definition build_recoverable_output (root : RecoveryRoot) (chain : RecoveryChainContext)
    (value account derivation_index : Z) (domain : OutputRecoveryDomain)
    (blinding : BlindingFactor) (nonce rewind private : bytes) : result TxError RecoverableOutputMaterial :=
  if MAX_PROVABLE_VALUE <? value then
    Err (TxInvalidOutput ("output value " +:+ dec value +:+ " exceeds MAX_PROVABLE_VALUE "
                          +:+ dec MAX_PROVABLE_VALUE))
  else
    let? commitment := tx_lift (commit value blinding) in
    let? capsule := map_err_to (λ e, TxCrypto ("recovery capsule creation failed: " +:+ display_error e))
      (create_recovery_capsule_with_nonce root chain (commit_bytes commitment)
         RANGE_PROOF_SERIALIZATION_VERSION value account derivation_index domain blinding nonce) in
    let? (proof, proof_commitment) :=
      map_err_to (λ e, TxCrypto ("range proof generation failed: " +:+ display_error e))
        (range_proof_prove_bytes_with_extra_commit value blinding (capsule_bytes capsule) rewind private) in
    if negb (bool_decide (proof_commitment = commit_bytes commitment)) then
      Err (TxCrypto "range proof constructor commitment mismatch")
    else
      let? output := tx_lift (with_recovery_capsule commitment proof capsule) in
      Ok {| rm_value := value; rm_blinding := blinding; rm_output := output |}.

(** Inputs already pushed stay in the builder when a later one is refused. *)
Fixpoint push_inputs (b : SpendBuilder) (inputs : list InputSource) : SpendBuilder * result TxError unit :=
  match inputs with
  | [] => (b, Ok tt)
  | input :: rest =>
      match
        (let? commitment := map_err_to (λ e, TxInvalidInput ("invalid input commitment: " +:+ display_error e))
                              (from_compressed_bytes (src_commitment input)) in
         let? blinding := map_err_to (λ e, TxInvalidInput ("invalid input blinding: " +:+ display_error e))
                            (bf_from_bytes (src_blinding input)) in
         Ok {| bi_commitment := commitment; bi_value := src_value input; bi_blinding := blinding |})
      with
      | Ok i => push_inputs (sb_with_inputs b (sb_inputs b ++ [i])) rest
      | Err e => (b, Err e)
      | Panic => (b, Panic)
      end
  end.
Definition add_inputs (b : SpendBuilder) (inputs : list InputSource) : SpendBuilder * result TxError unit :=
  match inputs with
  | [] => (b, Err (TxInvalidInput "transaction must contain at least one input"))
  | _ => push_inputs b inputs
  end.

(** One transaction output; [nonces] are the rewind and private nonce of its proof. *)
Definition make_output (output : BuilderOutput) (nonces : bytes * bytes) : result TxError TransactionOutput :=
  match bo_canonical output with
  | Some canonical => Ok canonical
  | None =>
      let? commitment := tx_lift (commit (bo_value output) (bo_blinding output)) in
      let? (proof, _) :=
        map_err_to (λ e, TxCrypto ("range proof generation failed: " +:+ display_error e))
          (range_proof_prove_bytes (bo_value output) (bo_blinding output) nonces.1 nonces.2) in
      Ok {| out_commitment := commitment; proof := proof |}
  end.

Definition sub_nonzero (sub_msg : string) (acc b : BlindingFactor) : result TxError BlindingFactor :=
  let? d := map_err_to (λ e, TxCrypto (sub_msg +:+ display_error e)) (bf_sub acc b) in
  map_err_to (λ e, TxCrypto ("kernel excess became zero: " +:+ display_error e)) (require_nonzero d).

Definition compute_kernel_excess_blinding (b : SpendBuilder) (offset : bytes) : result TxError BlindingFactor :=
  match sb_outputs b with
  | [] => Panic
  | first :: rest =>
      let? acc := try_fold (λ acc o,
        map_err_to (λ e, TxCrypto ("output blinding sum failed: " +:+ display_error e))
          (bf_add acc (bo_blinding o))) (bo_blinding first) rest in
      let? acc := try_fold (λ acc i, sub_nonzero "input blinding subtraction failed: " acc (bi_blinding i))
                    acc (sb_inputs b) in
      if negb (bool_decide (offset = replicate 32 0)) then
        let? offset_bf := map_err_to (λ e, TxCrypto ("invalid offset scalar: " +:+ display_error e))
                            (bf_from_bytes offset) in
        sub_nonzero "offset subtraction failed: " acc offset_bf
      else Ok acc
  end.

Definition spend_kernel_message (features fee lock_height : Z) : result TxError Hash256 :=
  let? _ := map_err_to (λ e, TxInvalidFee ("invalid fee: " +:+ display_error e)) (from_noms fee) in
  Ok (blake2b_256_tagged TAG_KERNEL_MSG ([features] ++ le_bytes 8 fee ++ le_bytes 8 lock_height)).

(** [nonces i] are drawn for the range proof of output [i], [offset_bf] is [BlindingFactor::random()]. *)
Definition build (b : SpendBuilder) (nonces : nat → bytes * bytes) (offset_bf : BlindingFactor)
  : result TxError Transaction :=
  let? _ := validate_builder_state b in
  let? input_sum := map_err_to (λ e, TxInvalidInput ("input value overflow: " +:+ e))
                      (checked_sum (bi_value <$> sb_inputs b)) in
  let? output_sum := map_err_to (λ e, TxInvalidOutput ("output value overflow: " +:+ e))
                       (checked_sum (bo_value <$> sb_outputs b)) in
  let? required := ok_or (checked_add 64 output_sum (sb_fee b)) (TxInvalidFee "output sum + fee overflow") in
  if negb (input_sum =? required) then
    Err (TxInvalidTransaction ("unbalanced values: inputs=" +:+ dec input_sum +:+ " outputs=" +:+ dec output_sum
         +:+ " fee=" +:+ dec (sb_fee b) +:+ " expected inputs=outputs+fee=" +:+ dec required))
  else
    let tx_inputs := (λ i, {| in_commitment := bi_commitment i |}) <$> sb_inputs b in
    let? tx_outputs := try_map (λ on, make_output on.1 on.2) (imap (λ i o, (o, nonces i)) (sb_outputs b)) in
    let offset := bf_bytes offset_bf in
    let? excess_blinding := compute_kernel_excess_blinding b offset in
    let? excess := tx_lift (commit 0 excess_blinding) in
    let features := kernel_features_for_lock_height (sb_lock_height b) in
    let? message := spend_kernel_message features (sb_fee b) (sb_lock_height b) in
    let? signing_key := map_err_to (λ e, TxCrypto ("invalid kernel signing key: " +:+ display_error e))
                          (secret_key_from_bytes (bf_bytes excess_blinding)) in
    let? sig := map_err_to (λ e, TxCrypto ("kernel Schnorr signature failed: " +:+ display_error e))
                  (schnorr_sign signing_key (hash_bytes message) (sb_chain_id b)) in
    let? fee := map_err_to (λ e, TxInvalidFee ("invalid fee amount: " +:+ display_error e)) (from_noms (sb_fee b)) in
    let kernel := {| features := features; fee := fee; lock_height := sb_lock_height b; excess := excess;
                     excess_signature := signature_to_bytes sig |} in
    let tx := {| inputs := tx_inputs; outputs := tx_outputs; kernels := [kernel]; offset := offset |} in
    let? _ := tx_lift (validate_transaction_structure tx) in
    let? _ := tx_lift (validate_balance_equation tx) in
    Ok tx.
End spend.
