(* ===== verification/SpendLaws.v ===== *)
(** * Laws of spend building

    [Spend.v]: a spend assembled from outputs the wallet owns is produced, and consensus accepts
    it.  The first part, on assembling a transaction around one kernel, also serves the slates. *)

From Stdlib Require Import ZArith Lia.
From stdpp Require Import base list strings.
From S2P Require Import Prelude CoreError Core FeePolicy Serialization CryptoHash Curve Keys Pedersen Schnorr.
From S2P Require Import RangeProof RangeProve Recovery RecoveryLaws Transaction TransactionLaws.
From S2P Require Import BlockHeader Consensus ConsensusLaws Spend.

Section assemble.
Context `{HB : Blake2b256} `{HM : HmacSha256} `{HC : Secp256k1} `{HH : !HGenerator} `{HZ : !ZkpBackend}.
Local Open Scope point_scope.

(** ** A transaction around one kernel *)

Lemma point_commitment_ok P : P ≠ pt_zero → commitment_ok {| commit_bytes := sec1_encode P |}.
Proof.
  intros HP0. split_and!; [by apply sec1_encode_len|apply sec1_encode_bytes|]. exists P. by apply decodes_encode.
Qed.

Lemma commit_spec v b c :
  bf_ok b → commit v b = Ok c → commitment_ok c ∧ opens c (v, be_val (bf_bytes b)).
Proof.
  intros Hb [HP ->]%commit_Ok; [|done]. split; [by apply point_commitment_ok|by apply decodes_encode].
Qed.

Lemma commit_zero_total b : bf_ok b → ∃ c, commit 0 b = Ok c.
Proof.
  intros Hb. eexists. apply commit_Ok; [done|]. split; [|done].
  rewrite pt_mul_0, pt_add_0_l. apply gen_G_order. apply Hb.
Qed.

Lemma assembled_rules tx k vos vis x ctx :
  kernels tx = [k] → tx_ok tx → structure_ok tx →
  (features k = KERNEL_FEAT_HEIGHT_LOCKED → (lock_height k ≤ height_val (current_height ctx))%Z) →
  Forall range_proved (outputs tx) →
  signed (excess_signature k) (chain_id ctx) (hash_bytes (kernel_message k)) (excess k) →
  Forall2 opens (output_commits tx) vos → Forall2 opens (input_commits tx) vis → opens (excess k) (0, x)%Z →
  offset_ok (offset tx) → (zsum vos.*1 + noms (fee k) = zsum vis.*1)%Z →
  ((x + be_val (offset tx) + zsum vis.*2 - zsum vos.*2) mod order = 0)%Z →
  transaction_rules tx ctx.
Proof.
  intros Hk Htx Hst Hlock Hrange Hsig Ho Hi Hx Hoff Hval Hblind.
  pose proof (tx_ok_fees tx Htx) as Hfees. rewrite Hk in Hfees. apply Forall_cons in Hfees as [[Hfee _] _].
  assert (Hsum : fee_sum (kernels tx) = noms (fee k)) by (rewrite Hk; unfold fee_sum; cbn; lia).
  split; [done|by rewrite Hk; constructor|done|by rewrite Hk; constructor|].
  assert (Hex : Forall2 opens (kernel_excesses tx) (as_excess <$> [x])).
  { unfold kernel_excesses. rewrite Hk. constructor; [exact Hx|constructor]. }
  destruct (balance_equation_openings _ _ _ _ (noms (fee k)) _ _ _ Ho Hi Hex Hoff Hfee) as (b & Hb & _ & Hv).
  unfold balanced. cbn [tx_balance b_outputs b_inputs b_excesses b_offset b_fee]. rewrite Hsum.
  destruct Hoff as (Hl & Hok & Hlt). split_and!; try done. rewrite Hb. f_equal. rewrite Hv by lia.
  apply Z.eqb_eq. rewrite <- Hblind. f_equal. cbn [zsum foldr]. lia.
Qed.

(** ** Signing with one key *)

Lemma schnorr_sign_shape sk message cid sig :
  sk_ok sk → schnorr_sign sk message cid = Ok sig →
  ∃ R, R ≠ pt_zero ∧ r_compressed sig = sec1_encode R ∧ offset_ok (sig_s sig).
Proof.
  intros Hsk. unfold schnorr_sign. rewrite public_key_Ok by done. cbn [rbind]. intros H. res_inv.
  unfold projective_to_compressed in Hm1. apply encode33_Ok in Hm1 as [HR ->].
  apply rfc6979_nonce_ok in Hm as (_ & _ & Hkb). destruct Hsk as (_ & Hb & _).
  apply scalar_add_mul_Ok in Hm2 as (Hoff & _ & _); [|done..|apply blake2b_bytes]. by eexists.
Qed.

Lemma is_scalar_valid_nonzero s : offset_ok s → be_val s ≠ 0%Z → is_scalar_valid s = true.
Proof.
  intros (Hl & Hb & Hlt) Hne. apply is_scalar_valid_val; [done..|]. pose proof (be_val_bound s Hb). lia.
Qed.

Lemma signature_roundtrip R s :
  R ≠ pt_zero → offset_ok s → be_val s ≠ 0%Z →
  signature_from_bytes (sec1_encode R ++ s) = Ok {| r_compressed := sec1_encode R; sig_s := s |}.
Proof.
  intros HR Hs Hne. pose proof Hs as (Hl & Hb & _). unfold signature_from_bytes, signature_length_is_canonical.
  rewrite zlen_app, sec1_encode_len, Hl by done. cbn [negb Z.eqb Z.add Pos.add Pos.eqb].
  assert (H33 : length (sec1_encode R) = 33%nat) by (pose proof (sec1_encode_len R HR); unfold zlen in *; lia).
  rewrite take_app_length', drop_app_length' by done.
  change (sec1_encode R) with (to_compressed_bytes {| pk_point := R |}). rewrite pk_roundtrip by done.
  cbn [rbind]. by rewrite is_scalar_valid_nonzero.
Qed.

Lemma kernel_signed x c sk message cid sig :
  bf_ok x → commit 0 x = Ok c → secret_key_from_bytes (bf_bytes x) = Ok sk →
  schnorr_sign sk message cid = Ok sig → be_val (sig_s sig) ≠ 0%Z →
  signed (signature_to_bytes sig) cid message c.
Proof.
  intros Hx Hc Hsk Hsig Hne. apply commit_Ok in Hc as [_ ->]; [|done].
  apply secret_key_from_bytes_Ok in Hsk as [Heq Hsk]; [|apply Hx].
  destruct (schnorr_sign_shape _ _ _ _ Hsk Hsig) as (R & HR & Hr & Hs).
  pose proof (public_key_Ok sk Hsk) as Hpk. exists sig, {| pk_point := be_val (sk_bytes sk) * gen_G |}. split_and!.
  - unfold signature_to_bytes. rewrite Hr, signature_roundtrip by done. rewrite <- Hr. by destruct sig.
  - cbn [commit_bytes]. rewrite pt_mul_0, pt_add_0_l, <- Heq.
    apply (pk_roundtrip {| pk_point := be_val (sk_bytes sk) * gen_G |}). by eapply public_key_ok.
  - by apply (schnorr_sign_verifies sk).
Qed.

Lemma signed_bytes s cid message c : signed s cid message c → bytes_ok s → sig_bytes_ok s.
Proof.
  intros (sig & pk & Hs & _ & _) Hb. split; [|done]. unfold signature_from_bytes, signature_length_is_canonical in Hs.
  by destruct (Z.eqb_spec (zlen s) 65).
Qed.
End assemble.

(** ** Blindings *)

Section spend.
Context `{HB : Blake2b256} `{HM : HmacSha256} `{HC : Secp256k1} `{HH : !HGenerator} `{HZ : !ZkpBackend}.
Context `{HP : ZkpProver} `{HR : RecoveryCrypto}.
Local Open Scope point_scope.

Abbreviation bval b := (be_val (bf_bytes b)).

Lemma bf_sub_Ok a b d :
  bf_ok a → bf_ok b → bf_sub a b = Ok (NonZero d) → bf_ok d ∧ bval d = ((bval a - bval b) mod order)%Z.
Proof.
  intros Ha%bf_offset_ok Hb%bf_offset_ok. unfold bf_sub, scalar_sub. rewrite !scalar_from_bytes_Ok by done.
  cbn [rbind ok_or]. destruct (Z.eqb_spec ((bval a - bval b) mod order) 0); [done|]. intros [= <-].
  pose proof (mod_order_range (bval a - bval b)) as Hr.
  destruct (scalar_repr_ok _ Hr) as [(? & ? & ?) He]. unfold bf_ok. cbn [bf_bytes]. rewrite He. split_and!; lia || done.
Qed.

Lemma sub_nonzero_Ok msg a b c :
  bf_ok a → bf_ok b → sub_nonzero msg a b = Ok c → bf_ok c ∧ bval c = ((bval a - bval b) mod order)%Z.
Proof.
  intros Ha Hb. unfold sub_nonzero. intros H. res_inv. destruct a0 as [d|]; [|done]. cbn in H. injection H as ->.
  by apply bf_sub_Ok.
Qed.

Lemma add_fold_Ok (l : list BuilderOutput) acc x :
  bf_ok acc → Forall (λ o, bf_ok (bo_blinding o)) l →
  try_fold (λ acc o, map_err_to (λ e, TxCrypto ("output blinding sum failed: " +:+ display_error e)%string)
    (bf_add acc (bo_blinding o))) acc l = Ok x →
  bf_ok x ∧ (bval x mod order = (bval acc + zsum ((λ o, bval (bo_blinding o)) <$> l)) mod order)%Z.
Proof.
  intros Hacc Hl. revert acc Hacc. induction Hl as [|o l Ho Hl IH]; intros acc Hacc H; cbn [try_fold] in H.
  - injection H as <-. split; [done|]. f_equal. cbn. lia.
  - res_inv. apply bf_add_Ok in Hm as [Hok Hv]; [|done..]. apply IH in H as [Hx Hs]; [|done]. split; [done|].
    rewrite Hs, Hv, Zplus_mod_idemp_l. f_equal. cbn. lia.
Qed.

Lemma sub_fold_Ok msg (l : list BuilderInput) acc x :
  bf_ok acc → Forall (λ i, bf_ok (bi_blinding i)) l →
  try_fold (λ acc i, sub_nonzero msg acc (bi_blinding i)) acc l = Ok x →
  bf_ok x ∧ (bval x mod order = (bval acc - zsum ((λ i, bval (bi_blinding i)) <$> l)) mod order)%Z.
Proof.
  intros Hacc Hl. revert acc Hacc. induction Hl as [|o l Ho Hl IH]; intros acc Hacc H; cbn [try_fold] in H.
  - injection H as <-. split; [done|]. f_equal. cbn. lia.
  - res_inv. apply sub_nonzero_Ok in Hm as [Hok Hv]; [|done..]. apply IH in H as [Hx Hs]; [|done]. split; [done|].
    rewrite Hs, Hv, Zminus_mod_idemp_l. f_equal. cbn. lia.
Qed.

Lemma mod_order_ex a b : (a mod order = b mod order)%Z ↔ ∃ k, (a - b = k * order)%Z.
Proof. apply Z.cong_iff_ex. Qed.

Lemma bf_not_zeros b : bf_ok b → bool_decide (bf_bytes b = replicate 32 0%Z) = false.
Proof. intros (_ & _ & Hv). apply bool_decide_eq_false. intros He. rewrite He, be_val_zeros32 in Hv. lia. Qed.

Lemma excess_blinding_Ok b off x :
  Forall (λ o, bf_ok (bo_blinding o)) (sb_outputs b) → Forall (λ i, bf_ok (bi_blinding i)) (sb_inputs b) → bf_ok off →
  compute_kernel_excess_blinding b (bf_bytes off) = Ok x →
  bf_ok x ∧ ((bval x + bval off + zsum ((λ i, bval (bi_blinding i)) <$> sb_inputs b)
              - zsum ((λ o, bval (bo_blinding o)) <$> sb_outputs b)) mod order = 0)%Z.
Proof.
  intros Ho Hi Hoff. unfold compute_kernel_excess_blinding. destruct (sb_outputs b) as [|o os]; [done|].
  apply Forall_cons in Ho as [Ho Hos]. rewrite bf_not_zeros by done. cbn [negb]. intros H. res_inv.
  apply bf_from_bytes_exact in Hm1 as [-> Hok]; [|apply Hoff..].
  apply add_fold_Ok in Hm as [Ha1 (k1 & Hv1)%mod_order_ex]; [|done..].
  apply sub_fold_Ok in Hm0 as [Ha2 (k2 & Hv2)%mod_order_ex]; [|done..].
  apply sub_nonzero_Ok in H as [Hx Hv]; [|done..]. split; [done|]. cbn [bf_bytes] in Hv.
  assert (Hv' : (bval x mod order = (bval a0 - bval off) mod order)%Z) by (rewrite Hv, Z.mod_mod; [done|pose proof order_range; lia]).
  apply mod_order_ex in Hv' as (k3 & Hv3). cbn [fmap list_fmap zsum foldr]. fold zsum.
  rewrite <- (Z.mod_0_l order) by (pose proof order_range; lia). apply mod_order_ex. exists (k1 + k2 + k3)%Z. lia.
Qed.

(** ** Values *)

Lemma checked_sum_total l acc :
  Forall (λ v, 0 ≤ v)%Z l → (acc + zsum l < 2 ^ 64)%Z →
  try_fold (λ acc v, ok_or (checked_add 64 acc v) "u64 overflow"%string) acc l = Ok (acc + zsum l)%Z.
Proof.
  intros Hl. revert acc. induction Hl as [|v l Hv Hl IH]; intros acc Hs; cbn [try_fold zsum foldr] in *; [f_equal; lia|].
  fold zsum in *. assert (0 ≤ zsum l)%Z by (clear -Hl; induction Hl; cbn; lia).
  rewrite checked_add_ok by lia. cbn [ok_or rbind]. rewrite IH by lia. f_equal. lia.
Qed.

(** ** Outputs *)

(** An output the wallet can create: its value and blinding are provable, and a prepared output
    commits to them and carries a valid proof. *)
Definition output_fits (o : BuilderOutput) : Prop :=
  (0 ≤ bo_value o < 2 ^ 64)%Z ∧ bf_ok (bo_blinding o) ∧
  match bo_canonical o with
  | None => provable (bo_value o) (bo_blinding o)
  | Some t => wf t ∧ opens (out_commitment t) (bo_value o, bval (bo_blinding o)) ∧ range_proved t ∧
              (1 ≤ zlen (proof t))%Z
  end.
Definition planned_commitment (o : BuilderOutput) : Commitment :=
  match bo_canonical o with
  | None => {| commit_bytes := sec1_encode (bo_value o * gen_H + bval (bo_blinding o) * gen_G) |}
  | Some t => out_commitment t
  end.
Definition makes (o : BuilderOutput) (t : TransactionOutput) : Prop :=
  wf t ∧ opens (out_commitment t) (bo_value o, bval (bo_blinding o)) ∧ range_proved t ∧
  (1 ≤ zlen (proof t))%Z ∧ out_commitment t = planned_commitment o.

Hypothesis Hlib : working_library.

Lemma plain_proof_ok c p : zlen p = RANGE_PROOF_SIZE →
  range_proof_verify (commit_bytes c) p = Ok true → range_proved {| out_commitment := c; proof := p |}.
Proof.
  intros Hl Hv. unfold range_proved, verify_output_proof, range_proof_bytes, recovery_capsule. cbn [proof out_commitment].
  rewrite Hl, Z.eqb_refl. cbn [rbind]. by rewrite Hv.
Qed.

Lemma make_output_total o nonces : output_fits o → ∃ t, make_output o nonces = Ok t ∧ makes o t.
Proof.
  intros (Hv & Hb & Ho). unfold make_output, makes, planned_commitment. destruct (bo_canonical o) as [t|].
  { exists t. by destruct Ho as (? & ? & ? & ?). }
  destruct (prove_bytes_total Hlib _ _ nonces.1 nonces.2 Ho) as (c & p & Hc & Hop & Hp & Hl & Hok & Hver).
  rewrite Hc, Hp. cbn [tx_lift map_err_to rbind]. eexists. split; [done|]. cbn [out_commitment proof].
  pose proof (commit_spec _ _ _ Hb Hc) as [Hcok _]. apply commit_Ok in Hc as [_ ->]; [|done].
  split_and!; [|done|by apply plain_proof_ok|rewrite Hl; done|done].
  split; [done|]. cbn [proof]. unfold vec_ok. rewrite Hl. done.
Qed.

Lemma make_outputs_total l nonces :
  Forall output_fits l →
  ∃ ts, try_map (λ on, make_output on.1 on.2) (imap (λ i o, (o, nonces i)) l) = Ok ts ∧ Forall2 makes l ts.
Proof.
  intros Hl. revert nonces. induction Hl as [|o l Ho Hl IH]; intros nonces; [by exists []|].
  destruct (make_output_total o (nonces 0%nat) Ho) as (t & Ht & Hm). destruct (IH (nonces ∘ S)) as (ts & Hts & Hms).
  exists (t :: ts). rewrite imap_cons. cbn [try_map fst snd]. rewrite Ht. cbn [rbind].
  unfold compose in *. rewrite Hts. split; [done|by constructor].
Qed.

(** A recoverable output is created, fits the builder, and is found again from the seed. *)
Lemma recoverable_output_total root chain r nonce rewind private :
  recovered_ok r → provable (ro_value r) (ro_blinding r) → array_bytes 12 nonce →
  ∃ m capsule,
    build_recoverable_output root chain (ro_value r) (ro_account r) (ro_derivation_index r) (ro_domain r)
      (ro_blinding r) nonce rewind private = Ok m ∧
    output_fits {| bo_value := rm_value m; bo_blinding := rm_blinding m; bo_canonical := Some (rm_output m) |} ∧
    recovery_capsule (rm_output m) = Ok (Some capsule) ∧
    recover_output_from_capsule root chain (commit_bytes (out_commitment (rm_output m)))
      RANGE_PROOF_SERIALIZATION_VERSION (public_kind (ro_domain r)) capsule = Ok (Some r).
Proof.
  intros Hok Hp Hn. pose proof Hp as [Hv Hb HP0 _]. pose proof (commit_total _ _ Hb HP0) as Hc.
  destruct (recovery_roundtrip root chain _ RANGE_PROOF_SERIALIZATION_VERSION r nonce Hok Hn Hc) as (cap & Hcr & Hcb & Hcf & Hrec).
  assert (Hcl : zlen (capsule_bytes cap) = 96%Z) by (destruct cap as [cb]; by apply capsule_frame in Hcf as [? _]).
  destruct (prove_bytes_with_extra_total Hlib _ _ (capsule_bytes cap) rewind private Hp) as (c & p & Hc' & Hop & Hpr & Hl & Hpb & Hver); [lia|].
  rewrite Hc in Hc'. injection Hc' as <-. set (c := {| commit_bytes := sec1_encode (ro_value r * gen_H + bval (ro_blinding r) * gen_G) |}) in *.
  exists {| rm_value := ro_value r; rm_blinding := ro_blinding r; rm_output := {| out_commitment := c; proof := p ++ capsule_bytes cap |} |}, cap.
  assert (Hlen : zlen (p ++ capsule_bytes cap) = MAX_OUTPUT_PROOF_ENVELOPE_SIZE) by (rewrite zlen_app, Hl, Hcl; done).
  assert (Hslice : slice (p ++ capsule_bytes cap) 0 RANGE_PROOF_SIZE = p) by by apply slice_here.
  assert (Hcap : recovery_capsule {| out_commitment := c; proof := p ++ capsule_bytes cap |} = Ok (Some cap)).
  { unfold recovery_capsule. cbn [proof]. rewrite Hlen. cbn [Z.eqb Pos.eqb].
    rewrite slice_skip by (rewrite Hl; done). rewrite Hl, slice_full by (by rewrite Hcl). by rewrite Hcf. }
  split; [|split; [|done]].
  - unfold build_recoverable_output. destruct (Z.ltb_spec MAX_PROVABLE_VALUE (ro_value r)); [lia|]. rewrite Hc. cbn [tx_lift map_err_to rbind].
    unfold create_for in Hcr. change (commit_bytes c) with (sec1_encode (ro_value r * gen_H + bval (ro_blinding r) * gen_G)) in *. rewrite Hcr. cbn [map_err_to rbind]. rewrite Hpr. cbn [map_err_to rbind].
    rewrite (bool_decide_eq_true_2 _ eq_refl). cbn [negb]. unfold with_recovery_capsule. by rewrite Hl.
  - unfold output_fits. cbn [bo_value bo_blinding bo_canonical rm_value rm_blinding rm_output out_commitment proof].
    split; [change MAX_PROVABLE_VALUE with (2 ^ 52 - 1)%Z in Hv; lia|]. split; [done|]. split_and!.
    + split; [by apply point_commitment_ok|]. cbn [proof]. unfold vec_ok. rewrite Hlen.
      split_and!; [done|done|by apply bytes_ok_app].
    + done.
    + unfold range_proved, verify_output_proof. rewrite Hcap. unfold range_proof_bytes. cbn [proof out_commitment].
      rewrite Hlen, Z.eqb_refl. change (MAX_OUTPUT_PROOF_ENVELOPE_SIZE =? RANGE_PROOF_SIZE)%Z with false.
      cbn [rbind]. by rewrite Hslice, Hver.
    + by rewrite Hlen.
Qed.

(** ** The transaction *)

Definition input_fits (i : BuilderInput) : Prop :=
  (0 ≤ bi_value i)%Z ∧ bf_ok (bi_blinding i) ∧ commitment_ok (bi_commitment i) ∧
  opens (bi_commitment i) (bi_value i, bval (bi_blinding i)).

Record spend_ok (b : SpendBuilder) : Prop := {
  sp_inputs : Forall input_fits (sb_inputs b);
  sp_outputs : Forall output_fits (sb_outputs b);
  sp_some_input : sb_inputs b ≠ [];
  sp_some_output : sb_outputs b ≠ [];
  sp_fee : (0 ≤ sb_fee b ≤ MAX_SUPPLY_NOMS)%Z;
  sp_lock : u64_ok (sb_lock_height b);
  sp_balance : (zsum (bi_value <$> sb_inputs b) = zsum (bo_value <$> sb_outputs b) + sb_fee b)%Z;
  sp_total : (zsum (bi_value <$> sb_inputs b) < 2 ^ 64)%Z;
  sp_distinct_inputs : NoDup (bi_commitment <$> sb_inputs b);
  sp_distinct_outputs : NoDup (planned_commitment <$> sb_outputs b);
  sp_input_count : (zlen (sb_inputs b) ≤ MAX_INPUTS_PER_TX)%Z;
  sp_output_count : (zlen (sb_outputs b) ≤ MAX_OUTPUTS_PER_TX)%Z;
  sp_weight : (weight_of (zlen (sb_inputs b)) (zlen (sb_outputs b)) 1 ≤ MAX_TX_WEIGHT)%Z;
}.

(** The transaction [build] assembles *)
Definition spend_kernel (b : SpendBuilder) (c : Commitment) (sig : SchnorrSignature) : TransactionKernel := {|
  features := kernel_features_for_lock_height (sb_lock_height b); fee := {| noms := sb_fee b |};
  lock_height := sb_lock_height b; excess := c; excess_signature := signature_to_bytes sig |}.
Definition spend_tx (b : SpendBuilder) (ts : list TransactionOutput) (off : BlindingFactor) (c : Commitment)
    (sig : SchnorrSignature) : Transaction := {|
  inputs := (λ i, {| in_commitment := bi_commitment i |}) <$> sb_inputs b; outputs := ts;
  kernels := [spend_kernel b c sig]; offset := bf_bytes off |}.

Lemma makes_commits l ts : Forall2 makes l ts → out_commitment <$> ts = planned_commitment <$> l.
Proof. induction 1 as [|o t l ts (_ & _ & _ & _ & Ht) _ IH]; [done|]. cbn. by rewrite Ht, IH. Qed.

Lemma makes_opens l ts :
  Forall2 makes l ts →
  Forall2 opens (out_commitment <$> ts) ((λ o, (bo_value o, bval (bo_blinding o))) <$> l).
Proof. induction 1 as [|o t l ts (_ & Ht & _) _ IH]; cbn; by constructor. Qed.

Lemma makes_props l ts :
  Forall2 makes l ts →
  zlen ts = zlen l ∧ Forall wf ts ∧ Forall range_proved ts ∧ Forall (λ t, 1 ≤ zlen (proof t))%Z ts.
Proof.
  induction 1 as [|o t l ts (? & _ & ? & ? & _) _ (IH1 & IH2 & IH3 & IH4)]; [done|].
  rewrite !zlen_cons, IH1. split_and!; [done|by constructor..].
Qed.

Lemma inputs_open l :
  Forall input_fits l → Forall2 opens (bi_commitment <$> l) ((λ i, (bi_value i, bval (bi_blinding i))) <$> l).
Proof. induction 1 as [|i l (_ & _ & _ & Hi) _ IH]; cbn; by constructor. Qed.

Lemma features_plain b c sig : plain_kernel (spend_kernel b c sig).
Proof.
  unfold plain_kernel, spend_kernel, kernel_features_for_lock_height. cbn [features lock_height].
  destruct (Z.eqb_spec (sb_lock_height b) 0); auto.
Qed.

Lemma spend_tx_wf b ts off c sig :
  spend_ok b → Forall2 makes (sb_outputs b) ts → bf_ok off → commitment_ok c → sig_bytes_ok (signature_to_bytes sig) →
  tx_ok (spend_tx b ts off c sig) ∧ structure_ok (spend_tx b ts off c sig).
Proof.
  intros [Hin Hout _ _ Hfee Hlock Hbal _ Hdi Hdo Hic Hoc Hw] Hm Hoff Hc Hs.
  destruct (makes_props _ _ Hm) as (Hl & Hwf & _ & Hlen).
  assert (Hil : zlen ((λ i, {| in_commitment := bi_commitment i |}) <$> sb_inputs b) = zlen (sb_inputs b)) by apply zlen_fmap.
  split.
  - split_and!; unfold list_ok; cbn [spend_tx inputs outputs kernels offset]; rewrite ?Hil, ?Hl.
    + split_and!; [done|unfold MAX_INPUTS_PER_TX in Hic; lia|]. apply Forall_fmap. eapply Forall_impl; [exact Hin|].
      by intros i (_ & _ & ? & _).
    + split_and!; [done|unfold MAX_OUTPUTS_PER_TX in Hoc; lia|done].
    + split_and!; [done|done|]. constructor; [|constructor]. split_and!; try done.
      cbn [spend_kernel features]. unfold kernel_features_for_lock_height. by destruct (_ =? _)%Z.
    + split; apply Hoff.
  - split; unfold input_commits, output_commits; cbn [spend_tx inputs outputs kernels offset]; rewrite ?Hil, ?Hl; try done.
    + rewrite Forall_forall in *. intros t Ht. split; [by apply Hlen|]. destruct (Hwf t Ht) as [_ (? & _ & _)]. done.
    + constructor; [apply features_plain|constructor].
    + by rewrite <- list_fmap_compose.
    + by rewrite (makes_commits _ _ Hm).
    + unfold fee_sum. cbn. pose proof MAX_SUPPLY_NOMS_u64 as [_ ?]. lia.
Qed.

(** The message the kernel signs *)
Definition spend_message (b : SpendBuilder) : bytes :=
  hash_bytes (blake2b_256_tagged TAG_KERNEL_MSG
    ([kernel_features_for_lock_height (sb_lock_height b)] ++ le_bytes 8 (sb_fee b) ++ le_bytes 8 (sb_lock_height b))).

Lemma spend_rules b ts off c sig x ctx :
  spend_ok b → Forall2 makes (sb_outputs b) ts → bf_ok off →
  compute_kernel_excess_blinding b (bf_bytes off) = Ok x → commit 0 x = Ok c →
  signed (signature_to_bytes sig) (sb_chain_id b) (spend_message b) c → sig_bytes_ok (signature_to_bytes sig) →
  chain_id ctx = sb_chain_id b → (sb_lock_height b ≤ height_val (current_height ctx))%Z →
  tx_ok (spend_tx b ts off c sig) ∧ transaction_rules (spend_tx b ts off c sig) ctx.
Proof.
  intros Hb Hm Hoff Hx Hc Hsig Hsb Hcid Hlock. pose proof Hb as [Hin Hout _ _ _ _ Hbal _ _ _ _ _ _].
  apply excess_blinding_Ok in Hx as [Hxok Hblind]; [..|done].
  2:{ eapply Forall_impl; [exact Hout|]. by intros o (_ & ? & _). }
  2:{ eapply Forall_impl; [exact Hin|]. by intros i (_ & ? & _). }
  destruct (commit_spec _ _ _ Hxok Hc) as [Hcok Hcop].
  destruct (spend_tx_wf b ts off c sig Hb Hm Hoff Hcok Hsb) as [Htx Hst]. split; [done|].
  eapply (assembled_rules _ (spend_kernel b c sig)
    ((λ o, (bo_value o, bval (bo_blinding o))) <$> sb_outputs b)
    ((λ i, (bi_value i, bval (bi_blinding i))) <$> sb_inputs b) (bval x)); try done.
  - by destruct (makes_props _ _ Hm) as (_ & _ & ? & _).
  - by rewrite Hcid.
  - by apply makes_opens.
  - unfold input_commits. cbn [spend_tx inputs]. rewrite <- list_fmap_compose. by apply inputs_open.
  - by apply bf_offset_ok.
  - rewrite <- !list_fmap_compose. cbn [spend_kernel fee noms]. symmetry. exact Hbal.
  - rewrite <- !list_fmap_compose. exact Hblind.
Qed.

Lemma build_eq b nonces ts off c sig x ctx :
  spend_ok b →
  try_map (λ on, make_output on.1 on.2) (imap (λ i o, (o, nonces i)) (sb_outputs b)) = Ok ts →
  compute_kernel_excess_blinding b (bf_bytes off) = Ok x → commit 0 x = Ok c →
  secret_key_from_bytes (bf_bytes x) = Ok {| sk_bytes := bf_bytes x |} →
  schnorr_sign {| sk_bytes := bf_bytes x |} (spend_message b) (sb_chain_id b) = Ok sig →
  tx_ok (spend_tx b ts off c sig) → transaction_rules (spend_tx b ts off c sig) ctx →
  build b nonces off = Ok (spend_tx b ts off c sig).
Proof.
  intros [Hin Hout Hi Ho Hfee _ Hbal Htot _ _ _ _ _] Hts Hx Hc Hsk Hsig Htx Hrules.
  assert (Hamount : from_noms (sb_fee b) = Ok {| noms := sb_fee b |}) by (apply from_noms_Ok; split; [done|lia]).
  unfold build, validate_builder_state.
  destruct (Z.eqb_spec (zlen (sb_inputs b)) 0) as [H0|_]; [by apply zlen_0_nil in H0|].
  destruct (Z.eqb_spec (zlen (sb_outputs b)) 0) as [H0|_]; [by apply zlen_0_nil in H0|].
  rewrite Hamount. cbn [map_err_to rbind]. unfold checked_sum.
  rewrite checked_sum_total; [|apply Forall_fmap; eapply Forall_impl; [exact Hin|]; by intros i (? & _)|lia].
  cbn [map_err_to rbind].
  rewrite checked_sum_total; [|apply Forall_fmap; eapply Forall_impl; [exact Hout|]; by intros o ([? _] & _)|lia].
  cbn [map_err_to rbind]. rewrite checked_add_ok by lia. cbn [ok_or rbind].
  rewrite (proj2 (Z.eqb_eq _ _)) by lia. cbn [negb]. rewrite Hts. cbn [rbind]. rewrite Hx. cbn [rbind].
  rewrite Hc. cbn [tx_lift map_err_to rbind]. unfold spend_kernel_message. rewrite Hamount. cbn [map_err_to rbind].
  rewrite Hsk. cbn [map_err_to rbind]. unfold spend_message in Hsig. rewrite Hsig. cbn [map_err_to rbind].
  fold (spend_kernel b c sig). fold (spend_tx b ts off c sig).
  rewrite (proj2 (validate_transaction_structure_Ok _ (tx_ok_fees _ Htx)) (tr_structure _ _ Hrules)). cbn [tx_lift map_err_to rbind].
  by rewrite (validate_balance_equation_total _ Htx (so_fees _ (tr_structure _ _ Hrules)) (tr_balanced _ _ Hrules)).
Qed.

End spend.

(** ** A concrete spend

    1010 is spent into 1000 with a fee of 10, locked until height 3; output blinding 50 =
    input blinding 17 + excess 29 + offset 4. *)

#[local] Existing Instances sample_blake2b sample_hmac sample_curve sample_h sample_zkp_backend sample_prover.

Definition sample_spend : SpendBuilder := Eval vm_compute in {|
  sb_chain_id := replicate 32 7%Z;
  sb_inputs := [{| bi_commitment := sample_commitment 1010 17; bi_value := 1010; bi_blinding := sample_bf 17 |}];
  sb_outputs := [{| bo_value := 1000; bo_blinding := sample_bf 50; bo_canonical := None |}];
  sb_fee := 10;
  sb_lock_height := 3 |}.
Definition sample_spend_ctx : ValidationContext := {|
  current_height := {| height_val := 5 |}; chain_id := replicate 32 7%Z; now := {| time_val := 1784072030 |} |}.
Definition sample_spend_sig : SchnorrSignature := Eval vm_compute in
  match schnorr_sign (sample_sk 29) (spend_message sample_spend) (sb_chain_id sample_spend) with
  | Ok s => s
  | _ => {| r_compressed := []; sig_s := [] |}
  end.

Lemma sample_input_fits : Forall input_fits (sb_inputs sample_spend).
Proof.
  constructor; [|constructor]. assert (Hb : bf_ok (sample_bf 17)) by (apply sample_bf_ok; vm_compute; reflexivity).
  destruct (commit_spec 1010 (sample_bf 17) (sample_commitment 1010 17) Hb) as [Hc Ho]; [vm_compute; reflexivity|].
  split; [by vm_compute|]. exact (conj Hb (conj Hc Ho)).
Qed.

Lemma sample_output_fits : Forall output_fits (sb_outputs sample_spend).
Proof.
  constructor; [|constructor]. assert (Hb : bf_ok (sample_bf 50)) by (apply sample_bf_ok; vm_compute; reflexivity).
  split; [by vm_compute|]. split; [exact Hb|].
  apply (sample_provable 1000 50). vm_compute. reflexivity.
Qed.

Lemma sample_spend_ok : spend_ok sample_spend.
Proof.
  split; [exact sample_input_fits|exact sample_output_fits|..].
  1-6, 9-11: by vm_compute.
  all: refine (bool_decide_unpack _ _); vm_compute; exact I.
Qed.

