(* ===== verification/SlateFlow.v ===== *)
(** * The interactive slate protocol

    [dom-slate/src/lib.rs]: the sender builds an offer, the recipient answers it, the sender
    finalizes the answer into a transaction.  What a step draws at random (blindings, offsets, the
    nonces of signatures, range proofs and capsules) is an argument of the step. *)

From Stdlib Require Import ZArith Lia.
From stdpp Require Import base list strings.
From S2P Require Import Prelude CoreError Core Address Serialization CryptoHash Curve Keys Pedersen Schnorr.
From S2P Require Import RangeProof RangeProve Recovery Transaction Slate.
Local Open Scope string_scope.
Local Open Scope list_scope.
Local Open Scope Z_scope.

Inductive SlateError : Type :=
| SlateUnsupportedVersion (found expected : Z)
| SlateChainIdMismatch
| SlateNetworkMismatch
| SlateExpired
| SlateUnsupportedPhase (phase : Z)
| SlateRecipientFieldsPresent
| SlateMissingRecipientField (field : string)
| SlateSignatureVerificationFailed
| SlateCrypto (msg : string).

(** [.map_err(|e| SlateError::Crypto(format!("...: {e}")))] *)
Definition crypto_err {A} (context : string) (m : Result A) : result SlateError A :=
  map_err_to (λ e, SlateCrypto (context +:+ display_error e)) m.

(** ** Scalars and kernel messages *)

Definition slate_scalar_from_bytes (b : bytes) : result SlateError Z :=
  ok_or (scalar_from_repr b) (SlateCrypto "invalid scalar bytes").

Definition sender_excess_blinding (input_blindings : list bytes) (change_blinding : option bytes)
    (sender_offset : bytes) : result SlateError bytes :=
  let? acc := match change_blinding with
              | Some b => let? s := slate_scalar_from_bytes b in Ok (scalar_add 0 s)
              | None => Ok 0
              end in
  let? acc := try_fold (λ acc b, let? s := slate_scalar_from_bytes b in Ok (scalar_sub acc s)) acc input_blindings in
  let? s := slate_scalar_from_bytes sender_offset in
  let acc := scalar_sub acc s in
  if acc =? 0 then Err (SlateCrypto "sender excess blinding unexpectedly became zero")
  else Ok (scalar_to_repr acc).

Definition slate_kernel_features (lock_height : Z) : Z :=
  if lock_height =? 0 then KERNEL_FEAT_PLAIN else KERNEL_FEAT_HEIGHT_LOCKED.

Section slate_flow.
Context `{HB : Blake2b256} `{HC : Secp256k1} `{HZ : !ZkpBackend} `{HP : ZkpProver} `{HR : RecoveryCrypto}.

(** The loop over an unbounded source, as the draws it takes; [None] when they are all refused *)
Fixpoint random_secret_key (draws : list bytes) : option SecretKey :=
  match draws with
  | [] => None
  | b :: rest => match secret_key_from_bytes b with Ok k => Some k | _ => random_secret_key rest end
  end.

Definition plain_kernel_message (fee lock_height : Z) : result SlateError Hash256 :=
  let? _ := crypto_err "invalid kernel fee: " (from_noms fee) in
  Ok (blake2b_256_tagged TAG_KERNEL_MSG ([KERNEL_FEAT_PLAIN] ++ le_bytes 8 fee ++ le_bytes 8 lock_height)).
Definition slate_kernel_message (fee lock_height : Z) : result SlateError Hash256 :=
  let? _ := crypto_err "invalid kernel fee: " (from_noms fee) in
  Ok (blake2b_256_tagged TAG_KERNEL_MSG
        ([slate_kernel_features lock_height] ++ le_bytes 8 fee ++ le_bytes 8 lock_height)).

(** ** Slates with some fields replaced *)

Definition with_version (s : Slate) (v : Z) : Slate := {|
  slate_version := v; slate_chain_id := slate_chain_id s; slate_amount := slate_amount s;
  slate_fee := slate_fee s; slate_lock_height := slate_lock_height s; sender_inputs := sender_inputs s;
  sender_change_output := sender_change_output s; sender_public_excess := sender_public_excess s;
  sender_public_nonce := sender_public_nonce s; sender_offset_contribution := sender_offset_contribution s;
  recipient_output := recipient_output s; recipient_public_excess := recipient_public_excess s;
  recipient_public_nonce := recipient_public_nonce s; sender_partial_sig := sender_partial_sig s;
  recipient_partial_sig := recipient_partial_sig s;
  sender_change_recovery_capsule := sender_change_recovery_capsule s;
  recipient_recovery_capsule := recipient_recovery_capsule s |}.
Definition with_change (s : Slate) (change : option OutputCommitmentAndProof) : Slate := {|
  slate_version := slate_version s; slate_chain_id := slate_chain_id s; slate_amount := slate_amount s;
  slate_fee := slate_fee s; slate_lock_height := slate_lock_height s; sender_inputs := sender_inputs s;
  sender_change_output := change; sender_public_excess := sender_public_excess s;
  sender_public_nonce := sender_public_nonce s; sender_offset_contribution := sender_offset_contribution s;
  recipient_output := recipient_output s; recipient_public_excess := recipient_public_excess s;
  recipient_public_nonce := recipient_public_nonce s; sender_partial_sig := sender_partial_sig s;
  recipient_partial_sig := recipient_partial_sig s;
  sender_change_recovery_capsule := sender_change_recovery_capsule s;
  recipient_recovery_capsule := recipient_recovery_capsule s |}.
Definition with_recipient (s : Slate) (o : option OutputCommitmentAndProof) (excess nonce : option PublicKey)
    (sig : option PartialSig) : Slate := {|
  slate_version := slate_version s; slate_chain_id := slate_chain_id s; slate_amount := slate_amount s;
  slate_fee := slate_fee s; slate_lock_height := slate_lock_height s; sender_inputs := sender_inputs s;
  sender_change_output := sender_change_output s; sender_public_excess := sender_public_excess s;
  sender_public_nonce := sender_public_nonce s; sender_offset_contribution := sender_offset_contribution s;
  recipient_output := o; recipient_public_excess := excess; recipient_public_nonce := nonce;
  sender_partial_sig := sender_partial_sig s; recipient_partial_sig := sig;
  sender_change_recovery_capsule := sender_change_recovery_capsule s;
  recipient_recovery_capsule := recipient_recovery_capsule s |}.

Definition validate_slate_version (s : Slate) : result SlateError unit :=
  if negb (known_slate_version (slate_version s)) then
    Err (SlateUnsupportedVersion (slate_version s) RECOVERY_SLATE_VERSION)
  else if slate_version s =? RECOVERY_SLATE_VERSION then crypto_err "" (slate_validate s)
  else Ok tt.

(** ** Step 1: the offer *)

Record SlateInput : Type := { si_commitment : bytes; si_blinding : bytes }.
Record ChangeMaterial : Type := { cm_commitment : bytes; cm_value : Z; cm_blinding : bytes }.
Record SenderSlate : Type := {
  ss_slate : Slate;
  ss_excess_blinding : bytes;
  ss_nonce : bytes;
  ss_change : option ChangeMaterial;
}.
Record RecoveryBuildContext : Type := {
  rb_root : RecoveryRoot;
  rb_chain : RecoveryChainContext;
  rb_account : Z;
  rb_derivation_index : Z;
}.

(** What [build_send_with_lock_height] draws *)
Record SenderDraws : Type := {
  sd_change : BlindingFactor;
  sd_proof : bytes * bytes;
  sd_offset : BlindingFactor;
  sd_nonce : SecretKey;
}.

Definition build_change (change_value : Z) (d : SenderDraws)
  : result SlateError (option (OutputCommitmentAndProof * ChangeMaterial)) :=
  if 0 <? change_value then
    let? (proof_bytes, commitment_bytes) := crypto_err "change range proof failed: "
      (range_proof_prove_bytes change_value (sd_change d) (sd_proof d).1 (sd_proof d).2) in
    let? proof := crypto_err "change range proof invalid: " (range_proof_from_bytes proof_bytes) in
    let? commitment := crypto_err "change commitment invalid: " (from_compressed_bytes commitment_bytes) in
    Ok (Some ({| ocp_commitment := commitment; ocp_proof := proof |},
              {| cm_commitment := commitment_bytes; cm_value := change_value; cm_blinding := bf_bytes (sd_change d) |}))
  else Ok None.

Definition build_send_with_lock_height (inputs : list SlateInput) (change_value amount fee : Z)
    (chain_id : bytes) (lock_height : Z) (d : SenderDraws) : result SlateError SenderSlate :=
  let? change := build_change change_value d in
  let? excess_blinding := sender_excess_blinding (si_blinding <$> inputs)
                            ((λ c, cm_blinding c.2) <$> change) (bf_bytes (sd_offset d)) in
  let? sender_excess_key := crypto_err "sender excess key invalid: " (secret_key_from_bytes excess_blinding) in
  let? sender_inputs := crypto_err "sender input commitment invalid: "
                          (try_map (λ i, from_compressed_bytes (si_commitment i)) inputs) in
  let? public_excess := crypto_err "" (public_key sender_excess_key) in
  let? public_nonce := crypto_err "" (public_key (sd_nonce d)) in
  Ok {| ss_slate := slate_new chain_id amount fee lock_height sender_inputs (fst <$> change)
                      public_excess public_nonce (bf_bytes (sd_offset d));
        ss_excess_blinding := excess_blinding; ss_nonce := sk_bytes (sd_nonce d); ss_change := snd <$> change |}.

Definition build_send (inputs : list SlateInput) (change_value amount fee : Z) (chain_id : bytes)
    (d : SenderDraws) : result SlateError SenderSlate :=
  build_send_with_lock_height inputs change_value amount fee chain_id 0 d.

(** [nonce] and [nonces] are drawn for the capsule and its proof. *)
Definition build_send_recoverable (inputs : list SlateInput) (change_value amount fee : Z) (chain_id : bytes)
    (recovery : RecoveryBuildContext) (d : SenderDraws) (nonce : bytes) (nonces : bytes * bytes)
  : result SlateError SenderSlate :=
  if negb (bool_decide (rc_chain_id (rb_chain recovery) = chain_id)) then Err SlateChainIdMismatch
  else
    let? sender := build_send inputs change_value amount fee chain_id d in
    let s := ss_slate sender in
    let? s := match ss_change sender, sender_change_output s with
              | Some change, Some output =>
                  let? blinding := crypto_err "" (bf_from_bytes (cm_blinding change)) in
                  let? capsule := crypto_err "" (create_recovery_capsule_with_nonce (rb_root recovery)
                    (rb_chain recovery) (cm_commitment change) RANGE_PROOF_SERIALIZATION_VERSION (cm_value change)
                    (rb_account recovery) (rb_derivation_index recovery) Change blinding nonce) in
                  let? (proof, commitment) := crypto_err "" (range_proof_prove_bytes_with_extra_commit
                    (cm_value change) blinding (capsule_bytes capsule) nonces.1 nonces.2) in
                  if negb (bool_decide (commitment = cm_commitment change)) then
                    Err (SlateCrypto "recoverable change proof commitment mismatch")
                  else
                    let? proof := crypto_err "" (range_proof_from_bytes proof) in
                    Ok (with_capsules
                          (with_change s (Some {| ocp_commitment := ocp_commitment output; ocp_proof := proof |}))
                          (capsule_bytes capsule) (recipient_recovery_capsule s))
              | _, _ => Ok s
              end in
    Ok {| ss_slate := with_version s RECOVERY_SLATE_VERSION; ss_excess_blinding := ss_excess_blinding sender;
          ss_nonce := ss_nonce sender; ss_change := ss_change sender |}.

(** ** Step 2: the answer *)

Record ReceiveResponse : Type := { rr_slate : Slate; rr_blinding : bytes }.

(** What [respond_receive] draws *)
Record ReceiverDraws : Type := {
  rd_blinding : BlindingFactor;
  rd_proof : bytes * bytes;
  rd_nonce : SecretKey;
}.

Definition recipient_fields_present (s : Slate) : bool :=
  is_some (recipient_output s) || is_some (recipient_public_excess s) || is_some (recipient_public_nonce s)
  || is_some (recipient_partial_sig s).

Definition respond_receive (s : Slate) (expected_chain_id : bytes) (d : ReceiverDraws)
  : result SlateError ReceiveResponse :=
  let? _ := validate_slate_version s in
  if negb (slate_version s =? CURRENT_SLATE_VERSION) then
    Err (SlateUnsupportedVersion (slate_version s) CURRENT_SLATE_VERSION)
  else if negb (bool_decide (slate_chain_id s = expected_chain_id)) then Err SlateChainIdMismatch
  else if recipient_fields_present s then Err SlateRecipientFieldsPresent
  else
    let? _ := crypto_err "invalid slate amount: " (from_noms (slate_amount s)) in
    let? _ := crypto_err "invalid slate fee: " (from_noms (slate_fee s)) in
    let? (proof_bytes, commitment_bytes) := crypto_err "recipient range proof failed: "
      (range_proof_prove_bytes (slate_amount s) (rd_blinding d) (rd_proof d).1 (rd_proof d).2) in
    let? proof := crypto_err "recipient range proof invalid: " (range_proof_from_bytes proof_bytes) in
    let? commitment := crypto_err "recipient commitment invalid: " (from_compressed_bytes commitment_bytes) in
    let output := {| ocp_commitment := commitment; ocp_proof := proof |} in
    let? excess_key := crypto_err "recipient excess key invalid: " (secret_key_from_bytes (bf_bytes (rd_blinding d))) in
    let? public_excess := crypto_err "" (public_key excess_key) in
    let? public_nonce := crypto_err "" (public_key (rd_nonce d)) in
    let? agg_r := crypto_err "aggregate nonce failed: "
                    (schnorr_add_public_keys [sender_public_nonce s; public_nonce]) in
    let? agg_p := crypto_err "aggregate public excess failed: "
                    (schnorr_add_public_keys [sender_public_excess s; public_excess]) in
    let? message := slate_kernel_message (slate_fee s) (slate_lock_height s) in
    let? sig := crypto_err "recipient partial signature failed: "
                  (schnorr_partial_sign excess_key (rd_nonce d) agg_r agg_p expected_chain_id (hash_bytes message)) in
    Ok {| rr_slate := with_recipient s (Some output) (Some public_excess) (Some public_nonce) (Some sig);
          rr_blinding := bf_bytes (rd_blinding d) |}.

Definition respond_receive_recoverable (s : Slate) (expected_chain_id : bytes) (recovery : RecoveryBuildContext)
    (d : ReceiverDraws) (nonce : bytes) (nonces : bytes * bytes) : result SlateError ReceiveResponse :=
  if negb (slate_version s =? RECOVERY_SLATE_VERSION) then
    Err (SlateUnsupportedVersion (slate_version s) RECOVERY_SLATE_VERSION)
  else if negb (bool_decide (rc_chain_id (rb_chain recovery) = expected_chain_id)) then Err SlateChainIdMismatch
  else
    let sender_change_capsule := sender_change_recovery_capsule s in
    let s := with_version (with_capsules s [] (recipient_recovery_capsule s)) CURRENT_SLATE_VERSION in
    let? response := respond_receive s expected_chain_id d in
    let s := with_capsules (rr_slate response) sender_change_capsule (recipient_recovery_capsule (rr_slate response)) in
    let? blinding := crypto_err "" (bf_from_bytes (rr_blinding response)) in
    let? output := ok_or (recipient_output s) (SlateMissingRecipientField "output") in
    let commitment := commit_bytes (ocp_commitment output) in
    let? capsule := crypto_err "" (create_recovery_capsule_with_nonce (rb_root recovery) (rb_chain recovery)
      commitment RANGE_PROOF_SERIALIZATION_VERSION (slate_amount s) (rb_account recovery)
      (rb_derivation_index recovery) Received blinding nonce) in
    let? (proof, proof_commitment) := crypto_err "" (range_proof_prove_bytes_with_extra_commit
      (slate_amount s) blinding (capsule_bytes capsule) nonces.1 nonces.2) in
    if negb (bool_decide (proof_commitment = commitment)) then
      Err (SlateCrypto "recoverable recipient proof commitment mismatch")
    else
      let? proof := crypto_err "" (range_proof_from_bytes proof) in
      let s := with_recipient s (Some {| ocp_commitment := ocp_commitment output; ocp_proof := proof |})
                 (recipient_public_excess s) (recipient_public_nonce s) (recipient_partial_sig s) in
      Ok {| rr_slate := with_version (with_capsules s (sender_change_recovery_capsule s) (capsule_bytes capsule))
                          RECOVERY_SLATE_VERSION;
            rr_blinding := rr_blinding response |}.

(** ** Step 3: the transaction *)

Definition plain_output (o : OutputCommitmentAndProof) : TransactionOutput :=
  {| out_commitment := ocp_commitment o; proof := rp_bytes (ocp_proof o) |}.
Definition slate_outputs (s : Slate) (recipient_output : OutputCommitmentAndProof) : list TransactionOutput :=
  match sender_change_output s with Some change => [plain_output change] | None => [] end
  ++ [plain_output recipient_output].

Definition capsule_output (o : OutputCommitmentAndProof) (capsule : bytes) : result SlateError TransactionOutput :=
  let? c := crypto_err "" (capsule_from_bytes capsule) in
  crypto_err "" (with_recovery_capsule (ocp_commitment o) (rp_bytes (ocp_proof o)) c).
Definition slate_outputs_for_finalize (s : Slate) (recipient_output : OutputCommitmentAndProof)
  : result SlateError (list TransactionOutput) :=
  if slate_version s =? CURRENT_SLATE_VERSION then Ok (slate_outputs s recipient_output)
  else if negb (slate_version s =? RECOVERY_SLATE_VERSION) then
    Err (SlateUnsupportedVersion (slate_version s) RECOVERY_SLATE_VERSION)
  else
    let? change := match sender_change_output s with
                   | Some change =>
                       let? o := capsule_output change (sender_change_recovery_capsule s) in Ok [o]
                   | None => Ok []
                   end in
    let? o := capsule_output recipient_output (recipient_recovery_capsule s) in
    Ok (change ++ [o]).

Definition finalize (s : Slate) (sender_excess_blinding sender_nonce chain_id : bytes)
  : result SlateError Transaction :=
  let? _ := validate_slate_version s in
  if negb (bool_decide (slate_chain_id s = chain_id)) then Err SlateChainIdMismatch
  else
    let? output := ok_or (recipient_output s) (SlateMissingRecipientField "output") in
    let? public_excess := ok_or (recipient_public_excess s) (SlateMissingRecipientField "public excess") in
    let? public_nonce := ok_or (recipient_public_nonce s) (SlateMissingRecipientField "public nonce") in
    let? partial := ok_or (recipient_partial_sig s) (SlateMissingRecipientField "partial signature") in
    let? agg_r := crypto_err "aggregate nonce failed: "
                    (schnorr_add_public_keys [sender_public_nonce s; public_nonce]) in
    let? agg_p := crypto_err "aggregate excess failed: "
                    (schnorr_add_public_keys [sender_public_excess s; public_excess]) in
    let? message := slate_kernel_message (slate_fee s) (slate_lock_height s) in
    let? excess_key := crypto_err "sender excess key invalid: " (secret_key_from_bytes sender_excess_blinding) in
    let? nonce_key := crypto_err "sender nonce invalid: " (secret_key_from_bytes sender_nonce) in
    let? sender_partial := crypto_err "sender partial signature failed: "
      (schnorr_partial_sign excess_key nonce_key agg_r agg_p chain_id (hash_bytes message)) in
    let? sig := crypto_err "aggregate signature failed: " (schnorr_aggregate_sigs [sender_partial; partial] agg_r) in
    let? tx_outputs := slate_outputs_for_finalize s output in
    let? fee := crypto_err "invalid kernel fee: " (from_noms (slate_fee s)) in
    let? excess := crypto_err "kernel excess invalid: " (from_compressed_bytes (to_compressed_bytes agg_p)) in
    let tx := {|
      inputs := (λ c, {| in_commitment := c |}) <$> sender_inputs s;
      outputs := tx_outputs;
      kernels := [{| features := slate_kernel_features (slate_lock_height s); fee := fee;
                     lock_height := slate_lock_height s; excess := excess;
                     excess_signature := signature_to_bytes sig |}];
      offset := sender_offset_contribution s |} in
    let? _ := crypto_err "final slate tx structure invalid: " (validate_transaction_structure tx) in
    let? _ := crypto_err "final slate range proof invalid: " (validate_range_proofs tx) in
    let? _ := crypto_err "final slate tx balance invalid: " (validate_balance_equation tx) in
    let? valid := crypto_err "final slate signature invalid: "
                    (schnorr_verify sig agg_p chain_id (hash_bytes message)) in
    if negb valid then Err SlateSignatureVerificationFailed else Ok tx.

Definition sender_phase_slate (s : Slate) : Slate := {|
  slate_version := slate_version s; slate_chain_id := slate_chain_id s; slate_amount := slate_amount s;
  slate_fee := slate_fee s; slate_lock_height := slate_lock_height s; sender_inputs := sender_inputs s;
  sender_change_output := sender_change_output s; sender_public_excess := sender_public_excess s;
  sender_public_nonce := sender_public_nonce s; sender_offset_contribution := sender_offset_contribution s;
  recipient_output := None; recipient_public_excess := None; recipient_public_nonce := None;
  sender_partial_sig := None; recipient_partial_sig := None;
  sender_change_recovery_capsule := sender_change_recovery_capsule s; recipient_recovery_capsule := [] |}.

(** ** The steps over envelopes *)

Definition envelope_in_phase (e : SlateEnvelope) (p : Z) (b : Slate) : SlateEnvelope := {|
  envelope_version := envelope_version e; env_network_magic := env_network_magic e;
  env_chain_id := env_chain_id e; slate_id := slate_id e; replay_id := replay_id e; flow := flow e; phase := p;
  expires_at_height := expires_at_height e; sender_address := sender_address e;
  receiver_address := receiver_address e; body := b |}.

Definition validate_envelope_context (e : SlateEnvelope) (expected_network_magic : Z) (expected_chain_id : bytes)
    (current_height : Z) : result SlateError unit :=
  let? _ := crypto_err "slate envelope invalid: " (envelope_validate e) in
  if negb (env_network_magic e =? expected_network_magic) then Err SlateNetworkMismatch
  else if negb (bool_decide (env_chain_id e = expected_chain_id)) then Err SlateChainIdMismatch
  else if is_expired_at e current_height then Err SlateExpired
  else Ok tt.

Definition receiver_response (e : SlateEnvelope) (expected_network_magic : Z) (expected_chain_id : bytes)
    (current_height : Z) (d : ReceiverDraws) : result SlateError (SlateEnvelope * bytes) :=
  let? _ := validate_envelope_context e expected_network_magic expected_chain_id current_height in
  if negb (phase e =? SLATE_PHASE_SENDER_OFFER) then Err (SlateUnsupportedPhase (phase e))
  else
    let? response := respond_receive (body e) expected_chain_id d in
    let answered := envelope_in_phase e SLATE_PHASE_RECEIVER_RESPONSE (rr_slate response) in
    let? _ := crypto_err "slate envelope invalid: " (envelope_validate answered) in
    Ok (answered, rr_blinding response).

Definition finalize_envelope (e : SlateEnvelope) (sender_excess_blinding sender_nonce : bytes)
    (expected_network_magic : Z) (expected_chain_id : bytes) (current_height : Z)
  : result SlateError (SlateEnvelope * Transaction) :=
  let? _ := validate_envelope_context e expected_network_magic expected_chain_id current_height in
  if negb (phase e =? SLATE_PHASE_RECEIVER_RESPONSE) then Err (SlateUnsupportedPhase (phase e))
  else
    let? tx := finalize (body e) sender_excess_blinding sender_nonce expected_chain_id in
    let finalized := envelope_in_phase e SLATE_PHASE_FINALIZED (body e) in
    let? _ := crypto_err "slate envelope invalid: " (envelope_validate finalized) in
    Ok (finalized, tx).
End slate_flow.
