(* ===== verification/SlateFlowLaws.v ===== *)
(** * Laws of the slate protocol

    [SlateFlow.v]: whatever the other party sends, a transaction [finalize] returns is valid for
    consensus; and the three steps between honest parties lead to such a transaction. *)

From Stdlib Require Import ZArith Lia.
From stdpp Require Import base list strings.
From S2P Require Import Prelude CoreError Core Address FeePolicy Serialization CryptoHash Curve Keys Pedersen Schnorr.
From S2P Require Import RangeProof RangeProve Recovery RecoveryLaws Transaction TransactionLaws Slate SlateLaws.
From S2P Require Import BlockHeader Consensus ConsensusLaws SpendLaws SlateFlow.

Lemma zsum_app l1 l2 : (zsum (l1 ++ l2) = zsum l1 + zsum l2)%Z.
Proof. induction l1 as [|x l IH]; [done|]. cbn [app zsum foldr]. fold zsum. rewrite IH. lia. Qed.

Section finalize.
Context `{HB : Blake2b256} `{HC : Secp256k1} `{HH : !HGenerator} `{HZ : !ZkpBackend}.
Local Open Scope point_scope.

(** ** Aggregated signatures as kernel signatures *)

Lemma aggregate_shape ps agg_r sig :
  schnorr_aggregate_sigs ps agg_r = Ok sig →
  r_compressed sig = to_compressed_bytes agg_r ∧ offset_ok (sig_s sig) ∧ be_val (sig_s sig) ≠ 0%Z.
Proof.
  unfold schnorr_aggregate_sigs. destruct ps as [|p ps]; [done|]. intros H. res_inv. cbn [r_compressed sig_s].
  apply partial_fold_Ok in Hm as [Ha _]; [|pose proof order_range; lia]. destruct (scalar_repr_ok a Ha) as [Hoff Hv].
  split_and!; [done|done|]. pose proof Hoff as (Hl & Hb & _). apply negb_false_iff in Heqb.
  apply is_scalar_valid_val in Heqb; [lia|done..].
Qed.

Lemma aggregate_signed ps agg_r agg_p sig cid message :
  pk_ok agg_r → pk_ok agg_p → schnorr_aggregate_sigs ps agg_r = Ok sig →
  schnorr_verify sig agg_p cid message = Ok true →
  signed (signature_to_bytes sig) cid message {| commit_bytes := to_compressed_bytes agg_p |} ∧
  sig_bytes_ok (signature_to_bytes sig).
Proof.
  intros Hr Hp (Hrc & Hs & Hne)%aggregate_shape Hv. assert (Hroundtrip : signature_from_bytes (signature_to_bytes sig) = Ok sig).
  { unfold signature_to_bytes. rewrite Hrc. unfold to_compressed_bytes. rewrite signature_roundtrip by done.
    destruct sig as [r s]. cbn in *. by rewrite Hrc. }
  assert (Hsigned : signed (signature_to_bytes sig) cid message {| commit_bytes := to_compressed_bytes agg_p |}).
  { exists sig, agg_p. split_and!; [done|by apply pk_roundtrip|done]. }
  split; [done|]. eapply signed_bytes; [done|]. unfold signature_to_bytes. rewrite Hrc.
  apply bytes_ok_app. split; [apply sec1_encode_bytes|apply Hs].
Qed.

(** ** Outputs of a finalized slate *)

Lemma plain_output_ok o : ocp_ok o → wf (plain_output o).
Proof.
  intros (Hc & Hl & Hb). split; [done|]. cbn [plain_output proof]. unfold vec_ok. rewrite Hl. split_and!; done.
Qed.

Lemma capsule_from_bytes_id b c : capsule_from_bytes b = Ok c → c = {| capsule_bytes := b |}.
Proof. unfold capsule_from_bytes. cbv zeta. destruct (classify_recovery_capsule_frontier _ _ _); congruence. Qed.

Lemma capsule_output_ok o b t :
  ocp_ok o → bytes_ok b → capsule_output o b = Ok t → wf t ∧ out_commitment t = ocp_commitment o.
Proof.
  intros (Hc & Hl & Hpb) Hb. unfold capsule_output, crypto_err. intros H. res_inv. pose proof (capsule_from_bytes_id _ _ Hm) as ->.
  apply capsule_frame in Hm as [Hlb _]; [|done]. unfold with_recovery_capsule in H. rewrite Hl, Z.eqb_refl in H.
  cbn [negb capsule_bytes] in H. injection H as <-. split; [|done]. split; [done|]. cbn [proof]. unfold vec_ok.
  rewrite zlen_app, Hl, Hlb. split_and!; [done|done|by apply bytes_ok_app].
Qed.

(** The outputs of a slate: the change, when there is one, and what the recipient gets *)
Definition slate_output_list (s : Slate) : list OutputCommitmentAndProof :=
  option_list (sender_change_output s) ++ option_list (recipient_output s).

Lemma outputs_for_finalize_ok s o ts :
  slate_ok s → recipient_output s = Some o → slate_outputs_for_finalize s o = Ok ts →
  Forall wf ts ∧ out_commitment <$> ts = ocp_commitment <$> slate_output_list s.
Proof.
  intros Hs Ho. unfold slate_output_list. rewrite Ho. cbn [option_list].
  pose proof (sw_change _ Hs) as Hch. pose proof (sw_output _ Hs) as Hout. rewrite Ho in Hout. cbn [opt_ok] in Hout.
  pose proof (sw_capsules _ Hs) as Hcap. unfold slate_outputs_for_finalize, slate_outputs, capsules_ok in *. intros H.
  destruct (Z.eqb_spec (slate_version s) CURRENT_SLATE_VERSION) as [Hv|_].
  - injection H as <-. destruct (sender_change_output s); cbn [opt_ok option_list app] in *;
      (split; [|done]); repeat (apply Forall_cons_2; [by apply plain_output_ok|]); done.
  - destruct (slate_version s =? RECOVERY_SLATE_VERSION)%Z; [|done]. cbn [negb] in H. destruct Hcap as ((_ & _ & Hb1) & (_ & _ & Hb2) & _).
    destruct (sender_change_output s) as [c|]; cbn [opt_ok option_list app] in *; res_inv.
    + apply capsule_output_ok in Hm1 as [??], Hm0 as [??]; [|done..]. 
      split; [repeat (apply Forall_cons_2; [done|]); done|cbn; congruence].
    + apply capsule_output_ok in Hm0 as [??]; [|done..]. 
      split; [repeat (apply Forall_cons_2; [done|]); done|cbn; congruence].
Qed.

(** ** Finalizing is sound *)

Lemma slate_message_kernel fee lh msg k :
  slate_kernel_message fee lh = Ok msg → features k = slate_kernel_features lh → lock_height k = lh →
  noms (Transaction.fee k) = fee → msg = kernel_message k.
Proof.
  unfold slate_kernel_message. intros H Hf <- <-. res_inv. unfold kernel_message. by rewrite Hf.
Qed.

(** The transaction of a slate around its kernel *)
Definition slate_tx (s : Slate) (ts : list TransactionOutput) (agg_p : PublicKey) (sig : SchnorrSignature) : Transaction := {|
  inputs := (λ c, {| in_commitment := c |}) <$> sender_inputs s;
  outputs := ts;
  kernels := [{| features := slate_kernel_features (slate_lock_height s); fee := {| noms := slate_fee s |};
                 lock_height := slate_lock_height s; excess := {| commit_bytes := to_compressed_bytes agg_p |};
                 excess_signature := signature_to_bytes sig |}];
  offset := sender_offset_contribution s |}.

Lemma slate_tx_ok s ts agg_p sig :
  inputs_ok (sender_inputs s) → amount_ok {| noms := slate_fee s |} → u64_ok (slate_lock_height s) →
  scalar_bytes_ok (sender_offset_contribution s) → Forall wf ts → (zlen ts ≤ MAX_OUTPUTS_PER_TX)%Z → pk_ok agg_p →
  sig_bytes_ok (signature_to_bytes sig) → tx_ok (slate_tx s ts agg_p sig).
Proof.
  intros [Hil Hic] Hfee Hlock Hoff Hts Hl Hp Hsig.
  assert (Hin : zlen (inputs (slate_tx s ts agg_p sig)) = zlen (sender_inputs s)) by apply zlen_fmap.
  split_and!; unfold list_ok.
  - rewrite Hin. split_and!; [done|unfold MAX_INPUTS_PER_TX in Hil; lia|]. by apply Forall_fmap.
  - split_and!; [done|unfold MAX_OUTPUTS_PER_TX in Hl; cbn [slate_tx outputs]; lia|done].
  - split_and!; [done|done|]. constructor; [|constructor]. split_and!; try done.
    { cbn [features]. unfold slate_kernel_features. by destruct (_ =? _)%Z. }
    by apply point_commitment_ok.
  - done.
Qed.

(** What a successful [finalize] has established *)
Record finalized (s : Slate) (cid : bytes) (tx : Transaction) : Prop := {
  fz_chain : slate_chain_id s = cid;
  fz_tx : ∃ o ts agg_p sig,
    recipient_output s = Some o ∧ slate_outputs_for_finalize s o = Ok ts ∧ tx = slate_tx s ts agg_p sig ∧
    pk_ok agg_p ∧ (slate_fee s ≤ MAX_SUPPLY_NOMS)%Z ∧
    (∃ msg, slate_kernel_message (slate_fee s) (slate_lock_height s) = Ok msg ∧
      signed (signature_to_bytes sig) cid (hash_bytes msg) {| commit_bytes := to_compressed_bytes agg_p |}) ∧
    sig_bytes_ok (signature_to_bytes sig);
  fz_structure : validate_transaction_structure tx = Ok tt;
  fz_range : validate_range_proofs tx = Ok tt;
  fz_balance : validate_balance_equation tx = Ok tt;
}.

Lemma finalize_Ok s x k cid tx : slate_ok s → finalize s x k cid = Ok tx → finalized s cid tx.
Proof.
  intros Hs. unfold finalize, crypto_err. intros H. res_inv.
  apply negb_false_iff, bool_decide_eq_true in Heqb. apply negb_false_iff in Heqb0 as ->.
  apply from_noms_Ok in Hm12 as [-> Hfee].
  pose proof (sw_r_excess _ Hs) as Hre. pose proof (sw_r_nonce _ Hs) as Hrn. rewrite Hm1 in Hre. rewrite Hm2 in Hrn. cbn [opt_ok] in *.
  apply schnorr_add_public_keys_Ok in Hm4 as [_ Hr]; [|repeat constructor; [apply (sw_nonce _ Hs)|done]].
  apply schnorr_add_public_keys_Ok in Hm5 as [_ Hp]; [|repeat constructor; [apply (sw_excess _ Hs)|done]].
  apply commitment_ok_intro in Hm13 as [_ Hc]; [|by apply pk_array]. destruct a13 as [cb]. cbn [commit_bytes] in Hc. subst cb.
  destruct (aggregate_signed _ _ _ _ _ _ Hr Hp Hm10 Hm17) as [Hsig Hsb].
  split; [done| |done..]. eexists a0, a11, a5, a10. split_and!; try done. by exists a6.
Qed.

(** C13: whatever the recipient answers, a transaction [finalize] returns for a decoded slate is
    valid: consensus accepts it on the slate's chain once its lock height is reached; it spends
    exactly the sender's inputs, creates exactly the outputs of the slate and pays its fee. *)
Theorem finalize_sound s x k cid tx ctx :
  slate_ok s → finalize s x k cid = Ok tx →
  chain_id ctx = cid → (slate_lock_height s ≤ height_val (current_height ctx))%Z →
  validate_transaction tx ctx = Ok tt ∧ input_commits tx = sender_inputs s ∧
  output_commits tx = ocp_commitment <$> slate_output_list s ∧ fee_sum (kernels tx) = slate_fee s.
Proof.
  intros Hs [Hcid (o & ts & agg_p & sig & Ho & Hts & -> & Hp & Hfee & (msg & Hmsg & Hsig) & Hsb) Hst Hrg Hbal]%finalize_Ok Hctx Hlock; [|done].
  destruct (outputs_for_finalize_ok _ _ _ Hs Ho Hts) as [Hwf Hoc].
  assert (Htl : zlen ts = zlen (slate_output_list s)) by (rewrite <- (zlen_fmap ocp_commitment), <- Hoc; symmetry; apply zlen_fmap).
  assert (Htx : tx_ok (slate_tx s ts agg_p sig)).
  { destruct Hs. apply slate_tx_ok; try done; [split; [apply sw_fee|done]|]. rewrite Htl. unfold slate_output_list, zlen.
    rewrite length_app. by destruct (sender_change_output s), (recipient_output s). }
  split_and!; [|unfold input_commits; cbn [slate_tx inputs]; rewrite <- list_fmap_compose; apply list_fmap_id|done|unfold fee_sum; cbn; lia].
  apply validate_transaction_Ok; [done|]. split.
  - by apply (validate_transaction_structure_Ok _ (tx_ok_fees _ Htx)).
  - by constructor.
  - by apply (try_eachi_Ok _ _ _ _ check_range_proof_Ok) in Hrg.
  - constructor; [|constructor]. cbn [excess_signature excess]. rewrite Hctx.
    by erewrite <- slate_message_kernel by done.
  - by apply validate_balance_equation_Ok.
Qed.

(** ** Finalizing an honest answer *)

(** A transaction output for the value and blinding [vr] *)
Definition good_output (t : TransactionOutput) (vr : Z * Z) : Prop :=
  wf t ∧ opens (out_commitment t) vr ∧ range_proved t ∧ (1 ≤ zlen (proof t))%Z.

(** A slate both parties have filled in with keys [xs], [xr] and nonces [ks], [kr], over outputs
    worth [vos] and inputs worth [vis] *)
Record answered (s : Slate) (ts : list TransactionOutput) (xs ks xr kr : SecretKey) (vos vis : list (Z * Z)) : Prop := {
  an_version : validate_slate_version s = Ok tt;
  an_outputs : ∃ o, recipient_output s = Some o ∧ slate_outputs_for_finalize s o = Ok ts;
  an_keys : sk_ok xs ∧ sk_ok ks ∧ sk_ok xr ∧ sk_ok kr;
  an_sender : public_key xs = Ok (sender_public_excess s) ∧ public_key ks = Ok (sender_public_nonce s);
  an_response : ∃ pxr pkr agg_r agg_p msg p,
    recipient_public_excess s = Some pxr ∧ public_key xr = Ok pxr ∧
    recipient_public_nonce s = Some pkr ∧ public_key kr = Ok pkr ∧
    schnorr_add_public_keys [sender_public_nonce s; pkr] = Ok agg_r ∧
    schnorr_add_public_keys [sender_public_excess s; pxr] = Ok agg_p ∧
    slate_kernel_message (slate_fee s) (slate_lock_height s) = Ok msg ∧
    schnorr_partial_sign xr kr agg_r agg_p (slate_chain_id s) (hash_bytes msg) = Ok p ∧
    recipient_partial_sig s = Some p;
  an_fee : (0 ≤ slate_fee s)%Z;
  an_lock : u64_ok (slate_lock_height s);
  an_offset : offset_ok (sender_offset_contribution s);
  an_inputs : inputs_ok (sender_inputs s);
  an_distinct : NoDup (sender_inputs s) ∧ NoDup (out_commitment <$> ts);
  an_weight : (weight_of (zlen (sender_inputs s)) (zlen ts) 1 ≤ MAX_TX_WEIGHT)%Z;
  an_count : (zlen ts ≤ MAX_OUTPUTS_PER_TX)%Z;
  an_good : Forall2 good_output ts vos;
  an_opens : Forall2 opens (sender_inputs s) vis;
  an_values : (zsum vos.*1 + slate_fee s = zsum vis.*1)%Z;
  an_blinds : ((be_val (sk_bytes xs) + be_val (sk_bytes xr) + be_val (sender_offset_contribution s)
               + zsum vis.*2 - zsum vos.*2) mod order = 0)%Z;
}.

Lemma good_outputs ts vos :
  Forall2 good_output ts vos →
  Forall wf ts ∧ Forall2 opens (out_commitment <$> ts) vos ∧ Forall range_proved ts ∧ Forall (λ t, 1 ≤ zlen (proof t))%Z ts.
Proof.
  induction 1 as [|t vr ts vos (? & ? & ? & ?) _ (IH1 & IH2 & IH3 & IH4)]; [done|].
  split_and!; by constructor.
Qed.

Lemma aggregate_excess_opens xs xr pxs pxr agg_p :
  sk_ok xs → sk_ok xr → public_key xs = Ok pxs → public_key xr = Ok pxr →
  schnorr_add_public_keys [pxs; pxr] = Ok agg_p →
  pk_ok agg_p ∧ opens {| commit_bytes := to_compressed_bytes agg_p |} (0, be_val (sk_bytes xs) + be_val (sk_bytes xr))%Z.
Proof.
  intros Hxs Hxr Hps Hpr Hadd. pose proof (public_key_ok _ _ Hxs Hps). pose proof (public_key_ok _ _ Hxr Hpr).
  apply schnorr_add_public_keys_Ok in Hadd as [He Hp]; [|by repeat constructor]. split; [done|].
  rewrite public_key_Ok in Hps, Hpr by done. injection Hps as <-. injection Hpr as <-.
  unfold opens. cbn [fst snd]. rewrite pt_mul_0, pt_add_0_l. unfold to_compressed_bytes.
  replace (pk_point agg_p) with ((be_val (sk_bytes xs) + be_val (sk_bytes xr))%Z * gen_G); [apply decodes_encode|].
  - rewrite pt_mul_add. unfold pk_ok in Hp. rewrite He in Hp. cbn in Hp. by rewrite pt_add_0_r in Hp.
  - rewrite He, pt_mul_add. cbn. by rewrite pt_add_0_r.
Qed.

Lemma answered_rules s ts xs ks xr kr vos vis agg_p sig msg ctx :
  answered s ts xs ks xr kr vos vis → pk_ok agg_p → (slate_fee s ≤ MAX_SUPPLY_NOMS)%Z →
  slate_kernel_message (slate_fee s) (slate_lock_height s) = Ok msg →
  signed (signature_to_bytes sig) (slate_chain_id s) (hash_bytes msg) {| commit_bytes := to_compressed_bytes agg_p |} →
  sig_bytes_ok (signature_to_bytes sig) →
  opens {| commit_bytes := to_compressed_bytes agg_p |} (0, be_val (sk_bytes xs) + be_val (sk_bytes xr))%Z →
  chain_id ctx = slate_chain_id s → (slate_lock_height s ≤ height_val (current_height ctx))%Z →
  tx_ok (slate_tx s ts agg_p sig) ∧ transaction_rules (slate_tx s ts agg_p sig) ctx.
Proof.
  intros [] Hp Hfee Hmsg Hsig Hsb Hop Hcid Hlock. destruct (good_outputs _ _ an_good0) as (Hwf & Hvo & Hrg & Hlen).
  assert (Htx : tx_ok (slate_tx s ts agg_p sig)) by (apply slate_tx_ok; try done; split; apply an_offset0).
  assert (Hin : input_commits (slate_tx s ts agg_p sig) = sender_inputs s)
    by (unfold input_commits; cbn [slate_tx inputs]; rewrite <- list_fmap_compose; apply list_fmap_id).
  split; [done|]. eapply (assembled_rules _ _ vos vis); try reflexivity; try done.
  - split; try done; cbn [slate_tx inputs outputs kernels]; rewrite ?zlen_fmap; try done.
    + apply an_inputs0.
    + rewrite Forall_forall in *. intros t Ht. split; [by apply Hlen|]. destruct (Hwf t Ht) as [_ (? & _ & _)]. done.
    + constructor; [|constructor]. unfold plain_kernel. cbn [features lock_height]. unfold slate_kernel_features.
      destruct (Z.eqb_spec (slate_lock_height s) 0); auto.
    + rewrite Hin. apply an_distinct0.
    + apply an_distinct0.
    + unfold fee_sum. cbn. pose proof MAX_SUPPLY_NOMS_u64 as [_ ?]. lia.
  - cbn [excess_signature excess]. rewrite Hcid. by erewrite <- slate_message_kernel by done.
  - by rewrite Hin.
Qed.

Lemma partial_sign_cases sk k agg_r agg_p cid m :
  sk_ok sk → sk_ok k → (challenge_scalar (to_compressed_bytes agg_r) agg_p cid m < order)%Z →
  (∃ p, schnorr_partial_sign sk k agg_r agg_p cid m = Ok p) ∨
  schnorr_partial_sign sk k agg_r agg_p cid m = Err (Invalid "partial signature scalar is zero or >= n").
Proof.
  intros (Hl1 & Hb1 & Hv1) (Hl2 & Hb2 & Hv2) Hc. unfold schnorr_partial_sign, scalar_add_mul.
  rewrite (proj2 (scalar_from_array_Some (sk_bytes k) _) (conj eq_refl (proj2 Hv2))). cbn [ok_or rbind].
  rewrite (proj2 (scalar_from_array_Some (sk_bytes sk) _) (conj eq_refl (proj2 Hv1))). cbn [ok_or rbind].
  rewrite (proj2 (scalar_from_array_Some (hash_bytes _) _) (conj eq_refl Hc)). cbn [ok_or rbind].
  unfold partial_from_bytes, partial_signature_length_is_canonical, scalar_to_repr. rewrite zlen_be_bytes.
  cbn [negb Z.eqb Z.of_nat]. destruct (is_scalar_valid _); [left; by eexists|by right].
Qed.

Lemma partial_sign_scalar sk k agg_r agg_p cid m p :
  sk_ok sk → sk_ok k → schnorr_partial_sign sk k agg_r agg_p cid m = Ok p → (be_val (partial_s p) < order)%Z.
Proof.
  intros (_ & Hsk & _) (_ & Hk & _). unfold schnorr_partial_sign. intros H. res_inv.
  apply scalar_add_mul_Ok in Hm as ((_ & _ & Hs) & _); [|done..|apply blake2b_bytes].
  unfold partial_from_bytes in H. by res_inv.
Qed.

Lemma aggregate_cases p q agg_r :
  (be_val (partial_s p) < order)%Z → (be_val (partial_s q) < order)%Z →
  (∃ sig, schnorr_aggregate_sigs [p; q] agg_r = Ok sig) ∨
  schnorr_aggregate_sigs [p; q] agg_r = Err (Invalid "aggregated signature scalar is zero or >= n").
Proof.
  intros Hp Hq. unfold schnorr_aggregate_sigs. cbn [try_fold].
  rewrite (proj2 (scalar_from_array_Some (partial_s p) _) (conj eq_refl Hp)). cbn [ok_or rbind].
  rewrite (proj2 (scalar_from_array_Some (partial_s q) _) (conj eq_refl Hq)). cbn [ok_or rbind].
  destruct (is_scalar_valid _); [left; by eexists|by right].
Qed.

(** The two errors left to chance: a signature scalar that comes out zero *)
Definition zero_scalar (e : SlateError) : Prop :=
  e = SlateCrypto ("sender partial signature failed: "
        +:+ display_error (Invalid "partial signature scalar is zero or >= n")) ∨
  e = SlateCrypto ("aggregate signature failed: "
        +:+ display_error (Invalid "aggregated signature scalar is zero or >= n")).

Lemma answered_finalizes s ts xs ks xr kr vos vis cid ctx :
  answered s ts xs ks xr kr vos vis → slate_chain_id s = cid →
  chain_id ctx = cid → (slate_lock_height s ≤ height_val (current_height ctx))%Z →
  match finalize s (sk_bytes xs) (sk_bytes ks) cid with
  | Ok tx => (∃ agg_p sig, tx = slate_tx s ts agg_p sig) ∧ validate_transaction tx ctx = Ok tt
  | Err e => zero_scalar e
  | Panic => False
  end.
Proof.
  intros Ha <- Hcid Hlock. pose proof Ha as [Hv (o & Ho & Hts) (Hxs & Hks & Hxr & Hkr) (Hpxs & Hpks)
    (pxr & pkr & agg_r & agg_p & msg & p & Hrx & Hpxr & Hrk & Hpkr & Hr & Hp & Hmsg & Hpart & Hrp) _ _ _ _ _ _ _ _ _ _ _].
  unfold finalize, crypto_err. rewrite Hv. cbn [rbind]. rewrite (bool_decide_eq_true_2 _ eq_refl). cbn [negb].
  rewrite Ho, Hrx, Hrk, Hrp. cbn [ok_or rbind]. rewrite Hr, Hp, Hmsg. cbn [crypto_err map_err_to rbind].
  rewrite (proj2 (secret_key_from_bytes_Ok (sk_bytes xs) xs (proj1 (proj2 Hxs))) (conj eq_refl Hxs)).
  rewrite (proj2 (secret_key_from_bytes_Ok (sk_bytes ks) ks (proj1 (proj2 Hks))) (conj eq_refl Hks)). cbn [map_err_to rbind].
  destruct (partial_sign_point _ _ _ _ _ _ _ Hxr Hkr Hpart) as [Hch _].
  destruct (partial_sign_cases xs ks agg_r agg_p (slate_chain_id s) (hash_bytes msg) Hxs Hks Hch) as [(q & Hq)|Hq];
    rewrite Hq; cbn [map_err_to rbind]; [|by left].
  destruct (aggregate_cases q p agg_r) as [(sig & Hsig)|Hsig]; 
    [exact (partial_sign_scalar _ _ _ _ _ _ _ Hxs Hks Hq)|exact (partial_sign_scalar _ _ _ _ _ _ _ Hxr Hkr Hpart)| |];
    rewrite Hsig; cbn [map_err_to rbind]; [|by right].
  rewrite Hts. cbn [rbind]. assert (Hfee : (slate_fee s ≤ MAX_SUPPLY_NOMS)%Z).
  { unfold slate_kernel_message, crypto_err in Hmsg. destruct (from_noms (slate_fee s)) eqn:Hf; try done. by apply from_noms_Ok in Hf as [_ ?]. }
  rewrite (proj2 (from_noms_Ok (slate_fee s) _) (conj eq_refl Hfee)). cbn [map_err_to rbind].
  destruct (aggregate_excess_opens _ _ _ _ _ Hxs Hxr Hpxs Hpxr Hp) as [Hpok Hopen].
  rewrite (proj2 (commitment_ok_intro (to_compressed_bytes agg_p) {| commit_bytes := to_compressed_bytes agg_p |}
    (proj2 (pk_array _ Hpok))) (conj (point_commitment_ok _ Hpok) eq_refl)). cbn [map_err_to rbind].
  assert (Hver : schnorr_verify sig agg_p (slate_chain_id s) (hash_bytes msg) = Ok true).
  { eapply (aggregate_signature_verifies [(xs, ks); (xr, kr)] [_; pxr] [_; pkr] [q; p]); try eassumption;
      by repeat first [apply Forall_cons_2|apply Forall2_cons_2]. }
  assert (Hrok : pk_ok agg_r).
  { eapply schnorr_add_public_keys_Ok in Hr as [_ ?]; [done|]. 
    repeat apply Forall_cons_2; [exact (public_key_ok _ _ Hks Hpks)|exact (public_key_ok _ _ Hkr Hpkr)|done]. }
  destruct (aggregate_signed _ _ _ _ _ _ Hrok Hpok Hsig Hver) as [Hsigned Hsb].
  destruct (answered_rules _ _ _ _ _ _ _ _ agg_p sig msg ctx Ha Hpok Hfee Hmsg Hsigned Hsb Hopen Hcid Hlock) as [Htx Hrules].
  fold (slate_tx s ts agg_p sig). pose proof (tr_structure _ _ Hrules) as Hst.
  rewrite (proj2 (validate_transaction_structure_Ok _ (tx_ok_fees _ Htx)) Hst). cbn [map_err_to rbind].
  unfold validate_range_proofs. rewrite (proj2 (try_eachi_Ok _ _ _ _ check_range_proof_Ok) (tr_range _ _ Hrules)). cbn [map_err_to rbind].
  rewrite (validate_balance_equation_total _ Htx (so_fees _ Hst) (tr_balanced _ _ Hrules)). cbn [map_err_to rbind].
  rewrite Hver. cbn [map_err_to rbind negb]. split; [by eexists _, _|]. by apply validate_transaction_Ok.
Qed.
End finalize.

(** ** An exchange between honest parties *)

Section exchange.
Context `{HB : Blake2b256} `{HC : Secp256k1} `{HH : !HGenerator} `{HZ : !ZkpBackend}.
Context `{HP : ZkpProver} `{HR : RecoveryCrypto}.
Local Open Scope point_scope.

Abbreviation bval b := (be_val (bf_bytes b)).
Abbreviation skval k := (be_val (sk_bytes k)).

Lemma slate_scalar_total b : offset_ok b → slate_scalar_from_bytes b = Ok (be_val b).
Proof.
  intros (_ & _ & Hv). unfold slate_scalar_from_bytes.
  by rewrite (proj2 (scalar_from_array_Some b _ : scalar_from_repr b = Some _ ↔ _) (conj eq_refl Hv)).
Qed.

Lemma sub_scalars_Ok l acc x :
  Forall offset_ok l →
  try_fold (λ acc b, let? s := slate_scalar_from_bytes b in Ok (scalar_sub acc s)) acc l = Ok x →
  ∃ k, (x = acc - zsum (be_val <$> l) + k * order)%Z.
Proof.
  intros Hl. revert acc. induction Hl as [|b l Hb Hl IH]; intros acc H; cbn [try_fold] in H.
  - injection H as <-. exists 0%Z. cbn. lia.
  - rewrite slate_scalar_total in H by done. cbn [rbind] in H. apply IH in H as (k & ->). unfold scalar_sub.
    exists (k - (acc - be_val b) / order)%Z. cbn [fmap list_fmap zsum foldr]. fold zsum.
    pose proof (Z.div_mod (acc - be_val b) order) as Hd. pose proof order_range. lia.
Qed.

Lemma sender_excess_Ok l ch off x :
  Forall offset_ok l → opt_ok offset_ok ch → offset_ok off → sender_excess_blinding l ch off = Ok x →
  sk_ok {| sk_bytes := x |} ∧
  ((be_val x + be_val off + zsum (be_val <$> l) - from_option be_val 0%Z ch) mod order = 0)%Z.
Proof.
  intros Hl Hch Hoff. unfold sender_excess_blinding. rewrite slate_scalar_total by done. intros H.
  assert (Hacc : ∃ a k, (a = from_option be_val 0 ch + k * order)%Z ∧
    match ch with Some b => let? s := slate_scalar_from_bytes b in Ok (scalar_add 0 s) | None => Ok 0%Z end = Ok a).
  { destruct ch as [b|]; cbn [opt_ok from_option] in *.
    - rewrite slate_scalar_total by done. exists (scalar_add 0 (be_val b)), (- ((0 + be_val b) / order))%Z. split; [|done].
      unfold scalar_add. pose proof (Z.div_mod (0 + be_val b) order). pose proof order_range. cbn [id]. lia.
    - exists 0%Z, 0%Z. split; [cbn; lia|done]. }
  destruct Hacc as (a & k & Ha & Hm). rewrite Hm in H. clear Hm. cbn [rbind] in H. res_inv.
  apply sub_scalars_Ok in Hm as (k' & ->); [|done]. unfold scalar_sub in *.
  set (v := ((from_option be_val 0 ch + k * order - zsum (be_val <$> l) + k' * order - be_val off) mod order)%Z) in *.
  destruct (scalar_repr_ok v (mod_order_range _)) as [(Hl32 & Hb & Hlt) Hv]. rewrite Hv in *.
  apply Z.eqb_neq in Heqb. pose proof (mod_order_range (from_option be_val 0 ch + k * order - zsum (be_val <$> l) + k' * order - be_val off)) as Hr. fold v in Hr.
  split; [split_and!; cbn [sk_bytes]; rewrite ?Hv; lia || done|].
  apply Z.mod_divide; [pose proof order_range; lia|].
  exists (k + k' - (from_option be_val 0 ch + k * order - zsum (be_val <$> l) + k' * order - be_val off) / order)%Z.
  pose proof (Z.div_mod (from_option be_val 0 ch + k * order - zsum (be_val <$> l) + k' * order - be_val off) order) as Hd. fold v in Hd.
  pose proof order_range. lia.
Qed.

(** *** The offer *)

(** An input of value [v] whose opening the sender knows *)
Definition funded (i : SlateInput) (v : Z) : Prop :=
  let c := {| commit_bytes := si_commitment i |} in
  commitment_ok c ∧ bf_ok {| bf_bytes := si_blinding i |} ∧ opens c (v, be_val (si_blinding i)).
Abbreviation input_commitment i := {| commit_bytes := si_commitment i |}.

Definition change_opening (change_value : Z) (b : BlindingFactor) : list (Z * Z) :=
  if (0 <? change_value)%Z then [(change_value, bval b)] else [].

(** What an offer carries: the commitments, keys and proofs its secrets determine *)
Record offered (s : Slate) (xs ks : SecretKey) (inputs : list SlateInput) (cvs : list (Z * Z)) : Prop := {
  od_inputs : sender_inputs s = (λ i, input_commitment i) <$> inputs;
  od_keys : sk_ok xs ∧ public_key xs = Ok (sender_public_excess s) ∧ public_key ks = Ok (sender_public_nonce s);
  od_offset : offset_ok (sender_offset_contribution s);
  od_change : Forall2 good_output (plain_output <$> option_list (sender_change_output s)) cvs;
  od_blinds : ((skval xs + be_val (sender_offset_contribution s) + zsum (be_val ∘ si_blinding <$> inputs)
                - zsum cvs.*2) mod order = 0)%Z;
}.

Hypothesis Hlib : working_library.

Lemma prove_output_total v b nonces :
  provable v b →
  ∃ proof c, range_proof_prove_bytes v b nonces.1 nonces.2 = Ok (proof, commit_bytes c) ∧
    range_proof_from_bytes proof = Ok {| rp_bytes := proof |} ∧ from_compressed_bytes (commit_bytes c) = Ok c ∧
    good_output (plain_output {| ocp_commitment := c; ocp_proof := {| rp_bytes := proof |} |}) (v, bval b).
Proof.
  intros Hp. destruct (prove_bytes_total Hlib _ _ nonces.1 nonces.2 Hp) as (c & p & Hc & Hop & Hpr & Hl & Hok & Hver).
  destruct (commit_spec _ _ _ (pv_blinding _ _ Hp) Hc) as [Hcok _]. exists p, c. split; [done|].
  split; [by apply range_proof_from_bytes_Ok|]. split; [by apply commitment_ok_intro; [apply Hcok|]|].
  split_and!; [by apply plain_output_ok|done|by apply plain_proof_ok|cbn [plain_output proof ocp_proof rp_bytes]; by rewrite Hl].
Qed.

Lemma input_commitments_total (inputs : list SlateInput) vs :
  Forall2 funded inputs vs →
  try_map (λ i, from_compressed_bytes (si_commitment i)) inputs = Ok ((λ i, input_commitment i) <$> inputs).
Proof.
  induction 1 as [|i v inputs vs ((Hl & Hb & Hd) & _) _ IH]; [done|]. cbn [try_map fmap list_fmap].
  rewrite (proj2 (commitment_ok_intro (si_commitment i) (input_commitment i) Hb)) by done. cbn [rbind]. by rewrite IH.
Qed.

Lemma build_change_total cv d :
  (0 ≤ cv)%Z → ((0 < cv)%Z → provable cv (sd_change d)) →
  ∃ change, build_change cv d = Ok change ∧
    Forall2 good_output (plain_output <$> option_list (fst <$> change)) (change_opening cv (sd_change d)) ∧
    from_option be_val 0%Z ((λ c, cm_blinding c.2) <$> change) = zsum (change_opening cv (sd_change d)).*2 ∧
    opt_ok offset_ok ((λ c, cm_blinding c.2) <$> change).
Proof.
  intros H0 Hp. unfold build_change, change_opening. destruct (Z.ltb_spec 0 cv) as [Hcv|]; [|by exists None].
  destruct (prove_output_total cv (sd_change d) (sd_proof d) (Hp Hcv)) as (p & c & Hpr & Hf & Hfc & Hg).
  unfold crypto_err. rewrite Hpr. cbn [map_err_to rbind]. rewrite Hf. cbn [map_err_to rbind]. rewrite Hfc. cbn [map_err_to rbind].
  eexists. split; [done|]. cbn [option_list fmap option_fmap option_map fst snd from_option cm_blinding list_fmap opt_ok].
  split; [by constructor|]. split; [cbn; lia|]. apply bf_offset_ok, (Hp Hcv).
Qed.

Lemma build_send_offer inputs vs cv amount fee cid lock d ss :
  Forall2 funded inputs vs → (0 ≤ cv)%Z → ((0 < cv)%Z → provable cv (sd_change d)) →
  bf_ok (sd_offset d) → sk_ok (sd_nonce d) →
  build_send_with_lock_height inputs cv amount fee cid lock d = Ok ss →
  ∃ xs change pxs pks,
    ss_slate ss = slate_new cid amount fee lock ((λ i, input_commitment i) <$> inputs) change pxs pks (bf_bytes (sd_offset d)) ∧
    ss_excess_blinding ss = sk_bytes xs ∧ ss_nonce ss = sk_bytes (sd_nonce d) ∧
    offered (ss_slate ss) xs (sd_nonce d) inputs (change_opening cv (sd_change d)).
Proof.
  intros Hin Hcv Hpr Hoff Hks. unfold build_send_with_lock_height.
  destruct (build_change_total cv d Hcv Hpr) as (change & Hch & Hgood & Hsum & Hcok). rewrite Hch. cbn [rbind].
  unfold crypto_err. rewrite (input_commitments_total _ _ Hin). rewrite (public_key_Ok _ Hks). cbn [map_err_to rbind]. intros H. res_inv.
  assert (Hbl : Forall offset_ok (si_blinding <$> inputs)).
  { apply Forall_fmap. clear -Hin. induction Hin as [|i v l vs (_ & Hb & _) _ IH]; constructor; [by apply (bf_offset_ok _ Hb)|done]. }
  apply sender_excess_Ok in Hm as [Hx Hblind]; [|done..|by apply bf_offset_ok].
  apply secret_key_from_bytes_Ok in Hm0 as [<- Hxs]; [|apply Hx].
  eexists a0, _, a1, _. split; [reflexivity|]. split_and!; [done|done|].
  split; cbn [slate_new ss_slate sender_inputs sender_public_excess sender_public_nonce sender_offset_contribution sender_change_output];
    [done|split_and!; [done|done|by apply public_key_Ok]|by apply bf_offset_ok|done|].
  rewrite Hsum, <- list_fmap_compose in Hblind. exact Hblind.
Qed.

(** *** The answer *)

Lemma respond_answer s cid e rr :
  slate_version s = CURRENT_SLATE_VERSION → provable (slate_amount s) (rd_blinding e) →
  respond_receive s cid e = Ok rr →
  ∃ o pxr pkr p agg_r agg_p msg,
    rr_slate rr = with_recipient s (Some o) (Some pxr) (Some pkr) (Some p) ∧ rr_blinding rr = bf_bytes (rd_blinding e) ∧
    slate_chain_id s = cid ∧ good_output (plain_output o) (slate_amount s, bval (rd_blinding e)) ∧
    public_key {| sk_bytes := bf_bytes (rd_blinding e) |} = Ok pxr ∧ public_key (rd_nonce e) = Ok pkr ∧
    schnorr_add_public_keys [sender_public_nonce s; pkr] = Ok agg_r ∧
    schnorr_add_public_keys [sender_public_excess s; pxr] = Ok agg_p ∧
    slate_kernel_message (slate_fee s) (slate_lock_height s) = Ok msg ∧
    schnorr_partial_sign {| sk_bytes := bf_bytes (rd_blinding e) |} (rd_nonce e) agg_r agg_p cid (hash_bytes msg) = Ok p.
Proof.
  intros Hv Hp. pose proof (pv_blinding _ _ Hp) as Hb.
  destruct (prove_output_total _ _ (rd_proof e) Hp) as (pr & c & Hpr & Hf & Hfc & Hg).
  unfold respond_receive, crypto_err. rewrite Hpr. cbn [map_err_to rbind]. rewrite Hf. cbn [map_err_to rbind].
  rewrite Hfc. cbn [map_err_to rbind].
  rewrite (proj2 (secret_key_from_bytes_Ok (bf_bytes (rd_blinding e)) {| sk_bytes := bf_bytes (rd_blinding e) |} (proj1 (proj2 Hb))) (conj eq_refl Hb)).
  cbn [map_err_to rbind]. intros H. res_inv. eexists _, _, _, _, _, _, _. split_and!; first [reflexivity|done|idtac].
  match goal with H : negb (bool_decide _) = false |- _ => by apply negb_false_iff, bool_decide_eq_true in H end.
Qed.

(** *** The whole exchange *)

(** What the two wallets choose: the sender's inputs are worth the payment, the fee and the
    change, the values are provable, and the transaction fits the consensus limits. *)
Record exchange_ok (inputs : list SlateInput) (vs : list Z) (cv amount fee lock : Z) (d : SenderDraws)
    (e : ReceiverDraws) : Prop := {
  ex_inputs : Forall2 funded inputs vs;
  ex_values : (zsum vs = amount + fee + cv)%Z;
  ex_fee : (0 ≤ fee)%Z;
  ex_change : (0 ≤ cv)%Z ∧ ((0 < cv)%Z → provable cv (sd_change d));
  ex_amount : provable amount (rd_blinding e);
  ex_offset : bf_ok (sd_offset d);
  ex_nonces : sk_ok (sd_nonce d) ∧ sk_ok (rd_nonce e);
  ex_lock : u64_ok lock;
  ex_distinct : NoDup (si_commitment <$> inputs);
  ex_fresh : cv * gen_H + bval (sd_change d) * gen_G ≠ amount * gen_H + bval (rd_blinding e) * gen_G;
  ex_count : (zlen inputs ≤ MAX_INPUTS_PER_TX)%Z;
  ex_weight : (weight_of (zlen inputs) 2 1 ≤ MAX_TX_WEIGHT)%Z;
}.

Lemma fresh_outputs c (t : TransactionOutput) cv b v r :
  Forall2 good_output (plain_output <$> option_list c) (change_opening cv b) → good_output t (v, r) →
  cv * gen_H + bval b * gen_G ≠ v * gen_H + r * gen_G →
  NoDup (out_commitment <$> ((plain_output <$> option_list c) ++ [t])).
Proof.
  intros Hc (_ & Ht & _) Hne. unfold change_opening in Hc. destruct c as [c|]; [|by apply NoDup_singleton].
  cbn [option_list fmap list_fmap] in *. destruct (0 <? cv)%Z; [|by inversion Hc].
  apply Forall2_cons in Hc as [(_ & Hc & _) _]. cbn [app fmap list_fmap]. apply NoDup_cons. split; [|apply NoDup_singleton].
  rewrite list_elem_of_singleton. intros He. rewrite He in Hc. by apply Hne, (decodes_fun _ _ _ Hc Ht).
Qed.

Lemma funded_opens inputs vs :
  Forall2 funded inputs vs →
  Forall2 opens ((λ i, input_commitment i) <$> inputs) (zip vs (be_val ∘ si_blinding <$> inputs)) ∧
  (zip vs (be_val ∘ si_blinding <$> inputs)).*1 = vs ∧
  (zip vs (be_val ∘ si_blinding <$> inputs)).*2 = be_val ∘ si_blinding <$> inputs ∧
  Forall commitment_ok ((λ i, input_commitment i) <$> inputs).
Proof.
  induction 1 as [|i v inputs vs (Hc & _ & Ho) _ (IH1 & IH2 & IH3 & IH4)]; [done|].
  cbn [fmap list_fmap zip zip_with]. split_and!; [by constructor|cbn; f_equal; exact IH2|cbn; f_equal; exact IH3|by constructor].
Qed.

Lemma exchange_answered inputs vs cv amount fee cid lock d e ss rr :
  exchange_ok inputs vs cv amount fee lock d e →
  build_send_with_lock_height inputs cv amount fee cid lock d = Ok ss → respond_receive (ss_slate ss) cid e = Ok rr →
  ∃ xs ts, ss_excess_blinding ss = sk_bytes xs ∧ ss_nonce ss = sk_bytes (sd_nonce d) ∧
    slate_chain_id (rr_slate rr) = cid ∧ slate_lock_height (rr_slate rr) = lock ∧ rr_blinding rr = bf_bytes (rd_blinding e) ∧
    sender_inputs (rr_slate rr) = (λ i, input_commitment i) <$> inputs ∧
    answered (rr_slate rr) ts xs (sd_nonce d) {| sk_bytes := bf_bytes (rd_blinding e) |} (rd_nonce e)
      (change_opening cv (sd_change d) ++ [(amount, bval (rd_blinding e))]) (zip vs (be_val ∘ si_blinding <$> inputs)).
Proof.
  intros [Hin Hval Hfee [Hcv Hcp] Ham Hoff [Hks Hkr] Hlock Hnd Hfresh Hcount Hweight] Hbuild Hresp.
  destruct (build_send_offer _ _ _ _ _ _ _ _ _ Hin Hcv Hcp Hoff Hks Hbuild) as (xs & change & pxs & pks & Hs & Hx & Hk & Hof).
  rewrite Hs in *. destruct Hof as [_ (Hxs & Hpxs & Hpks) Hoffk Hchange Hblind].
  apply respond_answer in Hresp as (o & pxr & pkr & p & agg_r & agg_p & msg & Hrr & Hrb & _ & Hgood & Hpxr & Hpkr & Hr & Hp & Hmsg & Hpart); [|done..].
  cbn [slate_new sender_public_excess sender_public_nonce slate_fee slate_lock_height slate_amount sender_change_output sender_offset_contribution] in *.
  destruct (funded_opens _ _ Hin) as (Hops & Hv1 & Hv2 & Hcok).
  exists xs, ((plain_output <$> option_list change) ++ [plain_output o]). rewrite Hrr. split_and!; try done.
  split; cbn [slate_new with_recipient slate_fee slate_lock_height slate_chain_id sender_inputs sender_offset_contribution sender_public_excess
      sender_public_nonce recipient_public_excess recipient_public_nonce recipient_partial_sig]; try done.
  - exists o. split; [done|]. unfold slate_outputs_for_finalize. cbn. unfold slate_outputs. cbn. by destruct change.
  - split_and!; try done. apply (pv_blinding _ _ Ham).
  - by exists pxr, pkr, agg_r, agg_p, msg, p.
  - split; [by rewrite zlen_fmap|done].
  - split; [|by eapply fresh_outputs]. apply (NoDup_fmap_1 commit_bytes). by rewrite <- list_fmap_compose.
  - rewrite zlen_fmap, zlen_app, zlen_fmap. unfold weight_of in *.
    assert (zlen (option_list change) ≤ 1)%Z by (by destruct change). change (zlen [plain_output o]) with 1%Z. lia.
  - rewrite zlen_app, zlen_fmap. by destruct change.
  - apply Forall2_app; [done|by constructor].
  - rewrite Hv1, Hval, fmap_app, zsum_app. unfold change_opening. destruct (Z.ltb_spec 0 cv); cbn; lia.
  - rewrite Hv2, fmap_app, zsum_app. rewrite <- Hblind. f_equal.
    change (zsum [(amount, bval (rd_blinding e))].*2) with (bval (rd_blinding e) + 0)%Z. cbn [sk_bytes]. lia.
Qed.

(** C14: the slate protocol between honest parties completes: from a funded offer and the
    recipient's answer, [finalize] returns a transaction consensus accepts on the chain once the
    lock height is reached; it spends the sender's inputs, and one of its outputs opens to the agreed
    amount under the blinding the recipient keeps.  The only other outcome is an error for a signature
    scalar that happens to be zero. *)
Theorem slate_exchange_accepted inputs vs cv amount fee cid lock d e ss rr ctx :
  exchange_ok inputs vs cv amount fee lock d e →
  build_send_with_lock_height inputs cv amount fee cid lock d = Ok ss → respond_receive (ss_slate ss) cid e = Ok rr →
  chain_id ctx = cid → (lock ≤ height_val (current_height ctx))%Z →
  match finalize (rr_slate rr) (ss_excess_blinding ss) (ss_nonce ss) cid with
  | Ok tx => validate_transaction tx ctx = Ok tt ∧ commit_bytes <$> input_commits tx = si_commitment <$> inputs ∧
             Exists (λ t, opens (out_commitment t) (amount, be_val (rr_blinding rr))) (outputs tx)
  | Err err => zero_scalar err
  | Panic => False
  end.
Proof.
  intros Hex Hbuild Hresp Hcid Hlock.
  destruct (exchange_answered _ _ _ _ _ _ _ _ _ _ _ Hex Hbuild Hresp) as (xs & ts & -> & -> & Hc & Hl & -> & Hins & Ha).
  rewrite <- Hl in Hlock. pose proof (answered_finalizes _ _ _ _ _ _ _ _ _ _ Ha Hc Hcid Hlock) as Hf.
  destruct (finalize _ _ _ _) as [tx|err|]; [|done|done]. destruct Hf as [(agg_p & sig & ->) Hv]. split_and!; [done|..].
  - unfold input_commits. cbn [slate_tx Transaction.inputs]. rewrite Hins, <- !list_fmap_compose. done.
  - apply (an_good _ _ _ _ _ _ _ _) in Ha. cbn [slate_tx outputs]. apply Forall2_app_inv_r in Ha as (l1 & l2 & _ & H2 & ->).
    apply Exists_app. right. inversion H2 as [|t ? ? ? (_ & Ht & _)]. by constructor.
Qed.
End exchange.

(** ** A concrete exchange

    1010 is spent into 900 for the recipient, 100 of change and a fee of 10. *)

#[local] Existing Instances sample_blake2b sample_curve sample_h sample_zkp_backend sample_prover.

Definition ok_value {E A} (d : A) (m : result E A) : A := match m with Ok a => a | _ => d end.
Lemma ok_value_eq {E A} (d : A) (m : result E A) : is_ok m = true → m = Ok (ok_value d m).
Proof. by destruct m. Qed.

Definition ex_cid : bytes := replicate 32 7%Z.
Definition ex_input : SlateInput := {|
  si_commitment := commit_bytes (sample_commitment 1010 17); si_blinding := bf_bytes (sample_bf 17) |}.
Definition ex_sender : SenderDraws := {|
  sd_change := sample_bf 50; sd_proof := (be_bytes 32 8, be_bytes 32 9); sd_offset := sample_bf 4; sd_nonce := sample_sk 101 |}.
Definition ex_receiver : ReceiverDraws := {|
  rd_blinding := sample_bf 33; rd_proof := (be_bytes 32 6, be_bytes 32 5); rd_nonce := sample_sk 102 |}.
Definition ex_empty : Slate := slate_new [] 0 0 0 [] None (sample_pk 1) (sample_pk 1) [].
Definition ex_offer : SenderSlate :=
  ok_value {| ss_slate := ex_empty; ss_excess_blinding := []; ss_nonce := []; ss_change := None |}
    (build_send_with_lock_height [ex_input] 100 900 10 ex_cid 3 ex_sender).
Definition ex_answer : ReceiveResponse :=
  ok_value {| rr_slate := ex_empty; rr_blinding := [] |} (respond_receive (ss_slate ex_offer) ex_cid ex_receiver).
Definition ex_ctx : ValidationContext := {|
  current_height := {| height_val := 5 |}; chain_id := ex_cid; now := {| time_val := 1784072030 |} |}.

Lemma ex_offer_Ok : build_send_with_lock_height [ex_input] 100 900 10 ex_cid 3 ex_sender = Ok ex_offer.
Proof. apply ok_value_eq. vm_compute. reflexivity. Qed.
Lemma ex_answer_Ok : respond_receive (ss_slate ex_offer) ex_cid ex_receiver = Ok ex_answer.
Proof. apply ok_value_eq. vm_compute. reflexivity. Qed.

Lemma ex_exchange : exchange_ok [ex_input] [1010%Z] 100 900 10 3 ex_sender ex_receiver.
Proof.
  split. 2-3, 8, 11-12: by vm_compute.
  - constructor; [|constructor]. assert (Hb : bf_ok (sample_bf 17)) by (apply sample_bf_ok; vm_compute; reflexivity).
    destruct (commit_spec 1010 (sample_bf 17) (sample_commitment 1010 17) Hb) as [Hc Ho]; [vm_compute; reflexivity|].
    exact (conj Hc (conj Hb Ho)).
  - split; [done|]. intros _. apply sample_provable. vm_compute. reflexivity.
  - apply sample_provable. vm_compute. reflexivity.
  - apply sample_bf_ok. vm_compute. reflexivity.
  - split; apply sample_sk_ok; vm_compute; reflexivity.
  - apply NoDup_singleton.
  - intros H. apply (f_equal proj1_sig) in H. by vm_compute in H.
Qed.

Lemma slate_exchange_accepted_witness :
  ∃ tx, finalize (rr_slate ex_answer) (ss_excess_blinding ex_offer) (ss_nonce ex_offer) ex_cid = Ok tx ∧
        validate_transaction tx ex_ctx = Ok tt.
Proof.
  assert (Hok : is_ok (finalize (rr_slate ex_answer) (ss_excess_blinding ex_offer) (ss_nonce ex_offer) ex_cid) = true)
    by (vm_compute; reflexivity).
  pose proof (slate_exchange_accepted sample_working [ex_input] [1010%Z] 100 900 10 ex_cid 3 ex_sender ex_receiver
    ex_offer ex_answer ex_ctx ex_exchange ex_offer_Ok ex_answer_Ok eq_refl) as Hf.
  destruct (finalize _ _ _ _) as [tx| |]; [|discriminate Hok..].
  exists tx. split; [reflexivity|]. apply Hf. by vm_compute.
Defined.

(** The answer as the sender reads it back from its encoding *)
Definition ex_answer_bytes : bytes := Eval vm_compute in ok_value [] (to_bytes (rr_slate ex_answer)).
Definition ex_read : Slate := ok_value ex_empty (from_bytes Slate ex_answer_bytes).

Lemma ex_read_ok : slate_ok ex_read.
Proof.
  assert (Hr : from_bytes Slate ex_answer_bytes = Ok ex_read) by (apply ok_value_eq; vm_compute; reflexivity).
  eapply slate_codec_exact; [| |exact Hr]; [refine (bool_decide_unpack _ _); vm_compute; exact I|vm_compute; reflexivity].
Qed.

Lemma finalize_sound_witness :
  ∃ tx, finalize ex_read (ss_excess_blinding ex_offer) (ss_nonce ex_offer) ex_cid = Ok tx ∧
        validate_transaction tx ex_ctx = Ok tt.
Proof.
  assert (Hok : is_ok (finalize ex_read (ss_excess_blinding ex_offer) (ss_nonce ex_offer) ex_cid) = true)
    by (vm_compute; reflexivity).
  pose proof (finalize_sound ex_read (ss_excess_blinding ex_offer) (ss_nonce ex_offer) ex_cid) as Hs.
  destruct (finalize _ _ _ _) as [tx| |]; [|discriminate Hok..].
  exists tx. split; [reflexivity|]. apply (Hs tx ex_ctx ex_read_ok eq_refl eq_refl). by vm_compute.
Defined.
