(* ===== verification/Genesis.v ===== *)
(** * Genesis identity ([crates/dom-chain/src/genesis.rs])

    The inscription and the identity envelope of the Mainnet genesis, the identifier of a
    header, and the construction of the genesis of each network. *)

From Stdlib Require Import ZArith Lia.
From stdpp Require Import base list strings.
From S2P Require Import Prelude CoreError Core Serialization CryptoHash Pow Curve Keys.
From S2P Require Import Pedersen Schnorr RangeProof RangeProve Transaction BlockHeader Consensus.
Local Open Scope string_scope.
Local Open Scope Z_scope.

(** ** Constants of dom-core used here only *)

Definition GENESIS_NONCE_MAINNET : Z := 7150.
Definition GENESIS_NONCE_REGTEST : Z := 0.
Definition GENESIS_POW_DIGEST_MAINNET : bytes :=
  [0x00; 0x00; 0x03; 0xbd; 0xa0; 0xb1; 0x41; 0x65; 0x6e; 0x3a; 0x08; 0x6f; 0xbb; 0x2e; 0x01; 0x83;
   0x21; 0xed; 0x26; 0x11; 0xc9; 0xd5; 0xa7; 0x23; 0xbf; 0x9b; 0x85; 0xcc; 0xe9; 0xba; 0xf3; 0xab].
Definition GENESIS_POW_DIGEST_REGTEST : bytes :=
  (replicate 16 0x00 ++
   [0x96; 0x5d; 0xe1; 0xca; 0x3c; 0xdb; 0x82; 0x26; 0xdd; 0x38; 0x7e; 0xa2; 0xa8; 0x75; 0xb6; 0x4d])%list.
Definition GENESIS_MESSAGE : string := "Not a store of value. A means of exchange.".
Definition TAG_GENESIS_INSCRIPTION : string := "DOM:genesis-inscription:v1".
Definition TAG_MAINNET_GENESIS_IDENTITY : string := "DOM:mainnet-genesis-identity:v1".
Definition TAG_GENESIS_BLINDING : string := "DOM:genesis-blinding:v1".

(** ** Constants of this module *)

Definition GENESIS_INSCRIPTION_VERSION : Z := 0x01.
Definition MAX_GENESIS_INSCRIPTION_BYTES : Z := 256.
Definition MAINNET_GENESIS_IDENTITY_VERSION : Z := 0x01.
Definition BLOCK_HEADER_BYTES : Z := MIN_SERIALIZED_SIZE BlockHeader.
Definition EMPTY_BODY_BYTES : bytes := replicate 16 0.
Definition MAINNET_INSCRIPTION_COUNT : Z := 1.
Definition REGTEST_GENESIS_SIGNING_CONTEXT : bytes :=
  [0x47; 0x3d; 0x3b; 0xe0; 0xc7; 0x97; 0x55; 0x6b; 0xee; 0x04; 0xa1; 0xdd; 0xc7; 0x7f; 0x13; 0xbb;
   0xd4; 0x3e; 0x92; 0xda; 0xec; 0xca; 0xdc; 0x34; 0xd4; 0xa5; 0xa9; 0xf2; 0xd3; 0xe6; 0x1b; 0xeb].

Definition is_empty_mainnet_economic_body (body : bytes) : bool :=
  bool_decide (body = EMPTY_BODY_BYTES).

(** [std::str::from_utf8(bytes).is_ok()]: well-formed UTF-8 as Unicode defines it *)
Definition utf8_tail (b : Z) : bool := (0x80 <=? b) && (b <=? 0xbf).
Definition in_range (lo b hi : Z) : bool := (lo <=? b) && (b <=? hi).
Fixpoint utf8_valid (l : bytes) : bool :=
  match l with
  | [] => true
  | b0 :: t0 =>
      if b0 <=? 0x7f then utf8_valid t0
      else
        match t0 with
        | [] => false
        | b1 :: t1 =>
            if in_range 0xc2 b0 0xdf && utf8_tail b1 then utf8_valid t1
            else
              match t1 with
              | [] => false
              | b2 :: t2 =>
                  if ((b0 =? 0xe0) && in_range 0xa0 b1 0xbf
                      || in_range 0xe1 b0 0xec && utf8_tail b1
                      || (b0 =? 0xed) && in_range 0x80 b1 0x9f
                      || in_range 0xee b0 0xef && utf8_tail b1) && utf8_tail b2
                  then utf8_valid t2
                  else
                    match t2 with
                    | [] => false
                    | b3 :: t3 =>
                        ((b0 =? 0xf0) && in_range 0x90 b1 0xbf
                         || in_range 0xf1 b0 0xf3 && utf8_tail b1
                         || (b0 =? 0xf4) && in_range 0x80 b1 0x8f)
                        && utf8_tail b2 && utf8_tail b3 && utf8_valid t3
                    end
              end
        end
  end.

(** ** Inscription *)

Record GenesisInscriptionV1 : Type := { inscription_payload : bytes }.

Definition inscription_new (b : bytes) : Result GenesisInscriptionV1 :=
  if MAX_GENESIS_INSCRIPTION_BYTES <? zlen b then
    Err (Invalid ("genesis inscription payload exceeds " +:+ dec MAX_GENESIS_INSCRIPTION_BYTES
                  +:+ " bytes"))
  else if negb (utf8_valid b) then Err (Invalid "genesis inscription is not valid UTF-8")
  else Ok {| inscription_payload := b |}.

Definition inscription_mainnet : GenesisInscriptionV1 :=
  {| inscription_payload := str_bytes GENESIS_MESSAGE |}.

(** [u16::try_from(len)] *)
Definition u16_try (len : Z) (e : DomError) : Result Z :=
  if len <=? u16_max then Ok len else Err e.

Definition inscription_to_canonical_bytes (i : GenesisInscriptionV1) : Result bytes :=
  let? length := u16_try (zlen (inscription_payload i))
                   (Invalid "genesis inscription length exceeds u16") in
  Ok (GENESIS_INSCRIPTION_VERSION :: be_bytes 2 length ++ inscription_payload i).

Definition inscription_from_canonical_bytes (encoded : bytes) : Result GenesisInscriptionV1 :=
  if zlen encoded <? 3 then
    Err (Malformed "genesis inscription is shorter than its canonical prefix")
  else
    let? version := expect (encoded !! 0%nat) in
    if negb (version =? GENESIS_INSCRIPTION_VERSION) then
      Err (Invalid ("unsupported genesis inscription version: " +:+ dec version))
    else
      let declared := be_val (slice encoded 1 3) in
      if MAX_GENESIS_INSCRIPTION_BYTES <? declared then
        Err (Invalid ("genesis inscription payload exceeds " +:+ dec MAX_GENESIS_INSCRIPTION_BYTES
                      +:+ " bytes"))
      else
        let actual := saturating_sub (zlen encoded) 3 in
        if negb (actual =? declared) then
          Err (Malformed ("genesis inscription length mismatch: declared " +:+ dec declared
                          +:+ ", actual " +:+ dec actual))
        else inscription_new (drop 3 encoded).

(** ** The identity envelope *)

Record MainnetGenesisIdentityV1 : Type := {
  id_header_bytes : bytes;
  id_inscription : GenesisInscriptionV1;
}.

(** [take] and [read_u16_be] with the cursor threaded *)
Definition id_take (data : bytes) (cursor length : Z) : Result (bytes * Z) :=
  let? end_ := ok_or (checked_add 64 cursor length)
                 (Malformed "Mainnet genesis identity length overflow") in
  if zlen data <? end_ then
    Err (Malformed ("unexpected end of Mainnet genesis identity at byte " +:+ dec cursor))
  else Ok (slice data cursor end_, end_).
Definition id_read_u16_be (data : bytes) (cursor : Z) : Result (Z * Z) :=
  let? (value, cursor) := id_take data cursor 2 in
  Ok (be_val value, cursor).
Definition id_take_byte (data : bytes) (cursor : Z) : Result (Z * Z) :=
  let? (value, cursor) := id_take data cursor 1 in
  let? b := expect (head value) in
  Ok (b, cursor).

Definition validate_exact_mainnet_inscription (i : GenesisInscriptionV1) : Result unit :=
  if negb (bool_decide (inscription_payload i = str_bytes GENESIS_MESSAGE)) then
    Err (Invalid "Mainnet genesis inscription does not match the configured consensus bytes")
  else Ok tt.

Section genesis.
Context `{HB : Blake2b256}.

Definition inscription_commitment (i : GenesisInscriptionV1) : Result Hash256 :=
  let? b := inscription_to_canonical_bytes i in
  Ok (blake2b_256_tagged TAG_GENESIS_INSCRIPTION b).

Definition empty_root : Hash256 := blake2b_256_tagged TAG_PMMR_EMPTY [].

Definition validate_mainnet_header (header_bytes : bytes) : Result unit :=
  if negb (zlen header_bytes =? BLOCK_HEADER_BYTES) then
    Err (Malformed ("Mainnet genesis header must be " +:+ dec BLOCK_HEADER_BYTES +:+ " bytes"))
  else
    let? header := from_bytes BlockHeader header_bytes in
    if bool_decide (height header ≠ GENESIS) || bool_decide (prev_hash header ≠ Hash256_ZERO) then
      Err (Invalid "Mainnet genesis identity requires a height-zero header with zero previous hash")
    else if bool_decide (output_root header ≠ empty_root)
            || bool_decide (kernel_root header ≠ empty_root)
            || bool_decide (rangeproof_root header ≠ empty_root) then
      Err (Invalid "Mainnet genesis identity requires empty output, kernel, and range-proof roots")
    else Ok tt.

Definition identity_new (header_bytes : bytes) (i : GenesisInscriptionV1)
  : Result MainnetGenesisIdentityV1 :=
  let? _ := validate_mainnet_header header_bytes in
  let? _ := validate_exact_mainnet_inscription i in
  Ok {| id_header_bytes := header_bytes; id_inscription := i |}.

Definition identity_to_canonical_bytes (id : MainnetGenesisIdentityV1) : Result bytes :=
  let? inscription_bytes := inscription_to_canonical_bytes (id_inscription id) in
  let? header_length := u16_try (zlen (id_header_bytes id))
                          (Internal "Mainnet genesis header length exceeds u16") in
  let? body_length := u16_try (zlen EMPTY_BODY_BYTES)
                        (Internal "Mainnet genesis body length exceeds u16") in
  let? inscription_length := u16_try (zlen inscription_bytes)
                               (Internal "Mainnet genesis inscription length exceeds u16") in
  let? commitment := inscription_commitment (id_inscription id) in
  Ok ([MAINNET_GENESIS_IDENTITY_VERSION] ++ be_bytes 2 header_length ++ id_header_bytes id
      ++ be_bytes 2 body_length ++ EMPTY_BODY_BYTES ++ [MAINNET_INSCRIPTION_COUNT]
      ++ be_bytes 2 inscription_length ++ inscription_bytes ++ hash_bytes commitment)%list.

Definition identity_from_canonical_bytes (encoded : bytes) : Result MainnetGenesisIdentityV1 :=
  let? (version, cursor) := id_take_byte encoded 0 in
  if negb (version =? MAINNET_GENESIS_IDENTITY_VERSION) then
    Err (Invalid ("unsupported Mainnet genesis identity version: " +:+ dec version))
  else
  let? (header_length, cursor) := id_read_u16_be encoded cursor in
  if negb (header_length =? BLOCK_HEADER_BYTES) then
    Err (Malformed ("Mainnet genesis header length must be " +:+ dec BLOCK_HEADER_BYTES
                    +:+ ", got " +:+ dec header_length))
  else
  let? (header_bytes, cursor) := id_take encoded cursor header_length in
  let? _ := validate_mainnet_header header_bytes in
  let? (body_length, cursor) := id_read_u16_be encoded cursor in
  if negb (body_length =? zlen EMPTY_BODY_BYTES) then
    Err (Malformed ("Mainnet genesis empty body length must be " +:+ dec (zlen EMPTY_BODY_BYTES)
                    +:+ ", got " +:+ dec body_length))
  else
  let? (body, cursor) := id_take encoded cursor body_length in
  if negb (is_empty_mainnet_economic_body body) then
    Err (Invalid "Mainnet genesis body must contain zero inputs, outputs, kernels, and transactions")
  else
  let? (inscription_count, cursor) := id_take_byte encoded cursor in
  if negb (inscription_count =? MAINNET_INSCRIPTION_COUNT) then
    Err (Invalid ("Mainnet genesis requires exactly one inscription, got "
                  +:+ dec inscription_count))
  else
  let? (inscription_length, cursor) := id_read_u16_be encoded cursor in
  let? (inscription_bytes, cursor) := id_take encoded cursor inscription_length in
  let? inscription := inscription_from_canonical_bytes inscription_bytes in
  let? _ := validate_exact_mainnet_inscription inscription in
  let? (stored_commitment, cursor) := id_take encoded cursor 32 in
  let? computed_commitment := inscription_commitment inscription in
  if negb (bool_decide (stored_commitment = hash_bytes computed_commitment)) then
    Err (Invalid "Mainnet genesis inscription commitment mismatch")
  else if negb (cursor =? zlen encoded) then
    Err (Malformed ("trailing Mainnet genesis identity bytes: "
                    +:+ dec (saturating_sub (zlen encoded) cursor)))
  else Ok {| id_header_bytes := header_bytes; id_inscription := inscription |}.

Definition identity_hash (id : MainnetGenesisIdentityV1) : Result Hash256 :=
  let? b := identity_to_canonical_bytes id in
  Ok (blake2b_256_tagged TAG_MAINNET_GENESIS_IDENTITY b).

Definition validate_mainnet_genesis_identity (canonical_bytes : bytes)
  : Result MainnetGenesisIdentityV1 :=
  identity_from_canonical_bytes canonical_bytes.

Definition canonical_genesis_inscription (network_magic : Z) (canonical_bytes : bytes)
  : Result (option GenesisInscriptionV1) :=
  if network_magic =? NETWORK_MAGIC_MAINNET then
    let? id := identity_from_canonical_bytes canonical_bytes in
    Ok (Some (id_inscription id))
  else if (network_magic =? NETWORK_MAGIC_TESTNET) || (network_magic =? NETWORK_MAGIC_REGTEST) then
    Ok None
  else Err (Invalid ("unknown network magic for genesis inscription: 0x" +:+ hex_u32 network_magic)).

(** ** The identifier of a header *)

Definition canonical_header_identifier (network_magic : Z) (header_bytes : bytes)
  : Result Hash256 :=
  let? header := from_bytes BlockHeader header_bytes in
  if (network_magic =? NETWORK_MAGIC_MAINNET) && bool_decide (height header = GENESIS) then
    let? id := identity_new header_bytes inscription_mainnet in
    identity_hash id
  else if (network_magic =? NETWORK_MAGIC_MAINNET) || (network_magic =? NETWORK_MAGIC_TESTNET)
          || (network_magic =? NETWORK_MAGIC_REGTEST) then
    Ok (blake2b_256 header_bytes)
  else Err (Invalid ("unknown network magic for block identifier: 0x" +:+ hex_u32 network_magic)).

(** ** Construction *)

Record CanonicalGenesis : Type := {
  cg_block : option Block;
  cg_header_bytes : bytes;
  cg_block_bytes : bytes;
  cg_hash : Hash256;
}.

Definition canonical_header (network_magic : Z) (anchor : AsertAnchor)
    (output_root kernel_root rangeproof_root : Hash256) : BlockHeader :=
  let '(nonce, pow_digest) :=
    (if network_magic =? NETWORK_MAGIC_MAINNET
     then (GENESIS_NONCE_MAINNET, GENESIS_POW_DIGEST_MAINNET)
     else if network_magic =? NETWORK_MAGIC_REGTEST
     then (GENESIS_NONCE_REGTEST, GENESIS_POW_DIGEST_REGTEST)
     else (0, replicate 32 0)) in
  {| version := BLOCK_VERSION_LEGACY; prev_hash := Hash256_ZERO; height := GENESIS;
     timestamp := anchor_timestamp anchor; output_root := output_root;
     kernel_root := kernel_root; rangeproof_root := rangeproof_root;
     total_kernel_offset := replicate 32 0;
     target := {| compact_bits := target_to_compact (anchor_target anchor) |};
     total_difficulty := target_to_difficulty (anchor_target anchor);
     pow := {| nonce := nonce; randomx_proof := {| hash_bytes := pow_digest |} |} |}.

Definition construct_mainnet_identity : Result CanonicalGenesis :=
  let? anchor := genesis_anchor NETWORK_MAGIC_MAINNET in
  let header := canonical_header NETWORK_MAGIC_MAINNET anchor empty_root empty_root empty_root in
  let? header_bytes := map_err (λ e, Internal ("genesis header serialization: " +:+ display_error e))
                         (to_bytes header) in
  let? identity := identity_new header_bytes inscription_mainnet in
  let? block_bytes := identity_to_canonical_bytes identity in
  let? _ := validate_mainnet_genesis_identity block_bytes in
  let? hash := identity_hash identity in
  Ok {| cg_block := None; cg_header_bytes := header_bytes; cg_block_bytes := block_bytes;
        cg_hash := hash |}.

Section construct.
Context `{HM : HmacSha256} `{HC : Secp256k1} `{HZ : !ZkpBackend} `{HP : ZkpProver}.

Definition build_genesis_coinbase (chain_id : bytes) : Result CoinbaseTransaction :=
  let blinding_hash := blake2b_256_tagged TAG_GENESIS_BLINDING [] in
  let? blinding := map_err (λ e, Internal ("genesis blinding: " +:+ display_error e))
                     (bf_from_bytes (hash_bytes blinding_hash)) in
  let nonce := hash_bytes (blake2b_256_tagged TAG_GENESIS_BLINDING (str_bytes "bulletproof-nonce")) in
  let? explicit_value := block_reward GENESIS in
  let explicit_value := noms explicit_value in
  let? commitment := commit explicit_value blinding in
  let? (proof, proof_commitment) :=
    map_err (λ e, Internal ("genesis range proof failed: " +:+ display_error e))
      (range_proof_prove_bytes_with_nonce explicit_value blinding nonce) in
  if negb (bool_decide (proof_commitment = commit_bytes commitment)) then
    Err (Internal "genesis range proof commitment mismatch")
  else
    let? excess := commit 0 blinding in
    let message := blake2b_256_tagged TAG_KERNEL_MSG_COINBASE
                     (KERNEL_FEAT_COINBASE :: le_bytes 8 explicit_value) in
    let? key := map_err (λ e, Internal ("genesis blinding as key: " +:+ display_error e))
                  (secret_key_from_bytes (bf_bytes blinding)) in
    let? signature := map_err (λ e, Internal ("genesis signing failed: " +:+ display_error e))
                        (schnorr_sign key (hash_bytes message) chain_id) in
    Ok {| output := {| out_commitment := commitment; proof := proof |};
          kernel := {| cb_features := KERNEL_FEAT_COINBASE; explicit_value := explicit_value;
                       cb_excess := excess; cb_excess_signature := signature_to_bytes signature |};
          cb_offset := replicate 32 0 |}.

Definition build_legacy_canonical_genesis (network_magic : Z) (chain_id : bytes)
  : Result CanonicalGenesis :=
  let? anchor := genesis_anchor network_magic in
  let signing_context :=
    if network_magic =? NETWORK_MAGIC_REGTEST then REGTEST_GENESIS_SIGNING_CONTEXT else chain_id in
  let? coinbase := build_genesis_coinbase signing_context in
  let? (output_root, kernel_root, rangeproof_root) := compute_block_pmmr_roots GENESIS coinbase [] in
  let header := canonical_header network_magic anchor output_root kernel_root rangeproof_root in
  let block := {| header := header; coinbase := coinbase; transactions := [] |} in
  let? header_bytes := map_err (λ e, Internal ("genesis header serialization: " +:+ display_error e))
                         (to_bytes header) in
  let? block_bytes := map_err (λ e, Internal ("genesis block serialization: " +:+ display_error e))
                        (to_bytes block) in
  Ok {| cg_block := Some block; cg_header_bytes := header_bytes; cg_block_bytes := block_bytes;
        cg_hash := blake2b_256 header_bytes |}.

Definition build_canonical_genesis (network_magic : Z) (chain_id : bytes)
  : Result CanonicalGenesis :=
  if network_magic =? NETWORK_MAGIC_MAINNET then construct_mainnet_identity
  else if (network_magic =? NETWORK_MAGIC_TESTNET) || (network_magic =? NETWORK_MAGIC_REGTEST) then
    build_legacy_canonical_genesis network_magic chain_id
  else Err (Invalid ("unknown network magic for canonical genesis: 0x" +:+ hex_u32 network_magic)).
End construct.
End genesis.
