(* ===== verification/Utxo.v ===== *)
(** * Records of the store ([crates/dom-store/src/utxo.rs, peer_store.rs, block_store.rs])

    Unspent outputs with their maturity rule, peer records, and block hashes: the
    values the databases of [Store.v] hold, with their byte formats. *)

From Stdlib Require Import ZArith Lia.
From stdpp Require Import base list strings.
From S2P Require Import Prelude CoreError Core CryptoHash.

(** ** Unspent outputs *)

Definition utxo_record_has_canonical_prefix (length coinbase_flag : Z) : bool :=
  (9 <=? length) && ((coinbase_flag =? 0) || (coinbase_flag =? 1)).

Definition coinbase_is_mature_at (is_coinbase : bool)
    (block_height current_height maturity : Z) : bool :=
  negb is_coinbase || (maturity <=? saturating_sub current_height block_height).

Record UtxoEntry : Type := {
  block_height : Z;
  is_coinbase : bool;
  utxo_proof : bytes;
}.

#[export] Instance UtxoEntry_eq_dec : EqDecision UtxoEntry.
Proof. solve_decision. Defined.

Definition utxo_to_bytes (e : UtxoEntry) : bytes :=
  le_bytes 8 (block_height e) ++ [if is_coinbase e then 1 else 0] ++ utxo_proof e.

(** The [unreachable!] arm is the panic. *)
Definition utxo_from_bytes (b : bytes) : Result UtxoEntry :=
  if zlen b <? 9 then Err (Malformed "utxo entry too short")
  else
    let? flag := expect (b !! 8%nat) in
    if negb (utxo_record_has_canonical_prefix (zlen b) flag) then
      Err (Malformed "utxo entry has invalid coinbase flag")
    else
      let? coinbase := (if flag =? 0 then Ok false else if flag =? 1 then Ok true else Panic) in
      Ok {| block_height := le_val (slice b 0 8); is_coinbase := coinbase;
            utxo_proof := drop 9 b |}.

Definition is_mature_for (e : UtxoEntry) (current_height maturity : Z) : bool :=
  coinbase_is_mature_at (is_coinbase e) (block_height e) current_height maturity.

Definition is_mature (e : UtxoEntry) (current_height : Z) : bool :=
  is_mature_for e current_height COINBASE_MATURITY.

Definition validate_input_with_maturity (e : UtxoEntry) (current_height : BlockHeight)
    (maturity : Z) : Result unit :=
  if negb (is_mature_for e (height_val current_height) maturity) then
    let mature_at := saturating_add 64 (block_height e) maturity in
    Err (TemporarilyInvalid ("coinbase output not mature until height " +:+ dec mature_at)%string)
  else Ok tt.

Definition validate_input (e : UtxoEntry) (current_height : BlockHeight) : Result unit :=
  validate_input_with_maturity e current_height COINBASE_MATURITY.

(** ** Peers *)

Definition peer_record_has_canonical_length (length : Z) : bool := length =? 12.

Record PeerAddr : Type := {
  addr : string;
  last_seen : Z;
  failures : Z;
}.

Definition peer_to_bytes (p : PeerAddr) : bytes :=
  le_bytes 8 (last_seen p) ++ le_bytes 4 (failures p).

Definition peer_from_bytes (addr : string) (b : bytes) : Result PeerAddr :=
  if negb (peer_record_has_canonical_length (zlen b)) then
    Err (Malformed "peer entry has invalid length")
  else Ok {| addr := addr; last_seen := le_val (slice b 0 8); failures := le_val (slice b 8 12) |}.

Definition is_connectable (p : PeerAddr) : bool := failures p <? 10.

(** ** Block hashes *)

Definition store_compute_block_hash `{HB : Blake2b256} (header_bytes : bytes) : Hash256 :=
  {| hash_bytes := blake2b header_bytes |}.

(** ** Laws *)

Definition utxo_ok (e : UtxoEntry) : Prop := u64_ok (block_height e) ∧ bytes_ok (utxo_proof e).

Lemma slice_0_app {A} (l1 l2 : list A) n : zlen l1 = n → slice (l1 ++ l2) 0 n = l1.
Proof.
  intros H. unfold slice. rewrite Z.sub_0_r, drop_0. unfold zlen in H.
  rewrite <- H, Nat2Z.id. apply take_app_length.
Qed.

Lemma utxo_roundtrip e : utxo_ok e → utxo_from_bytes (utxo_to_bytes e) = Ok e.
Proof.
  intros [Hh Hp]. unfold utxo_from_bytes, utxo_to_bytes, utxo_record_has_canonical_prefix.
  pose proof (zlen_nonneg (utxo_proof e)).
  rewrite !zlen_app, zlen_le_bytes, zlen_cons, zlen_nil. cbn [Z.of_nat].
  rewrite lookup_app_r by (rewrite length_le_bytes; lia). rewrite length_le_bytes.
  rewrite slice_0_app by (rewrite zlen_le_bytes; done).
  rewrite le_val_le_bytes_id by done.
  rewrite drop_app_ge by (rewrite length_le_bytes; lia). rewrite length_le_bytes. simpl.
  zbool; destruct e as [h [] p]; simpl in *; done || lia.
Qed.

Lemma utxo_from_bytes_Ok b e :
  bytes_ok b → utxo_from_bytes b = Ok e → utxo_ok e ∧ utxo_to_bytes e = b.
Proof.
  intros Hb H.
  assert (∃ f, b !! 8%nat = Some f ∧ (f = 0 ∨ f = 1) ∧ 9 ≤ zlen b ∧
    e = {| block_height := le_val (slice b 0 8); is_coinbase := f =? 1; utxo_proof := drop 9 b |})
    as (a & Ha & Hf & Hl & ->).
  { unfold utxo_from_bytes in H. res_inv; bool_inv; subst; eauto 6. }
  assert (Hlen : length (take 8 b) = 8%nat) by (rewrite length_take; unfold zlen in *; lia).
  assert (Hs : slice b 0 8 = take 8 b) by (unfold slice; simpl; by rewrite drop_0).
  assert (Hok : bytes_ok (take 8 b)) by (by apply Forall_take). split.
  - split; simpl; [|by apply Forall_drop]. rewrite Hs. unfold in_width.
    pose proof (le_val_bound _ Hok) as Hv. unfold zlen in Hv. rewrite Hlen in Hv. exact Hv.
  - unfold utxo_to_bytes. cbn [block_height is_coinbase utxo_proof]. rewrite Hs.
    pose proof (le_bytes_le_val _ Hok) as Hle. rewrite Hlen in Hle. rewrite Hle.
    rewrite <- (take_drop 8 b) at 3. f_equal.
    rewrite (drop_S b a 8) by done. simpl. f_equal.
    by destruct Hf as [-> | ->].
Qed.

Lemma utxo_from_bytes_no_panic b : utxo_from_bytes b ≠ Panic.
Proof.
  unfold utxo_from_bytes, utxo_record_has_canonical_prefix.
  destruct (Z.ltb_spec (zlen b) 9); [done|].
  destruct (b !! 8%nat) as [f|] eqn:Hf; [simpl|apply lookup_ge_None in Hf; unfold zlen in *; lia].
  zbool; done.
Qed.

Lemma utxo_to_bytes_inj e e' :
  utxo_ok e → utxo_ok e' → utxo_to_bytes e = utxo_to_bytes e' → e = e'.
Proof.
  intros H H' He. pose proof (utxo_roundtrip e H) as H1. pose proof (utxo_roundtrip e' H').
  rewrite He in H1. congruence.
Qed.
