(* ===== verification/Store.v ===== *)
(** * The store ([crates/dom-store/src/db.rs])

    [DomStore] keeps nine named databases in one LMDB environment.  LMDB is a
    third-party library; the class [Lmdb] says which of its calls fail during an
    operation and how its errors print, and the calls themselves have LMDB's documented
    meaning: a read or write transaction works on byte keys, [NO_OVERWRITE] refuses a
    present key, deleting an absent key is [NotFound], and a write transaction that is not
    committed leaves the environment as it was.  So an operation that writes returns the
    new environment, or an error with the environment unchanged. *)

From Stdlib Require Import ZArith Lia.
From stdpp Require Import base list strings gmap.
From S2P Require Import Prelude ByteOrder CoreError Core CryptoHash Utxo.

(** ** LMDB *)

Inductive Db : Type :=
| DB_BLOCKS | DB_BLOCK_BODIES | DB_BLOCK_HEIGHT | DB_CHAIN_TIP | DB_UTXOS
| DB_KERNEL_INDEX | DB_PEER_ADDRS | DB_METADATA | DB_TX_IDENTITY.

Record DomStore : Type := {
  db_blocks : gmap bytes bytes;
  db_block_bodies : gmap bytes bytes;
  db_height : gmap bytes bytes;
  db_tip : gmap bytes bytes;
  db_utxos : gmap bytes bytes;
  db_kernels : gmap bytes bytes;
  db_peers : gmap bytes bytes;
  db_metadata : gmap bytes bytes;
  db_tx_identity : gmap bytes bytes;
  map_size : Z;
}.

Definition table (d : Db) (s : DomStore) : gmap bytes bytes :=
  match d with
  | DB_BLOCKS => db_blocks s
  | DB_BLOCK_BODIES => db_block_bodies s
  | DB_BLOCK_HEIGHT => db_height s
  | DB_CHAIN_TIP => db_tip s
  | DB_UTXOS => db_utxos s
  | DB_KERNEL_INDEX => db_kernels s
  | DB_PEER_ADDRS => db_peers s
  | DB_METADATA => db_metadata s
  | DB_TX_IDENTITY => db_tx_identity s
  end.

Definition set_table (d : Db) (m : gmap bytes bytes) (s : DomStore) : DomStore :=
  let pick (d' : Db) (old : gmap bytes bytes) : gmap bytes bytes :=
    match d, d' with
    | DB_BLOCKS, DB_BLOCKS | DB_BLOCK_BODIES, DB_BLOCK_BODIES
    | DB_BLOCK_HEIGHT, DB_BLOCK_HEIGHT | DB_CHAIN_TIP, DB_CHAIN_TIP | DB_UTXOS, DB_UTXOS
    | DB_KERNEL_INDEX, DB_KERNEL_INDEX | DB_PEER_ADDRS, DB_PEER_ADDRS
    | DB_METADATA, DB_METADATA | DB_TX_IDENTITY, DB_TX_IDENTITY => m
    | _, _ => old
    end in
  {| db_blocks := pick DB_BLOCKS (db_blocks s);
     db_block_bodies := pick DB_BLOCK_BODIES (db_block_bodies s);
     db_height := pick DB_BLOCK_HEIGHT (db_height s);
     db_tip := pick DB_CHAIN_TIP (db_tip s);
     db_utxos := pick DB_UTXOS (db_utxos s);
     db_kernels := pick DB_KERNEL_INDEX (db_kernels s);
     db_peers := pick DB_PEER_ADDRS (db_peers s);
     db_metadata := pick DB_METADATA (db_metadata s);
     db_tx_identity := pick DB_TX_IDENTITY (db_tx_identity s);
     map_size := map_size s |}.

(** The calls an operation makes, and the failures of the environment *)
Inductive LmdbCall : Type :=
| C_begin_ro | C_begin_rw | C_commit
| C_get (d : Db) (key : bytes)
| C_put (d : Db) (key : bytes)
| C_del (d : Db) (key : bytes)
| C_cursor (d : Db)
| C_cursor_item (d : Db) (key : bytes)
| C_clear (d : Db).

Inductive LmdbFault : Type := MapFull | OtherFault (code : Z).
Inductive LmdbError : Type := NotFound | KeyExist | Fault (f : LmdbFault).

Class Lmdb : Type := {
  lmdb_fault : LmdbCall → option LmdbFault;
  lmdb_display : LmdbError → string;
}.

Section store.
Context `{HL : Lmdb}.
Local Open Scope string_scope.
Local Open Scope Z_scope.

Definition faulty {A} (c : LmdbCall) (m : result LmdbError A) : result LmdbError A :=
  match lmdb_fault c with Some f => Err (Fault f) | None => m end.

Definition mdb_get (d : Db) (key : bytes) (s : DomStore) : result LmdbError bytes :=
  faulty (C_get d key) (match table d s !! key with Some v => Ok v | None => Err NotFound end).

Definition mdb_put (d : Db) (key value : bytes) (s : DomStore) : result LmdbError DomStore :=
  faulty (C_put d key) (Ok (set_table d (<[key := value]> (table d s)) s)).

Definition mdb_put_new (d : Db) (key value : bytes) (s : DomStore) : result LmdbError DomStore :=
  faulty (C_put d key)
    (match table d s !! key with
     | Some _ => Err KeyExist
     | None => Ok (set_table d (<[key := value]> (table d s)) s)
     end).

Definition mdb_del (d : Db) (key : bytes) (s : DomStore) : result LmdbError DomStore :=
  faulty (C_del d key)
    (match table d s !! key with
     | Some _ => Ok (set_table d (delete key (table d s)) s)
     | None => Err NotFound
     end).

(** [.map_err(|e| ..)] into the error type of the node *)
Definition lift_lmdb {A} (f : LmdbError → DomError) (m : result LmdbError A) : Result A :=
  match m with Ok a => Ok a | Err e => Err (f e) | Panic => Panic end.

Definition internal (what : string) (e : LmdbError) : DomError :=
  Internal (what +:+ ": " +:+ lmdb_display e).

Definition begin_ro : Result unit := lift_lmdb (internal "ro txn") (faulty C_begin_ro (Ok tt)).
Definition begin_rw : Result unit := lift_lmdb (internal "rw txn") (faulty C_begin_rw (Ok tt)).
Definition commit_txn (what : string) : Result unit :=
  lift_lmdb (internal what) (faulty C_commit (Ok tt)).

(** [match txn.del(..) { Ok(()) | Err(NotFound) => {} Err(e) => return Err(..) }] *)
Definition del_if_present (what : string) (d : Db) (key : bytes) (s : DomStore)
  : Result DomStore :=
  match mdb_del d key s with
  | Ok s' => Ok s'
  | Err NotFound => Ok s
  | Err e => Err (internal what e)
  | Panic => Panic
  end.

(** ** Reads *)

Definition METADATA_UTXO_SET_DIGEST_KEY : bytes := str_bytes "canonical_utxo_digest_v1".
Definition TX_IDENTITY_RETENTION_BLOCKS : Z := 100000.
Definition LMDB_MAP_FULL_SENTINEL : string := "LMDB_MAP_FULL".
Definition TIP_KEY : bytes := str_bytes "tip".

Definition get_raw (what : string) (d : Db) (key : bytes) (s : DomStore)
  : Result (option bytes) :=
  let? _ := begin_ro in
  match mdb_get d key s with
  | Ok v => Ok (Some v)
  | Err NotFound => Ok None
  | Err e => Err (internal what e)
  | Panic => Panic
  end.

(** A 32-byte value, or the given corruption error *)
Definition get_hash_value (what corrupt : string) (d : Db) (key : bytes) (s : DomStore)
  : Result (option bytes) :=
  let? r := get_raw what d key s in
  match r with
  | Some v => if zlen v =? 32 then Ok (Some v) else Err (Internal corrupt)
  | None => Ok None
  end.

Definition get_metadata (s : DomStore) (key : bytes) : Result (option bytes) :=
  get_raw "get metadata" DB_METADATA key s.
Definition get_chain_tip (s : DomStore) : Result (option bytes) :=
  get_hash_value "get tip" "corrupt chain tip" DB_CHAIN_TIP TIP_KEY s.
Definition get_block_header (s : DomStore) (hash : bytes) : Result (option bytes) :=
  get_raw "get block" DB_BLOCKS hash s.
Definition get_hash_at_height (s : DomStore) (height : Z) : Result (option bytes) :=
  get_hash_value "get height" "corrupt height index" DB_BLOCK_HEIGHT (le_bytes 8 height) s.
Definition get_block_body (s : DomStore) (hash : bytes) : Result (option bytes) :=
  get_raw "get block body" DB_BLOCK_BODIES hash s.
Definition get_kernel_block (s : DomStore) (excess : bytes) : Result (option bytes) :=
  get_hash_value "get kernel" "corrupt kernel index" DB_KERNEL_INDEX excess s.

Definition get_utxo (s : DomStore) (commitment : bytes) : Result (option UtxoEntry) :=
  let? r := get_raw "get utxo" DB_UTXOS commitment s in
  match r with
  | Some v => let? e := utxo_from_bytes v in Ok (Some e)
  | None => Ok None
  end.

Definition get_tx_identity (s : DomStore) (tx_hash : bytes) : Result (option (bytes * Z)) :=
  let? r := get_raw "get tx_identity" DB_TX_IDENTITY tx_hash s in
  match r with
  | Some v =>
      if zlen v =? 41 then Ok (Some (take 33 v, le_val (slice v 33 41)))
      else Err (Internal "corrupt tx_identity entry")
  | None => Ok None
  end.

(** A cursor pass over a whole database, in key order *)
Definition read_item (d : Db) (what : string) (acc : gmap bytes bytes) (kv : bytes * bytes)
  : Result (gmap bytes bytes) :=
  let? kv := lift_lmdb (internal ("read " +:+ what +:+ " cursor"))
               (faulty (C_cursor_item d kv.1) (Ok kv)) in
  Ok (<[kv.1 := kv.2]> acc).
Definition open_cursor (d : Db) (what : string) (s : DomStore) : Result (list (bytes * bytes)) :=
  let? _ := begin_ro in
  lift_lmdb (internal ("open " +:+ what +:+ " cursor")) (faulty (C_cursor d) (Ok (ascending (table d s)))).

Definition read_all_utxos_raw (s : DomStore) : Result (gmap bytes bytes) :=
  let? items := open_cursor DB_UTXOS "utxo" s in
  try_fold (read_item DB_UTXOS "utxo") ∅ items.
Definition read_all_kernel_index_raw (s : DomStore) : Result (gmap bytes bytes) :=
  let? items := open_cursor DB_KERNEL_INDEX "kernel" s in
  try_fold (read_item DB_KERNEL_INDEX "kernel") ∅ items.
Definition read_header_item (acc : gmap bytes bytes) (kv : bytes * bytes)
  : Result (gmap bytes bytes) :=
  let? kv := lift_lmdb (internal "read block cursor")
               (faulty (C_cursor_item DB_BLOCKS kv.1) (Ok kv)) in
  if negb (zlen kv.1 =? 32) then Err (Internal "corrupt block hash key")
  else Ok (<[kv.1 := kv.2]> acc).
Definition read_all_block_headers_raw (s : DomStore) : Result (gmap bytes bytes) :=
  let? items := open_cursor DB_BLOCKS "block" s in
  try_fold read_header_item ∅ items.

(** ** Writes *)

Definition put_metadata (s : DomStore) (key value : bytes) : Result DomStore :=
  let? _ := begin_rw in
  let? s := lift_lmdb (internal "put metadata") (mdb_put DB_METADATA key value s) in
  let? _ := commit_txn "commit metadata" in
  Ok s.

Definition delete_metadata (s : DomStore) (key : bytes) : Result DomStore :=
  let? _ := begin_rw in
  let? s := del_if_present "delete metadata" DB_METADATA key s in
  let? _ := commit_txn "commit metadata delete" in
  Ok s.

(** Entries that a cursor reads without error and that are past their retention *)
Definition tx_identity_expired (current_height : Z) (kv : bytes * bytes) : bool :=
  match lmdb_fault (C_cursor_item DB_TX_IDENTITY kv.1) with
  | Some _ => false
  | None =>
      if negb (zlen kv.1 =? 32) || negb (zlen kv.2 =? 41) then false
      else saturating_add 64 (le_val (slice kv.2 33 41)) TX_IDENTITY_RETENTION_BLOCKS
           <? current_height
  end.

Definition put_tx_identity (s : DomStore) (tx_hash excess : bytes) (current_height : Z)
  : Result DomStore :=
  let? _ := begin_rw in
  let? items := lift_lmdb (internal "tx_identity cursor")
                  (faulty (C_cursor DB_TX_IDENTITY) (Ok (ascending (db_tx_identity s)))) in
  let expired := (filter (tx_identity_expired current_height) items).*1 in
  let? s := try_fold (λ s key, del_if_present "tx_identity prune" DB_TX_IDENTITY key s) s expired in
  let? s := lift_lmdb (internal "put tx_identity")
              (mdb_put DB_TX_IDENTITY tx_hash (excess ++ le_bytes 8 current_height) s) in
  let? _ := commit_txn "commit tx_identity" in
  Ok s.

Definition ensure_kernel_index (s : DomStore) (kh : bytes * bytes) : Result DomStore :=
  let '(excess, hash) := kh in
  match mdb_get DB_KERNEL_INDEX excess s with
  | Ok existing =>
      if bool_decide (existing = hash) then Ok s
      else if zlen existing =? 32 then
        Err (Internal ("KERNEL REPLAY DETECTED — excess already indexed to different block: excess="
                       +:+ hex_concat excess +:+ ", existing=" +:+ hex_concat existing
                       +:+ ", new=" +:+ hex_concat hash))
      else Err (Internal "corrupt kernel index")
  | Err NotFound =>
      lift_lmdb (internal "put kernel") (mdb_put_new DB_KERNEL_INDEX excess hash s)
  | Err e => Err (internal "get kernel" e)
  | Panic => Panic
  end.
Definition ensure_kernel_indices (s : DomStore) (kernel_excesses : list (bytes * bytes))
  : Result DomStore :=
  let? _ := begin_rw in
  let? s := try_fold ensure_kernel_index s kernel_excesses in
  let? _ := commit_txn "commit kernel index rebuild" in
  Ok s.

(** [NO_OVERWRITE], with the message for a duplicate *)
Definition put_unique (what duplicate : string) (d : Db) (key value : bytes) (s : DomStore)
  : Result DomStore :=
  lift_lmdb (λ e, match e with
                  | KeyExist => Internal duplicate
                  | other => internal what other
                  end) (mdb_put_new d key value s).

Definition add_utxo (s : DomStore) (cu : bytes * bytes) : Result DomStore :=
  put_unique "put utxo"
    ("UTXO commitment already exists — consensus bug? commitment=" +:+ hex_concat cu.1)
    DB_UTXOS cu.1 cu.2 s.
Definition spend_utxo (s : DomStore) (commitment : bytes) : Result DomStore :=
  lift_lmdb (λ e, match e with
                  | NotFound =>
                      Internal ("spent UTXO not found in canonical store — double-spend or missing input: commitment="
                                +:+ hex_concat commitment)
                  | e => internal "del utxo" e
                  end) (mdb_del DB_UTXOS commitment s).
Definition index_kernel (s : DomStore) (kh : bytes * bytes) : Result DomStore :=
  put_unique "put kernel"
    ("KERNEL REPLAY DETECTED — excess already indexed (DOM-SEC critical): excess="
     +:+ hex_concat kh.1 +:+ ", block=" +:+ hex_concat kh.2)
    DB_KERNEL_INDEX kh.1 kh.2 s.

Definition put_block (what : string) (block_hash header_bytes block_body_bytes : bytes)
    (s : DomStore) : Result DomStore :=
  let? s := put_unique ("put " +:+ what)
              ("block header already exists — connect_block dedup bypassed? hash="
               +:+ hex_concat block_hash) DB_BLOCKS block_hash header_bytes s in
  put_unique ("put " +:+ what +:+ " body")
    ("block body already exists — connect_block dedup bypassed? hash="
     +:+ hex_concat block_hash) DB_BLOCK_BODIES block_hash block_body_bytes s.

Definition commit_block (s : DomStore) (block_hash : bytes) (block_height : Z)
    (header_bytes block_body_bytes : bytes) (new_utxos : list (bytes * bytes))
    (spent_utxos : list bytes) (kernel_excesses : list (bytes * bytes)) : Result DomStore :=
  let? _ := begin_rw in
  let? s := put_block "block" block_hash header_bytes block_body_bytes s in
  let? s := lift_lmdb (internal "put height")
              (mdb_put DB_BLOCK_HEIGHT (le_bytes 8 block_height) block_hash s) in
  let? s := lift_lmdb (internal "put tip") (mdb_put DB_CHAIN_TIP TIP_KEY block_hash s) in
  let? s := try_fold add_utxo s new_utxos in
  let? s := try_fold spend_utxo s spent_utxos in
  let? s := try_fold index_kernel s kernel_excesses in
  let? s := del_if_present "delete stale utxo digest" DB_METADATA
              METADATA_UTXO_SET_DIGEST_KEY s in
  let? _ := lift_lmdb (λ e, match e with
                            | Fault MapFull =>
                                Internal (LMDB_MAP_FULL_SENTINEL +:+ ": map_size=" +:+ dec (map_size s)
                                  +:+ " exhausted while committing block " +:+ hex_concat block_hash
                                  +:+ " at height " +:+ dec block_height)
                            | other => internal "commit block" other
                            end) (faulty C_commit (Ok tt)) in
  Ok s.

Definition store_known_block (s : DomStore) (block_hash header_bytes block_body_bytes : bytes)
  : Result DomStore :=
  let? _ := begin_rw in
  let? s := put_block "known block" block_hash header_bytes block_body_bytes s in
  let? _ := commit_txn "commit known block" in
  Ok s.

Definition reorg_height (s : DomStore) (u : Z * option bytes) : Result DomStore :=
  match u.2 with
  | Some hash => lift_lmdb (internal "put reorg height")
                   (mdb_put DB_BLOCK_HEIGHT (le_bytes 8 u.1) hash s)
  | None => del_if_present "del reorg height" DB_BLOCK_HEIGHT (le_bytes 8 u.1) s
  end.

(** One update of the unspent outputs or of the kernel index *)
Definition reorg_entry (what : string) (d : Db) (s : DomStore) (u : bytes * option bytes)
  : Result DomStore :=
  match u.2 with
  | Some entry =>
      match mdb_get d u.1 s with
      | Ok existing =>
          if bool_decide (existing = entry) then Ok s
          else lift_lmdb (internal ("put reorg " +:+ what +:+ " (rehome)")) (mdb_put d u.1 entry s)
      | Err NotFound => lift_lmdb (internal ("put reorg " +:+ what)) (mdb_put_new d u.1 entry s)
      | Err e => Err (internal ("get reorg " +:+ what) e)
      | Panic => Panic
      end
  | None => del_if_present ("del reorg " +:+ what) d u.1 s
  end.

Definition apply_reorg (s : DomStore) (new_tip_hash : bytes)
    (height_updates : list (Z * option bytes)) (utxo_updates kernel_updates : list (bytes * option bytes))
  : Result DomStore :=
  let? _ := begin_rw in
  let? s := try_fold reorg_height s height_updates in
  let? s := try_fold (reorg_entry "utxo" DB_UTXOS) s utxo_updates in
  let? s := try_fold (reorg_entry "kernel" DB_KERNEL_INDEX) s kernel_updates in
  let? s := lift_lmdb (internal "put reorg tip") (mdb_put DB_CHAIN_TIP TIP_KEY new_tip_hash s) in
  let? s := del_if_present "delete stale utxo digest" DB_METADATA
              METADATA_UTXO_SET_DIGEST_KEY s in
  let? _ := commit_txn "commit reorg" in
  Ok s.

Definition replace_utxo_set (s : DomStore) (utxos : gmap bytes bytes) (digest : bytes)
  : Result DomStore :=
  let? _ := begin_rw in
  let? s := lift_lmdb (internal "clear utxos") (faulty (C_clear DB_UTXOS) (Ok (set_table DB_UTXOS ∅ s))) in
  let? s := try_fold (λ s kv, lift_lmdb (internal "rewrite utxo") (mdb_put_new DB_UTXOS kv.1 kv.2 s))
              s (ascending utxos) in
  let? s := lift_lmdb (internal "put utxo digest")
              (mdb_put DB_METADATA METADATA_UTXO_SET_DIGEST_KEY digest s) in
  let? _ := commit_txn "commit utxo rewrite" in
  Ok s.

Definition persist_utxo_set_digest (s : DomStore) (digest : bytes) : Result DomStore :=
  let? _ := begin_rw in
  let? s := lift_lmdb (internal "put utxo digest")
              (mdb_put DB_METADATA METADATA_UTXO_SET_DIGEST_KEY digest s) in
  let? _ := commit_txn "commit utxo digest" in
  Ok s.

Definition prune_block (s : DomStore) (hash : bytes) : Result DomStore :=
  let? s := del_if_present "delete pruned block" DB_BLOCKS hash s in
  del_if_present "delete pruned block body" DB_BLOCK_BODIES hash s.
(** The set is given by its elements in ascending order. *)
Definition prune_known_blocks (s : DomStore) (prune_hashes : list bytes) : Result DomStore :=
  if bool_decide (prune_hashes = []) then Ok s
  else
    let? _ := begin_rw in
    let? s := try_fold prune_block s prune_hashes in
    let? _ := commit_txn "commit pruned blocks" in
    Ok s.
End store.
