(* ===== verification/StoreLaws.v ===== *)
(** * Laws of the store

    What each write of [Store.v] does when it succeeds, and when it succeeds. *)

From Stdlib Require Import ZArith Lia.
From stdpp Require Import base list strings gmap.
From S2P Require Import Prelude ByteOrder CoreError Core CryptoHash Utxo Store.

(** ** Tables *)

#[export] Instance Db_eq_dec : EqDecision Db.
Proof. solve_decision. Defined.

Lemma table_set d m s : table d (set_table d m s) = m.
Proof. by destruct d. Qed.
Lemma table_set_ne d d' m s : d ≠ d' → table d' (set_table d m s) = table d' s.
Proof. by destruct d, d'. Qed.
Lemma set_table_set d m m' s : set_table d m (set_table d m' s) = set_table d m s.
Proof. by destruct d. Qed.
Lemma set_table_id d s : set_table d (table d s) s = s.
Proof. by destruct d, s. Qed.

(** Removing a list of keys *)
Definition delete_all {A} (ks : list bytes) (m : gmap bytes A) : gmap bytes A :=
  foldr delete m ks.

Lemma delete_all_lookup {A} (ks : list bytes) (m : gmap bytes A) (k : bytes) :
  delete_all ks m !! k = if bool_decide (k ∈ ks) then None else m !! k.
Proof.
  unfold delete_all. case_bool_decide.
  - by apply lookup_foldr_delete.
  - by apply lookup_foldr_delete_not_elem_of.
Qed.

(** Inserting a key before a list of other keys, or with them *)
Lemma list_to_map_cons_union (k v : bytes) (l : list (bytes * bytes)) (m : gmap bytes bytes) :
  k ∉ l.*1 → list_to_map l ∪ <[k := v]> m = list_to_map ((k, v) :: l) ∪ m.
Proof.
  intros Hk. change (list_to_map ((k, v) :: l)) with (<[k := v]> (list_to_map (M := gmap bytes bytes) l)).
  rewrite <- insert_union_l, <- insert_union_r; [done|]. by apply not_elem_of_list_to_map_1.
Qed.

Section laws.
Context `{HL : Lmdb}.

Definition no_fault (c : LmdbCall) : Prop := lmdb_fault c = None.
Definition no_faults : Prop := ∀ c, no_fault c.

Lemma faulty_Ok {A} c (m : result LmdbError A) a : faulty c m = Ok a ↔ no_fault c ∧ m = Ok a.
Proof. unfold faulty, no_fault. destruct (lmdb_fault c); naive_solver. Qed.

Lemma lift_lmdb_Ok {A} f (m : result LmdbError A) a : lift_lmdb f m = Ok a ↔ m = Ok a.
Proof. destruct m; simpl; naive_solver. Qed.

Lemma begin_ro_Ok : begin_ro = Ok tt ↔ no_fault C_begin_ro.
Proof. unfold begin_ro. rewrite lift_lmdb_Ok, faulty_Ok. naive_solver. Qed.
Lemma begin_rw_Ok : begin_rw = Ok tt ↔ no_fault C_begin_rw.
Proof. unfold begin_rw. rewrite lift_lmdb_Ok, faulty_Ok. naive_solver. Qed.
Lemma commit_txn_Ok w : commit_txn w = Ok tt ↔ no_fault C_commit.
Proof. unfold commit_txn. rewrite lift_lmdb_Ok, faulty_Ok. naive_solver. Qed.

Lemma mdb_put_Ok d k v s s' :
  mdb_put d k v s = Ok s' ↔
  no_fault (C_put d k) ∧ s' = set_table d (<[k := v]> (table d s)) s.
Proof. unfold mdb_put. rewrite faulty_Ok. naive_solver. Qed.

Lemma mdb_put_new_Ok d k v s s' :
  mdb_put_new d k v s = Ok s' ↔
  no_fault (C_put d k) ∧ table d s !! k = None ∧ s' = set_table d (<[k := v]> (table d s)) s.
Proof. unfold mdb_put_new. rewrite faulty_Ok. destruct (table d s !! k); naive_solver. Qed.

Lemma put_unique_Ok w dup d k v s s' :
  put_unique w dup d k v s = Ok s' ↔
  no_fault (C_put d k) ∧ table d s !! k = None ∧ s' = set_table d (<[k := v]> (table d s)) s.
Proof. unfold put_unique. by rewrite lift_lmdb_Ok, mdb_put_new_Ok. Qed.

Lemma mdb_del_Ok d k s s' :
  mdb_del d k s = Ok s' ↔
  no_fault (C_del d k) ∧ is_Some (table d s !! k) ∧ s' = set_table d (delete k (table d s)) s.
Proof.
  unfold mdb_del. rewrite faulty_Ok, <- not_eq_None_Some.
  destruct (table d s !! k); naive_solver.
Qed.

(** Deleting a key that may be absent: with no failure of LMDB the key is gone. *)
Lemma del_if_present_Ok w d k s s' :
  del_if_present w d k s = Ok s' ↔
  no_fault (C_del d k) ∧ s' = set_table d (delete k (table d s)) s.
Proof.
  unfold del_if_present, mdb_del, faulty, no_fault.
  destruct (lmdb_fault (C_del d k)); [naive_solver|].
  destruct (table d s !! k) eqn:Hk; [naive_solver|].
  rewrite delete_id, set_table_id by done. naive_solver.
Qed.

(** ** Runs of writes *)

(** A loop of [NO_OVERWRITE] puts into one database *)
Lemma put_all_Ok (f : DomStore → bytes * bytes → Result DomStore) d l s s' :
  (∀ s kv s', f s kv = Ok s' ↔
     no_fault (C_put d kv.1) ∧ table d s !! kv.1 = None ∧
     s' = set_table d (<[kv.1 := kv.2]> (table d s)) s) →
  try_fold f s l = Ok s' ↔
  Forall (λ k, no_fault (C_put d k)) l.*1 ∧ NoDup l.*1 ∧
  (∀ k, k ∈ l.*1 → table d s !! k = None) ∧
  s' = set_table d (list_to_map l ∪ table d s) s.
Proof.
  intros Hf. revert s. induction l as [|[k v] l IH]; intros s; cbn [try_fold fmap list_fmap].
  - rewrite (map_empty_union (table d s) : list_to_map [] ∪ table d s = _), set_table_id. split; [intros [= <-]|naive_solver].
    split_and!; [constructor|constructor|by intros ? ?%not_elem_of_nil|done].
  - rewrite rbind_Ok. setoid_rewrite Hf. setoid_rewrite IH. cbn [fst snd].
    rewrite Forall_cons, NoDup_cons. split.
    + intros (s1 & (Hk & Hfresh & ->) & Hl & Hnd & Hfr & ->).
      rewrite table_set in *. rewrite set_table_set.
      assert (Hkl : k ∉ l.*1).
      { intros Hin. specialize (Hfr k Hin). by rewrite lookup_insert_eq in Hfr. }
      split_and!; [done..| |].
      * intros j [->|Hj]%elem_of_cons; [done|]. specialize (Hfr j Hj).
        by apply lookup_insert_None in Hfr as [? _].
      * f_equal. by apply list_to_map_cons_union.
    + intros ((Hk & Hl) & (Hkl & Hnd) & Hfr & ->). eexists.
      split_and!; [done|apply Hfr; left|reflexivity|done|done| |].
      * intros j Hj. rewrite table_set, lookup_insert_ne by (by intros ->).
        apply Hfr. by right.
      * rewrite table_set, set_table_set. f_equal. symmetry. by apply list_to_map_cons_union.
Qed.

(** A loop of deletions of present keys *)
Lemma spend_all_Ok l s s' :
  try_fold spend_utxo s l = Ok s' ↔
  Forall (λ k, no_fault (C_del DB_UTXOS k)) l ∧ NoDup l ∧
  (∀ k, k ∈ l → is_Some (db_utxos s !! k)) ∧
  s' = set_table DB_UTXOS (delete_all l (db_utxos s)) s.
Proof.
  revert s. induction l as [|k l IH]; intros s; cbn [try_fold].
  - cbn [delete_all foldr]. rewrite (set_table_id DB_UTXOS). split; [intros [= <-]|naive_solver].
    split_and!; [constructor|constructor|by intros ? ?%not_elem_of_nil|done].
  - rewrite rbind_Ok. unfold spend_utxo at 1. setoid_rewrite lift_lmdb_Ok.
    setoid_rewrite mdb_del_Ok. setoid_rewrite IH. rewrite Forall_cons, NoDup_cons.
    assert (Hcomm : ∀ m : gmap bytes bytes, delete_all l (delete k m) = delete k (delete_all l m)).
    { intros m. apply map_eq. intros j. rewrite delete_all_lookup, !lookup_delete, delete_all_lookup.
      repeat case_decide; repeat case_bool_decide; done. }
    split.
    + intros (s1 & (Hk & Hin & ->) & Hl & Hnd & Hp & ->).
      change (db_utxos (set_table DB_UTXOS ?m ?x)) with m in *. cbn [table] in *.
      split_and!; [done|done| |done| |].
      * intros Hkl. destruct (Hp k Hkl) as [? H]. by rewrite lookup_delete_eq in H.
      * intros j [->|Hj]%elem_of_cons; [done|]. destruct (Hp j Hj) as [x Hx].
        apply lookup_delete_Some in Hx as [_ Hx]. eauto.
      * rewrite set_table_set. cbn [delete_all foldr]. fold (delete_all l (db_utxos s)).
        by rewrite <- Hcomm.
    + intros ((Hk & Hl) & (Hkl & Hnd) & Hp & ->). eexists.
      split_and!; [done|apply Hp; left|reflexivity|done|done| |].
      * intros j Hj. cbn. rewrite lookup_delete_ne by (by intros ->). apply Hp. by right.
      * rewrite set_table_set. change (db_utxos (set_table DB_UTXOS ?m ?x)) with m.
        cbn [table]. rewrite Hcomm. done.
Qed.

Lemma add_utxo_Ok s kv s' :
  add_utxo s kv = Ok s' ↔
  no_fault (C_put DB_UTXOS kv.1) ∧ table DB_UTXOS s !! kv.1 = None ∧
  s' = set_table DB_UTXOS (<[kv.1 := kv.2]> (table DB_UTXOS s)) s.
Proof. apply put_unique_Ok. Qed.

Lemma index_kernel_Ok s kv s' :
  index_kernel s kv = Ok s' ↔
  no_fault (C_put DB_KERNEL_INDEX kv.1) ∧ table DB_KERNEL_INDEX s !! kv.1 = None ∧
  s' = set_table DB_KERNEL_INDEX (<[kv.1 := kv.2]> (table DB_KERNEL_INDEX s)) s.
Proof. apply put_unique_Ok. Qed.

(** ** Committing a block *)

(** The environment after a block is committed *)
Definition committed (s : DomStore) (block_hash : bytes) (block_height : Z)
    (header_bytes block_body_bytes : bytes) (new_utxos : list (bytes * bytes))
    (spent_utxos : list bytes) (kernel_excesses : list (bytes * bytes)) : DomStore :=
  {| db_blocks := <[block_hash := header_bytes]> (db_blocks s);
     db_block_bodies := <[block_hash := block_body_bytes]> (db_block_bodies s);
     db_height := <[le_bytes 8 block_height := block_hash]> (db_height s);
     db_tip := <[TIP_KEY := block_hash]> (db_tip s);
     db_utxos := delete_all spent_utxos (list_to_map new_utxos ∪ db_utxos s);
     db_kernels := list_to_map kernel_excesses ∪ db_kernels s;
     db_peers := db_peers s;
     db_metadata := delete METADATA_UTXO_SET_DIGEST_KEY (db_metadata s);
     db_tx_identity := db_tx_identity s;
     map_size := map_size s |}.

(** When the writes of a block do not collide with what is stored *)
Record commit_ready (s : DomStore) (block_hash : bytes) (new_utxos : list (bytes * bytes))
    (spent_utxos : list bytes) (kernel_excesses : list (bytes * bytes)) : Prop := {
  cr_header : db_blocks s !! block_hash = None;
  cr_body : db_block_bodies s !! block_hash = None;
  cr_new_distinct : NoDup new_utxos.*1;
  cr_new_fresh : ∀ c, c ∈ new_utxos.*1 → db_utxos s !! c = None;
  cr_spent_distinct : NoDup spent_utxos;
  cr_spent_present : ∀ c, c ∈ spent_utxos →
    is_Some ((list_to_map new_utxos ∪ db_utxos s : gmap bytes bytes) !! c);
  cr_kernels_distinct : NoDup kernel_excesses.*1;
  cr_kernels_fresh : ∀ k, k ∈ kernel_excesses.*1 → db_kernels s !! k = None;
}.

Lemma put_block_Ok w h hb bb s s' :
  put_block w h hb bb s = Ok s' ↔
  (no_fault (C_put DB_BLOCKS h) ∧ no_fault (C_put DB_BLOCK_BODIES h)) ∧
  db_blocks s !! h = None ∧ db_block_bodies s !! h = None ∧
  s' = set_table DB_BLOCK_BODIES (<[h := bb]> (db_block_bodies s))
         (set_table DB_BLOCKS (<[h := hb]> (db_blocks s)) s).
Proof.
  unfold put_block. rewrite rbind_Ok. setoid_rewrite put_unique_Ok. split.
  - intros (s1 & (? & ? & ->) & ? & ? & ->). done.
  - intros ((? & ?) & ? & ? & ->). eexists. done.
Qed.

Lemma commit_block_Ok s h ht hb bb new spent kers s' :
  commit_block s h ht hb bb new spent kers = Ok s' →
  commit_ready s h new spent kers ∧ s' = committed s h ht hb bb new spent kers.
Proof.
  unfold commit_block. intros H. res_inv.
  apply put_block_Ok in Hm0 as (_ & H1 & H2 & ->).
  apply lift_lmdb_Ok, mdb_put_Ok in Hm1 as [_ ->].
  apply lift_lmdb_Ok, mdb_put_Ok in Hm2 as [_ ->].
  apply (put_all_Ok _ DB_UTXOS _ _ _ add_utxo_Ok) in Hm3 as (_ & H3 & H4 & ->).
  apply spend_all_Ok in Hm4 as (_ & H5 & H6 & ->).
  apply (put_all_Ok _ DB_KERNEL_INDEX _ _ _ index_kernel_Ok) in Hm5 as (_ & H7 & H8 & ->).
  apply del_if_present_Ok in Hm6 as [_ ->].
  by split; [constructor|].
Qed.

Lemma commit_block_total s h ht hb bb new spent kers :
  no_faults → commit_ready s h new spent kers →
  commit_block s h ht hb bb new spent kers = Ok (committed s h ht hb bb new spent kers).
Proof.
  intros Hf [H1 H2 H3 H4 H5 H6 H7 H8]. unfold commit_block.
  rewrite (proj2 begin_rw_Ok (Hf _)). cbn [rbind].
  rewrite (proj2 (put_block_Ok _ _ _ _ _ _) (conj (conj (Hf _) (Hf _)) (conj H1 (conj H2 eq_refl)))).
  cbn [rbind]. rewrite (proj2 (lift_lmdb_Ok _ _ _) (proj2 (mdb_put_Ok _ _ _ _ _) (conj (Hf _) eq_refl))).
  cbn [rbind]. rewrite (proj2 (lift_lmdb_Ok _ _ _) (proj2 (mdb_put_Ok _ _ _ _ _) (conj (Hf _) eq_refl))).
  assert (Hall : ∀ (P : bytes → LmdbCall) l, Forall (λ k, no_fault (P k)) l)
    by (intros P l; apply Forall_forall; intros; apply Hf).
  cbn [rbind]. erewrite (proj2 (put_all_Ok _ DB_UTXOS _ _ _ add_utxo_Ok)); [|by split_and!].
  cbn [rbind]. erewrite (proj2 (spend_all_Ok _ _ _)); [|by split_and!].
  cbn [rbind]. erewrite (proj2 (put_all_Ok _ DB_KERNEL_INDEX _ _ _ index_kernel_Ok)); [|by split_and!].
  cbn [rbind]. rewrite (proj2 (del_if_present_Ok _ _ _ _ _) (conj (Hf _) eq_refl)).
  cbn [rbind]. erewrite (proj2 (lift_lmdb_Ok _ _ _)); [|by apply faulty_Ok]. done.
Qed.

End laws.
