(* ===== verification/Reorg.v ===== *)
(** * Reorganisation rules ([crates/dom-chain/src/reorg.rs])

    The common ancestor of two tips, and the two limits on the depth of a
    reorganisation. *)

From Stdlib Require Import ZArith Lia.
From stdpp Require Import base list strings gmap.
From S2P Require Import Prelude CoreError Core Serialization CryptoHash BlockHeader Utxo Store.
Local Open Scope string_scope.
Local Open Scope Z_scope.

Definition MAX_REORG_DEPTH : Z := 360.

Definition display_hash (h : Hash256) : string := hex_concat (hash_bytes h).

Section reorg.
Context `{HL : Lmdb}.

(** The first loop: the hashes of our chain, at most [steps] of them. *)
Fixpoint our_walk (steps : nat) (store : DomStore) (cursor : Hash256) (our_chain : list Hash256)
  : Result (list Hash256) :=
  match steps with
  | O => Ok our_chain
  | S steps' =>
      let our_chain := cursor :: our_chain in
      if bool_decide (cursor = Hash256_ZERO) then Ok our_chain
      else
        let? r := get_block_header store (hash_bytes cursor) in
        match r with
        | Some b =>
            let? header := from_bytes BlockHeader b in
            if bool_decide (prev_hash header = Hash256_ZERO) then Ok (Hash256_ZERO :: our_chain)
            else our_walk steps' store (prev_hash header) our_chain
        | None =>
            Err (Internal ("missing header during ancestor walk: " +:+ display_hash cursor))
        end
  end.

(** The second loop: the first hash of their chain that is in ours. *)
Fixpoint their_walk (steps : nat) (store : DomStore) (cursor : Hash256) (our_chain : list Hash256)
  : Result (option Hash256) :=
  match steps with
  | O => Ok None
  | S steps' =>
      if bool_decide (cursor ∈ our_chain) then Ok (Some cursor)
      else if bool_decide (cursor = Hash256_ZERO) then Ok None
      else
        let? r := get_block_header store (hash_bytes cursor) in
        match r with
        | Some b =>
            let? header := from_bytes BlockHeader b in
            their_walk steps' store (prev_hash header) our_chain
        | None => Ok None
        end
  end.

(** [for _ in 0..=max_walk] *)
Definition walk_steps : nat := Z.to_nat (MAX_REORG_DEPTH_POLICY + 1).

Definition find_common_ancestor (store : DomStore) (our_tip their_tip : Hash256)
  : Result (option Hash256) :=
  if bool_decide (our_tip = their_tip) then Ok (Some our_tip)
  else
    let? our_chain := our_walk walk_steps store our_tip [] in
    their_walk walk_steps store their_tip our_chain.

Definition check_reorg_depth (disconnect_count : Z) : Result unit :=
  if MAX_REORG_DEPTH_POLICY <? disconnect_count then
    Err (PolicyRejected ("reorg depth " +:+ dec disconnect_count
           +:+ " exceeds MAX_REORG_DEPTH_POLICY " +:+ dec MAX_REORG_DEPTH_POLICY))
  else Ok tt.

Definition check_rolling_finality (local_tip_height disconnect_count : Z) : Result unit :=
  if (MAX_REORG_DEPTH <=? local_tip_height) && (MAX_REORG_DEPTH <=? disconnect_count) then
    Err (PolicyRejected ("rolling finality rejects reorg depth " +:+ dec disconnect_count
           +:+ " at local height " +:+ dec local_tip_height
           +:+ " (maximum accepted depth is " +:+ dec (MAX_REORG_DEPTH - 1) +:+ ")"))
  else Ok tt.
End reorg.
