(* ===== verification/StateM.v ===== *)
(** * Methods on a mutable receiver

    A [&mut self] method that may fail: it returns the receiver as it left it together
    with its result, so that what an error path has already changed is visible. *)

From stdpp Require Import base tactics list.
From S2P Require Import Prelude CoreError.

Definition M (S A : Type) : Type := S → S * Result A.

Section state.
Context {S : Type}.

Definition st_ret {A} (a : A) : M S A := λ s, (s, Ok a).
Definition st_fail {A} (e : DomError) : M S A := λ s, (s, Err e).
Definition st_bind {A B} (m : M S A) (k : A → M S B) : M S B := λ s,
  match m s with
  | (s', Ok a) => k a s'
  | (s', Err e) => (s', Err e)
  | (s', Panic) => (s', Panic)
  end.
(** A computation that reads the receiver *)
Definition st_get {A} (f : S → Result A) : M S A := λ s, (s, f s).
(** An update that happens completely or not at all *)
Definition st_update (f : S → Result S) : M S unit := λ s,
  match f s with
  | Ok s' => (s', Ok tt)
  | Err e => (s, Err e)
  | Panic => (s, Panic)
  end.
End state.

Notation "'do!' x ':=' m 'in' k" := (st_bind m (λ x, k))
  (at level 10, x pattern, m at level 200, k at level 200,
   format "'[v' 'do!'  x  ':='  m  'in' '/' k ']'") : dom_scope.

(** [run!] keeps the receiver through a computation that only reads it. *)
Notation "'run!' x ':=' m 'in' k" := (st_bind (st_get m) (λ x, k))
  (at level 10, x pattern, m at level 200, k at level 200,
   format "'[v' 'run!'  x  ':='  m  'in' '/' k ']'") : dom_scope.

Section laws.
Context {S : Type}.

Lemma st_bind_Ok {A B} (m : M S A) (k : A → M S B) s s' b :
  st_bind m k s = (s', Ok b) ↔ ∃ a s1, m s = (s1, Ok a) ∧ k a s1 = (s', Ok b).
Proof.
  unfold st_bind. destruct (m s) as [s1 [a|e|]]; split.
  - eauto.
  - by intros (a' & s2 & [= <- <-] & H).
  - done.
  - by intros (? & ? & ? & _).
  - done.
  - by intros (? & ? & ? & _).
Qed.

Lemma st_bind_run {A B} (m : M S A) (k : A → M S B) s s1 a :
  m s = (s1, Ok a) → st_bind m k s = k a s1.
Proof. intros H. unfold st_bind. by rewrite H. Qed.

Lemma st_get_Ok {A} (f : S → Result A) s s' a : st_get f s = (s', Ok a) ↔ s' = s ∧ f s = Ok a.
Proof. unfold st_get. split; [by intros [= -> ->]|by intros [-> ->]]. Qed.

Lemma st_update_Ok (f : S → Result S) s s' : st_update f s = (s', Ok tt) ↔ f s = Ok s'.
Proof. unfold st_update. destruct (f s); split; congruence. Qed.

(** A sequence ran through its first part, or stopped in it. *)
Lemma st_bind_cases {A B} (m : M S A) (k : A → M S B) s s' r :
  st_bind m k s = (s', r) →
  (∃ a s1, m s = (s1, Ok a) ∧ k a s1 = (s', r)) ∨
  (∃ e, m s = (s', Err e) ∧ r = Err e) ∨ (m s = (s', Panic) ∧ r = Panic).
Proof.
  unfold st_bind. destruct (m s) as [s1 [a|e|]] eqn:Hm; intros H.
  - left. eauto.
  - right; left. injection H as -> <-. eauto.
  - right; right. by injection H as -> <-.
Qed.

Lemma st_bind_inv {A B} (m : M S A) (k : A → M S B) s s' r :
  st_bind m k s = (s', r) →
  (∃ a s1, m s = (s1, Ok a) ∧ k a s1 = (s', r)) ∨
  (∃ r1, m s = (s', r1) ∧ is_ok r1 = false ∧ is_ok r = false).
Proof. intros [?|[(e & ? & ->)|[? ->]]]%st_bind_cases; eauto. Qed.

Lemma st_get_inv {A} (f : S → Result A) s s' r : st_get f s = (s', r) → s' = s ∧ r = f s.
Proof. by intros [= -> ->]. Qed.

Lemma st_update_inv (f : S → Result S) s s' r :
  st_update f s = (s', r) → (f s = Ok s' ∧ r = Ok tt) ∨ (s' = s ∧ is_ok r = false).
Proof. unfold st_update. destruct (f s); intros [= -> <-]; auto. Qed.

(** An invariant kept by the parts is kept by the whole, whatever the result. *)
Definition keeps (I : S → Prop) {A} (m : M S A) : Prop := ∀ s, I s → I (m s).1.

Lemma keeps_ret I {A} (a : A) : keeps I (st_ret a).
Proof. by intros s. Qed.
Lemma keeps_fail I {A} e : keeps I (st_fail (A := A) e).
Proof. by intros s. Qed.
Lemma keeps_get I {A} (f : S → Result A) : keeps I (st_get f).
Proof. by intros s. Qed.
Lemma keeps_update I (f : S → Result S) :
  (∀ s s', I s → f s = Ok s' → I s') → keeps I (st_update f).
Proof. intros Hf s Hs. unfold st_update. destruct (f s) eqn:E; simpl; eauto. Qed.
Lemma keeps_bind I {A B} (m : M S A) (k : A → M S B) :
  keeps I m → (∀ s a, I s → (m s).2 = Ok a → I (k a (m s).1).1) → keeps I (st_bind m k).
Proof.
  intros Hm Hk s Hs. unfold st_bind. specialize (Hm s Hs). specialize (Hk s).
  destruct (m s) as [s1 [a|e|]]; simpl in *; auto.
Qed.
End laws.
