(* ===== verification/ChainUtxo.v ===== *)
(** * Blocks and the unspent outputs ([crates/dom-chain/src/chain_state.rs])

    The changes a block makes to the unspent outputs and to the kernel index, the
    reconstruction of the unspent outputs from the stored blocks, and the overlays with
    which a reorganisation disconnects and connects blocks. *)

From Stdlib Require Import ZArith Lia.
From stdpp Require Import base list strings gmap.
From S2P Require Import Prelude ByteOrder CoreError Core Serialization CryptoHash Curve.
From S2P Require Import Pedersen Transaction BlockHeader Consensus Genesis Utxo Store.
From S2P Require Import StateM Reorg.
Local Open Scope string_scope.
Local Open Scope Z_scope.

Definition CHAIN_CORRUPT_SENTINEL : string := "CHAIN_CORRUPT".
Definition UTXO_SET_DIGEST_DOMAIN : string := "DOM_CANONICAL_UTXO_SET_V1".

(** ** The changes of a block *)

Definition output_key (o : TransactionOutput) : bytes := commit_bytes (out_commitment o).
Definition input_key (i : TransactionInput) : bytes := commit_bytes (in_commitment i).

Definition output_entry (b : Block) (coinbase : bool) (o : TransactionOutput) : UtxoEntry :=
  {| block_height := height_val (height (header b)); is_coinbase := coinbase;
     utxo_proof := proof o |}.

(** The outputs of a block in the order the code visits them, each with its entry *)
Definition block_entries (b : Block) : list (bytes * UtxoEntry) :=
  (output_key (output (coinbase b)), output_entry b true (output (coinbase b)))
  :: (transactions b ≫= λ tx, (λ o, (output_key o, output_entry b false o)) <$> outputs tx).

Definition build_utxo_changeset (b : Block) : list (bytes * bytes) * list bytes :=
  ((λ '(c, e), (c, utxo_to_bytes e)) <$> block_entries b,
   transactions b ≫= λ tx, input_key <$> inputs tx).

Definition extract_kernel_excesses (b : Block) (block_hash : Hash256) : list (bytes * bytes) :=
  (commit_bytes (cb_excess (kernel (coinbase b))), hash_bytes block_hash)
  :: (transactions b ≫= λ tx, (λ k, (commit_bytes (excess k), hash_bytes block_hash)) <$> kernels tx).

Definition genesis_canonical_changeset (b : Block) (block_hash : Hash256)
  : list (bytes * bytes) * list bytes * list (bytes * bytes) :=
  let '(new_utxos, spent_utxos) := build_utxo_changeset b in
  (new_utxos, spent_utxos, extract_kernel_excesses b block_hash).

(** [record_block_outputs], the last insertion of a key winning *)
Definition record_block_outputs (b : Block) (out : gmap bytes UtxoEntry) : gmap bytes UtxoEntry :=
  foldl (λ m '(c, e), <[c := e]> m) out (block_entries b).

Section chain.
Context `{HB : Blake2b256} `{HC : Secp256k1} `{HL : Lmdb}.

Definition compute_block_hash (header_bytes : bytes) : Hash256 :=
  {| hash_bytes := blake2b header_bytes |}.
Definition compute_block_identifier (network_magic : Z) (header_bytes : bytes) : Result Hash256 :=
  canonical_header_identifier network_magic header_bytes.

(** ** Reconstruction *)

Definition corrupt (msg : string) : DomError := Internal (CHAIN_CORRUPT_SENTINEL +:+ ": " +:+ msg).

(** Inserting an output that must be new, removing one that must be there *)
Definition rebuild_insert (what : string) (h : Z) (b : Block) (coinbase : bool)
    (utxos : gmap bytes bytes) (o : TransactionOutput) : Result (gmap bytes bytes) :=
  match utxos !! output_key o with
  | Some _ =>
      Err (corrupt ("duplicate " +:+ what +:+ " UTXO commitment " +:+ hex_concat (output_key o)
                    +:+ " at height " +:+ dec h +:+ " during UTXO rebuild"))
  | None => Ok (<[output_key o := utxo_to_bytes (output_entry b coinbase o)]> utxos)
  end.
Definition rebuild_remove (h : Z) (utxos : gmap bytes bytes) (i : TransactionInput)
  : Result (gmap bytes bytes) :=
  match utxos !! input_key i with
  | Some _ => Ok (delete (input_key i) utxos)
  | None =>
      Err (corrupt ("canonical spend references missing UTXO " +:+ hex_concat (input_key i)
                    +:+ " at height " +:+ dec h +:+ " during UTXO rebuild"))
  end.
Definition rebuild_tx (h : Z) (b : Block) (utxos : gmap bytes bytes) (tx : Transaction)
  : Result (gmap bytes bytes) :=
  let? utxos := try_fold (rebuild_remove h) utxos (inputs tx) in
  try_fold (rebuild_insert "output" h b false) utxos (outputs tx).
Definition rebuild_block (h : Z) (b : Block) (utxos : gmap bytes bytes) : Result (gmap bytes bytes) :=
  let? utxos := rebuild_insert "coinbase" h b true utxos (output (coinbase b)) in
  try_fold (rebuild_tx h b) utxos (transactions b).

(** The canonical block stored at a height, or [None] for the Mainnet genesis envelope *)
Definition load_canonical (store : DomStore) (network_magic h : Z) (during decode_during : string)
  : Result (option (Block * Hash256)) :=
  let? r := get_hash_at_height store h in
  let? hash := ok_or r (corrupt ("missing canonical height_index entry at height " +:+ dec h
                                 +:+ during)) in
  let? r := get_block_body store hash in
  let? body := ok_or r (corrupt ("canonical block " +:+ hex_concat hash +:+ " has no body"
                                 +:+ during)) in
  if (h =? height_val GENESIS) && (network_magic =? NETWORK_MAGIC_MAINNET)
     && is_ok (validate_mainnet_genesis_identity body) then Ok None
  else
    let? block := map_err (λ e, corrupt ("canonical block " +:+ hex_concat hash
                             +:+ " body decode failed during " +:+ decode_during +:+ ": "
                             +:+ display_error e))
                    (from_bytes Block body) in
    let? header_bytes := to_bytes (header block) in
    let? computed := compute_block_identifier network_magic header_bytes in
    if negb (bool_decide (hash_bytes computed = hash)) then
      Err (corrupt ("canonical block body/header hash mismatch at height " +:+ dec h +:+ during
                    +:+ ": height_index=" +:+ hex_concat hash +:+ " body_header="
                    +:+ display_hash computed))
    else Ok (Some (block, computed)).

Definition rebuild_height (store : DomStore) (network_magic : Z) (utxos : gmap bytes bytes) (h : Z)
  : Result (gmap bytes bytes) :=
  let? r := load_canonical store network_magic h " during UTXO rebuild" "UTXO rebuild" in
  match r with
  | None => Ok utxos
  | Some (block, _) => rebuild_block h block utxos
  end.

(** [for h in 0..=tip_height] *)
Definition heights (tip_height : BlockHeight) : list Z := seqZ 0 (height_val tip_height + 1).

Definition reconstruct_canonical_utxo_set (store : DomStore) (tip_height : BlockHeight)
    (network_magic : Z) : Result (gmap bytes bytes) :=
  try_fold (rebuild_height store network_magic) ∅ (heights tip_height).

Definition digest_utxo_entries (utxos : gmap bytes bytes) : bytes :=
  blake2b (str_bytes UTXO_SET_DIGEST_DOMAIN
           ++ mjoin ((λ '(c, e), c ++ le_bytes 4 (zlen e) ++ e) <$> ascending utxos))%list.

(** Every height is its own write transaction: an error keeps what earlier heights wrote. *)
Definition rebuild_kernels_at (network_magic h : Z) : M DomStore unit :=
  run! r := (λ store, load_canonical store network_magic h "" "kernel-index rebuild") in
  match r with
  | None => st_ret tt
  | Some (block, computed) =>
      st_update (λ store, ensure_kernel_indices store (extract_kernel_excesses block computed))
  end.
Fixpoint st_each {S B} (f : B → M S unit) (l : list B) : M S unit :=
  match l with
  | [] => st_ret tt
  | x :: t => do! _ := f x in st_each f t
  end.
Definition rebuild_kernel_index_from_canonical_chain (tip_height : BlockHeight) (network_magic : Z)
  : M DomStore unit :=
  st_each (rebuild_kernels_at network_magic) (heights tip_height).

Definition ensure_canonical_utxo_set (tip_height : BlockHeight) (network_magic : Z)
    (allow_utxo_repair : bool) : M DomStore unit :=
  run! canonical := (λ store, reconstruct_canonical_utxo_set store tip_height network_magic) in
  let canonical_digest := digest_utxo_entries canonical in
  run! persisted := read_all_utxos_raw in
  run! persisted_digest := (λ store, get_metadata store METADATA_UTXO_SET_DIGEST_KEY) in
  if bool_decide (persisted = canonical) then
    if negb (bool_decide (persisted_digest = Some canonical_digest)) then
      st_update (λ store, persist_utxo_set_digest store canonical_digest)
    else st_ret tt
  else if negb allow_utxo_repair then
    st_fail (corrupt ("persisted UTXO set diverges from the canonical set reconstructed from block history (persisted_entries="
      +:+ dec (Z.of_nat (size persisted)) +:+ ", canonical_entries=" +:+ dec (Z.of_nat (size canonical))
      +:+ "). This indicates disk corruption or tampering of the UTXO database. The node refuses to open on a divergent UTXO set rather than silently healing it. To rebuild the UTXO set from canonical block history, restart in the explicit operator UTXO-repair mode (ChainState::open_with_utxo_repair)."))
  else st_update (λ store, replace_utxo_set store canonical canonical_digest).

(** ** Overlays *)

(** What a reorganisation wants each touched key to be: [None] is absence. *)
Abbreviation UtxoOverlay := (gmap bytes (option UtxoEntry)) (only parsing).
Abbreviation KernelOverlay := (gmap bytes (option bytes)) (only parsing).

Definition lookup_utxo (store : DomStore) (overlay : UtxoOverlay) (commitment : bytes)
  : Result (option UtxoEntry) :=
  match overlay !! commitment with
  | Some e => Ok e
  | None => get_utxo store commitment
  end.
Definition lookup_kernel (store : DomStore) (overlay : KernelOverlay) (excess : bytes)
  : Result (option bytes) :=
  match overlay !! excess with
  | Some e => Ok e
  | None => get_kernel_block store excess
  end.

(** The output of a block with a commitment, the coinbase first *)
Definition entry_in_block (b : Block) (commitment : bytes) : option UtxoEntry :=
  (λ r, r.2.2) <$> list_find (λ ce, ce.1 = commitment) (block_entries b).

(** [for height in (0..=ancestor_height).rev()], skipping what is not stored *)
Fixpoint find_output_below (store : DomStore) (commitment : bytes) (hs : list Z)
  : Result (option UtxoEntry) :=
  match hs with
  | [] => Ok None
  | h :: hs' =>
      let? r := get_hash_at_height store h in
      match r with
      | None => find_output_below store commitment hs'
      | Some hash =>
          let? r := get_block_body store hash in
          match r with
          | None => find_output_below store commitment hs'
          | Some body =>
              if (h =? height_val GENESIS) && is_ok (validate_mainnet_genesis_identity body) then
                find_output_below store commitment hs'
              else
                let? block := map_err (λ e, Internal ("decode canonical block " +:+ hex_concat hash
                                         +:+ " while resurrecting " +:+ hex_concat commitment
                                         +:+ ": " +:+ display_error e))
                                (from_bytes Block body) in
                match entry_in_block block commitment with
                | Some e => Ok (Some e)
                | None => find_output_below store commitment hs'
                end
          end
      end
  end.
Definition find_canonical_output_entry (store : DomStore) (ancestor_height : Z) (commitment : bytes)
  : Result (option UtxoEntry) :=
  find_output_below store commitment (reverse (seqZ 0 (ancestor_height + 1))).

(** Disconnecting a block: its outputs vanish, the outputs it spent come back. *)
Definition resurrect (store : DomStore) (ancestor_height : Z)
    (disconnect_output_index : gmap bytes UtxoEntry) (overlay : UtxoOverlay) (i : TransactionInput)
  : Result UtxoOverlay :=
  let commitment := input_key i in
  let? found := find_canonical_output_entry store ancestor_height commitment in
  let? resurrected :=
    ok_or (match disconnect_output_index !! commitment with Some e => Some e | None => found end)
      (Internal ("reorg disconnect could not resurrect spent output " +:+ hex_concat commitment)) in
  Ok (<[commitment := Some resurrected]> overlay).
Definition apply_disconnect (store : DomStore) (ancestor_height : Z)
    (disconnect_output_index : gmap bytes UtxoEntry)
    (overlays : UtxoOverlay * KernelOverlay) (hb : Hash256 * Block)
  : Result (UtxoOverlay * KernelOverlay) :=
  let '(utxo_overlay, kernel_overlay) := overlays in
  let '(block_hash, b) := hb in
  let utxo_overlay := foldl (λ m '(c, _), <[c := None]> m) utxo_overlay (block_entries b) in
  let? utxo_overlay := try_fold (resurrect store ancestor_height disconnect_output_index)
                         utxo_overlay (transactions b ≫= inputs) in
  Ok (utxo_overlay,
      foldl (λ m '(excess, _), <[excess := None]> m) kernel_overlay
        (extract_kernel_excesses b block_hash)).

(** Connecting a block: its inputs must be there and mature, its outputs and kernels new. *)
Definition connect_input (store : DomStore) (b : Block) (coinbase_maturity : Z)
    (overlay : UtxoOverlay) (i : TransactionInput) : Result UtxoOverlay :=
  let commitment := input_key i in
  let? r := lookup_utxo store overlay commitment in
  let? entry := ok_or r (Invalid ("reorg connect missing input commitment "
                                  +:+ hex_concat commitment)) in
  if is_coinbase entry
     && negb (is_mature_for entry (height_val (height (header b))) coinbase_maturity) then
    Err (Invalid ("reorg connect spends immature coinbase at height "
                  +:+ dec (height_val (height (header b))) +:+ " (created at "
                  +:+ dec (block_height entry) +:+ ", maturity " +:+ dec coinbase_maturity +:+ ")"))
  else Ok (<[commitment := None]> overlay).
Definition connect_output (store : DomStore) (overlay : UtxoOverlay) (ce : bytes * UtxoEntry)
  : Result UtxoOverlay :=
  let? r := lookup_utxo store overlay ce.1 in
  match r with
  | Some _ => Err (Invalid ("reorg connect duplicate output commitment " +:+ hex_concat ce.1))
  | None => Ok (<[ce.1 := Some ce.2]> overlay)
  end.
Definition connect_kernel (store : DomStore) (overlay : KernelOverlay) (kh : bytes * bytes)
  : Result KernelOverlay :=
  let? r := lookup_kernel store overlay kh.1 in
  match r with
  | Some _ => Err (Invalid ("reorg connect kernel replay detected: excess=" +:+ hex_concat kh.1))
  | None => Ok (<[kh.1 := Some kh.2]> overlay)
  end.
Definition apply_connect (store : DomStore) (coinbase_maturity : Z)
    (overlays : UtxoOverlay * KernelOverlay) (hb : Hash256 * Block)
  : Result (UtxoOverlay * KernelOverlay) :=
  let '(utxo_overlay, kernel_overlay) := overlays in
  let '(block_hash, b) := hb in
  let? utxo_overlay := try_fold (connect_input store b coinbase_maturity) utxo_overlay
                         (transactions b ≫= inputs) in
  let? utxo_overlay := try_fold (connect_output store) utxo_overlay (block_entries b) in
  let? kernel_overlay := try_fold (connect_kernel store) kernel_overlay
                           (extract_kernel_excesses b block_hash) in
  Ok (utxo_overlay, kernel_overlay).

(** The writes that turn the stored state into the overlay *)
Definition utxo_update (store : DomStore) (kd : bytes * option UtxoEntry)
  : Result (list (bytes * option bytes)) :=
  let '(commitment, desired) := kd in
  let? current := get_utxo store commitment in
  match current, desired with
  | Some current, Some desired =>
      if bool_decide (utxo_to_bytes current = utxo_to_bytes desired) then Ok []
      else if bool_decide (utxo_proof current = utxo_proof desired)
              && bool_decide (is_coinbase current = is_coinbase desired) then
        Ok [(commitment, Some (utxo_to_bytes desired))]
      else Err (Internal ("reorg utxo mismatch for existing commitment " +:+ hex_concat commitment
                          +:+ ": current_height=" +:+ dec (block_height current)
                          +:+ " desired_height=" +:+ dec (block_height desired)))
  | None, Some desired => Ok [(commitment, Some (utxo_to_bytes desired))]
  | Some _, None => Ok [(commitment, None)]
  | None, None => Ok []
  end.
Definition build_utxo_updates (store : DomStore) (overlay : UtxoOverlay)
  : Result (list (bytes * option bytes)) :=
  let? out := try_map (utxo_update store) (ascending overlay) in
  Ok (mjoin out).
Definition kernel_update (store : DomStore) (kd : bytes * option bytes)
  : Result (list (bytes * option bytes)) :=
  let '(excess, desired) := kd in
  let? current := get_kernel_block store excess in
  Ok (if negb (bool_decide (current = desired)) then [(excess, desired)] else []).
Definition build_kernel_updates (store : DomStore) (overlay : KernelOverlay)
  : Result (list (bytes * option bytes)) :=
  let? out := try_map (kernel_update store) (ascending overlay) in
  Ok (mjoin out).
End chain.
