(* ===== verification/ChainState.v ===== *)
(** * The chain state ([crates/dom-chain/src/chain_state.rs])

    The receiver [ChainState] over a store: header validation for blocks and for header
    batches, connecting blocks, promoting a heavier branch, retention of side branches, and
    opening a store.  [env] is the value of the [DOM_REGTEST_FAST_MINING] variable that the
    proof-of-work check reads.  A loop that follows stored links until it meets a given hash
    does not end on a cycle of links; such a run has no result, which is [Panic] here, after
    as many steps as there are stored blocks. *)

From Stdlib Require Import ZArith Lia.
From stdpp Require Import base list strings gmap sorting.
From S2P Require Import Prelude ByteOrder CoreError Core Serialization CryptoHash Pow Curve.
From S2P Require Import Keys Pedersen Schnorr RangeProof RangeProve Transaction BlockHeader Consensus.
From S2P Require Import Genesis Utxo Store StateM Reorg ChainUtxo.
Local Open Scope string_scope.
Local Open Scope Z_scope.

Definition MAX_RETAINED_SIDE_BRANCH_TIPS : Z := 8.
Definition MAX_RETAINED_SIDE_BRANCH_REORG_DEPTH : Z := MAX_REORG_DEPTH_POLICY.
Definition MAX_RETAINED_SIDE_BRANCH_LENGTH : Z := MAX_REORG_DEPTH_POLICY.

Record ChainState : Type := {
  store : DomStore;
  tip_hash : Hash256;
  tip_height : BlockHeight;
  tip_difficulty : Z;
  genesis_hash : Hash256;
  asert_anchor : AsertAnchor;
  network_magic : Z;
  coinbase_maturity : Z;
}.

Definition with_store (cs : ChainState) (s : DomStore) : ChainState :=
  {| store := s; tip_hash := tip_hash cs; tip_height := tip_height cs;
     tip_difficulty := tip_difficulty cs; genesis_hash := genesis_hash cs;
     asert_anchor := asert_anchor cs; network_magic := network_magic cs;
     coinbase_maturity := coinbase_maturity cs |}.

Definition with_tip (cs : ChainState) (h : Hash256) (ht : BlockHeight) (d : Z) : ChainState :=
  {| store := store cs; tip_hash := h; tip_height := ht;
     tip_difficulty := d; genesis_hash := genesis_hash cs;
     asert_anchor := asert_anchor cs; network_magic := network_magic cs;
     coinbase_maturity := coinbase_maturity cs |}.

Record ExpectedTarget : Type := {
  previous_target : bytes;
  next_target : bytes;
  height_delta : Z;
  actual_elapsed_secs : Z;
  expected_elapsed_secs : Z;
}.

Record ReorgBlockDelta : Type := {
  rb_hash : bytes;
  rb_height : Z;
  rb_transactions : list Transaction;
}.

Record ReorgDelta : Type := {
  common_ancestor_height : Z;
  disconnected_blocks : list ReorgBlockDelta;
  connected_blocks : list ReorgBlockDelta;
  disconnected_txs : list Transaction;
  connected_txs : list Transaction;
}.

Inductive ConnectResult : Type :=
| BestChain
| Reorg (delta : ReorgDelta)
| SideChain
| AlreadyHave.

Definition coinbase_maturity_for_magic (magic : Z) : Z :=
  if magic =? NETWORK_MAGIC_REGTEST then REGTEST_COINBASE_MATURITY else COINBASE_MATURITY.

Definition is_better_fork_choice_tip (candidate_total_difficulty : Z) (candidate_hash : Hash256)
    (current_total_difficulty : Z) (current_hash : Hash256) : bool :=
  (current_total_difficulty <? candidate_total_difficulty)
  || (candidate_total_difficulty =? current_total_difficulty)
     && bool_decide (bytes_lt (hash_bytes candidate_hash) (hash_bytes current_hash)).

Section chain_state.
Context `{HB : Blake2b256} `{HM : HmacSha256} `{HC : Secp256k1} `{HZ : !ZkpBackend}.
Context `{HR : RandomXHash} `{HP : ZkpProver} `{HL : Lmdb} (env : option string).

(** ** Targets and seeds *)

Definition max_future_block_time (cs : ChainState) : Z :=
  if network_magic cs =? NETWORK_MAGIC_TESTNET then TESTNET_MAX_FUTURE_BLOCK_TIME
  else MAX_FUTURE_BLOCK_TIME.

Definition invalid_target (e : DomError) : DomError :=
  Invalid ("invalid target: " +:+ display_error e).

Definition expected_target_for_child (cs : ChainState) (parent : BlockHeader)
    (child_timestamp : Timestamp) (child_height : BlockHeight) : Result ExpectedTarget :=
  let? previous_target := map_err invalid_target (to_target (target parent)) in
  let? next_target := compute_expected_target (network_magic cs) child_timestamp child_height in
  let? params := pow_params_for_network_at_height (network_magic cs) child_height in
  let? anchor := asert_anchor_for_network_height (network_magic cs) child_height in
  let? height_delta := ok_or (checked_sub (height_val child_height) (height_val (anchor_height anchor)))
                         (Invalid "height before ASERT anchor") in
  let? actual_elapsed_secs := ok_or (checked_sub (time_val child_timestamp)
                                       (time_val (anchor_timestamp anchor)))
                                (Invalid "timestamp before ASERT anchor") in
  let? expected_elapsed_secs := ok_or (checked_mul 64 (target_spacing params) height_delta)
                                  (Invalid "ASERT expected elapsed overflow") in
  Ok {| previous_target := previous_target; next_target := next_target;
        height_delta := height_delta; actual_elapsed_secs := actual_elapsed_secs;
        expected_elapsed_secs := expected_elapsed_secs |}.

Definition validate_expected_target (cs : ChainState) (header parent : BlockHeader) : Result unit :=
  let? expected := expected_target_for_child cs parent (timestamp header) (height header) in
  let? actual_target := map_err invalid_target (to_target (target header)) in
  if negb (bool_decide (actual_target = next_target expected)) then
    Err (Invalid ("target mismatch at height " +:+ dec (height_val (height header))
                  +:+ ": expected=" +:+ hex_concat (next_target expected)
                  +:+ " got=" +:+ hex_concat actual_target
                  +:+ " height_delta=" +:+ dec (height_delta expected)
                  +:+ " actual_elapsed=" +:+ dec (actual_elapsed_secs expected)
                  +:+ " expected_elapsed=" +:+ dec (expected_elapsed_secs expected)))
  else Ok tt.

Definition next_block_target (cs : ChainState) : Result ExpectedTarget :=
  if bool_decide (tip_hash cs = Hash256_ZERO) && bool_decide (tip_height cs = GENESIS) then
    let? target := compute_expected_target (network_magic cs)
                     (anchor_timestamp (asert_anchor cs)) GENESIS in
    Ok {| previous_target := target; next_target := target; height_delta := 0;
          actual_elapsed_secs := 0; expected_elapsed_secs := 0 |}
  else
    let? r := get_block_header (store cs) (hash_bytes (tip_hash cs)) in
    let? tip_bytes := ok_or r (Internal "chain tip header missing") in
    let? tip := from_bytes BlockHeader tip_bytes in
    let? next_height := ok_or (checked_next (height tip)) (Invalid "block height overflow") in
    let? params := pow_params_for_network_at_height (network_magic cs) next_height in
    let? next_timestamp := ok_or (checked_add_secs (timestamp tip) (target_spacing params))
                             (Invalid "next block timestamp overflow") in
    expected_target_for_child cs tip next_timestamp next_height.

Definition compute_randomx_seed (cs : ChainState) (height_ : Z) : Result bytes :=
  let seed_height := randomx_seed_height height_ in
  let? r := get_hash_at_height (store cs) seed_height in
  match r with
  | Some hash =>
      let? r := get_block_header (store cs) hash in
      let? header_bytes := ok_or r (Internal ("RandomX seed height " +:+ dec seed_height
                                     +:+ " points to missing header " +:+ hex_concat hash)) in
      let? header := map_err (λ e, Internal ("RandomX seed header at height " +:+ dec seed_height
                                    +:+ " is malformed: " +:+ display_error e))
                       (from_bytes BlockHeader header_bytes) in
      if negb (height_val (height header) =? seed_height) then
        Err (Internal ("RandomX seed height index mismatch: key " +:+ dec seed_height
                       +:+ ", header " +:+ dec (height_val (height header))))
      else Ok hash
  | None =>
      if seed_height =? 0 then Ok (replicate 32 0)
      else Err (Internal ("RandomX seed block at height " +:+ dec seed_height
             +:+ " missing from committed store (needed for block at height " +:+ dec height_ +:+ ")"))
  end.

(** The loop, with the number of further steps allowed *)
Fixpoint seed_walk (left : nat) (cs : ChainState) (height_ seed_height : Z) (cursor : Hash256)
  : Result bytes :=
  let? r := get_block_header (store cs) (hash_bytes cursor) in
  let? header_bytes := ok_or r (Internal ("randomx seed walk: missing header "
                                          +:+ display_hash cursor)) in
  let? cursor_header := from_bytes BlockHeader header_bytes in
  let cursor_height := height_val (height cursor_header) in
  let? r := get_hash_at_height (store cs) cursor_height in
  if bool_decide (r = Some (hash_bytes cursor)) then compute_randomx_seed cs height_
  else if cursor_height =? seed_height then Ok (hash_bytes cursor)
  else if cursor_height <? seed_height then
    Err (Internal ("randomx seed walk underran seed_height " +:+ dec seed_height
                   +:+ " at height " +:+ dec cursor_height))
  else
    match left with
    | O => Err (Invalid ("randomx seed walk exceeded max reorg depth "
                         +:+ dec MAX_REORG_DEPTH_POLICY +:+ " for block at height " +:+ dec height_))
    | S left' => seed_walk left' cs height_ seed_height (prev_hash cursor_header)
    end.

Definition compute_randomx_seed_branch_aware (cs : ChainState) (height_ : Z) (parent_hash : Hash256)
  : Result bytes :=
  let seed_height := randomx_seed_height height_ in
  if seed_height =? 0 then compute_randomx_seed cs height_
  else seed_walk (Z.to_nat MAX_REORG_DEPTH_POLICY) cs height_ seed_height parent_hash.

(** A header of a batch with its identifier and whether it is stored *)
Abbreviation Decoded := (BlockHeader * Hash256 * bool)%type (only parsing).

Definition compute_randomx_seed_with_batch (cs : ChainState) (height_ : Z) (batch : list Decoded)
  : Result bytes :=
  let seed_height := randomx_seed_height height_ in
  match list_find (λ d : Decoded, height_val (height d.1.1) = seed_height) batch with
  | Some (_, (_, hash, _)) => Ok (hash_bytes hash)
  | None =>
      let? r := get_hash_at_height (store cs) seed_height in
      match r with
      | Some _ => compute_randomx_seed cs height_
      | None =>
          if seed_height =? 0 then Ok (replicate 32 0)
          else Err (Internal ("RandomX seed block at height " +:+ dec seed_height
                 +:+ " not available (needed for block at height " +:+ dec height_ +:+ ")"))
      end
  end.

(** ** Timestamps of ancestors *)

(** At most [count] steps: every iteration takes one timestamp or ends the loop. *)
Fixpoint get_recent_timestamps (count : nat) (cs : ChainState) (cursor : Hash256)
  : Result (list Timestamp) :=
  match count with
  | O => Ok []
  | S count' =>
      if bool_decide (cursor = Hash256_ZERO) then Ok []
      else
        let? r := get_block_header (store cs) (hash_bytes cursor) in
        match r with
        | None => Ok []
        | Some header_bytes =>
            let? header := from_bytes BlockHeader header_bytes in
            let? rest := get_recent_timestamps count' cs (prev_hash header) in
            Ok (timestamp header :: rest)
        end
  end.

(** The stored timestamp at a height; a header that does not decode is skipped. *)
Definition timestamp_at (cs : ChainState) (h : Z) : Result (option Timestamp) :=
  let? r := get_hash_at_height (store cs) h in
  match r with
  | None => Ok None
  | Some hash =>
      let? r := get_block_header (store cs) hash in
      match r with
      | None => Ok None
      | Some header_bytes =>
          match from_bytes BlockHeader header_bytes with
          | Ok header => Ok (Some (timestamp header))
          | Err _ => Ok None
          | Panic => Panic
          end
      end
  end.
(** The heights are visited downwards until the window is full. *)
Fixpoint stored_timestamps (cs : ChainState) (missing : nat) (hs : list Z)
  : Result (list Timestamp) :=
  match hs with
  | [] => Ok []
  | h :: hs' =>
      let? t := timestamp_at cs h in
      match t, missing with
      | Some t, S O => Ok [t]
      | Some t, S missing' => let? rest := stored_timestamps cs missing' hs' in Ok (t :: rest)
      | _, _ => stored_timestamps cs missing hs'
      end
  end.
Definition collect_ibd_ancestor_timestamps (cs : ChainState) (current_height : Z)
    (prior_headers : list BlockHeader) (count : nat) : Result (list Timestamp) :=
  let timestamps := timestamp <$> take count (reverse prior_headers) in
  if (length timestamps =? count)%nat then Ok timestamps
  else
    let h := saturating_sub current_height (zlen prior_headers + 1) in
    let? rest := stored_timestamps cs (count - length timestamps) (reverse (seqZ 0 (h + 1))) in
    Ok (timestamps ++ rest)%list.

(** ** Genesis *)

Definition validate_genesis_identity (cs : ChainState) (header : BlockHeader) (header_hash : Hash256)
  : Result unit :=
  if bool_decide (height header ≠ GENESIS) then Ok tt
  else if network_magic cs =? NETWORK_MAGIC_MAINNET then
    Err (Invalid "Mainnet genesis is accepted only through the canonical identity-envelope bootstrap path")
  else if bool_decide (genesis_hash cs ≠ Hash256_ZERO) && bool_decide (header_hash ≠ genesis_hash cs) then
    Err (Invalid ("genesis hash mismatch: expected " +:+ display_hash (genesis_hash cs) +:+ ", got "
                  +:+ display_hash header_hash))
  else
    let? r := get_hash_at_height (store cs) (height_val GENESIS) in
    match r with
    | Some existing =>
        if negb (bool_decide (existing = hash_bytes header_hash)) then
          Err (Invalid ("alternate genesis block rejected: canonical genesis already exists as "
                        +:+ hex_concat existing))
        else Ok tt
    | None => Ok tt
    end.

Definition validate_genesis_body_identity (cs : ChainState) (block : Block) : Result unit :=
  if bool_decide (height (header block) ≠ GENESIS) || (network_magic cs =? NETWORK_MAGIC_MAINNET) then
    Ok tt
  else
    let? configured := configured_genesis_hash_for_network_magic (network_magic cs) in
    if bool_decide (genesis_hash cs ≠ configured) then Ok tt
    else
      let chain_id := derive_chain_id (network_magic cs) configured in
      let? canonical := build_canonical_genesis (network_magic cs) (hash_bytes chain_id) in
      let? actual := to_bytes block in
      if negb (bool_decide (actual = cg_block_bytes canonical)) then
        Err (Invalid "genesis body mismatch: configured network requires the exact frozen canonical body")
      else Ok tt.

(** ** Headers *)

Definition check_total_difficulty (cs : ChainState) (header : BlockHeader) (parent_difficulty : Z)
  : Result unit :=
  let? target := map_err invalid_target (to_target (target header)) in
  let? block_diff := target_to_difficulty_for_network_height (network_magic cs) (height header) target in
  let? expected_total := checked_accumulated_difficulty parent_difficulty block_diff in
  if negb (total_difficulty header =? expected_total) then
    Err (Invalid ("total_difficulty mismatch: expected " +:+ dec expected_total +:+ ", got "
                  +:+ dec (total_difficulty header)))
  else Ok tt.

Definition load_parent (cs : ChainState) (header : BlockHeader) (e : DomError) : Result BlockHeader :=
  let? r := get_block_header (store cs) (hash_bytes (prev_hash header)) in
  let? parent_bytes := ok_or r e in
  from_bytes BlockHeader parent_bytes.
Definition orphan_of (header : BlockHeader) : DomError :=
  Orphan ("parent " +:+ display_hash (prev_hash header) +:+ " not found").
Definition parent_missing : DomError := Internal "parent missing after IBD parent precheck".

Definition validate_header_only (cs : ChainState) (header : BlockHeader) (now : Timestamp)
  : Result unit :=
  let? header_bytes := to_bytes header in
  let? header_hash := compute_block_identifier (network_magic cs) header_bytes in
  let? known := get_block_header (store cs) (hash_bytes header_hash) in
  match known with
  | Some _ => Ok tt
  | None =>
      let? _ := validate_header_syntax header (network_magic cs) in
      let? _ := validate_genesis_identity cs header header_hash in
      let? _ := validate_future_timestamp_with_limit header now (max_future_block_time cs) in
      let? _ :=
        (if bool_decide (height header ≠ GENESIS) then
           let? parent := load_parent cs header (orphan_of header) in
           let? _ := validate_parent_timestamp_progression header parent in
           let? ancestors := get_recent_timestamps 11 cs (prev_hash header) in
           let? _ := validate_median_time_past header ancestors in
           let? _ := validate_expected_target cs header parent in
           check_total_difficulty cs header (total_difficulty parent)
         else Ok tt) in
      let? seed := compute_randomx_seed_branch_aware cs (height_val (height header)) (prev_hash header) in
      validate_header_pow_for_network env (network_magic cs) header seed
  end.

(** *** Batches *)

Definition decode_ibd_header (cs : ChainState) (header_bytes : bytes) : Result Decoded :=
  let? header := from_bytes BlockHeader header_bytes in
  let? hash := compute_block_identifier (network_magic cs) header_bytes in
  let? r := get_block_header (store cs) (hash_bytes hash) in
  Ok (header, hash, bool_decide (is_Some r)).

(** A header against the one before it in the batch, or against the store when it is first *)
Definition check_ibd_link (cs : ChainState) (prev : option Decoded) (header : BlockHeader)
  : Result unit :=
  match prev with
  | None =>
      if bool_decide (height header ≠ GENESIS) then
        let? r := get_block_header (store cs) (hash_bytes (prev_hash header)) in
        match r with
        | None => Err (Orphan ("IBD header batch starts at unknown parent "
                               +:+ display_hash (prev_hash header)))
        | Some _ => Ok tt
        end
      else Ok tt
  | Some (prev_header, prev_hash_, _) =>
      let? expected_height := ok_or (checked_next (height prev_header))
                                (Invalid "block height overflow") in
      if bool_decide (height header ≠ expected_height) then
        Err (Invalid ("IBD header gap: expected height " +:+ dec (height_val expected_height)
                      +:+ ", got " +:+ dec (height_val (height header))))
      else if bool_decide (prev_hash header ≠ prev_hash_) then
        Err (Invalid ("IBD header prev_hash mismatch at height " +:+ dec (height_val (height header))
                      +:+ ": expected " +:+ display_hash prev_hash_ +:+ ", got "
                      +:+ display_hash (prev_hash header)))
      else Ok tt
  end.

Definition ibd_parent (cs : ChainState) (prev : option Decoded) (header : BlockHeader)
  : Result BlockHeader :=
  match prev with
  | Some (prev_header, _, _) => Ok prev_header
  | None => load_parent cs header parent_missing
  end.

(** The checks of a header that is not stored yet; [batch] is where the seed is looked up. *)
Definition validate_new_ibd_header (cs : ChainState) (now : Timestamp) (batch : list Decoded)
    (prior_headers : list BlockHeader) (prev : option Decoded) (header : BlockHeader) (hash : Hash256)
  : Result unit :=
  let? _ := validate_header_syntax header (network_magic cs) in
  let? _ := validate_genesis_identity cs header hash in
  let? _ :=
    (if bool_decide (height header ≠ GENESIS) then
       let? parent := ibd_parent cs prev header in
       let? _ := validate_parent_timestamp_progression header parent in
       let? ancestors := collect_ibd_ancestor_timestamps cs (height_val (height header))
                           prior_headers 11 in
       validate_median_time_past header ancestors
     else Ok tt) in
  let? _ := validate_future_timestamp_with_limit header now (max_future_block_time cs) in
  let? seed := compute_randomx_seed_with_batch cs (height_val (height header)) batch in
  let? _ := validate_header_pow_for_network env (network_magic cs) header seed in
  let? _ :=
    (if bool_decide (height header = GENESIS) then Ok tt
     else
       let? parent := ibd_parent cs prev header in
       validate_expected_target cs header parent) in
  let? parent_difficulty :=
    (if bool_decide (height header = GENESIS) then Ok 0
     else
       let? parent := ibd_parent cs prev header in
       Ok (total_difficulty parent)) in
  check_total_difficulty cs header parent_difficulty.

Definition ibd_batch_step (cs : ChainState) (now : Timestamp) (batch : list Decoded)
    (acc : list BlockHeader * option Decoded * list bytes) (d : Decoded)
  : Result (list BlockHeader * option Decoded * list bytes) :=
  let '(prior_headers, prev, missing_hashes) := acc in
  let '(header, hash, is_known) := d in
  let? _ := check_ibd_link cs prev header in
  let? missing_hashes :=
    (if negb is_known then
       let? _ := validate_new_ibd_header cs now batch prior_headers prev header hash in
       Ok (missing_hashes ++ [hash_bytes hash])%list
     else Ok missing_hashes) in
  Ok ((prior_headers ++ [header])%list, Some d, missing_hashes).
Definition validate_ibd_headers_batch (cs : ChainState) (raw_headers : list bytes) (now : Timestamp)
  : Result (list bytes) :=
  let? decoded := try_map (decode_ibd_header cs) raw_headers in
  let? (_, missing_hashes) := try_fold (ibd_batch_step cs now decoded) ([], None, []) decoded in
  Ok missing_hashes.

(** The verified prefix is decoded and linked again; it contributes its missing hashes. *)
Definition ibd_prefix_step (cs : ChainState) (acc : list Decoded * list bytes) (header_bytes : bytes)
  : Result (list Decoded * list bytes) :=
  let '(decoded_prefix, observed_missing) := acc in
  let? d := decode_ibd_header cs header_bytes in
  let? _ := check_ibd_link cs (last decoded_prefix) d.1.1 in
  Ok ((decoded_prefix ++ [d])%list,
      if negb d.2 then (observed_missing ++ [hash_bytes d.1.2])%list else observed_missing).
Definition still_missing_step (cs : ChainState) (acc : list bytes) (hash : bytes) : Result (list bytes) :=
  let? r := get_block_header (store cs) hash in
  Ok (match r with None => (acc ++ [hash])%list | Some _ => acc end).
Definition validate_ibd_header_step (cs : ChainState) (raw_headers : list bytes)
    (verified_header_count : Z) (prior_missing_hashes : list bytes) (now : Timestamp)
  : Result (Z * list bytes) :=
  if zlen raw_headers <=? verified_header_count then
    Err (PolicyRejected ("persisted header cursor " +:+ dec verified_header_count
           +:+ " exceeds pending header count " +:+ dec (zlen raw_headers)))
  else
    let? (decoded_prefix, observed_missing) :=
      try_fold (ibd_prefix_step cs) ([], []) (take (Z.to_nat verified_header_count) raw_headers) in
    match raw_headers !! Z.to_nat verified_header_count with
    | None => Err (Internal "IBD header step finished without validating a header")
    | Some header_bytes =>
        let prev := last decoded_prefix in
        let? (header, hash, is_known) := decode_ibd_header cs header_bytes in
        let? _ := check_ibd_link cs prev header in
        let? still_missing := try_fold (still_missing_step cs) [] prior_missing_hashes in
        if negb (bool_decide (observed_missing = still_missing)) then
          Err (PolicyRejected ("persisted IBD header prefix mismatch: observed "
                 +:+ dec (zlen observed_missing) +:+ " missing hashes, expected "
                 +:+ dec (zlen still_missing)))
        else
          let? observed_missing :=
            (if negb is_known then
               let? _ := validate_new_ibd_header cs now decoded_prefix
                           ((λ d : Decoded, d.1.1) <$> decoded_prefix) prev header hash in
               Ok (observed_missing ++ [hash_bytes hash])%list
             else Ok observed_missing) in
          Ok (height_val (height header), observed_missing)
    end.

(** [self.tip_height.0 + 10] overflows only at the end of the height range. *)
Definition is_synced (cs : ChainState) (best_peer_height : Z) : Result bool :=
  let? h := add_ovf 64 (height_val (tip_height cs)) 10 in
  Ok (best_peer_height <=? h).
End chain_state.
