(* ===== verification/ChainConnect.v ===== *)
(** * Connecting blocks ([crates/dom-chain/src/chain_state.rs])

    Retention of side branches, the promotion of a heavier branch, connecting a block, and
    opening a store. *)

From Stdlib Require Import ZArith Lia.
From stdpp Require Import base list strings gmap sorting.
From S2P Require Import Prelude ByteOrder CoreError Core Serialization CryptoHash Pow Curve.
From S2P Require Import Keys Pedersen Schnorr RangeProof RangeProve Transaction BlockHeader Consensus.
From S2P Require Import Genesis Utxo Store StateM Reorg ChainUtxo ChainState.
Local Open Scope string_scope.
Local Open Scope Z_scope.

(** A [BTreeMap] with integer keys, in key order *)
Definition height_le {A} (x y : Z * A) : Prop := x.1 ≤ y.1.
#[export] Instance height_le_dec {A} : RelDecision (height_le (A := A)).
Proof. intros x y. unfold height_le. apply _. Defined.
Definition ascending_heights {A} (m : gmap Z A) : list (Z * A) := merge_sort height_le (map_to_list m).

Record RetainedSideTip : Type := {
  st_hash : bytes;
  st_height : Z;
  st_difficulty : Z;
}.

(** More work first, then the lower hash, then the greater height *)
Definition side_tip_le (l r : RetainedSideTip) : Prop :=
  st_difficulty r < st_difficulty l ∨
  st_difficulty l = st_difficulty r ∧
  (bytes_lt (st_hash l) (st_hash r) ∨ st_hash l = st_hash r ∧ st_height r ≤ st_height l).
#[export] Instance side_tip_le_dec : RelDecision side_tip_le.
Proof. intros l r. unfold side_tip_le. apply _. Defined.

Section connect.
Context `{HB : Blake2b256} `{HM : HmacSha256} `{HC : Secp256k1} `{HZ : !ZkpBackend}.
Context `{HR : RandomXHash} `{HP : ZkpProver} `{HL : Lmdb} (env : option string).

(** ** Retention of side branches *)

Definition canonical_hashes (store : DomStore) (canonical_tip_height : BlockHeight)
  : Result (gset bytes) :=
  try_fold (λ out h, let? r := get_hash_at_height store h in
                     Ok (match r with Some hash => {[hash]} ∪ out | None => out end))
    ∅ (heights canonical_tip_height).

Definition load_retention_header (store : DomStore) (cached_headers : gmap bytes bytes) (hash : bytes)
  : Result (option BlockHeader) :=
  match cached_headers !! hash with
  | Some b => let? h := from_bytes BlockHeader b in Ok (Some h)
  | None =>
      let? r := get_block_header store hash in
      match r with
      | Some b => let? h := from_bytes BlockHeader b in Ok (Some h)
      | None => Ok None
      end
  end.

(** Whether a block without stored children is the tip of a branch worth keeping *)
Definition candidate_tip (store : DomStore) (headers : gmap bytes bytes)
    (canonical_tip_height : BlockHeight) (canonical_tip_hash : bytes)
    (child_parents : gset bytes) (nh : bytes * BlockHeader) : Result (list RetainedSideTip) :=
  let '(hash, header) := nh in
  if bool_decide (hash ∈ child_parents) then Ok []
  else
    let? r := find_common_ancestor store {| hash_bytes := canonical_tip_hash |}
                {| hash_bytes := hash |} in
    match r with
    | None => Ok []
    | Some common_ancestor =>
        if bool_decide (hash_bytes common_ancestor = hash) then Ok []
        else
          let? r := (if bool_decide (common_ancestor = Hash256_ZERO) then Ok (Some 0)
                     else
                       let? r := load_retention_header store headers (hash_bytes common_ancestor) in
                       Ok ((λ h, height_val (height h)) <$> r)) in
          match r with
          | None => Ok []
          | Some ancestor_height =>
              let disconnect_depth := saturating_sub (height_val canonical_tip_height) ancestor_height in
              let branch_length := saturating_sub (height_val (height header)) ancestor_height in
              if (MAX_RETAINED_SIDE_BRANCH_REORG_DEPTH <? disconnect_depth)
                 || (MAX_RETAINED_SIDE_BRANCH_LENGTH <? branch_length) then Ok []
              else Ok [{| st_hash := hash; st_height := height_val (height header);
                          st_difficulty := total_difficulty header |}]
          end
    end.

(** The branch of a kept tip, down to the first block already kept *)
Fixpoint keep_walk (left : nat) (store : DomStore) (headers : gmap bytes bytes)
    (cursor : Hash256) (keep : gset bytes) : Result (gset bytes) :=
  if bool_decide (hash_bytes cursor ∈ keep) then Ok keep
  else
    let keep := {[hash_bytes cursor]} ∪ keep in
    match left with
    | O => Ok keep
    | S left' =>
        let? r := load_retention_header store headers (hash_bytes cursor) in
        match r with
        | None => Ok keep
        | Some header =>
            if bool_decide (prev_hash header = Hash256_ZERO) then Ok keep
            else keep_walk left' store headers (prev_hash header) keep
        end
    end.

Definition prune_retained_side_chains (canonical_tip_height : BlockHeight) (canonical_tip_hash : bytes)
    (store : DomStore) : Result DomStore :=
  let? headers := read_all_block_headers_raw store in
  if bool_decide (headers = ∅) then Ok store
  else
    let? canonical := canonical_hashes store canonical_tip_height in
    let? noncanonical :=
      try_map (λ hb : bytes * bytes, let? h := from_bytes BlockHeader hb.2 in Ok (hb.1, h))
        (filter (λ hb, hb.1 ∉ canonical) (ascending headers)) in
    if bool_decide (noncanonical.*1 = []) then Ok store
    else
      let child_parents : gset bytes :=
        list_to_set ((λ nh, hash_bytes (prev_hash nh.2)) <$> noncanonical) in
      let? candidates := try_map (candidate_tip store headers canonical_tip_height
                                    canonical_tip_hash child_parents) noncanonical in
      let tips := take (Z.to_nat MAX_RETAINED_SIDE_BRANCH_TIPS)
                    (merge_sort side_tip_le (mjoin candidates)) in
      let? keep := try_fold (λ keep tip, keep_walk (Z.to_nat MAX_RETAINED_SIDE_BRANCH_LENGTH)
                               store headers {| hash_bytes := st_hash tip |} keep) canonical tips in
      prune_known_blocks store (filter (λ hash, hash ∉ keep) noncanonical.*1).

(** [prune_retained_side_chains(&self.store, ..)] with the tip of the receiver *)
Definition prune_self : M ChainState unit :=
  st_update (λ cs, let? s := prune_retained_side_chains (tip_height cs) (hash_bytes (tip_hash cs))
                               (store cs) in
                   Ok (with_store cs s)).

(** ** Branches *)

Fixpoint branch_syntax (fuel : nat) (store : DomStore) (cursor ancestor : Hash256) (network_magic : Z)
  : Result unit :=
  match fuel with
  | O => Panic
  | S fuel' =>
      if bool_decide (cursor = ancestor) then Ok tt
      else
        let? r := get_block_header store (hash_bytes cursor) in
        let? header_bytes := ok_or r (Internal ("reorg candidate header missing during validation: "
                                                +:+ display_hash cursor)) in
        let? header := from_bytes BlockHeader header_bytes in
        let? _ := map_err (λ e, Invalid ("reorg candidate header validation failed: hash="
                                  +:+ display_hash cursor +:+ ", error=" +:+ display_error e))
                    (validate_header_syntax header network_magic) in
        branch_syntax fuel' store (prev_hash header) ancestor network_magic
  end.
Definition validate_branch_header_syntax (store : DomStore) (branch_tip ancestor : Hash256)
    (network_magic : Z) : Result unit :=
  branch_syntax (S (size (db_blocks store))) store branch_tip ancestor network_magic.

Fixpoint branch_blocks (fuel : nat) (store : DomStore) (tip ancestor : Hash256)
  : Result (list (Hash256 * Block)) :=
  match fuel with
  | O => Panic
  | S fuel' =>
      if bool_decide (tip = ancestor) then Ok []
      else
        let? r := get_block_body store (hash_bytes tip) in
        let? body := ok_or r (Internal ("reorg block body missing: " +:+ display_hash tip)) in
        let? block := map_err (λ e, Internal ("reorg block body decode failed for "
                                     +:+ display_hash tip +:+ ": " +:+ display_error e))
                        (from_bytes Block body) in
        let? header_bytes := to_bytes (header block) in
        let? rest := branch_blocks fuel' store (prev_hash (header block)) ancestor in
        Ok ((compute_block_hash header_bytes, block) :: rest)
  end.
Definition collect_branch_blocks (store : DomStore) (tip ancestor : Hash256)
  : Result (list (Hash256 * Block)) :=
  branch_blocks (S (size (db_block_bodies store))) store tip ancestor.

(** ** Reorganisation *)

Definition block_delta (hb : Hash256 * Block) : ReorgBlockDelta :=
  {| rb_hash := hash_bytes hb.1; rb_height := height_val (height (header hb.2));
     rb_transactions := transactions hb.2 |}.

Definition validate_reorg_candidate (cs : ChainState) (now : Timestamp) (hb : Hash256 * Block)
  : Result unit :=
  let '(block_hash, block) := hb in
  let? _ := validate_future_timestamp_with_limit (header block) now (max_future_block_time cs) in
  let ctx := {| current_height := height (header block);
                chain_id := hash_bytes (derive_chain_id (network_magic cs) (genesis_hash cs));
                now := now |} in
  map_err (λ e, Invalid ("reorg candidate block validation failed: hash=" +:+ display_hash block_hash
                         +:+ ", error=" +:+ display_error e))
    (validate_block_for_network block ctx (network_magic cs)).

(** What the promotion reads and checks before it writes: the new tip, the writes, and the
    report to the caller *)
Record ReorgPlan : Type := {
  rp_tip : BlockHeader;
  rp_heights : list (Z * option bytes);
  rp_utxos : list (bytes * option bytes);
  rp_kernels : list (bytes * option bytes);
  rp_delta : ReorgDelta;
}.

Definition plan_heights (ancestor_height tip_height_ : Z) (connect_blocks : list (Hash256 * Block))
  : Result (list (Z * option bytes)) :=
  let? from := add_ovf 64 ancestor_height 1 in
  let cleared : gmap Z (option bytes) :=
    foldl (λ m h, <[h := None]> m) ∅ (seqZ from (tip_height_ - ancestor_height)) in
  Ok (ascending_heights
        (foldl (λ m hb, <[height_val (height (header hb.2)) := Some (hash_bytes hb.1)]> m)
           cleared connect_blocks)).

Definition plan_reorg (cs : ChainState) (new_tip_hash : Hash256) (now : Timestamp)
  : Result ReorgPlan :=
  let? r := get_block_header (store cs) (hash_bytes new_tip_hash) in
  let? new_tip_bytes := ok_or r (Internal ("reorg target header missing: "
                                           +:+ display_hash new_tip_hash)) in
  let? new_tip_header := from_bytes BlockHeader new_tip_bytes in
  let? r := find_common_ancestor (store cs) (tip_hash cs) new_tip_hash in
  let? ancestor := ok_or (match r with
                          | Some h => if bool_decide (h ≠ Hash256_ZERO) then Some h else None
                          | None => None
                          end) (Invalid "heavier side chain has no common ancestor") in
  let? ancestor_height :=
    (if bool_decide (ancestor = tip_hash cs) then Ok (height_val (tip_height cs))
     else
       let? r := get_block_header (store cs) (hash_bytes ancestor) in
       let? ancestor_bytes := ok_or r (Internal ("reorg ancestor header missing: "
                                                 +:+ display_hash ancestor)) in
       let? h := from_bytes BlockHeader ancestor_bytes in
       Ok (height_val (height h))) in
  let? _ := validate_branch_header_syntax (store cs) new_tip_hash ancestor (network_magic cs) in
  if negb (is_better_fork_choice_tip (total_difficulty new_tip_header) new_tip_hash
             (tip_difficulty cs) (tip_hash cs)) then
    Err (PolicyRejected ("reorg target is not heavier or tie-preferred: new_total="
           +:+ dec (total_difficulty new_tip_header) +:+ " current_total=" +:+ dec (tip_difficulty cs)
           +:+ " new_hash=" +:+ display_hash new_tip_hash
           +:+ " current_hash=" +:+ display_hash (tip_hash cs)))
  else
  let? reorg_depth := ok_or (checked_sub (height_val (tip_height cs)) ancestor_height)
                        (Internal "reorg ancestor is above local tip") in
  let? _ := check_rolling_finality (height_val (tip_height cs)) reorg_depth in
  let? _ := check_reorg_depth reorg_depth in
  let? disconnect_blocks := collect_branch_blocks (store cs) (tip_hash cs) ancestor in
  if negb (zlen disconnect_blocks =? reorg_depth) then
    Err (Internal ("reorg depth mismatch: height-derived=" +:+ dec reorg_depth
                   +:+ ", collected=" +:+ dec (zlen disconnect_blocks)))
  else
  let? connect_rev := collect_branch_blocks (store cs) new_tip_hash ancestor in
  let connect_blocks := reverse connect_rev in
  let? _ := try_each (validate_reorg_candidate cs now) connect_blocks in
  let delta :=
    {| common_ancestor_height := ancestor_height;
       disconnected_blocks := block_delta <$> disconnect_blocks;
       connected_blocks := block_delta <$> connect_blocks;
       disconnected_txs := disconnect_blocks ≫= (λ hb, transactions hb.2);
       connected_txs := connect_blocks ≫= (λ hb, transactions hb.2) |} in
  let disconnect_output_index :=
    foldl (λ m hb, record_block_outputs hb.2 m) ∅ disconnect_blocks in
  let? overlays := try_fold (apply_disconnect (store cs) ancestor_height disconnect_output_index)
                     (∅, ∅) disconnect_blocks in
  let? overlays := try_fold (apply_connect (store cs) (coinbase_maturity cs)) overlays connect_blocks in
  let? height_updates := plan_heights ancestor_height (height_val (tip_height cs)) connect_blocks in
  let? utxo_updates := build_utxo_updates (store cs) overlays.1 in
  let? kernel_updates := build_kernel_updates (store cs) overlays.2 in
  Ok {| rp_tip := new_tip_header; rp_heights := height_updates; rp_utxos := utxo_updates;
        rp_kernels := kernel_updates; rp_delta := delta |}.

Definition promote_heavier_known_tip (new_tip_hash : Hash256) (now : Timestamp)
  : M ChainState ReorgDelta :=
  run! plan := (λ cs, plan_reorg cs new_tip_hash now) in
  do! _ := st_update (λ cs,
    let? s := apply_reorg (store cs) (hash_bytes new_tip_hash) (rp_heights plan) (rp_utxos plan)
                (rp_kernels plan) in
    Ok (with_tip (with_store cs s) new_tip_hash (height (rp_tip plan))
          (total_difficulty (rp_tip plan)))) in
  do! _ := prune_self in
  st_ret (rp_delta plan).

(** ** Connecting a block *)

Definition validate_direct_extension_input (cs : ChainState) (header : BlockHeader)
    (i : TransactionInput) : Result unit :=
  let? r := get_utxo (store cs) (input_key i) in
  let? entry := ok_or r (Invalid ("input commitment not found in UTXO set: "
                                  +:+ hex_concat (input_key i))) in
  if is_coinbase entry
     && negb (is_mature_for entry (height_val (height header)) (coinbase_maturity cs)) then
    Err (Invalid ("immature coinbase spend at height " +:+ dec (height_val (height header))
                  +:+ " (created at " +:+ dec (block_height entry) +:+ ", maturity "
                  +:+ dec (coinbase_maturity cs) +:+ ")"))
  else Ok tt.
Definition validate_direct_extension_inputs (cs : ChainState) (b : Block) : Result unit :=
  try_each (validate_direct_extension_input cs (header b)) (transactions b ≫= inputs).

Definition check_new_output (cs : ChainState) (commitment : bytes) : Result unit :=
  let? r := get_utxo (store cs) commitment in
  match r with
  | Some _ => Err (Invalid ("direct connect duplicate output commitment " +:+ hex_concat commitment))
  | None => Ok tt
  end.
Definition check_new_kernel (cs : ChainState) (kh : bytes * bytes) : Result unit :=
  let? r := get_kernel_block (store cs) kh.1 in
  match r with
  | Some _ => Err (Invalid ("direct connect kernel replay detected: excess=" +:+ hex_concat kh.1))
  | None => Ok tt
  end.

(** Everything [connect_block] checks of a block that is not stored yet, before it looks at
    where the block goes *)
Definition validate_new_block (cs : ChainState) (b : Block) (block_hash : Hash256) (now : Timestamp)
  : Result unit :=
  let header := header b in
  let? _ := validate_header_syntax header (network_magic cs) in
  let? _ := validate_genesis_identity cs header block_hash in
  let? _ := validate_genesis_body_identity cs b in
  let? parent :=
    (if bool_decide (height header ≠ GENESIS) then
       let? parent := load_parent cs header (orphan_of header) in
       let? expected_height := ok_or (checked_next (height parent)) (Invalid "block height overflow") in
       if bool_decide (height header ≠ expected_height) then
         Err (Invalid ("height mismatch: expected " +:+ dec (height_val expected_height) +:+ ", got "
                       +:+ dec (height_val (height header))))
       else
         let? _ := validate_parent_timestamp_progression header parent in
         let? ancestors := get_recent_timestamps 11 cs (prev_hash header) in
         let? _ := validate_median_time_past header ancestors in
         Ok (Some parent)
     else Ok None) in
  let? _ := validate_future_timestamp_with_limit header now (max_future_block_time cs) in
  let? seed := compute_randomx_seed_branch_aware cs (height_val (height header)) (prev_hash header) in
  let? _ := validate_header_pow_for_network env (network_magic cs) header seed in
  let? _ := match parent with Some p => validate_expected_target cs header p | None => Ok tt end in
  let parent_difficulty := match parent with Some p => total_difficulty p | None => 0 end in
  let? _ := check_total_difficulty cs header parent_difficulty in
  let ctx := {| current_height := height header;
                chain_id := hash_bytes (derive_chain_id (network_magic cs) (genesis_hash cs));
                now := now |} in
  map_err (λ e, Invalid ("block validation failed: hash=" +:+ display_hash block_hash
                         +:+ ", error=" +:+ display_error e))
    (validate_block_for_network b ctx (network_magic cs)).

(** The writes of a block that extends the tip *)
Definition extend_tip (b : Block) (block_hash : Hash256) (header_bytes block_body_bytes : bytes)
  : M ChainState unit :=
  let header := header b in
  let kernel_excesses := extract_kernel_excesses b block_hash in
  let '(new_utxos, spent_utxos) := build_utxo_changeset b in
  run! _ := (λ cs, validate_direct_extension_inputs cs b) in
  run! _ := (λ cs, try_each (check_new_output cs) (block_entries b).*1) in
  run! _ := (λ cs, try_each (check_new_kernel cs) kernel_excesses) in
  st_update (λ cs,
    let? s := commit_block (store cs) (hash_bytes block_hash) (height_val (height header))
                header_bytes block_body_bytes new_utxos spent_utxos kernel_excesses in
    Ok (with_tip (with_store cs s) block_hash (height header) (total_difficulty header))).

Definition connect_block (b : Block) (now : Timestamp) : M ChainState ConnectResult :=
  let header := header b in
  run! header_bytes := (λ _, to_bytes header) in
  run! block_hash := (λ cs, compute_block_identifier (network_magic cs) header_bytes) in
  run! known := (λ cs, get_block_header (store cs) (hash_bytes block_hash)) in
  match known with
  | Some _ => st_ret AlreadyHave
  | None =>
      run! _ := (λ cs, validate_new_block cs b block_hash now) in
      run! block_body_bytes := (λ _, to_bytes b) in
      run! cs := Ok in
      let is_direct_extension :=
        bool_decide (height header = GENESIS) || bool_decide (prev_hash header = tip_hash cs) in
      let extends_best_chain :=
        is_better_fork_choice_tip (total_difficulty header) block_hash (tip_difficulty cs) (tip_hash cs) in
      if is_direct_extension then
        if negb extends_best_chain then
          st_fail (Invalid ("direct extension did not improve fork choice: new_total="
                     +:+ dec (total_difficulty header) +:+ " current_total=" +:+ dec (tip_difficulty cs)
                     +:+ " new_hash=" +:+ display_hash block_hash
                     +:+ " current_hash=" +:+ display_hash (tip_hash cs)))
        else
          do! _ := extend_tip b block_hash header_bytes block_body_bytes in
          do! _ := prune_self in
          st_ret BestChain
      else
        do! _ := st_update (λ cs,
          let? s := store_known_block (store cs) (hash_bytes block_hash) header_bytes block_body_bytes in
          Ok (with_store cs s)) in
        do! _ := prune_self in
        if extends_best_chain then
          do! reorg := promote_heavier_known_tip block_hash now in
          st_ret (Reorg reorg)
        else st_ret SideChain
  end.

(** ** Opening a store *)

Definition validate_persisted_genesis_identity (store : DomStore) (configured_genesis_hash : Hash256)
  : Result unit :=
  let? r := get_hash_at_height store (height_val GENESIS) in
  match r with
  | None => Ok tt
  | Some stored_genesis_hash =>
      if bool_decide (configured_genesis_hash ≠ Hash256_ZERO)
         && negb (bool_decide (stored_genesis_hash = hash_bytes configured_genesis_hash)) then
        Err (Invalid ("stored genesis hash mismatch: expected " +:+ display_hash configured_genesis_hash
                      +:+ ", got " +:+ hex_concat stored_genesis_hash))
      else Ok tt
  end.

(** The header of the persisted tip, after the checks that its records agree *)
Definition load_tip (hash : bytes) (store : DomStore) : Result BlockHeader :=
  let? r := get_block_header store hash in
  let? header_bytes := ok_or r (corrupt ("chain_tip " +:+ hex_concat hash
                                         +:+ " points at missing header")) in
  let? header := from_bytes BlockHeader header_bytes in
  let? r := get_block_body store hash in
  match r with
  | None => Err (corrupt ("tip " +:+ hex_concat hash +:+ " has header but no body"))
  | Some _ =>
      let? r := get_hash_at_height store (height_val (height header)) in
      match r with
      | Some indexed =>
          if bool_decide (indexed = hash) then Ok header
          else Err (corrupt ("height_index[" +:+ dec (height_val (height header)) +:+ "] = "
                             +:+ hex_concat indexed +:+ " but tip = " +:+ hex_concat hash))
      | None => Err (corrupt ("tip " +:+ hex_concat hash +:+ " has no height_index entry at height "
                              +:+ dec (height_val (height header))))
      end
  end.

(** The store is the receiver: recovery writes it even when opening then fails. *)
Definition open_inner (genesis_hash : Hash256) (network_magic : Z) (allow_utxo_repair : bool)
  : M DomStore ChainState :=
  run! asert_anchor := (λ _, map_err (λ e, Internal ("genesis anchor: " +:+ display_error e))
                               (genesis_anchor network_magic)) in
  run! tip := get_chain_tip in
  do! (tip_hash, tip_height, tip_difficulty) :=
    match tip with
    | Some hash =>
        run! header := load_tip hash in
        do! _ := rebuild_kernel_index_from_canonical_chain (height header) network_magic in
        do! _ := ensure_canonical_utxo_set (height header) network_magic allow_utxo_repair in
        do! _ := st_update (prune_retained_side_chains (height header) hash) in
        st_ret ({| hash_bytes := hash |}, height header, total_difficulty header)
    | None =>
        do! _ := st_update (prune_retained_side_chains GENESIS (replicate 32 0)) in
        st_ret (Hash256_ZERO, GENESIS, 0)
    end in
  run! _ := (λ store, validate_persisted_genesis_identity store genesis_hash) in
  run! store := Ok in
  st_ret {| store := store; tip_hash := tip_hash; tip_height := tip_height;
            tip_difficulty := tip_difficulty; genesis_hash := genesis_hash;
            asert_anchor := asert_anchor; network_magic := network_magic;
            coinbase_maturity := coinbase_maturity_for_magic network_magic |}.
Definition open (genesis_hash : Hash256) (network_magic : Z) : M DomStore ChainState :=
  open_inner genesis_hash network_magic false.
Definition open_with_utxo_repair (genesis_hash : Hash256) (network_magic : Z)
  : M DomStore ChainState :=
  open_inner genesis_hash network_magic true.
End connect.
