(* ===== verification/Ledger.v ===== *)
(** * The ledger

    What the chain of blocks means for the unspent outputs, independent of how the node
    stores or updates them: a block may be applied to a set of unspent outputs when its
    inputs are distinct members of the set and its outputs are distinct and new, and then
    its outputs replace its inputs.  Rebuilding the set from the blocks computes exactly
    this. *)

From Stdlib Require Import ZArith Lia.
From stdpp Require Import base list strings gmap.
From S2P Require Import Prelude ByteOrder CoreError Core Serialization CryptoHash Curve.
From S2P Require Import Pedersen Transaction BlockHeader Consensus Genesis Utxo Store StoreLaws.
From S2P Require Import StateM Reorg ChainUtxo.

Abbreviation Utxos := (gmap bytes UtxoEntry) (only parsing).

Definition block_spends (b : Block) : list bytes := transactions b ≫= λ tx, input_key <$> inputs tx.
Definition block_creates (b : Block) : list bytes := (block_entries b).*1.

Record applies (U : Utxos) (b : Block) : Prop := {
  ap_creates_distinct : NoDup (block_creates b);
  ap_creates_new : ∀ c, c ∈ block_creates b → U !! c = None;
  ap_spends_distinct : NoDup (block_spends b);
  ap_spends_present : ∀ c, c ∈ block_spends b → is_Some (U !! c);
}.

Definition apply_block (U : Utxos) (b : Block) : Utxos :=
  list_to_map (block_entries b) ∪ delete_all (block_spends b) U.

(** Unspent outputs, and the block that holds each kernel *)
Record LedgerState : Type := {
  unspent : gmap bytes UtxoEntry;
  kernel_of : gmap bytes bytes;
}.
Definition empty_ledger : LedgerState := {| unspent := ∅; kernel_of := ∅ |}.

Definition block_kernels (hash : bytes) (b : Block) : list (bytes * bytes) :=
  extract_kernel_excesses b {| hash_bytes := hash |}.

Record accepts (L : LedgerState) (hash : bytes) (b : Block) : Prop := {
  ac_applies : applies (unspent L) b;
  ac_kernels_distinct : NoDup (block_kernels hash b).*1;
  ac_kernels_new : ∀ k, k ∈ (block_kernels hash b).*1 → kernel_of L !! k = None;
}.

Definition accept_block (L : LedgerState) (hash : bytes) (b : Block) : LedgerState :=
  {| unspent := apply_block (unspent L) b;
     kernel_of := list_to_map (block_kernels hash b) ∪ kernel_of L |}.

(** A chain, its blocks in order with their hashes; [None] is the Mainnet genesis envelope,
    which has no outputs and no kernels. *)
Abbreviation Chain := (list (bytes * option Block)) (only parsing).
Inductive run : LedgerState → Chain → LedgerState → Prop :=
| run_nil L : run L [] L
| run_envelope L hash l L' : run L l L' → run L ((hash, None) :: l) L'
| run_block L hash b l L' :
    accepts L hash b → run (accept_block L hash b) l L' → run L ((hash, Some b) :: l) L'.

Definition ledger (l : Chain) (L : LedgerState) : Prop := run empty_ledger l L.

(** The bytes of the table that holds a set of unspent outputs *)
Definition utxo_table (U : Utxos) : gmap bytes bytes := utxo_to_bytes <$> U.

(** ** Laws of runs *)

Lemma run_app L l1 l2 L' : run L (l1 ++ l2) L' ↔ ∃ L1, run L l1 L1 ∧ run L1 l2 L'.
Proof.
  split.
  - revert L. induction l1 as [|[hash [b|]] l1 IH]; intros L H; cbn [app] in *.
    + eauto using run_nil.
    + inversion H as [| |? ? ? ? ? Ha Hr]; subst. destruct (IH _ Hr) as (L1 & ? & ?).
      eauto using run_block.
    + inversion H as [|? ? ? ? Hr|]; subst. destruct (IH _ Hr) as (L1 & ? & ?).
      eauto using run_envelope.
  - intros (L1 & H & H'). induction H; cbn [app]; eauto using run_envelope, run_block.
Qed.

Lemma run_snoc L l hash b L1 :
  run L l L1 → accepts L1 hash b → run L (l ++ [(hash, Some b)]) (accept_block L1 hash b).
Proof. intros. apply run_app. eauto using run_block, run_nil. Qed.

Lemma run_fun L l L1 L2 : run L l L1 → run L l L2 → L1 = L2.
Proof. intros H. revert L2. induction H; intros L2 H2; inversion H2; subst; eauto. Qed.

Lemma block_creates_eq b :
  block_creates b = output_key (output (coinbase b))
                    :: (transactions b ≫= λ tx, output_key <$> outputs tx).
Proof.
  unfold block_creates, block_entries. rewrite fmap_cons. f_equal.
  induction (transactions b) as [|tx txs IH]; [done|].
  cbn [mbind list_bind]. rewrite fmap_app, IH. f_equal.
  rewrite <- list_fmap_compose. done.
Qed.

Lemma spends_not_created U b c : applies U b → c ∈ block_spends b → c ∉ block_creates b.
Proof.
  intros Ha Hs Hc. destruct (ap_spends_present _ _ Ha c Hs) as [e He].
  rewrite (ap_creates_new _ _ Ha c Hc) in He. done.
Qed.

(** What applying a block does to one commitment *)
Lemma apply_block_lookup U b c :
  apply_block U b !! c =
    match (list_to_map (block_entries b) : Utxos) !! c with
    | Some e => Some e
    | None => if bool_decide (c ∈ block_spends b) then None else U !! c
    end.
Proof.
  unfold apply_block. rewrite lookup_union, delete_all_lookup.
  destruct (list_to_map _ !! c); destruct (bool_decide _); try destruct (U !! c); done.
Qed.

Lemma apply_block_untouched U b c :
  c ∉ block_creates b → c ∉ block_spends b → apply_block U b !! c = U !! c.
Proof.
  intros Hc Hs. rewrite apply_block_lookup, not_elem_of_list_to_map_1 by done.
  by rewrite bool_decide_false.
Qed.

Lemma apply_block_spent U b c :
  applies U b → c ∈ block_spends b → apply_block U b !! c = None.
Proof.
  intros Ha Hs. rewrite apply_block_lookup, not_elem_of_list_to_map_1
    by (by eapply spends_not_created). by rewrite bool_decide_true.
Qed.

Lemma apply_block_created U b c e :
  applies U b → (c, e) ∈ block_entries b → apply_block U b !! c = Some e.
Proof.
  intros Ha Hc. rewrite apply_block_lookup.
  by rewrite (elem_of_list_to_map_1 _ _ _ (ap_creates_distinct _ _ Ha) Hc).
Qed.

(** ** Rebuilding *)

Lemma delete_all_app {A} (ks1 ks2 : list bytes) (m : gmap bytes A) :
  delete_all (ks1 ++ ks2) m = delete_all ks2 (delete_all ks1 m).
Proof.
  apply map_eq. intros c. rewrite !delete_all_lookup.
  repeat case_bool_decide; set_solver.
Qed.

Lemma utxo_table_lookup U c : utxo_table U !! c = utxo_to_bytes <$> U !! c.
Proof. apply lookup_fmap. Qed.

Lemma utxo_table_delete_all ks U : utxo_table (delete_all ks U) = delete_all ks (utxo_table U).
Proof.
  apply map_eq. intros c. rewrite utxo_table_lookup, !delete_all_lookup, utxo_table_lookup.
  by case_bool_decide.
Qed.

Lemma utxo_table_union U V : utxo_table (U ∪ V) = utxo_table U ∪ utxo_table V.
Proof. apply map_fmap_union. Qed.

Lemma rebuild_inputs (h : Z) (m : gmap bytes bytes) (l : list TransactionInput) :
  NoDup (input_key <$> l) → (∀ c, c ∈ input_key <$> l → is_Some (m !! c)) →
  try_fold (rebuild_remove h) m l = Ok (delete_all (input_key <$> l) m).
Proof.
  revert m. induction l as [|i l IH]; intros m Hnd Hp; [done|].
  rewrite fmap_cons, NoDup_cons in Hnd. destruct Hnd as [Hi Hnd]. cbn [try_fold].
  unfold rebuild_remove at 1. destruct (Hp (input_key i)) as [e He]; [left|]. rewrite He.
  cbn [rbind]. rewrite IH; [|done|].
  - f_equal. apply map_eq. intros c. rewrite !delete_all_lookup, lookup_delete.
    destruct (decide (input_key i = c)) as [<-|Hne].
    + rewrite (bool_decide_true (_ ∈ input_key <$> i :: l)) by left. by case_bool_decide.
    + destruct (decide (c ∈ input_key <$> l)); [rewrite !bool_decide_true by set_solver|
        rewrite !bool_decide_false by set_solver]; done.
  - intros c Hc. rewrite lookup_delete_ne by (by intros <-). apply Hp. by right.
Qed.

Lemma rebuild_outputs (w : string) (h : Z) (b : Block) (cb : bool) (m : gmap bytes bytes) (l : list TransactionOutput) :
  NoDup (output_key <$> l) → (∀ c, c ∈ output_key <$> l → m !! c = None) →
  try_fold (rebuild_insert w h b cb) m l =
  Ok (utxo_table (list_to_map ((λ o, (output_key o, output_entry b cb o)) <$> l)) ∪ m).
Proof.
  revert m. induction l as [|o l IH]; intros m Hnd Hp.
  { cbn. unfold utxo_table. rewrite fmap_empty. by rewrite map_empty_union. }
  rewrite fmap_cons, NoDup_cons in Hnd. destruct Hnd as [Hi Hnd]. cbn [try_fold].
  unfold rebuild_insert at 1. rewrite Hp by left. cbn [rbind]. rewrite IH; [|done|].
  - f_equal. cbn [fmap list_fmap list_to_map foldr]. unfold utxo_table. rewrite fmap_insert.
    rewrite <- insert_union_l, <- insert_union_r; [done|].
    rewrite lookup_fmap, not_elem_of_list_to_map_1; [done|].
    by rewrite <- list_fmap_compose.
  - intros c Hc. rewrite lookup_insert_ne by (by intros <-). apply Hp. by right.
Qed.

Lemma rebuild_txs (h : Z) (b : Block) (txs : list Transaction) (m : gmap bytes bytes) :
  let ins := txs ≫= λ tx, input_key <$> inputs tx in
  let outs := txs ≫= λ tx, (λ o, (output_key o, output_entry b false o)) <$> outputs tx in
  NoDup ins → (∀ c, c ∈ ins → is_Some (m !! c)) →
  NoDup outs.*1 → (∀ c, c ∈ outs.*1 → m !! c = None) →
  try_fold (rebuild_tx h b) m txs = Ok (utxo_table (list_to_map outs) ∪ delete_all ins m).
Proof.
  revert m. induction txs as [|tx txs IH]; intros m ins outs Hi Hip Ho Hof.
  { cbn. unfold utxo_table. rewrite fmap_empty. by rewrite map_empty_union. }
  subst ins outs. cbn [mbind list_bind] in *.
  assert (Hk : ((λ o, (output_key o, output_entry b false o)) <$> outputs tx).*1
               = output_key <$> outputs tx) by (by rewrite <- list_fmap_compose).
  rewrite fmap_app, Hk in Ho, Hof. rewrite NoDup_app in Hi, Ho.
  destruct Hi as (Hi1 & Hi2 & Hi3), Ho as (Ho1 & Ho2 & Ho3).
  cbn [try_fold]. unfold rebuild_tx at 1.
  rewrite rebuild_inputs; [cbn [rbind]|done|by intros; apply Hip, elem_of_app; left].
  rewrite rebuild_outputs; [cbn [rbind]|done|].
  2:{ intros c Hc. rewrite delete_all_lookup, Hof by (apply elem_of_app; by left).
      by case_bool_decide. }
  rewrite IH; [|done| |done|].
  - f_equal. rewrite list_to_map_app, utxo_table_union, delete_all_app. apply map_eq. intros c.
    rewrite !lookup_union, !delete_all_lookup, !lookup_union, !delete_all_lookup, !utxo_table_lookup.
    destruct (decide (c ∈ output_key <$> outputs tx)) as [Hc|Hc].
    + assert (Hm : m !! c = None) by (apply Hof, elem_of_app; by left).
      rewrite (bool_decide_false (c ∈ txs ≫= _)).
      2:{ intros Hin. destruct (Hip c) as [? He]; [apply elem_of_app; by right|congruence]. }
      rewrite (not_elem_of_list_to_map_1 (txs ≫= _)) by (by apply Ho2). rewrite Hm.
      repeat case_bool_decide; destruct (_ !! c); done.
    + rewrite (not_elem_of_list_to_map_1 (_ <$> outputs tx)) by (by rewrite Hk).
      destruct (list_to_map _ !! c); repeat case_bool_decide; by destruct (m !! c).
  - intros c Hc. rewrite lookup_union, delete_all_lookup, bool_decide_false by (intros ?; by eapply Hi2).
    destruct (Hip c) as [e ->]; [apply elem_of_app; by right|]. by destruct (_ !! c).
  - intros c Hc. rewrite lookup_union, delete_all_lookup, Hof by (apply elem_of_app; by right).
    rewrite utxo_table_lookup, not_elem_of_list_to_map_1.
    2:{ rewrite Hk. intros Hin. by eapply Ho2. }
    by case_bool_decide.
Qed.

(** Rebuilding from a block applies it. *)
Lemma rebuild_block_applies (h : Z) (b : Block) (U : Utxos) :
  applies U b → rebuild_block h b (utxo_table U) = Ok (utxo_table (apply_block U b)).
Proof.
  intros [Hc Hcn Hs Hsp]. unfold rebuild_block, block_creates, block_entries, block_spends in *.
  cbn [fmap list_fmap fst] in Hc, Hcn. rewrite NoDup_cons in Hc. destruct Hc as [Hc0 Hc].
  unfold rebuild_insert. rewrite utxo_table_lookup, Hcn by left. cbn [fmap option_fmap option_map rbind].
  rewrite rebuild_txs; [|done| |done|].
  - f_equal. unfold apply_block. rewrite utxo_table_union, utxo_table_delete_all.
    apply map_eq. intros c.
    rewrite !lookup_union, !delete_all_lookup, !utxo_table_lookup. unfold block_entries, block_spends.
    cbn [list_to_map foldr]. cbn [fst snd].
    destruct (decide (c = output_key (output (coinbase b)))) as [->|Hne].
    + rewrite !lookup_insert_eq, not_elem_of_list_to_map_1 by done.
      rewrite bool_decide_false; [by destruct (U !! _)|].
      intros Hin. destruct (Hsp _ Hin) as [e He]. rewrite Hcn in He by left. done.
    + rewrite !lookup_insert_ne by done. by rewrite utxo_table_lookup.
  - intros c Hin. destruct (Hsp c Hin) as [e He]. rewrite lookup_insert_is_Some', utxo_table_lookup, He.
    right. by eexists.
  - intros c Hin. rewrite lookup_insert_ne by (by intros <-).
    rewrite utxo_table_lookup, Hcn by (by right). done.
Qed.
