(* ===== verification/ChainLaws.v ===== *)
(** * The chain state keeps the ledger

    [chain_ok cs l L]: the databases of [cs] hold the chain [l], its ledger [L], and the tip
    of [l].  Connecting a block that extends the tip keeps it, for the chain and the ledger
    with the block added, and so do retention and side blocks; and reopening a store that
    has it rebuilds exactly the stored unspent outputs. *)

From Stdlib Require Import ZArith Lia.
From stdpp Require Import base list strings gmap sorting.
From S2P Require Import Prelude ByteOrder CoreError Core Serialization CryptoHash Pow Curve.
From S2P Require Import Keys Pedersen Schnorr RangeProof RangeProve Transaction TransactionLaws BlockHeader.
From S2P Require Import Consensus ConsensusLaws Genesis Utxo Store StoreLaws StateM Reorg.
From S2P Require Import ChainUtxo ChainState ChainConnect Ledger.

Lemma height_key_inj a b : u64_ok a → u64_ok b → le_bytes 8 a = le_bytes 8 b → a = b.
Proof. apply (le_bytes_inj 8). Qed.

Lemma height_key_ne i n :
  (i < n)%nat → Z.of_nat n < 2 ^ 64 → le_bytes 8 (Z.of_nat n) ≠ le_bytes 8 (Z.of_nat i).
Proof. intros Hi Hn He. apply height_key_inj in He; unfold in_width; lia. Qed.

(** ** Reads *)

Section reads.
Context `{HL : Lmdb}.

Lemma get_raw_Ok w d k s r : get_raw w d k s = Ok r → r = table d s !! k.
Proof.
  unfold get_raw, mdb_get, faulty. intros H. res_inv.
  destruct (lmdb_fault _); [done|]. destruct (table d s !! k); by injection H.
Qed.
Lemma get_raw_total w d k s : no_faults → get_raw w d k s = Ok (table d s !! k).
Proof.
  intros Hf. unfold get_raw, mdb_get, faulty. rewrite (proj2 begin_ro_Ok (Hf _)). cbn [rbind].
  rewrite (Hf (C_get d k)). by destruct (table d s !! k).
Qed.

Lemma get_hash_value_Ok w c d k s r : get_hash_value w c d k s = Ok r → r = table d s !! k.
Proof.
  unfold get_hash_value. intros H. apply rbind_Ok in H as (v & ->%get_raw_Ok & H).
  by destruct (table d s !! k); res_inv.
Qed.
Lemma get_hash_value_total w c d k s :
  no_faults → (∀ v, table d s !! k = Some v → zlen v = 32) →
  get_hash_value w c d k s = Ok (table d s !! k).
Proof.
  intros Hf Hv. unfold get_hash_value. rewrite get_raw_total by done. cbn [rbind].
  destruct (table d s !! k) as [v|]; [|done]. by rewrite (Hv v).
Qed.

Lemma get_utxo_Ok s U c r :
  db_utxos s = utxo_table U → map_Forall (λ _, utxo_ok) U →
  get_utxo s c = Ok r → r = U !! c.
Proof.
  intros Ht Hok. unfold get_utxo. intros H.
  apply rbind_Ok in H as (v & ->%get_raw_Ok & H). cbn [table] in H.
  rewrite Ht, utxo_table_lookup in H.
  destruct (U !! c) as [e|] eqn:He; cbn [fmap option_fmap option_map] in H; [|by injection H].
  rewrite utxo_roundtrip in H by (by eapply Hok). by injection H.
Qed.
End reads.

Section chain_ok.
Context `{HB : Blake2b256} `{HM : HmacSha256} `{HC : Secp256k1} `{HZ : !ZkpBackend}.
Context `{HR : RandomXHash} `{HP : ZkpProver} `{HL : Lmdb} (env : option string).

(** ** Stored chains *)

(** The body stored for a block of the canonical chain *)
Inductive body_at (s : DomStore) (magic : Z) (h : Z) (hash : bytes) : option Block → Prop :=
| body_envelope body :
    h = 0 → magic = NETWORK_MAGIC_MAINNET → db_block_bodies s !! hash = Some body →
    is_ok (validate_mainnet_genesis_identity body) = true → body_at s magic h hash None
| body_block body b hb :
    db_block_bodies s !! hash = Some body → from_bytes Block body = Ok b → block_ok b →
    to_bytes (header b) = Ok hb → compute_block_identifier magic hb = Ok {| hash_bytes := hash |} →
    height_val (height (header b)) = h →
    (h = 0 → is_ok (validate_mainnet_genesis_identity body) = false) →
    body_at s magic h hash (Some b).

(** The header stored for it *)
Definition header_at (s : DomStore) (h : Z) (hash : bytes) : Prop :=
  ∃ hb hd, db_blocks s !! hash = Some hb ∧ from_bytes BlockHeader hb = Ok hd ∧
           height_val (height hd) = h.

Record stored (s : DomStore) (magic : Z) (l : Chain) : Prop := {
  so_length : zlen l ≤ 2 ^ 64;
  so_index : ∀ i hash ob, l !! i = Some (hash, ob) →
    db_height s !! le_bytes 8 (Z.of_nat i) = Some hash ∧ zlen hash = 32;
  so_body : ∀ i hash ob, l !! i = Some (hash, ob) → body_at s magic (Z.of_nat i) hash ob;
  so_header : ∀ i hash ob, l !! i = Some (hash, ob) → header_at s (Z.of_nat i) hash;
  so_link : ∀ i hash b parent ob, l !! S i = Some (hash, Some b) → l !! i = Some (parent, ob) →
    hash_bytes (prev_hash (header b)) = parent;
}.

(** The tip in memory is the stored one, with the work of its header. *)
Definition at_tip (cs : ChainState) : Prop :=
  db_tip (store cs) !! TIP_KEY = Some (hash_bytes (tip_hash cs)) ∧
  ∃ hb hd, db_blocks (store cs) !! hash_bytes (tip_hash cs) = Some hb ∧
           from_bytes BlockHeader hb = Ok hd ∧ total_difficulty hd = tip_difficulty cs.

Record chain_ok (cs : ChainState) (l : Chain) (L : LedgerState) : Prop := {
  ck_stored : stored (store cs) (network_magic cs) l;
  ck_ledger : ledger l L;
  ck_utxos : db_utxos (store cs) = utxo_table (unspent L);
  ck_entries : map_Forall (λ _, utxo_ok) (unspent L);
  ck_kernels : db_kernels (store cs) = kernel_of L;
  ck_tip : fst <$> last l = Some (hash_bytes (tip_hash cs));
  ck_height : height_val (tip_height cs) = zlen l - 1;
  ck_at_tip : at_tip cs;
}.

(** Nothing a chain needs changes. *)
Lemma stored_mono s s' magic l :
  (∀ hash, hash ∈ l.*1 → db_blocks s' !! hash = db_blocks s !! hash ∧
                         db_block_bodies s' !! hash = db_block_bodies s !! hash) →
  (∀ i, (i < length l)%nat → db_height s' !! le_bytes 8 (Z.of_nat i)
                             = db_height s !! le_bytes 8 (Z.of_nat i)) →
  stored s magic l → stored s' magic l.
Proof.
  intros Hk Hh [H1 H2 H3 H4 H5].
  assert (Hin : ∀ i hash ob, l !! i = Some (hash, ob) → hash ∈ l.*1 ∧ (i < length l)%nat).
  { intros i hash ob Hi. split; [|by eapply lookup_lt_Some].
    apply list_elem_of_fmap. exists (hash, ob). split; [done|by eapply list_elem_of_lookup_2]. }
  split; [done| | | |done]; intros i hash ob Hi; destruct (Hin _ _ _ Hi) as [Hel Hlt].
  - rewrite Hh by done. eauto.
  - destruct (H3 _ _ _ Hi); [eapply body_envelope|eapply body_block]; try done;
      by rewrite (proj2 (Hk _ Hel)).
  - destruct (H4 _ _ _ Hi) as (hb & hd & Hb & ?). exists hb, hd.
    by rewrite (proj1 (Hk _ Hel)).
Qed.

(** ** Retention *)

Lemma canonical_hashes_covers s th out h hash :
  canonical_hashes s th = Ok out → h ∈ heights th →
  db_height s !! le_bytes 8 h = Some hash → hash ∈ out.
Proof.
  unfold canonical_hashes. generalize (∅ : gset bytes). generalize (heights th).
  assert (Hmono : ∀ hs (acc out : gset bytes),
    try_fold (λ out h, let? r := get_hash_at_height s h in
       Ok (match r with Some hash => {[hash]} ∪ out | None => out end)) acc hs = Ok out → acc ⊆ out).
  { induction hs as [|h' hs IH]; intros acc o H; cbn [try_fold] in H; [by injection H as ->|].
    res_inv. etrans; [|by eapply IH]. destruct a0; set_solver. }
  induction l as [|h' hs IH]; intros acc H Hin Hh; [by apply not_elem_of_nil in Hin|].
  cbn [try_fold] in H. res_inv. apply elem_of_cons in Hin as [->|Hin]; [|by eapply IH].
  apply Hmono in H. apply get_hash_value_Ok in Hm0. cbn [table] in Hm0. rewrite Hh in Hm0.
  subst. set_solver.
Qed.

Lemma prune_block_Ok s hash s' :
  prune_block s hash = Ok s' →
  s' = set_table DB_BLOCK_BODIES (delete hash (db_block_bodies s))
         (set_table DB_BLOCKS (delete hash (db_blocks s)) s).
Proof.
  unfold prune_block. intros H. res_inv. apply del_if_present_Ok in Hm as [_ ->].
  by apply del_if_present_Ok in H as [_ ->].
Qed.

Lemma prune_known_blocks_Ok s ks s' :
  prune_known_blocks s ks = Ok s' →
  s' = set_table DB_BLOCK_BODIES (delete_all ks (db_block_bodies s))
         (set_table DB_BLOCKS (delete_all ks (db_blocks s)) s).
Proof.
  unfold prune_known_blocks. case_bool_decide as Hks.
  { intros [= <-]. subst. by destruct s. }
  intros H. res_inv. clear Hks Hm. revert s Hm0.
  induction ks as [|k ks IH]; intros s H; cbn [try_fold] in H.
  - injection H as <-. by destruct s.
  - res_inv. apply prune_block_Ok in Hm as ->. apply IH in H as ->.
    assert (Hcomm : ∀ m : gmap bytes bytes, delete_all ks (delete k m) = delete_all (k :: ks) m).
    { intros m. apply map_eq. intros j. rewrite !delete_all_lookup, lookup_delete.
      repeat case_bool_decide; repeat case_decide; set_solver. }
    unfold set_table; cbn. by rewrite !Hcomm.
Qed.

(** Retention removes only blocks that are not on the canonical chain. *)
Lemma prune_keeps th hash s s' magic l :
  height_val th = zlen l - 1 → stored s magic l →
  prune_retained_side_chains th hash s = Ok s' →
  stored s' magic l ∧ (∀ k, k ∈ l.*1 → db_blocks s' !! k = db_blocks s !! k) ∧
  ∃ ks, s' = set_table DB_BLOCK_BODIES (delete_all ks (db_block_bodies s))
               (set_table DB_BLOCKS (delete_all ks (db_blocks s)) s).
Proof.
  intros Hth Hs H.
  assert (Hks : ∃ ks, (∀ k, k ∈ ks → k ∉ l.*1) ∧
    s' = set_table DB_BLOCK_BODIES (delete_all ks (db_block_bodies s))
           (set_table DB_BLOCKS (delete_all ks (db_blocks s)) s)).
  { unfold prune_retained_side_chains in H. res_inv.
    - exists []. split; [set_solver|]. by destruct s'.
    - exists []. split; [set_solver|]. by destruct s'.
    - apply prune_known_blocks_Ok in H. eexists. split; [|exact H].
      intros k [_ Hk]%list_elem_of_filter Hl.
      apply try_map_Ok in Hm1. apply list_elem_of_fmap in Hk as ([k' hd] & -> & Hk).
      apply list_elem_of_lookup_1 in Hk as [j Hj].
      destruct (Forall2_lookup_r _ _ _ _ _ Hm1 Hj) as ([k0 v] & Hj' & Hf). res_inv.
      apply list_elem_of_lookup_2, list_elem_of_filter in Hj' as [Hnc _]. apply Hnc. cbn [fst] in *.
      apply list_elem_of_fmap in Hl as ([k1 ob] & -> & [i Hi]%list_elem_of_lookup_1).
      eapply canonical_hashes_covers; [done| |exact (proj1 (so_index _ _ _ Hs i k1 ob Hi))].
      pose proof (lookup_lt_Some _ _ _ Hi). unfold heights. apply elem_of_seqZ.
      unfold zlen in Hth. lia. }
  destruct Hks as (ks & Hdis & ->).
  assert (Hsame : ∀ (m : gmap bytes bytes) k, k ∈ l.*1 → delete_all ks m !! k = m !! k).
  { intros m k Hk. rewrite delete_all_lookup, bool_decide_false; [done|]. intros Hin. by eapply Hdis. }
  split; [|split; [intros k Hk; by apply Hsame|by exists ks]].
  apply (stored_mono s); [|done|done]. intros k Hk. by split; apply Hsame.
Qed.

(** ** Entries *)

Lemma block_entries_ok b c e : block_ok b → (c, e) ∈ block_entries b → utxo_ok e.
Proof.
  intros Hb Hin. pose proof (block_ok_txs b Hb) as Htxs. destruct Hb as (Hh & Hcb & _).
  assert (Hw : ∀ f (o : TransactionOutput), wf o → utxo_ok (output_entry b f o)).
  { intros f o Ho. split; [apply Hh|]. apply Ho. }
  unfold block_entries in Hin. apply elem_of_cons in Hin as [[= -> ->]|Hin]; [apply Hw, Hcb|].
  apply list_elem_of_bind in Hin as (tx & Hin & Htx).
  apply list_elem_of_fmap in Hin as (o & [= -> ->] & Ho). apply Hw.
  rewrite Forall_forall in Htxs. destruct (Htxs tx Htx) as (_ & Hos & _).
  apply list_ok_Forall in Hos. rewrite Forall_forall in Hos. by apply Hos.
Qed.

Lemma apply_block_ok U b :
  block_ok b → map_Forall (λ _, utxo_ok) U → map_Forall (λ _, utxo_ok) (apply_block U b).
Proof.
  intros Hb HU c e. rewrite apply_block_lookup.
  destruct (list_to_map _ !! c) as [e'|] eqn:He.
  - intros [= <-]. apply elem_of_list_to_map_2 in He. by eapply block_entries_ok.
  - case_bool_decide; [done|]. apply HU.
Qed.

Lemma run_entries_ok s magic L l L' :
  (∀ i hash ob, l !! i = Some (hash, ob) → ∃ h, body_at s magic h hash ob) →
  map_Forall (λ _, utxo_ok) (unspent L) → run L l L' → map_Forall (λ _, utxo_ok) (unspent L').
Proof.
  intros Hl HL' Hr. induction Hr as [|? ? ? ? ? IH|? ? b ? ? ? ? IH]; [done| |].
  - apply IH; [|done]. intros i. apply (Hl (S i)).
  - apply IH; [intros i; apply (Hl (S i))|]. apply apply_block_ok; [|done].
    destruct (Hl 0%nat hash (Some b) eq_refl) as [h Hb]. by inversion Hb.
Qed.

(** ** Extending the tip *)

Lemma changeset_new b : (build_utxo_changeset b).1.*1 = block_creates b.
Proof.
  cbn [build_utxo_changeset fst]. rewrite <- list_fmap_compose. unfold block_creates.
  apply list_fmap_ext. by intros ? [].
Qed.

Lemma changeset_table b :
  (list_to_map (build_utxo_changeset b).1 : gmap bytes bytes) = utxo_table (list_to_map (block_entries b)).
Proof.
  unfold utxo_table. rewrite <- list_to_map_fmap. f_equal.
  apply list_fmap_ext. by intros ? [].
Qed.

(** The writes of a committed block apply it. *)
Lemma committed_utxos b U :
  applies U b →
  delete_all (build_utxo_changeset b).2
    (list_to_map (build_utxo_changeset b).1 ∪ utxo_table U) = utxo_table (apply_block U b).
Proof.
  intros Ha. rewrite changeset_table. unfold apply_block.
  rewrite utxo_table_union, utxo_table_delete_all. change (build_utxo_changeset b).2 with (block_spends b).
  apply map_eq. intros c. rewrite delete_all_lookup, !lookup_union, delete_all_lookup.
  case_bool_decide as Hs; [|done].
  rewrite utxo_table_lookup, not_elem_of_list_to_map_1; [done|]. by eapply spends_not_created.
Qed.

Lemma direct_inputs_present cs L b :
  db_utxos (store cs) = utxo_table (unspent L) → map_Forall (λ _, utxo_ok) (unspent L) →
  validate_direct_extension_inputs cs b = Ok tt →
  ∀ c, c ∈ block_spends b → is_Some (unspent L !! c).
Proof.
  intros Ht Hok H c Hc. unfold validate_direct_extension_inputs in H.
  apply try_each_Ok in H. rewrite Forall_forall in H.
  unfold block_spends in Hc. apply list_elem_of_bind in Hc as (tx & Hc & Htx).
  apply list_elem_of_fmap in Hc as (i & -> & Hi).
  assert (Hv := H i (proj2 (list_elem_of_bind _ _ _) (ex_intro _ tx (conj Hi Htx)))). clear H.
  unfold validate_direct_extension_input in Hv. res_inv.
  apply (get_utxo_Ok _ (unspent L)) in Hm; [|done..]. by rewrite <- Hm.
Qed.

Lemma commit_ready_accepts cs l L hash b :
  chain_ok cs l L → validate_direct_extension_inputs cs b = Ok tt →
  commit_ready (store cs) hash (build_utxo_changeset b).1 (build_utxo_changeset b).2
    (block_kernels hash b) → accepts L hash b.
Proof.
  intros Hck Hin [_ _ H1 H2 H3 _ H4 H5]. rewrite changeset_new in H1, H2.
  rewrite (ck_kernels _ _ _ Hck) in H5. split; [split|done|done].
  - done.
  - intros c Hc. specialize (H2 c Hc). rewrite (ck_utxos _ _ _ Hck), utxo_table_lookup in H2.
    by apply fmap_None in H2.
  - done.
  - eapply direct_inputs_present; [apply Hck..|done].
Qed.

(** The stored chain after a commit *)
Lemma committed_stored s magic l hash b hb body new spent kers :
  stored s magic l → l ≠ [] →
  hash_bytes (prev_hash (header b)) = default [] (fst <$> last l) →
  db_blocks s !! hash = None → db_block_bodies s !! hash = None →
  block_ok b → from_bytes Block body = Ok b →
  to_bytes (header b) = Ok hb → from_bytes BlockHeader hb = Ok (header b) →
  compute_block_identifier magic hb = Ok {| hash_bytes := hash |} → zlen hash = 32 →
  height_val (height (header b)) = zlen l →
  stored (committed s hash (zlen l) hb body new spent kers) magic (l ++ [(hash, Some b)]).
Proof.
  intros Hs Hne Hlink Hh Hb Hbok Hdec Hhb Hhd Hid Hl32 Hht.
  assert (Hu : u64_ok (height_val (height (header b)))) by apply Hbok.
  assert (Hpos : 0 < zlen l) by (destruct l; [done|rewrite zlen_cons; pose proof (zlen_nonneg l); lia]).
  set (s' := committed _ _ _ _ _ _ _ _).
  assert (Hold : stored s' magic l).
  { apply (stored_mono s); [| |done].
    - intros k Hk. apply list_elem_of_fmap in Hk as ([k' ob] & -> & [i Hi]%list_elem_of_lookup_1).
      cbn [fst]. destruct (so_header _ _ _ Hs i k' ob Hi) as (hb' & hd & Hk & _).
      assert (Hkb : is_Some (db_block_bodies s !! k')) by (destruct (so_body _ _ _ Hs i k' ob Hi); eauto).
      assert (k' ≠ hash) by (intros ->; congruence). cbn.
      by rewrite !lookup_insert_ne.
    - intros i Hi. unfold s'. cbn [committed db_height]. apply lookup_insert_ne.
      apply height_key_ne; [done|]. fold (zlen l). rewrite <- Hht. apply Hu. }
  destruct Hold as [H1 H2 H3 H4 H5].
  assert (Hcase : ∀ i k ob, (l ++ [(hash, Some b)]) !! i = Some (k, ob) →
    l !! i = Some (k, ob) ∨ i = length l ∧ k = hash ∧ ob = Some b).
  { intros i k ob Hi. apply lookup_app_Some in Hi as [?|[? Hi]]; [by left|right].
    apply list_lookup_singleton_Some in Hi as [? [= -> ->]]. split_and!; try done. lia. }
  split.
  - rewrite zlen_app, zlen_cons, zlen_nil. unfold in_width in Hu. lia.
  - intros i k ob [Hi|(-> & -> & ->)]%Hcase; [eauto|]. unfold s'. cbn [committed db_height].
    by rewrite lookup_insert_eq.
  - intros i k ob [Hi|(-> & -> & ->)]%Hcase; [eauto|].
    eapply body_block; try done; [cbn; by rewrite lookup_insert_eq|]. unfold zlen in Hpos. lia.
  - intros i k ob [Hi|(-> & -> & ->)]%Hcase; [eauto|]. exists hb, (header b). cbn.
    by rewrite lookup_insert_eq.
  - intros i k b' parent ob [Hi|(Hi & -> & [= ->])]%Hcase Hp; apply Hcase in Hp.
    + destruct Hp as [Hp|(-> & _ & _)]; [eauto|]. apply lookup_lt_Some in Hi. lia.
    + destruct Hp as [Hp|(-> & _ & _)]; [|lia]. rewrite Hlink, last_lookup.
      rewrite <- Hi. cbn [Nat.pred]. by rewrite Hp.
Qed.

(** A first block committed to databases without outputs and kernels starts a chain. *)
Lemma chain_start cs s hash b hb body :
  store cs = committed s hash 0 hb body (build_utxo_changeset b).1 (build_utxo_changeset b).2
               (block_kernels hash b) →
  db_utxos s = ∅ → db_kernels s = ∅ → accepts empty_ledger hash b → block_ok b →
  from_bytes Block body = Ok b → to_bytes (header b) = Ok hb →
  from_bytes BlockHeader hb = Ok (header b) →
  compute_block_identifier (network_magic cs) hb = Ok {| hash_bytes := hash |} → zlen hash = 32 →
  height_val (height (header b)) = 0 → is_ok (validate_mainnet_genesis_identity body) = false →
  tip_hash cs = {| hash_bytes := hash |} → height_val (tip_height cs) = 0 →
  tip_difficulty cs = total_difficulty (header b) → chain_ok cs [(hash, Some b)] (accept_block empty_ledger hash b).
Proof.
  intros Hs Hu Hk Hacc Hbok Hdec Hhb Hhd Hid H32 Hht Hne Ht Hth Hd.
  assert (Hone : ∀ i x, [(hash, Some b)] !! i = Some x → i = 0%nat ∧ x = (hash, Some b)).
  { intros i x [-> ->]%list_lookup_singleton_Some. done. }
  split; [split|..]; rewrite ?Hs.
  - done.
  - intros i k ob [-> [= -> ->]]%Hone. cbn [committed db_height]. by rewrite lookup_insert_eq.
  - intros i k ob [-> [= -> ->]]%Hone. eapply body_block; try done.
    cbn [committed db_block_bodies]. by rewrite lookup_insert_eq.
  - intros i k ob [-> [= -> ->]]%Hone. exists hb, (header b). cbn [committed db_blocks].
    by rewrite lookup_insert_eq.
  - intros i k b' parent ob [? _]%Hone. done.
  - eapply run_block; [done|constructor].
  - cbn [committed db_utxos]. rewrite Hu. exact (committed_utxos b ∅ (ac_applies _ _ _ Hacc)).
  - apply apply_block_ok; [done|apply map_Forall_empty].
  - cbn [committed db_kernels]. by rewrite Hk.
  - by rewrite Ht.
  - by rewrite Hth.
  - unfold at_tip. rewrite Hs, Ht. cbn [committed db_tip db_blocks hash_bytes].
    rewrite !lookup_insert_eq. split; [done|]. by exists hb, (header b).
Qed.

(** ** The state-changing steps *)

(** A block as the network delivers it *)
Definition on_wire (b : Block) : Prop :=
  ∃ raw, bytes_ok raw ∧ zlen raw < 2 ^ 63 ∧ from_bytes Block raw = Ok b.

Lemma on_wire_codec b body :
  on_wire b → to_bytes b = Ok body → block_ok b ∧ from_bytes Block body = Ok b.
Proof.
  intros (raw & Hb & Hl & Hf) Ht. destruct (codec_exact raw b Hb Hl) as [_ Hiff].
  destruct (proj1 Hiff Hf) as [Hwf Hraw]. split; [done|]. congruence.
Qed.

Lemma header_reads_back h hb :
  header_ok h → to_bytes h = Ok hb → from_bytes BlockHeader hb = Ok h.
Proof.
  intros Hh Hhb. rewrite to_bytes_wire in Hhb by done. injection Hhb as <-.
  apply from_bytes_wire; [exact (wire_bytes_ok (T := BlockHeader) h Hh)| |done].
  rewrite (zlen_header_wire h Hh). done.
Qed.

Lemma identifier_is_hash magic hb h hash :
  from_bytes BlockHeader hb = Ok h → height h ≠ GENESIS →
  compute_block_identifier magic hb = Ok hash → hash = blake2b_256 hb.
Proof.
  intros Hh Hg. unfold compute_block_identifier, canonical_header_identifier.
  rewrite Hh. cbn [rbind]. rewrite bool_decide_false, andb_false_r by done. intros H. by res_inv.
Qed.

Lemma chain_ok_nonempty cs l L : chain_ok cs l L → l ≠ [].
Proof. intros H ->. pose proof (ck_tip _ _ _ H). done. Qed.

Lemma Hash256_eta (h : Hash256) : {| hash_bytes := hash_bytes h |} = h.
Proof. by destruct h. Qed.

Lemma at_tip_keeps cs (l : Chain) s :
  at_tip cs → fst <$> last l = Some (hash_bytes (tip_hash cs)) →
  db_tip s = db_tip (store cs) → (∀ k, k ∈ l.*1 → db_blocks s !! k = db_blocks (store cs) !! k) →
  at_tip (with_store cs s).
Proof.
  intros [Ht Hh] Hl Hd Hb. unfold at_tip. cbn [with_store store tip_hash tip_difficulty].
  rewrite Hd, Hb; [done|]. rewrite <- fmap_last, last_Some in Hl. destruct Hl as [l' ->]. set_solver.
Qed.

Lemma prune_self_keeps cs l L cs' r :
  chain_ok cs l L → prune_self cs = (cs', r) → chain_ok cs' l L.
Proof.
  intros H Hr. unfold prune_self in Hr. apply st_update_inv in Hr as [[Hp ->]|[-> _]]; [|done]. destruct H as [H1 H2 H3 H4 H5 H6 H7 H8].
  res_inv. destruct (prune_keeps _ _ _ _ _ _ H7 H1 Hm) as (Hs & Hb & ks & ->). split; try done.
  by eapply at_tip_keeps.
Qed.

Lemma store_known_block_keeps s hash hb body s' magic l :
  stored s magic l → store_known_block s hash hb body = Ok s' →
  stored s' magic l ∧ (∀ k, k ∈ l.*1 → db_blocks s' !! k = db_blocks s !! k) ∧
  s' = set_table DB_BLOCK_BODIES (<[hash := body]> (db_block_bodies s))
         (set_table DB_BLOCKS (<[hash := hb]> (db_blocks s)) s).
Proof.
  intros Hs H. unfold store_known_block in H. res_inv.
  apply put_block_Ok in Hm0 as (_ & Hh & Hb & ->).
  assert (Hne : ∀ k, k ∈ l.*1 → hash ≠ k).
  { intros k Hk. apply list_elem_of_fmap in Hk as ([k' ob] & -> & [i Hi]%list_elem_of_lookup_1).
    destruct (so_header _ _ _ Hs i k' ob Hi) as (hb' & hd & Hk & _). cbn [fst]. congruence. }
  split; [|split; [|done]].
  - apply (stored_mono s); [|done|done]. intros k Hk. cbn. by rewrite !lookup_insert_ne by eauto.
  - intros k Hk. cbn. by rewrite lookup_insert_ne by eauto.
Qed.

Lemma side_block_keeps cs l L hash hb body s :
  chain_ok cs l L → store_known_block (store cs) hash hb body = Ok s → chain_ok (with_store cs s) l L.
Proof.
  intros [H1 H2 H3 H4 H5 H6 H7 H8] Hs.
  destruct (store_known_block_keeps _ _ _ _ _ _ _ H1 Hs) as (Hst & Hb & ->). split; try done.
  by eapply at_tip_keeps.
Qed.

Lemma extend_tip_keeps cs l L b hash hb body cs' r :
  chain_ok cs l L → block_ok b → from_bytes Block body = Ok b → to_bytes (header b) = Ok hb →
  compute_block_identifier (network_magic cs) hb = Ok hash → zlen (hash_bytes hash) = 32 →
  prev_hash (header b) = tip_hash cs → height_val (height (header b)) = zlen l →
  extend_tip b hash hb body cs = (cs', r) →
  (cs' = cs ∧ is_ok r = false) ∨
  (r = Ok tt ∧ chain_ok cs' (l ++ [(hash_bytes hash, Some b)]) (accept_block L (hash_bytes hash) b)).
Proof.
  intros Hck Hbok Hdec Hhb Hid H32 Hprev Hht. unfold extend_tip.
  destruct (build_utxo_changeset b) as [new spent] eqn:Hcs.
  intros [([] & s1 & [-> Hin]%st_get_Ok & H)|(? & [= <- _] & _ & ?)]%st_bind_inv; [|by left].
  apply st_bind_inv in H as [(? & s1 & [-> _]%st_get_Ok & H)|(? & [= <- _] & _ & ?)]; [|by left].
  apply st_bind_inv in H as [(? & s1 & [-> _]%st_get_Ok & H)|(? & [= <- _] & _ & ?)]; [|by left].
  apply st_update_inv in H as [[H ->]|H]; [right|by left]. split; [done|]. res_inv.
  apply commit_block_Ok in Hm as [Hready ->].
  assert (Hacc : accepts L (hash_bytes hash) b).
  { eapply commit_ready_accepts; [done..|]. rewrite Hcs. by destruct hash. }
  pose proof (cr_header _ _ _ _ _ Hready) as Hfh. pose proof (cr_body _ _ _ _ _ Hready) as Hfb.
  rewrite Hht. destruct Hck as [H1 H2 H3 H4 H5 H6 H7 _]. split.
  - cbn [store with_tip with_store network_magic]. apply committed_stored; try done.
    + by intros ->.
    + by rewrite H6, Hprev.
    + apply header_reads_back; [apply Hbok|done].
    + rewrite Hid. by destruct hash.
  - by apply run_snoc.
  - cbn. rewrite H3. pose proof (committed_utxos b (unspent L) (ac_applies _ _ _ Hacc)) as Hu.
    by rewrite Hcs in Hu.
  - by apply apply_block_ok.
  - cbn. rewrite H5. by destruct hash.
  - by rewrite last_snoc.
  - cbn [with_tip tip_height]. rewrite zlen_app, zlen_cons, zlen_nil. lia.
  - unfold at_tip. cbn. rewrite !lookup_insert_eq. split; [done|].
    eexists _, _. split; [done|]. split; [|done]. apply header_reads_back; [apply Hbok|done].
Qed.

(** A block on top of the tip has the next height. *)
Lemma direct_extension_height cs l L b hash now :
  chain_ok cs l L → height (header b) ≠ GENESIS → prev_hash (header b) = tip_hash cs →
  validate_new_block env cs b hash now = Ok tt → height_val (height (header b)) = zlen l.
Proof.
  intros Hck Hg Hprev H. unfold validate_new_block in H.
  do 3 apply rbind_Ok in H as ([] & _ & H). apply rbind_Ok in H as (parent & Hp & _).
  rewrite bool_decide_true in Hp by done.
  apply rbind_Ok in Hp as (p & Hpar & Hp). apply rbind_Ok in Hp as (next & Hnext%ok_or_Ok & Hp).
  apply rbind_Ok in Hpar as (r & Hr%get_raw_Ok & Hpar).
  apply rbind_Ok in Hpar as (pb & Hpb%ok_or_Ok & Hpar).
  destruct (bool_decide (height (header b) ≠ next)) eqn:Hn; [done|].
  apply bool_decide_eq_false, dec_stable in Hn as ->.
  subst r. cbn [table] in Hpb. rewrite Hprev in Hpb.
  pose proof (ck_tip _ _ _ Hck) as Htip. rewrite last_lookup in Htip.
  destruct (l !! Nat.pred (length l)) as [[k ob]|] eqn:Hl; [|done]. injection Htip as ->.
  destruct (so_header _ _ _ (ck_stored _ _ _ Hck) _ _ _ Hl) as (hb & hd & Hb & Hd & Hh).
  assert (p = hd) as -> by congruence.
  unfold checked_next in Hnext. apply fmap_Some in Hnext as (v & Hv & ->).
  apply checked_add_Some in Hv as [? ?]. cbn [height_val].
  pose proof (lookup_lt_Some _ _ _ Hl). unfold zlen. lia.
Qed.

(** ** Connecting *)

(** What the databases hold after connecting [b], by the result *)
Definition connected (l : Chain) (L : LedgerState) (b : Block) (now : Timestamp)
    (cs' : ChainState) (r : Result ConnectResult) : Prop :=
  let kept := chain_ok cs' l L in
  let extended := ∃ hash, chain_ok cs' (l ++ [(hash, Some b)]) (accept_block L hash b) in
  match r with
  | Ok BestChain => extended
  | Ok SideChain | Ok AlreadyHave => kept
  | _ => kept ∨ extended ∨
         ∃ cs1 hash r1, chain_ok cs1 l L ∧ promote_heavier_known_tip hash now cs1 = (cs', r1)
  end.

Lemma connected_stop l L b now cs' (r : Result ConnectResult) :
  is_ok r = false → chain_ok cs' l L → connected l L b now cs' r.
Proof. destruct r; [done|..]; by left. Qed.

Lemma connected_direct cs l L b now hash hb body cs' r :
  chain_ok cs l L → block_ok b → from_bytes Block body = Ok b → to_bytes (header b) = Ok hb →
  compute_block_identifier (network_magic cs) hb = Ok hash → zlen (hash_bytes hash) = 32 →
  prev_hash (header b) = tip_hash cs → height_val (height (header b)) = zlen l →
  (do! _ := extend_tip b hash hb body in do! _ := prune_self in st_ret BestChain) cs = (cs', r) →
  connected l L b now cs' r.
Proof.
  intros Hck Hbok Hdec Hhb Hid H32 Hdir Hht H.
  pose proof (λ cs' r, extend_tip_keeps cs l L b hash hb body cs' r Hck Hbok Hdec Hhb Hid H32 Hdir Hht)
    as Hext.
  apply st_bind_inv in H as [(? & s1 & He & H)|(r1 & He & Hr1 & Hr)].
  - apply Hext in He as [[_ ?]|[_ Hck1]]; [done|].
    apply st_bind_inv in H as [(? & s2 & Hp & H)|(r2 & Hp & _ & Hr)];
      pose proof (prune_self_keeps _ _ _ _ _ Hck1 Hp) as Hck2.
    + injection H as <- <-. by eexists.
    + destruct r; [done|..]; right; left; by eexists.
  - apply Hext in He as [[-> _]|[-> _]]; [|done]. by apply connected_stop.
Qed.

Lemma connected_side cs l L b now hash hb body (heavier : bool) cs' r :
  chain_ok cs l L →
  (do! _ := st_update (λ cs,
      let? s := store_known_block (store cs) (hash_bytes hash) hb body in Ok (with_store cs s)) in
   do! _ := prune_self in
   if heavier then
     do! reorg := promote_heavier_known_tip hash now in st_ret (Reorg reorg)
   else st_ret SideChain) cs = (cs', r) →
  connected l L b now cs' r.
Proof.
  intros Hck H.
  apply st_bind_inv in H as [(? & s1 & Hs & H)|(r1 & Hs & Hr1 & Hr)].
  2:{ apply st_update_inv in Hs as [[_ ->]|[-> _]]; [done|]. by apply connected_stop. }
  apply st_update_inv in Hs as [[Hs _]|[_ ?]]; [|done]. res_inv.
  pose proof (side_block_keeps _ _ _ _ _ _ _ Hck Hm) as Hck1.
  apply st_bind_inv in H as [(? & s2 & Hp & H)|(r2 & Hp & _ & Hr)];
    pose proof (prune_self_keeps _ _ _ _ _ Hck1 Hp) as Hck2; [|by apply connected_stop].
  destruct heavier; [|by injection H as <- <-].
  apply st_bind_inv in H as [(d & s3 & Hpr & H)|(r3 & Hpr & Hr3 & Hr)].
  - injection H as <- <-. right; right. by eexists _, _, _.
  - destruct r; [done|..]; right; right; by eexists _, _, _.
Qed.

(** C2: Connecting keeps the ledger.  When the databases hold a chain with its unspent
    outputs and kernels, then after connecting a block that arrived from the wire they still
    do, whatever the outcome and whichever of LMDB's calls failed: for the same chain when
    the block was known or went to a side branch, for the chain with the block applied when
    the result is the best chain.  On an error they hold one of the two, unless the
    promotion of a heavier branch was started on databases that held the old chain. *)
Theorem connect_block_keeps_ledger cs l L b now cs' r :
  chain_ok cs l L → on_wire b → height (header b) ≠ GENESIS →
  connect_block env b now cs = (cs', r) → connected l L b now cs' r.
Proof.
  intros Hck Hw Hg H. unfold connect_block in H.
  apply st_bind_inv in H as [(hb & s1 & [-> Hhb]%st_get_Ok & H)|(? & [= <- _] & _ & ?)];
    [|by apply connected_stop].
  apply st_bind_inv in H as [(hash & s1 & [-> Hid]%st_get_Ok & H)|(? & [= <- _] & _ & ?)];
    [|by apply connected_stop].
  apply st_bind_inv in H as [(known & s1 & [-> _]%st_get_Ok & H)|(? & [= <- _] & _ & ?)];
    [|by apply connected_stop].
  destruct known; [by injection H as <- <-|].
  apply st_bind_inv in H as [([] & s1 & [-> Hv]%st_get_Ok & H)|(? & [= <- _] & _ & ?)];
    [|by apply connected_stop].
  apply st_bind_inv in H as [(body & s1 & [-> Hbody]%st_get_Ok & H)|(? & [= <- _] & _ & ?)];
    [|by apply connected_stop].
  apply st_bind_inv in H as [(? & s1 & [-> [= <-]]%st_get_Ok & H)|(? & [= <- _] & _ & ?)];
    [|by apply connected_stop].
  destruct (on_wire_codec b body Hw Hbody) as [Hbok Hdec].
  assert (Hhd := header_reads_back _ _ (proj1 Hbok) Hhb).
  pose proof (identifier_is_hash _ _ _ _ Hhd Hg Hid) as Hhash.
  rewrite (bool_decide_false (height (header b) = GENESIS)) in H by done. cbn [orb] in H.
  destruct (bool_decide (prev_hash (header b) = tip_hash cs)) eqn:Hdir.
  - apply bool_decide_eq_true in Hdir.
    destruct (is_better_fork_choice_tip _ _ _ _); cbn [negb] in H;
      [|by injection H as <- <-; apply connected_stop].
    eapply connected_direct; [done..| | | |done].
    + rewrite Hhash. apply blake2b_len.
    + done.
    + by eapply direct_extension_height.
  - by eapply connected_side.
Qed.
End chain_ok.
