(* ===== verification/ReopenLaws.v ===== *)
(** * Reopening a store

    The recovery passes of [ChainState::open]: rebuilding the kernel index and comparing the
    stored unspent outputs with the set rebuilt from the blocks. *)

From Stdlib Require Import ZArith Lia.
From stdpp Require Import base list strings gmap sorting.
From S2P Require Import Prelude ByteOrder CoreError Core Serialization CryptoHash Pow Curve.
From S2P Require Import Keys Pedersen Schnorr RangeProof Transaction TransactionLaws BlockHeader.
From S2P Require Import Consensus ConsensusLaws Genesis Utxo Store StoreLaws StateM Reorg.
From S2P Require Import ChainUtxo ChainState ChainConnect Ledger ChainLaws.

Section reopen.
Context `{HB : Blake2b256} `{HC : Secp256k1} `{HL : Lmdb}.

(** ** Cursor passes *)

Lemma list_to_map_ascending (m : gmap bytes bytes) : list_to_map (ascending m) = m.
Proof.
  transitivity (list_to_map (map_to_list m) : gmap bytes bytes); [|apply list_to_map_to_list].
  apply list_to_map_proper; [apply ascending_NoDup|apply ascending_perm].
Qed.

Lemma read_items_total d w l acc :
  no_faults → NoDup l.*1 →
  try_fold (read_item d w) acc l = Ok (list_to_map l ∪ acc).
Proof.
  intros Hf. revert acc. induction l as [|[k v] l IH]; intros acc Hnd; cbn [try_fold].
  - by rewrite (map_empty_union acc : list_to_map [] ∪ acc = acc).
  - rewrite fmap_cons, NoDup_cons in Hnd. destruct Hnd as [Hk Hnd].
    unfold read_item at 1. erewrite (proj2 (lift_lmdb_Ok _ _ (k, v)));
      [|apply faulty_Ok; split; [apply Hf|done]].
    cbn [rbind fst snd]. rewrite IH by done. f_equal. by apply list_to_map_cons_union.
Qed.

Lemma read_all_utxos_total s : no_faults → read_all_utxos_raw s = Ok (db_utxos s).
Proof.
  intros Hf. unfold read_all_utxos_raw, open_cursor. rewrite (proj2 begin_ro_Ok (Hf _)). cbn [rbind].
  erewrite (proj2 (lift_lmdb_Ok _ _ (ascending (db_utxos s))));
    [|apply faulty_Ok; split; [apply Hf|done]].
  cbn [rbind]. rewrite read_items_total; [|done|apply ascending_NoDup].
  by rewrite list_to_map_ascending, (map_union_empty (db_utxos s)).
Qed.

Lemma read_items_Ok d w l acc m :
  NoDup l.*1 → try_fold (read_item d w) acc l = Ok m → m = list_to_map l ∪ acc.
Proof.
  revert acc. induction l as [|[k v] l IH]; intros acc Hnd H; cbn [try_fold] in H.
  - injection H as <-. by rewrite (map_empty_union acc : list_to_map [] ∪ acc = acc).
  - rewrite fmap_cons, NoDup_cons in Hnd. destruct Hnd as [Hk Hnd].
    apply rbind_Ok in H as (acc' & Hi & H). unfold read_item in Hi.
    apply rbind_Ok in Hi as (kv & [_ [= <-]]%lift_lmdb_Ok%faulty_Ok & [= <-]).
    rewrite (IH _ Hnd H). by apply list_to_map_cons_union.
Qed.

Lemma read_all_utxos_Ok s m : read_all_utxos_raw s = Ok m → m = db_utxos s.
Proof.
  unfold read_all_utxos_raw, open_cursor. intros H. apply rbind_Ok in H as (l & Hl & H).
  apply rbind_Ok in Hl as (? & _ & [_ [= <-]]%lift_lmdb_Ok%faulty_Ok).
  apply read_items_Ok in H as ->; [|apply ascending_NoDup].
  rewrite list_to_map_ascending. apply map_union_empty.
Qed.

(** ** Rebuilding *)

Lemma load_canonical_total s magic l i hash ob w1 w2 :
  no_faults → stored s magic l → l !! i = Some (hash, ob) →
  load_canonical s magic (Z.of_nat i) w1 w2
  = Ok ((λ b, (b, {| hash_bytes := hash |})) <$> ob).
Proof.
  intros Hf Hs Hi. destruct (so_index _ _ _ Hs i hash ob Hi) as [Hix Hl].
  unfold load_canonical, get_hash_at_height. rewrite get_hash_value_total; [|done|].
  2:{ cbn [table]. rewrite Hix. by intros ? [= <-]. }
  cbn [rbind table]. rewrite Hix. cbn [ok_or rbind]. unfold get_block_body.
  rewrite get_raw_total by done. cbn [rbind table].
  destruct (so_body _ _ _ Hs i hash ob Hi) as [body Hz Hm Hb Hid|body b hb Hb Hd Hbok Hhb Hid Hh Hz];
    rewrite Hb; cbn [ok_or rbind].
  - rewrite Hz, Hm, Hid. done.
  - assert (Hne : ((Z.of_nat i =? height_val GENESIS) && (magic =? NETWORK_MAGIC_MAINNET)
             && is_ok (validate_mainnet_genesis_identity body)) = false).
    { destruct (Z.eqb_spec (Z.of_nat i) (height_val GENESIS)) as [E|]; [|done].
      rewrite Hz by exact E. by rewrite andb_false_r. }
    rewrite Hne, Hd. cbn [map_err rbind]. rewrite Hhb. cbn [rbind]. rewrite Hid. cbn [rbind].
    by rewrite bool_decide_true.
Qed.

Lemma rebuild_run s magic l k L L' :
  no_faults → stored s magic l → run L (drop k l) L' →
  try_fold (rebuild_height s magic) (utxo_table (unspent L))
    (seqZ (Z.of_nat k) (Z.of_nat (length (drop k l)))) = Ok (utxo_table (unspent L')).
Proof.
  intros Hf Hs. remember (drop k l) as dl eqn:Hdl. intros Hr. revert k Hdl.
  induction Hr as [L|L hash dl L' Hr IH|L hash b dl L' Ha Hr IH]; intros k Hdl; [done|..];
    (assert (Hk : l !! k = Some (hash, _)) by (rewrite <- (Nat.add_0_r k), <- lookup_drop, <- Hdl; done));
    (assert (Hdl' : dl = drop (S k) l) by (rewrite <- Nat.add_1_r, <- drop_drop, <- Hdl; done));
    rewrite seqZ_cons by (cbn [length]; lia); cbn [try_fold length];
    unfold rebuild_height at 1; erewrite load_canonical_total by done;
    cbn [fmap option_fmap option_map rbind];
    replace (Z.pred (Z.of_nat (S (length dl)))) with (Z.of_nat (length dl)) by lia;
    replace (Z.succ (Z.of_nat k)) with (Z.of_nat (S k)) by lia.
  - by apply IH.
  - rewrite rebuild_block_applies by apply Ha. cbn [rbind].
    change (apply_block (unspent L) b) with (unspent (accept_block L hash b)). by apply IH.
Qed.

Lemma reconstruct_total s magic l L th :
  no_faults → stored s magic l → ledger l L → height_val th = zlen l - 1 →
  reconstruct_canonical_utxo_set s th magic = Ok (utxo_table (unspent L)).
Proof.
  intros Hf Hs Hr Hth. unfold reconstruct_canonical_utxo_set, heights. rewrite Hth.
  pose proof (rebuild_run s magic l 0 empty_ledger L Hf Hs) as H. rewrite drop_0 in H.
  specialize (H Hr). cbn [Z.of_nat unspent empty_ledger] in H.
  unfold utxo_table at 1 in H. rewrite fmap_empty in H. unfold zlen.
  by replace (Z.of_nat (length l) - 1 + 1) with (Z.of_nat (length l)) by lia.
Qed.

(** Every kernel of a chain is in its index. *)
Lemma run_kernels_keep L l L' k h :
  run L l L' → kernel_of L !! k = Some h → kernel_of L' !! k = Some h.
Proof.
  induction 1 as [|? ? ? ? ? IH|L hash b l L' Ha Hr IH]; intros Hk; [done|auto|].
  apply IH. cbn [accept_block kernel_of]. rewrite lookup_union_r; [done|].
  apply not_elem_of_list_to_map_1. intros Hin.
  rewrite (ac_kernels_new _ _ _ Ha k Hin) in Hk. done.
Qed.

Lemma run_kernels_indexed L l L' i hash b k h :
  run L l L' → l !! i = Some (hash, Some b) → (k, h) ∈ block_kernels hash b →
  kernel_of L' !! k = Some h.
Proof.
  intros Hr. revert i. induction Hr as [|? ? ? ? ? IH|L hash' b' l L' Ha Hr IH]; intros i Hi Hk;
    [done|destruct i as [|i]; [done|by eapply IH]|].
  destruct i as [|i]; [|by eapply IH]. injection Hi as -> ->.
  eapply run_kernels_keep; [done|]. cbn [accept_block kernel_of].
  erewrite lookup_union_Some_l; [done|].
  apply elem_of_list_to_map_1; [apply (ac_kernels_distinct _ _ _ Ha)|done].
Qed.

Lemma ensure_kernels_present s kers :
  no_faults → (∀ k h, (k, h) ∈ kers → db_kernels s !! k = Some h) →
  ensure_kernel_indices s kers = Ok s.
Proof.
  intros Hf Hk. unfold ensure_kernel_indices. rewrite (proj2 begin_rw_Ok (Hf _)). cbn [rbind].
  assert (Hfold : try_fold ensure_kernel_index s kers = Ok s).
  { induction kers as [|[k h] kers IH]; [done|]. cbn [try_fold]. unfold ensure_kernel_index at 1.
    unfold mdb_get, faulty. rewrite (Hf (C_get _ _)). cbn [table]. rewrite (Hk k h) by left.
    rewrite bool_decide_true by done. cbn [rbind]. apply IH. intros k' h' Hin. apply Hk. by right. }
  rewrite Hfold. cbn [rbind]. by rewrite (proj2 (commit_txn_Ok _) (Hf _)).
Qed.

Lemma rebuild_kernels_total s magic l L th :
  no_faults → stored s magic l → ledger l L → db_kernels s = kernel_of L →
  height_val th = zlen l - 1 →
  rebuild_kernel_index_from_canonical_chain th magic s = (s, Ok tt).
Proof.
  intros Hf Hs Hr Hk Hth. unfold rebuild_kernel_index_from_canonical_chain, heights.
  assert (Heach : ∀ hs, (∀ h, h ∈ hs → 0 ≤ h < zlen l) →
    st_each (rebuild_kernels_at magic) hs s = (s, Ok tt)).
  { induction hs as [|h hs IH]; intros Hh; [done|]. cbn [st_each]. unfold st_bind.
    assert (Hat : rebuild_kernels_at magic h s = (s, Ok tt)).
    { destruct (Hh h) as [Hh0 Hh1]; [left|]. unfold zlen in Hh1.
      destruct (l !! Z.to_nat h) as [[hash ob]|] eqn:Hl; [|apply lookup_ge_None in Hl; lia].
      unfold rebuild_kernels_at, st_bind, st_get. rewrite <- (Z2Nat.id h) by done.
      erewrite load_canonical_total by done. destruct ob as [b|]; [|done].
      cbn [fmap option_fmap option_map]. unfold st_update. rewrite ensure_kernels_present; [done..|].
      intros k h' Hin. rewrite Hk. by eapply run_kernels_indexed. }
    rewrite Hat. apply IH. intros h' Hin. apply Hh. by right. }
  apply Heach. intros h. rewrite elem_of_seqZ. lia.
Qed.

(** ** The recovery passes *)

Lemma ensure_utxos_total s magic l L th repair :
  no_faults → stored s magic l → ledger l L → db_utxos s = utxo_table (unspent L) →
  height_val th = zlen l - 1 →
  ensure_canonical_utxo_set th magic repair s
  = (set_table DB_METADATA (<[METADATA_UTXO_SET_DIGEST_KEY := digest_utxo_entries (db_utxos s)]>
                              (db_metadata s)) s, Ok tt).
Proof.
  intros Hf Hs Hr Hu Hth. unfold ensure_canonical_utxo_set, st_bind, st_get.
  erewrite reconstruct_total by done. rewrite read_all_utxos_total by done.
  unfold get_metadata. rewrite get_raw_total by done. rewrite <- Hu, bool_decide_true by done.
  cbn [table]. case_bool_decide as Hd; cbn [negb].
  - unfold st_ret. by rewrite insert_id, (set_table_id DB_METADATA).
  - unfold st_update, persist_utxo_set_digest. rewrite (proj2 begin_rw_Ok (Hf _)). cbn [rbind].
    rewrite (proj2 (lift_lmdb_Ok _ _ _) (proj2 (mdb_put_Ok _ _ _ _ _) (conj (Hf _) eq_refl))).
    cbn [rbind]. by rewrite (proj2 (commit_txn_Ok _) (Hf _)).
Qed.

Lemma ensure_utxos_strict s s' magic th :
  ensure_canonical_utxo_set th magic false s = (s', Ok tt) →
  reconstruct_canonical_utxo_set s th magic = Ok (db_utxos s).
Proof.
  unfold ensure_canonical_utxo_set. intros H.
  apply st_bind_Ok in H as (m & s1 & [-> Hm]%st_get_Ok & H).
  apply st_bind_Ok in H as (m' & s1 & [-> ->%read_all_utxos_Ok]%st_get_Ok & H).
  apply st_bind_Ok in H as (? & s1 & [-> _]%st_get_Ok & H).
  destruct (bool_decide (db_utxos s = m)) eqn:E; [|done].
  apply bool_decide_eq_true in E. by rewrite E.
Qed.


(** ** Restarting *)

(** The configuration of a state is the one [open] gives it. *)
Record configured (cs : ChainState) : Prop := {
  cf_anchor : genesis_anchor (network_magic cs) = Ok (asert_anchor cs);
  cf_maturity : coinbase_maturity cs = coinbase_maturity_for_magic (network_magic cs);
  cf_genesis : genesis_hash cs = Hash256_ZERO ∨
               db_height (store cs) !! le_bytes 8 0 = Some (hash_bytes (genesis_hash cs));
}.

Definition digested (s : DomStore) : DomStore :=
  set_table DB_METADATA (<[METADATA_UTXO_SET_DIGEST_KEY := digest_utxo_entries (db_utxos s)]>
                           (db_metadata s)) s.

Lemma chain_ok_last cs l L :
  chain_ok cs l L →
  ∃ i ob, l !! i = Some (hash_bytes (tip_hash cs), ob) ∧ Z.of_nat i = height_val (tip_height cs).
Proof.
  intros H. pose proof (ck_tip _ _ _ H) as Ht. rewrite last_lookup in Ht.
  destruct (l !! Nat.pred (length l)) as [[k ob]|] eqn:Hi; [|done]. injection Ht as ->.
  exists (Nat.pred (length l)), ob. split; [done|]. rewrite (ck_height _ _ _ H).
  apply lookup_lt_Some in Hi. unfold zlen. lia.
Qed.

Lemma load_tip_total cs l L :
  no_faults → chain_ok cs l L →
  ∃ hd, load_tip (hash_bytes (tip_hash cs)) (store cs) = Ok hd ∧
        height hd = tip_height cs ∧ total_difficulty hd = tip_difficulty cs.
Proof.
  intros Hf Hck. destruct (chain_ok_last _ _ _ Hck) as (i & ob & Hi & Hh).
  pose proof (ck_stored _ _ _ Hck) as Hs. destruct (ck_at_tip _ _ _ Hck) as (_ & hb & hd & Hb & Hd & Htd).
  destruct (so_header _ _ _ Hs _ _ _ Hi) as (hb' & hd' & Hb' & Hd' & Hh').
  assert (hd' = hd) as -> by congruence.
  destruct (so_index _ _ _ Hs _ _ _ Hi) as [Hx H32].
  assert (Heq : height hd = tip_height cs).
  { destruct (height hd) as [h1], (tip_height cs) as [h2]. cbn [height_val] in *. congruence. }
  exists hd. split; [|done]. unfold load_tip, get_block_header, get_block_body, get_hash_at_height.
  rewrite get_raw_total by done. cbn [table rbind]. rewrite Hb. cbn [ok_or rbind]. rewrite Hd. cbn [rbind].
  rewrite get_raw_total by done. cbn [table rbind].
  rewrite Hh' in *. rewrite get_hash_value_total; [|done|cbn [table]; congruence].
  cbn [table rbind]. rewrite Hx, bool_decide_true by done.
  by destruct (so_body _ _ _ Hs _ _ _ Hi) as [body ? ? ->|body b hb2 ->].
Qed.

Lemma get_chain_tip_total cs l L :
  no_faults → chain_ok cs l L → get_chain_tip (store cs) = Ok (Some (hash_bytes (tip_hash cs))).
Proof.
  intros Hf Hck. destruct (chain_ok_last _ _ _ Hck) as (i & ob & Hi & _).
  destruct (so_index _ _ _ (ck_stored _ _ _ Hck) _ _ _ Hi) as [_ H32].
  destruct (ck_at_tip _ _ _ Hck) as [Ht _].
  unfold get_chain_tip. rewrite get_hash_value_total; cbn [table]; [by rewrite Ht|done|congruence].
Qed.

Lemma digested_ok cs l L : chain_ok cs l L → chain_ok (with_store cs (digested (store cs))) l L.
Proof. intros [H1 H2 H3 H4 H5 H6 H7 H8]. split; try done. by apply (stored_mono (store cs)). Qed.

Lemma genesis_identity_total cs s :
  no_faults → configured cs → db_height s = db_height (store cs) →
  zlen (hash_bytes (genesis_hash cs)) = 32 →
  (∀ v, db_height (store cs) !! le_bytes 8 0 = Some v → zlen v = 32) →
  validate_persisted_genesis_identity s (genesis_hash cs) = Ok tt.
Proof.
  intros Hf Hc Hs Hl Hv. unfold validate_persisted_genesis_identity, get_hash_at_height.
  rewrite get_hash_value_total; cbn [table]; [|done|by rewrite Hs]. rewrite Hs. cbn [rbind].
  destruct (cf_genesis _ Hc) as [Hz|Hg].
  - rewrite (bool_decide_false (genesis_hash cs ≠ _)) by naive_solver.
    by destruct (db_height (store cs) !! _).
  - cbn [GENESIS height_val]. rewrite Hg, (bool_decide_true (hash_bytes _ = _)) by done.
    by rewrite andb_false_r.
Qed.

(** The recovery passes over a stored tip *)
Lemma recovery_total cs l L repair (k : Hash256 * BlockHeight * Z → M DomStore ChainState) :
  no_faults → chain_ok cs l L →
  st_bind (do! header := st_get (load_tip (hash_bytes (tip_hash cs))) in
           do! _ := rebuild_kernel_index_from_canonical_chain (height header) (network_magic cs) in
           do! _ := ensure_canonical_utxo_set (height header) (network_magic cs) repair in
           do! _ := st_update (prune_retained_side_chains (height header) (hash_bytes (tip_hash cs))) in
           st_ret ({| hash_bytes := hash_bytes (tip_hash cs) |}, height header, total_difficulty header))
          k (store cs)
  = match prune_retained_side_chains (tip_height cs) (hash_bytes (tip_hash cs)) (digested (store cs)) with
    | Ok s' => k (tip_hash cs, tip_height cs, tip_difficulty cs) s'
    | Err e => (digested (store cs), Err e)
    | Panic => (digested (store cs), Panic)
    end.
Proof.
  intros Hf Hck. destruct (load_tip_total _ _ _ Hf Hck) as (hd & Hld & Hh & Htd).
  destruct Hck as [H1 H2 H3 H4 H5 H6 H7 H8]. unfold st_bind at 1.
  erewrite st_bind_run by (unfold st_get; by rewrite Hld). cbv beta. rewrite Hh.
  erewrite st_bind_run by (by eapply rebuild_kernels_total).
  erewrite st_bind_run by (by eapply ensure_utxos_total). fold (digested (store cs)).
  unfold st_bind, st_update, st_ret. rewrite Htd, Hash256_eta.
  by destruct (prune_retained_side_chains _ _ _).
Qed.

(** C4: A restart restores the node.  When the databases hold a chain with its ledger and
    LMDB does not fail, opening them again finds the stored tip with its records, finds no
    corruption, and returns the state as it was before the restart, with the cached digest
    and the retained side branches as the only difference; the databases still hold the
    chain.  Only the retention pass, which reads the headers of side branches, can fail. *)
Theorem restart_restores cs l L repair :
  no_faults → chain_ok cs l L → configured cs → zlen (hash_bytes (genesis_hash cs)) = 32 →
  let reopened := open_inner (genesis_hash cs) (network_magic cs) repair (store cs) in
  let s := digested (store cs) in
  chain_ok (with_store cs s) l L ∧
  match prune_retained_side_chains (tip_height cs) (hash_bytes (tip_hash cs)) s with
  | Ok s' => reopened = (s', Ok (with_store cs s')) ∧ chain_ok (with_store cs s') l L
  | Err e => reopened = (s, Err e)
  | Panic => reopened = (s, Panic)
  end.
Proof.
  intros Hf Hck Hc Hg. cbv zeta. pose proof (digested_ok _ _ _ Hck) as Hdk. split; [done|].
  unfold open_inner. rewrite (cf_anchor _ Hc). cbn [map_err].
  erewrite st_bind_run by (unfold st_get; reflexivity).
  erewrite st_bind_run by (unfold st_get; by rewrite (get_chain_tip_total _ _ _ Hf Hck)).
  cbv beta iota.
  rewrite (recovery_total _ _ _ _ _ Hf Hck). destruct (prune_retained_side_chains _ _ _) as [s'|e|] eqn:Hp; [|done..].
  pose proof (prune_self_keeps (with_store cs (digested (store cs))) l L (with_store cs s') (Ok tt) Hdk) as Hk.
  unfold prune_self, st_update in Hk. cbn [store with_store tip_height tip_hash] in Hk. rewrite Hp in Hk.
  specialize (Hk eq_refl). split; [|done].
  destruct (prune_keeps _ _ _ _ _ _ (ck_height _ _ _ Hck) (ck_stored _ _ _ Hdk) Hp) as (_ & _ & ks & ->).
  erewrite st_bind_run.
  2:{ unfold st_get. rewrite (genesis_identity_total cs); [done..|].
      intros v Hv. destruct l as [|[k ob] l]; [by apply chain_ok_nonempty in Hck|].
      destruct (so_index _ _ _ (ck_stored _ _ _ Hck) 0 k ob eq_refl) as [Hx H32]. change (Z.of_nat 0) with 0 in Hx. congruence. }
  erewrite st_bind_run by (unfold st_get; reflexivity). unfold st_ret. by rewrite <- (cf_maturity _ Hc).
Qed.
End reopen.
