(* ===== verification/ReorgLaws.v ===== *)
(** * Reorganisations keep the ledger

    Disconnecting the blocks above an ancestor takes the overlays back to the ledger at the
    ancestor, connecting blocks applies them, and the writes of the promotion turn the
    databases into the new ledger, provided that no disconnected block re-creates an output
    that was unspent at the ancestor; without that, the resurrected entry is the wrong one. *)

From Stdlib Require Import ZArith Lia.
From stdpp Require Import base list strings gmap sorting.
From S2P Require Import Prelude ByteOrder CoreError Core Serialization CryptoHash Pow Curve.
From S2P Require Import Keys Pedersen Schnorr RangeProof RangeProve Transaction TransactionLaws BlockHeader.
From S2P Require Import Consensus ConsensusLaws Genesis Utxo Store StoreLaws StateM Reorg.
From S2P Require Import ChainUtxo ChainState ChainConnect Ledger ChainLaws.

(** ** Overlays *)

(** What an overlay makes of a map *)
Definition view {A} (O : gmap bytes (option A)) (m : gmap bytes A) (k : bytes) : option A :=
  match O !! k with Some e => e | None => m !! k end.

Lemma view_insert {A} (O : gmap bytes (option A)) m (k k' : bytes) v :
  view (<[k := v]> O) m k' = if decide (k = k') then v else view O m k'.
Proof. unfold view. rewrite lookup_insert. by case_decide. Qed.

Lemma remove_keys_lookup {A B} (l : list (bytes * B)) (O : gmap bytes (option A)) (k : bytes) :
  foldl (λ m '(c, _), <[c := None]> m) O l !! k = if bool_decide (k ∈ l.*1) then Some None else O !! k.
Proof.
  revert O. induction l as [|[c e] l IH]; intros O; [done|]. cbn [foldl fmap list_fmap fst].
  rewrite IH, lookup_insert. destruct (decide (c = k)) as [->|Hne].
  - rewrite (bool_decide_true (k ∈ k :: _)) by left. by case_bool_decide.
  - destruct (decide (k ∈ l.*1)); [rewrite !bool_decide_true by (try right; done)|
      rewrite !bool_decide_false by (rewrite ?elem_of_cons; naive_solver)]; done.
Qed.

Lemma spends_keys b : input_key <$> (transactions b ≫= inputs) = block_spends b.
Proof.
  unfold block_spends. induction (transactions b) as [|tx txs IH]; [done|].
  cbn [mbind list_bind]. rewrite fmap_app. by rewrite IH.
Qed.

(** The blocks of a branch, and as links of a chain *)
Abbreviation Branch := (list (bytes * Block)) (only parsing).
Definition chain_of (bs : Branch) : Chain := (λ hb, (hb.1, Some hb.2)) <$> bs.
Definition tagged (bs : Branch) : list (Hash256 * Block) :=
  (λ hb, ({| hash_bytes := hb.1 |}, hb.2)) <$> bs.
Definition branch_creates (bs : Branch) : list bytes := bs ≫= λ hb, block_creates hb.2.

Section reorg.
Context `{HB : Blake2b256} `{HM : HmacSha256} `{HC : Secp256k1} `{HZ : !ZkpBackend}.
Context `{HR : RandomXHash} `{HP : ZkpProver} `{HL : Lmdb}.

(** ** Disconnecting *)

(** The entry a disconnected spend brings back *)
Definition resurrected (s : DomStore) (ah : Z) (idx : gmap bytes UtxoEntry) (c : bytes)
    (e : UtxoEntry) : Prop :=
  ∃ found, find_canonical_output_entry s ah c = Ok found ∧
           match idx !! c with Some e' => Some e' | None => found end = Some e.

Lemma resurrect_all s ah idx O l O' c :
  try_fold (resurrect s ah idx) O l = Ok O' →
  (c ∈ input_key <$> l → ∃ e, resurrected s ah idx c e ∧ O' !! c = Some (Some e)) ∧
  (c ∉ input_key <$> l → O' !! c = O !! c).
Proof.
  revert O. induction l as [|i l IH]; intros O H; cbn [try_fold] in H.
  { injection H as <-. split; [by intros ?%not_elem_of_nil|done]. }
  apply rbind_Ok in H as (O1 & Hr & H). unfold resurrect in Hr. res_inv.
  destruct (IH _ H) as [IH1 IH2]. rewrite fmap_cons. split.
  - intros [->|Hin]%elem_of_cons; [|by apply IH1].
    destruct (decide (input_key i ∈ input_key <$> l)) as [Hin|Hni]; [by apply IH1|].
    rewrite IH2, lookup_insert_eq by done. eexists. split; [|done]. by eexists.
  - rewrite not_elem_of_cons. intros [Hne Hni]. rewrite IH2 by done.
    by apply lookup_insert_ne.
Qed.

Lemma apply_disconnect_Ok s ah idx O K h b O' K' :
  apply_disconnect s ah idx (O, K) (h, b) = Ok (O', K') →
  (∀ c, (c ∈ block_spends b → ∃ e, resurrected s ah idx c e ∧ O' !! c = Some (Some e)) ∧
        (c ∉ block_spends b → O' !! c = if bool_decide (c ∈ block_creates b) then Some None else O !! c)) ∧
  (∀ k, K' !! k = if bool_decide (k ∈ (block_kernels (hash_bytes h) b).*1) then Some None else K !! k).
Proof.
  unfold apply_disconnect. intros H. apply rbind_Ok in H as (O1 & Hr & [= <- <-]).
  split; cycle 1.
  { intros k. destruct h as [h]. exact (remove_keys_lookup (block_kernels h b) K k). }
  intros c. destruct (resurrect_all _ _ _ _ _ _ c Hr) as [H1 H2]. rewrite spends_keys in H1, H2.
  split; [done|]. intros Hc. rewrite H2 by done. apply remove_keys_lookup.
Qed.

(** Disconnecting a branch takes the overlays back to where the branch started, for every
    output whose resurrected entry is the one it had there. *)
Lemma disconnect_all s ah idx bs La Ln O K :
  run La (chain_of bs) Ln →
  try_fold (apply_disconnect s ah idx) (∅, ∅) (reverse (tagged bs)) = Ok (O, K) →
  (∀ c, (∀ e e', unspent La !! c = Some e → resurrected s ah idx c e' → e' = e) →
        view O (unspent Ln) c = unspent La !! c) ∧
  (∀ k, view K (kernel_of Ln) k = kernel_of La !! k).
Proof.
  revert La O K. induction bs as [|[h b] bs IH]; intros La O K Hrun H.
  { inversion Hrun; subst. cbn in H. injection H as <- <-. done. }
  inversion Hrun as [| |? ? ? ? ? Hacc Hrun']; subst. clear Hrun.
  unfold tagged in H. rewrite fmap_cons, reverse_cons, try_fold_app in H.
  fold (tagged bs) in H. apply rbind_Ok in H as ([O1 K1] & H1 & H).
  cbn [try_fold fst snd] in H. apply rbind_Ok in H as ([O2 K2] & H2 & [= -> ->]).
  destruct (IH _ _ _ Hrun' H1) as [IHo IHk]. apply apply_disconnect_Ok in H2 as [Ho Hk].
  destruct Hacc as [Happ Hknd Hkn]. split.
  - intros c Hgood. destruct (Ho c) as [Hs Hns]. unfold view.
    destruct (decide (c ∈ block_spends b)) as [Hsp|Hsp].
    + destruct (Hs Hsp) as (e & He & ->). destruct (ap_spends_present _ _ Happ c Hsp) as [e0 He0].
      rewrite He0. f_equal. by eapply Hgood.
    + rewrite (Hns Hsp). case_bool_decide as Hcr; [by rewrite (ap_creates_new _ _ Happ c Hcr)|].
      specialize (IHo c). cbn [accept_block unspent] in IHo.
      rewrite apply_block_untouched in IHo by done. by apply IHo.
  - intros k. unfold view. rewrite Hk. cbn [hash_bytes]. case_bool_decide as Hin.
    + symmetry. by apply Hkn.
    + specialize (IHk k). unfold view in IHk. rewrite IHk. cbn [accept_block kernel_of].
      rewrite lookup_union, not_elem_of_list_to_map_1 by done. by destruct (kernel_of La !! k).
Qed.

(** ** The entry below the ancestor *)

Lemma entry_in_block_created b c e :
  NoDup (block_creates b) → (c, e) ∈ block_entries b → entry_in_block b c = Some e.
Proof.
  unfold entry_in_block, block_creates. intros Hnd Hin.
  destruct (list_find (λ ce, ce.1 = c) (block_entries b)) as [[i [c' e']]|] eqn:Hf.
  - apply list_find_Some in Hf as (Hi & Hc & _). cbn [fst] in Hc. subst. cbn. f_equal.
    apply list_elem_of_lookup_2 in Hi.
    pose proof (elem_of_list_to_map_1 (M := gmap bytes) _ _ _ Hnd Hin).
    pose proof (elem_of_list_to_map_1 (M := gmap bytes) _ _ _ Hnd Hi). congruence.
  - apply list_find_None in Hf. rewrite Forall_forall in Hf. by destruct (Hf _ Hin).
Qed.

Lemma entry_in_block_other b c : c ∉ block_creates b → entry_in_block b c = None.
Proof.
  unfold entry_in_block, block_creates. intros Hin.
  destruct (list_find (λ ce, ce.1 = c) (block_entries b)) as [[i [c' e']]|] eqn:Hf; [|done].
  apply list_find_Some in Hf as (Hi & Hc & _). cbn [fst] in Hc. subst. destruct Hin.
  apply list_elem_of_fmap. exists (c, e'). split; [done|by eapply list_elem_of_lookup_2].
Qed.

Lemma find_output_unspent s magic l k L c e found :
  stored s magic l → (k ≤ length l)%nat → run empty_ledger (take k l) L → unspent L !! c = Some e →
  find_output_below s c (reverse (seqZ 0 (Z.of_nat k))) = Ok found → found = Some e.
Proof.
  intros Hs. revert L. induction k as [|k IH]; intros L Hk Hrun He H.
  { inversion Hrun; subst. done. }
  destruct (l !! k) as [[hash ob]|] eqn:Hl; [|apply lookup_ge_None in Hl; lia].
  erewrite take_S_r in Hrun by done. apply run_app in Hrun as (L1 & Hrun1 & Hrun2).
  rewrite Nat2Z.inj_succ, <- Z.add_1_r, seqZ_app, reverse_app in H by lia.
  change (seqZ (0 + Z.of_nat k) 1) with [0 + Z.of_nat k] in H. rewrite Z.add_0_l in H.
  cbn [reverse rev_append app find_output_below] in H.
  destruct (so_index _ _ _ Hs k hash ob Hl) as [Hix _].
  apply rbind_Ok in H as (r & ->%get_hash_value_Ok & H). cbn [table] in H. rewrite Hix in H.
  apply rbind_Ok in H as (r & ->%get_raw_Ok & H). cbn [table] in H.
  destruct (so_body _ _ _ Hs k hash ob Hl) as [body Hz Hm Hb Hid|body b hb Hb Hd Hbok Hhb Hid Hh Hz];
    rewrite Hb in H.
  - rewrite Hz, Hid in H. cbn [andb] in H. inversion Hrun2 as [|? ? ? ? Hr|]; subst.
    inversion Hr; subst. eapply IH; [lia|done|done|]. by rewrite Hz.
  - assert (Hne : ((Z.of_nat k =? height_val GENESIS) && is_ok (validate_mainnet_genesis_identity body))
                  = false).
    { destruct (Z.eqb_spec (Z.of_nat k) (height_val GENESIS)) as [E|]; [|done]. by rewrite Hz. }
    rewrite Hne, Hd in H. cbn [map_err rbind] in H.
    inversion Hrun2 as [| |? ? ? ? ? Hacc Hr]; subst. inversion Hr; subst.
    destruct Hacc as [Happ _ _]. cbn [accept_block unspent] in He.
    destruct (decide (c ∈ block_creates b)) as [Hc|Hc].
    + apply list_elem_of_fmap in Hc as ([c' e'] & -> & Hin). cbn [fst] in *.
      rewrite (apply_block_created _ _ _ _ Happ Hin) in He. injection He as ->.
      rewrite (entry_in_block_created _ _ _ (ap_creates_distinct _ _ Happ) Hin) in H.
      by injection H as <-.
    + rewrite entry_in_block_other in H by done.
      destruct (decide (c ∈ block_spends b)) as [Hsp|Hsp];
        [by rewrite (apply_block_spent _ _ _ Happ Hsp) in He|].
      rewrite apply_block_untouched in He by done. eapply IH; [lia|done|done|done].
Qed.

Lemma disconnect_index_None bs c :
  c ∉ branch_creates bs →
  foldl (λ m hb, record_block_outputs hb.2 m) ∅ (reverse (tagged bs)) !! c = None.
Proof.
  intros Hc.
  assert (Hone : ∀ b (m : gmap bytes UtxoEntry), c ∉ block_creates b → m !! c = None →
    record_block_outputs b m !! c = None).
  { intros b. unfold record_block_outputs, block_creates. generalize (block_entries b).
    induction l as [|[c' e] l IH]; intros m Hni Hm; [done|].
    rewrite fmap_cons, not_elem_of_cons in Hni. cbn [foldl]. apply IH; [tauto|].
    rewrite lookup_insert_ne; [done|]. cbn in Hni. naive_solver. }
  assert (Hall : ∀ l (m : gmap bytes UtxoEntry), (∀ hb, hb ∈ l → c ∉ block_creates hb.2) →
    m !! c = None → foldl (λ m (hb : Hash256 * Block), record_block_outputs hb.2 m) m l !! c = None).
  { induction l as [|hb l IH]; intros m Hl Hm; [done|]. cbn [foldl]. apply IH.
    - intros hb' Hin. apply Hl. by right.
    - apply Hone; [apply Hl; left|done]. }
  apply Hall; [|done]. intros hb Hin Hcr. apply Hc. rewrite elem_of_reverse in Hin.
  apply list_elem_of_fmap in Hin as ([h b] & -> & Hin). unfold branch_creates.
  apply list_elem_of_bind. by exists (h, b).
Qed.

(** ** Connecting *)

Lemma lookup_utxo_Ok s U O c r :
  db_utxos s = utxo_table U → map_Forall (λ _, utxo_ok) U →
  lookup_utxo s O c = Ok r → r = view O U c.
Proof.
  intros Hu Hok. unfold lookup_utxo, view. destruct (O !! c); [by intros [= ->]|].
  by apply get_utxo_Ok.
Qed.

Lemma lookup_kernel_Ok s O k r : lookup_kernel s O k = Ok r → r = view O (db_kernels s) k.
Proof.
  unfold lookup_kernel, view. destruct (O !! k); [by intros [= ->]|]. apply get_hash_value_Ok.
Qed.

Lemma connect_inputs_Ok s U b mat O l O' :
  db_utxos s = utxo_table U → map_Forall (λ _, utxo_ok) U →
  try_fold (connect_input s b mat) O l = Ok O' →
  NoDup (input_key <$> l) ∧ (∀ c, c ∈ input_key <$> l → is_Some (view O U c)) ∧
  ∀ c, view O' U c = if bool_decide (c ∈ input_key <$> l) then None else view O U c.
Proof.
  intros Hu Hok. revert O. induction l as [|i l IH]; intros O H; cbn [try_fold] in H.
  { injection H as <-. split_and!; [constructor|by intros ? ?%not_elem_of_nil|done]. }
  apply rbind_Ok in H as (O1 & Hi & H). unfold connect_input in Hi.
  apply rbind_Ok in Hi as (r & ->%(lookup_utxo_Ok s U) & Hi); [|done..].
  apply rbind_Ok in Hi as (e & He%ok_or_Ok & Hi).
  destruct (_ && _); [done|]. injection Hi as <-.
  destruct (IH _ H) as (Hnd & Hp & Hv). rewrite fmap_cons. setoid_rewrite view_insert in Hp.
  setoid_rewrite view_insert in Hv.
  assert (Hni : input_key i ∉ input_key <$> l).
  { intros Hin. destruct (Hp _ Hin) as [? Hx]. by rewrite decide_True in Hx. }
  split_and!.
  - by apply NoDup_cons.
  - intros c [->|Hc]%elem_of_cons; [by rewrite He|]. specialize (Hp c Hc).
    case_decide; [by destruct Hp|done].
  - intros c. rewrite Hv. destruct (decide (input_key i = c)) as [<-|Hne].
    + rewrite (bool_decide_true (_ ∈ _ :: _)) by left. by case_bool_decide.
    + destruct (decide (c ∈ input_key <$> l)); [rewrite !bool_decide_true by (try right; done)|
        rewrite !bool_decide_false by (rewrite ?elem_of_cons; naive_solver)]; done.
Qed.

(** Additions of keys that must be new, for outputs and for kernels *)
Lemma connect_new_Ok {A} (f : gmap bytes (option A) → bytes * A → Result (gmap bytes (option A)))
    (m : gmap bytes A) O l O' :
  (∀ O kv O', f O kv = Ok O' → view O m kv.1 = None ∧ O' = <[kv.1 := Some kv.2]> O) →
  try_fold f O l = Ok O' →
  NoDup l.*1 ∧ (∀ c, c ∈ l.*1 → view O m c = None) ∧
  ∀ c, view O' m c = match (list_to_map l : gmap bytes A) !! c with Some e => Some e | None => view O m c end.
Proof.
  intros Hf. revert O. induction l as [|[k v] l IH]; intros O H; cbn [try_fold] in H.
  { injection H as <-. split_and!; [constructor|by intros ? ?%not_elem_of_nil|].
    intros c. by rewrite not_elem_of_list_to_map_1 by apply not_elem_of_nil. }
  apply rbind_Ok in H as (O1 & [Hk ->]%Hf & H). cbn [fst snd] in *.
  destruct (IH _ H) as (Hnd & Hp & Hv). setoid_rewrite view_insert in Hp.
  assert (Hni : k ∉ l.*1).
  { intros Hin. specialize (Hp _ Hin). by rewrite decide_True in Hp. }
  rewrite fmap_cons. split_and!.
  - by apply NoDup_cons.
  - intros c [->|Hc]%elem_of_cons; [done|]. specialize (Hp c Hc). by case_decide.
  - intros c. rewrite Hv, view_insert. cbn [list_to_map foldr fst snd]. rewrite lookup_insert.
    destruct (decide (k = c)) as [<-|Hne]; [|done].
    by rewrite (not_elem_of_list_to_map_1 l).
Qed.

Lemma apply_connect_accepts s U mat O K h b O' K' L :
  db_utxos s = utxo_table U → map_Forall (λ _, utxo_ok) U →
  (∀ c, c ∈ block_spends b → c ∉ block_creates b) →
  (∀ c, view O U c = unspent L !! c) → (∀ k, view K (db_kernels s) k = kernel_of L !! k) →
  apply_connect s mat (O, K) (h, b) = Ok (O', K') →
  let L' := accept_block L (hash_bytes h) b in
  accepts L (hash_bytes h) b ∧
  (∀ c, view O' U c = unspent L' !! c) ∧ (∀ k, view K' (db_kernels s) k = kernel_of L' !! k).
Proof.
  intros Hu Hok Hdis Ho Hk H L'. unfold apply_connect in H.
  apply rbind_Ok in H as (O1 & Hin & H). apply rbind_Ok in H as (O2 & Hout & H).
  apply rbind_Ok in H as (K1 & Hker & [= <- <-]).
  apply (connect_inputs_Ok s U) in Hin as (Hi1 & Hi2 & Hi3); [|done..].
  rewrite spends_keys in Hi1, Hi2, Hi3.
  apply (connect_new_Ok _ U) in Hout as (Ho1 & Ho2 & Ho3).
  2:{ intros O0 [c e] O0' Hc. unfold connect_output in Hc.
      apply rbind_Ok in Hc as (r & ->%(lookup_utxo_Ok s U) & Hc); [|done..].
      cbn [fst snd] in *. destruct (view O0 U c); [done|]. by injection Hc as <-. }
  apply (connect_new_Ok _ (db_kernels s)) in Hker as (Hk1 & Hk2 & Hk3).
  2:{ intros K0 [k v] K0' Hc. unfold connect_kernel in Hc.
      apply rbind_Ok in Hc as (r & ->%lookup_kernel_Ok & Hc).
      cbn [fst snd] in *. destruct (view K0 (db_kernels s) k); [done|]. by injection Hc as <-. }
  setoid_rewrite Ho in Hi2. setoid_rewrite Hk in Hk2.
  replace (extract_kernel_excesses b h) with (block_kernels (hash_bytes h) b) in * by (by destruct h).
  split; [split; [split|..]|split]; try done.
  - intros c Hc. specialize (Ho2 c Hc). rewrite Hi3, Ho, bool_decide_false in Ho2; [done|].
    intros Hsp. by eapply Hdis.
  - intros c. rewrite Ho3, Hi3, Ho. cbn [L' accept_block unspent]. by rewrite apply_block_lookup.
  - intros k. rewrite Hk3, Hk. cbn [L' accept_block kernel_of]. rewrite lookup_union.
    destruct (list_to_map _ !! k); by destruct (kernel_of L !! k).
Qed.

Lemma connect_all s U mat bs L O K O' K' :
  db_utxos s = utxo_table U → map_Forall (λ _, utxo_ok) U →
  (∀ h b, (h, b) ∈ bs → ∀ c, c ∈ block_spends b → c ∉ block_creates b) →
  (∀ c, view O U c = unspent L !! c) → (∀ k, view K (db_kernels s) k = kernel_of L !! k) →
  try_fold (apply_connect s mat) (O, K) (tagged bs) = Ok (O', K') →
  ∃ L', run L (chain_of bs) L' ∧
    (∀ c, view O' U c = unspent L' !! c) ∧ (∀ k, view K' (db_kernels s) k = kernel_of L' !! k).
Proof.
  intros Hu Hok. revert L O K. induction bs as [|[h b] bs IH]; intros L O K Hdis Ho Hk H.
  { cbn in H. injection H as <- <-. exists L. split; [constructor|done]. }
  cbn [tagged fmap list_fmap try_fold fst snd] in H. apply rbind_Ok in H as ([O1 K1] & H1 & H).
  eapply apply_connect_accepts in H1 as (Hacc & Ho1 & Hk1); [|done|done| |done|done].
  2:{ apply (Hdis h b). left. }
  destruct (IH _ _ _ ltac:(intros ? ? ?; apply (Hdis h0 b0); by right) Ho1 Hk1 H) as (L' & Hr & ?).
  exists L'. split; [|done]. cbn [chain_of fmap list_fmap fst snd]. by apply run_block.
Qed.

(** ** Writes *)

(** A list of insertions and removals *)
Definition put_updates (t : gmap bytes bytes) (ups : list (bytes * option bytes)) : gmap bytes bytes :=
  foldl (λ m u, partial_alter (λ _, u.2) u.1 m) t ups.

Lemma put_updates_lookup t ups (k : bytes) :
  NoDup ups.*1 →
  put_updates t ups !! k = match (list_to_map ups : gmap bytes (option bytes)) !! k with
                           | Some v => v
                           | None => t !! k
                           end.
Proof.
  revert t. induction ups as [|[j v] ups IH]; intros t Hnd; [done|].
  rewrite fmap_cons, NoDup_cons in Hnd. destruct Hnd as [Hj Hnd]. cbn [put_updates foldl fst snd].
  fold (put_updates (partial_alter (λ _, v) j t) ups). rewrite IH by done.
  cbn [list_to_map foldr fst snd]. rewrite lookup_insert. case_decide as Hjk.
  - subst. rewrite not_elem_of_list_to_map_1 by done. apply lookup_partial_alter_eq.
  - destruct (list_to_map ups !! k); [done|]. by apply lookup_partial_alter_ne.
Qed.

Lemma reorg_entry_Ok w d s u s' :
  reorg_entry w d s u = Ok s' → s' = set_table d (partial_alter (λ _, u.2) u.1 (table d s)) s.
Proof.
  unfold reorg_entry. destruct u as [k [e|]]; cbn [fst snd]; [|by intros [_ ->]%del_if_present_Ok].
  unfold mdb_get, faulty. destruct (lmdb_fault _); [done|].
  destruct (table d s !! k) as [e'|] eqn:He.
  - case_bool_decide as Hee.
    + intros [= <-]. subst. change (partial_alter (λ _, Some e) k (table d s)) with (<[k := e]> (table d s)).
      by rewrite insert_id, set_table_id.
    + by intros [_ ->]%lift_lmdb_Ok%mdb_put_Ok.
  - by intros (_ & _ & ->)%lift_lmdb_Ok%mdb_put_new_Ok.
Qed.

Lemma reorg_entries_Ok w d s ups s' :
  try_fold (reorg_entry w d) s ups = Ok s' → s' = set_table d (put_updates (table d s) ups) s.
Proof.
  revert s. induction ups as [|u ups IH]; intros s H; cbn [try_fold] in H.
  - injection H as <-. symmetry. apply set_table_id.
  - apply rbind_Ok in H as (s1 & ->%reorg_entry_Ok & ->%IH). by rewrite table_set, set_table_set.
Qed.

Definition height_keys (hu : list (Z * option bytes)) : list (bytes * option bytes) :=
  (λ u, (le_bytes 8 u.1, u.2)) <$> hu.

Lemma reorg_heights_Ok s hu s' :
  try_fold reorg_height s hu = Ok s' →
  s' = set_table DB_BLOCK_HEIGHT (put_updates (db_height s) (height_keys hu)) s.
Proof.
  revert s. induction hu as [|[h v] hu IH]; intros s H; cbn [try_fold] in H.
  - injection H as <-. symmetry. apply (set_table_id DB_BLOCK_HEIGHT).
  - apply rbind_Ok in H as (s1 & Hh & ->%IH).
    assert (s1 = set_table DB_BLOCK_HEIGHT (partial_alter (λ _, v) (le_bytes 8 h) (db_height s)) s) as ->.
    { unfold reorg_height in Hh. cbn [fst snd] in Hh. destruct v.
      - by apply lift_lmdb_Ok, mdb_put_Ok in Hh as [_ ->].
      - by apply del_if_present_Ok in Hh as [_ ->]. }
    rewrite set_table_set. done.
Qed.

(** Leaving out the updates that change nothing changes nothing. *)
Lemma updates_effect {A} (f : bytes * option A → Result (list (bytes * option bytes)))
    (enc : A → bytes) (t : gmap bytes bytes) l outs t' :
  (∀ (kd : bytes * option A) out, f kd = Ok out →
     (out = [] ∧ t !! kd.1 = enc <$> kd.2) ∨ out = [(kd.1, enc <$> kd.2)]) →
  try_map f l = Ok outs → NoDup l.*1 → (∀ k, k ∈ l.*1 → t' !! k = t !! k) →
  put_updates t' (mjoin outs) = put_updates t' ((λ kd : bytes * option A, (kd.1, enc <$> kd.2)) <$> l).
Proof.
  intros Hf H. apply try_map_Ok in H. revert t'.
  induction H as [|[k d] out l outs Hkd H IH]; intros t' Hnd Ht; [done|].
  rewrite fmap_cons, NoDup_cons in Hnd. destruct Hnd as [Hk Hnd].
  rewrite fmap_cons. cbn [mjoin list_join foldr fst snd put_updates foldl].
  apply Hf in Hkd as [[-> Hsame]| ->]; cbn [fst snd] in *; cbn [app foldl fst snd].
  - assert (Hid : partial_alter (λ _, enc <$> d) k t' = t').
    { apply partial_alter_id. by rewrite Ht by left. }
    rewrite Hid. apply IH; [done|]. intros j Hj. apply Ht. by right.
  - apply IH; [done|]. intros j Hj. rewrite lookup_partial_alter_ne by (by intros ->).
    apply Ht. by right.
Qed.

Lemma list_to_map_enc {A} (enc : A → bytes) (O : gmap bytes (option A)) (k : bytes) :
  (list_to_map ((λ kd : bytes * option A, (kd.1, enc <$> kd.2)) <$> ascending O) : gmap bytes (option bytes)) !! k
  = (λ d, enc <$> d) <$> O !! k.
Proof.
  assert (Hnd : NoDup ((λ kd : bytes * option A, (kd.1, enc <$> kd.2)) <$> ascending O).*1).
  { rewrite <- list_fmap_compose. apply ascending_NoDup. }
  destruct (O !! k) as [d|] eqn:Hk.
  - apply elem_of_list_to_map_1; [done|]. apply list_elem_of_fmap. exists (k, d).
    split; [done|]. by apply ascending_elem.
  - apply not_elem_of_list_to_map_1. rewrite <- list_fmap_compose. intros Hin.
    apply list_elem_of_fmap in Hin as ([k' d] & -> & Hin%ascending_elem). cbn in Hk. congruence.
Qed.

Lemma overlay_written {A} (f : bytes * option A → Result (list (bytes * option bytes)))
    (enc : A → bytes) (m : gmap bytes A) (O : gmap bytes (option A)) outs (k : bytes) :
  (∀ (kd : bytes * option A) out, f kd = Ok out →
     (out = [] ∧ (enc <$> m) !! kd.1 = enc <$> kd.2) ∨ out = [(kd.1, enc <$> kd.2)]) →
  try_map f (ascending O) = Ok outs →
  put_updates (enc <$> m) (mjoin outs) !! k = enc <$> view O m k.
Proof.
  intros Hf H. erewrite updates_effect; [|done|done|apply ascending_NoDup|done].
  rewrite put_updates_lookup by (rewrite <- list_fmap_compose; apply ascending_NoDup).
  rewrite list_to_map_enc. unfold view. destruct (O !! k); [done|]. apply lookup_fmap.
Qed.

Lemma utxo_updates_written s U O ups c :
  db_utxos s = utxo_table U → map_Forall (λ _, utxo_ok) U →
  build_utxo_updates s O = Ok ups →
  put_updates (db_utxos s) ups !! c = utxo_to_bytes <$> view O U c.
Proof.
  intros Hu Hok H. unfold build_utxo_updates in H. res_inv. rewrite Hu.
  eapply overlay_written; [|done]. clear c. intros [c d] out Hup. unfold utxo_update in Hup.
  apply rbind_Ok in Hup as (r & ->%(get_utxo_Ok _ U) & Hup); [|done..]. cbn [fst snd].
  rewrite lookup_fmap. destruct (U !! c) as [e|], d as [e'|];
    cbn [fmap option_fmap option_map]; [|res_inv; auto..].
  case_bool_decide as Hb; [left; injection Hup as <-; by rewrite Hb|].
  destruct (_ && _); [|done]. injection Hup as <-. by right.
Qed.

Lemma kernel_updates_written s O ups k :
  build_kernel_updates s O = Ok ups → put_updates (db_kernels s) ups !! k = view O (db_kernels s) k.
Proof.
  intros H. unfold build_kernel_updates in H. res_inv.
  pose proof (overlay_written (kernel_update s) id (db_kernels s) O a k) as Hw.
  rewrite map_fmap_id in Hw. rewrite Hw; [by rewrite option_fmap_id| |done].
  intros [c d] out Hup. unfold kernel_update in Hup.
  apply rbind_Ok in Hup as (r & ->%get_hash_value_Ok & [= <-]). cbn [fst snd table].
  rewrite option_fmap_id. case_bool_decide as Hb; [by left|by right].
Qed.
End reorg.
