(* ===== verification/PromoteLaws.v ===== *)
(** * Promoting a heavier branch

    The blocks that [collect_branch_blocks] finds, the height index that the promotion
    writes, and the theorem that a promotion moves the databases from the ledger of the old
    chain to the ledger of the new one. *)

From Stdlib Require Import ZArith Lia.
From stdpp Require Import base list strings gmap sorting.
From S2P Require Import Prelude ByteOrder CoreError Core Serialization CryptoHash Pow Curve.
From S2P Require Import Keys Pedersen Schnorr RangeProof RangeProve Transaction TransactionLaws BlockHeader.
From S2P Require Import Consensus ConsensusLaws Genesis Utxo Store StoreLaws StateM Reorg.
From S2P Require Import ChainUtxo ChainState ChainConnect Ledger ChainLaws ReorgLaws.

Section promote.
Context `{HB : Blake2b256} `{HM : HmacSha256} `{HC : Secp256k1} `{HZ : !ZkpBackend}.
Context `{HR : RandomXHash} `{HP : ZkpProver} `{HL : Lmdb}.

(** ** Stored branches *)

Fixpoint links (parent : bytes) (bs : Branch) : Prop :=
  match bs with
  | [] => True
  | (h, b) :: bs' => hash_bytes (prev_hash (header b)) = parent ∧ links h bs'
  end.

(** The blocks above the block [anc], from height [a] up *)
Record branch (s : DomStore) (magic a : Z) (anc : bytes) (bs : Branch) : Prop := {
  bn_body : ∀ i h b, bs !! i = Some (h, b) → body_at s magic (a + Z.of_nat i) h (Some b);
  bn_header : ∀ i h b, bs !! i = Some (h, b) → header_at s (a + Z.of_nat i) h ∧ zlen h = 32;
  bn_links : links anc bs;
}.

Definition last_hash (anc : bytes) (bs : Branch) : bytes := default anc (fst <$> last bs).

Lemma links_app anc bs1 bs2 :
  links anc (bs1 ++ bs2) ↔ links anc bs1 ∧ links (last_hash anc bs1) bs2.
Proof.
  revert anc. induction bs1 as [|[h b] bs1 IH]; intros anc; cbn [app links]; [tauto|].
  rewrite IH. unfold last_hash. rewrite last_cons. destruct (last bs1); tauto.
Qed.

Lemma links_lookup anc bs i h b :
  links anc bs → bs !! i = Some (h, b) →
  hash_bytes (prev_hash (header b)) = last_hash anc (take i bs).
Proof.
  intros Hl Hi. rewrite <- (take_drop_middle bs i (h, b) Hi) in Hl.
  apply links_app in Hl as [_ Hl]. apply Hl.
Qed.

Lemma header_at_inj s h h' hash : header_at s h hash → header_at s h' hash → h = h'.
Proof. intros (hb & hd & H1 & H2 & H3) (hb' & hd' & H1' & H2' & H3'). congruence. Qed.

Lemma branch_snoc s magic a anc bs x :
  branch s magic a anc (bs ++ [x]) → branch s magic a anc bs.
Proof.
  intros [H1 H2 H3]. split.
  - intros i h b Hi. apply H1. by apply lookup_app_l_Some.
  - intros i h b Hi. apply (H2 _ _ b). by apply lookup_app_l_Some.
  - by apply links_app in H3 as [? _].
Qed.

(** Walking down a stored branch collects it. *)
Lemma branch_blocks_branch s magic a anc bs fuel out :
  0 < a → header_at s (a - 1) anc → branch s magic a anc bs →
  branch_blocks fuel s {| hash_bytes := last_hash anc bs |} {| hash_bytes := anc |} = Ok out →
  out = reverse (tagged bs).
Proof.
  intros Ha Hanc. revert fuel out. induction bs as [|[h b] bs IH] using rev_ind; intros fuel out Hb H;
    (destruct fuel as [|fuel]; [done|]); cbn [branch_blocks] in H.
  { rewrite bool_decide_true in H by done. by injection H as <-. }
  assert (Hlast : last_hash anc (bs ++ [(h, b)]) = h) by (unfold last_hash; by rewrite last_snoc).
  rewrite Hlast in H.
  assert (Hi : (bs ++ [(h, b)]) !! length bs = Some (h, b)) by (by rewrite list_lookup_middle).
  destruct (bn_header _ _ _ _ _ Hb _ _ _ Hi) as [Hh _].
  rewrite bool_decide_false in H.
  2:{ intros [= ->]. pose proof (header_at_inj _ _ _ _ Hh Hanc). lia. }
  pose proof (bn_body _ _ _ _ _ Hb _ _ _ Hi) as Hbody.
  inversion Hbody as [|body b' hb Hbd Hd Hbok Hhb Hid Hht _]; subst b'.
  apply rbind_Ok in H as (r & ->%get_raw_Ok & H). cbn [table hash_bytes] in H. rewrite Hbd in H.
  cbn [ok_or rbind] in H. rewrite Hd in H. cbn [map_err rbind] in H. rewrite Hhb in H. cbn [rbind] in H.
  apply rbind_Ok in H as (rest & Hrest & [= <-]).
  assert (Hprev : prev_hash (header b) = {| hash_bytes := last_hash anc bs |}).
  { rewrite <- (Hash256_eta (prev_hash _)). f_equal.
    rewrite (links_lookup _ _ _ _ _ (bn_links _ _ _ _ _ Hb) Hi). by rewrite take_app_length. }
  rewrite Hprev in Hrest. apply IH in Hrest as ->; [|by eapply branch_snoc].
  unfold tagged. rewrite fmap_app, reverse_app. cbn [fmap list_fmap fst snd reverse rev_append app].
  f_equal. f_equal. unfold compute_block_hash.
  assert (Hg : height (header b) ≠ GENESIS) by (intros Hg; rewrite Hg in Hht; cbn in Hht; lia).
  pose proof (header_reads_back _ _ (proj1 Hbok) Hhb) as Hrb.
  by rewrite (identifier_is_hash _ _ _ _ Hrb Hg Hid).
Qed.

(** The part of the canonical chain above an ancestor is a branch. *)
Lemma stored_branch s magic common bs anc ob :
  stored s magic (common ++ chain_of bs) → last common = Some (anc, ob) →
  branch s magic (zlen common) anc bs.
Proof.
  intros Hs Hlast.
  assert (Hix : ∀ i h b, bs !! i = Some (h, b) →
    (common ++ chain_of bs) !! (length common + i)%nat = Some (h, Some b)).
  { intros i h b Hi. rewrite lookup_app_r, Nat.add_comm, Nat.add_sub by lia.
    unfold chain_of. by rewrite list_lookup_fmap, Hi. }
  assert (Hz : ∀ i, Z.of_nat (length common + i) = zlen common + Z.of_nat i) by (unfold zlen; lia).
  split.
  - intros i h b Hi%Hix. rewrite <- Hz. by eapply so_body.
  - intros i h b Hi%Hix. rewrite <- Hz. split; [by eapply so_header|by eapply so_index].
  - clear Hz. revert common anc ob Hs Hlast Hix.
    induction bs as [|[h b] bs IH]; intros common anc ob Hs Hlast Hix; cbn [links]; [done|].
    assert (Hne : (0 < length common)%nat) by (destruct common; [done|cbn; lia]). split.
    + specialize (Hix 0%nat h b eq_refl). rewrite Nat.add_0_r in Hix.
      eapply (so_link _ _ _ Hs (Nat.pred (length common)) h b anc ob).
      * by rewrite Nat.succ_pred by lia.
      * rewrite lookup_app_l by lia. by rewrite <- last_lookup.
    + apply (IH (common ++ [(h, Some b)]) h (Some b)).
      * by rewrite <- app_assoc.
      * by rewrite last_snoc.
      * intros i h' b' Hi. rewrite <- app_assoc, length_app. cbn [length app].
        rewrite <- Nat.add_assoc. by apply (Hix (S i)).
Qed.

(** ** The height index *)

Lemma inserts_lookup_ne {A B} (f : A → Z) (g : A → B) (l : list A) (m : gmap Z B) k :
  k ∉ f <$> l → foldl (λ m x, <[f x := g x]> m) m l !! k = m !! k.
Proof.
  revert m. induction l as [|x l IH]; intros m Hk; [done|].
  rewrite fmap_cons, not_elem_of_cons in Hk. cbn [foldl]. rewrite IH by tauto.
  apply lookup_insert_ne. naive_solver.
Qed.
Lemma inserts_lookup {A B} (f : A → Z) (g : A → B) (l : list A) (m : gmap Z B) x :
  NoDup (f <$> l) → x ∈ l → foldl (λ m x, <[f x := g x]> m) m l !! f x = Some (g x).
Proof.
  revert m. induction l as [|y l IH]; intros m Hnd Hx; [by apply not_elem_of_nil in Hx|].
  rewrite fmap_cons, NoDup_cons in Hnd. destruct Hnd as [Hy Hnd]. cbn [foldl].
  apply elem_of_cons in Hx as [->|Hx]; [|by apply IH].
  rewrite inserts_lookup_ne by done. apply lookup_insert_eq.
Qed.

Lemma ascending_heights_elem {A} (m : gmap Z A) h v : (h, v) ∈ ascending_heights m ↔ m !! h = Some v.
Proof. unfold ascending_heights. rewrite merge_sort_Permutation. apply elem_of_map_to_list. Qed.
Lemma ascending_heights_NoDup {A} (m : gmap Z A) : NoDup (ascending_heights m).*1.
Proof. unfold ascending_heights. rewrite merge_sort_Permutation. apply NoDup_fst_map_to_list. Qed.

(** Heights of a branch that starts at [a] *)
Definition branch_heights (a : Z) (bs : Branch) : Prop :=
  ∀ i h b, bs !! i = Some (h, b) → height_val (height (header b)) = a + Z.of_nat i ∧
                                   u64_ok (height_val (height (header b))).

Lemma branch_height_list a bs :
  branch_heights a bs →
  (λ hb : Hash256 * Block, height_val (height (header hb.2))) <$> tagged bs = seqZ a (zlen bs).
Proof.
  intros H. apply list_eq. intros i. unfold tagged. rewrite !list_lookup_fmap.
  destruct (bs !! i) as [[h b]|] eqn:Hi; cbn [fmap option_fmap option_map fst snd].
  - destruct (H i h b Hi) as [-> _]. symmetry. apply lookup_seqZ. split; [done|].
    apply lookup_lt_Some in Hi. unfold zlen. lia.
  - symmetry. apply lookup_seqZ_ge. apply lookup_ge_None in Hi. unfold zlen. lia.
Qed.

Lemma plan_heights_writes (t : gmap bytes bytes) a th bs hu :
  0 ≤ a → a ≤ th → u64_ok th → branch_heights (a + 1) bs → plan_heights a th (tagged bs) = Ok hu →
  (∀ i, 0 ≤ i ≤ a → put_updates t (height_keys hu) !! le_bytes 8 i = t !! le_bytes 8 i) ∧
  (∀ i h b, bs !! i = Some (h, b) →
     put_updates t (height_keys hu) !! le_bytes 8 (a + 1 + Z.of_nat i) = Some h).
Proof.
  intros Ha Hth Hu Hbs H. unfold plan_heights in H. res_inv.
  set (hm := foldl _ _ _).
  pose proof (branch_height_list _ _ Hbs) as Hhs.
  assert (Hkeys : ∀ h v, hm !! h = Some v → a < h ∧ u64_ok h).
  { intros h v Hh.
    destruct (decide (h ∈ (λ hb : Hash256 * Block, height_val (height (header hb.2))) <$> tagged bs)) as [Hin|Hin].
    - pose proof Hin as Hin2. rewrite Hhs in Hin2. apply elem_of_seqZ in Hin2. split; [lia|].
      apply list_elem_of_fmap in Hin as (hb & -> & Hin).
      apply list_elem_of_fmap in Hin as ([h' b] & -> & [i Hi]%list_elem_of_lookup_1).
      apply (Hbs _ _ _ Hi).
    - unfold hm in Hh. rewrite inserts_lookup_ne in Hh by done.
      destruct (decide (h ∈ seqZ (a + 1) (th - a))) as [Hs|Hs].
      + apply elem_of_seqZ in Hs. unfold in_width in *. lia.
      + rewrite (inserts_lookup_ne id (λ _, None)) in Hh; [done|]. by rewrite list_fmap_id. }
  assert (Hnd : NoDup (height_keys (ascending_heights hm)).*1).
  { unfold height_keys. rewrite <- list_fmap_compose.
    change (NoDup (le_bytes 8 ∘ fst <$> ascending_heights hm)).
    rewrite (list_fmap_compose fst (le_bytes 8)). apply NoDup_fmap_2_strong; [|apply ascending_heights_NoDup].
    intros x y ([x' vx] & -> & Hx)%list_elem_of_fmap ([y' vy] & -> & Hy)%list_elem_of_fmap.
    apply ascending_heights_elem, Hkeys in Hx as [_ ?].
    apply ascending_heights_elem, Hkeys in Hy as [_ ?]. by apply height_key_inj. }
  split.
  - intros i Hi. rewrite put_updates_lookup by done. rewrite not_elem_of_list_to_map_1; [done|].
    unfold height_keys. rewrite <- list_fmap_compose. intros ([h v] & He & Hin)%list_elem_of_fmap.
    apply ascending_heights_elem, Hkeys in Hin as [? ?]. cbn [compose fst] in He.
    apply height_key_inj in He; [lia|unfold in_width in *; lia|done].
  - intros i h b Hi. destruct (Hbs _ _ _ Hi) as [Hbh Hbu]. rewrite put_updates_lookup by done.
    erewrite elem_of_list_to_map_1; [done|done|]. unfold height_keys.
    apply list_elem_of_fmap. exists (a + 1 + Z.of_nat i, Some h). split; [done|].
    apply ascending_heights_elem. rewrite <- Hbh.
    assert (Hx : ({| hash_bytes := h |}, b) ∈ tagged bs).
    { apply list_elem_of_fmap. exists (h, b). split; [done|by eapply list_elem_of_lookup_2]. }
    refine (inserts_lookup _ _ _ _ _ _ Hx). rewrite Hhs. apply NoDup_seqZ.
Qed.

(** ** The whole promotion *)

Lemma block_rules_disjoint b ctx magic c :
  block_ok b → validate_block_for_network b ctx magic = Ok tt →
  c ∈ block_spends b → c ∉ block_creates b.
Proof.
  intros Hbok Hv Hs Hc. pose proof (br_cut_through _ _ _ (validate_block_rules _ _ _ Hbok Hv)) as Hcut.
  unfold block_spends in Hs. apply list_elem_of_bind in Hs as (tx & Hs & Htx).
  apply list_elem_of_fmap in Hs as (i & -> & Hi).
  apply (Hcut (in_commitment i)).
  { apply list_elem_of_bind. exists tx. split; [|done]. by apply list_elem_of_fmap_2. }
  assert (Hinj : ∀ x y : Commitment, commit_bytes x = commit_bytes y → x = y)
    by (by intros [] [] [= ->]).
  rewrite block_creates_eq in Hc. unfold block_outputs.
  apply elem_of_cons in Hc as [He|Hc].
  - apply Hinj in He. rewrite He. left.
  - right. apply list_elem_of_bind in Hc as (tx' & Hc & Htx').
    apply list_elem_of_fmap in Hc as (o & He & Ho). apply Hinj in He. rewrite He.
    apply list_elem_of_bind. exists tx'. split; [|done]. by apply list_elem_of_fmap_2.
Qed.

(** The databases after the writes of a promotion *)
Definition reorganised (s : DomStore) (tip : bytes) (hu : list (Z * option bytes))
    (uu ku : list (bytes * option bytes)) : DomStore :=
  {| db_blocks := db_blocks s; db_block_bodies := db_block_bodies s;
     db_height := put_updates (db_height s) (height_keys hu);
     db_tip := <[TIP_KEY := tip]> (db_tip s);
     db_utxos := put_updates (db_utxos s) uu;
     db_kernels := put_updates (db_kernels s) ku;
     db_peers := db_peers s;
     db_metadata := delete METADATA_UTXO_SET_DIGEST_KEY (db_metadata s);
     db_tx_identity := db_tx_identity s; map_size := map_size s |}.

Lemma apply_reorg_Ok s tip hu uu ku s' :
  apply_reorg s tip hu uu ku = Ok s' → s' = reorganised s tip hu uu ku.
Proof.
  unfold apply_reorg. intros H. res_inv.
  apply reorg_heights_Ok in Hm0 as ->. apply reorg_entries_Ok in Hm1 as ->.
  apply reorg_entries_Ok in Hm2 as ->. apply lift_lmdb_Ok, mdb_put_Ok in Hm3 as [_ ->].
  by apply del_if_present_Ok in Hm4 as [_ ->].
Qed.

(** What a successful plan says *)
Lemma plan_reorg_parts cs tip now plan :
  plan_reorg cs tip now = Ok plan →
  ∃ anc a hb dis con O1 K1 O K,
    find_common_ancestor (store cs) (tip_hash cs) tip = Ok (Some anc) ∧
    (anc = tip_hash cs ∧ a = height_val (tip_height cs) ∨ header_at (store cs) a (hash_bytes anc)) ∧
    get_block_header (store cs) (hash_bytes tip) = Ok (Some hb) ∧
    from_bytes BlockHeader hb = Ok (rp_tip plan) ∧
    a ≤ height_val (tip_height cs) ∧
    collect_branch_blocks (store cs) (tip_hash cs) anc = Ok dis ∧
    collect_branch_blocks (store cs) tip anc = Ok con ∧
    try_each (validate_reorg_candidate cs now) (reverse con) = Ok tt ∧
    try_fold (apply_disconnect (store cs) a
                (foldl (λ m hb, record_block_outputs hb.2 m) ∅ dis)) (∅, ∅) dis = Ok (O1, K1) ∧
    try_fold (apply_connect (store cs) (coinbase_maturity cs)) (O1, K1) (reverse con) = Ok (O, K) ∧
    plan_heights a (height_val (tip_height cs)) (reverse con) = Ok (rp_heights plan) ∧
    build_utxo_updates (store cs) O = Ok (rp_utxos plan) ∧
    build_kernel_updates (store cs) K = Ok (rp_kernels plan).
Proof.
  intros H. unfold plan_reorg in H.
  apply rbind_Ok in H as (r & Hr & H). apply rbind_Ok in H as (hb & ->%ok_or_Ok & H).
  apply rbind_Ok in H as (th & Hth & H). apply rbind_Ok in H as (found & Hfind & H).
  apply rbind_Ok in H as (anc & Hanc%ok_or_Ok & H).
  destruct found as [anc'|]; [|done]. destruct (bool_decide (anc' ≠ Hash256_ZERO)); [|done].
  injection Hanc as ->. apply rbind_Ok in H as (a & Ha & H).
  apply rbind_Ok in H as ([] & _ & H). destruct (negb _); [done|].
  apply rbind_Ok in H as (depth & [_ Hd]%ok_or_Ok%checked_sub_Some & H).
  do 2 apply rbind_Ok in H as ([] & _ & H). apply rbind_Ok in H as (dis & Hdis & H).
  destruct (negb _); [done|]. apply rbind_Ok in H as (con & Hcon & H).
  apply rbind_Ok in H as ([] & Hval & H). apply rbind_Ok in H as ([O1 K1] & Ho1 & H).
  apply rbind_Ok in H as ([O K] & Ho & H). apply rbind_Ok in H as (hu & Hhu & H).
  apply rbind_Ok in H as (uu & Huu & H). apply rbind_Ok in H as (ku & Hku & [= <-]).
  exists anc, a, hb, dis, con, O1, K1, O, K. cbn [rp_tip rp_heights rp_utxos rp_kernels fst snd] in *.
  split_and!; try done. destruct (bool_decide (anc = tip_hash cs)) eqn:Ht.
  - injection Ha as <-. apply bool_decide_eq_true in Ht. by left.
  - apply rbind_Ok in Ha as (r & ->%get_raw_Ok & Ha). apply rbind_Ok in Ha as (ab & Hab%ok_or_Ok & Ha).
    apply rbind_Ok in Ha as (ad & Had & [= <-]). right. by exists ab, ad.
Qed.

Lemma plan_reorg_Ok cs tip now plan anc a :
  plan_reorg cs tip now = Ok plan →
  find_common_ancestor (store cs) (tip_hash cs) tip = Ok (Some anc) →
  (anc = tip_hash cs → height_val (tip_height cs) = a) →
  header_at (store cs) a (hash_bytes anc) →
  ∃ hb dis con O1 K1 O K,
    get_block_header (store cs) (hash_bytes tip) = Ok (Some hb) ∧
    from_bytes BlockHeader hb = Ok (rp_tip plan) ∧
    a ≤ height_val (tip_height cs) ∧
    collect_branch_blocks (store cs) (tip_hash cs) anc = Ok dis ∧
    collect_branch_blocks (store cs) tip anc = Ok con ∧
    try_each (validate_reorg_candidate cs now) (reverse con) = Ok tt ∧
    try_fold (apply_disconnect (store cs) a
                (foldl (λ m hb, record_block_outputs hb.2 m) ∅ dis)) (∅, ∅) dis = Ok (O1, K1) ∧
    try_fold (apply_connect (store cs) (coinbase_maturity cs)) (O1, K1) (reverse con) = Ok (O, K) ∧
    plan_heights a (height_val (tip_height cs)) (reverse con) = Ok (rp_heights plan) ∧
    build_utxo_updates (store cs) O = Ok (rp_utxos plan) ∧
    build_kernel_updates (store cs) K = Ok (rp_kernels plan).
Proof.
  intros H Hfind Htip Hanc.
  apply plan_reorg_parts in H as (anc' & a' & hb & dis & con & O1 & K1 & O & K & Hf & Ha & H).
  assert (anc' = anc) as -> by congruence.
  assert (a' = a) as ->; [|by exists hb, dis, con, O1, K1, O, K].
  destruct Ha as [[Ht ->]|Ha]; [by apply Htip|by eapply header_at_inj].
Qed.

Lemma stored_prefix s magic l1 l2 : stored s magic (l1 ++ l2) → stored s magic l1.
Proof.
  intros [H1 H2 H3 H4 H5]. rewrite zlen_app in H1. pose proof (zlen_nonneg l2). split.
  - lia.
  - intros i hash ob Hi. eapply H2. by apply lookup_app_l_Some.
  - intros i hash ob Hi. eapply H3. by apply lookup_app_l_Some.
  - intros i hash ob Hi. eapply H4. by apply lookup_app_l_Some.
  - intros i hash b parent ob Hi Hp. eapply (H5 i); by apply lookup_app_l_Some.
Qed.

(** A branch on top of a stored chain, with its heights indexed, is stored. *)
Lemma stored_append s magic common bs anc ob :
  stored s magic common → last common = Some (anc, ob) → branch s magic (zlen common) anc bs →
  (∀ i h b, bs !! i = Some (h, b) → db_height s !! le_bytes 8 (zlen common + Z.of_nat i) = Some h) →
  zlen common + zlen bs ≤ 2 ^ 64 →
  stored s magic (common ++ chain_of bs).
Proof.
  intros Hs Hlast Hb Hix Hlen.
  assert (Hcase : ∀ i k ob, (common ++ chain_of bs) !! i = Some (k, ob) →
    common !! i = Some (k, ob) ∨
    ∃ j b, Z.of_nat i = zlen common + Z.of_nat j ∧ i = (length common + j)%nat ∧
           bs !! j = Some (k, b) ∧ ob = Some b).
  { intros i k ob0 Hi. apply lookup_app_Some in Hi as [?|[Hge Hi]]; [by left|right].
    unfold chain_of in Hi. rewrite list_lookup_fmap in Hi.
    destruct (bs !! (i - length common)%nat) as [[h b]|] eqn:Hj; [|done]. injection Hi as -> <-.
    exists (i - length common)%nat, b. unfold zlen. split_and!; [lia|lia|done|done]. }
  destruct Hs as [H1 H2 H3 H4 H5]. split.
  - rewrite zlen_app. unfold chain_of. by rewrite zlen_fmap.
  - intros i k ob0 [Hi|(j & b & -> & _ & Hj & ->)]%Hcase; [eauto|].
    split; [eauto|by eapply bn_header].
  - intros i k ob0 [Hi|(j & b & -> & _ & Hj & ->)]%Hcase; [eauto|]. by eapply bn_body.
  - intros i k ob0 [Hi|(j & b & -> & _ & Hj & ->)]%Hcase; [eauto|]. by eapply bn_header.
  - intros i k b parent ob0 Hi Hp. apply Hcase in Hi as [Hi|(j & b' & _ & Hij & Hj & [= <-])].
    { apply Hcase in Hp as [Hp|(j & b' & _ & Hij & _)]; [eauto|].
      apply lookup_lt_Some in Hi. lia. }
    rewrite (links_lookup _ _ _ _ _ (bn_links _ _ _ _ _ Hb) Hj).
    destruct j as [|j].
    + rewrite take_0. cbn. rewrite last_lookup in Hlast.
      replace (Nat.pred (length common)) with i in Hlast by lia.
      apply Hcase in Hp as [Hp|(j & b' & _ & Hij' & _)]; [congruence|lia].
    + apply Hcase in Hp as [Hp|(j' & b' & _ & Hij' & Hj' & _)]; [apply lookup_lt_Some in Hp; lia|].
      assert (j' = j) as -> by lia. erewrite take_S_r by done. unfold last_hash. by rewrite last_snoc.
Qed.

Lemma branch_mono s s' magic a anc bs :
  db_blocks s' = db_blocks s → db_block_bodies s' = db_block_bodies s →
  branch s magic a anc bs → branch s' magic a anc bs.
Proof.
  intros Hb Hbb [H1 H2 H3]. split; [| |done].
  - intros i h b Hi. pose proof (H1 i h b Hi) as Hat. inversion Hat; subst.
    eapply body_block; try done. by rewrite Hbb.
  - intros i h b Hi. destruct (H2 i h b Hi) as [(hb & hd & ? & ?) ?]. split; [|done].
    exists hb, hd. by rewrite Hb.
Qed.

Lemma branch_heights_of s magic a anc bs : branch s magic a anc bs → branch_heights a bs.
Proof.
  intros Hb i h b Hi. pose proof (bn_body _ _ _ _ _ Hb i h b Hi) as Hat.
  inversion Hat as [|? ? ? ? ? Hbok ? ? Hh]; subst. split; [done|]. apply Hbok.
Qed.

(** The setting of a promotion: a chain that shares [common] with the branch [new] *)
Record reorg_setting (cs : ChainState) (common : Chain) (old new : Branch) (anc : bytes)
    (La Ln : LedgerState) : Prop := {
  rs_chain : chain_ok cs (common ++ chain_of old) Ln;
  rs_common : ledger common La;
  rs_ancestor : ∃ ob, last common = Some (anc, ob);
  rs_branch : branch (store cs) (network_magic cs) (zlen common) anc new;
  rs_found : find_common_ancestor (store cs) (tip_hash cs) {| hash_bytes := last_hash anc new |}
             = Ok (Some {| hash_bytes := anc |});
  rs_no_recreate : ∀ c, c ∈ branch_creates old → unspent La !! c = None;
}.

Section setting.
Context (cs : ChainState) (common : Chain) (old new : Branch) (anc : bytes) (La Ln : LedgerState).
Context (HS : reorg_setting cs common old new anc La Ln).

Lemma setting_run : run La (chain_of old) Ln.
Proof.
  pose proof (ck_ledger _ _ _ (rs_chain _ _ _ _ _ _ _ HS)) as H. unfold ledger in H.
  apply run_app in H as (L1 & H1 & H2).
  by rewrite (run_fun _ _ _ _ (rs_common _ _ _ _ _ _ _ HS) H1).
Qed.

Lemma setting_length : 0 < zlen common.
Proof.
  destruct (rs_ancestor _ _ _ _ _ _ _ HS) as [ob H]. destruct common; [done|].
  rewrite zlen_cons. pose proof (zlen_nonneg l). lia.
Qed.

Lemma setting_ancestor_header : header_at (store cs) (zlen common - 1) anc.
Proof.
  destruct (rs_ancestor _ _ _ _ _ _ _ HS) as [ob H]. rewrite last_lookup in H.
  pose proof (ck_stored _ _ _ (rs_chain _ _ _ _ _ _ _ HS)) as Hs%stored_prefix.
  pose proof (so_header _ _ _ Hs _ _ _ H) as Hh. pose proof setting_length.
  unfold zlen in *. by replace (Z.of_nat (length common) - 1) with (Z.of_nat (Nat.pred (length common))) by lia.
Qed.

Lemma setting_old_branch : branch (store cs) (network_magic cs) (zlen common) anc old.
Proof.
  destruct (rs_ancestor _ _ _ _ _ _ _ HS) as [ob H].
  by eapply stored_branch; [apply (rs_chain _ _ _ _ _ _ _ HS)|].
Qed.

Lemma last_chain_of bs : fst <$> last (common ++ chain_of bs) = Some (last_hash anc bs).
Proof.
  destruct (rs_ancestor _ _ _ _ _ _ _ HS) as [ob H]. rewrite last_app. unfold last_hash, chain_of.
  rewrite fmap_last. destruct (last bs) as [[h b]|]; [done|]. by rewrite H.
Qed.

Lemma setting_tip : tip_hash cs = {| hash_bytes := last_hash anc old |}.
Proof.
  pose proof (ck_tip _ _ _ (rs_chain _ _ _ _ _ _ _ HS)) as H. rewrite last_chain_of in H.
  injection H as ->. by rewrite Hash256_eta.
Qed.

(** The last block of a branch above the ancestor has its header stored. *)
Lemma setting_last_header bs :
  branch (store cs) (network_magic cs) (zlen common) anc bs →
  header_at (store cs) (zlen common + zlen bs - 1) (last_hash anc bs).
Proof.
  intros Hb. unfold last_hash. destruct (last bs) as [[h b]|] eqn:Hl.
  - rewrite last_lookup in Hl. destruct (bn_header _ _ _ _ _ Hb _ _ _ Hl) as [Hh _]. cbn.
    apply lookup_lt_Some in Hl.
    replace (zlen common + zlen bs - 1) with (zlen common + Z.of_nat (Nat.pred (length bs)))
      by (unfold zlen; lia). done.
  - apply last_None in Hl as ->. rewrite zlen_nil, Z.add_0_r. apply setting_ancestor_header.
Qed.

(** The output a disconnected spend brings back is the one unspent at the ancestor. *)
Lemma setting_resurrects c e e' :
  unspent La !! c = Some e →
  resurrected (store cs) (zlen common - 1)
    (foldl (λ m hb, record_block_outputs hb.2 m) ∅ (reverse (tagged old))) c e' → e' = e.
Proof.
  intros He (found & Hf & Hr).
  rewrite disconnect_index_None in Hr.
  2:{ intros Hin. rewrite (rs_no_recreate _ _ _ _ _ _ _ HS c Hin) in He. done. }
  subst found. unfold find_canonical_output_entry in Hf. rewrite Z.sub_add in Hf.
  pose proof (rs_common _ _ _ _ _ _ _ HS) as Hrun.
  pose proof (ck_stored _ _ _ (rs_chain _ _ _ _ _ _ _ HS)) as Hs%stored_prefix.
  unfold ledger in Hrun. rewrite <- (take_ge common (length common)) in Hrun by lia.
  assert (Some e' = Some e) by (eapply (find_output_unspent (store cs)); [exact Hs|done|exact Hrun|done|exact Hf]).
  congruence.
Qed.

Lemma planned_ledger now plan :
  plan_reorg cs {| hash_bytes := last_hash anc new |} now = Ok plan →
  ∃ L', run La (chain_of new) L' ∧
    height_val (height (rp_tip plan)) = zlen common + zlen new - 1 ∧
    zlen common - 1 ≤ height_val (tip_height cs) ∧
    plan_heights (zlen common - 1) (height_val (tip_height cs)) (tagged new) = Ok (rp_heights plan) ∧
    put_updates (db_utxos (store cs)) (rp_utxos plan) = utxo_table (unspent L') ∧
    put_updates (db_kernels (store cs)) (rp_kernels plan) = kernel_of L' ∧
    ∃ hb, db_blocks (store cs) !! last_hash anc new = Some hb ∧ from_bytes BlockHeader hb = Ok (rp_tip plan).
Proof.
  intros Hplan. pose proof (rs_chain _ _ _ _ _ _ _ HS) as Hck. pose proof setting_length as Hlen.
  eapply plan_reorg_Ok in Hplan
    as (hb & dis & con & O1 & K1 & O & K & Hhb & Hhd & Hle & Hdis & Hcon & Hval & Hd & Hc & Hhu & Huu & Hku);
    [|exact (rs_found _ _ _ _ _ _ _ HS)| |exact setting_ancestor_header].
  2:{ intros Ht. rewrite (ck_height _ _ _ Hck).
      pose proof (setting_last_header old setting_old_branch) as Hl.
      rewrite setting_tip in Ht. injection Ht as Ht. rewrite <- Ht in Hl.
      pose proof (header_at_inj _ _ _ _ Hl setting_ancestor_header) as Heq.
      rewrite zlen_app. unfold chain_of. rewrite zlen_fmap. lia. }
  rewrite setting_tip in Hdis.
  apply (branch_blocks_branch _ (network_magic cs) (zlen common) anc old) in Hdis as ->;
    [|lia|exact setting_ancestor_header|exact setting_old_branch].
  apply (branch_blocks_branch _ (network_magic cs) (zlen common) anc new) in Hcon as ->;
    [|lia|exact setting_ancestor_header|exact (rs_branch _ _ _ _ _ _ _ HS)].
  rewrite reverse_involutive in Hval, Hc, Hhu.
  destruct (disconnect_all _ _ _ _ _ _ _ _ setting_run Hd) as [Hv Hk].
  rewrite <- (ck_kernels _ _ _ Hck) in Hk.
  eapply connect_all in Hc as (L' & Hrun & Hv' & Hk');
    [|apply (ck_utxos _ _ _ Hck)|apply (ck_entries _ _ _ Hck)| | |exact Hk].
  2:{ intros h b Hin c. apply try_each_Ok in Hval. rewrite Forall_forall in Hval.
      pose proof Hin as [i Hi]%list_elem_of_lookup_1.
      pose proof (bn_body _ _ _ _ _ (rs_branch _ _ _ _ _ _ _ HS) i h b Hi) as Hat.
      inversion Hat as [|? ? ? ? ? Hbok]; subst.
      specialize (Hval ({| hash_bytes := h |}, b)
        ltac:(apply list_elem_of_fmap; by exists (h, b))).
      unfold validate_reorg_candidate in Hval. apply rbind_Ok in Hval as ([] & _ & Hval%map_err_Ok).
      by eapply block_rules_disjoint. }
  2:{ intros c. apply Hv. intros e e'. apply setting_resurrects. }
  apply get_raw_Ok in Hhb. cbn [table hash_bytes] in Hhb.
  exists L'. split_and!; [done| |done|done| | |by exists hb].
  -     destruct (setting_last_header new (rs_branch _ _ _ _ _ _ _ HS)) as (hb' & hd & Hb' & Hd' & <-).
    congruence.
  - apply map_eq. intros c. rewrite utxo_table_lookup, <- Hv'.
    eapply utxo_updates_written; [apply (ck_utxos _ _ _ Hck)|apply (ck_entries _ _ _ Hck)|done].
  - apply map_eq. intros k. rewrite <- Hk'. by apply kernel_updates_written.
Qed.

Lemma promoted_chain plan L' s :
  run La (chain_of new) L' →
  height_val (height (rp_tip plan)) = zlen common + zlen new - 1 →
  zlen common - 1 ≤ height_val (tip_height cs) →
  plan_heights (zlen common - 1) (height_val (tip_height cs)) (tagged new) = Ok (rp_heights plan) →
  put_updates (db_utxos (store cs)) (rp_utxos plan) = utxo_table (unspent L') →
  put_updates (db_kernels (store cs)) (rp_kernels plan) = kernel_of L' →
  s = reorganised (store cs) (last_hash anc new) (rp_heights plan) (rp_utxos plan) (rp_kernels plan) →
  (∃ hb, db_blocks (store cs) !! last_hash anc new = Some hb ∧
         from_bytes BlockHeader hb = Ok (rp_tip plan)) →
  chain_ok (with_tip (with_store cs s) {| hash_bytes := last_hash anc new |} (height (rp_tip plan))
              (total_difficulty (rp_tip plan))) (common ++ chain_of new) L'.
Proof.
  intros Hrun Hth Hle Hhu Huu Hku -> (hb & Hhb & Hhd). pose proof (rs_chain _ _ _ _ _ _ _ HS) as Hck.
  pose proof setting_length as Hlen. pose proof (rs_branch _ _ _ _ _ _ _ HS) as Hbr.
  pose proof (so_length _ _ _ (ck_stored _ _ _ Hck)) as Hmax.
  pose proof (ck_height _ _ _ Hck) as Hh.
  assert (Hbh : branch_heights (zlen common - 1 + 1) new)
    by (rewrite Z.sub_add; by eapply branch_heights_of).
  assert (Ha : 0 ≤ zlen common - 1) by lia.
  assert (Hw : u64_ok (height_val (tip_height cs))) by (unfold in_width; lia).
  destruct (plan_heights_writes (db_height (store cs)) _ _ _ _ Ha Hle Hw Hbh Hhu) as [Hlow Hnew].
  rewrite Z.sub_add in Hnew.
  destruct (rs_ancestor _ _ _ _ _ _ _ HS) as [ob Hob].
  assert (Hst : stored (reorganised (store cs) (last_hash anc new) (rp_heights plan) (rp_utxos plan)
                          (rp_kernels plan)) (network_magic cs) (common ++ chain_of new)).
  { eapply stored_append; [|done|by apply (branch_mono (store cs))|exact Hnew|].
    - apply (stored_mono (store cs)); [done| |eapply stored_prefix, (ck_stored _ _ _ Hck)].
      intros i Hi. cbn [reorganised db_height]. apply Hlow. unfold zlen. lia.
    - destruct (last new) as [[h b]|] eqn:Hl.
      + rewrite last_lookup in Hl. destruct (branch_heights_of _ _ _ _ _ Hbr _ _ _ Hl) as [He Hbw].
        apply lookup_lt_Some in Hl. unfold in_width in Hbw. unfold zlen in *. lia.
      + apply last_None in Hl as ->. rewrite zlen_nil. rewrite zlen_app in Hmax.
        pose proof (zlen_nonneg (chain_of old)). lia. }
  assert (Hled : ledger (common ++ chain_of new) L').
  { apply run_app. exists La. split; [apply (rs_common _ _ _ _ _ _ _ HS)|done]. }
  split; try done.
  - eapply (run_entries_ok _ _ empty_ledger); [|apply map_Forall_empty|exact Hled].
    intros i hash ob0 Hi. eexists. by eapply so_body.
  - cbn [with_tip tip_hash hash_bytes]. apply last_chain_of.
  - cbn [with_tip tip_height]. rewrite Hth, zlen_app. unfold chain_of. by rewrite zlen_fmap.
  - split; [cbn; by rewrite lookup_insert_eq|by exists hb, (rp_tip plan)].
Qed.
End setting.

(** C3: A reorganisation keeps the ledger.  Promoting a stored branch leaves the databases
    and the tip at the old chain, or moves them to the chain with the blocks above the
    common ancestor replaced by those of the branch: every block of the branch applied
    cleanly after the ancestor, and height index, unspent outputs and kernels are the ones
    of the new chain; it reports success only when it moved.  The disconnected blocks must
    not have re-created an output that was unspent at the ancestor. *)
Theorem promote_keeps_ledger cs common old new anc La Ln now cs' r :
  reorg_setting cs common old new anc La Ln →
  promote_heavier_known_tip {| hash_bytes := last_hash anc new |} now cs = (cs', r) →
  (cs' = cs ∧ is_ok r = false) ∨
  (∃ L', run La (chain_of new) L' ∧ chain_ok cs' (common ++ chain_of new) L').
Proof.
  intros HS H. unfold promote_heavier_known_tip in H.
  apply st_bind_inv in H as [(plan & s1 & [-> Hplan]%st_get_Ok & H)|(? & [= <- _] & _ & ?)]; [|by left].
  destruct (planned_ledger _ _ _ _ _ _ _ HS _ _ Hplan) as (L' & Hrun & Hth & Hle & Hhu & Huu & Hku & Hhb).
  apply st_bind_inv in H as [(? & s1 & Hup & H)|(r1 & Hup & Hr1 & Hr)].
  2:{ apply st_update_inv in Hup as [[_ ->]|[-> _]]; [done|by left]. }
  apply st_update_inv in Hup as [[Hup _]|[_ ?]]; [|done]. apply rbind_Ok in Hup as (s & Hs & [= <-]).
  apply apply_reorg_Ok in Hs. right. exists L'. split; [done|].
  pose proof (promoted_chain _ _ _ _ _ _ _ HS plan L' s Hrun Hth Hle Hhu Huu Hku Hs Hhb) as Hck.
  apply st_bind_inv in H as [(? & s2 & Hp & H)|(r2 & Hp & _ & _)];
    pose proof (prune_self_keeps _ _ _ _ _ Hck Hp) as Hck2; [|done].
  by injection H as <- _.
Qed.
End promote.
