(* ===== verification/ChainTyping.v ===== *)
(** * Typing of the node state

    The tables of the store hold bytes; the code reads them back as arrays of a fixed length,
    headers, blocks and unspent outputs.  [store_typed] says that every record has the shape
    its readers expect and [chain_typed] that the fields of the chain state are in the ranges
    of their machine types.  Both are invariants of the state machine whose steps are
    connecting a block from the wire, promoting a branch and restarting, whatever the steps
    report; so in a reachable state no read finds a malformed record. *)

From Stdlib Require Import ZArith Lia.
From stdpp Require Import base list strings gmap sorting.
From S2P Require Import Prelude ByteOrder CoreError Core Serialization CryptoHash Pow Curve.
From S2P Require Import Keys Pedersen Schnorr RangeProof RangeProve Transaction TransactionLaws BlockHeader.
From S2P Require Import Consensus ConsensusLaws Genesis Utxo Store StoreLaws StateM Reorg.
From S2P Require Import ChainUtxo ChainState ChainConnect Ledger ChainLaws ReopenLaws ReorgLaws PromoteLaws.

(** [[u8; n]] *)
Definition array (n : Z) (b : bytes) : Prop := zlen b = n ∧ bytes_ok b.

Definition utxo_record (k v : bytes) : Prop :=
  array 33 k ∧ ∃ e, utxo_ok e ∧ v = utxo_to_bytes e.

Section typing.
Context `{HB : Blake2b256} `{HM : HmacSha256} `{HC : Secp256k1} `{HZ : !ZkpBackend}.
Context `{HR : RandomXHash} `{HP : ZkpProver} `{HL : Lmdb} (env : option string).

Definition header_record (k v : bytes) : Prop :=
  array 32 k ∧ ∃ h, header_ok h ∧ from_bytes BlockHeader v = Ok h.
Definition body_record (k v : bytes) : Prop := array 32 k ∧ bytes_ok v ∧ zlen v < 2 ^ 63.

Record store_typed (s : DomStore) : Prop := {
  ty_blocks : map_Forall header_record (db_blocks s);
  ty_bodies : map_Forall body_record (db_block_bodies s);
  ty_height : map_Forall (λ k v, array 8 k ∧ array 32 v) (db_height s);
  ty_tip : map_Forall (λ _ v, array 32 v) (db_tip s);
  ty_utxos : map_Forall utxo_record (db_utxos s);
  ty_kernels : map_Forall (λ k v, array 33 k ∧ array 32 v) (db_kernels s);
}.

Record chain_typed (cs : ChainState) : Prop := {
  ct_store : store_typed (store cs);
  ct_tip : array 32 (hash_bytes (tip_hash cs));
  ct_height : u64_ok (height_val (tip_height cs));
  ct_difficulty : 0 ≤ tip_difficulty cs < 2 ^ 256;
}.

(** ** Tables *)

Lemma delete_all_Forall (P : bytes → bytes → Prop) (ks : list bytes) (m : gmap bytes bytes) : map_Forall P m → map_Forall P (delete_all ks m).
Proof. intros H k v. rewrite delete_all_lookup. case_bool_decide; [done|]. apply H. Qed.

Lemma put_updates_Forall (P : bytes → bytes → Prop) ups m :
  (∀ k v, (k, Some v) ∈ ups → P k v) → map_Forall P m → map_Forall P (put_updates m ups).
Proof.
  revert m. induction ups as [|[k o] ups IH]; intros m Hu Hm; [done|]. cbn [put_updates foldl fst snd].
  apply IH; [intros j v Hj; apply Hu; by right|]. intros j v Hj.
  destruct (decide (j = k)) as [->|Hne].
  - rewrite lookup_partial_alter_eq in Hj. apply Hu. rewrite Hj. left.
  - rewrite lookup_partial_alter_ne in Hj by done. by apply Hm.
Qed.

Lemma list_to_map_Forall (P : bytes → bytes → Prop) (l : list (bytes * bytes)) (m : gmap bytes bytes) :
  (∀ k v, (k, v) ∈ l → P k v) → map_Forall P m → map_Forall P (list_to_map l ∪ m).
Proof.
  intros Hl Hm k v [Hk|[_ Hk]]%lookup_union_Some_raw; [|by apply Hm].
  apply Hl. by apply elem_of_list_to_map_2.
Qed.

(** ** Records of a block *)

Lemma blake2b_array d : array 32 (blake2b d).
Proof. split; [apply blake2b_len|apply blake2b_bytes]. Qed.

Lemma identifier_array magic hb hash :
  compute_block_identifier magic hb = Ok hash → array 32 (hash_bytes hash).
Proof.
  unfold compute_block_identifier, canonical_header_identifier, identity_hash. intros H.
  res_inv; apply blake2b_array.
Qed.

Lemma output_key_array (o : TransactionOutput) : wf o → array 33 (output_key o).
Proof. intros [(? & ? & _) _]. by split. Qed.

Lemma block_entries_typed b c e : block_ok b → (c, e) ∈ block_entries b → array 33 c ∧ utxo_ok e.
Proof.
  intros Hb Hin. split; [|by eapply block_entries_ok].
  pose proof (block_ok_txs b Hb) as Htxs. destruct Hb as (_ & Hcb & _).
  unfold block_entries in Hin. apply elem_of_cons in Hin as [[= -> _]|Hin]; [apply output_key_array, Hcb|].
  apply list_elem_of_bind in Hin as (tx & Hin & Htx).
  apply list_elem_of_fmap in Hin as (o & [= -> _] & Ho). apply output_key_array.
  rewrite Forall_forall in Htxs. destruct (Htxs tx Htx) as (_ & Hos & _).
  apply list_ok_Forall in Hos. rewrite Forall_forall in Hos. by apply Hos.
Qed.

Lemma block_inputs_typed b i : block_ok b → i ∈ transactions b ≫= inputs → array 33 (input_key i).
Proof.
  intros Hb (tx & Hi & Htx)%list_elem_of_bind.
  pose proof (block_ok_txs b Hb) as Htxs. rewrite Forall_forall in Htxs.
  destruct (tx_ok_commitments tx (Htxs tx Htx)) as (_ & Hin & _).
  unfold input_commits in Hin. rewrite Forall_fmap, Forall_forall in Hin.
  destruct (Hin i Hi) as (? & ? & _). by split.
Qed.

Lemma block_kernels_typed b hash k v :
  block_ok b → array 32 (hash_bytes hash) → (k, v) ∈ extract_kernel_excesses b hash →
  array 33 k ∧ array 32 v.
Proof.
  intros Hb Hh Hin. pose proof (block_ok_txs b Hb) as Htxs. destruct Hb as (_ & (_ & Hk & _) & _).
  unfold extract_kernel_excesses in Hin. apply elem_of_cons in Hin as [[= -> ->]|Hin].
  { split; [|done]. destruct Hk as (_ & _ & (? & ? & _) & _). by split. }
  apply list_elem_of_bind in Hin as (tx & Hin & Htx).
  apply list_elem_of_fmap in Hin as (kr & [= -> ->] & Hkr). split; [|done].
  rewrite Forall_forall in Htxs. destruct (tx_ok_commitments tx (Htxs tx Htx)) as (_ & _ & Hks).
  unfold kernel_excesses in Hks. rewrite Forall_fmap, Forall_forall in Hks.
  destruct (Hks kr Hkr) as (? & ? & _). by split.
Qed.

(** ** Writes *)

Lemma committed_typed s hash hb b body :
  store_typed s → block_ok b → array 32 (hash_bytes hash) → to_bytes (header b) = Ok hb →
  bytes_ok body → zlen body < 2 ^ 63 →
  store_typed (committed s (hash_bytes hash) (height_val (height (header b))) hb body
                 (build_utxo_changeset b).1 (build_utxo_changeset b).2 (extract_kernel_excesses b hash)).
Proof.
  intros [H1 H2 H3 H4 H5 H6] Hb Hh Hhb Hbo Hbl. split; cbn [committed db_blocks db_block_bodies db_height
    db_tip db_utxos db_kernels].
  - apply map_Forall_insert_2; [|done]. split; [done|]. exists (header b). split; [apply Hb|].
    apply header_reads_back; [apply Hb|done].
  - by apply map_Forall_insert_2.
  - apply map_Forall_insert_2; [|done]. split; [|done]. split; [apply zlen_le_bytes|apply le_bytes_ok].
  - by apply map_Forall_insert_2.
  - apply delete_all_Forall, list_to_map_Forall; [|done]. intros k v Hin.
    apply list_elem_of_fmap in Hin as ([c e] & [= -> ->] & Hin).
    destruct (block_entries_typed _ _ _ Hb Hin) as [Hc He]. split; [done|by exists e].
  - apply list_to_map_Forall; [|done]. intros k v. by apply block_kernels_typed.
Qed.

Lemma on_wire_bytes b body :
  on_wire b → to_bytes b = Ok body → block_ok b ∧ bytes_ok body ∧ zlen body < 2 ^ 63.
Proof.
  intros (raw & Hb & Hl & Hf) Ht. destruct (codec_exact raw b Hb Hl) as [_ Hiff].
  destruct (proj1 Hiff Hf) as [Hwf Hraw]. assert (body = raw) as -> by congruence. done.
Qed.

Lemma prune_typed th hash s s' :
  store_typed s → prune_retained_side_chains th hash s = Ok s' → store_typed s'.
Proof.
  intros Hs H. unfold prune_retained_side_chains in H. res_inv; try done.
  apply prune_known_blocks_Ok in H as ->. destruct Hs as [H1 H2 H3 H4 H5 H6].
  split; try done; by apply delete_all_Forall.
Qed.

Lemma prune_self_typed cs cs' r : chain_typed cs → prune_self cs = (cs', r) → chain_typed cs'.
Proof.
  intros [H1 H2 H3 H4] H. unfold prune_self in H.
  apply st_update_inv in H as [[H _]|[-> _]]; [|by split]. res_inv.
  split; [|done..]. by eapply prune_typed.
Qed.

Lemma known_block_typed s hash b hb body s' :
  store_typed s → block_ok b → array 32 hash → to_bytes (header b) = Ok hb →
  bytes_ok body → zlen body < 2 ^ 63 → store_known_block s hash hb body = Ok s' → store_typed s'.
Proof.
  intros [H1 H2 H3 H4 H5 H6] Hb Hh Hhb Hbo Hbl H. unfold store_known_block in H. res_inv.
  apply put_block_Ok in Hm0 as (_ & _ & _ & ->). split; try done; apply map_Forall_insert_2; try done.
  split; [done|]. exists (header b). split; [apply Hb|]. apply header_reads_back; [apply Hb|done].
Qed.

(** ** Reorganisations *)

Lemma body_decodes_ok k v b : body_record k v → from_bytes Block v = Ok b → block_ok b.
Proof. intros (_ & Hb & Hl) H. by apply (codec_exact v b Hb Hl) in H as [? _]. Qed.

Lemma stored_body_ok s hash v b :
  store_typed s → get_block_body s hash = Ok (Some v) → from_bytes Block v = Ok b → block_ok b.
Proof.
  intros Hs Hv%get_raw_Ok. symmetry in Hv. eapply body_decodes_ok. by apply (ty_bodies _ Hs).
Qed.

Definition collected (hb : Hash256 * Block) : Prop := array 32 (hash_bytes hb.1) ∧ block_ok hb.2.

Lemma branch_blocks_typed fuel s tip anc out :
  store_typed s → branch_blocks fuel s tip anc = Ok out → Forall collected out.
Proof.
  intros Hs. revert tip out. induction fuel as [|fuel IH]; intros tip out H; [done|].
  cbn [branch_blocks] in H. case_bool_decide; [injection H as <-; constructor|].
  apply rbind_Ok in H as (r & Hr & H). apply rbind_Ok in H as (body & ->%ok_or_Ok & H).
  apply rbind_Ok in H as (b & Hb%map_err_Ok & H). apply rbind_Ok in H as (hb & _ & H).
  apply rbind_Ok in H as (rest & Hrest%IH & [= <-]). constructor; [|done].
  split; [apply blake2b_array|by eapply stored_body_ok].
Qed.

Definition adds {A} (P : bytes → A → Prop) (O : gmap bytes (option A)) : Prop :=
  ∀ c e, O !! c = Some (Some e) → P c e.
Abbreviation utxo_overlay_typed := (adds (λ c e, array 33 c ∧ utxo_ok e)) (only parsing).
Abbreviation kernel_overlay_typed := (adds (λ k v, array 33 k ∧ array 32 v)) (only parsing).
Definition overlays_typed (OK : gmap bytes (option UtxoEntry) * gmap bytes (option bytes)) : Prop :=
  utxo_overlay_typed OK.1 ∧ kernel_overlay_typed OK.2.

(** Removing keys keeps what the overlay adds. *)
Lemma removed_typed {A B} (P : bytes → A → Prop) (l : list (bytes * B)) (O : gmap bytes (option A)) :
  adds P O → adds P (foldl (λ m '(c, _), <[c := None]> m) O l).
Proof.
  intros HO c e. rewrite remove_keys_lookup. case_bool_decide; [done|]. apply HO.
Qed.

Lemma inserted_typed {A} (P : bytes → A → Prop) (O : gmap bytes (option A)) c e :
  P c e → adds P O → adds P (<[c := Some e]> O).
Proof. intros He HO c' e' [[<- [= <-]]|[_ H]]%lookup_insert_Some; [done|by apply HO]. Qed.

Lemma find_output_typed s c hs e :
  store_typed s → find_output_below s c hs = Ok (Some e) → utxo_ok e.
Proof.
  intros Hs. induction hs as [|h hs IH]; intros H; cbn [find_output_below] in H; [done|].
  apply rbind_Ok in H as (r & _ & H). destruct r as [hash|]; [|by apply IH].
  apply rbind_Ok in H as (r & Hr & H). destruct r as [body|]; [|by apply IH].
  destruct ((_ =? _) && _); [by apply IH|]. apply rbind_Ok in H as (b & Hb%map_err_Ok & H).
  destruct (entry_in_block b c) as [e'|] eqn:He; [|by apply IH]. injection H as ->.
  unfold entry_in_block in He. apply fmap_Some in He as ([i [c' e']] & Hf & ->).
  apply list_find_Some in Hf as (Hi & _ & _). cbn [fst snd].
  eapply (block_entries_ok b c'); [by eapply stored_body_ok|by eapply list_elem_of_lookup_2].
Qed.

Lemma index_typed dis :
  Forall collected dis →
  map_Forall (λ _, utxo_ok) (foldl (λ m (hb : Hash256 * Block), record_block_outputs hb.2 m) ∅ dis).
Proof.
  intros Hd. assert (Hall : ∀ m : gmap bytes UtxoEntry, map_Forall (λ _, utxo_ok) m →
    map_Forall (λ _, utxo_ok) (foldl (λ m (hb : Hash256 * Block), record_block_outputs hb.2 m) m dis));
    [|apply Hall, map_Forall_empty].
  induction Hd as [|[h b] dis [_ Hb] _ IH]; intros m Hm; [done|]. cbn [foldl]. apply IH.
  cbn [snd] in *. unfold record_block_outputs.
  assert (He : ∀ c e, (c, e) ∈ block_entries b → utxo_ok e) by (intros c e; by apply block_entries_ok).
  revert m Hm He. generalize (block_entries b).
  induction l as [|[c e] l IHl]; intros m Hm He; [done|]. cbn [foldl]. apply IHl.
  - apply map_Forall_insert_2; [|done]. apply (He c). left.
  - intros c' e' Hin. apply (He c'). by right.
Qed.

Lemma apply_disconnect_typed s a idx OK hb OK' :
  store_typed s → map_Forall (λ _, utxo_ok) idx → collected hb → overlays_typed OK →
  apply_disconnect s a idx OK hb = Ok OK' → overlays_typed OK'.
Proof.
  destruct OK as [O K], hb as [h b]. intros Hs Hidx [Hh Hb] [HO HK] H. cbn [fst snd] in *.
  unfold apply_disconnect in H. apply rbind_Ok in H as (O' & HO' & [= <-]). split; cbn [fst snd].
  - eapply (try_fold_inv _ utxo_overlay_typed); [| |exact HO'].
    + intros m i m' Hi Hm Hr. unfold resurrect in Hr. apply rbind_Ok in Hr as (found & Hf & Hr).
      apply rbind_Ok in Hr as (e & He%ok_or_Ok & [= <-]).
      apply inserted_typed; [|done].
      split; [by eapply block_inputs_typed|]. destruct (idx !! input_key i) as [e'|] eqn:Hi'.
      * injection He as ->. by eapply Hidx.
      * subst found. by eapply find_output_typed.
    + by apply removed_typed.
  - by apply (removed_typed _ (extract_kernel_excesses b h) K).
Qed.

Lemma apply_connect_typed s mat OK hb OK' :
  collected hb → overlays_typed OK → apply_connect s mat OK hb = Ok OK' → overlays_typed OK'.
Proof.
  destruct OK as [O K], hb as [h b]. intros [Hh Hb] [HO HK] H. cbn [fst snd] in *.
  unfold apply_connect in H. apply rbind_Ok in H as (O1 & H1 & H).
  apply rbind_Ok in H as (O2 & H2 & H). apply rbind_Ok in H as (K' & H3 & [= <-]). split; cbn [fst snd].
  - eapply (try_fold_inv _ utxo_overlay_typed); [| |exact H2].
    + intros m [c e] m' Hin Hm Hr. unfold connect_output in Hr. res_inv.
      apply inserted_typed; [by eapply block_entries_typed|done].
    + eapply (try_fold_inv _ utxo_overlay_typed); [|exact HO|exact H1].
      intros m i m' _ Hm Hr c e. unfold connect_input in Hr. res_inv.
      intros [[_ ?]|[_ ?]]%lookup_insert_Some; [done|by apply Hm].
  - eapply (try_fold_inv _ kernel_overlay_typed); [|exact HK|exact H3].
    intros m [k v] m' Hin Hm Hr. unfold connect_kernel in Hr. res_inv.
    apply inserted_typed; [by eapply block_kernels_typed|done].
Qed.

Lemma plan_heights_typed a th con hu :
  Forall collected con → plan_heights a th con = Ok hu →
  ∀ k v, (k, Some v) ∈ height_keys hu → array 8 k ∧ array 32 v.
Proof.
  intros Hc H k v Hin. unfold plan_heights in H. apply rbind_Ok in H as (from & _ & [= <-]).
  apply list_elem_of_fmap in Hin as ([h o] & [-> Ho]%pair_eq & Hin). cbn [fst snd] in *.
  subst o.
  split; [split; [apply zlen_le_bytes|apply le_bytes_ok]|].
  apply ascending_heights_elem in Hin.
  assert (Hall : ∀ m : gmap Z (option bytes), (∀ h v, m !! h = Some (Some v) → array 32 v) →
    ∀ h v, foldl (λ m (hb : Hash256 * Block), <[height_val (height (header hb.2)) := Some (hash_bytes hb.1)]> m)
             m con !! h = Some (Some v) → array 32 v).
  { clear Hin. induction Hc as [|[hh b] con [Hh _] _ IH]; intros m Hm h' v'; [apply Hm|]. cbn [foldl].
    apply IH. intros h2 v2 [[_ [= <-]]|[_ ?]]%lookup_insert_Some; [done|by eapply Hm]. }
  eapply Hall; [|exact Hin]. clear. intros h v.
  assert (Hn : ∀ l (m : gmap Z (option bytes)), (∀ h v, m !! h ≠ Some (Some v)) →
    foldl (λ m h, <[h := None]> m) m l !! h ≠ Some (Some v)).
  { induction l as [|x l IH]; intros m Hm; [apply Hm|]. cbn [foldl]. apply IH.
    intros h' v' [[_ ?]|[_ ?]]%lookup_insert_Some; [done|by eapply Hm]. }
  intros H. exfalso. eapply Hn; [|exact H]. intros h' v'. by rewrite lookup_empty.
Qed.

Lemma updates_typed {A} (f : bytes * option A → Result (list (bytes * option bytes)))
    (Q : bytes → A → Prop) (P : bytes → bytes → Prop) (O : gmap bytes (option A)) out :
  (∀ c o l k v, f (c, o) = Ok l → (k, Some v) ∈ l → ∃ e, o = Some e ∧ k = c ∧ (Q c e → P k v)) →
  adds Q O → try_map f (ascending O) = Ok out → ∀ k v, (k, Some v) ∈ mjoin out → P k v.
Proof.
  intros Hf HO Hm k v (l & Hin & [i Hl]%list_elem_of_lookup_1)%list_elem_of_join.
  apply try_map_Ok in Hm. destruct (Forall2_lookup_r _ _ _ _ _ Hm Hl) as ([c o] & Hi & Hfl).
  destruct (Hf _ _ _ _ _ Hfl Hin) as (e & -> & -> & HQ). apply HQ, HO.
  apply elem_of_map_to_list. rewrite <- (ascending_perm O). by eapply list_elem_of_lookup_2.
Qed.

Lemma utxo_update_typed s c o l k v :
  utxo_update s (c, o) = Ok l → (k, Some v) ∈ l →
  ∃ e, o = Some e ∧ k = c ∧ (array 33 c ∧ utxo_ok e → utxo_record k v).
Proof.
  intros Hf Hin. unfold utxo_update in Hf. apply rbind_Ok in Hf as (cur & _ & Hf).
  assert (Hl : l = [] ∨ (∃ e, o = Some e ∧ l = [(c, Some (utxo_to_bytes e))]) ∨ l = [(c, None)]).
  { destruct cur as [cur|], o as [e|];
      [destruct (bool_decide (utxo_to_bytes _ = _)); [|destruct (bool_decide _ && _); [|done]]|..];
      injection Hf as <-; eauto. }
  destruct Hl as [->|[(e & -> & ->)| ->]]; [by apply not_elem_of_nil in Hin|..];
    apply list_elem_of_singleton in Hin; [|done]. injection Hin as -> ->.
  exists e. split_and!; [done|done|]. intros [? ?]. split; [done|by exists e].
Qed.

Lemma kernel_update_typed s c o l k v :
  kernel_update s (c, o) = Ok l → (k, Some v) ∈ l →
  ∃ h, o = Some h ∧ k = c ∧ (array 33 c ∧ array 32 h → array 33 k ∧ array 32 v).
Proof.
  intros Hf Hin. unfold kernel_update in Hf. apply rbind_Ok in Hf as (cur & _ & [= <-]).
  destruct (negb _); [|by apply not_elem_of_nil in Hin].
  apply list_elem_of_singleton in Hin. injection Hin as -> <-. by exists v.
Qed.

(** The writes of a plan *)
Lemma planned_typed cs tip now plan s :
  chain_typed cs → array 32 (hash_bytes tip) → plan_reorg cs tip now = Ok plan →
  apply_reorg (store cs) (hash_bytes tip) (rp_heights plan) (rp_utxos plan) (rp_kernels plan) = Ok s →
  chain_typed (with_tip (with_store cs s) tip (height (rp_tip plan)) (total_difficulty (rp_tip plan))).
Proof.
  intros Hct Ht Hplan.
  apply plan_reorg_parts in Hplan as (anc & a & hb & dis & con & O1 & K1 & O & K & _ & _ & Hhb & Hhd
    & _ & Hdis & Hcon & _ & Ho1 & Ho & Hhu & Huu & Hku).
  intros ->%apply_reorg_Ok. destruct Hct as [Hs _ _ _].
  apply (branch_blocks_typed _ _ _ _ _ Hs) in Hdis. apply (branch_blocks_typed _ _ _ _ _ Hs) in Hcon.
  rewrite <- (reverse_involutive con) in Hcon. apply Forall_reverse in Hcon.
  rewrite reverse_involutive in Hcon.
  assert (Hov : overlays_typed (O, K)).
  { eapply (try_fold_inv _ overlays_typed); [| |exact Ho].
    - intros OK hb' OK' Hin. eapply apply_connect_typed. rewrite Forall_forall in Hcon. by apply Hcon.
    - eapply (try_fold_inv _ overlays_typed); [| |exact Ho1].
      + intros OK hb' OK' Hin. eapply apply_disconnect_typed; [done|by apply index_typed|].
        rewrite Forall_forall in Hdis. by apply Hdis.
      + split; intros c e; cbn [fst snd]; by rewrite lookup_empty. }
  destruct Hov as [HO HK]. cbn [fst snd] in HO, HK.
  apply get_raw_Ok in Hhb. symmetry in Hhb. destruct (ty_blocks _ Hs _ _ Hhb) as (_ & hd & Hok & Hd).
  assert (rp_tip plan = hd) as -> by congruence.
  unfold build_utxo_updates in Huu. apply rbind_Ok in Huu as (uu & Huu & [= <-]).
  unfold build_kernel_updates in Hku. apply rbind_Ok in Hku as (ku & Hku & [= <-]).
  destruct Hs as [H1 H2 H3 H4 H5 H6]. split; [split|done|apply Hok|apply Hok]; try done.
  - apply put_updates_Forall; [by eapply plan_heights_typed|done].
  - by apply map_Forall_insert_2.
  - apply put_updates_Forall; [|done]. eapply updates_typed; [|exact HO|exact Huu].
    exact (utxo_update_typed _).
  - apply put_updates_Forall; [|done]. eapply updates_typed; [|exact HK|exact Hku].
    exact (kernel_update_typed _).
Qed.

Lemma promote_typed tip now cs cs' r :
  chain_typed cs → array 32 (hash_bytes tip) → promote_heavier_known_tip tip now cs = (cs', r) →
  chain_typed cs'.
Proof.
  intros Hct Ht H. unfold promote_heavier_known_tip in H.
  apply st_bind_inv in H as [(plan & s1 & [-> Hplan]%st_get_Ok & H)|(? & [= <- _] & _)]; [|done].
  apply st_bind_inv in H as [(? & s1 & Hup & H)|(r1 & Hup & Hr1 & _)];
    apply st_update_inv in Hup as [[Hup ?]|[-> ?]]; simplify_eq; try done.
  apply rbind_Ok in Hup as (s & Hs & [= <-]).
  pose proof (planned_typed _ _ _ _ _ Hct Ht Hplan Hs) as Hw.
  apply st_bind_inv in H as [(? & s2 & Hp & H)|(r2 & Hp & _)];
    apply (prune_self_typed _ _ _ Hw) in Hp; [|done].
  by injection H as <- _.
Qed.

(** ** Connecting *)

Lemma extend_tip_typed cs b hash hb body cs' r :
  chain_typed cs → block_ok b → array 32 (hash_bytes hash) → to_bytes (header b) = Ok hb →
  bytes_ok body → zlen body < 2 ^ 63 → extend_tip b hash hb body cs = (cs', r) → chain_typed cs'.
Proof.
  intros Hct Hb Hh Hhb Hbo Hbl. unfold extend_tip.
  destruct (build_utxo_changeset b) as [new spent] eqn:Hcs.
  do 3 (intros [([] & s1 & [-> _]%st_get_Ok & H)|(? & [= <- _] & _)]%st_bind_inv; [revert H|done]).
  intros [[H _]|[-> _]]%st_update_inv; [|done]. res_inv.
  apply commit_block_Ok in Hm as [_ ->]. destruct Hct as [Hs _ _ _]. split; [|done|apply Hb|apply Hb].
  pose proof (committed_typed _ _ _ _ _ Hs Hb Hh Hhb Hbo Hbl) as Hc. by rewrite Hcs in Hc.
Qed.

Lemma connect_typed cs b now cs' r :
  chain_typed cs → on_wire b → connect_block env b now cs = (cs', r) → chain_typed cs'.
Proof.
  intros Hct Hw H. unfold connect_block in H.
  apply st_bind_inv in H as [(hb & s1 & [-> Hhb]%st_get_Ok & H)|(? & [= <- _] & _)]; [|done].
  apply st_bind_inv in H as [(hash & s1 & [-> Hid%identifier_array]%st_get_Ok & H)|(? & [= <- _] & _)]; [|done].
  apply st_bind_inv in H as [(known & s1 & [-> _]%st_get_Ok & H)|(? & [= <- _] & _)]; [|done].
  destruct known; [by injection H as <- _|].
  apply st_bind_inv in H as [([] & s1 & [-> _]%st_get_Ok & H)|(? & [= <- _] & _)]; [|done].
  apply st_bind_inv in H as [(body & s1 & [-> Hbody]%st_get_Ok & H)|(? & [= <- _] & _)]; [|done].
  apply st_bind_inv in H as [(? & s1 & [-> [= <-]]%st_get_Ok & H)|(? & [= <- _] & _)]; [|done].
  destruct (on_wire_bytes b body Hw Hbody) as (Hb & Hbo & Hbl).
  destruct (bool_decide _ || _).
  - destruct (negb _); [by injection H as <- _|].
    apply st_bind_inv in H as [(? & s1 & He & H)|(r1 & He & _)]; apply extend_tip_typed in He; try done.
    apply st_bind_inv in H as [(? & s2 & Hp & H)|(r2 & Hp & _)];
      apply prune_self_typed in Hp; try done. by injection H as <- _.
  - apply st_bind_inv in H as [(? & s1 & Hs & H)|(r1 & Hs & Hr1 & _)];
      apply st_update_inv in Hs as [[Hs ?]|[-> ?]]; simplify_eq; try done. res_inv.
    assert (Hct1 : chain_typed (with_store cs a)).
    { destruct Hct. split; [|done..]. by eapply known_block_typed. }
    apply st_bind_inv in H as [(? & s2 & Hp & H)|(r2 & Hp & _)];
      apply prune_self_typed in Hp; try done.
    destruct (is_better_fork_choice_tip _ _ _ _); [|by injection H as <- _].
    apply st_bind_inv in H as [(? & s3 & Hpr & H)|(r3 & Hpr & _)]; apply promote_typed in Hpr; try done.
    by injection H as <- _.
Qed.

(** ** Restarting *)

Lemma load_canonical_typed s magic h w1 w2 b hash :
  store_typed s → load_canonical s magic h w1 w2 = Ok (Some (b, hash)) →
  block_ok b ∧ array 32 (hash_bytes hash).
Proof.
  intros Hs H. unfold load_canonical in H. apply rbind_Ok in H as (r & _ & H).
  apply rbind_Ok in H as (k & _ & H). apply rbind_Ok in H as (r' & Hr & H).
  apply rbind_Ok in H as (body & ->%ok_or_Ok & H). destruct (_ && _ && _); [done|].
  apply rbind_Ok in H as (b' & Hb%map_err_Ok & H). apply rbind_Ok in H as (hb & _ & H).
  apply rbind_Ok in H as (hash' & Hid%identifier_array & H). destruct (negb _); [done|].
  injection H as -> ->. split; [by eapply stored_body_ok|done].
Qed.

Lemma ensure_kernels_typed s kers s' :
  store_typed s → (∀ k v, (k, v) ∈ kers → array 33 k ∧ array 32 v) →
  ensure_kernel_indices s kers = Ok s' → store_typed s'.
Proof.
  intros Hs Hk H. unfold ensure_kernel_indices in H. res_inv.
  eapply (try_fold_inv _ store_typed); [|exact Hs|exact Hm0].
  intros s1 [k v] s2 Hin H1 H. unfold ensure_kernel_index in H.
  destruct (mdb_get _ _ _) as [ex|[]|]; try done.
  - destruct (bool_decide _); [by injection H as <-|]. by destruct (_ =? _).
  - apply lift_lmdb_Ok, mdb_put_new_Ok in H as (_ & _ & ->). destruct H1 as [? ? ? ? ? H6].
    split; try done. apply map_Forall_insert_2; [by apply Hk|exact H6].
Qed.

Lemma rebuild_kernels_typed th magic s s' r :
  store_typed s → rebuild_kernel_index_from_canonical_chain th magic s = (s', r) → store_typed s'.
Proof.
  unfold rebuild_kernel_index_from_canonical_chain. generalize (heights th).
  intros hs. revert s r. induction hs as [|h hs IH]; intros s r Hs H; [by injection H as <- _|].
  cbn [st_each] in H.
  assert (Hone : ∀ s1 r1, rebuild_kernels_at magic h s = (s1, r1) → store_typed s1).
  { intros s1 r1 H1. unfold rebuild_kernels_at in H1.
    apply st_bind_inv in H1 as [(b & s2 & [-> Hl]%st_get_Ok & H1)|(? & [= <- _] & _)]; [|done].
    destruct b as [[b hash]|]; [|by injection H1 as <- _].
    apply st_update_inv in H1 as [[H1 _]|[-> _]]; [|done].
    apply (load_canonical_typed _ _ _ _ _ _ _ Hs) in Hl as [Hb Hh].
    eapply ensure_kernels_typed; [exact Hs| |exact H1]. intros k v. by apply block_kernels_typed. }
  apply st_bind_inv in H as [(? & s1 & H1 & H)|(? & H1 & _)]; [|by eapply Hone].
  eapply IH; [by eapply Hone|exact H].
Qed.

Lemma reconstruct_typed s th magic m :
  store_typed s → reconstruct_canonical_utxo_set s th magic = Ok m → map_Forall utxo_record m.
Proof.
  intros Hs H. unfold reconstruct_canonical_utxo_set in H.
  eapply (try_fold_inv _ (map_Forall utxo_record)); [|apply map_Forall_empty|exact H].
  clear H. intros m1 h m2 _ Hm H. unfold rebuild_height in H.
  apply rbind_Ok in H as ([[b hash]|] & Hl & H); [|by injection H as <-].
  apply (load_canonical_typed _ _ _ _ _ _ _ Hs) in Hl as [Hb _].
  assert (Hins : ∀ w cb o m1 m2, (output_key o, output_entry b cb o) ∈ block_entries b →
    map_Forall utxo_record m1 → rebuild_insert w h b cb m1 o = Ok m2 → map_Forall utxo_record m2).
  { intros w cb o n1 n2 Hin Hn Hr. unfold rebuild_insert in Hr.
    destruct (n1 !! output_key o); [done|]. injection Hr as <-.
    destruct (block_entries_typed _ _ _ Hb Hin) as [Hk He].
    apply map_Forall_insert_2; [split; [done|by eexists]|done]. }
  unfold rebuild_block in H. apply rbind_Ok in H as (m3 & H3 & H).
  eapply (try_fold_inv _ (map_Forall utxo_record)); [|eapply Hins; [|exact Hm|exact H3]; left|exact H].
  intros n1 tx n2 Htx Hn Hr. unfold rebuild_tx in Hr. apply rbind_Ok in Hr as (n3 & Hn3 & Hr).
  eapply (try_fold_inv _ (map_Forall utxo_record)); [| |exact Hr].
  - intros n4 o n5 Ho Hn4. apply Hins; [|done]. right.
    apply list_elem_of_bind. exists tx. split; [|done]. apply list_elem_of_fmap. by exists o.
  - eapply (try_fold_inv _ (map_Forall utxo_record)); [|exact Hn|exact Hn3].
    intros n4 i n5 _ Hn4 Hi. unfold rebuild_remove in Hi. destruct (n4 !! input_key i); [|done].
    injection Hi as <-. by apply map_Forall_delete.
Qed.

Lemma ensure_utxos_typed th magic repair s s' r :
  store_typed s → ensure_canonical_utxo_set th magic repair s = (s', r) → store_typed s'.
Proof.
  intros Hs H. unfold ensure_canonical_utxo_set in H.
  apply st_bind_inv in H as [(m & s1 & [-> Hm]%st_get_Ok & H)|(? & [= <- _] & _)]; [|done].
  do 2 (apply st_bind_inv in H as [(? & s1 & [-> _]%st_get_Ok & H)|(? & [= <- _] & _)]; [|done]).
  apply (reconstruct_typed _ _ _ _ Hs) in Hm. destruct Hs as [H1 H2 H3 H4 H5 H6].
  destruct (bool_decide _); [destruct (negb _); [|by injection H as <- _]|
    destruct (negb repair); [by injection H as <- _|]];
    (apply st_update_inv in H as [[H _]|[-> _]]; [|by split]).
  - unfold persist_utxo_set_digest in H. res_inv. apply lift_lmdb_Ok, mdb_put_Ok in Hm1 as [_ ->]. by split.
  - unfold replace_utxo_set in H. res_inv.
    apply lift_lmdb_Ok, faulty_Ok in Hm1 as [_ [= <-]].
    apply lift_lmdb_Ok, mdb_put_Ok in Hm3 as [_ ->].
    eapply (put_all_Ok _ DB_UTXOS) in Hm2 as (_ & _ & _ & ->);
      [|intros; by rewrite lift_lmdb_Ok, mdb_put_new_Ok].
    split; try done. apply list_to_map_Forall; [|apply map_Forall_empty].
    intros k v Hin. apply Hm. apply elem_of_map_to_list. by rewrite <- (ascending_perm m).
Qed.

Lemma load_tip_typed s hash hd :
  store_typed s → load_tip hash s = Ok hd → array 32 hash ∧ header_ok hd.
Proof.
  intros Hs H. unfold load_tip in H. apply rbind_Ok in H as (r & Hr & H).
  apply rbind_Ok in H as (hb & ->%ok_or_Ok & H). apply rbind_Ok in H as (hd' & Hd & H).
  apply get_raw_Ok in Hr. symmetry in Hr. destruct (ty_blocks _ Hs _ _ Hr) as (Hh & hd2 & Hok & Hd2).
  assert (hd2 = hd') as -> by congruence. apply rbind_Ok in H as ([body|] & _ & H); [|done].
  apply rbind_Ok in H as ([ix|] & _ & H); [|done]. destruct (bool_decide _); [|done]. by injection H as <-.
Qed.

(** The recovery passes of [open_inner] and the tip they yield *)
Lemma recovery_typed magic repair tip s s' r :
  store_typed s →
  match tip with
  | Some hash =>
      do! header := st_get (load_tip hash) in
      do! _ := rebuild_kernel_index_from_canonical_chain (height header) magic in
      do! _ := ensure_canonical_utxo_set (height header) magic repair in
      do! _ := st_update (prune_retained_side_chains (height header) hash) in
      st_ret ({| hash_bytes := hash |}, height header, total_difficulty header)
  | None =>
      do! _ := st_update (prune_retained_side_chains GENESIS (replicate 32 0)) in
      st_ret (Hash256_ZERO, GENESIS, 0)
  end s = (s', r) →
  store_typed s' ∧
  ∀ h ht d, r = Ok (h, ht, d) → array 32 (hash_bytes h) ∧ u64_ok (height_val ht) ∧ 0 ≤ d < 2 ^ 256.
Proof.
  intros Hs H. destruct tip as [hash|].
  - apply st_bind_cases in H as [(hd & s1 & [-> Hd]%st_get_Ok & H)|[(? & [= <- _] & ->)|([= <- _] & ->)]];
      [|done..]. destruct (load_tip_typed _ _ _ Hs Hd) as [Hh Hok].
    apply st_bind_cases in H as [(? & s1 & Hk & H)|[(? & Hk & ->)|(Hk & ->)]];
      apply (rebuild_kernels_typed _ _ _ _ _ Hs) in Hk; [|done..].
    apply st_bind_cases in H as [(? & s2 & He & H)|[(? & He & ->)|(He & ->)]];
      apply (ensure_utxos_typed _ _ _ _ _ _ Hk) in He; [|done..].
    apply st_bind_cases in H as [(? & s3 & Hp & H)|[(? & Hp & ->)|(Hp & ->)]];
      apply st_update_inv in Hp as [[Hp ?]|[-> ?]]; simplify_eq; try done.
    injection H as <- <-. split; [by eapply prune_typed|]. intros h ht d [= <- <- <-].
    split_and!; [done|apply Hok..].
  - apply st_bind_cases in H as [(? & s1 & Hp & H)|[(? & Hp & ->)|(Hp & ->)]];
      apply st_update_inv in Hp as [[Hp ?]|[-> ?]]; simplify_eq; try done.
    injection H as <- <-. split; [by eapply prune_typed|]. intros h ht d [= <- <- <-].
    split_and!; [split; [done|by apply Forall_replicate]|done..].
Qed.

Lemma open_typed gh magic repair s s' r :
  store_typed s → open_inner gh magic repair s = (s', r) →
  store_typed s' ∧ ∀ cs, r = Ok cs → chain_typed cs.
Proof.
  intros Hs H. unfold open_inner in H.
  do 2 (apply st_bind_cases in H
    as [(? & s1 & [-> _]%st_get_Ok & H)|[(? & [= <- _] & ->)|([= <- _] & ->)]]; [|done..]).
  apply st_bind_cases in H as [([[h ht] d] & s1 & Hm & H)|[(? & Hm & ->)|(Hm & ->)]];
    apply (recovery_typed _ _ _ _ _ _ Hs) in Hm as [Hs1 Ht]; [|done..].
  apply st_bind_cases in H
    as [(? & s2 & [-> _]%st_get_Ok & H)|[(? & [= <- _] & ->)|([= <- _] & ->)]]; [|done..].
  rewrite (st_bind_run _ _ _ s1 s1) in H by done. injection H as <- <-. split; [done|]. intros cs [= <-].
  destruct (Ht _ _ _ eq_refl) as (? & ? & ?). by split.
Qed.

(** ** The state machine *)

(** What can happen to the state of a node; the steps keep their effects when they fail. *)
Inductive chain_step : ChainState → ChainState → Prop :=
| step_connect cs b now cs' r :
    on_wire b → connect_block env b now cs = (cs', r) → chain_step cs cs'
| step_promote cs hash now cs' r :
    array 32 (hash_bytes hash) → promote_heavier_known_tip hash now cs = (cs', r) → chain_step cs cs'
| step_restart cs gh magic repair s cs' :
    open_inner gh magic repair (store cs) = (s, Ok cs') → chain_step cs cs'
| step_failed_restart cs gh magic repair s r :
    open_inner gh magic repair (store cs) = (s, r) → chain_step cs (with_store cs s).

Inductive reachable (s0 : DomStore) : ChainState → Prop :=
| reach_open gh magic repair s cs : open_inner gh magic repair s0 = (s, Ok cs) → reachable s0 cs
| reach_step cs cs' : reachable s0 cs → chain_step cs cs' → reachable s0 cs'.

Lemma step_typed cs cs' : chain_typed cs → chain_step cs cs' → chain_typed cs'.
Proof.
  intros H. destruct 1 as [cs b now cs' r Hw Hc|cs hash now cs' r Hh Hp|cs gh magic rep s cs' Ho|cs gh magic rep s r Ho].
  - by eapply connect_typed.
  - by eapply promote_typed.
  - by apply (open_typed _ _ _ _ _ _ (ct_store _ H)) in Ho as [_ Ho]; apply Ho.
  - apply (open_typed _ _ _ _ _ _ (ct_store _ H)) in Ho as [Hs _]. destruct H. by split.
Qed.

(** No reader finds a malformed record. *)
Definition reads_succeed (s : DomStore) : Prop :=
  (∀ c, ∃ r, get_utxo s c = Ok r) ∧ (∀ h, ∃ r, get_hash_at_height s h = Ok r) ∧
  (∀ k, ∃ r, get_kernel_block s k = Ok r) ∧ (∃ r, get_chain_tip s = Ok r) ∧
  (∀ hash, ∃ r, load_retention_header s (db_blocks s) hash = Ok r).

Lemma typed_reads s : no_faults → store_typed s → reads_succeed s.
Proof.
  intros Hf [H1 H2 H3 H4 H5 H6]. split_and!.
  - intros c. unfold get_utxo. rewrite get_raw_total by done. cbn [rbind table].
    destruct (db_utxos s !! c) as [v|] eqn:Hv; [|eauto].
    destruct (H5 _ _ Hv) as (_ & e & He & ->). rewrite utxo_roundtrip by done. cbn [rbind]. eauto.
  - intros h. eexists. apply get_hash_value_total; [done|]. intros v Hv. by apply (H3 _ _ Hv).
  - intros k. eexists. apply get_hash_value_total; [done|]. intros v Hv. by apply (H6 _ _ Hv).
  - eexists. apply get_hash_value_total; [done|]. intros v Hv. by apply (H4 _ _ Hv).
  - intros hash. unfold load_retention_header, get_block_header. rewrite get_raw_total by done.
    cbn [rbind table]. destruct (db_blocks s !! hash) as [v|] eqn:Hv; [|eauto].
    destruct (H1 _ _ Hv) as (_ & h & _ & ->). cbn [rbind]. eauto.
Qed.

(** C6: Well-typed states.  Opened on well-typed databases, the node keeps them well typed
    through every sequence of connected blocks, promotions, restarts and repairs, failed ones
    included and whichever calls of LMDB fail: keys and values are arrays of the lengths their
    readers expect, headers and unspent outputs decode, and the tip fields are in the ranges
    of their machine types.  So whenever LMDB answers, no reader reports a corrupt record. *)
Theorem reachable_well_typed s0 cs :
  store_typed s0 → reachable s0 cs →
  chain_typed cs ∧ (no_faults → reads_succeed (store cs)).
Proof.
  intros Hs Hr. assert (Hct : chain_typed cs).
  { induction Hr as [gh magic rep s cs Ho|cs cs' _ IH Hstep]; [|by eapply step_typed].
    by apply (open_typed _ _ _ _ _ _ Hs) in Ho as [_ Ho]; apply Ho. }
  split; [done|]. intros Hf. apply typed_reads; [done|apply Hct].
Qed.
End typing.
