(* ===== verification/ChainSafety.v ===== *)
(** * Bounds and termination of reorganisations

    The loops that follow stored links end, no reorganisation goes deeper than the rolling
    finality, the fork choice does not depend on the order of arrival, and what goes wrong
    when a disconnected block re-created an output. *)

From Stdlib Require Import ZArith Lia.
From stdpp Require Import base list strings gmap sorting.
From S2P Require Import Prelude ByteOrder CoreError Core Serialization CryptoHash Pow Curve.
From S2P Require Import Keys Pedersen Schnorr RangeProof RangeProve Transaction TransactionLaws BlockHeader.
From S2P Require Import Consensus ConsensusLaws Genesis Utxo Store StoreLaws StateM Reorg.
From S2P Require Import ChainUtxo ChainState ChainConnect Ledger ChainLaws ReorgLaws PromoteLaws.

Section safety.
Context `{HB : Blake2b256} `{HM : HmacSha256} `{HC : Secp256k1} `{HZ : !ZkpBackend}.
Context `{HR : RandomXHash} `{HP : ZkpProver} `{HL : Lmdb}.

(** ** Termination of the walks *)

Lemma visited_bound {A} (t : gmap bytes A) (visited : list bytes) :
  NoDup visited → (∀ k, k ∈ visited → is_Some (t !! k)) → (length visited ≤ size t)%nat.
Proof.
  intros Hnd Hin. rewrite <- (size_list_to_set (C := gset bytes) visited) by done.
  rewrite <- size_dom. apply subseteq_size. intros k Hk%elem_of_list_to_set.
  apply elem_of_dom. auto.
Qed.

Definition record_bytes_ok (t : gmap bytes bytes) : Prop :=
  map_Forall (λ _ v, bytes_ok v ∧ zlen v < 2 ^ 63) t.

(** Links go down: a stored record whose parent is stored is above it. *)
Definition links_descend {T} `{!DomDeserialize T} (t : gmap bytes bytes) (hdr : T → BlockHeader) : Prop :=
  ∀ k v x v' x', t !! k = Some v → from_bytes T v = Ok x →
    t !! hash_bytes (prev_hash (hdr x)) = Some v' → from_bytes T v' = Ok x' →
    height_val (height (hdr x')) < height_val (height (hdr x)).

Definition decoded_at {T} `{!DomDeserialize T} (t : gmap bytes bytes) (k : bytes) (x : T) : Prop :=
  ∃ v, t !! k = Some v ∧ from_bytes T v = Ok x.

(** The cursor of a walk is below everything it has visited. *)
Record walking {T} `{!DomDeserialize T} (t : gmap bytes bytes) (hdr : T → BlockHeader)
    (cursor : bytes) (visited : list bytes) : Prop := {
  wk_distinct : NoDup visited;
  wk_stored : ∀ k, k ∈ visited → ∃ x : T, decoded_at t k x;
  wk_below : ∀ k (x y : T), k ∈ visited → decoded_at t k x → decoded_at t cursor y →
    height_val (height (hdr y)) < height_val (height (hdr x));
}.

Lemma walking_step {T} `{!DomDeserialize T} (t : gmap bytes bytes) (hdr : T → BlockHeader)
    cursor visited (x : T) :
  links_descend t hdr → walking t hdr cursor visited → decoded_at t cursor x →
  walking t hdr (hash_bytes (prev_hash (hdr x))) (cursor :: visited).
Proof.
  intros Hd [H1 H2 H3] Hx.
  assert (Hni : cursor ∉ visited) by (intros Hin; specialize (H3 _ x x Hin Hx Hx); lia).
  split.
  - by apply NoDup_cons.
  - intros k [->|Hk]%elem_of_cons; eauto.
  - intros k y z Hk Hy Hz.
    assert (Hzx : height_val (height (hdr z)) < height_val (height (hdr x))).
    { destruct Hx as (v & Hv & Hx), Hz as (v' & Hv' & Hz). exact (Hd _ _ _ _ _ Hv Hx Hv' Hz). }
    apply elem_of_cons in Hk as [->|Hk].
    + destruct Hx as (v & ? & ?), Hy as (v' & ? & ?). congruence.
    + specialize (H3 k y x Hk Hy Hx). lia.
Qed.

Lemma walking_bound {T} `{!DomDeserialize T} t (hdr : T → BlockHeader) cursor visited :
  walking t hdr cursor visited → (length visited ≤ size t)%nat.
Proof.
  intros [H1 H2 _]. apply visited_bound; [done|]. intros k Hk.
  destruct (H2 k Hk) as (x & v & -> & _). eauto.
Qed.

Lemma walking_start {T} `{!DomDeserialize T} t (hdr : T → BlockHeader) cursor :
  walking t hdr cursor [].
Proof. split; [constructor|by intros ? ?%not_elem_of_nil|by intros ? ? ? ?%not_elem_of_nil]. Qed.

Lemma get_raw_no_panic w d k s : get_raw w d k s ≠ Panic.
Proof.
  unfold get_raw, begin_ro, mdb_get, faulty.
  destruct (lmdb_fault C_begin_ro); [done|]. cbn [lift_lmdb rbind].
  destruct (lmdb_fault _); [done|]. by destruct (table d s !! k).
Qed.

Lemma validate_header_syntax_no_panic h magic : validate_header_syntax h magic ≠ Panic.
Proof.
  unfold validate_header_syntax. no_panic. apply validate_kernel_offset_canonical_no_panic.
Qed.

Lemma branch_syntax_no_panic s fuel cursor visited anc magic :
  record_bytes_ok (db_blocks s) → links_descend (T := BlockHeader) (db_blocks s) id →
  walking (T := BlockHeader) (db_blocks s) id (hash_bytes cursor) visited →
  (size (db_blocks s) < fuel + length visited)%nat →
  branch_syntax fuel s cursor anc magic ≠ Panic.
Proof.
  intros Hok Hd. revert cursor visited. induction fuel as [|fuel IH]; intros cursor visited Hw Hf;
    [pose proof (walking_bound _ _ _ _ Hw); lia|].
  cbn [branch_syntax]. case_bool_decide; [done|].
  apply rbind_no_panic; [apply get_raw_no_panic|]. intros r Hr%get_raw_Ok. cbn [table] in Hr.
  apply rbind_no_panic; [apply ok_or_no_panic|]. intros v Hv%ok_or_Ok. subst r.
  destruct (Hok _ _ Hv) as [Hb Hl].
  apply rbind_no_panic; [by apply from_bytes_no_panic|]. intros h Hh.
  apply rbind_no_panic; [apply map_err_no_panic, validate_header_syntax_no_panic|]. intros _ _.
  apply (IH _ (hash_bytes cursor :: visited)); [|cbn [length]; lia].
  apply (walking_step _ _ _ _ h Hd Hw). by exists v.
Qed.

Lemma branch_blocks_no_panic s fuel cursor visited anc :
  record_bytes_ok (db_block_bodies s) → links_descend (T := Block) (db_block_bodies s) header →
  walking (T := Block) (db_block_bodies s) header (hash_bytes cursor) visited →
  (size (db_block_bodies s) < fuel + length visited)%nat →
  branch_blocks fuel s cursor anc ≠ Panic.
Proof.
  intros Hok Hd. revert cursor visited. induction fuel as [|fuel IH]; intros cursor visited Hw Hf;
    [pose proof (walking_bound _ _ _ _ Hw); lia|].
  cbn [branch_blocks]. case_bool_decide; [done|].
  apply rbind_no_panic; [apply get_raw_no_panic|]. intros r Hr%get_raw_Ok. cbn [table] in Hr.
  apply rbind_no_panic; [apply ok_or_no_panic|]. intros v Hv%ok_or_Ok. subst r.
  destruct (Hok _ _ Hv) as [Hb Hl].
  apply rbind_no_panic; [by apply map_err_no_panic, from_bytes_no_panic|].
  intros b Hdec%map_err_Ok.
  assert (Hbok : block_ok b).
  { destruct (codec_exact v b Hb Hl) as [_ Hiff]. by apply Hiff. }
  assert (Hhb : to_bytes (header b) = Ok (header_wire (header b))) by exact (to_bytes_wire (T := BlockHeader) (header b) (proj1 Hbok)).
  rewrite Hhb. cbn [rbind].
  apply rbind_no_panic; [|done].
  apply (IH _ (hash_bytes cursor :: visited)); [|cbn [length]; lia].
  apply (walking_step _ _ _ _ b Hd Hw). by exists v.
Qed.

(** C32: The unbounded loops of a reorganisation end.  On every store whose links go down in
    height, as connecting a block enforces, following the links from any tip towards any
    ancestor meets the ancestor or a missing block after at most as many steps as there are
    stored blocks, whether headers are checked or bodies are collected. *)
Theorem branch_walks_terminate s tip anc magic :
  record_bytes_ok (db_blocks s) → record_bytes_ok (db_block_bodies s) →
  links_descend (T := BlockHeader) (db_blocks s) id →
  links_descend (T := Block) (db_block_bodies s) header →
  validate_branch_header_syntax s tip anc magic ≠ Panic ∧ collect_branch_blocks s tip anc ≠ Panic.
Proof.
  intros H1 H2 H3 H4. split.
  - eapply branch_syntax_no_panic; [done|done|apply walking_start|cbn [length]; lia].
  - eapply branch_blocks_no_panic; [done|done|apply walking_start|cbn [length]; lia].
Qed.

(** ** Depth *)

(** C21: Rolling finality.  Whenever a promotion moves the tip, the number of disconnected
    blocks is the distance from the tip to the common ancestor, and once the chain has 360
    blocks that distance is below 360: the 360th block under the tip and everything below
    it are final, and the policy limit of 1000 never decides. *)
Theorem rolling_finality cs tip now plan :
  plan_reorg cs tip now = Ok plan →
  zlen (disconnected_blocks (rp_delta plan))
    = height_val (tip_height cs) - common_ancestor_height (rp_delta plan) ∧
  (MAX_REORG_DEPTH ≤ height_val (tip_height cs) →
   height_val (tip_height cs) - MAX_REORG_DEPTH < common_ancestor_height (rp_delta plan)) ∧
  (height_val (tip_height cs) < MAX_REORG_DEPTH →
   0 ≤ common_ancestor_height (rp_delta plan) →
   zlen (disconnected_blocks (rp_delta plan)) < MAX_REORG_DEPTH).
Proof.
  unfold plan_reorg. intros H.
  do 4 (apply rbind_Ok in H as (? & _ & H)). apply rbind_Ok in H as (anc & _ & H).
  apply rbind_Ok in H as (a & _ & H). apply rbind_Ok in H as ([] & _ & H).
  destruct (negb _); [done|].
  apply rbind_Ok in H as (depth & [-> Hle]%ok_or_Ok%checked_sub_Some & H).
  apply rbind_Ok in H as ([] & Hroll & H). apply rbind_Ok in H as ([] & _ & H).
  apply rbind_Ok in H as (dis & _ & H). destruct (zlen dis =? _) eqn:Hdis; [|done].
  cbn [negb] in H. do 7 (apply rbind_Ok in H as (? & _ & H)). injection H as <-.
  cbn [rp_delta disconnected_blocks common_ancestor_height]. rewrite zlen_fmap.
  apply Z.eqb_eq in Hdis. rewrite Hdis. unfold check_rolling_finality in Hroll.
  destruct (_ && _) eqn:Hc; [done|]. apply andb_false_iff in Hc.
  rewrite !Z.leb_gt in Hc. lia.
Qed.

(** ** Fork choice *)

(** Fork choice is a strict total order on tips, more work first and the lower hash
    among equals: of two different tips exactly one is better, no tip is better than itself
    or than one that is better than it; so which tip wins among any set of competing tips
    does not depend on the order in which they arrive. *)
Theorem fork_choice_strict_order d1 h1 d2 h2 d3 h3 :
  is_better_fork_choice_tip d1 h1 d1 h1 = false ∧
  (is_better_fork_choice_tip d1 h1 d2 h2 = true → is_better_fork_choice_tip d2 h2 d3 h3 = true →
   is_better_fork_choice_tip d1 h1 d3 h3 = true) ∧
  ((d1, h1) ≠ (d2, h2) →
   is_better_fork_choice_tip d2 h2 d1 h1 = negb (is_better_fork_choice_tip d1 h1 d2 h2)).
Proof.
  assert (Hspec : ∀ d h d' h', is_better_fork_choice_tip d h d' h' = true ↔
    d' < d ∨ d = d' ∧ bytes_lt (hash_bytes h) (hash_bytes h')).
  { intros. unfold is_better_fork_choice_tip.
    by rewrite orb_true_iff, andb_true_iff, Z.ltb_lt, Z.eqb_eq, bool_decide_eq_true. }
  split_and!.
  - apply not_true_iff_false. rewrite Hspec. intros [?|[_ H]]; [lia|exact (irreflexivity bytes_lt _ H)].
  - rewrite !Hspec. intros [?|[-> H1]] [?|[-> H2]]; [left; lia..|right].
    split; [done|]. by etrans.
  - intros Hne. apply eq_true_iff_eq. rewrite negb_true_iff, <- not_true_iff_false, !Hspec.
    rewrite !bytes_lt_nle. split.
    + intros [?|[-> H1]] [?|[? H2]]; try lia. destruct (total bytes_le (hash_bytes h1) (hash_bytes h2)); done.
    + intros Hn. destruct (Z.lt_trichotomy d1 d2) as [?|[->|?]]; [by left|right|tauto].
      split; [done|]. intros Hle. apply Hn. right. split; [done|]. intros Hle'. apply Hne.
      pose proof (anti_symm bytes_le _ _ Hle Hle') as He. destruct h1, h2. cbn in He. by subst.
Qed.

(** ** A re-created output *)

(** C33: When a disconnected block spends an output that was unspent at the ancestor and a
    later disconnected block creates the same commitment again, disconnecting brings back
    the later entry instead of the original, and since the stored entry already is that one
    nothing is written for it: after the disconnect the table keeps the height, the coinbase
    mark and the proof of an output that is no longer on the chain. *)
Theorem recreated_output_not_restored s a La Ln h1 b1 h2 b2 c e0 e2 O K ups :
  let disconnected := reverse (tagged [(h1, b1); (h2, b2)]) in
  run La (chain_of [(h1, b1); (h2, b2)]) Ln →
  db_utxos s = utxo_table (unspent Ln) → map_Forall (λ _, utxo_ok) (unspent Ln) →
  unspent La !! c = Some e0 → c ∈ block_spends b1 → (c, e2) ∈ block_entries b2 →
  try_fold (apply_disconnect s a (foldl (λ m hb, record_block_outputs hb.2 m) ∅ disconnected))
    (∅, ∅) disconnected = Ok (O, K) →
  build_utxo_updates s O = Ok ups →
  view O (unspent Ln) c = Some e2 ∧
  put_updates (db_utxos s) ups !! c = Some (utxo_to_bytes e2).
Proof.
  intros disconnected Hrun Hu Hok He0 Hsp He2 Hdis Hups.
  inversion Hrun as [| |? ? ? ? ? Hacc1 Hrun2]; subst.
  inversion Hrun2 as [| |? ? ? ? ? Hacc2 Hrun3]; subst.
  assert (Hv : view O (unspent Ln) c = Some e2).
  { cbn [disconnected tagged fmap list_fmap reverse rev_append app foldl fst snd try_fold] in Hdis.
    apply rbind_Ok in Hdis as ([O1 K1] & _ & Hdis).
    apply rbind_Ok in Hdis as ([O2 K2] & H1 & [= -> ->]).
    apply apply_disconnect_Ok in H1 as [H1 _]. destruct (proj1 (H1 c) Hsp) as (e & (f & _ & Hres) & HO).
    unfold view. rewrite HO.
    assert (Hnot : c ∉ block_creates b1) by (eapply spends_not_created; [apply Hacc1|done]).
    assert (Hidx : record_block_outputs b1 (record_block_outputs b2 ∅) !! c = Some e2).
    { unfold record_block_outputs.
      assert (Hskip : ∀ l (m : gmap bytes UtxoEntry), c ∉ l.*1 →
        foldl (λ m '(k, x), <[k := x]> m) m l !! c = m !! c).
      { induction l as [|[k x] l IH]; intros m Hni; [done|]. rewrite fmap_cons, not_elem_of_cons in Hni.
        cbn [foldl]. rewrite IH by tauto. apply lookup_insert_ne. cbn in Hni. naive_solver. }
      rewrite Hskip by done.
      pose proof (ap_creates_distinct _ _ (ac_applies _ _ _ Hacc2)) as Hnd. unfold block_creates in Hnd.
      apply list_elem_of_split in He2 as (l1 & l2 & Heq). rewrite Heq in Hnd |- *.
      rewrite foldl_app. cbn [foldl]. rewrite Hskip; [apply lookup_insert_eq|].
      rewrite fmap_app, fmap_cons, NoDup_app, NoDup_cons in Hnd. apply Hnd. }
    rewrite Hidx in Hres. injection Hres as ->. done. }
  split; [done|]. erewrite utxo_updates_written by done. by rewrite Hv.
Qed.
End safety.
