(* ===== verification/ChainExamples.v ===== *)
(** * A concrete chain

    A regtest chain: block 0 creates an output of 100000, block 1 spends it, and a rival
    block 1 with more work replaces it. *)

From Stdlib Require Import ZArith Lia.
From stdpp Require Import base list strings gmap sorting.
From S2P Require Import Prelude ByteOrder CoreError Core Serialization CryptoHash Pow Curve.
From S2P Require Import Keys Pedersen Schnorr RangeProof RangeProve Transaction TransactionLaws BlockHeader.
From S2P Require Import Consensus ConsensusLaws BlockExamples Genesis Utxo Store StoreLaws StateM.
From S2P Require Import Reorg ChainUtxo ChainState ChainConnect Ledger ChainLaws ReorgLaws.
From S2P Require Import PromoteLaws ChainTyping ReopenLaws ChainSafety.

Definition sample_lmdb : Lmdb := {| lmdb_fault _ := None; lmdb_display _ := "lmdb"%string |}.
Definition sample_randomx : RandomXHash := λ _ _, Ok (replicate 32 0).
#[local] Existing Instances sample_blake2b sample_hmac sample_curve sample_h sample_zkp_backend.
#[local] Existing Instances sample_lmdb sample_randomx sample_prover.

Definition magic : Z := NETWORK_MAGIC_REGTEST.
Definition ok_or_default {A} (d : A) (r : Result A) : A := match r with Ok a => a | _ => d end.

Lemma ok_or_default_eq {A} (d : A) (r : Result A) : is_ok r = true → r = Ok (ok_or_default d r).
Proof. by destruct r. Qed.

(** ** Block 0 *)

Definition block0 : Block := Eval vm_compute in
  {| header :=
       {| version := 2; height := {| height_val := 0 |}; prev_hash := Hash256_ZERO;
          timestamp := {| time_val := GENESIS_TIMESTAMP_REGTEST |}; output_root := sample_hash 1;
          kernel_root := sample_hash 2; rangeproof_root := sample_hash 3;
          total_kernel_offset := replicate 32 0; target := {| compact_bits := REGTEST_TARGET_COMPACT |};
          total_difficulty := 1; pow := {| nonce := 0; randomx_proof := sample_hash 6 |} |};
     coinbase := {| output := sample_output INITIAL_BLOCK_REWARD 8;
                    kernel := {| cb_features := KERNEL_FEAT_COINBASE; explicit_value := INITIAL_BLOCK_REWARD;
                                 cb_excess := sample_commitment 0 8; cb_excess_signature := replicate 65 0 |};
                    cb_offset := replicate 32 0 |};
     transactions := [{| inputs := []; outputs := [sample_output 100000 17]; kernels := [];
                         offset := replicate 32 0 |}] |}.
Definition block0_header : bytes := Eval vm_compute in ok_or_default [] (to_bytes (header block0)).
Definition block0_body : bytes := Eval vm_compute in ok_or_default [] (to_bytes block0).
Definition hash0 : bytes := Eval vm_compute in blake2b block0_header.

Definition empty_store : DomStore :=
  {| db_blocks := ∅; db_block_bodies := ∅; db_height := ∅; db_tip := ∅; db_utxos := ∅; db_kernels := ∅;
     db_peers := ∅; db_metadata := ∅; db_tx_identity := ∅; map_size := 0 |}.
Definition store0 : DomStore :=
  committed empty_store hash0 0 block0_header block0_body (build_utxo_changeset block0).1
    (build_utxo_changeset block0).2 (block_kernels hash0 block0).
Definition chain_anchor : AsertAnchor := Eval vm_compute in
  ok_or_default {| anchor_height := GENESIS; anchor_timestamp := {| time_val := 0 |};
                   anchor_target := [] |} (genesis_anchor magic).
Definition cs0 : ChainState :=
  {| store := store0; tip_hash := {| hash_bytes := hash0 |}; tip_height := {| height_val := 0 |};
     tip_difficulty := 1; genesis_hash := Hash256_ZERO; asert_anchor := chain_anchor;
     network_magic := magic; coinbase_maturity := coinbase_maturity_for_magic magic |}.

(** ** Block 1 *)

Definition chain1 : bytes := Eval vm_compute in hash_bytes (derive_chain_id magic Hash256_ZERO).
Definition sign1 (k : Z) (message : bytes) : bytes :=
  match schnorr_sign (sample_sk k) message chain1 with Ok s => signature_to_bytes s | _ => [] end.
Definition tx1 : Transaction := Eval vm_compute in
  {| inputs := [{| in_commitment := sample_commitment 100000 17 |}];
     outputs := [sample_output 60000 50];
     kernels := [{| features := KERNEL_FEAT_PLAIN; fee := {| noms := 40000 |}; lock_height := 0;
                    excess := sample_commitment 0 29;
                    excess_signature := sign1 29 (hash_bytes (kernel_message unsigned_kernel)) |}];
     offset := scalar_to_repr 4 |}.
Definition coinbase1 : CoinbaseTransaction := Eval vm_compute in
  {| output := sample_output cb_value 9;
     kernel := {| cb_features := KERNEL_FEAT_COINBASE; explicit_value := cb_value;
                  cb_excess := sample_commitment 0 9;
                  cb_excess_signature := sign1 9 (hash_bytes (coinbase_message unsigned_cb)) |};
     cb_offset := replicate 32 0 |}.
Definition roots1 : Hash256 * Hash256 * Hash256 := Eval vm_compute in
  ok_or_default (Hash256_ZERO, Hash256_ZERO, Hash256_ZERO)
    (compute_block_pmmr_roots {| height_val := 1 |} coinbase1 [tx1]).
Definition time1 : Timestamp := {| time_val := GENESIS_TIMESTAMP_REGTEST + 120 |}.
Definition header1 (difficulty nonce_ : Z) (proof_ : bytes) : BlockHeader :=
  {| version := required_block_version_for_network magic 1; height := {| height_val := 1 |};
     prev_hash := {| hash_bytes := hash0 |}; timestamp := time1; output_root := roots1.1.1;
     kernel_root := roots1.1.2; rangeproof_root := roots1.2;
     total_kernel_offset := scalar_to_repr 4; target := {| compact_bits := REGTEST_TARGET_COMPACT |};
     total_difficulty := difficulty; pow := {| nonce := nonce_; randomx_proof := {| hash_bytes := proof_ |} |} |}.
Definition mined1 (difficulty nonce_ : Z) : BlockHeader :=
  header1 difficulty nonce_ (fast_pow_hash hash0 (pow_preimage (header1 difficulty nonce_ (replicate 32 0)))).
Definition block1 (difficulty nonce_ : Z) : Block :=
  {| header := mined1 difficulty nonce_; coinbase := coinbase1; transactions := [tx1] |}.

(** ** The first chain *)

#[local] Ltac by_decision := refine (bool_decide_unpack _ _); vm_compute; exact I.

Lemma block0_body_ok : bytes_ok block0_body ∧ zlen block0_body < 2 ^ 63.
Proof. split; [by_decision|vm_compute; reflexivity]. Qed.

Lemma block0_ok : block_ok block0.
Proof.
  destruct block0_body_ok as [Hb Hl].
  refine (proj1 (proj1 (proj2 (codec_exact (T := Block) block0_body block0 Hb Hl)) _)).
  vm_compute. reflexivity.
Qed.

Definition ledger0 : LedgerState := accept_block empty_ledger hash0 block0.
Lemma accepts_by_decision L hash b :
  NoDup (block_creates b) → Forall (λ c, unspent L !! c = None) (block_creates b) →
  NoDup (block_spends b) → Forall (λ c, is_Some (unspent L !! c)) (block_spends b) →
  NoDup (block_kernels hash b).*1 →
  Forall (λ k, kernel_of L !! k = None) (block_kernels hash b).*1 → accepts L hash b.
Proof. rewrite !Forall_forall. intros. split; [split|..]; done. Qed.

Lemma accepts0 : accepts empty_ledger hash0 block0.
Proof. apply accepts_by_decision; by_decision. Qed.

Definition chain0 : list (bytes * option Block) := [(hash0, Some block0)].
Lemma chain_ok0 : chain_ok cs0 chain0 ledger0.
Proof.
  eapply chain_start; [reflexivity|reflexivity|reflexivity|exact accepts0|exact block0_ok|
    vm_compute; reflexivity..].
Qed.

(** ** Connecting block 1 *)

Definition first1 : Block := Eval vm_compute in block1 2 0.
Definition cs1 : ChainState := (connect_block None first1 time1 cs0).1.
Definition hash1 : bytes := Eval vm_compute in blake2b (ok_or_default [] (to_bytes (header first1))).

Lemma connect1_best : (connect_block None first1 time1 cs0).2 = Ok BestChain.
Proof. vm_compute. reflexivity. Qed.

Definition body_of (b : Block) : bytes := ok_or_default [] (to_bytes b).
Lemma wire_by_decision b :
  bool_decide (bytes_ok (body_of b)) && (zlen (body_of b) <? 2 ^ 63) = true →
  from_bytes Block (body_of b) = Ok b → on_wire b.
Proof.
  intros [Hb Hl]%andb_prop Hf. exists (body_of b).
  apply bool_decide_eq_true in Hb. by apply Z.ltb_lt in Hl.
Qed.
Lemma first1_on_wire : on_wire first1.
Proof. apply wire_by_decision; vm_compute; reflexivity. Qed.

Lemma connect_block_keeps_ledger_witness :
  ∃ hash, chain_ok cs1 (chain0 ++ [(hash, Some first1)]) (accept_block ledger0 hash first1).
Proof.
  assert (Hg : height (header first1) ≠ GENESIS) by done.
  pose proof (connect_block_keeps_ledger None cs0 chain0 ledger0 first1 time1 cs1 _ chain_ok0
    first1_on_wire Hg (surjective_pairing _)) as H.
  rewrite connect1_best in H. exact H.
Defined.

(** ** Promoting a rival block 1 *)

Definition header_bytes_of (b : Block) : bytes := ok_or_default [] (to_bytes (header b)).
Definition extended1 : ChainState * Result unit :=
  extend_tip first1 {| hash_bytes := hash1 |} (header_bytes_of first1) (body_of first1) cs0.
Definition ledger1 : LedgerState := accept_block ledger0 hash1 first1.

Lemma first1_ok : block_ok first1.
Proof. apply (on_wire_codec _ (body_of first1) first1_on_wire). vm_compute. reflexivity. Qed.

Lemma chain_ok1 : chain_ok extended1.1 (chain0 ++ [(hash1, Some first1)]) ledger1.
Proof.
  destruct (extend_tip_keeps cs0 chain0 ledger0 first1 {| hash_bytes := hash1 |}
    (header_bytes_of first1) (body_of first1) extended1.1 extended1.2 chain_ok0 first1_ok) as [[_ H]|[_ H]];
    [vm_compute; reflexivity..|apply surjective_pairing| |exact H].
  exfalso. revert H. vm_compute. discriminate.
Qed.

Definition rival1 : Block := Eval vm_compute in block1 3 7.
Definition rival_hash : bytes := Eval vm_compute in blake2b (header_bytes_of rival1).
Definition store2 : DomStore :=
  ok_or_default empty_store
    (store_known_block (store extended1.1) rival_hash (header_bytes_of rival1) (body_of rival1)).
Definition cs2 : ChainState := with_store extended1.1 store2.

Lemma stored2 :
  store_known_block (store extended1.1) rival_hash (header_bytes_of rival1) (body_of rival1) = Ok store2.
Proof. apply ok_or_default_eq. vm_compute. reflexivity. Qed.

Lemma chain_ok2 : chain_ok cs2 (chain0 ++ chain_of [(hash1, first1)]) ledger1.
Proof. exact (side_block_keeps _ _ _ _ _ _ _ chain_ok1 stored2). Qed.

Lemma rival1_ok : block_ok rival1.
Proof.
  assert (Hw : on_wire rival1) by (apply wire_by_decision; vm_compute; reflexivity).
  apply (on_wire_codec _ (body_of rival1) Hw). vm_compute. reflexivity.
Qed.

Lemma rival_branch :
  branch (store cs2) (network_magic cs2) (zlen chain0) hash0 [(rival_hash, rival1)].
Proof.
  assert (Hone : ∀ i x, [(rival_hash, rival1)] !! i = Some x → i = 0%nat ∧ x = (rival_hash, rival1)).
  { intros i x [-> ->]%list_lookup_singleton_Some. done. }
  split; [..|split; [vm_compute; reflexivity|done]].
  - intros i h b [-> [= -> ->]]%Hone.
    apply (body_block _ _ _ _ (body_of rival1) _ (header_bytes_of rival1)); try exact rival1_ok;
      vm_compute; try reflexivity; discriminate.
  - intros i h b [-> [= -> ->]]%Hone. split; [|vm_compute; reflexivity].
    exists (header_bytes_of rival1), (header rival1). vm_compute. done.
Qed.

Lemma rival_setting :
  reorg_setting cs2 chain0 [(hash1, first1)] [(rival_hash, rival1)] hash0 ledger0 ledger1.
Proof.
  split.
  - exact chain_ok2.
  - apply (run_block _ _ _ [] _ accepts0). constructor.
  - by eexists.
  - exact rival_branch.
  - vm_compute. reflexivity.
  - apply Forall_forall. by_decision.
Qed.

Definition promoted : ChainState * Result ReorgDelta :=
  promote_heavier_known_tip {| hash_bytes := rival_hash |} time1 cs2.
Lemma promoted_succeeds : is_ok promoted.2 = true.
Proof. vm_compute. reflexivity. Qed.

Lemma promote_keeps_ledger_witness :
  ∃ L', run ledger0 (chain_of [(rival_hash, rival1)]) L' ∧
        chain_ok promoted.1 (chain0 ++ chain_of [(rival_hash, rival1)]) L'.
Proof.
  destruct (promote_keeps_ledger cs2 chain0 [(hash1, first1)] [(rival_hash, rival1)] hash0 ledger0
    ledger1 time1 promoted.1 promoted.2 rival_setting (surjective_pairing _)) as [[_ H]|H]; [|exact H].
  exfalso. rewrite promoted_succeeds in H. discriminate.
Defined.

(** ** Depth and termination *)

Lemma rolling_finality_witness :
  match plan_reorg cs2 {| hash_bytes := rival_hash |} time1 with
  | Ok plan => zlen (disconnected_blocks (rp_delta plan))
               = height_val (tip_height cs2) - common_ancestor_height (rp_delta plan)
  | _ => False
  end.
Proof.
  pose proof promoted_succeeds as Hok.
  unfold promoted, promote_heavier_known_tip, st_bind, st_get in Hok.
  destruct (plan_reorg cs2 {| hash_bytes := rival_hash |} time1) as [plan|e|] eqn:Hp; [|discriminate..].
  exact (proj1 (rolling_finality cs2 {| hash_bytes := rival_hash |} time1 plan Hp)).
Defined.

Lemma single_record {A} (k : bytes) (v : A) k' v' :
  (<[k := v]> ∅ : gmap bytes A) !! k' = Some v' → k' = k ∧ v' = v.
Proof. by intros [[<- <-]|[_ ?]]%lookup_insert_Some. Qed.

Lemma branch_walks_terminate_witness :
  collect_branch_blocks store0 {| hash_bytes := hash0 |} Hash256_ZERO ≠ Panic.
Proof.
  apply (branch_walks_terminate store0 {| hash_bytes := hash0 |} Hash256_ZERO magic).
  - intros k v [-> ->]%single_record. split; [by_decision|vm_compute; reflexivity].
  - intros k v [-> ->]%single_record. exact block0_body_ok.
  - intros k v x v' x' [-> ->]%single_record Hx [Hp ->]%single_record Hx'.
    exfalso. assert (Hdec : from_bytes BlockHeader block0_header = Ok (header block0))
      by (vm_compute; reflexivity).
    rewrite Hdec in Hx. injection Hx as <-. revert Hp. vm_compute. discriminate.
  - intros k v x v' x' [-> ->]%single_record Hx [Hp ->]%single_record Hx'.
    exfalso. assert (Hdec : from_bytes Block block0_body = Ok block0) by (vm_compute; reflexivity).
    rewrite Hdec in Hx. injection Hx as <-. revert Hp. vm_compute. discriminate.
Defined.

(** ** A re-created output *)

(** Block 2 creates the output of 100000 again that block 1 spent. *)
Definition block2 : Block := Eval vm_compute in
  {| header :=
       {| version := 2; height := {| height_val := 2 |}; prev_hash := {| hash_bytes := hash1 |};
          timestamp := time1; output_root := sample_hash 1; kernel_root := sample_hash 2;
          rangeproof_root := sample_hash 3; total_kernel_offset := replicate 32 0;
          target := {| compact_bits := REGTEST_TARGET_COMPACT |}; total_difficulty := 3;
          pow := {| nonce := 0; randomx_proof := sample_hash 6 |} |};
     coinbase := {| output := sample_output 7 11;
                    kernel := {| cb_features := KERNEL_FEAT_COINBASE; explicit_value := 7;
                                 cb_excess := sample_commitment 0 11;
                                 cb_excess_signature := replicate 65 0 |};
                    cb_offset := replicate 32 0 |};
     transactions := [{| inputs := []; outputs := [sample_output 100000 17]; kernels := [];
                         offset := replicate 32 0 |}] |}.
Definition hash2 : bytes := Eval vm_compute in blake2b (header_bytes_of block2).
Definition ledger2 : LedgerState := accept_block ledger1 hash2 block2.
Definition recreated : bytes := output_key (sample_output 100000 17).
Definition original_entry : UtxoEntry := output_entry block0 false (sample_output 100000 17).
Definition later_entry : UtxoEntry := output_entry block2 false (sample_output 100000 17).
Definition store_recreated : DomStore := set_table DB_UTXOS (utxo_table (unspent ledger2)) store0.

Lemma accepts1 : accepts ledger0 hash1 first1.
Proof. apply accepts_by_decision; by_decision. Qed.
Lemma accepts2 : accepts ledger1 hash2 block2.
Proof. apply accepts_by_decision; by_decision. Qed.
Lemma run12 : run ledger0 (chain_of [(hash1, first1); (hash2, block2)]) ledger2.
Proof. apply (run_block _ _ _ _ _ accepts1), (run_block _ _ _ [] _ accepts2). constructor. Qed.

Lemma entries_ok2 : map_Forall (λ _, utxo_ok) (unspent ledger2).
Proof.
  refine (bool_decide_unpack (map_Forall (λ _ e, u64_ok (block_height e) ∧ bytes_ok (utxo_proof e))
    (unspent ledger2)) _). vm_compute. exact I.
Qed.

Definition disconnected12 : list (Hash256 * Block) := reverse (tagged [(hash1, first1); (hash2, block2)]).
Definition overlays12 : Result (gmap bytes (option UtxoEntry) * gmap bytes (option bytes)) :=
  try_fold (apply_disconnect store_recreated 0
      (foldl (λ m hb, record_block_outputs hb.2 m) ∅ disconnected12)) (∅, ∅) disconnected12.
Definition updates12 : Result (list (bytes * option bytes)) :=
  let? o := overlays12 in build_utxo_updates store_recreated o.1.

Lemma recreated_output_not_restored_witness :
  unspent ledger0 !! recreated = Some original_entry ∧ original_entry ≠ later_entry ∧
  match updates12 with
  | Ok ups => put_updates (db_utxos store_recreated) ups !! recreated = Some (utxo_to_bytes later_entry)
  | _ => False
  end.
Proof.
  assert (H0 : unspent ledger0 !! recreated = Some original_entry) by (vm_compute; reflexivity).
  split; [exact H0|split; [vm_compute; discriminate|]].
  assert (Hok : is_ok updates12 = true) by (vm_compute; reflexivity). unfold updates12 in *.
  destruct overlays12 as [[O K]|e|] eqn:Ho; [|discriminate..]. cbn [rbind fst] in *.
  destruct (build_utxo_updates store_recreated O) as [ups|e|] eqn:Hu; [|discriminate..].
  assert (Hs : recreated ∈ block_spends first1) by by_decision.
  assert (He : (recreated, later_entry) ∈ block_entries block2) by by_decision.
  exact (proj2 (recreated_output_not_restored store_recreated 0 ledger0 ledger2 hash1 first1 hash2 block2
    recreated original_entry later_entry O K ups run12 eq_refl entries_ok2 H0 Hs He Ho Hu)).
Defined.

(** ** Reopening *)


Lemma restart_restores_witness :
  ∃ s', open (genesis_hash cs0) magic (store cs0) = (s', Ok (with_store cs0 s')) ∧
        chain_ok (with_store cs0 s') chain0 ledger0.
Proof.
  assert (Hf : no_faults) by done.
  assert (Hc : configured cs0) by (split; vm_compute; [reflexivity..|by left]).
  destruct (restart_restores cs0 chain0 ledger0 false Hf chain_ok0 Hc eq_refl) as [_ H].
  assert (Hp : is_ok (prune_retained_side_chains (tip_height cs0) (hash_bytes (tip_hash cs0))
                        (digested (store cs0))) = true) by (vm_compute; reflexivity).
  destruct (prune_retained_side_chains _ _ _) as [s'|e|]; [|discriminate Hp..].
  exists s'. exact H.
Defined.

(** ** Typing *)

Lemma empty_typed : store_typed empty_store.
Proof. split; apply map_Forall_empty. Qed.

Lemma store0_typed : store_typed store0.
Proof.
  apply (committed_typed _ {| hash_bytes := hash0 |} block0_header block0 block0_body);
    [exact empty_typed|exact block0_ok|split; [vm_compute; reflexivity|by_decision]
    |vm_compute; reflexivity|by_decision|vm_compute; reflexivity].
Qed.

Lemma reachable_well_typed_witness :
  ∃ cs, (open Hash256_ZERO magic store0).2 = Ok cs ∧
        chain_typed (connect_block None first1 time1 cs).1 ∧
        reads_succeed (store (connect_block None first1 time1 cs).1).
Proof.
  assert (Hf : no_faults) by done.
  destruct (open Hash256_ZERO magic store0) as [s r] eqn:Ho.
  assert (Hok : is_ok (open Hash256_ZERO magic store0).2 = true) by (vm_compute; reflexivity).
  rewrite Ho in Hok. destruct r as [cs|e|]; [|discriminate Hok..]. exists cs. split; [reflexivity|].
  assert (Hr : reachable None store0 (connect_block None first1 time1 cs).1).
  { eapply reach_step; [exact (reach_open None store0 _ _ _ _ _ Ho)|].
    exact (step_connect None cs first1 time1 _ _ first1_on_wire (surjective_pairing _)). }
  destruct (reachable_well_typed None store0 _ store0_typed Hr) as [H1 H2]. split; [exact H1|exact (H2 Hf)].
Defined.

(** ** Committing *)

