(* ===== verification/Mempool.v ===== *)
(** * The transaction pool ([crates/dom-mempool/src/lib.rs])

    Admission, eviction, removal and block selection.  The hash maps of the pool are finite
    maps; where the code lists a hash map it sorts the list, by a key that is distinct for
    distinct entries, so the order of the listing does not matter. *)

From Stdlib Require Import ZArith Lia.
From stdpp Require Import base list strings gmap sorting.
From S2P Require Import Prelude ByteOrder CoreError Core FeePolicy Serialization CryptoHash Curve.
From S2P Require Import Pedersen RangeProof Transaction TransactionLaws BlockHeader Consensus.
From S2P Require Import Utxo StateM ChainUtxo.
Local Open Scope string_scope.
Local Open Scope Z_scope.

Definition MAX_PERSISTED_MEMPOOL_ENTRIES : Z := MAX_BLOCK_TXS * 10.

Definition entry_fits_block_weight (used_weight entry_weight max_weight : Z) : bool :=
  entry_weight <=? saturating_sub max_weight used_weight.

(** [compare_block_selection_order(left, right) != Greater]: higher fee rate first, then the
    lower hash *)
Definition block_order_le (left_fee_rate : Z) (left_hash : bytes)
    (right_fee_rate : Z) (right_hash : bytes) : Prop :=
  right_fee_rate < left_fee_rate ∨ right_fee_rate = left_fee_rate ∧ bytes_le left_hash right_hash.

(** ** Entries *)

Record MempoolEntry : Type := {
  me_tx : Transaction;
  me_tx_hash : bytes;
  me_fee : Z;
  me_weight : Z;
  me_fee_rate : Z;
  me_received_at : Z;
}.

Record PersistedMempoolEntry : Type := {
  pe_tx : Transaction;
  pe_tx_hash : bytes;
  pe_received_at : Z;
}.

Record PersistedMempoolState : Type := { pe_entries : list PersistedMempoolEntry }.

Definition entry_new (tx : Transaction) (tx_hash : bytes) (received_at : Z) : Result MempoolEntry :=
  let? fee := total_fee tx in
  let? shape := fee_shape tx in
  let? weight := weight_checked tx in
  let? rate := actual_fee_rate fee weight in
  let? _ := validate_minimum_fee fee shape in
  Ok {| me_tx := tx; me_tx_hash := tx_hash; me_fee := fee; me_weight := weight;
        me_fee_rate := noms_per_weight_unit rate; me_received_at := received_at |}.

(** The entries in the order in which blocks take them *)
Definition entry_le (a b : MempoolEntry) : Prop :=
  block_order_le (me_fee_rate a) (me_tx_hash a) (me_fee_rate b) (me_tx_hash b).
#[export] Instance entry_le_dec : RelDecision entry_le.
Proof. intros a b. unfold entry_le, block_order_le. apply _. Defined.

(** The order of the fee index *)
Definition fee_key_le (a b : Z * bytes) : Prop := a.1 < b.1 ∨ a.1 = b.1 ∧ bytes_le a.2 b.2.
#[export] Instance fee_key_le_dec : RelDecision fee_key_le.
Proof. intros a b. unfold fee_key_le. apply _. Defined.

(** ** The pool *)

Record Mempool : Type := {
  entries : gmap bytes MempoolEntry;
  input_index : gmap bytes bytes;
  fee_index : gset (Z * bytes);
  pool_weight : Z;
  max_weight : Z;
}.

Definition mempool_new : Mempool :=
  {| entries := ∅; input_index := ∅; fee_index := ∅; pool_weight := 0;
     max_weight := MAX_BLOCK_WEIGHT * 10 |}.

Definition len (p : Mempool) : Z := Z.of_nat (size (entries p)).
Definition is_empty (p : Mempool) : bool := bool_decide (entries p = ∅).
Definition get_tx (p : Mempool) (hash : bytes) : option MempoolEntry := entries p !! hash.
Definition contains (p : Mempool) (hash : bytes) : bool := bool_decide (is_Some (entries p !! hash)).

Definition tx_inputs (tx : Transaction) : list bytes := input_key <$> inputs tx.

Definition release_input (tx_hash : bytes) (ix : gmap bytes bytes) (c : bytes) : gmap bytes bytes :=
  if bool_decide (ix !! c = Some tx_hash) then delete c ix else ix.

Definition remove_tx (tx_hash : bytes) (p : Mempool) : Mempool :=
  match entries p !! tx_hash with
  | None => p
  | Some e =>
      {| entries := delete tx_hash (entries p);
         input_index := foldl (release_input tx_hash) (input_index p) (tx_inputs (me_tx e));
         fee_index := fee_index p ∖ {[(me_fee_rate e, tx_hash)]};
         pool_weight := saturating_sub (pool_weight p) (me_weight e);
         max_weight := max_weight p |}
  end.

Definition lowest_fee_key (p : Mempool) : option (Z * bytes) :=
  head (merge_sort fee_key_le (elements (fee_index p))).

Definition evict_lowest_fee (min_fee_rate : Z) : M Mempool unit :=
  run! lowest := (λ p, Ok (lowest_fee_key p)) in
  match lowest with
  | Some (lowest_rate, hash) =>
      if min_fee_rate <=? lowest_rate then st_fail (PolicyRejected "mempool full, fee too low to evict")
      else st_update (λ p, Ok (remove_tx hash p))
  | None => st_ret tt
  end.

Definition first_conflicting_tx (p : Mempool) (tx : Transaction) (tx_hash : bytes) : option bytes :=
  head (omap (λ c, match input_index p !! c with
                   | Some h => if bool_decide (h = tx_hash) then None else Some h
                   | None => None
                   end) (tx_inputs tx)).

Definition too_heavy (weight max_weight : Z) : DomError :=
  PolicyRejected ("tx weight " +:+ dec weight +:+ " exceeds mempool max_weight " +:+ dec max_weight).

(** The eviction loop.  Every iteration that continues has removed an entry. *)
Fixpoint make_room (fuel : nat) (weight fee_rate : Z) : M Mempool unit :=
  match fuel with
  | O => λ p, (p, Panic)
  | S fuel' =>
      run! needed := (λ p, add_ovf 64 (pool_weight p) weight) in
      run! p := Ok in
      if max_weight p <? needed then
        let weight_before := pool_weight p in
        do! _ := evict_lowest_fee fee_rate in
        run! p' := Ok in
        if weight_before <=? pool_weight p' then
          st_fail (PolicyRejected "mempool full, unable to free enough space for incoming tx")
        else make_room fuel' weight fee_rate
      else st_ret tt
  end.

Definition insert_entry (e : MempoolEntry) (p : Mempool) : Result Mempool :=
  let? w := add_ovf 64 (pool_weight p) (me_weight e) in
  Ok {| entries := <[me_tx_hash e := e]> (entries p);
        input_index := foldl (λ ix c, <[c := me_tx_hash e]> ix) (input_index p) (tx_inputs (me_tx e));
        fee_index := {[(me_fee_rate e, me_tx_hash e)]} ∪ fee_index p;
        pool_weight := w; max_weight := max_weight p |}.

(** The [debug_assert!] after the loop is the panic. *)
Definition accept_validated_tx (tx : Transaction) (tx_hash : bytes) (now_secs : Z) : M Mempool unit :=
  run! p := Ok in
  if contains p tx_hash then st_fail (PolicyRejected "transaction already in mempool")
  else
    match first_conflicting_tx p tx tx_hash with
    | Some conflict_hash =>
        st_fail (PolicyRejected ("input already reserved by mempool tx " +:+ hex_concat conflict_hash))
    | None =>
        run! entry := (λ _, entry_new tx tx_hash now_secs) in
        if max_weight p <? me_weight entry then
          st_fail (too_heavy (me_weight entry) (max_weight p))
        else
          do! _ := make_room (S (size (entries p))) (me_weight entry) (me_fee_rate entry) in
          run! _ := (λ p, let? w := add_ovf 64 (pool_weight p) (me_weight entry) in
                          if w <=? max_weight p then Ok tt else Panic) in
          st_update (insert_entry entry)
    end.

Definition accept_tx (tx : Transaction) (tx_hash : bytes) (now_secs : Z) : M Mempool unit :=
  run! _ := (λ _, validate_transaction_structure tx) in
  accept_validated_tx tx tx_hash now_secs.

Definition precheck_cheap_admission_gates (p : Mempool) (tx : Transaction) (tx_hash : bytes)
  : Result unit :=
  if contains p tx_hash then Err (PolicyRejected "transaction already in mempool")
  else
    let? fee := total_fee tx in
    let? shape := fee_shape tx in
    let? weight := weight_checked tx in
    let? _ := validate_minimum_fee fee shape in
    if max_weight p <? weight then Err (too_heavy weight (max_weight p)) else Ok tt.

Section chain_view.
Context `{HB : Blake2b256} `{HC : Secp256k1} `{HZ : !ZkpBackend}.
(** The caller's view of the canonical unspent outputs *)
Context (lookup_utxo : bytes → Result (option UtxoEntry)).

Definition check_chain_input (current_height coinbase_maturity : Z) (i : TransactionInput)
  : Result unit :=
  let? r := lookup_utxo (input_key i) in
  match r with
  | None => Err (PolicyRejected ("input commitment not found in canonical UTXO set: "
                                 +:+ hex_concat (input_key i)))
  | Some entry =>
      if is_coinbase entry && negb (is_mature_for entry current_height coinbase_maturity) then
        Err (TemporarilyInvalid ("immature coinbase spend at height " +:+ dec current_height
               +:+ " (created at " +:+ dec (block_height entry) +:+ ", maturity "
               +:+ dec coinbase_maturity +:+ ")"))
      else Ok tt
  end.
Definition validate_tx_against_chain_view (tx : Transaction) (current_height coinbase_maturity : Z)
  : Result unit :=
  try_each (check_chain_input current_height coinbase_maturity) (inputs tx).

Definition accept_tx_with_chain_view (tx : Transaction) (tx_hash : bytes) (now_secs current_height : Z)
    (chain_id : bytes) (coinbase_maturity : Z) : M Mempool unit :=
  run! _ := (λ p, precheck_cheap_admission_gates p tx tx_hash) in
  let ctx := {| current_height := {| height_val := current_height |}; chain_id := chain_id;
                now := {| time_val := now_secs |} |} in
  run! _ := (λ _, validate_transaction tx ctx) in
  run! _ := (λ _, validate_tx_against_chain_view tx current_height coinbase_maturity) in
  accept_validated_tx tx tx_hash now_secs.

(** The results of the batch, in the order in which it is tried *)
Definition reinject_batch_with_chain_view (txs : list (Transaction * bytes * Z)) (current_height : Z)
    (chain_id : bytes) (coinbase_maturity : Z) (p : Mempool)
  : Mempool * list (bytes * Result unit) :=
  foldl (λ acc t, let '(p, results) := acc in
                  let '(tx, tx_hash, now_secs) := t in
                  let '(p', r) := accept_tx_with_chain_view tx tx_hash now_secs current_height
                                    chain_id coinbase_maturity p in
                  (p', (results ++ [(tx_hash, r)])%list))
    (p, []) (sort_by_key (λ t, t.1.2) txs).
End chain_view.

Definition reinject_batch (txs : list (Transaction * bytes * Z)) (p : Mempool)
  : Mempool * list (bytes * Result unit) :=
  foldl (λ acc t, let '(p, results) := acc in
                  let '(tx, tx_hash, now_secs) := t in
                  let '(p', r) := accept_tx tx tx_hash now_secs p in
                  (p', (results ++ [(tx_hash, r)])%list))
    (p, []) (sort_by_key (λ t, t.1.2) txs).

Definition spends_any (spent_commitments : list bytes) (e : MempoolEntry) : Prop :=
  Exists (λ c, c ∈ spent_commitments) (tx_inputs (me_tx e)).
#[export] Instance spends_any_dec spent e : Decision (spends_any spent e).
Proof. unfold spends_any. apply _. Defined.
Definition remove_confirmed (spent_commitments : list bytes) (p : Mempool) : Mempool :=
  let to_remove := me_tx_hash <$> filter (spends_any spent_commitments) (map_to_list (entries p)).*2 in
  foldl (λ p h, remove_tx h p) p (sort_by_key id to_remove).

(** ** Listings *)

Definition entries_in_block_order (p : Mempool) : list MempoolEntry :=
  merge_sort entry_le (map_to_list (entries p)).*2.

(** [used_weight += entry.weight] cannot overflow after the check. *)
Fixpoint select_entries (used_weight max_weight : Z) (l : list MempoolEntry) : list MempoolEntry :=
  match l with
  | [] => []
  | e :: l' =>
      if negb (entry_fits_block_weight used_weight (me_weight e) max_weight) then
        select_entries used_weight max_weight l'
      else e :: select_entries (used_weight + me_weight e) max_weight l'
  end.
Definition select_for_block (p : Mempool) (max_weight : Z) : list MempoolEntry :=
  select_entries 0 max_weight (entries_in_block_order p).

Definition all_hashes (p : Mempool) : list bytes := sort_by_key id (map_to_list (entries p)).*1.

Definition persisted (e : MempoolEntry) : PersistedMempoolEntry :=
  {| pe_tx := me_tx e; pe_tx_hash := me_tx_hash e; pe_received_at := me_received_at e |}.
Definition snapshot (p : Mempool) : PersistedMempoolState :=
  {| pe_entries := sort_by_key pe_tx_hash (persisted <$> (map_to_list (entries p)).*2) |}.

(** ** The snapshot format *)

Section persisted.
Context `{HC : Secp256k1}.

Definition write_persisted (w : Writer) (e : PersistedMempoolEntry) : Result Writer :=
  serialize (pe_tx e) (write_u64 (write_bytes w (pe_tx_hash e)) (pe_received_at e)).
#[export] Instance PersistedMempoolState_serialize : DomSerialize PersistedMempoolState := λ s w,
  if zlen (pe_entries s) <=? u32_max then
    try_fold write_persisted (write_u32 w (zlen (pe_entries s))) (pe_entries s)
  else Err (Malformed "persisted mempool entry count exceeds u32").

Definition read_persisted : Rd PersistedMempoolEntry :=
  read! tx_hash := read_array 32 in
  read! received_at := read_u64 in
  read! tx := deserialize (T := Transaction) in
  rd_ret {| pe_tx := tx; pe_tx_hash := tx_hash; pe_received_at := received_at |}.
#[export] Instance PersistedMempoolState_deserialize : DomDeserialize PersistedMempoolState := {|
  MIN_SERIALIZED_SIZE := 4;
  deserialize :=
    read! len := read_u32 in
    if MAX_PERSISTED_MEMPOOL_ENTRIES <? len then
      rd_fail (Malformed ("persisted mempool entry count " +:+ dec len +:+ " exceeds limit "
                          +:+ dec MAX_PERSISTED_MEMPOOL_ENTRIES))
    else
      read! entries := read_items read_persisted (Z.to_nat len) in
      rd_ret {| pe_entries := entries |};
|}.

(** [to_bytes().expect(..)] *)
Definition digest `{HB : Blake2b256} (p : Mempool) : Result bytes :=
  match to_bytes (snapshot p) with
  | Ok b => Ok (hash_bytes (blake2b_256 b))
  | _ => Panic
  end.
End persisted.
