(* ===== verification/MempoolLaws.v ===== *)
(** * Laws of the transaction pool

    The indexes of the pool agree with its entries, no two transactions in the pool spend
    the same output, and its weight stays below the cap, after every sequence of operations;
    admission evicts only what is strictly cheaper; block selection is sorted, fits, and
    does not depend on the order of the hash maps. *)

From Stdlib Require Import ZArith Lia.
From stdpp Require Import base list strings gmap sorting.
From S2P Require Import Prelude ByteOrder CoreError Core FeePolicy Serialization CryptoHash Curve.
From S2P Require Import Pedersen RangeProof Transaction TransactionLaws BlockHeader Consensus.
From S2P Require Import ConsensusLaws Utxo StateM ChainUtxo Mempool.

(** ** Invariant *)

(** An entry carries what [entry_new] computes from its transaction. *)
Definition entry_ok (e : MempoolEntry) : Prop :=
  entry_new (me_tx e) (me_tx_hash e) (me_received_at e) = Ok e.

Definition entries_weight (m : gmap bytes MempoolEntry) : Z :=
  map_fold (λ _ e acc, me_weight e + acc) 0 m.

Record pool_ok (p : Mempool) : Prop := {
  po_entries : ∀ h e, entries p !! h = Some e → me_tx_hash e = h ∧ entry_ok e;
  po_inputs : ∀ c h, input_index p !! c = Some h ↔
    ∃ e, entries p !! h = Some e ∧ c ∈ tx_inputs (me_tx e);
  po_fees : ∀ r h, (r, h) ∈ fee_index p ↔ ∃ e, entries p !! h = Some e ∧ me_fee_rate e = r;
  po_weight : pool_weight p = entries_weight (entries p);
  po_cap : pool_weight p ≤ max_weight p;
  po_max : max_weight p ≤ 2 ^ 63;
}.

Lemma entry_new_Ok tx h t e :
  entry_new tx h t = Ok e →
  me_tx e = tx ∧ me_tx_hash e = h ∧ me_received_at e = t ∧ 0 ≤ me_weight e < 2 ^ 16.
Proof.
  unfold entry_new. intros H. res_inv. cbn.
  apply weight_checked_Ok in Hm1 as (-> & ? & ? & ?).
  pose proof (zlen_nonneg (inputs tx)). pose proof (zlen_nonneg (outputs tx)).
  pose proof (zlen_nonneg (kernels tx)). split_and!; [done..| |];
    apply (weight_of_bound (zlen (inputs tx)) (zlen (outputs tx)) (zlen (kernels tx))); lia.
Qed.

Lemma entry_weight_bound e : entry_ok e → 0 ≤ me_weight e < 2 ^ 16.
Proof. intros (_ & _ & _ & H)%entry_new_Ok. exact H. Qed.

Lemma entry_new_ok tx h t e : entry_new tx h t = Ok e → entry_ok e.
Proof. intros H. unfold entry_ok. destruct (entry_new_Ok _ _ _ _ H) as (-> & -> & -> & _). exact H. Qed.

(** ** Weights *)

Lemma entries_weight_insert m (h : bytes) e :
  m !! h = None → entries_weight (<[h := e]> m) = me_weight e + entries_weight m.
Proof. intros H. unfold entries_weight. rewrite map_fold_insert_L; [done| |done]. intros. lia. Qed.

Lemma entries_weight_delete m (h : bytes) e :
  m !! h = Some e → entries_weight m = me_weight e + entries_weight (delete h m).
Proof.
  intros H. rewrite <- (insert_delete_id m h e H) at 1.
  apply entries_weight_insert. apply lookup_delete_eq.
Qed.

Lemma entries_weight_nonneg m :
  map_Forall (λ (_ : bytes) e, 0 ≤ me_weight e) m → 0 ≤ entries_weight m.
Proof.
  induction m as [|h e m Hh IH] using map_ind; intros Hall; [done|].
  rewrite entries_weight_insert by done. apply map_Forall_insert in Hall as [He Hm]; [|done].
  specialize (IH Hm). lia.
Qed.

Lemma pool_weights_nonneg p : pool_ok p → map_Forall (λ _ e, 0 ≤ me_weight e) (entries p).
Proof. intros Hp h e He. apply entry_weight_bound, (po_entries _ Hp _ _ He). Qed.

(** ** Removal *)

Lemma release_inputs_lookup h ix cs (c : bytes) :
  (∀ c, c ∈ cs → ix !! c = Some h) →
  foldl (release_input h) ix cs !! c = if bool_decide (c ∈ cs) then None else ix !! c.
Proof.
  intros Hin.
  assert (Hgen : ∀ cs ix', (∀ c, ix' !! c = Some h ∨ ix' !! c = None ∨ c ∉ cs) →
    foldl (release_input h) ix' cs !! c = if bool_decide (c ∈ cs) then None else ix' !! c).
  { clear cs Hin. induction cs as [|c0 cs IH]; intros ix' Hix; [done|]. cbn [foldl].
    assert (Hl : ∀ c, release_input h ix' c0 !! c = if decide (c0 = c) then None else ix' !! c).
    { intros c1. unfold release_input. destruct (bool_decide (ix' !! c0 = Some h)) eqn:H0.
      - by rewrite lookup_delete.
      - apply bool_decide_eq_false in H0. destruct (decide (c0 = c1)) as [->|]; [|done].
        destruct (Hix c1) as [?|[?|Hn]]; [done|done|].
        destruct Hn. left. }
    rewrite IH.
    - rewrite Hl. destruct (decide (c0 = c)) as [->|Hne].
      + rewrite (bool_decide_true (c ∈ c :: cs)) by left. by case_bool_decide.
      + destruct (decide (c ∈ cs)); [rewrite !bool_decide_true by (try right; done)|
          rewrite !bool_decide_false by (rewrite ?elem_of_cons; naive_solver)]; done.
    - intros c1. rewrite Hl. destruct (decide (c0 = c1)); [by right; left|].
      destruct (Hix c1) as [?|[?|Hn]]; [by left|by right; left|].
      right; right. intros ?. apply Hn. by right. }
  apply Hgen. intros c0. destruct (decide (c0 ∈ cs)); [left; by apply Hin|by right; right].
Qed.

Lemma pool_no_shared_inputs p h1 e1 h2 e2 c :
  pool_ok p → entries p !! h1 = Some e1 → entries p !! h2 = Some e2 →
  c ∈ tx_inputs (me_tx e1) → c ∈ tx_inputs (me_tx e2) → h1 = h2.
Proof.
  intros Hp H1 H2 Hc1 Hc2.
  assert (Hi1 : input_index p !! c = Some h1) by (apply (po_inputs _ Hp); eauto).
  assert (Hi2 : input_index p !! c = Some h2) by (apply (po_inputs _ Hp); eauto).
  congruence.
Qed.

Lemma remove_tx_entries h p : entries (remove_tx h p) = delete h (entries p).
Proof.
  unfold remove_tx. destruct (entries p !! h) eqn:He; [done|]. by rewrite delete_id.
Qed.

Lemma remove_tx_max h p : max_weight (remove_tx h p) = max_weight p.
Proof. unfold remove_tx. by destruct (entries p !! h). Qed.

Lemma remove_tx_weight h p e :
  pool_ok p → entries p !! h = Some e → pool_weight (remove_tx h p) = pool_weight p - me_weight e.
Proof.
  intros Hp He. unfold remove_tx. rewrite He. cbn [pool_weight].
  rewrite (po_weight _ Hp), (entries_weight_delete _ _ _ He). unfold saturating_sub.
  assert (0 ≤ entries_weight (delete h (entries p))); [|lia].
  apply entries_weight_nonneg. intros h' e' [_ He']%lookup_delete_Some.
  by eapply pool_weights_nonneg.
Qed.

Lemma remove_tx_ok h p : pool_ok p → pool_ok (remove_tx h p).
Proof.
  intros Hp. destruct (entries p !! h) as [e|] eqn:He.
  2:{ unfold remove_tx. by rewrite He. }
  pose proof (remove_tx_weight h p e Hp He) as Hw.
  assert (Hwe : 0 ≤ me_weight e) by (apply entry_weight_bound, (po_entries _ Hp _ _ He)).
  pose proof (po_cap _ Hp) as Hcap. pose proof (po_max _ Hp) as Hmax. split.
  - intros h' e'. rewrite remove_tx_entries. intros [_ H]%lookup_delete_Some. by apply (po_entries _ Hp).
  - intros c h'. rewrite remove_tx_entries. unfold remove_tx. rewrite He. cbn [input_index].
    rewrite release_inputs_lookup by (intros c' Hc'; apply (po_inputs _ Hp); eauto).
    setoid_rewrite lookup_delete_Some. case_bool_decide as Hc.
    + split; [done|]. intros (e' & (Hne & He') & Hc'). destruct Hne.
      by eapply pool_no_shared_inputs.
    + rewrite (po_inputs _ Hp). split; [|naive_solver].
      intros (e' & He' & Hc'). exists e'. split; [split; [|done]|done]. intros <-.
      rewrite He in He'. injection He' as <-. done.
  - intros r h'. rewrite remove_tx_entries. unfold remove_tx. rewrite He. cbn [fee_index].
    rewrite elem_of_difference, elem_of_singleton, (po_fees _ Hp). setoid_rewrite lookup_delete_Some.
    split.
    + intros [(e' & He' & <-) Hne]. exists e'. split; [split; [|done]|done].
      intros <-. rewrite He in He'. injection He' as <-. done.
    + intros (e' & (Hne & He') & <-). split; [eauto|]. by intros [= _ ->].
  - rewrite Hw, (po_weight _ Hp), remove_tx_entries, (entries_weight_delete _ _ _ He). lia.
  - rewrite Hw, remove_tx_max. lia.
  - by rewrite remove_tx_max.
Qed.

(** ** Eviction *)

#[local] Instance fee_key_le_total : Total fee_key_le.
Proof.
  intros [r1 h1] [r2 h2]. unfold fee_key_le. cbn.
  destruct (Z.lt_trichotomy r1 r2) as [?|[->|?]]; [by left; left| |by right; left].
  destruct (total bytes_le h1 h2); [left|right]; right; done.
Qed.
#[local] Instance fee_key_le_trans : Transitive fee_key_le.
Proof.
  intros [r1 h1] [r2 h2] [r3 h3]. unfold fee_key_le. cbn.
  intros [?|[-> H1]] [?|[-> H2]]; [left; lia..|right]. split; [done|]. by etrans.
Qed.

Lemma lowest_fee_key_spec p :
  match lowest_fee_key p with
  | Some k => k ∈ fee_index p ∧ ∀ k', k' ∈ fee_index p → fee_key_le k k'
  | None => fee_index p = ∅
  end.
Proof.
  unfold lowest_fee_key.
  pose proof (StronglySorted_merge_sort fee_key_le (elements (fee_index p))) as Hs.
  pose proof (merge_sort_Permutation fee_key_le (elements (fee_index p))) as Hp.
  assert (Hin : ∀ k, k ∈ fee_index p ↔ k ∈ merge_sort fee_key_le (elements (fee_index p)))
    by (intros k; by rewrite Hp, elem_of_elements).
  destruct (merge_sort fee_key_le (elements (fee_index p))) as [|k l]; cbn [head].
  - apply set_eq. intros k. rewrite Hin. set_solver.
  - split; [apply Hin; left|]. intros k' [->|Hk]%Hin%elem_of_cons.
    + right. split; [done|]. reflexivity.
    + apply StronglySorted_inv in Hs as [_ Hs]. rewrite Forall_forall in Hs. by apply Hs.
Qed.

(** The key of an entry in the fee index *)
Definition fee_key (e : MempoolEntry) : Z * bytes := (me_fee_rate e, me_tx_hash e).

(** What eviction has done when it stops: entries are gone only from the cheap end, and
    all of those are strictly cheaper than the incoming rate. *)
Record evicted (r : Z) (p p' : Mempool) : Prop := {
  ev_sub : entries p' ⊆ entries p;
  ev_cheaper : ∀ h e, entries p !! h = Some e → entries p' !! h = None → me_fee_rate e < r;
  ev_lowest : ∀ h e h' e', entries p !! h = Some e → entries p' !! h = None →
    entries p' !! h' = Some e' → fee_key_le (fee_key e) (fee_key e');
}.

Lemma evicted_refl r p : evicted r p p.
Proof. split; [done|..]; intros; congruence. Qed.

Lemma evicted_step r p h e p' :
  pool_ok p → entries p !! h = Some e → me_fee_rate e < r →
  (∀ h' e', entries p !! h' = Some e' → fee_key_le (fee_key e) (fee_key e')) →
  evicted r (remove_tx h p) p' → evicted r p p'.
Proof.
  intros Hp He Hr Hlow [H1 H2 H3]. rewrite remove_tx_entries in H1, H2, H3.
  assert (Hcase : ∀ h' e', entries p !! h' = Some e' →
    h' = h ∧ e' = e ∨ delete h (entries p) !! h' = Some e').
  { intros h' e' He'. destruct (decide (h' = h)) as [->|Hne]; [left; naive_solver|right].
    by rewrite lookup_delete_ne by done. }
  split.
  - etrans; [exact H1|apply delete_subseteq].
  - intros h' e' [[-> ->]|He']%Hcase Hn; [done|eauto].
  - intros h' e' h'' e'' [[-> ->]|He']%Hcase Hn Hk; [|eauto].
    apply (Hlow h''). eapply lookup_weaken; [|apply (delete_subseteq (entries p) h)].
    by eapply lookup_weaken.
Qed.

Lemma evict_lowest_fee_spec r p p' res :
  pool_ok p → evict_lowest_fee r p = (p', res) →
  (p' = p ∧ res ≠ Panic ∧ (res = Ok tt → entries p = ∅)) ∨
  (res = Ok tt ∧ ∃ h e, entries p !! h = Some e ∧ me_fee_rate e < r ∧ p' = remove_tx h p ∧
     ∀ h' e', entries p !! h' = Some e' → fee_key_le (fee_key e) (fee_key e')).
Proof.
  intros Hp. unfold evict_lowest_fee, st_bind, st_get.
  pose proof (lowest_fee_key_spec p) as Hl. destruct (lowest_fee_key p) as [[r0 h]|].
  - destruct Hl as [Hin Hlow]. destruct (Z.leb_spec r r0); [by intros [= <- <-]; left|].
    intros [= <- <-]. right. split; [done|]. apply (po_fees _ Hp) in Hin as (e & He & <-).
    exists h, e. split_and!; try done. intros h' e' He'.
    unfold fee_key. rewrite (proj1 (po_entries _ Hp _ _ He)), (proj1 (po_entries _ Hp _ _ He')).
    apply Hlow, (po_fees _ Hp). eauto.
  - intros [= <- <-]. left. split_and!; [done|done|]. intros _. apply map_empty. intros h.
    destruct (entries p !! h) as [e|] eqn:He; [|done].
    assert ((me_fee_rate e, h) ∈ fee_index p) by (apply (po_fees _ Hp); eauto). set_solver.
Qed.

Lemma pool_weight_nonneg p : pool_ok p → 0 ≤ pool_weight p.
Proof. intros Hp. rewrite (po_weight _ Hp). by apply entries_weight_nonneg, pool_weights_nonneg. Qed.

Lemma pool_add_ovf p w :
  pool_ok p → 0 ≤ w < 2 ^ 16 → add_ovf (E := DomError) 64 (pool_weight p) w = Ok (pool_weight p + w).
Proof.
  intros Hp Hw. pose proof (po_cap _ Hp). pose proof (po_max _ Hp).
  apply expect_Ok, checked_add_Some. split; [done|]. lia.
Qed.

Lemma make_room_spec fuel w r p p' res :
  pool_ok p → 0 ≤ w < 2 ^ 16 → (size (entries p) < fuel)%nat →
  make_room fuel w r p = (p', res) →
  res ≠ Panic ∧ pool_ok p' ∧ evicted r p p' ∧ max_weight p' = max_weight p ∧
  (res = Ok tt → pool_weight p' + w ≤ max_weight p') ∧
  (pool_weight p + w ≤ max_weight p → p' = p ∧ res = Ok tt).
Proof.
  intros Hp Hw. revert p Hp. induction fuel as [|fuel IH]; intros p Hp Hf; [lia|].
  cbn [make_room]. unfold st_bind at 1 2, st_get at 1 2. rewrite pool_add_ovf by done.
  destruct (Z.ltb_spec (max_weight p) (pool_weight p + w)) as [Hover|Hfit].
  2:{ intros [= <- <-]. split_and!; done || apply evicted_refl. }
  intros [(? & p1 & He & H)|[(e & He & ->)|[He ->]]]%st_bind_cases.
  - apply evict_lowest_fee_spec in He as [(-> & _ & Hemp)|(_ & h & e & Hh & Hrate & -> & Hlow)]; [| |done].
    + unfold st_bind, st_get in H. rewrite Z.leb_refl in H. injection H as <- <-.
      split_and!; done || apply evicted_refl || lia.
    + unfold st_bind, st_get in H. destruct (Z.leb_spec (pool_weight p) (pool_weight (remove_tx h p))).
      * injection H as <- <-. split_and!; [done|by apply remove_tx_ok| |apply remove_tx_max|done|lia].
        eapply evicted_step; [done..|apply evicted_refl].
      * apply IH in H as (H1 & H2 & H3 & H4 & H5 & _); [|by apply remove_tx_ok|].
        -- rewrite remove_tx_max in H4. split_and!; [done|done| |done|done|lia].
           by eapply evicted_step.
        -- rewrite remove_tx_entries, map_size_delete_Some by eauto.
           assert (size (entries p) ≠ 0%nat); [|lia].
           intros Hz%map_size_empty_inv. by rewrite Hz in Hh.
  - apply evict_lowest_fee_spec in He as [(-> & _ & _)|(? & _)]; [|done|done].
    split_and!; done || apply evicted_refl || lia.
  - apply evict_lowest_fee_spec in He as [(_ & ? & _)|(? & _)]; done.
Qed.

(** ** Admission *)

Lemma reserve_inputs_lookup (h : bytes) (ix : gmap bytes bytes) (cs : list bytes) (c : bytes) :
  foldl (λ ix c, <[c := h]> ix) ix cs !! c = if bool_decide (c ∈ cs) then Some h else ix !! c.
Proof.
  revert ix. induction cs as [|c0 cs IH]; intros ix; [done|]. cbn [foldl].
  rewrite IH, lookup_insert. destruct (decide (c0 = c)) as [->|Hne].
  - rewrite (bool_decide_true (c ∈ c :: cs)) by left. by case_bool_decide.
  - destruct (decide (c ∈ cs)); [rewrite !bool_decide_true by (try right; done)|
      rewrite !bool_decide_false by (rewrite ?elem_of_cons; naive_solver)]; done.
Qed.

Lemma insert_entry_ok e p p' :
  pool_ok p → entry_ok e → entries p !! me_tx_hash e = None →
  (∀ c, c ∈ tx_inputs (me_tx e) → input_index p !! c = None) →
  pool_weight p + me_weight e ≤ max_weight p →
  insert_entry e p = Ok p' →
  pool_ok p' ∧ entries p' = <[me_tx_hash e := e]> (entries p).
Proof.
  intros Hp He Hnew Hfree Hfit H. unfold insert_entry in H.
  rewrite pool_add_ovf in H by (done || by apply entry_weight_bound). cbn [rbind] in H.
  injection H as <-. split; [|done]. split; cbn [entries input_index fee_index pool_weight max_weight].
  - intros h e' [[<- <-]|[_ He']]%lookup_insert_Some; [done|by apply (po_entries _ Hp)].
  - intros c h. rewrite reserve_inputs_lookup. case_bool_decide as Hc.
    + split.
      * intros [= <-]. exists e. by rewrite lookup_insert_eq.
      * intros (e' & He' & Hc'). f_equal.
        apply lookup_insert_Some in He' as [[Heq _]|[_ He']]; [done|].
        assert (input_index p !! c = Some h) by (apply (po_inputs _ Hp); eauto).
        rewrite Hfree in H by done. done.
    + rewrite (po_inputs _ Hp). split; intros (e' & He' & Hc').
      * exists e'. rewrite lookup_insert_ne; [done|]. intros <-. congruence.
      * apply lookup_insert_Some in He' as [[_ <-]|[_ He']]; [done|eauto].
  - intros r h. rewrite elem_of_union, elem_of_singleton, (po_fees _ Hp). split.
    + intros [[= -> ->]|(e' & He' & <-)]; [exists e; by rewrite lookup_insert_eq|].
      exists e'. rewrite lookup_insert_ne; [done|]. intros <-. congruence.
    + intros (e' & He' & <-). apply lookup_insert_Some in He' as [[<- <-]|[_ He']]; [by left|right; eauto].
  - rewrite entries_weight_insert by done. rewrite (po_weight _ Hp). lia.
  - lia.
  - apply Hp.
Qed.

Lemma no_conflict_free p tx h :
  pool_ok p → entries p !! h = None → first_conflicting_tx p tx h = None →
  ∀ c, c ∈ tx_inputs tx → input_index p !! c = None.
Proof.
  intros Hp Hnew Hc c Hin. destruct (input_index p !! c) as [h'|] eqn:Hi; [|done]. exfalso.
  assert (Hne : h' ≠ h).
  { intros ->. apply (po_inputs _ Hp) in Hi as (e & He & _). congruence. }
  unfold first_conflicting_tx in Hc. apply head_None in Hc.
  assert (Hel : h' ∈ omap (λ c, match input_index p !! c with
      | Some h0 => if bool_decide (h0 = h) then None else Some h0 | None => None end) (tx_inputs tx)).
  { apply list_elem_of_omap. exists c. split; [done|]. by rewrite Hi, bool_decide_false. }
  rewrite Hc in Hel. by apply not_elem_of_nil in Hel.
Qed.

(** What admission does: on success the entry is in, everything else that is there was there,
    nothing in the pool conflicted with it, and what was evicted is strictly cheaper and the
    cheapest; on rejection the pool may only have lost cheaper entries. *)
Definition admission (tx : Transaction) (h : bytes) (now : Z) (p p' : Mempool) (res : Result unit) : Prop :=
  match res with
  | Ok _ => ∃ e p1, entry_new tx h now = Ok e ∧ entries p !! h = None ∧
      (∀ c, c ∈ tx_inputs tx → input_index p !! c = None) ∧
      evicted (me_fee_rate e) p p1 ∧ entries p' = <[h := e]> (entries p1) ∧
      (pool_weight p + me_weight e ≤ max_weight p → entries p1 = entries p)
  | Err _ => p' = p ∨ ∃ e, entry_new tx h now = Ok e ∧ evicted (me_fee_rate e) p p' ∧
      max_weight p < pool_weight p + me_weight e
  | Panic => False
  end.

Lemma entry_new_no_panic tx h now : entry_new tx h now ≠ Panic.
Proof.
  unfold entry_new, fee_shape, actual_fee_rate, validate_minimum_fee, fee_breakdown,
    minimum_fee_for_weight, recommended, transaction_weight, from_counts, to_u32. no_panic.
  - apply total_fee_no_panic.
  - apply weight_checked_no_panic.
Qed.

Lemma accept_validated_spec tx h now p p' res :
  pool_ok p → accept_validated_tx tx h now p = (p', res) →
  pool_ok p' ∧ max_weight p' = max_weight p ∧ admission tx h now p p' res.
Proof.
  intros Hp. unfold accept_validated_tx. unfold st_bind at 1, st_get at 1.
  unfold contains. destruct (bool_decide (is_Some (entries p !! h))) eqn:Hc.
  { intros [= <- <-]. split_and!; [done|done|by left]. }
  apply bool_decide_eq_false in Hc. assert (Hnew : entries p !! h = None) by (by apply eq_None_not_Some).
  destruct (first_conflicting_tx p tx h) as [h'|] eqn:Hconf.
  { intros [= <- <-]. split_and!; [done|done|by left]. }
  pose proof (no_conflict_free _ _ _ Hp Hnew Hconf) as Hfree.
  intros [(e & p1 & [-> He]%st_get_Ok & H)|[(er & [= <-] & ->)|[[= _ He] _]]]%st_bind_cases.
  2:{ split_and!; [done|done|by left]. }
  2:{ by destruct (entry_new_no_panic _ _ _ He). }
  destruct (entry_new_Ok _ _ _ _ He) as (Htx & Hh & _ & Hw).
  destruct (Z.ltb_spec (max_weight p) (me_weight e)).
  { injection H as <- <-. split_and!; [done|done|by left]. }
  apply st_bind_cases in H as [(? & p1 & Hroom & H)|[(er & Hroom & ->)|[Hroom ->]]];
    apply make_room_spec in Hroom as (Hnp & Hp1 & Hev & Hmax & Hfit & Hsame); try (done || lia).
  2:{ split_and!; [done|done|right]. exists e. split_and!; [done|done|].
      destruct (Z.lt_ge_cases (max_weight p) (pool_weight p + me_weight e)); [done|].
      destruct Hsame as [_ ?]; done. }
  specialize (Hfit ltac:(by destruct x)).
  unfold st_bind at 1, st_get at 1 in H. rewrite pool_add_ovf in H by done. cbn [rbind] in H.
  rewrite (proj2 (Z.leb_le _ _) Hfit) in H.
  assert (Hnew1 : entries p1 !! me_tx_hash e = None).
  { rewrite Hh. eapply lookup_weaken_None; [exact Hnew|apply Hev]. }
  assert (Hfree1 : ∀ c, c ∈ tx_inputs (me_tx e) → input_index p1 !! c = None).
  { intros c Hcin. rewrite Htx in Hcin. destruct (input_index p1 !! c) as [h'|] eqn:Hi; [|done].
    apply (po_inputs _ Hp1) in Hi as (e' & He' & Hc'). exfalso.
    assert (input_index p !! c = Some h') by (apply (po_inputs _ Hp); exists e'; split;
      [eapply lookup_weaken; [done|apply Hev]|done]).
    rewrite Hfree in H1 by done. done. }
  unfold st_update in H. destruct (insert_entry e p1) as [pn|er|] eqn:Hins;
    [|unfold insert_entry in Hins; rewrite pool_add_ovf in Hins by done; done..].
  injection H as <- <-.
  destruct (insert_entry_ok _ _ _ Hp1 (entry_new_ok _ _ _ _ He) Hnew1 Hfree1 Hfit Hins) as [Hp' Hent].
  assert (Hmx : max_weight pn = max_weight p1) by (unfold insert_entry in Hins; by res_inv).
  split_and!; [done|congruence|]. exists e, p1. rewrite Hh in Hent.
  split_and!; try done. intros Hf. by destruct (Hsame Hf) as [-> _].
Qed.

Lemma accept_tx_spec tx h now p p' res :
  pool_ok p → accept_tx tx h now p = (p', res) → pool_ok p' ∧ admission tx h now p p' res.
Proof.
  intros Hp [(? & p1 & [-> _]%st_get_Ok & H)|[(er & [= <-] & ->)|[[= _ H] _]]]%st_bind_cases.
  - apply accept_validated_spec in H as (? & _ & ?); done.
  - split; [done|by left].
  - by destruct (validate_transaction_structure_no_panic _ H).
Qed.

Section chain_view.
Context `{HB : Blake2b256} `{HC : Secp256k1} `{HZ : !ZkpBackend}.
Context (lookup_utxo : bytes → Result (option UtxoEntry)).

Lemma accept_with_view_keeps tx h now ch cid mat p :
  pool_ok p → pool_ok (accept_tx_with_chain_view lookup_utxo tx h now ch cid mat p).1.
Proof.
  intros Hp. destruct (accept_tx_with_chain_view _ _ _ _ _ _ _ p) as [p' res] eqn:H. cbn [fst].
  apply st_bind_inv in H as [(? & p1 & [-> _]%st_get_Ok & H)|(? & [= <- _] & _)]; [|done].
  apply st_bind_inv in H as [(? & p1 & [-> _]%st_get_Ok & H)|(? & [= <- _] & _)]; [|done].
  apply st_bind_inv in H as [(? & p1 & [-> _]%st_get_Ok & H)|(? & [= <- _] & _)]; [|done].
  by apply accept_validated_spec in H as (? & _ & _).
Qed.

(** An input the caller's view admits *)
Definition spendable (ch mat : Z) (c : bytes) : Prop :=
  ∃ e, lookup_utxo c = Ok (Some e) ∧ (is_coinbase e = true → mat ≤ ch - block_height e).

Lemma chain_view_Ok tx ch mat :
  0 < mat →
  validate_tx_against_chain_view lookup_utxo tx ch mat = Ok tt →
  ∀ c, c ∈ tx_inputs tx → spendable ch mat c.
Proof.
  intros Hmat H c Hc. unfold validate_tx_against_chain_view in H. apply try_each_Ok in H.
  rewrite Forall_forall in H. apply list_elem_of_fmap in Hc as (i & -> & Hi).
  specialize (H i Hi). unfold check_chain_input in H. apply rbind_Ok in H as (r & Hr & H).
  destruct r as [e|]; [|done]. exists e. split; [done|]. intros Hcb. rewrite Hcb in H. cbn [andb] in H.
  destruct (negb (is_mature_for e ch mat)) eqn:Hm; [done|]. apply negb_false_iff in Hm.
  unfold is_mature_for, coinbase_is_mature_at in Hm. rewrite Hcb in Hm. cbn [negb orb] in Hm.
  apply Z.leb_le in Hm. unfold saturating_sub in Hm. lia.
Qed.

(** C22: What the pool admits.  A transaction is admitted only when it satisfies every rule
    of consensus at that height and chain, every input is an unspent output of the chain
    and, if a coinbase output, mature, no transaction in the pool spends any of its inputs,
    and it pays the minimum fee; it is then in the pool.  Whatever was evicted for it pays a
    strictly lower fee rate and was the cheapest, and nothing is evicted when it fits. *)
Theorem accepted_is_valid tx h now ch cid mat p p' :
  pool_ok p → tx_ok tx → 0 < mat →
  accept_tx_with_chain_view lookup_utxo tx h now ch cid mat p = (p', Ok tt) →
  transaction_rules tx {| current_height := {| height_val := ch |}; chain_id := cid;
                          now := {| time_val := now |} |} ∧
  (∀ c, c ∈ tx_inputs tx → spendable ch mat c) ∧
  admission tx h now p p' (Ok tt).
Proof.
  intros Hp Htx Hmat H.
  apply st_bind_Ok in H as (? & p1 & [-> _]%st_get_Ok & H).
  apply st_bind_Ok in H as ([] & p1 & [-> Hv]%st_get_Ok & H).
  apply st_bind_Ok in H as ([] & p1 & [-> Hc]%st_get_Ok & H).
  split_and!.
  - by apply validate_transaction_Ok.
  - by apply chain_view_Ok.
  - by apply accept_validated_spec in H as (_ & _ & ?).
Qed.
End chain_view.

(** ** Every history *)

Lemma remove_all_ok hs p : pool_ok p → pool_ok (foldl (λ p h, remove_tx h p) p hs).
Proof. revert p. induction hs as [|h hs IH]; intros p Hp; [done|]. by apply IH, remove_tx_ok. Qed.

Lemma remove_all_entries hs p h :
  entries (foldl (λ p h, remove_tx h p) p hs) !! h
  = if bool_decide (h ∈ hs) then None else entries p !! h.
Proof.
  revert p. induction hs as [|h0 hs IH]; intros p; [done|]. cbn [foldl].
  rewrite IH, remove_tx_entries, lookup_delete. destruct (decide (h0 = h)) as [->|Hne].
  - rewrite (bool_decide_true (h ∈ h :: hs)) by left. by case_bool_decide.
  - destruct (decide (h ∈ hs)); [rewrite !bool_decide_true by (try right; done)|
      rewrite !bool_decide_false by (rewrite ?elem_of_cons; naive_solver)]; done.
Qed.

Section history.
Context `{HB : Blake2b256} `{HC : Secp256k1} `{HZ : !ZkpBackend}.

(** One call of an operation of the pool that changes it *)
Inductive pool_step : Mempool → Mempool → Prop :=
| step_accept tx h now p : pool_step p (accept_tx tx h now p).1
| step_accept_view lookup tx h now ch cid mat p :
    pool_step p (accept_tx_with_chain_view lookup tx h now ch cid mat p).1
| step_remove h p : pool_step p (remove_tx h p)
| step_confirmed spent p : pool_step p (remove_confirmed spent p)
| step_reinject txs p : pool_step p (reinject_batch txs p).1
| step_reinject_view lookup txs ch cid mat p :
    pool_step p (reinject_batch_with_chain_view lookup txs ch cid mat p).1.

Lemma mempool_new_ok : pool_ok mempool_new.
Proof.
  split; cbn; try done.
  - intros c h. split; [done|]. intros (e & He & _). done.
  - intros r h. split; [set_solver|]. intros (e & He & _). done.
Qed.

Lemma fold_keeps {A B} (f : Mempool * list B → A → Mempool * list B) txs acc :
  (∀ acc t, pool_ok acc.1 → pool_ok (f acc t).1) → pool_ok acc.1 → pool_ok (foldl f acc txs).1.
Proof. intros Hf. revert acc. induction txs as [|t txs IH]; intros acc Hacc; [done|]. apply IH, Hf, Hacc. Qed.

Lemma pool_step_ok p p' : pool_step p p' → pool_ok p → pool_ok p'.
Proof.
  intros [tx h now p0|lookup tx h now ch cid mat p0|h p0|spent p0|txs p0|lookup txs ch cid mat p0] Hp.
  - destruct (accept_tx tx h now p0) as [p1 res] eqn:H. by apply accept_tx_spec in H as [? _].
  - by apply accept_with_view_keeps.
  - by apply remove_tx_ok.
  - by apply remove_all_ok.
  - apply fold_keeps; [|done]. intros [p1 rs] [[tx h] now] Hp1. cbn [fst] in *.
    destruct (accept_tx tx h now p1) as [p2 res] eqn:H. by apply accept_tx_spec in H as [? _].
  - apply fold_keeps; [|done]. intros [p1 rs] [[tx h] now] Hp1. cbn [fst] in *.
    pose proof (accept_with_view_keeps lookup tx h now ch cid mat p1 Hp1).
    by destruct (accept_tx_with_chain_view _ _ _ _ _ _ _ p1).
Qed.

(** C7: After any sequence of operations, whatever they return, the pool is consistent: its
    weight is the sum of the weights of its entries and at most the cap, the input and fee
    indexes list exactly its entries, each entry carries the fee, weight and rate computed
    from its transaction, and no two transactions in it spend the same output. *)
Theorem pool_always_consistent p :
  rtc pool_step mempool_new p →
  pool_ok p ∧
  ∀ h1 e1 h2 e2 c, entries p !! h1 = Some e1 → entries p !! h2 = Some e2 →
    c ∈ tx_inputs (me_tx e1) → c ∈ tx_inputs (me_tx e2) → h1 = h2.
Proof.
  intros Hr. assert (Hp : pool_ok p).
  { generalize mempool_new_ok. induction Hr as [|? ? ? Hs _ IH]; [done|].
    intros H. by apply IH, (pool_step_ok _ _ Hs). }
  split; [done|]. intros. by eapply pool_no_shared_inputs.
Qed.
End history.

(** The eviction loop always ends, after at most one iteration per entry: it makes room
    or reports an error, and it never evicts a transaction that pays at least the incoming
    rate nor one that is not among the cheapest. *)
Theorem eviction_terminates p tx h now p' res e :
  pool_ok p → entry_new tx h now = Ok e →
  make_room (S (size (entries p))) (me_weight e) (me_fee_rate e) p = (p', res) →
  res ≠ Panic ∧ evicted (me_fee_rate e) p p' ∧
  (res = Ok tt → pool_weight p' + me_weight e ≤ max_weight p').
Proof.
  intros Hp He H. destruct (entry_new_Ok _ _ _ _ He) as (_ & _ & _ & Hw).
  apply make_room_spec in H as (H1 & _ & H2 & _ & H3 & _); [done|done|done|lia].
Qed.

(** ** Block selection *)

#[local] Instance entry_le_total : Total entry_le.
Proof.
  intros a b. unfold entry_le, block_order_le.
  destruct (Z.lt_trichotomy (me_fee_rate a) (me_fee_rate b)) as [?|[->|?]]; [by right; left| |by left; left].
  destruct (total bytes_le (me_tx_hash a) (me_tx_hash b)); [left|right]; right; done.
Qed.
#[local] Instance entry_le_trans : Transitive entry_le.
Proof.
  intros a b c. unfold entry_le, block_order_le.
  intros [?|[? H1]] [?|[? H2]]; [left; lia..|right]. split; [lia|]. by etrans.
Qed.

Lemma entry_le_antisymm a b : entry_le a b → entry_le b a → me_tx_hash a = me_tx_hash b.
Proof.
  unfold entry_le, block_order_le. intros [?|[? H1]] [?|[? H2]]; [lia..|]. by apply (anti_symm bytes_le).
Qed.

(** A list of entries with distinct hashes has one arrangement in block order. *)
Lemma block_order_unique l1 l2 :
  NoDup (me_tx_hash <$> l1) → StronglySorted entry_le l1 → StronglySorted entry_le l2 →
  l1 ≡ₚ l2 → l1 = l2.
Proof.
  intros Hnd H1 H2 Hp. revert l2 H2 Hp. induction H1 as [|x l1 H1 IH Hx]; intros l2 H2 Hp.
  - by apply Permutation_nil in Hp.
  - destruct H2 as [|y l2 H2 Hy]; [by apply Permutation_sym, Permutation_nil in Hp|].
    rewrite fmap_cons, NoDup_cons in Hnd. destruct Hnd as [Hxn Hnd].
    assert (x = y) as <-.
    { assert (Hyin : y ∈ x :: l1) by (rewrite Hp; left).
      assert (Hxin : x ∈ y :: l2) by (rewrite <- Hp; left).
      apply elem_of_cons in Hyin as [->|Hyin]; [done|].
      apply elem_of_cons in Hxin as [->|Hxin]; [done|].
      rewrite Forall_forall in Hx, Hy. exfalso. apply Hxn.
      rewrite (entry_le_antisymm x y (Hx y Hyin) (Hy x Hxin)). by apply list_elem_of_fmap_2. }
    f_equal. apply IH; [done|done|]. by eapply Permutation_cons_inv.
Qed.

Lemma pool_hashes_distinct p : pool_ok p → NoDup (me_tx_hash <$> (map_to_list (entries p)).*2).
Proof.
  intros Hp. rewrite <- list_fmap_compose.
  assert (Heq : (me_tx_hash ∘ snd) <$> map_to_list (entries p) = (map_to_list (entries p)).*1).
  { apply list_fmap_ext. intros i [h e] Hi. apply list_elem_of_lookup_2, elem_of_map_to_list in Hi.
    apply (po_entries _ Hp _ _ Hi). }
  rewrite Heq. apply NoDup_fst_map_to_list.
Qed.

Lemma select_entries_sub u m l : sublist (select_entries u m l) l.
Proof.
  revert u. induction l as [|e l IH]; intros u; cbn [select_entries]; [done|].
  destruct (negb _); [by apply sublist_cons|by apply sublist_skip].
Qed.

Lemma sorted_sublist {A} (R : relation A) (l1 l2 : list A) :
  sublist l1 l2 → StronglySorted R l2 → StronglySorted R l1.
Proof.
  induction 1 as [|x l1 l2 Hs IH|x l1 l2 Hs IH]; intros H; [constructor|..];
    apply StronglySorted_inv in H as [H Hx]; [|by apply IH].
  constructor; [by apply IH|]. rewrite Forall_forall in *. intros y Hy. apply Hx.
  by eapply elem_of_sublist.
Qed.

Definition weights (l : list MempoolEntry) : Z := zsum (me_weight <$> l).

Lemma weights_cons e l : weights (e :: l) = me_weight e + weights l.
Proof. done. Qed.

Lemma select_entries_app u m l1 l2 :
  select_entries u m (l1 ++ l2)
  = select_entries u m l1 ++ select_entries (u + weights (select_entries u m l1)) m l2.
Proof.
  revert u. induction l1 as [|e l1 IH]; intros u; cbn [select_entries app].
  - by rewrite Z.add_0_r.
  - destruct (negb _); [apply IH|]. rewrite IH. cbn [app]. by rewrite weights_cons, Z.add_assoc.
Qed.

Lemma select_entries_fits u m l :
  Forall (λ e, 0 ≤ me_weight e) l → u ≤ m → u + weights (select_entries u m l) ≤ m.
Proof.
  intros Hw. revert u. induction Hw as [|e l He Hw IH]; intros u Hu; cbn [select_entries].
  { change (weights []) with 0. lia. }
  destruct (entry_fits_block_weight u (me_weight e) m) eqn:Hf; cbn [negb]; [|by apply IH].
  unfold entry_fits_block_weight, saturating_sub in Hf. apply Z.leb_le in Hf.
  rewrite weights_cons, Z.add_assoc. apply IH. lia.
Qed.

(** C23: Block selection.  The selected transactions are in the pool, sorted by fee rate and
    then hash, fit the given weight, and do not conflict with each other; every transaction
    that was left out would have exceeded the weight together with the better ones that were
    taken; and the selection is the same for every order in which the hash map of the pool
    may list its entries. *)
Theorem block_selection p m :
  pool_ok p → 0 ≤ m →
  let sel := select_for_block p m in
  StronglySorted entry_le sel ∧
  (∀ e, e ∈ sel → entries p !! me_tx_hash e = Some e) ∧
  weights sel ≤ m ∧
  (∀ e e' c, e ∈ sel → e' ∈ sel → c ∈ tx_inputs (me_tx e) → c ∈ tx_inputs (me_tx e') → e = e') ∧
  (∀ e, entries p !! me_tx_hash e = Some e → e ∉ sel →
     ∃ better, sublist better sel ∧ Forall (λ x, entry_le x e) better ∧
               m < weights better + me_weight e) ∧
  (∀ l, l ≡ₚ (map_to_list (entries p)).*2 → select_entries 0 m (merge_sort entry_le l) = sel).
Proof.
  intros Hp Hm sel. pose proof (pool_hashes_distinct p Hp) as Hnd.
  pose proof (StronglySorted_merge_sort entry_le (map_to_list (entries p)).*2) as Hsort.
  pose proof (merge_sort_Permutation entry_le (map_to_list (entries p)).*2) as Hperm.
  assert (Hin : ∀ e, e ∈ entries_in_block_order p ↔ entries p !! me_tx_hash e = Some e).
  { intros e. unfold entries_in_block_order. rewrite Hperm, list_elem_of_fmap. split.
    - intros ([h e'] & -> & Hx%elem_of_map_to_list). cbn [snd].
      by rewrite (proj1 (po_entries _ Hp _ _ Hx)).
    - intros He. exists (me_tx_hash e, e). split; [done|by apply elem_of_map_to_list]. }
  assert (Hsel : ∀ e, e ∈ sel → entries p !! me_tx_hash e = Some e).
  { intros e He. apply Hin. eapply elem_of_sublist; [exact He|apply select_entries_sub]. }
  split_and!.
  - eapply sorted_sublist; [apply select_entries_sub|exact Hsort].
  - exact Hsel.
  - pose proof (select_entries_fits 0 m (entries_in_block_order p)) as Hfit. unfold sel, select_for_block.
    rewrite Z.add_0_l in Hfit. apply Hfit; [|lia]. apply Forall_forall. intros e He%Hin.
    by eapply pool_weights_nonneg.
  - intros e e' c He%Hsel He'%Hsel Hc Hc'.
    pose proof (pool_no_shared_inputs _ _ _ _ _ c Hp He He' Hc Hc') as Heq. congruence.
  - intros e He Hout. apply Hin, list_elem_of_split in He as (l1 & l2 & Heq).
    unfold sel, select_for_block in *. rewrite Heq, select_entries_app in Hout |- *.
    exists (select_entries 0 m l1). split_and!; [by apply sublist_inserts_r| |].
    + unfold entries_in_block_order in Heq. rewrite Heq in Hsort. apply Forall_forall. intros x Hx.
      eapply elem_of_sublist in Hx; [|apply select_entries_sub].
      by eapply StronglySorted_app_1_elem_of in Hsort; [|exact Hx|left].
    + rewrite not_elem_of_app in Hout. destruct Hout as [_ Hout]. cbn [select_entries] in Hout.
      destruct (entry_fits_block_weight _ _ m) eqn:Hf; cbn [negb] in Hout;
        [by rewrite not_elem_of_cons in Hout; destruct Hout|].
      unfold entry_fits_block_weight, saturating_sub in Hf. apply Z.leb_gt in Hf. lia.
  - intros l Hl. unfold sel, select_for_block, entries_in_block_order. f_equal.
    apply block_order_unique; [|apply (StronglySorted_merge_sort entry_le)..|].
    + by rewrite merge_sort_Permutation, Hl.
    + by rewrite !merge_sort_Permutation.
Qed.

(** ** Confirmation *)

(** After a block the pool has dropped exactly the transactions that spend one of the
    outputs the block spent, and it is consistent. *)
Theorem remove_confirmed_exact p spent h e :
  pool_ok p →
  pool_ok (remove_confirmed spent p) ∧
  (entries (remove_confirmed spent p) !! h = Some e ↔
   entries p !! h = Some e ∧ ∀ c, c ∈ tx_inputs (me_tx e) → c ∉ spent).
Proof.
  intros Hp. split; [by apply remove_all_ok|]. unfold remove_confirmed. rewrite remove_all_entries.
  assert (Hiff : h ∈ sort_by_key id (me_tx_hash <$> filter (spends_any spent) (map_to_list (entries p)).*2)
    ↔ ∃ e', entries p !! h = Some e' ∧ spends_any spent e').
  { rewrite sort_by_key_elem, list_elem_of_fmap. split.
    - intros (e' & -> & [Hs Hin]%list_elem_of_filter). apply list_elem_of_fmap in Hin as ([h' e''] & -> & Hx).
      apply elem_of_map_to_list in Hx. cbn [snd]. exists e''.
      by rewrite (proj1 (po_entries _ Hp _ _ Hx)).
    - intros (e' & He' & Hs). exists e'. split; [symmetry; by apply (po_entries _ Hp)|].
      apply list_elem_of_filter. split; [done|]. apply list_elem_of_fmap. exists (h, e').
      split; [done|by apply elem_of_map_to_list]. }
  case_bool_decide as Hd.
  - split; [done|]. intros [He Hfree]. apply Hiff in Hd as (e' & He' & (c & Hc & Hsp)%Exists_exists).
    rewrite He in He'. injection He' as <-. by destruct (Hfree c Hc).
  - split; [|tauto]. intros He. split; [done|]. intros c Hc Hsp. apply Hd, Hiff. exists e.
    split; [done|]. apply Exists_exists. eauto.
Qed.

(** ** Snapshots *)

Section snapshot.
Context `{HC : Secp256k1}.

Definition persisted_ok (e : PersistedMempoolEntry) : Prop :=
  (zlen (pe_tx_hash e) = 32 ∧ bytes_ok (pe_tx_hash e)) ∧ u64_ok (pe_received_at e) ∧ tx_ok (pe_tx e).
Definition persisted_wire (e : PersistedMempoolEntry) : bytes :=
  pe_tx_hash e ++ le_bytes 8 (pe_received_at e) ++ wire (pe_tx e).
Definition state_ok (s : PersistedMempoolState) : Prop :=
  zlen (pe_entries s) ≤ MAX_PERSISTED_MEMPOOL_ENTRIES ∧ Forall persisted_ok (pe_entries s).

Lemma read_persisted_parses : parses read_persisted persisted_ok persisted_wire.
Proof.
  unfold read_persisted. eapply parses_equiv.
  - eapply (parses_bind _ _ pe_tx_hash _ (λ _, True)); [apply read_array_parses; lia|]. intros ? ?.
    eapply (parses_bind _ _ pe_received_at); [apply read_u64_parses|]. intros ? ?.
    eapply (parses_bind _ _ pe_tx _ _ (λ _, True) _ (λ _, []));
      [apply (deserialize_parses (T := Transaction))|]. intros ? ?.
    apply parses_ret. intros []. simpl. naive_solver.
  - intros e. unfold persisted_ok. simpl. tauto.
  - intros e _. unfold persisted_wire. simpl. by rewrite app_nil_r.
Qed.

Lemma write_persisted_all l w :
  Forall persisted_ok l → try_fold write_persisted w l = Ok (append w (mjoin (persisted_wire <$> l))).
Proof.
  intros Hl. revert w. induction Hl as [|e l He _ IH]; intros w; cbn [try_fold fmap list_fmap mjoin list_join foldr].
  - by rewrite append_nil.
  - unfold write_persisted at 1, write_u64, write_bytes. destruct He as (_ & _ & Htx).
    rewrite serialize_wire by done. cbn [rbind]. rewrite IH, !append_append. unfold persisted_wire.
    by rewrite <- !app_assoc.
Qed.

Lemma persisted_bytes_ok e : persisted_ok e → bytes_ok (persisted_wire e).
Proof.
  intros ((_ & Hb) & _ & Htx). unfold persisted_wire. rewrite !bytes_ok_app.
  split_and!; [done|apply le_bytes_ok|by apply wire_bytes_ok].
Qed.

#[export, refine] Instance PersistedMempoolState_codec : Codec PersistedMempoolState := {|
  wf := state_ok;
  wire s := le_bytes 4 (zlen (pe_entries s)) ++ mjoin (persisted_wire <$> pe_entries s);
|}.
Proof.
  - intros s w [Hlen Hall]. unfold serialize, PersistedMempoolState_serialize.
    destruct (Z.leb_spec (zlen (pe_entries s)) u32_max) as [_|H];
      [|unfold u32_max, MAX_PERSISTED_MEMPOOL_ENTRIES, MAX_BLOCK_TXS in *; lia].
    rewrite write_persisted_all by done. unfold write_u32. by rewrite append_append.
  - eapply parses_equiv.
    + eapply (parses_bind _ _ (λ s, zlen (pe_entries s)) _ (λ _, True) state_ok _
        (λ s, mjoin (persisted_wire <$> pe_entries s))); [apply read_u32_parses|].
      intros n Hn. apply parses_guard.
      * intros Hb s ((_ & <-) & Hs & _). apply Z.ltb_lt in Hb. lia.
      * intros Hb. apply Z.ltb_ge in Hb. eapply parses_equiv.
        -- eapply (parses_map (read_items read_persisted (Z.to_nat n))
             (λ es, {| pe_entries := es |}) pe_entries); [|done|by intros []].
           apply read_items_parses, read_persisted_parses.
        -- intros s. unfold state_ok, zlen. unfold in_width in Hn. split.
           ++ intros [Hl HF]. split_and!; [done| |lia|done]. lia.
           ++ intros ((_ & <-) & _ & HF). split; [lia|done].
        -- done.
    + intros s. unfold state_ok. simpl. split; [tauto|]. intros (Hl & HF). unfold in_width.
      pose proof (zlen_nonneg (pe_entries s)).
      unfold MAX_PERSISTED_MEMPOOL_ENTRIES, MAX_BLOCK_TXS in *. split_and!; try done; lia.
    + done.
  - intros s [_ Hall]. apply bytes_ok_app. split; [apply le_bytes_ok|].
    induction Hall as [|e l He _ IH]; [constructor|]. cbn. apply bytes_ok_app.
    by split; [apply persisted_bytes_ok|].
  - intros s _. cbn [MIN_SERIALIZED_SIZE PersistedMempoolState_deserialize].
    rewrite zlen_app, zlen_le_bytes.
    pose proof (zlen_nonneg (mjoin (persisted_wire <$> pe_entries s))). lia.
  - done.
Defined.

(** Snapshots are canonical.  The snapshot lists exactly the transactions of the pool in
    the order of their hashes, the same list for every order in which the hash map yields
    them; and every snapshot within the limit is encoded without error and decodes back to
    itself, from that encoding only, while decoding arbitrary bytes never panics. *)
Theorem snapshot_canonical p s bs :
  pool_ok p → bytes_ok bs → zlen bs < 2 ^ 63 →
  (∀ e, e ∈ pe_entries (snapshot p) ↔ ∃ h x, entries p !! h = Some x ∧ e = persisted x) ∧
  (∀ l, l ≡ₚ (map_to_list (entries p)).*2 →
     sort_by_key pe_tx_hash (persisted <$> l) = pe_entries (snapshot p)) ∧
  from_bytes PersistedMempoolState bs ≠ Panic ∧
  (from_bytes PersistedMempoolState bs = Ok s ↔ state_ok s ∧ to_bytes s = Ok bs).
Proof.
  intros Hp Hb Hl. destruct (codec_exact (T := PersistedMempoolState) bs s Hb Hl) as [Hnp Hiff].
  split_and!; [| |done|done].
  - intros e. cbn [snapshot pe_entries]. rewrite sort_by_key_elem, list_elem_of_fmap.
    setoid_rewrite list_elem_of_fmap. split.
    + intros (x & -> & [h y] & -> & Hx%elem_of_map_to_list). eauto.
    + intros (h & x & Hx & ->). exists x. split; [done|]. exists (h, x).
      split; [done|by apply elem_of_map_to_list].
  - intros l Hperm. apply sort_by_key_eq; [|by rewrite Hperm].
    rewrite <- list_fmap_compose. change (NoDup (me_tx_hash <$> l)). rewrite Hperm.
    by apply pool_hashes_distinct.
Qed.
End snapshot.
