(* ===== verification/MempoolExamples.v ===== *)
(** * A concrete pool

    The transaction of block 1 of the concrete chain, admitted on top of block 0. *)

From Stdlib Require Import ZArith Lia.
From stdpp Require Import base list strings gmap sorting.
From S2P Require Import Prelude ByteOrder CoreError Core FeePolicy Serialization CryptoHash Curve.
From S2P Require Import Keys Pedersen Schnorr RangeProof Transaction TransactionLaws BlockHeader.
From S2P Require Import Consensus ConsensusLaws BlockExamples Utxo Store StateM ChainUtxo.
From S2P Require Import ChainState ChainExamples Mempool MempoolLaws.

#[local] Existing Instances sample_blake2b sample_hmac sample_curve sample_h sample_zkp_backend.
#[local] Existing Instances sample_lmdb.

Definition tx1_hash : bytes := blake2b (ok_or_default [] (to_bytes tx1)).
Definition view0 : bytes → Result (option UtxoEntry) := get_utxo store0.
Definition accepted1 : Mempool * Result unit :=
  accept_tx_with_chain_view view0 tx1 tx1_hash 0 1 chain1 1 mempool_new.
Definition pool1 : Mempool := accepted1.1.

Lemma accepted1_ok : accepted1.2 = Ok tt.
Proof. vm_compute. reflexivity. Qed.

Lemma pool1_reachable : rtc pool_step mempool_new pool1.
Proof. apply rtc_once, (step_accept_view view0). Qed.

Lemma tx1_wf : tx_ok tx1.
Proof. exact (Forall_inv (block_ok_txs _ first1_ok)). Qed.

Lemma pool1_ok : pool_ok pool1.
Proof. apply (pool_step_ok mempool_new); [apply (step_accept_view view0)|exact mempool_new_ok]. Qed.

Lemma accepted_is_valid_witness :
  Forall (spendable view0 1 1) (tx_inputs tx1).
Proof.
  assert (H : accept_tx_with_chain_view view0 tx1 tx1_hash 0 1 chain1 1 mempool_new = (pool1, Ok tt)).
  { rewrite <- accepted1_ok. apply surjective_pairing. }
  exact (proj2 (Forall_forall _ _) (proj1 (proj2 (accepted_is_valid view0 tx1 tx1_hash 0 1 chain1 1 mempool_new pool1
    mempool_new_ok tx1_wf ltac:(done) H)))).
Defined.

Lemma pool_always_consistent_witness : pool_ok pool1 ∧ is_Some (entries pool1 !! tx1_hash).
Proof.
  split; [exact (proj1 (pool_always_consistent pool1 pool1_reachable))|].
  refine (bool_decide_unpack _ _). vm_compute. exact I.
Defined.

(** The same pool, capped at the weight it already has *)
Definition capped (p : Mempool) : Mempool :=
  {| entries := entries p; input_index := input_index p; fee_index := fee_index p;
     pool_weight := pool_weight p; max_weight := pool_weight p |}.
Lemma capped_ok p : pool_ok p → pool_ok (capped p).
Proof. intros [H1 H2 H3 H4 H5 H6]. split; cbn; [done..|lia]. Qed.
Definition full_pool : Mempool := capped pool1.
Lemma full_pool_ok : pool_ok full_pool.
Proof. exact (capped_ok _ pool1_ok). Qed.
Definition entry1 : MempoolEntry :=
  ok_or_default {| me_tx := tx1; me_tx_hash := []; me_fee := 0; me_weight := 0; me_fee_rate := 0;
                   me_received_at := 0 |} (entry_new tx1 tx1_hash 0).
Definition room : Mempool * Result unit :=
  make_room (S (size (entries full_pool))) (me_weight entry1) (me_fee_rate entry1) full_pool.

Lemma eviction_terminates_witness : room.2 ≠ Panic ∧ evicted (me_fee_rate entry1) full_pool room.1.
Proof.
  assert (He : entry_new tx1 tx1_hash 0 = Ok entry1) by (apply ok_or_default_eq; vm_compute; reflexivity).
  destruct (eviction_terminates full_pool tx1 tx1_hash 0 room.1 room.2 entry1 full_pool_ok He
    (surjective_pairing _)) as (H1 & H2 & _). exact (conj H1 H2).
Defined.

Lemma block_selection_witness :
  weights (select_for_block pool1 100) ≤ 100 ∧ length (select_for_block pool1 100) = 1%nat.
Proof.
  split; [|vm_compute; reflexivity].
  destruct (block_selection pool1 100 pool1_ok ltac:(done)) as (_ & _ & H & _). exact H.
Defined.

Lemma remove_confirmed_exact_witness :
  pool_ok (remove_confirmed (tx_inputs tx1) pool1) ∧
  entries (remove_confirmed (tx_inputs tx1) pool1) = ∅.
Proof.
  split; [exact (proj1 (remove_confirmed_exact pool1 (tx_inputs tx1) tx1_hash entry1 pool1_ok))|].
  vm_compute. reflexivity.
Defined.

Definition snapshot1 : bytes := ok_or_default [] (to_bytes (snapshot pool1)).
Lemma snapshot_canonical_witness :
  from_bytes PersistedMempoolState snapshot1 = Ok (snapshot pool1) ∧ state_ok (snapshot pool1).
Proof.
  assert (Hb : bytes_ok snapshot1) by (refine (bool_decide_unpack _ _); vm_compute; exact I).
  assert (Hd : from_bytes PersistedMempoolState snapshot1 = Ok (snapshot pool1))
    by (vm_compute; reflexivity).
  split; [exact Hd|].
  destruct (snapshot_canonical pool1 (snapshot pool1) snapshot1 pool1_ok Hb ltac:(vm_compute; reflexivity))
    as (_ & _ & _ & Hiff). exact (proj1 (proj1 Hiff Hd)).
Defined.
