(* ===== verification/Ibd.v ===== *)
(** * Initial block download ([crates/dom-chain/src/ibd.rs])

    The controller of a download session against one peer, and the checkpoint of a session
    in the metadata of the store. *)

From Stdlib Require Import ZArith Lia.
From stdpp Require Import base list strings gmap.
From S2P Require Import Prelude CoreError Core Serialization CryptoHash Curve BlockHeader.
From S2P Require Import Genesis Utxo Store StateM.
Local Open Scope string_scope.
Local Open Scope Z_scope.

Definition MAX_IBD_RETRY_ATTEMPTS : Z := 3.
Definition IBD_SESSION_METADATA_KEY : bytes := str_bytes "ibd_session/v2".
Definition LEGACY_IBD_SESSION_METADATA_KEY : bytes := str_bytes "ibd_session".
Definition IBD_SESSION_FORMAT_VERSION : Z := 2.

Inductive IbdPhase : Type :=
| Idle | Discovering | HeaderSync | BlockSync | Verifying | Recovering | Interrupted
| Completed | Failed.
#[export] Instance IbdPhase_eq_dec : EqDecision IbdPhase.
Proof. solve_decision. Defined.

Inductive IbdInterruption : Type := EmptyResponse | Timeout | PeerDisconnected | Verification.
#[export] Instance IbdInterruption_eq_dec : EqDecision IbdInterruption.
Proof. solve_decision. Defined.

Inductive IbdControl : Type := Continue | Retry | Fail | Complete.

(** ** The checkpoint *)

(** A [String] is its UTF-8 bytes. *)
Record PersistedIbdState : Type := {
  p_phase : IbdPhase;
  p_peer_addr : bytes;
  p_start_height : Z;
  p_best_peer_height : Z;
  p_headers_height : Z;
  p_blocks_height : Z;
  p_last_progress_height : Z;
  p_checkpoint_tip_hash : bytes;
  p_retry_attempts : Z;
  p_last_interruption : option IbdInterruption;
  p_pending_blocks : list bytes;
  p_pending_headers : list bytes;
  p_block_cursor : Z;
  p_header_cursor : Z;
  p_header_cursor_height : Z;
}.

Definition phase_tag (p : IbdPhase) : Z :=
  match p with
  | Idle => 0 | Discovering => 1 | HeaderSync => 2 | BlockSync => 3 | Verifying => 4
  | Recovering => 5 | Interrupted => 6 | Completed => 7 | Failed => 8
  end.
#[export] Instance IbdPhase_serialize : DomSerialize IbdPhase := λ p w, Ok (write_u8 w (phase_tag p)).
Definition phase_of_tag (t : Z) : Result IbdPhase :=
  match t with
  | 0 => Ok Idle | 1 => Ok Discovering | 2 => Ok HeaderSync | 3 => Ok BlockSync
  | 4 => Ok Verifying | 5 => Ok Recovering | 6 => Ok Interrupted | 7 => Ok Completed
  | 8 => Ok Failed
  | other => Err (Malformed ("unknown IBD phase tag " +:+ dec other))
  end.
#[export] Instance IbdPhase_deserialize : DomDeserialize IbdPhase := {|
  MIN_SERIALIZED_SIZE := 1;
  deserialize := read! t := read_u8 in rd_lift (phase_of_tag t);
|}.

Definition interruption_tag (i : IbdInterruption) : Z :=
  match i with EmptyResponse => 0 | Timeout => 1 | PeerDisconnected => 2 | Verification => 3 end.
#[export] Instance IbdInterruption_serialize : DomSerialize IbdInterruption := λ i w,
  Ok (write_u8 w (interruption_tag i)).
Definition interruption_of_tag (t : Z) : Result IbdInterruption :=
  match t with
  | 0 => Ok EmptyResponse | 1 => Ok Timeout | 2 => Ok PeerDisconnected | 3 => Ok Verification
  | other => Err (Malformed ("unknown IBD interruption tag " +:+ dec other))
  end.
#[export] Instance IbdInterruption_deserialize : DomDeserialize IbdInterruption := {|
  MIN_SERIALIZED_SIZE := 1;
  deserialize := read! t := read_u8 in rd_lift (interruption_of_tag t);
|}.

(** The [last_interruption] field: a presence byte and the value *)
Definition write_interruption (o : option IbdInterruption) (w : Writer) : Result Writer :=
  match o with
  | Some i => serialize i (write_u8 w 1)
  | None => Ok (write_u8 w 0)
  end.
Definition read_interruption : Rd (option IbdInterruption) :=
  read! t := read_u8 in
  match t with
  | 0 => rd_ret None
  | 1 => read! i := deserialize (T := IbdInterruption) in rd_ret (Some i)
  | other => rd_fail (Malformed ("invalid persisted interruption presence tag " +:+ dec other))
  end.

Definition write_count (what : string) (w : Writer) (n : Z) : Result Writer :=
  if n <=? u32_max then Ok (write_u32 w n)
  else Err (Malformed ("pending " +:+ what +:+ " count exceeds u32")).
#[export] Instance PersistedIbdState_serialize : DomSerialize PersistedIbdState := λ s w,
  let w := write_u8 w IBD_SESSION_FORMAT_VERSION in
  let? w := serialize (p_phase s) w in
  let? w := write_vec w (p_peer_addr s) in
  let w := write_u64 w (p_start_height s) in
  let w := write_u64 w (p_best_peer_height s) in
  let w := write_u64 w (p_headers_height s) in
  let w := write_u64 w (p_blocks_height s) in
  let w := write_u64 w (p_last_progress_height s) in
  let w := write_bytes w (p_checkpoint_tip_hash s) in
  let w := write_u8 w (p_retry_attempts s) in
  let? w := write_interruption (p_last_interruption s) w in
  let? w := write_count "block" w (zlen (p_pending_blocks s)) in
  let w := foldl write_bytes w (p_pending_blocks s) in
  let? w := write_count "header" w (zlen (p_pending_headers s)) in
  let? w := try_fold write_vec w (p_pending_headers s) in
  let w := write_u32 w (p_block_cursor s) in
  let w := write_u32 w (p_header_cursor s) in
  Ok (write_u64 w (p_header_cursor_height s)).

(** [String::from_utf8] with the text of its error: where the valid prefix ends and how
    many bytes of an ill-formed sequence follow, if it is not merely cut short *)
Definition second_ok (b0 b1 : Z) : bool :=
  in_range 0xc2 b0 0xdf && utf8_tail b1
  || (b0 =? 0xe0) && in_range 0xa0 b1 0xbf || in_range 0xe1 b0 0xec && utf8_tail b1
  || (b0 =? 0xed) && in_range 0x80 b1 0x9f || in_range 0xee b0 0xef && utf8_tail b1
  || (b0 =? 0xf0) && in_range 0x90 b1 0xbf || in_range 0xf1 b0 0xf3 && utf8_tail b1
  || (b0 =? 0xf4) && in_range 0x80 b1 0x8f.
Fixpoint utf8_error (pos : Z) (l : bytes) : option (Z * option Z) :=
  match l with
  | [] => None
  | b0 :: t0 =>
      if b0 <=? 0x7f then utf8_error (pos + 1) t0
      else if negb (in_range 0xc2 b0 0xf4) then Some (pos, Some 1)
      else
        match t0 with
        | [] => Some (pos, None)
        | b1 :: t1 =>
            if negb (second_ok b0 b1) then Some (pos, Some 1)
            else if b0 <=? 0xdf then utf8_error (pos + 2) t1
            else
              match t1 with
              | [] => Some (pos, None)
              | b2 :: t2 =>
                  if negb (utf8_tail b2) then Some (pos, Some 2)
                  else if b0 <=? 0xef then utf8_error (pos + 3) t2
                  else
                    match t2 with
                    | [] => Some (pos, None)
                    | b3 :: t3 =>
                        if negb (utf8_tail b3) then Some (pos, Some 3)
                        else utf8_error (pos + 4) t3
                    end
              end
        end
  end.
Definition display_utf8_error (e : Z * option Z) : string :=
  match e.2 with
  | Some n => "invalid utf-8 sequence of " +:+ dec n +:+ " bytes from index " +:+ dec e.1
  | None => "incomplete utf-8 byte sequence from index " +:+ dec e.1
  end.
Definition check_peer_addr (b : bytes) : Result bytes :=
  match utf8_error 0 b with
  | None => Ok b
  | Some e => Err (Malformed ("invalid persisted peer addr utf8: " +:+ display_utf8_error e))
  end.

Definition read_count (what : string) : Rd Z :=
  read! n := read_u32 in
  if MAX_HEADERS_PER_MSG <? n then
    rd_fail (Malformed ("persisted pending " +:+ what +:+ " count " +:+ dec n +:+ " exceeds limit "
                        +:+ dec MAX_HEADERS_PER_MSG))
  else rd_ret n.
Definition read_cursor (what : string) (count : Z) : Rd Z :=
  read! c := read_u32 in
  if count <? c then
    rd_fail (Malformed ("persisted " +:+ what +:+ " cursor " +:+ dec c +:+ " exceeds pending "
                        +:+ what +:+ " count " +:+ dec count))
  else rd_ret c.

Definition check_snapshot (s : PersistedIbdState) : Result PersistedIbdState :=
  if (p_blocks_height s <? p_start_height s) || (p_last_progress_height s <? p_blocks_height s)
     || (p_headers_height s <? p_last_progress_height s) then
    Err (Malformed ("ibd state: non-monotonic heights (start=" +:+ dec (p_start_height s)
                    +:+ ", last_progress=" +:+ dec (p_last_progress_height s)
                    +:+ ", blocks=" +:+ dec (p_blocks_height s)
                    +:+ ", headers=" +:+ dec (p_headers_height s) +:+ ")"))
  else if MAX_IBD_RETRY_ATTEMPTS <? p_retry_attempts s then
    Err (Malformed ("ibd state: retry_attempts " +:+ dec (p_retry_attempts s) +:+ " exceeds max "
                    +:+ dec MAX_IBD_RETRY_ATTEMPTS))
  else Ok s.
#[export] Instance PersistedIbdState_deserialize : DomDeserialize PersistedIbdState := {|
  MIN_SERIALIZED_SIZE :=
    1 + MIN_SERIALIZED_SIZE IbdPhase + 4 + 8 + 8 + 8 + 8 + 8 + 32 + 1 + 1 + 4 + 4 + 4 + 4 + 8;
  deserialize :=
    read! version := read_u8 in
    if negb (version =? IBD_SESSION_FORMAT_VERSION) then
      rd_fail (Malformed ("unsupported persisted IBD format version " +:+ dec version))
    else
    read! phase := deserialize (T := IbdPhase) in
    read! peer_addr_bytes := read_vec 128 in
    read! peer_addr := rd_lift (check_peer_addr peer_addr_bytes) in
    read! start_height := read_u64 in
    read! best_peer_height := read_u64 in
    read! headers_height := read_u64 in
    read! blocks_height := read_u64 in
    read! last_progress_height := read_u64 in
    read! checkpoint_tip_hash := read_array 32 in
    read! retry_attempts := read_u8 in
    read! last_interruption := read_interruption in
    read! pending_len := read_count "block" in
    read! pending_blocks := read_items (read_array 32) (Z.to_nat pending_len) in
    read! pending_headers_len := read_count "header" in
    read! pending_headers := read_items (read_vec 1024) (Z.to_nat pending_headers_len) in
    read! block_cursor := read_cursor "block" (zlen pending_blocks) in
    read! header_cursor := read_cursor "header" (zlen pending_headers) in
    read! header_cursor_height := read_u64 in
    rd_lift (check_snapshot
      {| p_phase := phase; p_peer_addr := peer_addr; p_start_height := start_height;
         p_best_peer_height := best_peer_height; p_headers_height := headers_height;
         p_blocks_height := blocks_height; p_last_progress_height := last_progress_height;
         p_checkpoint_tip_hash := checkpoint_tip_hash; p_retry_attempts := retry_attempts;
         p_last_interruption := last_interruption; p_pending_blocks := pending_blocks;
         p_pending_headers := pending_headers; p_block_cursor := block_cursor;
         p_header_cursor := header_cursor; p_header_cursor_height := header_cursor_height |});
|}.

Section checkpoint.
Context `{HL : Lmdb}.

Definition save (s : PersistedIbdState) : M DomStore unit :=
  run! b := (λ _, to_bytes s) in
  do! _ := st_update (λ store, put_metadata store IBD_SESSION_METADATA_KEY b) in
  st_update (λ store, delete_metadata store LEGACY_IBD_SESSION_METADATA_KEY).
Definition from_legacy_bytes (b : bytes) : Result PersistedIbdState :=
  from_bytes PersistedIbdState (IBD_SESSION_FORMAT_VERSION :: b).
Definition load : M DomStore (option PersistedIbdState) :=
  run! r := (λ store, get_metadata store IBD_SESSION_METADATA_KEY) in
  match r with
  | Some b => run! s := (λ _, from_bytes PersistedIbdState b) in st_ret (Some s)
  | None =>
      run! r := (λ store, get_metadata store LEGACY_IBD_SESSION_METADATA_KEY) in
      match r with
      | Some b =>
          run! migrated := (λ _, from_legacy_bytes b) in
          do! _ := save migrated in
          st_ret (Some migrated)
      | None => st_ret None
      end
  end.
Definition clear : M DomStore unit :=
  do! _ := st_update (λ store, delete_metadata store IBD_SESSION_METADATA_KEY) in
  st_update (λ store, delete_metadata store LEGACY_IBD_SESSION_METADATA_KEY).
End checkpoint.

Definition is_round_resumable (s : PersistedIbdState) : bool :=
  if (zlen (p_pending_blocks s) <? p_block_cursor s)
     || (zlen (p_pending_headers s) <? p_header_cursor s) then false
  else
    match p_phase s with
    | HeaderSync => p_block_cursor s =? 0
    | BlockSync | Verifying => p_header_cursor s =? 0
    | _ => match p_pending_headers s with
           | [] => p_header_cursor s =? 0
           | _ => p_block_cursor s =? 0
           end
    end.

(** ** The controller *)

Record IbdState : Type := {
  phase : IbdPhase;
  start_height : Z;
  headers_height : Z;
  blocks_height : Z;
  best_peer_height : Z;
  pending_blocks : list bytes;
  retry_attempts : Z;
  last_progress_height : Z;
  last_interruption : option IbdInterruption;
}.

Definition with_phase (p : IbdPhase) (s : IbdState) : IbdState :=
  {| phase := p; start_height := start_height s; headers_height := headers_height s;
     blocks_height := blocks_height s; best_peer_height := best_peer_height s;
     pending_blocks := pending_blocks s; retry_attempts := retry_attempts s;
     last_progress_height := last_progress_height s; last_interruption := last_interruption s |}.

Definition ibd_new (start_height best_peer_height : Z) : IbdState :=
  {| phase := if best_peer_height <=? start_height then Completed else Idle;
     start_height := start_height; headers_height := start_height; blocks_height := start_height;
     best_peer_height := best_peer_height; pending_blocks := []; retry_attempts := 0;
     last_progress_height := start_height; last_interruption := None |}.

Definition from_persisted (p : PersistedIbdState) : Result IbdState :=
  if negb (is_round_resumable p) then
    Err (PolicyRejected "persisted IBD snapshot has invalid round cursor")
  else
    Ok {| phase := p_phase p; start_height := p_start_height p; headers_height := p_headers_height p;
          blocks_height := p_blocks_height p; best_peer_height := p_best_peer_height p;
          pending_blocks := p_pending_blocks p; retry_attempts := p_retry_attempts p;
          last_progress_height := p_last_progress_height p;
          last_interruption := p_last_interruption p |}.

Definition is_complete (s : IbdState) : bool := bool_decide (phase s = Completed).
Definition is_failed (s : IbdState) : bool := bool_decide (phase s = Failed).
Definition is_terminal (s : IbdState) : bool := is_complete s || is_failed s.

Definition begin_session (s : IbdState) : IbdState * IbdControl :=
  if best_peer_height s <=? blocks_height s then (with_phase Completed s, Complete)
  else (with_phase Discovering s, Continue).
Definition begin_header_sync (s : IbdState) : IbdState :=
  if is_terminal s then s else with_phase HeaderSync s.
Definition begin_block_sync (s : IbdState) : IbdState :=
  if is_terminal s then s else with_phase BlockSync s.
Definition begin_verification (s : IbdState) : IbdState :=
  if is_terminal s then s else with_phase Verifying s.

Inductive IbdAction : Type := RequestMoreHeaders (from : Z) | StartBlockDownload | IbdComplete.

Definition compute_hash `{HB : Blake2b256} (data : bytes) : bytes := blake2b data.

Definition header_step `{HB : Blake2b256} (acc : Z * list bytes) (h : BlockHeader)
  : Result (Z * list bytes) :=
  let '(last_height, new_hashes) := acc in
  let? expected := add_ovf 64 last_height 1 in
  if negb (height_val (height h) =? expected) then
    Err (Invalid ("header gap: expected height " +:+ dec expected +:+ ", got "
                  +:+ dec (height_val (height h))))
  else
    let header_bytes := match to_bytes h with Ok b => b | _ => [] end in
    Ok (height_val (height h), (new_hashes ++ [compute_hash header_bytes])%list).

Definition headers_action (s : IbdState) : IbdState * IbdAction :=
  if best_peer_height s <=? headers_height s then (with_phase BlockSync s, StartBlockDownload)
  else (s, RequestMoreHeaders (headers_height s)).
Definition process_headers `{HB : Blake2b256} (headers : list BlockHeader) (_now : Timestamp)
    (s0 : IbdState) : IbdState * Result IbdAction :=
  let s := begin_header_sync s0 in
  match headers with
  | [] => let '(s', a) := headers_action s in (s', Ok a)
  | _ =>
      match try_fold header_step (headers_height s, []) headers with
      | Ok (last_height, new_hashes) =>
          let '(s', a) := headers_action
            {| phase := phase s; start_height := start_height s; headers_height := last_height;
               blocks_height := blocks_height s; best_peer_height := best_peer_height s;
               pending_blocks := (pending_blocks s ++ new_hashes)%list;
               retry_attempts := retry_attempts s; last_progress_height := last_progress_height s;
               last_interruption := last_interruption s |} in
          (s', Ok a)
      | Err e => (s, Err e)
      | Panic => (s, Panic)
      end
  end.

Definition mark_block_committed (h : Z) (s : IbdState) : IbdState :=
  let blocks := Z.max (blocks_height s) h in
  let done := best_peer_height s <=? blocks in
  {| phase := if done then Completed else phase s; start_height := start_height s;
     headers_height := Z.max (headers_height s) h; blocks_height := blocks;
     best_peer_height := best_peer_height s; pending_blocks := pending_blocks s;
     retry_attempts := retry_attempts s;
     last_progress_height := if done then blocks else last_progress_height s;
     last_interruption := last_interruption s |}.

Definition drain_pending_blocks (max : Z) (s : IbdState) : IbdState * list bytes :=
  let n := Z.to_nat (Z.min max (zlen (pending_blocks s))) in
  ({| phase := phase s; start_height := start_height s; headers_height := headers_height s;
      blocks_height := blocks_height s; best_peer_height := best_peer_height s;
      pending_blocks := drop n (pending_blocks s); retry_attempts := retry_attempts s;
      last_progress_height := last_progress_height s; last_interruption := last_interruption s |},
   take n (pending_blocks s)).

Definition note_round_progress (h : Z) (s0 : IbdState) : IbdState * IbdControl :=
  let s := begin_verification s0 in
  let blocks := Z.max (blocks_height s) h in
  let s' := {| phase := phase s; start_height := start_height s;
               headers_height := Z.max (headers_height s) h; blocks_height := blocks;
               best_peer_height := best_peer_height s; pending_blocks := pending_blocks s;
               retry_attempts := 0; last_progress_height := blocks; last_interruption := None |} in
  if best_peer_height s' <=? blocks then (with_phase Completed s', Complete)
  else (with_phase Discovering s', Continue).

Definition note_interruption (i : IbdInterruption) (s : IbdState) : IbdState * IbdControl :=
  let attempts := saturating_add 8 (retry_attempts s) 1 in
  let s' := {| phase := Interrupted; start_height := start_height s;
               headers_height := headers_height s; blocks_height := blocks_height s;
               best_peer_height := best_peer_height s; pending_blocks := pending_blocks s;
               retry_attempts := attempts; last_progress_height := last_progress_height s;
               last_interruption := Some i |} in
  if MAX_IBD_RETRY_ATTEMPTS <? attempts then (with_phase Failed s', Fail)
  else (with_phase Recovering s', Retry).

Definition note_empty_response (s : IbdState) : IbdState * IbdControl :=
  if best_peer_height s <=? blocks_height s then (with_phase Completed s, Complete)
  else note_interruption EmptyResponse s.

(** [msg.contains("idle timeout")] *)
Definition note_round_error (error : DomError) (s : IbdState) : IbdState * IbdControl :=
  match error with
  | TemporarilyInvalid _ => note_interruption Timeout s
  | PolicyRejected msg =>
      if str_contains "idle timeout" msg then note_interruption Timeout s
      else (with_phase Failed s, Fail)
  | Orphan _ | Internal _ => note_interruption PeerDisconnected s
  | Invalid _ | Malformed _ | Misbehavior _ _ => (with_phase Failed s, Fail)
  end.

Definition remaining_retries (s : IbdState) : Z :=
  saturating_sub MAX_IBD_RETRY_ATTEMPTS (retry_attempts s).
