(* ===== verification/IbdLaws.v ===== *)
(** * Properties of initial block download

    The byte format of a checkpoint, the heights and retries of a session, and how long a
    session lasts. *)

From Stdlib Require Import ZArith Lia.
From stdpp Require Import base list strings gmap relations.
From S2P Require Import Prelude CoreError Core Serialization CryptoHash Curve BlockHeader.
From S2P Require Import Genesis Utxo Store StoreLaws StateM Ledger ChainLaws Ibd.

(** ** The byte format of a checkpoint *)

(** A tag byte for each value of a finite type *)
Lemma tag_parses {A} (tag : A → Z) (of_tag : Z → Result A) :
  (∀ a, u8_ok (tag a)) → (∀ t, of_tag t ≠ Panic) → (∀ t a, of_tag t = Ok a ↔ t = tag a) →
  parses (read! t := read_u8 in rd_lift (of_tag t)) (λ _, True) (λ a, [tag a]).
Proof.
  intros Hok Hnp Hiff. eapply parses_equiv.
  - eapply (parses_bind _ _ tag _ (λ _, True) (λ _, True) _ (λ _, [])); [apply read_u8_parses|].
    intros t Ht. apply parses_lift_ret; [done|]. intros a. rewrite Hiff. naive_solver.
  - intros a. specialize (Hok a). tauto.
  - done.
Qed.

Lemma phase_of_tag_iff t p : phase_of_tag t = Ok p ↔ t = phase_tag p.
Proof.
  split; [|intros ->; by destruct p]. unfold phase_of_tag.
  destruct t as [|t|t]; [by intros [= <-]| |done].
  repeat (destruct t as [t|t|]; try done); by intros [= <-].
Qed.
Lemma interruption_of_tag_iff t i : interruption_of_tag t = Ok i ↔ t = interruption_tag i.
Proof.
  split; [|intros ->; by destruct i]. unfold interruption_of_tag.
  destruct t as [|t|t]; [by intros [= <-]| |done].
  repeat (destruct t as [t|t|]; try done); by intros [= <-].
Qed.
Lemma phase_of_tag_no_panic t : phase_of_tag t ≠ Panic.
Proof. unfold phase_of_tag. destruct t as [|t|t]; try done. repeat (destruct t as [t|t|]; try done). Qed.
Lemma interruption_of_tag_no_panic t : interruption_of_tag t ≠ Panic.
Proof.
  unfold interruption_of_tag. destruct t as [|t|t]; try done. repeat (destruct t as [t|t|]; try done).
Qed.

#[export, refine] Instance IbdPhase_codec : Codec IbdPhase :=
  {| wf := λ _, True; wire p := [phase_tag p] |}.
Proof.
  - done.
  - apply tag_parses; [by intros []|apply phase_of_tag_no_panic|apply phase_of_tag_iff].
  - intros p _. apply bytes_ok_cons. split; [by destruct p|constructor].
  - done.
  - done.
Defined.
#[export, refine] Instance IbdInterruption_codec : Codec IbdInterruption :=
  {| wf := λ _, True; wire i := [interruption_tag i] |}.
Proof.
  - done.
  - apply tag_parses; [by intros []|apply interruption_of_tag_no_panic|apply interruption_of_tag_iff].
  - intros i _. apply bytes_ok_cons. split; [by destruct i|constructor].
  - done.
  - done.
Defined.

Definition interruption_wire (o : option IbdInterruption) : bytes :=
  match o with Some i => [1; interruption_tag i] | None => [0] end.
Lemma read_interruption_parses : parses read_interruption (λ _, True) interruption_wire.
Proof.
  unfold read_interruption. eapply parses_equiv.
  - eapply (parses_bind _ _ (λ o : option IbdInterruption, match o with Some _ => 1 | None => 0 end) _ (λ _, True) (λ _, True) _
      (λ o, match o with Some i => [interruption_tag i] | None => [] end)); [apply read_u8_parses|].
    intros t Ht. destruct t as [|[t|t|]|t].
    2,3,5: intros r Hr; split; [done|]; intros [] r'; split; [done|intros [((_ & H) & _) _]; lia |
             done|intros [((_ & H) & _) _]; lia].
    + eapply parses_equiv; [apply (parses_ret None (λ o, o = None)); done| |].
      * intros []; naive_solver.
      * by intros ? ->.
    + eapply parses_equiv.
      * eapply (parses_bind _ _ (λ o, default EmptyResponse o) _ is_Some (λ _, True) _ (λ _, []));
          [apply (deserialize_parses (T := IbdInterruption))|].
        intros i _. apply parses_ret. intros [j|]; cbn; [naive_solver|].
        split; [intros [[(? & [=]) _] _]|done].
      * intros [i|]; cbn; [naive_solver|]. split; [intros [(? & [=]) _]|intros ((_ & [=]) & _)].
      * intros [i|] [(? & [=]) _]. by cbn.
  - intros []; cbn; unfold in_width; split; try tauto; intros _; repeat split; lia.
  - by intros [].
Qed.

Section counted.
Context {A : Type} (what : string) (d : Rd A) (P : A → Prop) (w : A → bytes).

Definition counted (l : list A) : Prop := zlen l ≤ MAX_HEADERS_PER_MSG ∧ Forall P l.
Definition counted_wire (l : list A) : bytes := le_bytes 4 (zlen l) ++ mjoin (w <$> l).

Lemma counted_parses :
  parses d P w →
  parses (read! n := read_count what in read_items d (Z.to_nat n)) counted counted_wire.
Proof.
  intros Hd. eapply parses_equiv.
  - eapply (parses_bind _ _ zlen (λ n, u32_ok n ∧ n ≤ MAX_HEADERS_PER_MSG) (λ _, True) (Forall P) _
      (λ l, mjoin (w <$> l))).
    + unfold read_count. eapply parses_equiv.
      * eapply (parses_bind _ _ id _ (λ _, True) (λ n, n ≤ MAX_HEADERS_PER_MSG) _ (λ _, []));
          [apply read_u32_parses|].
        intros n Hn. apply parses_guard.
        -- intros Hb m ((_ & <-) & Hm). unfold id in *. apply Z.ltb_lt in Hb. lia.
        -- intros Hb. apply Z.ltb_ge in Hb. apply parses_ret. unfold id. naive_solver.
      * intros n. unfold id. tauto.
      * intros n _. apply app_nil_r.
    + intros n [Hn _]. unfold in_width in Hn. eapply parses_equiv; [by apply read_items_parses| |done].
      intros l. unfold zlen. split; [intros [? ?]; split_and!; [done|lia|done]|].
      intros ((_ & <-) & ?). split; [lia|done].
  - intros l. unfold counted, in_width. pose proof (zlen_nonneg l). unfold MAX_HEADERS_PER_MSG.
    split; [tauto|]. intros [? ?]. split_and!; [done|lia|lia|lia|done].
  - done.
Qed.

Lemma counted_bind {T} (k : list A → Rd T) (f : T → list A) (C R : T → Prop) v :
  parses d P w →
  (∀ l, counted l → parses (k l) (λ t, (C t ∧ f t = l) ∧ R t) v) →
  parses (read! n := read_count what in read! l := read_items d (Z.to_nat n) in k l)
    (λ t, C t ∧ counted (f t) ∧ R t) (λ t, counted_wire (f t) ++ v t).
Proof.
  intros Hd Hk. eapply parses_ext; [intros r; apply (rd_bind_assoc (read_count what))|].
  apply parses_bind; [by apply counted_parses|done].
Qed.
End counted.

Lemma cursor_bind {T} what count (k : Z → Rd T) (f : T → Z) (C R : T → Prop) v :
  (∀ c, u32_ok c → c ≤ count → parses (k c) (λ t, (C t ∧ f t = c) ∧ R t) v) →
  (∀ t, C t → R t → f t ≤ count) →
  parses (rd_bind (read_cursor what count) k) (λ t, C t ∧ u32_ok (f t) ∧ R t)
    (λ t, le_bytes 4 (f t) ++ v t).
Proof.
  intros Hk HR. unfold read_cursor.
  eapply parses_ext; [intros r; symmetry; apply rd_bind_assoc|].
  apply parses_bind; [apply read_u32_parses|]. intros c Hc.
  eapply (parses_ext (if count <? c then rd_fail _ else k c));
    [intros r; by destruct (count <? c)|].
  apply parses_guard.
  - intros Hb t ((HC & <-) & Ht). apply Z.ltb_lt in Hb. specialize (HR t HC Ht). lia.
  - intros Hb. apply Z.ltb_ge in Hb. auto.
Qed.

Record snapshot_ok (s : PersistedIbdState) : Prop := {
  so_addr : vec_ok 128 (p_peer_addr s);
  so_utf8 : utf8_error 0 (p_peer_addr s) = None;
  so_start : u64_ok (p_start_height s);
  so_best : u64_ok (p_best_peer_height s);
  so_headers : u64_ok (p_headers_height s);
  so_blocks : u64_ok (p_blocks_height s);
  so_progress : u64_ok (p_last_progress_height s);
  so_hash : zlen (p_checkpoint_tip_hash s) = 32 ∧ bytes_ok (p_checkpoint_tip_hash s);
  so_retries_width : u8_ok (p_retry_attempts s);
  so_pending : counted (λ b, zlen b = 32 ∧ bytes_ok b) (p_pending_blocks s);
  so_pending_headers : counted (vec_ok 1024) (p_pending_headers s);
  so_block_cursor : u32_ok (p_block_cursor s) ∧ p_block_cursor s ≤ zlen (p_pending_blocks s);
  so_header_cursor : u32_ok (p_header_cursor s) ∧ p_header_cursor s ≤ zlen (p_pending_headers s);
  so_cursor_height : u64_ok (p_header_cursor_height s);
  so_heights : p_start_height s ≤ p_blocks_height s ≤ p_last_progress_height s ∧
               p_last_progress_height s ≤ p_headers_height s;
  so_retries : p_retry_attempts s ≤ MAX_IBD_RETRY_ATTEMPTS;
}.

(** What the decoder checks of a snapshot beyond the width of its fields *)
Definition snapshot_checks (s : PersistedIbdState) : Prop :=
  utf8_error 0 (p_peer_addr s) = None ∧
  p_block_cursor s ≤ zlen (p_pending_blocks s) ∧ p_header_cursor s ≤ zlen (p_pending_headers s) ∧
  (p_start_height s ≤ p_blocks_height s ≤ p_last_progress_height s ∧
   p_last_progress_height s ≤ p_headers_height s) ∧ p_retry_attempts s ≤ MAX_IBD_RETRY_ATTEMPTS.

Lemma check_snapshot_Ok s c :
  check_snapshot s = Ok c ↔
  c = s ∧ (p_start_height s ≤ p_blocks_height s ≤ p_last_progress_height s ∧
           p_last_progress_height s ≤ p_headers_height s) ∧
  p_retry_attempts s ≤ MAX_IBD_RETRY_ATTEMPTS.
Proof.
  unfold check_snapshot. split.
  - destruct (_ || _) eqn:Hb; [done|].
    destruct (MAX_IBD_RETRY_ATTEMPTS <? _) eqn:Hr; [done|]. intros H.
    injection H as <-. zbool. split_and!; done || lia.
  - intros (-> & Hh & Hr). destruct (_ || _) eqn:Hb.
    + apply orb_true_iff in Hb as [[Hb|Hb]%orb_true_iff|Hb]; apply Z.ltb_lt in Hb; lia.
    + destruct (MAX_IBD_RETRY_ATTEMPTS <? _) eqn:Hr'; [zbool; lia|done].
Qed.

Definition snapshot_wire (s : PersistedIbdState) : bytes :=
  [IBD_SESSION_FORMAT_VERSION] ++ [phase_tag (p_phase s)] ++ vec_wire (p_peer_addr s)
  ++ le_bytes 8 (p_start_height s) ++ le_bytes 8 (p_best_peer_height s)
  ++ le_bytes 8 (p_headers_height s) ++ le_bytes 8 (p_blocks_height s)
  ++ le_bytes 8 (p_last_progress_height s) ++ p_checkpoint_tip_hash s
  ++ [p_retry_attempts s] ++ interruption_wire (p_last_interruption s)
  ++ counted_wire id (p_pending_blocks s) ++ counted_wire vec_wire (p_pending_headers s)
  ++ le_bytes 4 (p_block_cursor s) ++ le_bytes 4 (p_header_cursor s)
  ++ le_bytes 8 (p_header_cursor_height s).

Lemma read_snapshot_parses :
  parses (deserialize (T := PersistedIbdState)) snapshot_ok snapshot_wire.
Proof.
  cbn [deserialize PersistedIbdState_deserialize]. eapply parses_equiv.
  - eapply (parses_bind _ _ (λ _, IBD_SESSION_FORMAT_VERSION) _ (λ _, True)); [apply read_u8_parses|].
    intros version _. apply parses_guard.
    { intros Hb s ((_ & <-) & _). by rewrite Z.eqb_refl in Hb. }
    intros ->%negb_false_iff%Z.eqb_eq.
    eapply (parses_bind _ _ p_phase); [apply (deserialize_parses (T := IbdPhase))|]. intros ? _.
    eapply (parses_bind _ _ p_peer_addr); [apply read_vec_parses|]. intros addr _.
    apply parses_lift; [unfold check_peer_addr; by destruct (utf8_error 0 addr) as [[]|]|..].
    + unfold check_peer_addr. intros ? Hc. destruct (utf8_error 0 addr) as [|] eqn:Hutf; [done|].
      injection Hc as <-.
      eapply (parses_bind _ _ p_start_height); [apply read_u64_parses|]. intros ? _.
      eapply (parses_bind _ _ p_best_peer_height); [apply read_u64_parses|]. intros ? _.
      eapply (parses_bind _ _ p_headers_height); [apply read_u64_parses|]. intros ? _.
      eapply (parses_bind _ _ p_blocks_height); [apply read_u64_parses|]. intros ? _.
      eapply (parses_bind _ _ p_last_progress_height); [apply read_u64_parses|]. intros ? _.
      eapply (parses_bind _ _ p_checkpoint_tip_hash); [apply read_array_parses; lia|]. intros ? _.
      eapply (parses_bind _ _ p_retry_attempts); [apply read_u8_parses|]. intros ? _.
      eapply (parses_bind _ _ p_last_interruption); [apply read_interruption_parses|]. intros ? _.
      eapply (counted_bind _ _ _ _ _ p_pending_blocks); [apply read_array_parses; lia|]. intros ? _.
      eapply (counted_bind _ _ _ _ _ p_pending_headers); [apply read_vec_parses|]. intros ? _.
      eapply (cursor_bind _ _ _ p_block_cursor).
      * intros ? _ Hbc. eapply (cursor_bind _ _ _ p_header_cursor).
        -- intros ? _ Hhc.
           eapply (parses_bind _ _ p_header_cursor_height _ _ snapshot_checks _ (λ _, []));
             [apply read_u64_parses|]. intros ? _.
           apply parses_lift_ret; [unfold check_snapshot; repeat case_match; done|].
           intros s. rewrite check_snapshot_Ok. cbn. split.
           ++ intros (-> & Hh & Hr). cbn. unfold snapshot_checks. cbn. split_and!; done || tauto.
           ++ destruct s. cbn. unfold snapshot_checks. cbn. intros (Hc & _ & _ & _ & Hh & Hr).
              repeat match goal with H : _ ∧ _ |- _ => destruct H end. subst. tauto.
        -- intros s Hc (_ & _ & _ & Hle & _). cbn in Hc.
           repeat match goal with H : _ ∧ _ |- _ => destruct H end. by subst.
      * intros s Hc (_ & _ & _ & Hle & _). cbn in Hc.
        repeat match goal with H : _ ∧ _ |- _ => destruct H end. by subst.
    + unfold check_peer_addr. intros Hno s ((_ & <-) & HR).
      destruct (utf8_error 0 (p_peer_addr s)) eqn:Hutf; [|by destruct (Hno (p_peer_addr s))].
      unfold snapshot_checks in HR. intuition congruence.
  - intros s. cbn. unfold snapshot_checks. split.
    + intros H. constructor; tauto.
    + intros []. split_and!; done || tauto.
  - intros s _. unfold snapshot_wire. cbn -[le_bytes]. by rewrite app_nil_r.
Qed.

Lemma write_hashes l w : foldl write_bytes w l = append w (mjoin (id <$> l)).
Proof.
  revert w. induction l as [|b l IH]; intros w; [by rewrite append_nil|]. cbn [foldl].
  rewrite IH. unfold write_bytes. by rewrite append_append.
Qed.
Lemma write_vecs n l w :
  Forall (vec_ok n) l → try_fold write_vec w l = Ok (append w (mjoin (vec_wire <$> l))).
Proof.
  intros Hl. revert w. induction Hl as [|b l Hb _ IH]; intros w; cbn [try_fold fmap list_fmap].
  - by rewrite append_nil.
  - rewrite (write_vec_ok n) by done. cbn [rbind]. rewrite IH, append_append. done.
Qed.
Lemma write_count_ok what w n : n ≤ MAX_HEADERS_PER_MSG → write_count what w n = Ok (append w (le_bytes 4 n)).
Proof.
  intros Hn. unfold write_count, u32_max, MAX_HEADERS_PER_MSG in *.
  by destruct (Z.leb_spec n (2 ^ 32 - 1)); [|lia].
Qed.
Lemma write_interruption_ok o w : write_interruption o w = Ok (append w (interruption_wire o)).
Proof.
  destruct o as [i|]; [|done]. unfold write_interruption, serialize, IbdInterruption_serialize, write_u8.
  by rewrite append_append.
Qed.

Lemma mjoin_bytes_ok {A} (w : A → bytes) l : Forall (λ x, bytes_ok (w x)) l → bytes_ok (mjoin (w <$> l)).
Proof. induction 1; [constructor|]. cbn. by apply bytes_ok_app. Qed.
Lemma counted_wire_ok {A} (P : A → Prop) w l :
  (∀ x, P x → bytes_ok (w x)) → counted P l → bytes_ok (counted_wire w l).
Proof.
  intros Hw [_ Hl]. apply bytes_ok_app. split; [apply le_bytes_ok|].
  apply mjoin_bytes_ok. eapply Forall_impl; eauto.
Qed.
Lemma counted_wire_size {A} (w : A → bytes) l : 4 ≤ zlen (counted_wire w l).
Proof. unfold counted_wire. rewrite zlen_app, zlen_le_bytes. pose proof (zlen_nonneg (mjoin (w <$> l))). lia. Qed.

#[export, refine] Instance PersistedIbdState_codec : Codec PersistedIbdState :=
  {| wf := snapshot_ok; wire := snapshot_wire |}.
Proof.
  - intros s w []. unfold serialize at 1, PersistedIbdState_serialize.
    rewrite serialize_wire by done. cbn [rbind]. rewrite (write_vec_ok 128) by done. cbn [rbind].
    rewrite write_interruption_ok. cbn [rbind]. rewrite write_count_ok by apply so_pending0.
    cbn [rbind]. rewrite write_hashes, write_count_ok by apply so_pending_headers0. cbn [rbind].
    rewrite (write_vecs 1024) by apply so_pending_headers0. cbn [rbind].
    unfold write_u8, write_u32, write_u64, write_bytes. rewrite !append_append.
    unfold snapshot_wire, counted_wire. by rewrite <- !app_assoc.
  - apply read_snapshot_parses.
  - intros s []. unfold snapshot_wire. rewrite !bytes_ok_app. split_and!; try apply le_bytes_ok.
    + apply bytes_ok_cons. split; [done|constructor].
    + apply bytes_ok_cons. split; [by destruct (p_phase s)|constructor].
    + by apply (vec_wire_ok 128).
    + apply so_hash0.
    + apply bytes_ok_cons. split; [done|constructor].
    + destruct (p_last_interruption s) as [[]|]; by repeat constructor.
    + by eapply counted_wire_ok; [|done]; cbn; intros ? [_ ?].
    + by eapply counted_wire_ok; [|done]; apply vec_wire_ok.
  - intros s []. cbn [MIN_SERIALIZED_SIZE PersistedIbdState_deserialize IbdPhase_deserialize].
    unfold snapshot_wire. rewrite !zlen_app, !zlen_le_bytes, zlen_vec_wire, (proj1 so_hash0).
    pose proof (counted_wire_size id (p_pending_blocks s)).
    pose proof (counted_wire_size vec_wire (p_pending_headers s)).
    pose proof (zlen_nonneg (p_peer_addr s)).
    assert (1 ≤ zlen (interruption_wire (p_last_interruption s)))
      by (by destruct (p_last_interruption s) as [[]|]).
    change (zlen [_]) with 1. lia.
  - done.
Defined.

(** ** Checkpoints in the store *)

Lemma mjoin_size {A} (w : A → bytes) (k : Z) l :
  Forall (λ x, zlen (w x) ≤ k) l → zlen (mjoin (w <$> l)) ≤ k * zlen l.
Proof.
  induction 1 as [|x l Hx _ IH]; [unfold zlen; cbn; lia|]. cbn [fmap list_fmap]. rewrite zlen_cons.
  change (mjoin (w x :: (w <$> l))) with (w x ++ mjoin (w <$> l)). rewrite zlen_app. lia.
Qed.
Lemma snapshot_size s : snapshot_ok s → zlen (snapshot_wire s) < 2 ^ 63.
Proof.
  intros []. unfold snapshot_wire, counted_wire, MAX_HEADERS_PER_MSG in *.
  rewrite !zlen_app, !zlen_le_bytes, zlen_vec_wire, (proj1 so_hash0).
  destruct so_pending0 as [Hp HP], so_pending_headers0 as [Hh HH]. unfold MAX_HEADERS_PER_MSG in *.
  assert (H1 : zlen (mjoin (id <$> p_pending_blocks s)) ≤ 32 * zlen (p_pending_blocks s)).
  { apply mjoin_size. eapply Forall_impl; [done|]. cbn. intros b [-> _]. done. }
  assert (H2 : zlen (mjoin (vec_wire <$> p_pending_headers s)) ≤ 1028 * zlen (p_pending_headers s)).
  { apply mjoin_size. eapply Forall_impl; [done|]. intros b [? _]. rewrite zlen_vec_wire. lia. }
  assert (zlen (interruption_wire (p_last_interruption s)) ≤ 2)
    by (by destruct (p_last_interruption s) as [[]|]).
  destruct so_addr0 as [Ha _]. change (zlen [_]) with 1. lia.
Qed.

Section checkpoints.
Context `{HL : Lmdb} (Hf : no_faults).

Definition with_metadata (s : DomStore) (m : gmap bytes bytes) : DomStore := set_table DB_METADATA m s.

Lemma put_metadata_total s k v : put_metadata s k v = Ok (with_metadata s (<[k := v]> (db_metadata s))).
Proof.
  unfold put_metadata. rewrite (proj2 begin_rw_Ok (Hf _)). cbn [rbind].
  rewrite (proj2 (lift_lmdb_Ok _ _ _) (proj2 (mdb_put_Ok _ _ _ _ _) (conj (Hf _) eq_refl))).
  cbn [rbind]. by rewrite (proj2 (commit_txn_Ok _) (Hf _)).
Qed.
Lemma delete_metadata_total s k : delete_metadata s k = Ok (with_metadata s (delete k (db_metadata s))).
Proof.
  unfold delete_metadata. rewrite (proj2 begin_rw_Ok (Hf _)). cbn [rbind].
  rewrite (proj2 (del_if_present_Ok _ _ _ _ _) (conj (Hf _) eq_refl)).
  cbn [rbind]. by rewrite (proj2 (commit_txn_Ok _) (Hf _)).
Qed.

Definition saved (s : DomStore) (b : bytes) : DomStore :=
  with_metadata s (delete LEGACY_IBD_SESSION_METADATA_KEY (<[IBD_SESSION_METADATA_KEY := b]> (db_metadata s))).
Definition cleared (s : DomStore) : DomStore :=
  with_metadata s (delete LEGACY_IBD_SESSION_METADATA_KEY (delete IBD_SESSION_METADATA_KEY (db_metadata s))).

Lemma save_total p s b : to_bytes p = Ok b → save p s = (saved s b, Ok tt).
Proof.
  intros Hb. unfold save, st_bind, st_get, st_update. rewrite Hb, put_metadata_total, delete_metadata_total.
  by destruct s.
Qed.
Lemma clear_total s : clear s = (cleared s, Ok tt).
Proof. unfold clear, st_bind, st_update. rewrite !delete_metadata_total. by destruct s. Qed.

Lemma load_saved p s b :
  snapshot_ok p → to_bytes p = Ok b → load (saved s b) = (saved s b, Ok (Some p)).
Proof.
  intros Hp Hb. rewrite (to_bytes_wire (T := PersistedIbdState)) in Hb by done. injection Hb as <-.
  unfold load, st_bind, st_get. unfold get_metadata. rewrite get_raw_total by done.
  assert (Hl : table DB_METADATA (saved s (snapshot_wire p)) !! IBD_SESSION_METADATA_KEY = Some (snapshot_wire p)).
  { cbn. rewrite lookup_delete_ne by done. apply lookup_insert_eq. }
  rewrite Hl. assert (Hd : from_bytes PersistedIbdState (snapshot_wire p) = Ok p).
  { apply (codec_exact (T := PersistedIbdState)); [exact (wire_bytes_ok (T := PersistedIbdState) p Hp)|by apply snapshot_size|].
    split; [done|exact (to_bytes_wire (T := PersistedIbdState) p Hp)]. }
  by rewrite Hd.
Qed.
End checkpoints.
