(* ===== verification/NodeSync.v ===== *)
(** * Synchronisation with a peer ([crates/dom-node/src/node.rs])

    Serving and requesting headers, the checkpoint of a download session, the validation of
    a batch of headers, the download of bodies, and the session itself.  The exchange of
    messages with the peer and the other services of the node (mempool, wallet, orphans)
    are parameters: [request_headers], [request_blocks], [await_block] and [follow_up];
    [E] is the state of the connection and of those services. *)

From Stdlib Require Import ZArith Lia.
From stdpp Require Import base list strings gmap.
From S2P Require Import Prelude ByteOrder CoreError Core Serialization CryptoHash Wire Pow Curve.
From S2P Require Import Keys Pedersen Schnorr RangeProof RangeProve Transaction BlockHeader Consensus.
From S2P Require Import Genesis Utxo Store StateM Reorg ChainUtxo ChainState ChainConnect Ibd.
Local Open Scope string_scope.
Local Open Scope Z_scope.

Definition IBD_BLOCK_REQUEST_WINDOW : Z := 1.
Definition MAX_GETBLOCKDATA_SERVE_HASHES : Z := 16.

(** [v as i64] of an unsigned 64-bit value, and checked subtraction on [i64] *)
Definition as_i64 (v : Z) : Z := if v <? 2 ^ 63 then v else v - 2 ^ 64.
Definition i64_sub (a b : Z) : Result Z :=
  if (- 2 ^ 63 <=? a - b) && (a - b <? 2 ^ 63) then Ok (a - b) else Panic.
Definition saturating_mul (w a b : Z) : Z := Z.min (a * b) (2 ^ w - 1).

Definition sync_mode_for_peer (local_height : Z) (local_hash : bytes) (peer_height : Z)
    (peer_hash : bytes) : option bool :=
  if local_height <? peer_height then Some false
  else if (peer_height =? local_height) && bool_decide (peer_hash ≠ local_hash) then Some true
  else None.

Definition getblockdata_hashes_to_serve (hashes : list bytes) : list bytes :=
  take (Z.to_nat (Z.min (zlen hashes) MAX_GETBLOCKDATA_SERVE_HASHES)) hashes.

Record IbdRoundState : Type := {
  rd_pending_blocks : list bytes;
  rd_pending_headers : list bytes;
  rd_block_cursor : Z;
  rd_header_cursor : Z;
  rd_header_cursor_height : Z;
}.
Definition empty_round (ibd : IbdState) : IbdRoundState :=
  {| rd_pending_blocks := []; rd_pending_headers := []; rd_block_cursor := 0;
     rd_header_cursor := 0; rd_header_cursor_height := headers_height ibd |}.
Definition body_round (pending_blocks : list bytes) (header_cursor_height : Z) : IbdRoundState :=
  {| rd_pending_blocks := pending_blocks; rd_pending_headers := []; rd_block_cursor := 0;
     rd_header_cursor := 0; rd_header_cursor_height := header_cursor_height |}.

Definition with_progress (h : Z) (s : IbdState) : IbdState :=
  {| phase := phase s; start_height := start_height s;
     headers_height := Z.max (headers_height s) h; blocks_height := blocks_height s;
     best_peer_height := best_peer_height s; pending_blocks := pending_blocks s;
     retry_attempts := retry_attempts s; last_progress_height := Z.max (last_progress_height s) h;
     last_interruption := last_interruption s |}.

(** The controller a session resumes with *)
Definition resumed (snapshot : PersistedIbdState) (peer_key : bytes) (peer_best_height : Z)
    (s : IbdState) : IbdState :=
  let source_changed := negb (bool_decide (p_peer_addr snapshot = peer_key)) in
  {| phase := phase s; start_height := start_height s; headers_height := headers_height s;
     blocks_height := blocks_height s; best_peer_height := Z.max (best_peer_height s) peer_best_height;
     pending_blocks := pending_blocks s;
     retry_attempts := if source_changed then 0 else retry_attempts s;
     last_progress_height := last_progress_height s;
     last_interruption := if source_changed then None else last_interruption s |}.

(** [slice.chunks(n)] with [n] positive: the last chunk may be shorter *)
Fixpoint chunks_from {A} (fuel n : nat) (l : list A) : list (list A) :=
  match fuel, l with
  | S fuel', _ :: _ => take n l :: chunks_from fuel' n (drop n l)
  | _, _ => []
  end.
Definition chunks {A} (n : nat) (l : list A) : list (list A) := chunks_from (length l) n l.

Section sync.
Context `{HB : Blake2b256} `{HM : HmacSha256} `{HC : Secp256k1} `{HZ : !ZkpBackend}.
Context `{HR : RandomXHash} `{HP : ZkpProver} `{HL : Lmdb} (env : option string).
(** [JoinError] of a task that panicked, as text *)
Context (join_error : string).

(** ** Headers *)

(** Every turn lowers [h] by at least one. *)
Fixpoint locator_walk (fuel : nat) (c : ChainState) (h step : Z) (out : list bytes)
  : Result (list bytes) :=
  match fuel with
  | O => Panic
  | S fuel' =>
      if (0 <=? h) && (zlen out <? MAX_LOCATOR_HASHES) then
        let? r := get_hash_at_height (store c) h in
        let out := match r with Some hash => (out ++ [hash])%list | None => out end in
        let step := if 10 <=? zlen out then saturating_mul 64 step 2 else step in
        let? h := i64_sub h (as_i64 step) in
        locator_walk fuel' c h step out
      else Ok out
  end.
Definition build_locator (c : ChainState) : Result (list bytes) :=
  let h := as_i64 (height_val (tip_height c)) in
  locator_walk (S (S (Z.to_nat h))) c h 1 [].

Fixpoint locate (c : ChainState) (locator : list bytes) : Result Z :=
  match locator with
  | [] => Ok 0
  | h :: rest =>
      let? r := get_block_header (store c) h in
      match r with
      | Some header_bytes =>
          let? header := from_bytes BlockHeader header_bytes in
          let? r := get_hash_at_height (store c) (height_val (height header)) in
          if bool_decide (r = Some h) then add_ovf 64 (height_val (height header)) 1
          else locate c rest
      | None => locate c rest
      end
  end.
Fixpoint collect_headers (left : nat) (c : ChainState) (stop_hash : bytes) (h : Z)
  : Result (list bytes) :=
  match left with
  | O => Ok []
  | S left' =>
      if h <=? height_val (tip_height c) then
        let? r := get_hash_at_height (store c) h in
        match r with
        | None => Ok []
        | Some hash =>
            let? r := get_block_header (store c) hash in
            match r with
            | None => Ok []
            | Some b =>
                if negb (bool_decide (stop_hash = replicate 32 0)) && bool_decide (hash = stop_hash)
                then Ok [b]
                else
                  let? h' := add_ovf 64 h 1 in
                  let? rest := collect_headers left' c stop_hash h' in
                  Ok (b :: rest)
            end
        end
      else Ok []
  end.
Definition build_headers_response (c : ChainState) (req : GetHeadersPayload) : Result (list bytes) :=
  let? start_height := locate c (locator_hashes req) in
  collect_headers (Z.to_nat MAX_HEADERS_PER_MSG) c (stop_hash req) start_height.

(** ** The checkpoint of a session *)

Definition store_op {A} (m : M DomStore A) : M ChainState A := λ c,
  let '(s, r) := m (store c) in (with_store c s, r).

Definition ibd_snapshot (c : ChainState) (peer_addr : bytes) (ibd : IbdState) (round : IbdRoundState)
  : PersistedIbdState :=
  let durable_blocks_height := height_val (tip_height c) in
  let durable_headers_height :=
    Z.max (Z.max (headers_height ibd) (last_progress_height ibd)) durable_blocks_height in
  {| p_phase := phase ibd; p_peer_addr := peer_addr; p_start_height := start_height ibd;
     p_best_peer_height := best_peer_height ibd; p_headers_height := durable_headers_height;
     p_blocks_height := durable_blocks_height;
     p_last_progress_height := Z.max (last_progress_height ibd) durable_blocks_height;
     p_checkpoint_tip_hash := hash_bytes (tip_hash c); p_retry_attempts := retry_attempts ibd;
     p_last_interruption := last_interruption ibd;
     p_pending_blocks := rd_pending_blocks round; p_pending_headers := rd_pending_headers round;
     p_block_cursor := rd_block_cursor round; p_header_cursor := rd_header_cursor round;
     p_header_cursor_height := rd_header_cursor_height round |}.
Definition persist_ibd_state (peer_addr : bytes) (ibd : IbdState) (round : IbdRoundState)
  : M ChainState unit :=
  run! snapshot := (λ c, Ok (ibd_snapshot c peer_addr ibd round)) in store_op (save snapshot).
Definition clear_persisted_ibd_state : M ChainState unit := store_op clear.

(** A checkpoint that does not load is deleted; that this may fail is only logged. *)
Definition load_checkpoint : M ChainState (option PersistedIbdState) := λ c,
  match store_op load c with
  | (c', Err _) =>
      match clear_persisted_ibd_state c' with
      | (c'', Panic) => (c'', Panic)
      | (c'', _) => (c'', Ok None)
      end
  | r => r
  end.
Definition checkpoint_resumable (c : ChainState) (peer_best_height : Z) (snapshot : PersistedIbdState)
  : bool :=
  let peer_can_serve_saved_round :=
    bool_decide (p_pending_blocks snapshot = []) && bool_decide (p_pending_headers snapshot = [])
    || (p_header_cursor_height snapshot <=? peer_best_height) in
  (p_blocks_height snapshot =? height_val (tip_height c))
  && bool_decide (p_checkpoint_tip_hash snapshot = hash_bytes (tip_hash c))
  && peer_can_serve_saved_round
  && negb (bool_decide (p_phase snapshot = Completed) || bool_decide (p_phase snapshot = Failed)).
Definition initialize_ibd_state (peer_key : bytes) (peer_best_height : Z)
  : M ChainState (IbdState * option PersistedIbdState) :=
  do! persisted := load_checkpoint in
  run! c := Ok in
  let fresh := (ibd_new (height_val (tip_height c)) peer_best_height, None) in
  match persisted with
  | None => st_ret fresh
  | Some snapshot =>
      if negb (checkpoint_resumable c peer_best_height snapshot) then
        do! _ := clear_persisted_ibd_state in st_ret fresh
      else
        match from_persisted snapshot with
        | Ok ibd => st_ret (resumed snapshot peer_key peer_best_height ibd, Some snapshot)
        | Err _ => do! _ := clear_persisted_ibd_state in st_ret fresh
        | Panic => λ c, (c, Panic)
        end
  end.

(** ** Header batches *)

Abbreviation Session := (ChainState * IbdState)%type (only parsing).

Definition chain_op {A} (m : M ChainState A) : M Session A := λ s,
  let '(c, r) := m s.1 in ((c, s.2), r).
Definition ibd_op (f : IbdState → IbdState) : M Session unit := λ s, ((s.1, f s.2), Ok tt).
Definition persist (peer_addr : bytes) (round : IbdState → IbdRoundState) : M Session unit := λ s,
  chain_op (persist_ibd_state peer_addr s.2 (round s.2)) s.

(** What the task reports when the validation panics *)
Definition spawn_blocking {A} (what : string) (r : Result A) : Result A :=
  match r with
  | Panic => Err (Internal (what +:+ " failed: " +:+ join_error))
  | r => r
  end.

Definition enter_block_sync (pending_blocks : list bytes) (ibd : IbdState) : IbdState :=
  match pending_blocks with [] => with_phase Discovering ibd | _ => begin_block_sync ibd end.

Fixpoint header_cursors (peer_addr : bytes) (round : IbdRoundState) (now : Timestamp)
    (cursors : list Z) (pending_blocks : list bytes) : M Session (list bytes) :=
  match cursors with
  | [] => st_ret pending_blocks
  | cursor :: rest =>
      run! r := (λ s : Session, validate_ibd_header_step env s.1 (rd_pending_headers round) cursor
                                  pending_blocks now) in
      let '(height, pending_blocks) := r in
      do! _ := ibd_op (with_progress height) in
      if u32_max <? cursor + 1 then st_fail (Internal "header cursor overflow")
      else
        do! _ := persist peer_addr (λ _,
          {| rd_pending_blocks := pending_blocks; rd_pending_headers := rd_pending_headers round;
             rd_block_cursor := 0; rd_header_cursor := cursor + 1;
             rd_header_cursor_height := rd_header_cursor_height round |}) in
        header_cursors peer_addr round now rest pending_blocks
  end.

Definition continue_ibd_header_sync (peer_addr : bytes) (round : IbdRoundState) (now : Timestamp)
  : M Session (list bytes) :=
  let start := rd_header_cursor round in
  let count := zlen (rd_pending_headers round) in
  if count <? start then
    st_fail (PolicyRejected ("persisted header cursor " +:+ dec start
                             +:+ " exceeds pending header count " +:+ dec count))
  else if bool_decide (rd_pending_headers round = []) then st_ret (rd_pending_blocks round)
  else
    do! _ := ibd_op begin_header_sync in
    if (start =? 0) && bool_decide (rd_pending_blocks round = []) then
      run! pending_blocks := (λ s : Session,
        spawn_blocking "IBD header validation task"
          (validate_ibd_headers_batch env s.1 (rd_pending_headers round) now)) in
      do! _ := ibd_op (with_progress (rd_header_cursor_height round)) in
      do! _ := ibd_op (enter_block_sync pending_blocks) in
      do! _ := persist peer_addr (λ _, body_round pending_blocks (rd_header_cursor_height round)) in
      st_ret pending_blocks
    else
      do! pending_blocks := header_cursors peer_addr round now (seqZ start (count - start))
                              (rd_pending_blocks round) in
      do! _ := ibd_op (enter_block_sync pending_blocks) in
      do! _ := persist peer_addr (λ _, body_round pending_blocks (rd_header_cursor_height round)) in
      st_ret pending_blocks.

(** ** The session *)

Section session.
Context {E : Type}.

Record Node : Type := { env_state : E; ibd_active_sessions : Z; chain : ChainState }.
Definition with_chain (n : Node) (c : ChainState) : Node :=
  {| env_state := env_state n; ibd_active_sessions := ibd_active_sessions n; chain := c |}.
Definition with_active (n : Node) (a : Z) : Node :=
  {| env_state := env_state n; ibd_active_sessions := a; chain := chain n |}.

Abbreviation State := (Node * IbdState)%type (only parsing).
Context (ibd_now : E → Timestamp).

Definition on_chain {A} (m : M ChainState A) : M Node A := λ n,
  let '(c, r) := m (chain n) in (with_chain n c, r).
Definition on_node {A} (m : M Node A) : M State A := λ s,
  let '(n, r) := m s.1 in ((n, s.2), r).
Definition on_session {A} (m : M Session A) : M State A := λ s,
  let '((c, i), r) := m (chain s.1, s.2) in ((with_chain s.1 c, i), r).
Definition control {A} (f : IbdState → IbdState * A) : M State A := λ s,
  let '(i, a) := f s.2 in ((s.1, i), Ok a).
Definition tip_of (s : State) : Z := height_val (tip_height (chain s.1)).
Definition forget : M State unit := on_node (on_chain clear_persisted_ibd_state).
Definition checkpoint (peer_addr : bytes) : M State unit := on_session (persist peer_addr empty_round).

(** [match round().await], where an error is a value *)
Definition attempt {A} (m : M State A) : M State (A + DomError) := λ s,
  match m s with
  | (s', Ok a) => (s', Ok (inl a))
  | (s', Err e) => (s', Ok (inr e))
  | (s', Panic) => (s', Panic)
  end.

(** ** Rounds *)

Section rounds.
(** The answer to a locator; sending a request for bodies; waiting for the body with a hash;
    and what follows a connected block: mempool, wallet and the orphans it unblocks *)
Context (request_headers : list bytes → M State (list bytes)).
Context (request_blocks : list bytes → M State unit) (await_block : bytes → M State Block).
Context (follow_up : ConnectResult → Block → M State unit).

Definition after_commit (s : State) : IbdState → IbdState := λ i,
  {| phase := phase i; start_height := start_height i; headers_height := headers_height i;
     blocks_height := tip_of s; best_peer_height := best_peer_height i;
     pending_blocks := pending_blocks i; retry_attempts := retry_attempts i;
     last_progress_height := Z.max (last_progress_height i) (tip_of s);
     last_interruption := last_interruption i |}.

(** [processed] bodies of the round are done when this one is fetched. *)
Definition sync_block (peer_addr : bytes) (round : IbdRoundState) (processed : Z) (expected_hash : bytes)
  : M State Z :=
  do! block := await_block expected_hash in
  run! now := (λ s, Ok (ibd_now (env_state s.1))) in
  do! r := (λ s : State,
    let '(c, r) := connect_block env block now (chain s.1) in
    ((with_chain s.1 c, s.2),
     match r with
     | Ok r => Ok r
     | Err e => Err (Invalid ("IBD resume from " +:+ bytes_str peer_addr
                              +:+ ": connect_block rejected: " +:+ display_error e))
     | Panic => Err (Internal ("IBD validation task failed: " +:+ join_error))
     end)) in
  do! _ := follow_up r block in
  let processed := saturating_add 32 processed 1 in
  do! _ := on_session (persist peer_addr (λ _,
    {| rd_pending_blocks := rd_pending_blocks round; rd_pending_headers := [];
       rd_block_cursor := processed; rd_header_cursor := 0;
       rd_header_cursor_height := rd_header_cursor_height round |})) in
  do! _ := (λ s, control (λ i, (after_commit s i, tt)) s) in
  st_ret processed.
Fixpoint sync_batch (peer_addr : bytes) (round : IbdRoundState) (processed : Z) (batch : list bytes)
  : M State Z :=
  match batch with
  | [] => st_ret processed
  | expected_hash :: rest =>
      do! processed := sync_block peer_addr round processed expected_hash in
      sync_batch peer_addr round processed rest
  end.
Fixpoint sync_batches (peer_addr : bytes) (round : IbdRoundState) (processed : Z)
    (batches : list (list bytes)) : M State Z :=
  match batches with
  | [] => st_ret processed
  | batch :: rest =>
      do! _ := request_blocks batch in
      do! processed := sync_batch peer_addr round processed batch in
      sync_batches peer_addr round processed rest
  end.

(** Every result of [connect_block] counts as progress. *)
Definition resume_ibd_block_sync (peer_addr : bytes) (round : IbdRoundState) : M State bool :=
  let start := rd_block_cursor round in
  if zlen (rd_pending_blocks round) <=? start then st_ret false
  else
    do! _ := control (λ i, (begin_block_sync i, tt)) in
    do! _ := sync_batches peer_addr round start
               (chunks (Z.to_nat IBD_BLOCK_REQUEST_WINDOW)
                  (drop (Z.to_nat start) (rd_pending_blocks round))) in
    st_ret true.

Definition ibd_sync_round (peer_addr : bytes) : M State bool :=
  run! locator := (λ s : State, build_locator (chain s.1)) in
  do! headers := request_headers locator in
  match last headers with
  | None => st_ret false
  | Some last_header =>
      run! now := (λ s : State, Ok (ibd_now (env_state s.1))) in
      run! h := (λ _, from_bytes BlockHeader last_header) in
      let header_cursor_height := height_val (height h) in
      do! block_hashes := on_session (continue_ibd_header_sync peer_addr
        {| rd_pending_blocks := []; rd_pending_headers := headers; rd_block_cursor := 0;
           rd_header_cursor := 0; rd_header_cursor_height := header_cursor_height |} now) in
      match block_hashes with
      | [] => st_ret false
      | _ => resume_ibd_block_sync peer_addr (body_round block_hashes header_cursor_height)
      end
  end.
End rounds.

(** ** The loop *)

Section loop.
(** A round of the loop, and the bodies of a round resumed from a checkpoint *)
Context (sync_round : M State bool) (resume_block_sync : IbdRoundState → M State bool).

(** After a round with progress: whether the session is complete.  [resumed] tells a round
    resumed from a checkpoint from one of the loop. *)
Definition after_progress (resumed : string) (peer_addr : bytes) : M State bool :=
  run! h := (λ s, Ok (tip_of s)) in
  do! c := control (note_round_progress h) in
  match c with
  | Complete => do! _ := forget in st_ret true
  | Continue => do! _ := checkpoint peer_addr in st_ret false
  | Retry | Fail => st_fail (Internal (resumed +:+ "IBD progress transition returned invalid control"))
  end.
Definition after_error (e : DomError) : M State bool :=
  do! c := control (note_round_error e) in
  match c with
  | Retry => st_fail e
  | Fail => do! _ := forget in st_fail e
  | Complete => do! _ := forget in st_ret true
  | Continue => st_fail (Internal "IBD error transition returned invalid control")
  end.
Definition after_resume_error (e : DomError) : M State bool :=
  do! c := control (note_round_error e) in
  match c with
  | Retry => st_fail e
  | Fail => do! _ := forget in st_fail e
  | Complete | Continue =>
      st_fail (Internal "resumed IBD error transition returned invalid control")
  end.
Definition after_empty (peer_addr : bytes) : M State bool :=
  do! c := control note_empty_response in
  match c with
  | Complete => do! _ := forget in st_ret true
  | Retry => do! _ := checkpoint peer_addr in st_ret false
  | Fail =>
      do! _ := forget in
      st_fail (PolicyRejected ("IBD from " +:+ bytes_str peer_addr
                               +:+ ": exhausted retry budget after empty response"))
  | Continue => st_fail (Internal "IBD empty-response transition returned invalid control")
  end.

(** One turn of the loop: [true] when the session is over *)
Definition session_step (peer_addr : bytes) (fork_resolution : bool) : M State bool :=
  do! _ := control (λ i, (begin_header_sync i, tt)) in
  do! r := attempt sync_round in
  match r with
  | inl true =>
      if fork_resolution then do! _ := forget in st_ret true else after_progress "" peer_addr
  | inl false =>
      if fork_resolution then do! _ := forget in st_ret true else after_empty peer_addr
  | inr e => after_error e
  end.

(** The loop; [None] when [fuel] turns do not end it *)
Fixpoint session_loop (fuel : nat) (peer_addr : bytes) (fork_resolution : bool) (s : State)
  : option (State * Result unit) :=
  match fuel with
  | O => None
  | S fuel' =>
      match session_step peer_addr fork_resolution s with
      | (s', Ok true) => Some (s', Ok tt)
      | (s', Ok false) => session_loop fuel' peer_addr fork_resolution s'
      | (s', Err e) => Some (s', Err e)
      | (s', Panic) => Some (s', Panic)
      end
  end.

(** Bodies of a resumed round: the loop follows unless the session is over *)
Definition after_resume (peer_addr : bytes) (round : IbdRoundState) : M State bool :=
  do! r := attempt (resume_block_sync round) in
  match r with
  | inl true => after_progress "resumed " peer_addr
  | inl false => st_ret false
  | inr e => after_resume_error e
  end.
Definition resume_session (peer_addr : bytes) (persisted : option PersistedIbdState) : M State bool :=
  match persisted with
  | None => do! _ := checkpoint peer_addr in st_ret false
  | Some p =>
      if negb (bool_decide (p_pending_headers p = []))
         && (p_header_cursor p <? zlen (p_pending_headers p)) then
        run! now := (λ s : State, Ok (ibd_now (env_state s.1))) in
        do! pending_blocks := on_session (continue_ibd_header_sync peer_addr
          {| rd_pending_blocks := p_pending_blocks p; rd_pending_headers := p_pending_headers p;
             rd_block_cursor := p_block_cursor p; rd_header_cursor := p_header_cursor p;
             rd_header_cursor_height := p_header_cursor_height p |} now) in
        match pending_blocks with
        | [] => do! _ := checkpoint peer_addr in st_ret false
        | _ => after_resume peer_addr (body_round pending_blocks (p_header_cursor_height p))
        end
      else if negb (bool_decide (p_pending_blocks p = []))
              && (p_block_cursor p <? zlen (p_pending_blocks p)) then
        after_resume peer_addr
          {| rd_pending_blocks := p_pending_blocks p; rd_pending_headers := [];
             rd_block_cursor := p_block_cursor p; rd_header_cursor := 0;
             rd_header_cursor_height := p_header_cursor_height p |}
      else do! _ := checkpoint peer_addr in st_ret false
  end.

Definition start_session (peer_addr : bytes) (peer_best_height : Z) (fork_resolution : bool)
  : M State bool :=
  run! our_height := (λ s, Ok (tip_of s)) in
  let ibd_target_height :=
    if fork_resolution then saturating_add 64 our_height 1 else peer_best_height in
  do! (ibd, persisted) := on_node (on_chain (initialize_ibd_state peer_addr ibd_target_height)) in
  do! c := control (λ _, begin_session ibd) in
  match c with
  | Complete => do! _ := forget in st_ret true
  | Continue => resume_session peer_addr persisted
  | Retry | Fail => st_fail (Internal "IBD state machine returned invalid initial control")
  end.

(** A session runs only when no other one does; the guard is released when it ends. *)
Definition run_ibd_session (fuel : nat) (peer_addr : bytes) (peer_best_height : Z)
    (fork_resolution : bool) (n : Node) : option (Node * Result unit) :=
  if negb (ibd_active_sessions n =? 0) then Some (n, Ok tt)
  else
    let release (n : Node) := with_active n (ibd_active_sessions n - 1) in
    match start_session peer_addr peer_best_height fork_resolution (with_active n 1, ibd_new 0 0) with
    | (s, Ok true) => Some (release s.1, Ok tt)
    | (s, Ok false) =>
        match session_loop fuel peer_addr fork_resolution s with
        | Some (s', r) => Some (release s'.1, r)
        | None => None
        end
    | (s, Err e) => Some (release s.1, Err e)
    | (s, Panic) => Some (release s.1, Panic)
    end.
End loop.
End session.
End sync.
