(* ===== verification/NodeSyncLaws.v ===== *)
(** * Properties of synchronisation

    A download session ends, a checkpoint survives a restart, and a node that is behind is
    sent the headers it needs. *)

From Stdlib Require Import ZArith Lia.
From stdpp Require Import base list strings gmap relations.
From S2P Require Import Prelude ByteOrder CoreError Core Serialization CryptoHash Wire Pow Curve.
From S2P Require Import Keys Pedersen Schnorr RangeProof RangeProve Transaction BlockHeader Consensus.
From S2P Require Import Genesis Utxo Store StoreLaws StateM Reorg ChainUtxo ChainState.
From S2P Require Import Ledger ChainLaws Ibd IbdLaws NodeSync.

Section sync_laws.
Context `{HB : Blake2b256} `{HM : HmacSha256} `{HC : Secp256k1} `{HZ : !ZkpBackend}.
Context `{HR : RandomXHash} `{HP : ZkpProver} `{HL : Lmdb} (env : option string).
Context (join_error : string).

(** ** The session ends *)

Section session.
Context {E : Type}.
Context (sync_round : M (Node (E := E) * IbdState) bool).
Context (resume_block_sync : IbdRoundState → M (Node (E := E) * IbdState) bool) (ibd_now : E → Timestamp).

Abbreviation State := (Node (E := E) * IbdState)%type (only parsing).
Abbreviation step := (session_step sync_round).
Abbreviation loop := (session_loop sync_round).

(** A round keeps the target and the retries of the controller and never lowers the tip;
    a round that reports progress has raised it. *)
Record rounds_advance : Prop := {
  ra_keeps : ∀ s s' r, sync_round s = (s', r) →
    best_peer_height s'.2 = best_peer_height s.2 ∧ retry_attempts s'.2 = retry_attempts s.2 ∧
    tip_of s ≤ tip_of s';
  ra_raises : ∀ s s', sync_round s = (s', Ok true) → tip_of s < tip_of s';
}.

(** Checkpoints change neither the tip nor the controller. *)
Definition same_session (s s' : State) : Prop := tip_of s' = tip_of s ∧ s'.2 = s.2.

Lemma store_op_tip {A} (m : M DomStore A) c c' r :
  store_op m c = (c', r) → tip_height c' = tip_height c ∧ tip_hash c' = tip_hash c.
Proof. unfold store_op. destruct (m (store c)). by intros [= <- <-]. Qed.

Lemma forget_same (s s' : State) r : forget s = (s', r) → same_session s s'.
Proof.
  unfold forget, on_node, on_chain, clear_persisted_ibd_state.
  destruct (store_op clear (chain s.1)) as [c r'] eqn:H. apply store_op_tip in H as [H _].
  intros [= <- <-]. unfold same_session, tip_of. cbn. by rewrite H.
Qed.
Lemma checkpoint_same addr (s s' : State) r : checkpoint addr s = (s', r) → same_session s s'.
Proof.
  unfold checkpoint, on_session, persist, chain_op, persist_ibd_state, st_bind, st_get. cbn.
  destruct (store_op _ (chain s.1)) as [c r'] eqn:H. apply store_op_tip in H as [H _].
  intros [= <- <-]. unfold same_session, tip_of. cbn. by rewrite H.
Qed.

Lemma control_bind {A B} (f : IbdState → IbdState * A) (k : A → M State B) (s : State) :
  st_bind (control f) k s = k (f s.2).2 (s.1, (f s.2).1).
Proof. unfold st_bind, control. by destruct (f s.2). Qed.

Definition left_over (s : State) : Z := Z.max 0 (best_peer_height s.2 - tip_of s).
(** What a turn that does not end the session uses up *)
Definition budget (s : State) : Z := 5 * left_over s + Z.max 0 (MAX_IBD_RETRY_ATTEMPTS + 1 - retry_attempts s.2).

Lemma after_progress_spec w addr (s s' : State) r :
  after_progress w addr s = (s', r) →
  (r = Ok true → best_peer_height s'.2 ≤ blocks_height s'.2) ∧
  (r = Ok false → tip_of s < best_peer_height s.2 ∧ tip_of s' = tip_of s ∧
                  best_peer_height s'.2 = best_peer_height s.2 ∧ retry_attempts s'.2 = 0).
Proof.
  intros H. apply st_bind_cases in H as [(h & s1 & [-> Hh]%st_get_Ok & H)|[(e & [=] & _)|[[=] _]]].
  injection Hh as <-. rewrite control_bind in H. unfold note_round_progress in H. cbn in H.
  unfold begin_verification in H. destruct (is_terminal s.2); cbn in H.
  all: destruct (Z.leb_spec (best_peer_height s.2) (Z.max (blocks_height s.2) (tip_of s))) as [Hd|Hd]; cbn in H.
  all: apply st_bind_cases in H as [([] & s1 & Hs & H)|[(e & _ & ->)|[_ ->]]]; [|split; done..].
  all: injection H as <- <-; first [apply forget_same in Hs as [Ht Hi]|apply checkpoint_same in Hs as [Ht Hi]].
  all: rewrite Hi; cbn; split; [intros ?|intros ?]; try done; try lia.
  all: unfold tip_of in *; cbn in *; lia.
Qed.

Lemma note_interruption_spec i s :
  (note_interruption i s).2 = Fail ∨
  (note_interruption i s).2 = Retry ∧
  retry_attempts (note_interruption i s).1 = retry_attempts s + 1 ∧
  retry_attempts s + 1 ≤ MAX_IBD_RETRY_ATTEMPTS ∧
  best_peer_height (note_interruption i s).1 = best_peer_height s ∧
  blocks_height (note_interruption i s).1 = blocks_height s.
Proof.
  unfold note_interruption, saturating_add, MAX_IBD_RETRY_ATTEMPTS.
  destruct (Z.ltb_spec 3 (Z.min (retry_attempts s + 1) (2 ^ 8 - 1))); cbn; [by left|right].
  split_and!; done || lia.
Qed.

Lemma after_empty_spec addr (s s' : State) r :
  after_empty addr s = (s', r) →
  (r = Ok true → best_peer_height s'.2 ≤ blocks_height s'.2) ∧
  (r = Ok false → tip_of s' = tip_of s ∧ best_peer_height s'.2 = best_peer_height s.2 ∧
                  retry_attempts s'.2 = retry_attempts s.2 + 1 ∧
                  retry_attempts s.2 + 1 ≤ MAX_IBD_RETRY_ATTEMPTS).
Proof.
  intros H. unfold after_empty in H. rewrite control_bind in H. unfold note_empty_response in H.
  destruct (Z.leb_spec (best_peer_height s.2) (blocks_height s.2)) as [Hd|Hd]; cbn in H.
  - apply st_bind_cases in H as [([] & s1 & Hs & H)|[(e & _ & ->)|[_ ->]]]; [|split; done..].
    injection H as <- <-. apply forget_same in Hs as [Ht Hi]. rewrite Hi. cbn. split; done || lia.
  - destruct (note_interruption_spec EmptyResponse s.2) as [Hc|(Hc & Hr & Hm & Hb & _)]; rewrite Hc in H.
    + apply st_bind_cases in H as [([] & s1 & Hs & [= <- <-])|[(e & _ & ->)|[_ ->]]]; split; done.
    + apply st_bind_cases in H as [([] & s1 & Hs & H)|[(e & _ & ->)|[_ ->]]]; [|split; done..].
      injection H as <- <-. apply checkpoint_same in Hs as [Ht Hi]. rewrite Hi. cbn [fst snd].
      split; [done|]. intros _. split_and!; [done|done|lia|lia].
Qed.

Lemma after_error_no_progress e (s s' : State) r : after_error e s = (s', r) → is_ok r = false.
Proof.
  intros H. unfold after_error in H. rewrite control_bind in H.
  assert (Hc : (note_round_error e s.2).2 = Retry ∨ (note_round_error e s.2).2 = Fail).
  { destruct e; cbn; auto.
    all: try (destruct (str_contains _ _); [|auto]).
    all: match goal with |- context [note_interruption ?i ?x] =>
           destruct (note_interruption_spec i x) as [->|(-> & _)]; auto end. }
  destruct Hc as [Hc|Hc]; rewrite Hc in H; [by injection H as _ <-|].
  by apply st_bind_cases in H as [([] & s1 & Hs & [= _ <-])|[(? & _ & ->)|[_ ->]]].
Qed.

(** A turn that does not end the session uses up some of its budget. *)
Lemma session_step_spec addr fork (s s' : State) r :
  rounds_advance → step addr fork s = (s', r) →
  (r = Ok true → fork = false → best_peer_height s'.2 ≤ blocks_height s'.2) ∧
  (r = Ok false → budget s' < budget s).
Proof.
  intros [Hkeep Hraise] H. unfold session_step in H. rewrite control_bind in H. cbn [fst snd] in H.
  set (s0 := (s.1, begin_header_sync s.2)) in H.
  assert (H0 : tip_of s0 = tip_of s ∧ best_peer_height s0.2 = best_peer_height s.2 ∧
               retry_attempts s0.2 = retry_attempts s.2).
  { unfold s0, begin_header_sync. cbn. by destruct (is_terminal s.2). }
  destruct H0 as (Ht0 & Hb0 & Hr0).
  apply st_bind_cases in H as [(o & s1 & Ho & H)|[(e & _ & ->)|[_ ->]]]; [|split; done..].
  unfold attempt in Ho. destruct (sync_round s0) as [s2 [b|e|]] eqn:Hs; [..|done].
  - destruct (Hkeep _ _ _ Hs) as (Hb1 & Hr1 & Ht1). injection Ho as <- <-. destruct b.
    + destruct fork.
      { apply st_bind_cases in H as [([] & s1 & _ & [= <- <-])|[(e & _ & ->)|[_ ->]]]; split; done. }
      apply Hraise in Hs. apply after_progress_spec in H as [Hd Hc]. split; [auto|]. intros ->.
      destruct (Hc eq_refl) as (Hlt & Ht & Hb & Hr). unfold budget, left_over, MAX_IBD_RETRY_ATTEMPTS. lia.
    + destruct fork.
      { apply st_bind_cases in H as [([] & s1 & _ & [= <- <-])|[(e & _ & ->)|[_ ->]]]; split; done. }
      apply after_empty_spec in H as [Hd Hc]. split; [auto|]. intros ->.
      destruct (Hc eq_refl) as (Ht & Hb & Hr & Hm). unfold budget, left_over, MAX_IBD_RETRY_ATTEMPTS in *. lia.
  - injection Ho as <- <-. apply after_error_no_progress in H. destruct r; done.
Qed.

Lemma session_loop_ends addr fork (s : State) fuel :
  rounds_advance → (Z.to_nat (budget s) < fuel)%nat →
  ∃ s' r, loop fuel addr fork s = Some (s', r) ∧
          (r = Ok tt → fork = false → best_peer_height s'.2 ≤ blocks_height s'.2).
Proof.
  intros Hra. revert s. induction fuel as [|fuel IH]; intros s Hf; [lia|]. cbn [session_loop].
  destruct (step addr fork s) as [s' [[]|e|]] eqn:Hs;
    destruct (session_step_spec _ _ _ _ _ Hra Hs) as [Hd Hc];
    [eexists _, _; split; [done|auto]| |eexists _, _; split; done..].
  apply IH. specialize (Hc eq_refl). unfold budget, left_over in *. lia.
Qed.


(** ** Rounds without progress *)

(** A round that reports progress because it received blocks the node already had or that
    are not on its best chain: the tip stays where it is. *)
Definition rounds_idle : Prop := ∀ s : State, ∃ s', sync_round s = (s', Ok true) ∧
  tip_of s' = tip_of s ∧ best_peer_height s'.2 = best_peer_height s.2 ∧
  blocks_height s'.2 ≤ Z.max (blocks_height s.2) (tip_of s).

Lemma empty_snapshot_encodes c addr ibd :
  zlen addr < 2 ^ 32 → ∃ b, to_bytes (ibd_snapshot c addr ibd (empty_round ibd)) = Ok b.
Proof.
  intros Ha. unfold to_bytes, serialize at 1, PersistedIbdState_serialize. cbn [p_phase ibd_snapshot].
  unfold serialize at 1, IbdPhase_serialize. cbn [rbind p_peer_addr ibd_snapshot].
  unfold write_vec at 1, u32_max. destruct (Z.leb_spec (zlen addr) (2 ^ 32 - 1)); [|lia]. cbn [rbind].
  rewrite write_interruption_ok. cbn [rbind]. eauto.
Qed.

Lemma checkpoint_total addr (s : State) :
  no_faults → zlen addr < 2 ^ 32 → ∃ s', checkpoint addr s = (s', Ok tt) ∧ same_session s s'.
Proof.
  intros Hf Ha. destruct (checkpoint addr s) as [s' r] eqn:H. exists s'.
  split; [|by eapply checkpoint_same]. f_equal. revert H.
  unfold checkpoint, on_session, persist, chain_op, persist_ibd_state, st_bind, st_get, store_op. cbn [fst snd].
  destruct (empty_snapshot_encodes (chain s.1) addr s.2 Ha) as [b Hb].
  rewrite (save_total Hf _ _ b Hb). by intros [= _ <-].
Qed.

End session.

(** ** Checkpoints *)

Record round_ok (round : IbdRoundState) : Prop := {
  ro_blocks : counted (λ b, zlen b = 32 ∧ bytes_ok b) (rd_pending_blocks round);
  ro_headers : counted (vec_ok 1024) (rd_pending_headers round);
  ro_block_cursor : 0 ≤ rd_block_cursor round ≤ zlen (rd_pending_blocks round);
  ro_header_cursor : 0 ≤ rd_header_cursor round ≤ zlen (rd_pending_headers round);
  ro_height : u64_ok (rd_header_cursor_height round);
}.
Record session_ok (c : ChainState) (addr : bytes) (ibd : IbdState) : Prop := {
  se_addr : vec_ok 128 addr ∧ utf8_error 0 addr = None;
  se_tip : u64_ok (height_val (tip_height c)) ∧ hash_ok (tip_hash c);
  se_heights : u64_ok (start_height ibd) ∧ u64_ok (best_peer_height ibd) ∧
               u64_ok (headers_height ibd) ∧ u64_ok (last_progress_height ibd);
  se_start : start_height ibd ≤ height_val (tip_height c);
  se_retries : 0 ≤ retry_attempts ibd ≤ MAX_IBD_RETRY_ATTEMPTS;
}.

Lemma counted_u32 {A} (P : A → Prop) l n : counted P l → 0 ≤ n ≤ zlen l → u32_ok n.
Proof. intros [H _] Hn. unfold MAX_HEADERS_PER_MSG, in_width in *. lia. Qed.

(** Whatever the heights of the controller, the snapshot has them in order. *)
Lemma ibd_snapshot_ok c addr ibd round :
  session_ok c addr ibd → round_ok round → snapshot_ok (ibd_snapshot c addr ibd round).
Proof.
  intros [[Ha1 Ha2] [Ht1 Ht2] (Hs & Hb & Hh & Hl) Hst Hr] [Hr1 Hr2 Hr3 Hr4 Hr5].
  unfold hash_ok, MAX_IBD_RETRY_ATTEMPTS, in_width in *.
  split; cbn; unfold in_width; try done; try lia.
  - tauto.
  - split; [exact (counted_u32 _ _ _ Hr1 Hr3)|lia].
  - split; [exact (counted_u32 _ _ _ Hr2 Hr4)|lia].
  - unfold MAX_IBD_RETRY_ATTEMPTS. lia.
Qed.

Definition restored (p : PersistedIbdState) : IbdState :=
  {| phase := p_phase p; start_height := p_start_height p; headers_height := p_headers_height p;
     blocks_height := p_blocks_height p; best_peer_height := p_best_peer_height p;
     pending_blocks := p_pending_blocks p; retry_attempts := p_retry_attempts p;
     last_progress_height := p_last_progress_height p; last_interruption := p_last_interruption p |}.

Definition no_checkpoint (c : ChainState) : Prop :=
  db_metadata (store c) !! IBD_SESSION_METADATA_KEY = None ∧
  db_metadata (store c) !! LEGACY_IBD_SESSION_METADATA_KEY = None.

Lemma clear_checkpoint_total c :
  no_faults → ∃ c', clear_persisted_ibd_state c = (c', Ok tt) ∧ no_checkpoint c' ∧
                    tip_height c' = tip_height c.
Proof.
  intros Hf. unfold clear_persisted_ibd_state, store_op. rewrite (clear_total Hf). eexists.
  split; [done|]. split; [|done]. unfold no_checkpoint. cbn.
  rewrite lookup_delete_ne, !lookup_delete_eq by done. done.
Qed.

(** A checkpoint survives a restart.  Whatever the heights of the controller, the
    checkpoint a node writes can be read back; a node that restarts at the same tip with a
    peer able to serve the saved round continues with exactly the saved controller and
    queues, with the target raised to what the peer announces and a fresh retry budget when
    it is another peer; otherwise it starts afresh from its tip and the checkpoint is gone. *)
Theorem checkpoint_survives_restart c addr ibd round peer_key peer_best_height :
  no_faults → session_ok c addr ibd → round_ok round →
  let p := ibd_snapshot c addr ibd round in
  ∃ c1, persist_ibd_state addr ibd round c = (c1, Ok tt) ∧
    tip_height c1 = tip_height c ∧ tip_hash c1 = tip_hash c ∧
    if checkpoint_resumable c peer_best_height p && is_round_resumable p then
      initialize_ibd_state peer_key peer_best_height c1
      = (c1, Ok (resumed p peer_key peer_best_height (restored p), Some p))
    else
      ∃ c2, initialize_ibd_state peer_key peer_best_height c1
            = (c2, Ok (ibd_new (height_val (tip_height c)) peer_best_height, None)) ∧
            no_checkpoint c2.
Proof.
  intros Hf Hs Hr p. pose proof (ibd_snapshot_ok c addr ibd round Hs Hr) as Hp. fold p in Hp.
  pose proof (to_bytes_wire (T := PersistedIbdState) p Hp) as Hb.
  exists (with_store c (saved (store c) (snapshot_wire p))).
  split; [|split; [done|split; [done|]]].
  { unfold persist_ibd_state, st_bind, st_get, store_op. fold p. by rewrite (save_total Hf _ _ _ Hb). }
  set (c1 := with_store c _).
  assert (Hl : load_checkpoint c1 = (c1, Ok (Some p))).
  { unfold load_checkpoint, store_op, c1. cbn [store with_store].
    rewrite (load_saved Hf _ _ _ Hp Hb). by destruct c. }
  assert (Hc : checkpoint_resumable c1 peer_best_height p = checkpoint_resumable c peer_best_height p) by done.
  unfold initialize_ibd_state. rewrite (st_bind_run _ _ _ _ _ Hl).
  rewrite (st_bind_run (st_get Ok) _ c1 c1 c1 eq_refl), Hc.
  destruct (clear_checkpoint_total c1 Hf) as (c2 & Hclear & Hno & Htip).
  destruct (checkpoint_resumable c peer_best_height p); cbn [negb andb].
  - unfold from_persisted. destruct (is_round_resumable p); cbn [negb]; [done|].
    exists c2. split; [|done]. by rewrite (st_bind_run _ _ _ _ _ Hclear).
  - exists c2. split; [|done]. by rewrite (st_bind_run _ _ _ _ _ Hclear).
Qed.

(** ** Headers *)

Section headers.
Context (Hf : no_faults).

Lemma stored_hash s magic l i hash ob :
  stored s magic l → l !! i = Some (hash, ob) → get_hash_at_height s (Z.of_nat i) = Ok (Some hash).
Proof.
  intros Hs Hi. destruct (so_index _ _ _ Hs i hash ob Hi) as [Hh Hlen].
  unfold get_hash_at_height. rewrite get_hash_value_total; [by cbn [table]; rewrite Hh|done|].
  cbn [table]. rewrite Hh. by intros v [= <-].
Qed.

Lemma locator_walk_total c magic l fuel h step out :
  stored (store c) magic l → h < zlen l < 2 ^ 62 → - 2 ^ 32 ≤ h → 1 ≤ step ≤ 2 ^ zlen out →
  zlen out ≤ MAX_LOCATOR_HASHES → Z.max 0 (h + 1) < Z.of_nat fuel → Forall (.∈ l.*1) out →
  ∃ more, locator_walk fuel c h step out = Ok (out ++ more) ∧ Forall (.∈ l.*1) more ∧
          zlen (out ++ more) ≤ MAX_LOCATOR_HASHES ∧
          (0 ≤ h → zlen out < MAX_LOCATOR_HASHES → ∃ x, l !! Z.to_nat h = Some x ∧ head more = Some x.1).
Proof.
  intros Hs Hh. revert h step out Hh. induction fuel as [|fuel IH]; intros h step out Hh Hlo Hst Hlen Hfuel Hin;
    [lia|]. cbn [locator_walk].
  destruct (Z.leb_spec 0 h) as [H0|H0]; [|exists []; rewrite app_nil_r; cbn; split_and!; done || lia].
  destruct (Z.ltb_spec (zlen out) MAX_LOCATOR_HASHES) as [Hm|Hm];
    [|exists []; rewrite app_nil_r; cbn; split_and!; done || lia]. cbn [andb].
  destruct (lookup_lt_is_Some_2 l (Z.to_nat h)) as [[hash ob] Hx]; [unfold zlen in *; lia|].
  pose proof (stored_hash _ _ _ _ _ _ Hs Hx) as Hg. rewrite Z2Nat.id in Hg by done. rewrite Hg. cbn [rbind].
  assert (Hel : hash ∈ l.*1).
  { apply list_elem_of_fmap. exists (hash, ob). split; [done|by eapply list_elem_of_lookup_2]. }
  set (step' := if 10 <=? zlen (out ++ [hash]) then saturating_mul 64 step 2 else step).
  assert (Hout : zlen (out ++ [hash]) = zlen out + 1) by (rewrite zlen_app; done).
  assert (Hp : 2 ^ zlen out ≤ 2 ^ 32) by (apply Z.pow_le_mono_r; unfold MAX_LOCATOR_HASHES in *; lia).
  assert (Hst' : 1 ≤ step' ≤ 2 ^ zlen (out ++ [hash])).
  { rewrite Hout, Z.pow_add_r by (pose proof (zlen_nonneg out); lia). unfold step', saturating_mul.
    destruct (10 <=? _); lia. }
  assert (Hp' : 2 ^ zlen (out ++ [hash]) ≤ 2 ^ 32)
    by (apply Z.pow_le_mono_r; unfold MAX_LOCATOR_HASHES in *; lia).
  assert (Hi : as_i64 step' = step') by (unfold as_i64; destruct (Z.ltb_spec step' (2 ^ 63)); lia).
  rewrite Hi. unfold i64_sub.
  destruct (Z.leb_spec (- 2 ^ 63) (h - step')); [|lia].
  destruct (Z.ltb_spec (h - step') (2 ^ 63)); [|lia]. cbn [andb rbind].
  destruct (IH (h - step') step' (out ++ [hash])) as (more & -> & Hmore & Hle & _);
    [lia..|by apply Forall_app_2; [|constructor]|].
  exists (hash :: more). rewrite <- app_assoc in *. cbn [app] in *. split_and!; [done|by constructor|done|].
  intros _ _. by exists (hash, ob).
Qed.

(** The locator names blocks of the chain, the tip first. *)
Lemma build_locator_total c magic l :
  stored (store c) magic l → l ≠ [] → zlen l < 2 ^ 62 → height_val (tip_height c) = zlen l - 1 →
  ∃ tip rest, build_locator c = Ok (tip :: rest) ∧ fst <$> last l = Some tip ∧
              Forall (.∈ l.*1) (tip :: rest) ∧ zlen (tip :: rest) ≤ MAX_LOCATOR_HASHES.
Proof.
  intros Hs Hne Hl Ht. assert (0 < zlen l) by (destruct l; [done|rewrite zlen_cons; pose proof (zlen_nonneg l); lia]).
  unfold build_locator. rewrite Ht. unfold as_i64. destruct (Z.ltb_spec (zlen l - 1) (2 ^ 63)); [|lia].
  destruct (locator_walk_total c magic l (S (S (Z.to_nat (zlen l - 1)))) (zlen l - 1) 1 [])
    as (more & -> & Hin & Hle & Hhead); [done|lia..|done|done|lia|constructor|].
  destruct Hhead as (x & Hx & Hm); [lia|done|]. destruct more as [|tip rest]; [done|].
  injection Hm as ->. exists x.1, rest. split_and!; [done| |done|done].
  rewrite last_lookup. replace (pred (length l)) with (Z.to_nat (zlen l - 1)) by (unfold zlen; lia).
  by rewrite Hx.
Qed.

Definition header_bytes_in (s : DomStore) (x : bytes * option Block) : bytes :=
  default [] (db_blocks s !! x.1).

Lemma next_height i : Z.of_nat i < 2 ^ 62 → add_ovf 64 (Z.of_nat i) 1 = (Ok (Z.of_nat (S i)) : Result Z).
Proof.
  intros Hi. unfold add_ovf. by rewrite (proj2 (checked_add_Some 64 _ _ (Z.of_nat (S i)))); [|lia].
Qed.

Lemma collect_headers_exact c magic l n i :
  stored (store c) magic l → zlen l < 2 ^ 62 → height_val (tip_height c) = zlen l - 1 →
  collect_headers n c (replicate 32 0) (Z.of_nat i) = Ok (header_bytes_in (store c) <$> take n (drop i l)).
Proof.
  intros Hs Hl Ht. revert i. induction n as [|n IH]; intros i; [done|]. cbn [collect_headers]. rewrite Ht.
  destruct (Z.leb_spec (Z.of_nat i) (zlen l - 1)) as [Hi|Hi].
  - destruct (lookup_lt_is_Some_2 l i) as [[hash ob] Hx]; [unfold zlen in *; lia|].
    rewrite (stored_hash _ _ _ _ _ _ Hs Hx). cbn [rbind]. unfold get_block_header.
    rewrite get_raw_total by done. cbn [rbind table].
    destruct (so_header _ _ _ Hs i hash ob Hx) as (hb & hd & Hb & _). rewrite Hb.
    rewrite bool_decide_eq_true_2 by done. cbn [negb andb].
    rewrite next_height by (unfold zlen in *; lia). cbn [rbind]. rewrite IH. cbn [rbind]. rewrite (drop_S l (hash, ob) i Hx).
    cbn [firstn take fmap list_fmap]. unfold header_bytes_in at 2. cbn [fst]. by rewrite Hb.
  - by rewrite drop_ge by (unfold zlen in *; lia); cbn.
Qed.

Lemma locate_exact c magic l i hash ob rest :
  stored (store c) magic l → zlen l < 2 ^ 62 → l !! i = Some (hash, ob) →
  locate c (hash :: rest) = Ok (Z.of_nat (S i)).
Proof.
  intros Hs Hl Hx. cbn [locate]. unfold get_block_header. rewrite get_raw_total by done. cbn [rbind table].
  destruct (so_header _ _ _ Hs i hash ob Hx) as (hb & hd & -> & -> & Hh). cbn [rbind]. rewrite Hh.
  rewrite (stored_hash _ _ _ _ _ _ Hs Hx). cbn [rbind]. rewrite bool_decide_eq_true_2 by done.
  apply lookup_lt_Some in Hx. apply next_height. unfold zlen in *. lia.
Qed.

(** A node that is behind on the chain of its peer is sent exactly the headers it lacks.
    Its locator is built without error and within the message limit and names its tip
    first, and the answer of the peer is the next headers of the chain, at most 2000 of
    them, starting right after that tip; if no locator hash is known the answer starts at
    the genesis. *)
Theorem catch_up_headers c1 c2 magic l rest :
  l ≠ [] → zlen (l ++ rest) < 2 ^ 62 →
  stored (store c1) magic l → height_val (tip_height c1) = zlen l - 1 →
  stored (store c2) magic (l ++ rest) → height_val (tip_height c2) = zlen (l ++ rest) - 1 →
  (∃ locator, build_locator c1 = Ok locator ∧ zlen locator ≤ MAX_LOCATOR_HASHES ∧
     build_headers_response c2 {| locator_hashes := locator; stop_hash := replicate 32 0 |}
     = Ok (header_bytes_in (store c2) <$> take (Z.to_nat MAX_HEADERS_PER_MSG) rest)) ∧
  build_headers_response c2 {| locator_hashes := []; stop_hash := replicate 32 0 |}
  = Ok (header_bytes_in (store c2) <$> take (Z.to_nat MAX_HEADERS_PER_MSG) (l ++ rest)).
Proof.
  intros Hne Hl Hs1 Ht1 Hs2 Ht2. split.
  - destruct (build_locator_total c1 magic l) as (tip & more & Hb & Hlast & _ & Hlen); [done|done| |done|].
    { rewrite zlen_app in Hl. pose proof (zlen_nonneg rest). lia. }
    exists (tip :: more). split; [done|]. split; [done|]. unfold build_headers_response.
    cbn [locator_hashes stop_hash]. destruct l as [|x l'] eqn:El using rev_ind; [done|].
    rewrite last_snoc in Hlast. cbn in Hlast. injection Hlast as <-. destruct x as [hash ob]. cbn [fst].
    rewrite (locate_exact c2 magic _ (length l') hash ob more Hs2 Hl).
    2: { rewrite <- app_assoc. by apply list_lookup_middle. }
    cbn [rbind]. rewrite (collect_headers_exact c2 magic _ _ _ Hs2 Hl Ht2).
    rewrite drop_app_length' by (rewrite length_app; cbn; lia). done.
  - unfold build_headers_response. cbn [locate locator_hashes stop_hash rbind].
    exact (collect_headers_exact c2 magic _ _ 0 Hs2 Hl Ht2).
Qed.
End headers.
End sync_laws.
