(* ===== verification/SyncExamples.v ===== *)
(** * Concrete synchronisation

    A node at block 0 of the concrete chain, and a peer one block ahead. *)

From Stdlib Require Import ZArith Lia.
From stdpp Require Import base list strings gmap.
From S2P Require Import Prelude ByteOrder CoreError Core Serialization CryptoHash Wire Pow Curve.
From S2P Require Import Keys Pedersen Schnorr RangeProof RangeProve Transaction BlockHeader Consensus.
From S2P Require Import BlockExamples Genesis Utxo Store StoreLaws StateM Reorg ChainUtxo ChainState.
From S2P Require Import ChainConnect Ledger ChainLaws ChainExamples Ibd IbdLaws NodeSync NodeSyncLaws.

#[local] Existing Instances sample_blake2b sample_hmac sample_curve sample_h sample_zkp_backend.
#[local] Existing Instances sample_lmdb sample_randomx sample_prover.

Definition peer : bytes := str_bytes "127.0.0.1:33369".
Definition node0 : Node (E := unit) :=
  {| env_state := tt; ibd_active_sessions := 0; chain := cs0 |}.

(** ** Sessions *)

(** A peer that serves one block of the best chain in each round *)
Definition raise_tip (s : Node (E := unit) * IbdState) : Node (E := unit) * IbdState :=
  (with_chain s.1 (with_tip (chain s.1) (tip_hash (chain s.1)) {| height_val := tip_of s + 1 |} 0), s.2).
Definition serving (s : Node (E := unit) * IbdState) : (Node (E := unit) * IbdState) * Result bool :=
  (raise_tip s, Ok true).
Definition no_resume (r : IbdRoundState) (s : Node (E := unit) * IbdState)
  : (Node (E := unit) * IbdState) * Result bool := (s, Ok false).
Definition clock (e : unit) : Timestamp := time1.

Lemma serving_advances : rounds_advance serving.
Proof.
  split.
  - intros s s' r [= <- <-]. split_and!; [done|done|]. unfold raise_tip, tip_of. cbn. lia.
  - intros s s' [= <-]. unfold raise_tip, tip_of. cbn. lia.
Qed.


(** A peer whose blocks are all known *)
Definition idle (s : Node (E := unit) * IbdState) : (Node (E := unit) * IbdState) * Result bool :=
  (s, Ok true).


(** ** Checkpoints *)

Definition ibd0 : IbdState := with_phase BlockSync (ibd_new 0 10).
Definition round0 : IbdRoundState := body_round [hash1] 1.

Lemma round0_ok : round_ok round0.
Proof.
  split.
  - split; [done|]. refine (bool_decide_unpack _ _). vm_compute. exact I.
  - split; [done|constructor].
  - vm_compute. split; discriminate.
  - vm_compute. split; discriminate.
  - done.
Qed.
Lemma session0_ok : session_ok cs0 peer ibd0.
Proof.
  split.
  - split; [|vm_compute; reflexivity]. split_and!; [vm_compute; discriminate|vm_compute; reflexivity|].
    refine (bool_decide_unpack _ _). vm_compute. exact I.
  - split; [done|]. refine (bool_decide_unpack _ _). vm_compute. exact I.
  - done.
  - done.
  - done.
Qed.

Lemma checkpoint_survives_restart_witness :
  ∃ c1, persist_ibd_state peer ibd0 round0 cs0 = (c1, Ok tt) ∧
        match initialize_ibd_state peer 10 c1 with
        | (_, Ok (i, Some p)) => phase i = BlockSync ∧ p_pending_blocks p = [hash1]
        | _ => False
        end.
Proof.
  assert (Hf : no_faults) by done.
  destruct (checkpoint_survives_restart cs0 peer ibd0 round0 peer 10 Hf session0_ok round0_ok)
    as (c1 & H1 & _ & _ & H2).
  exists c1. split; [exact H1|].
  assert (Hc : checkpoint_resumable cs0 10 (ibd_snapshot cs0 peer ibd0 round0)
               && is_round_resumable (ibd_snapshot cs0 peer ibd0 round0) = true) by (vm_compute; reflexivity).
  rewrite Hc in H2. rewrite H2. split; reflexivity.
Defined.

(** ** Headers *)

Lemma catch_up_headers_witness :
  build_headers_response extended1.1 {| locator_hashes := [hash0]; stop_hash := replicate 32 0 |}
  = Ok [header_bytes_in (store extended1.1) (hash1, Some first1)].
Proof.
  assert (Hf : no_faults) by done.
  destruct (catch_up_headers Hf cs0 extended1.1 magic chain0 [(hash1, Some first1)])
    as [(locator & Hl & _ & H) _];
    [done|vm_compute; reflexivity|exact (ck_stored _ _ _ chain_ok0)|vm_compute; reflexivity| |
     exact (ck_height _ _ _ chain_ok1)|].
  - exact (ck_stored _ _ _ chain_ok1).
  - assert (Hl' : build_locator cs0 = Ok [hash0]) by (vm_compute; reflexivity).
    rewrite Hl' in Hl. injection Hl as <-. exact H.
Defined.
