(* ===== verification/WireLaws.v ===== *)
(** * Laws of the message codec

    [Wire.v]: decoding never panics, and decoding and encoding are inverse where the payload holds
    no text; payloads with text survive a round trip. *)

From Stdlib Require Import ZArith Lia.
From stdpp Require Import base list strings.
From S2P Require Import Prelude CoreError Core CryptoHash Wire.
Local Open Scope Z_scope.

Lemma Ok_inj {E A} (a b : A) : Ok (E := E) a = Ok b → a = b.
Proof. congruence. Qed.

(** ** Fields *)

Lemma range_Ok data a b x : range data a b = Ok x ↔ (0 ≤ a ≤ b ∧ b ≤ zlen data) ∧ x = slice data a b.
Proof.
  unfold range. destruct (Z.leb_spec 0 a), (Z.leb_spec a b), (Z.leb_spec b (zlen data)); cbn; naive_solver lia.
Qed.
Lemma range_total data a b : 0 ≤ a ≤ b → b ≤ zlen data → range data a b = Ok (slice data a b).
Proof. intros. by apply range_Ok. Qed.
Lemma uint_at_total n data a : 0 ≤ a → 0 ≤ n → a + n ≤ zlen data → uint_at n data a = Ok (le_val (slice data a (a + n))).
Proof. intros. unfold uint_at. by rewrite range_total by lia. Qed.
Lemma byte_at_total data a : 0 ≤ a → a + 1 ≤ zlen data → byte_at data a = Ok (le_val (slice data a (a + 1))).
Proof. intros. unfold byte_at. by rewrite range_total by lia. Qed.

Lemma slice_here_at {A} (l l' : list A) a b : a = 0 → zlen l = b → slice (l ++ l') a b = l.
Proof. intros ->. apply slice_here. Qed.
Lemma slice_full_at {A} (l : list A) a b : a = 0 → zlen l = b → slice l a b = l.
Proof. intros ->. apply slice_full. Qed.

(** The field at given positions of a concatenation *)
Ltac cut_slice :=
  repeat (rewrite slice_skip by (autorewrite with zlen; lia));
  first [rewrite slice_here_at by (autorewrite with zlen; lia)
        |rewrite slice_full_at by (autorewrite with zlen; lia)].

(** The bytes between two positions are the field they decode to. *)
Lemma uint_field n data a b :
  bytes_ok data → 0 ≤ a → b = a + Z.of_nat n → b ≤ zlen data →
  le_bytes n (le_val (slice data a b)) = slice data a b ∧ in_width (8 * Z.of_nat n) (le_val (slice data a b)).
Proof.
  intros Hd Ha -> Hl. assert (Hz : zlen (slice data a (a + Z.of_nat n)) = Z.of_nat n) by (rewrite zlen_slice; lia).
  pose proof (slice_ok data a (a + Z.of_nat n) Hd) as Hs. split.
  - replace n with (length (slice data a (a + Z.of_nat n))) at 1 by (unfold zlen in Hz; lia). by apply le_bytes_le_val.
  - pose proof (le_val_bound _ Hs) as Hb. rewrite Hz in Hb. unfold in_width. rewrite Z.pow_mul_r by lia. done.
Qed.

Lemma byte_field data a : 0 ≤ a → a + 1 ≤ zlen data → [le_val (slice data a (a + 1))] = slice data a (a + 1).
Proof.
  intros Ha Hl. assert (Hz : zlen (slice data a (a + 1)) = 1) by (rewrite zlen_slice; lia).
  destruct (slice data a (a + 1)) as [|x [|y l]]; unfold zlen in Hz; cbn in *; [lia|f_equal; lia|lia].
Qed.

(** ** Message frames *)

Lemma command_from_byte_Ok b c : command_from_byte b = Ok c ↔ command_byte c = b.
Proof.
  unfold command_from_byte. split.
  - intros H. repeat (match type of H with context [if ?x =? ?y then _ else _] => destruct (Z.eqb_spec x y) end;
      [by injection H as <-|]). done.
  - intros <-. by destruct c.
Qed.
Lemma command_from_byte_no_panic b : command_from_byte b ≠ Panic.
Proof. unfold command_from_byte. repeat (destruct (_ =? _); [done|]). done. Qed.
Lemma command_byte_ok c : in_width 8 (command_byte c).
Proof. by destruct c. Qed.

Section frame.
Context `{HB : Blake2b256}.

Definition message_ok (m : WireMessage) : Prop :=
  u32_ok (wm_magic m) ∧ bytes_ok (wm_payload m) ∧ zlen (wm_payload m) ≤ MAX_MESSAGE_PAYLOAD.

Lemma checksum_u32 data : u32_ok (compute_checksum data).
Proof.
  unfold compute_checksum. assert (Hb : bytes_ok (take 4 (blake2b data))) by apply Forall_take, blake2b_bytes.
  pose proof (le_val_bound _ Hb) as H. pose proof (blake2b_len data) as Hl. unfold zlen in *. rewrite length_take in H.
  replace (4 `min` length (blake2b data))%nat with 4%nat in H by lia. done.
Qed.

Lemma payload_u32 (p : bytes) : zlen p ≤ MAX_MESSAGE_PAYLOAD → in_width 32 (zlen p).
Proof. intros H. pose proof (zlen_nonneg p). unfold in_width. change MAX_MESSAGE_PAYLOAD with 16777220 in H. lia. Qed.

Lemma wire_to_bytes_ok m : message_ok m → bytes_ok (wire_to_bytes m).
Proof.
  intros (_ & Hp & _). unfold wire_to_bytes. repeat (apply bytes_ok_app; split; [auto with dom|]); [|done].
  constructor; [apply command_byte_ok|constructor].
Qed.

Lemma wire_roundtrip m : message_ok m → wire_from_bytes (wire_to_bytes m) (wm_magic m) = Ok m.
Proof.
  intros (Hm & Hp & Hl). pose proof (payload_u32 _ Hl) as Hl32. pose proof (zlen_nonneg (wm_payload m)).
  assert (Hlen : zlen (wire_to_bytes m) = 13 + zlen (wm_payload m)) by (unfold wire_to_bytes; autorewrite with zlen; lia).
  unfold wire_from_bytes. rewrite Hlen. destruct (Z.ltb_spec (13 + zlen (wm_payload m)) 13); [lia|].
  rewrite !uint_at_total, byte_at_total, range_total by lia. unfold wire_to_bytes. cbn [rbind].
  cut_slice. rewrite le_val_le_bytes_id by done. rewrite Z.eqb_refl. cbn [negb rbind].
  cut_slice. rewrite (proj2 (command_from_byte_Ok _ (wm_command m))) by (cbn; lia). cbn [rbind].
  cut_slice. rewrite le_val_le_bytes_id by done. cut_slice. rewrite le_val_le_bytes_id by apply checksum_u32.
  destruct (Z.ltb_spec MAX_MESSAGE_PAYLOAD (zlen (wm_payload m))); [lia|]. rewrite Z.eqb_refl. cbn [negb rbind].
  cut_slice. rewrite Z.eqb_refl. cbn [negb]. by destruct m.
Qed.

Lemma wire_from_bytes_no_panic data magic : wire_from_bytes data magic ≠ Panic.
Proof.
  unfold wire_from_bytes. destruct (Z.ltb_spec (zlen data) 13); [done|].
  rewrite !uint_at_total, byte_at_total, range_total by lia. cbn [rbind].
  destruct (negb _); [done|]. pose proof (command_from_byte_no_panic (le_val (slice data 4 (4 + 1)))).
  destruct (command_from_byte _); cbn [rbind]; [|done|done]. repeat (destruct (negb _); [done|]). by repeat case_match.
Qed.

Lemma wire_from_bytes_Ok data magic m :
  bytes_ok data → wire_from_bytes data magic = Ok m → message_ok m ∧ wm_magic m = magic ∧ wire_to_bytes m = data.
Proof.
  intros Hd. unfold wire_from_bytes. destruct (Z.ltb_spec (zlen data) 13); [done|].
  rewrite !uint_at_total, byte_at_total, range_total by lia. cbn [rbind].
  destruct (Z.eqb_spec (le_val (slice data 0 (0 + 4))) magic) as [Hm|]; [|done]. cbn [negb]. intros Hr. res_inv. bool_inv.
  apply command_from_byte_Ok in Hm0. unfold message_ok, wire_to_bytes. cbn [wm_magic wm_command wm_payload].
  rewrite zlen_slice by lia. destruct (uint_field 4 data 0 (0 + 4) Hd) as [Hf0 Hw0]; [lia..|].
  destruct (uint_field 4 data 5 (5 + 4) Hd) as [Hf5 _]; [lia..|]. destruct (uint_field 4 data 9 (9 + 4) Hd) as [Hf9 _]; [lia..|].
  split_and!; [done|by apply slice_ok|lia|done|].
  replace (zlen data - 13) with (le_val (slice data 5 (5 + 4))) by lia. rewrite <- Heqb1, Hm0, byte_field, Hf0, Hf5, Hf9 by lia.
  rewrite !slice_cat by lia. by apply slice_full.
Qed.

(** Decoding a frame accepts exactly the encodings of well-formed messages of the network. *)
Lemma wire_exact data magic m :
  bytes_ok data → wire_from_bytes data magic = Ok m ↔ message_ok m ∧ wm_magic m = magic ∧ wire_to_bytes m = data.
Proof.
  intros Hd. split; [by apply wire_from_bytes_Ok|]. intros (Hm & <- & <-). by apply wire_roundtrip.
Qed.
End frame.

(** ** Payloads *)

(** A payload codec: what decodes, and the law that decoding inverts encoding *)
Class Payload (T : Type) : Type := {
  pl_ok : T → Prop;
  pl_to : T → Result bytes;
  pl_from : bytes → Result T;
  pl_exact bs p : bytes_ok bs → pl_from bs ≠ Panic ∧ (pl_from bs = Ok p ↔ pl_ok p ∧ pl_to p = Ok bs);
}.

Definition hash32_ok (h : bytes) : Prop := zlen h = 32 ∧ bytes_ok h.

Lemma mjoin_cons {A} (x : list A) l : mjoin (x :: l) = x ++ mjoin l.
Proof. done. Qed.

Lemma mjoin_hashes_len (l : list bytes) : Forall (λ h, zlen h = 32) l → zlen (mjoin l) = 32 * zlen l.
Proof.
  induction 1 as [|h l Hh _ IH]; [done|]. rewrite mjoin_cons. rewrite zlen_app, zlen_cons, IH, Hh. lia.
Qed.
Lemma mjoin_hashes_inj (l l' : list bytes) :
  Forall (λ h, zlen h = 32) l → Forall (λ h, zlen h = 32) l' → length l = length l' → mjoin l = mjoin l' → l = l'.
Proof.
  intros Hl. revert l'. induction Hl as [|h l Hh _ IH]; intros [|h' l'] Hl' Hlen He; try done; [].
  apply Forall_cons in Hl' as [Hh' Hl']. rewrite !mjoin_cons in He. apply app_inj_1 in He as [-> He]; [|unfold zlen in *; lia].
  f_equal. apply IH; [done|by injection Hlen|done].
Qed.

Lemma read_hashes_total data i n :
  bytes_ok data → 0 ≤ i → 2 + (i + Z.of_nat n) * 32 ≤ zlen data →
  ∃ hs, read_hashes data i n = Ok hs ∧ length hs = n ∧ Forall hash32_ok hs ∧
        mjoin hs = slice data (2 + i * 32) (2 + (i + Z.of_nat n) * 32).
Proof.
  intros Hd. revert i. induction n as [|n IH]; intros i Hi Hl; cbn [read_hashes].
  - exists []. split_and!; try done. unfold slice. by replace (Z.to_nat _) with 0%nat by lia.
  - rewrite range_total by lia. cbn [rbind]. destruct (IH (i + 1)) as (hs & -> & Hlen & Hok & Hj); [lia..|]. cbn [rbind].
    eexists. split; [done|]. split_and!; [cbn; lia|constructor; [|done]|].
    + split; [rewrite zlen_slice; lia|by apply slice_ok].
    + rewrite mjoin_cons. rewrite Hj. replace (2 + (i + 1) * 32) with (2 + i * 32 + 32) by lia.
      rewrite slice_cat by lia. f_equal. lia.
Qed.

Lemma hashes_ok_len l : Forall hash32_ok l → Forall (λ h : bytes, zlen h = 32) l.
Proof. intros H. eapply Forall_impl; [exact H|]. by intros h [? _]. Qed.

(** [read_hashes] on a concatenation *)
Lemma read_hashes_app pre l post :
  Forall hash32_ok l → bytes_ok pre → bytes_ok post → zlen pre = 2 →
  read_hashes (pre ++ mjoin l ++ post) 0 (length l) = Ok l.
Proof.
  intros Hl Hp Hq H2. pose proof (hashes_ok_len _ Hl) as Hl'. pose proof (mjoin_hashes_len _ Hl') as Hj.
  assert (Hd : bytes_ok (pre ++ mjoin l ++ post)).
  { repeat (apply bytes_ok_app; split); try done. clear -Hl. induction Hl as [|h l [_ Hh] _ IH]; [constructor|].
    rewrite mjoin_cons. by apply bytes_ok_app. }
  destruct (read_hashes_total _ 0 (length l) Hd) as (hs & -> & Hlen & Hok & He); [lia|rewrite !zlen_app; unfold zlen in *; lia|].
  f_equal. apply mjoin_hashes_inj; [by apply hashes_ok_len|done|done|]. rewrite He.
  rewrite slice_skip by lia. apply slice_here_at; unfold zlen in *; lia.
Qed.

Lemma mjoin_ok (l : list bytes) : Forall bytes_ok l → bytes_ok (mjoin l).
Proof. induction 1; [constructor|]. rewrite mjoin_cons. by apply bytes_ok_app. Qed.
Lemma hashes_join_ok l : Forall hash32_ok l → bytes_ok (mjoin l).
Proof. intros H. apply mjoin_ok. eapply Forall_impl; [exact H|]. by intros h [_ ?]. Qed.

Lemma count_u16 {A} (l : list A) max : zlen l ≤ max → max < 2 ^ 16 → in_width 16 (zlen l).
Proof. intros. pose proof (zlen_nonneg l). unfold in_width. lia. Qed.

Definition getblockdata_ok (p : GetBlockDataPayload) : Prop :=
  zlen (gb_hashes p) ≤ MAX_GETBLOCKDATA_HASHES ∧ Forall hash32_ok (gb_hashes p).

(** The shape every counted list of hashes shares: two bytes of count, the hashes, a suffix *)
Lemma hashes_data_eq data n post :
  bytes_ok data → 0 ≤ n → 2 + n * 32 + post = zlen data → 0 ≤ post → le_val (slice data 0 (0 + 2)) = n →
  ∃ hs, read_hashes data 0 (Z.to_nat n) = Ok hs ∧ zlen hs = n ∧ Forall hash32_ok hs ∧
        data = le_bytes 2 (zlen hs) ++ mjoin hs ++ slice data (2 + n * 32) (zlen data).
Proof.
  intros Hd Hn Hl Hp Hv. destruct (read_hashes_total data 0 (Z.to_nat n) Hd) as (hs & Hr & Hlen & Hok & Hj); [lia..|].
  exists hs. assert (Hz : zlen hs = n) by (unfold zlen; lia). split_and!; try done.
  rewrite Hz, Hj, <- Hv. destruct (uint_field 2 data 0 (0 + 2) Hd) as [-> _]; [lia..|]. rewrite Hv.
  replace (2 + (0 + Z.of_nat (Z.to_nat n)) * 32) with (2 + n * 32) by lia. change (2 + 0 * 32) with (0 + 2).
  rewrite !slice_cat by lia. symmetry. by apply slice_full.
Qed.

#[export, refine] Instance getblockdata_payload : Payload GetBlockDataPayload := {|
  pl_ok := getblockdata_ok; pl_to := getblockdata_to_bytes; pl_from := getblockdata_from_bytes |}.
Proof.
  intros bs p Hbs. split; [|split].
  - unfold getblockdata_from_bytes. destruct (Z.ltb_spec (zlen bs) 2); [done|].
    rewrite uint_at_total by lia. cbn [rbind]. destruct (_ <? _); [done|].
    destruct (Z.eqb_spec (zlen bs) (2 + le_val (slice bs 0 (0 + 2)) * 32)); [|done]. cbn [negb].
    destruct (uint_field 2 bs 0 (0 + 2) Hbs) as [_ Hw]; [lia..|]. unfold in_width in Hw.
    destruct (hashes_data_eq bs _ 0 Hbs (proj1 Hw)) as (hs & -> & _); [lia..|done|done].
  - unfold getblockdata_from_bytes, getblockdata_ok, getblockdata_to_bytes. destruct (Z.ltb_spec (zlen bs) 2); [done|].
    rewrite uint_at_total by lia. cbn [rbind]. destruct (Z.ltb_spec MAX_GETBLOCKDATA_HASHES (le_val (slice bs 0 (0 + 2)))); [done|].
    destruct (Z.eqb_spec (zlen bs) (2 + le_val (slice bs 0 (0 + 2)) * 32)) as [He|]; [|done]. cbn [negb].
    destruct (uint_field 2 bs 0 (0 + 2) Hbs) as [_ Hw]; [lia..|]. unfold in_width in Hw.
    destruct (hashes_data_eq bs _ 0 Hbs (proj1 Hw)) as (hs & -> & Hz & Hok & Hdata); [lia..|done|]. cbn [rbind]. intros [= <-]. cbn [gb_hashes].
    split; [split; [lia|done]|]. destruct (Z.ltb_spec MAX_GETBLOCKDATA_HASHES (zlen hs)); [lia|]. f_equal.
    rewrite <- He in Hdata. unfold slice in Hdata. rewrite Z.sub_diag, app_nil_r in Hdata. by symmetry.
  - intros [[Hc Hok] He]. unfold getblockdata_to_bytes in He. destruct (Z.ltb_spec MAX_GETBLOCKDATA_HASHES (zlen (gb_hashes p))); [done|].
    apply Ok_inj in He as <-. pose proof (mjoin_hashes_len _ (hashes_ok_len _ Hok)) as Hj. pose proof (zlen_nonneg (gb_hashes p)).
    assert (Hlen : zlen (le_bytes 2 (zlen (gb_hashes p)) ++ mjoin (gb_hashes p)) = 2 + zlen (gb_hashes p) * 32) by (autorewrite with zlen; lia).
    unfold getblockdata_from_bytes. rewrite Hlen. destruct (Z.ltb_spec (2 + zlen (gb_hashes p) * 32) 2); [lia|].
    rewrite uint_at_total by lia. cut_slice. rewrite le_val_le_bytes_id by (by eapply count_u16). cbn [rbind].
    destruct (Z.ltb_spec MAX_GETBLOCKDATA_HASHES (zlen (gb_hashes p))); [lia|]. rewrite Z.eqb_refl. cbn [negb].
    rewrite <- (app_nil_r (mjoin (gb_hashes p))), zlen_to_nat, read_hashes_app; try done; [|apply le_bytes_ok|constructor].
    cbn [rbind]. by destruct p.
Defined.

Definition getheaders_ok (p : GetHeadersPayload) : Prop :=
  zlen (locator_hashes p) ≤ MAX_LOCATOR_HASHES ∧ Forall hash32_ok (locator_hashes p) ∧ hash32_ok (stop_hash p).

#[export, refine] Instance getheaders_payload : Payload GetHeadersPayload := {|
  pl_ok := getheaders_ok; pl_to := getheaders_to_bytes; pl_from := getheaders_from_bytes |}.
Proof.
  intros bs p Hbs. split; [|split].
  - unfold getheaders_from_bytes. destruct (Z.ltb_spec (zlen bs) (2 + 32)); [done|].
    rewrite uint_at_total by lia. cbn [rbind]. destruct (_ <? _); [done|].
    destruct (Z.eqb_spec (zlen bs) (2 + le_val (slice bs 0 (0 + 2)) * 32 + 32)); [|done]. cbn [negb].
    destruct (uint_field 2 bs 0 (0 + 2) Hbs) as [_ Hw]; [lia..|]. unfold in_width in Hw.
    destruct (hashes_data_eq bs _ 32 Hbs (proj1 Hw)) as (hs & -> & _); [lia..|done|]. cbn [rbind]. by rewrite range_total by lia.
  - unfold getheaders_from_bytes, getheaders_ok, getheaders_to_bytes. destruct (Z.ltb_spec (zlen bs) (2 + 32)); [done|].
    rewrite uint_at_total by lia. cbn [rbind]. destruct (Z.ltb_spec MAX_LOCATOR_HASHES (le_val (slice bs 0 (0 + 2)))); [done|].
    destruct (Z.eqb_spec (zlen bs) (2 + le_val (slice bs 0 (0 + 2)) * 32 + 32)) as [He|]; [|done]. cbn [negb].
    destruct (uint_field 2 bs 0 (0 + 2) Hbs) as [_ Hw]; [lia..|]. unfold in_width in Hw.
    destruct (hashes_data_eq bs _ 32 Hbs (proj1 Hw)) as (hs & -> & Hz & Hok & Hdata); [lia..|done|]. cbn [rbind].
    rewrite range_total by lia. cbn [rbind]. intros [= <-]. cbn [locator_hashes stop_hash]. rewrite He in Hdata.
    split; [split_and!; [lia|done|split; [rewrite zlen_slice; lia|by apply slice_ok]]|].
    destruct (Z.ltb_spec MAX_LOCATOR_HASHES (zlen hs)); [lia|]. f_equal. by symmetry.
  - intros [(Hc & Hok & Hs) He]. unfold getheaders_to_bytes in He. destruct (Z.ltb_spec MAX_LOCATOR_HASHES (zlen (locator_hashes p))); [done|].
    apply Ok_inj in He as <-. pose proof (mjoin_hashes_len _ (hashes_ok_len _ Hok)) as Hj. pose proof (zlen_nonneg (locator_hashes p)).
    pose proof Hs as [Hs32 Hsb].
    assert (Hlen : zlen (le_bytes 2 (zlen (locator_hashes p)) ++ mjoin (locator_hashes p) ++ stop_hash p)
                   = 2 + zlen (locator_hashes p) * 32 + 32) by (autorewrite with zlen; lia).
    unfold getheaders_from_bytes. rewrite Hlen. destruct (Z.ltb_spec (2 + zlen (locator_hashes p) * 32 + 32) (2 + 32)); [lia|].
    rewrite uint_at_total by lia. cut_slice. rewrite le_val_le_bytes_id by (by eapply count_u16). cbn [rbind].
    destruct (Z.ltb_spec MAX_LOCATOR_HASHES (zlen (locator_hashes p))); [lia|]. rewrite Z.eqb_refl. cbn [negb].
    rewrite zlen_to_nat, read_hashes_app; try done; [|apply le_bytes_ok]. cbn [rbind]. rewrite range_total by lia.
    cut_slice. cbn [rbind]. by destruct p.
Defined.

Definition block_payload_ok (p : BlockPayload) : Prop :=
  zlen (block_bytes p) ≤ MAX_BLOCK_SERIALIZED_SIZE ∧ bytes_ok (block_bytes p).

#[export, refine] Instance block_payload : Payload BlockPayload := {|
  pl_ok := block_payload_ok; pl_to := block_payload_to_bytes; pl_from := block_payload_from_bytes |}.
Proof.
  intros bs p Hbs. unfold block_payload_from_bytes, block_payload_to_bytes, block_payload_ok.
  destruct (Z.ltb_spec (zlen bs) 4).
  { split; [done|]. split; [done|]. intros [[Hc _] He]. destruct (_ <? _); [done|]. apply Ok_inj in He as <-.
    revert H. autorewrite with zlen. pose proof (zlen_nonneg (block_bytes p)). lia. }
  rewrite uint_at_total, range_total by lia. cbn [rbind]. destruct (uint_field 4 bs 0 (0 + 4) Hbs) as [Hf Hw]; [lia..|].
  split; [by repeat case_match|]. split.
  - destruct (Z.ltb_spec MAX_BLOCK_SERIALIZED_SIZE (le_val (slice bs 0 (0 + 4)))); [done|].
    destruct (Z.eqb_spec (zlen bs) (4 + le_val (slice bs 0 (0 + 4)))); [|done]. cbn [negb]. intros [= <-]. cbn [block_bytes].
    assert (Hz : zlen (slice bs 4 (zlen bs)) = le_val (slice bs 0 (0 + 4))) by (rewrite zlen_slice; lia). rewrite Hz.
    split; [split; [lia|by apply slice_ok]|]. destruct (Z.ltb_spec MAX_BLOCK_SERIALIZED_SIZE (le_val (slice bs 0 (0 + 4)))); [lia|].
    f_equal. rewrite Hf, slice_cat by lia. by apply slice_full.
  - intros [[Hc Hb] He]. destruct (Z.ltb_spec MAX_BLOCK_SERIALIZED_SIZE (zlen (block_bytes p))); [done|]. apply Ok_inj in He as <-.
    assert (Hw' : in_width 32 (zlen (block_bytes p))).
    { pose proof (zlen_nonneg (block_bytes p)). unfold in_width. change MAX_BLOCK_SERIALIZED_SIZE with 16777216 in Hc. lia. }
    assert (Hlen : zlen (le_bytes 4 (zlen (block_bytes p)) ++ block_bytes p) = 4 + zlen (block_bytes p)) by (autorewrite with zlen; lia).
    rewrite Hlen. cut_slice. rewrite le_val_le_bytes_id by done. destruct (Z.ltb_spec MAX_BLOCK_SERIALIZED_SIZE (zlen (block_bytes p))); [lia|].
    rewrite Z.eqb_refl. cbn [negb]. rewrite <- Hlen. cut_slice. by destruct p.
Defined.

(** *** Headers *)

Definition header_entry_wire (h : bytes) : bytes := le_bytes 4 (zlen h) ++ h.
Definition header_bytes_ok (h : bytes) : Prop := zlen h ≤ 1024 ∧ bytes_ok h.
Definition headers_ok (p : HeadersPayload) : Prop :=
  zlen (hp_headers p) ≤ MAX_HEADERS_PER_MSG ∧ Forall header_bytes_ok (hp_headers p).

Lemma header_u32 h : header_bytes_ok h → in_width 32 (zlen h).
Proof. intros [Hh _]. pose proof (zlen_nonneg h). unfold in_width. lia. Qed.

Lemma read_headers_no_panic data pos n : bytes_ok data → 0 ≤ pos → read_headers data pos n ≠ Panic.
Proof.
  intros Hd. revert pos. induction n as [|n IH]; intros pos Hp; [done|]. cbn [read_headers].
  destruct (Z.ltb_spec (zlen data) (pos + 4)); [done|]. rewrite uint_at_total by lia. cbn [rbind].
  destruct (uint_field 4 data pos (pos + 4) Hd) as [_ Hw]; [lia..|]. unfold in_width in Hw. destruct (_ <? _); [done|].
  destruct (Z.ltb_spec (zlen data) (pos + 4 + le_val (slice data pos (pos + 4)))); [done|]. rewrite range_total by lia. cbn [rbind].
  specialize (IH (pos + 4 + le_val (slice data pos (pos + 4)))). destruct (read_headers _ _ n) as [[hs q]| |]; cbn [rbind]; try done.
  intros _. by apply IH; [lia|].
Qed.

Lemma read_headers_Ok data pos n hs pos' :
  bytes_ok data → 0 ≤ pos ≤ zlen data → read_headers data pos n = Ok (hs, pos') →
  length hs = n ∧ Forall header_bytes_ok hs ∧ pos ≤ pos' ≤ zlen data ∧ mjoin (header_entry_wire <$> hs) = slice data pos pos'.
Proof.
  intros Hd. revert pos hs. induction n as [|n IH]; intros pos hs Hp H; cbn [read_headers] in H.
  - apply Ok_inj in H as [= <- <-]. split_and!; try done; [lia..|]. unfold slice. by rewrite Z.sub_diag.
  - destruct (Z.ltb_spec (zlen data) (pos + 4)); [done|]. rewrite uint_at_total in H by lia. cbn [rbind] in H.
    destruct (uint_field 4 data pos (pos + 4) Hd) as [Hf Hw]; [lia..|]. unfold in_width in Hw.
    set (hlen := le_val (slice data pos (pos + 4))) in *. destruct (Z.ltb_spec 1024 hlen); [done|].
    destruct (Z.ltb_spec (zlen data) (pos + 4 + hlen)); [done|]. rewrite range_total in H by lia. cbn [rbind] in H.
    destruct (read_headers data (pos + 4 + hlen) n) as [[rest q]| |] eqn:Hr; try done. cbn [rbind] in H. apply Ok_inj in H as [= <- <-].
    apply IH in Hr as (Hlen & Hok & Hq & Hj); [|lia]. assert (Hz : zlen (slice data (pos + 4) (pos + 4 + hlen)) = hlen) by (rewrite zlen_slice; lia).
    split_and!; [cbn; lia|constructor; [split; [lia|by apply slice_ok]|done]|lia..|].
    rewrite fmap_cons, mjoin_cons, Hj. unfold header_entry_wire. rewrite Hz, Hf, !slice_cat by lia. done.
Qed.

Lemma read_headers_app pre hs post :
  Forall header_bytes_ok hs →
  read_headers (pre ++ mjoin (header_entry_wire <$> hs) ++ post) (zlen pre) (length hs)
  = Ok (hs, zlen (pre ++ mjoin (header_entry_wire <$> hs))).
Proof.
  intros Hhs. revert pre. induction Hhs as [|h hs Hh _ IH]; intros pre.
  - cbn [read_headers length fmap list_fmap]. by rewrite app_nil_r.
  - cbn [read_headers length]. rewrite fmap_cons, mjoin_cons.
    replace (pre ++ (header_entry_wire h ++ mjoin (header_entry_wire <$> hs)) ++ post)
      with (pre ++ le_bytes 4 (zlen h) ++ h ++ mjoin (header_entry_wire <$> hs) ++ post) by (unfold header_entry_wire; by rewrite <- !(assoc_L (++))).
    set (data := pre ++ le_bytes 4 (zlen h) ++ h ++ mjoin (header_entry_wire <$> hs) ++ post).
    pose proof (zlen_nonneg h). pose proof (zlen_nonneg pre). pose proof (header_u32 h Hh). pose proof (zlen_nonneg (mjoin (header_entry_wire <$> hs) ++ post)).
    assert (Hl : zlen data = zlen pre + 4 + zlen h + zlen (mjoin (header_entry_wire <$> hs) ++ post)) by (unfold data; autorewrite with zlen; lia).
    destruct (Z.ltb_spec (zlen data) (zlen pre + 4)); [lia|]. rewrite uint_at_total by lia.
    replace (slice data (zlen pre) (zlen pre + 4)) with (le_bytes 4 (zlen h)) by (unfold data; by cut_slice).
    rewrite le_val_le_bytes_id by done. cbn [rbind]. destruct (Z.ltb_spec 1024 (zlen h)); [destruct Hh; lia|].
    destruct (Z.ltb_spec (zlen data) (zlen pre + 4 + zlen h)); [lia|]. rewrite range_total by lia. cbn [rbind].
    replace (slice data (zlen pre + 4) (zlen pre + 4 + zlen h)) with h by (unfold data; by cut_slice).
    specialize (IH (pre ++ le_bytes 4 (zlen h) ++ h)). rewrite <- !(assoc_L (++)) in IH.
    replace (zlen (pre ++ le_bytes 4 (zlen h) ++ h)) with (zlen pre + 4 + zlen h) in IH by (autorewrite with zlen; lia).
    fold data in IH. rewrite IH. cbn [rbind]. unfold header_entry_wire at 2. by rewrite <- !(assoc_L (++)).
Qed.

#[export, refine] Instance headers_payload : Payload HeadersPayload := {|
  pl_ok := headers_ok; pl_to := headers_to_bytes; pl_from := headers_from_bytes |}.
Proof.
  intros bs p Hbs. unfold headers_from_bytes, headers_to_bytes, headers_ok. fold header_entry_wire.
  split; [|split].
  - destruct (Z.ltb_spec (zlen bs) 2); [done|]. rewrite uint_at_total by lia. cbn [rbind]. destruct (_ <? _); [done|].
    pose proof (read_headers_no_panic bs 2 (Z.to_nat (le_val (slice bs 0 (0 + 2)))) Hbs) as Hnp.
    destruct (read_headers _ _ _) as [[hs q]| |]; cbn [rbind]; [|done|by specialize (Hnp ltac:(lia))].
    by destruct (negb _).
  - destruct (Z.ltb_spec (zlen bs) 2); [done|]. rewrite uint_at_total by lia. cbn [rbind].
    destruct (Z.ltb_spec MAX_HEADERS_PER_MSG (le_val (slice bs 0 (0 + 2)))); [done|].
    destruct (uint_field 2 bs 0 (0 + 2) Hbs) as [Hf Hw]; [lia..|]. unfold in_width in Hw.
    destruct (read_headers _ _ _) as [[hs q]| |] eqn:Hr; cbn [rbind]; try done.
    apply read_headers_Ok in Hr as (Hlen & Hok & Hq & Hj); [|done|lia]. destruct (Z.eqb_spec q (zlen bs)) as [->|]; [|done].
    cbn [negb]. intros [= <-]. cbn [hp_headers]. assert (Hz : zlen hs = le_val (slice bs 0 (0 + 2))) by (unfold zlen; lia).
    split; [split; [lia|done]|]. destruct (Z.ltb_spec MAX_HEADERS_PER_MSG (zlen hs)); [lia|]. f_equal.
    change (λ h : list Z, le_bytes 4 (zlen h) ++ h) with header_entry_wire. rewrite Hj, Hz, Hf, slice_cat by lia. by apply slice_full.
  - intros [[Hc Hok] He]. destruct (Z.ltb_spec MAX_HEADERS_PER_MSG (zlen (hp_headers p))); [lia|].
    apply Ok_inj in He as <-. change (λ h : list Z, le_bytes 4 (zlen h) ++ h) with header_entry_wire.
    set (data := le_bytes 2 (zlen (hp_headers p)) ++ mjoin (header_entry_wire <$> hp_headers p)).
    pose proof (zlen_nonneg (mjoin (header_entry_wire <$> hp_headers p))).
    assert (Hl : zlen data = 2 + zlen (mjoin (header_entry_wire <$> hp_headers p))) by (unfold data; autorewrite with zlen; lia).
    destruct (Z.ltb_spec (zlen data) 2); [lia|]. rewrite uint_at_total by lia. unfold data at 1. cut_slice.
    rewrite le_val_le_bytes_id by (by eapply count_u16). cbn [rbind]. destruct (Z.ltb_spec MAX_HEADERS_PER_MSG (zlen (hp_headers p))); [lia|].
    pose proof (read_headers_app (le_bytes 2 (zlen (hp_headers p))) (hp_headers p) [] Hok) as Hr. rewrite app_nil_r, zlen_le_bytes in Hr.
    rewrite zlen_to_nat. unfold data at 1. change (Z.of_nat 2) with 2 in Hr. rewrite Hr. cbn [rbind]. fold data. rewrite Z.eqb_refl. by destruct p.
Defined.

#[export, refine] Instance getaddr_payload : Payload unit := {|
  pl_ok _ := True; pl_to _ := getaddr_to_bytes; pl_from := getaddr_from_bytes |}.
Proof.
  intros bs [] _. unfold getaddr_from_bytes, getaddr_to_bytes. destruct (Z.eqb_spec (zlen bs) 0) as [H|H]; cbn [negb].
  - apply zlen_0_nil in H as ->. done.
  - split; [done|]. split; [done|]. intros [_ He]. apply Ok_inj in He as <-. done.
Defined.

(** ** Text *)

Lemma head_bounds b : b ≠ [] → (1 ≤ (utf8_head b).1 ≤ length b)%nat.
Proof.
  destruct b as [|c t]; [done|]. intros _. cbn [utf8_head]. destruct (sequence_len c) as [|[|n]]; cbn; [lia..|].
  destruct t as [|d t']; cbn; [lia|]. destruct (second_byte_ok c d); cbn; [|lia].
  destruct n as [|[|[|n]]], t' as [|e [|f t'']]; cbn; repeat case_match; cbn; lia.
Qed.

Lemma head_take b r : b ≠ [] → (utf8_head b).2 = true → utf8_head (take (utf8_head b).1 b ++ r) = utf8_head b.
Proof.
  destruct b as [|c t]; [done|]. intros _. cbn [utf8_head]. destruct (sequence_len c) as [|[|n]] eqn:Hc; cbn; [done|by rewrite Hc|].
  destruct t as [|d t']; cbn; [done|]. destruct (second_byte_ok c d) eqn:Hd; cbn; [|done].
  destruct n as [|[|[|n]]], t' as [|e [|f t'']]; cbn;
    repeat match goal with |- context [continuation ?x] => destruct (continuation x) eqn:? end; cbn; intros; try done; rewrite ?Hc, ?Hd; cbn;
    repeat match goal with H : continuation _ = _ |- _ => rewrite H end; done.
Qed.

Lemma utf8_loop_step f b : b ≠ [] → utf8_loop (S f) b = (utf8_head b).2 && utf8_loop f (drop (utf8_head b).1 b).
Proof. destruct b as [|c t]; [done|]. intros _. cbn [utf8_loop]. by destruct (utf8_head (c :: t)). Qed.

Lemma utf8_loop_fuel b f g : (length b ≤ f)%nat → (length b ≤ g)%nat → utf8_loop f b = utf8_loop g b.
Proof.
  revert b g. induction f as [|f IH]; intros b g Hf Hg.
  { destruct b; [|cbn in Hf; lia]. by destruct g. }
  destruct b as [|c t]; [by destruct g|]. destruct g as [|g]; [cbn in Hg; lia|]. cbn [utf8_loop].
  pose proof (head_bounds (c :: t) ltac:(done)) as Hb. destruct (utf8_head (c :: t)) as [n v]. cbn [fst] in Hb. f_equal.
  apply IH; rewrite length_drop; lia.
Qed.

Lemma lossy_valid_id b : utf8_text b = true → from_utf8_lossy b = b.
Proof.
  unfold utf8_text, from_utf8_lossy. remember (length b) as f eqn:Hf. assert (Hle : (length b ≤ f)%nat) by lia. clear Hf.
  revert b Hle. induction f as [|f IH]; intros b Hle; [destruct b; [done|cbn in Hle; lia]|].
  destruct b as [|c t]; [done|]. cbn [utf8_loop lossy_loop]. pose proof (head_bounds (c :: t) ltac:(done)) as Hb.
  destruct (utf8_head (c :: t)) as [n v]. cbn [fst] in Hb. destruct v; [|done]. cbn [andb]. intros H.
  rewrite IH; [apply take_drop|rewrite length_drop; lia|done].
Qed.

(** What decoding yields is always text. *)
Lemma lossy_is_valid b : utf8_text (from_utf8_lossy b) = true.
Proof.
  unfold from_utf8_lossy. generalize (length b). intros f. revert b. induction f as [|f IH]; intros b; [done|].
  destruct b as [|c t]; [done|]. cbn [lossy_loop]. pose proof (head_take (c :: t)) as Ht. pose proof (head_bounds (c :: t) ltac:(done)) as Hb.
  destruct (utf8_head (c :: t)) as [n v]. cbn [fst snd] in *. specialize (IH (drop n (c :: t))). unfold utf8_text in *.
  set (r := lossy_loop f (drop n (c :: t))) in *. destruct v.
  - specialize (Ht r ltac:(done) eq_refl). set (p := take n (c :: t)) in *. assert (Hp : length p = n) by (unfold p; rewrite length_take; lia).
    rewrite length_app, Hp. destruct n as [|n]; [lia|]. destruct p as [|x p']; [done|]. cbn [app utf8_loop Nat.add] in *. rewrite Ht. cbn [andb].
    change (x :: p' ++ r) with ((x :: p') ++ r). rewrite <- Hp, drop_app_length.
    rewrite (utf8_loop_fuel r _ (length r)); [done|cbn in Hp; lia|lia].
  - change (length ([0xEF; 0xBF; 0xBD] ++ r)) with (S (S (S (length r)))). rewrite utf8_loop_step by done.
    change (utf8_head ([0xEF; 0xBF; 0xBD] ++ r)) with (3%nat, true). cbn [fst snd andb].
    change (drop 3 ([0xEF; 0xBF; 0xBD] ++ r)) with r. rewrite (utf8_loop_fuel r _ (length r)); [done|lia..].
Qed.

(** ** Hello *)

Definition hello_ok (h : HelloPayload) : Prop :=
  u32_ok (hello_version h) ∧ u32_ok (hello_network_magic h) ∧ hash32_ok (hello_chain_id h) ∧ u64_ok (hello_best_height h) ∧
  hash32_ok (hello_best_hash h) ∧ bytes_ok (hello_user_agent h) ∧ utf8_text (hello_user_agent h) = true ∧
  u64_ok (hello_local_timestamp h) ∧ u16_ok (hello_advertised_port h).

(** What the other side of a session of version [v] reads *)
Definition hello_seen (h : HelloPayload) (v : Z) : HelloPayload := {|
  hello_version := v; hello_network_magic := hello_network_magic h; hello_chain_id := hello_chain_id h;
  hello_best_height := hello_best_height h; hello_best_hash := hello_best_hash h; hello_user_agent := hello_user_agent h;
  hello_local_timestamp := hello_local_timestamp h;
  hello_advertised_port := if 3 <=? v then hello_advertised_port h else 0 |}.

Lemma hello_from_bytes_no_panic bs : bytes_ok bs → hello_from_bytes bs ≠ Panic.
Proof.
  intros Hb. unfold hello_from_bytes. destruct (Z.ltb_spec (zlen bs) 82); [done|].
  rewrite !uint_at_total, !range_total by lia. cbn [rbind]. destruct (uint_field 2 bs 80 (80 + 2) Hb) as [_ Hw]; [lia..|].
  set (n := le_val (slice bs 80 (80 + 2))) in *. unfold in_width in Hw. destruct (_ <? n); [done|].
  destruct (Z.ltb_spec (zlen bs) (82 + n)); [done|]. rewrite range_total by lia. cbn [rbind]. unfold TIMESTAMP_LEN, ADVERTISED_PORT_LEN.
  destruct (negb _ && _ && _); [done|]. destruct (Z.leb_spec (82 + n + 8) (zlen bs)); [rewrite uint_at_total by lia|]; cbn [rbind];
    (destruct (Z.leb_spec (82 + n + 8 + 2) (zlen bs)); [rewrite uint_at_total by lia|]); done.
Qed.

Lemma hello_roundtrip h v bs :
  hello_ok h → u32_ok v → to_bytes_for_wire_version h v = Ok bs → hello_from_bytes bs = Ok (hello_seen h v).
Proof.
  intros (Hver & Hmg & (Hcl & Hcb) & Hbh & (Hhl & Hhb) & Hua & Hutf & Hts & Hport) Hv. unfold to_bytes_for_wire_version.
  destruct (Z.ltb_spec MAX_USER_AGENT_BYTES (zlen (hello_user_agent h))) as [|Hul]; [done|]. intros He. apply Ok_inj in He as <-.
  set (tail := if 3 <=? v then le_bytes 2 (hello_advertised_port h) else []).
  set (bs := le_bytes 4 v ++ _). pose proof (zlen_nonneg (hello_user_agent h)).
  assert (Htl : zlen tail = if 3 <=? v then 2 else 0) by (unfold tail; destruct (3 <=? v); by autorewrite with zlen).
  assert (Hl : zlen bs = 90 + zlen (hello_user_agent h) + zlen tail) by (unfold bs; autorewrite with zlen; lia).
  assert (Hu16 : in_width 16 (zlen (hello_user_agent h))) by (eapply count_u16; done).
  unfold hello_from_bytes. rewrite Hl. destruct (Z.ltb_spec (90 + zlen (hello_user_agent h) + zlen tail) 82); [destruct (3 <=? v); lia|].
  rewrite !uint_at_total, !range_total by (rewrite ?Hl; destruct (3 <=? v); lia). cbn [rbind].
  replace (slice bs 0 (0 + 4)) with (le_bytes 4 v) by (unfold bs; by cut_slice).
  replace (slice bs 4 (4 + 4)) with (le_bytes 4 (hello_network_magic h)) by (unfold bs; by cut_slice).
  replace (slice bs 8 40) with (hello_chain_id h) by (unfold bs; by cut_slice).
  replace (slice bs 40 (40 + 8)) with (le_bytes 8 (hello_best_height h)) by (unfold bs; by cut_slice).
  replace (slice bs 48 80) with (hello_best_hash h) by (unfold bs; by cut_slice).
  replace (slice bs 80 (80 + 2)) with (le_bytes 2 (zlen (hello_user_agent h))) by (unfold bs; by cut_slice).
  rewrite !le_val_le_bytes_id by done. destruct (Z.ltb_spec MAX_USER_AGENT_BYTES (zlen (hello_user_agent h))); [lia|].
  destruct (Z.ltb_spec (90 + zlen (hello_user_agent h) + zlen tail) (82 + zlen (hello_user_agent h))); [destruct (3 <=? v); lia|].
  rewrite range_total by (rewrite ?Hl; destruct (3 <=? v); lia). cbn [rbind].
  replace (slice bs 82 (82 + zlen (hello_user_agent h))) with (hello_user_agent h) by (unfold bs; by cut_slice).
  rewrite lossy_valid_id by done. unfold TIMESTAMP_LEN, ADVERTISED_PORT_LEN, hello_seen.
  destruct (Z.eqb_spec (90 + zlen (hello_user_agent h) + zlen tail) (82 + zlen (hello_user_agent h))); [destruct (3 <=? v); lia|].
  destruct (Z.leb_spec (82 + zlen (hello_user_agent h) + 8) (90 + zlen (hello_user_agent h) + zlen tail)); [|destruct (3 <=? v); lia].
  rewrite uint_at_total by (rewrite ?Hl; destruct (3 <=? v); lia).
  replace (slice bs (82 + zlen (hello_user_agent h)) (82 + zlen (hello_user_agent h) + 8)) with (le_bytes 8 (hello_local_timestamp h))
    by (unfold bs; by cut_slice). rewrite le_val_le_bytes_id by done.
  destruct (Z.leb_spec 3 v); rewrite Htl.
  - destruct (Z.eqb_spec (90 + zlen (hello_user_agent h) + 2) (82 + zlen (hello_user_agent h) + 8 + 2)); [|lia]. rewrite andb_false_r. cbn [rbind].
    destruct (Z.leb_spec (82 + zlen (hello_user_agent h) + 8 + 2) (90 + zlen (hello_user_agent h) + 2)); [|lia].
    rewrite uint_at_total by lia. replace (slice bs (82 + zlen (hello_user_agent h) + 8) (82 + zlen (hello_user_agent h) + 8 + 2)) with tail
      by (unfold bs; by cut_slice). unfold tail. by rewrite le_val_le_bytes_id by done.
  - destruct (Z.eqb_spec (90 + zlen (hello_user_agent h) + 0) (82 + zlen (hello_user_agent h) + 8)); [|lia]. cbn [negb andb]. cbn [rbind].
    by destruct (Z.leb_spec (82 + zlen (hello_user_agent h) + 8 + 2) (90 + zlen (hello_user_agent h) + 0)); [lia|].
Qed.

(** ** Addresses *)

Definition addr_entry_ok (e : AddrEntry) : Prop :=
  bytes_ok (ae_addr e) ∧ utf8_text (ae_addr e) = true ∧ u64_ok (ae_last_seen e).
Definition addr_wire (e : AddrEntry) : bytes := [zlen (ae_addr e)] ++ ae_addr e ++ le_bytes 8 (ae_last_seen e).

Lemma addr_entries_wire l out bs :
  try_fold (λ out e,
    if 255 <? zlen (ae_addr e) then Err (Invalid "addr string too long"%string)
    else Ok (out ++ [zlen (ae_addr e)] ++ ae_addr e ++ le_bytes 8 (ae_last_seen e))) out l = Ok bs →
  Forall (λ e, zlen (ae_addr e) ≤ 255) l ∧ bs = out ++ mjoin (addr_wire <$> l).
Proof.
  revert out. induction l as [|e l IH]; intros out H; cbn [try_fold] in H.
  - apply Ok_inj in H as <-. split; [constructor|]. by rewrite app_nil_r.
  - destruct (Z.ltb_spec 255 (zlen (ae_addr e))); [done|]. cbn [rbind] in H. apply IH in H as [Hl ->].
    split; [by constructor|]. rewrite fmap_cons, mjoin_cons. unfold addr_wire at 2. by rewrite <- !(assoc_L (++)).
Qed.

Lemma read_addrs_app pre l :
  Forall addr_entry_ok l → Forall (λ e, zlen (ae_addr e) ≤ 255) l →
  read_addrs (pre ++ mjoin (addr_wire <$> l)) (zlen pre) (length l) = Ok (l, zlen (pre ++ mjoin (addr_wire <$> l))).
Proof.
  intros Hl. revert pre. induction Hl as [|e l (Hb & Hu & Ht) _ IH]; intros pre Hs.
  - cbn [read_addrs length fmap list_fmap]. by rewrite app_nil_r.
  - apply Forall_cons in Hs as [He Hs]. cbn [read_addrs length]. rewrite fmap_cons, mjoin_cons.
    replace (pre ++ addr_wire e ++ mjoin (addr_wire <$> l))
      with (pre ++ [zlen (ae_addr e)] ++ ae_addr e ++ le_bytes 8 (ae_last_seen e) ++ mjoin (addr_wire <$> l))
      by (unfold addr_wire; by rewrite <- !(assoc_L (++))).
    set (data := pre ++ [zlen (ae_addr e)] ++ _). pose proof (zlen_nonneg (ae_addr e)). pose proof (zlen_nonneg pre). pose proof (zlen_nonneg (mjoin (addr_wire <$> l))).
    assert (Hlen : zlen data = zlen pre + 1 + zlen (ae_addr e) + 8 + zlen (mjoin (addr_wire <$> l))) by (unfold data; autorewrite with zlen; lia).
    destruct (Z.leb_spec (zlen data) (zlen pre)); [lia|]. rewrite byte_at_total by lia.
    replace (slice data (zlen pre) (zlen pre + 1)) with [zlen (ae_addr e)] by (unfold data; by cut_slice). cbn [rbind le_val].
    rewrite Z.mul_0_r, Z.add_0_r. destruct (Z.ltb_spec (zlen data) (zlen pre + 1 + zlen (ae_addr e) + 8)); [lia|].
    rewrite range_total, uint_at_total by lia. cbn [rbind].
    replace (slice data (zlen pre + 1) (zlen pre + 1 + zlen (ae_addr e))) with (ae_addr e) by (unfold data; by cut_slice).
    replace (slice data (zlen pre + 1 + zlen (ae_addr e)) (zlen pre + 1 + zlen (ae_addr e) + 8)) with (le_bytes 8 (ae_last_seen e))
      by (unfold data; by cut_slice).
    rewrite le_val_le_bytes_id, lossy_valid_id by done.
    specialize (IH (pre ++ [zlen (ae_addr e)] ++ ae_addr e ++ le_bytes 8 (ae_last_seen e)) Hs). rewrite <- !(assoc_L (++)) in IH. fold data in IH.
    replace (zlen (pre ++ [zlen (ae_addr e)] ++ ae_addr e ++ le_bytes 8 (ae_last_seen e))) with (zlen pre + 1 + zlen (ae_addr e) + 8) in IH
      by (autorewrite with zlen; lia).
    rewrite IH. cbn [rbind]. by destruct e.
Qed.

Lemma addr_roundtrip p bs :
  Forall addr_entry_ok (ap_entries p) → addr_to_bytes p = Ok bs → addr_from_bytes bs = Ok p.
Proof.
  intros Hok. unfold addr_to_bytes. destruct (Z.ltb_spec MAX_ADDRS_PER_MESSAGE (zlen (ap_entries p))) as [|Hc]; [done|].
  intros [Hs ->]%addr_entries_wire. set (data := le_bytes 2 _ ++ _). pose proof (zlen_nonneg (ap_entries p)).
  assert (Hj : ADDR_ENTRY_MIN_BYTES * zlen (ap_entries p) ≤ zlen (mjoin (addr_wire <$> ap_entries p))).
  { clear. unfold ADDR_ENTRY_MIN_BYTES. induction (ap_entries p) as [|e l IH]; [done|]. rewrite fmap_cons, mjoin_cons. unfold addr_wire at 1.
    autorewrite with zlen. pose proof (zlen_nonneg (ae_addr e)). lia. }
  assert (Hlen : zlen data = 2 + zlen (mjoin (addr_wire <$> ap_entries p))) by (unfold data; autorewrite with zlen; lia).
  unfold addr_from_bytes. unfold ADDR_ENTRY_MIN_BYTES in *. destruct (Z.ltb_spec (zlen data) 2); [lia|]. rewrite uint_at_total by lia.
  replace (slice data 0 (0 + 2)) with (le_bytes 2 (zlen (ap_entries p))) by (unfold data; by cut_slice).
  rewrite le_val_le_bytes_id by (by eapply count_u16). cbn [rbind]. destruct (Z.ltb_spec MAX_ADDRS_PER_MESSAGE (zlen (ap_entries p))); [lia|].
  destruct (Z.ltb_spec (zlen data) (2 + zlen (ap_entries p) * (1 + 8))); [lia|].
  pose proof (read_addrs_app (le_bytes 2 (zlen (ap_entries p))) (ap_entries p) Hok Hs) as Hr. rewrite zlen_le_bytes in Hr.
  change (Z.of_nat 2) with 2 in Hr. fold data in Hr. rewrite zlen_to_nat, Hr. cbn [rbind]. rewrite Z.eqb_refl. by destruct p.
Qed.

Lemma read_addrs_no_panic data pos n : bytes_ok data → 0 ≤ pos → read_addrs data pos n ≠ Panic.
Proof.
  intros Hd. revert pos. induction n as [|n IH]; intros pos Hp; [done|]. cbn [read_addrs].
  destruct (Z.leb_spec (zlen data) pos); [done|]. rewrite byte_at_total by lia. cbn [rbind].
  pose proof (le_val_bound _ (slice_ok data pos (pos + 1) Hd)). destruct (Z.ltb_spec (zlen data) (pos + 1 + le_val (slice data pos (pos + 1)) + 8)); [done|].
  rewrite range_total, uint_at_total by lia. cbn [rbind]. specialize (IH (pos + 1 + le_val (slice data pos (pos + 1)) + 8) ltac:(lia)).
  by destruct (read_addrs _ _ n) as [[hs q]| |].
Qed.
Lemma addr_from_bytes_no_panic bs : bytes_ok bs → addr_from_bytes bs ≠ Panic.
Proof.
  intros Hb. unfold addr_from_bytes. destruct (Z.ltb_spec (zlen bs) 2); [done|]. rewrite uint_at_total by lia. cbn [rbind].
  repeat (destruct (_ <? _); [done|]). pose proof (read_addrs_no_panic bs 2 (Z.to_nat (le_val (slice bs 0 (0 + 2)))) Hb ltac:(lia)).
  destruct (read_addrs _ _ _) as [[hs q]| |]; cbn [rbind]; [by destruct (negb _)|done|done].
Qed.

(** ** Every message *)

(** [from] never panics on [bs] and accepts exactly the encoding of a well-formed payload. *)
Definition decodes_exactly {T} (ok : T → Prop) (to : T → Result bytes) (from : bytes → Result T) (bs : bytes) : Prop :=
  ∀ p, from bs ≠ Panic ∧ (from bs = Ok p ↔ ok p ∧ to p = Ok bs).

(** C27: What a peer can send.  No byte string makes a decoder panic.  A frame decodes exactly when it is
    the encoding of a message of the network, so length, checksum and command leave no second reading,
    and the same holds of the GetHeaders, Headers, GetBlockData, Block and GetAddr payloads; a Hello
    encoded for a wire version is read back with that version, and a list of addresses as it was sent. *)
Theorem wire_messages_exact `{HB : Blake2b256} bs :
  bytes_ok bs →
  (∀ magic m, wire_from_bytes bs magic ≠ Panic ∧
     (wire_from_bytes bs magic = Ok m ↔ message_ok m ∧ wm_magic m = magic ∧ wire_to_bytes m = bs))
  ∧ decodes_exactly getheaders_ok getheaders_to_bytes getheaders_from_bytes bs
  ∧ decodes_exactly headers_ok headers_to_bytes headers_from_bytes bs
  ∧ decodes_exactly getblockdata_ok getblockdata_to_bytes getblockdata_from_bytes bs
  ∧ decodes_exactly block_payload_ok block_payload_to_bytes block_payload_from_bytes bs
  ∧ decodes_exactly (λ _, True) (λ _, getaddr_to_bytes) getaddr_from_bytes bs
  ∧ (hello_from_bytes bs ≠ Panic ∧ ∀ h v, hello_ok h → u32_ok v → to_bytes_for_wire_version h v = Ok bs → hello_from_bytes bs = Ok (hello_seen h v))
  ∧ (addr_from_bytes bs ≠ Panic ∧ ∀ p, Forall addr_entry_ok (ap_entries p) → addr_to_bytes p = Ok bs → addr_from_bytes bs = Ok p).
Proof.
  intros Hb. split_and!.
  - intros magic m. split; [apply wire_from_bytes_no_panic|by apply wire_exact].
  - intros p. exact (pl_exact (T := GetHeadersPayload) bs p Hb).
  - intros p. exact (pl_exact (T := HeadersPayload) bs p Hb).
  - intros p. exact (pl_exact (T := GetBlockDataPayload) bs p Hb).
  - intros p. exact (pl_exact (T := BlockPayload) bs p Hb).
  - intros p. exact (pl_exact (T := unit) bs p Hb).
  - by apply hello_from_bytes_no_panic.
  - intros h v. apply hello_roundtrip.
  - by apply addr_from_bytes_no_panic.
  - intros p. apply addr_roundtrip.
Qed.

Definition sample_getblockdata : GetBlockDataPayload := {| gb_hashes := [replicate 32 7] |}.
Definition sample_getblockdata_bytes : bytes := [1; 0] ++ replicate 32 7.
Lemma wire_messages_exact_witness : getblockdata_from_bytes sample_getblockdata_bytes = Ok sample_getblockdata.
Proof.
  assert (Hr : bytes_ok (replicate 32 7)) by (apply bytes_ok_replicate; unfold u8_ok, in_width; lia).
  assert (Hb : bytes_ok sample_getblockdata_bytes) by (apply bytes_ok_app; split; [refine (bool_decide_unpack _ _); vm_compute; exact I|exact Hr]).
  destruct (wire_messages_exact (HB := sample_blake2b) sample_getblockdata_bytes Hb) as (_ & _ & _ & Hg & _).
  apply Hg. split; [|vm_compute; reflexivity]. unfold getblockdata_ok. split; [vm_compute; discriminate|]. cbn. apply Forall_cons_2; [|apply Forall_nil_2]. split; [reflexivity|exact Hr].
Defined.
