(* ===== verification/Transport.v ===== *)
(** * Encrypted transport

    [dom-wire/src/handshake.rs] and [dom-wire/src/codec.rs]: length-prefixed frames, the prologue
    that binds a session to the chain, the resumable read of a frame, and the codec that splits a
    message over frames and reassembles it.  A read of the socket ends in one of the ways of
    [ReadEvent]; the Noise session of the [snow] crate enters as the class [NoiseTransport]. *)

From Stdlib Require Import ZArith Lia.
From stdpp Require Import base list strings.
From S2P Require Import Prelude CoreError Core CryptoHash Wire.
Local Open Scope string_scope.
Local Open Scope list_scope.
Local Open Scope Z_scope.

Definition NOISE_MAX_MSG : Z := 65535.
Definition WRITE_TIMEOUT_SECS : Z := 30.
Definition IDLE_TIMEOUT_SECS : Z := 60.
Definition IBD_IDLE_TIMEOUT_SECS : Z := 5 * 60.
Definition WIRE_PROTOCOL_VERSION : Z := 3.
Definition SUPPORTED_PROLOGUE_VERSIONS : list Z := [3; 2].
Definition RESPONDER_ABORTED_AFTER_MSG2 : string := "peer closed after msg2".

(** ** Prologue *)

Definition build_prologue_versioned (version network_magic : Z) (chain_id : bytes) : bytes :=
  str_bytes "DOM" ++ le_bytes 4 version ++ le_bytes 4 network_magic ++ chain_id.
Definition build_prologue (network_magic : Z) (chain_id : bytes) : bytes :=
  build_prologue_versioned WIRE_PROTOCOL_VERSION network_magic chain_id.

Definition is_prologue_mismatch (err : DomError) : bool :=
  match err with
  | Invalid msg => (str_contains "noise read msg2" msg || str_contains "noise read msg3" msg) && str_contains "decrypt" msg
  | Internal msg => str_contains RESPONDER_ABORTED_AFTER_MSG2 msg
  | _ => false
  end.

Definition clamp_static_privkey (privkey : bytes) : bytes :=
  let privkey := <[0%nat := Z.land (nth 0 privkey 0) 248]> privkey in
  let privkey := <[31%nat := Z.land (nth 31 privkey 0) 127]> privkey in
  <[31%nat := Z.lor (nth 31 privkey 0) 64]> privkey.

(** ** Frames *)

(** What [write_framed] puts on the stream *)
Definition write_framed (data : bytes) : bytes := le_bytes 4 (zlen data) ++ data.

Inductive ReadState : Type :=
| Idle
| ReadingLen (buf : bytes) (filled : Z)
| ReadingData (buf : bytes) (filled : Z).

(** The turns of the loop of [read_framed_cancel_safe] up to the next [stream.read]: it waits for
    bytes, has a frame, or fails. *)
Inductive Settled : Type :=
| Wants (st : ReadState)
| HasFrame (data : bytes)
| TooLarge (len : Z).

Definition settle_data (buf : bytes) (filled : Z) : Settled :=
  if filled =? zlen buf then HasFrame buf else Wants (ReadingData buf filled).
Definition settle_len (buf : bytes) (filled : Z) : Settled :=
  if filled =? 4 then
    let len := le_val buf in
    if NOISE_MAX_MSG <? len then TooLarge len else settle_data (replicate (Z.to_nat len) 0) 0
  else Wants (ReadingLen buf filled).
Definition settle (st : ReadState) : Settled :=
  match st with
  | Idle => settle_len (replicate 4 0) 0
  | ReadingLen buf filled => settle_len buf filled
  | ReadingData buf filled => settle_data buf filled
  end.

(** Room left in [&mut buf[filled..]], and the buffer after [read] wrote [got] there *)
Definition read_room (st : ReadState) : Z :=
  match st with
  | Idle => 0
  | ReadingLen buf filled | ReadingData buf filled => zlen buf - filled
  end.
Definition overwrite (buf : bytes) (at_ : Z) (got : bytes) : bytes :=
  take (Z.to_nat at_) buf ++ got ++ drop (Z.to_nat (at_ + zlen got)) buf.
Definition filled_with (st : ReadState) (got : bytes) : ReadState :=
  match st with
  | Idle => Idle
  | ReadingLen buf filled => ReadingLen (overwrite buf filled got) (filled + zlen got)
  | ReadingData buf filled => ReadingData (overwrite buf filled got) (filled + zlen got)
  end.
Definition reading_what (st : ReadState) : string :=
  match st with ReadingData _ _ => "read frame data: " | _ => "read frame len: " end.

(** ** The codec *)

Definition CHUNK : Z := NOISE_MAX_MSG - 16.

(** [snow::TransportState]: each call advances the session; a plaintext is never longer than its
    ciphertext. *)
Class NoiseTransport : Type := {
  transport : Type;
  noise_write : transport → bytes → transport * (string + bytes);
  noise_read : transport → bytes → transport * (string + bytes);
  get_remote_static : transport → option bytes;
  noise_read_len t ct t' p : noise_read t ct = (t', inr p) → zlen p ≤ zlen ct;
}.

(** How an await on the socket ends: the read returns at most [n] bytes, the stream ends, the read
    fails, the idle timeout fires, or the future is dropped by [select!] *)
Inductive ReadEvent : Type :=
| Arrive (n : nat)
| ReadEof
| ReadFails (e : string)
| IdleExpires
| Dropped.
#[export] Instance ReadEvent_eq_dec : EqDecision ReadEvent.
Proof. solve_decision. Defined.

(** How the write of one frame ends; a failed write has put [written] bytes on the stream. *)
Inductive WriteEvent : Type :=
| Written
| WriteTimesOut (written : nat)
| WriteFails (written : nat) (e : string).

Section codec.
Context `{HB : Blake2b256} `{HN : NoiseTransport}.

Record NoiseCodec : Type := {
  nc_transport : transport;
  nc_network_magic : Z;
  nc_peer_id : option bytes;
  nc_read_state : ReadState;
  nc_acc : bytes;
  nc_expected : option Z;
}.

Definition codec_new (t : transport) (network_magic : Z) : NoiseCodec := {|
  nc_transport := t; nc_network_magic := network_magic;
  nc_peer_id := match get_remote_static t with
                | Some key => if zlen key =? 32 then Some key else None
                | None => None
                end;
  nc_read_state := Idle; nc_acc := []; nc_expected := None |}.

Definition with_transport (c : NoiseCodec) (t : transport) : NoiseCodec := {|
  nc_transport := t; nc_network_magic := nc_network_magic c; nc_peer_id := nc_peer_id c;
  nc_read_state := nc_read_state c; nc_acc := nc_acc c; nc_expected := nc_expected c |}.
Definition with_read_state (c : NoiseCodec) (st : ReadState) : NoiseCodec := {|
  nc_transport := nc_transport c; nc_network_magic := nc_network_magic c; nc_peer_id := nc_peer_id c;
  nc_read_state := st; nc_acc := nc_acc c; nc_expected := nc_expected c |}.
Definition with_acc (c : NoiseCodec) (acc : bytes) (expected : option Z) : NoiseCodec := {|
  nc_transport := nc_transport c; nc_network_magic := nc_network_magic c; nc_peer_id := nc_peer_id c;
  nc_read_state := nc_read_state c; nc_acc := acc; nc_expected := expected |}.

Definition reset_reassembly (c : NoiseCodec) : NoiseCodec := with_acc (with_read_state c Idle) [] None.

(** [data.chunks(n)] *)
Fixpoint split_loop (fuel : nat) (n : nat) (data : bytes) : list bytes :=
  match fuel, data with
  | S fuel', _ :: _ => take n data :: split_loop fuel' n (drop n data)
  | _, _ => []
  end.
Definition split_chunks (n : Z) (data : bytes) : list bytes := split_loop (length data) (Z.to_nat n) data.

(** The loop over the frames of one message; [out] is what has reached the stream. *)
Fixpoint send_chunks (c : NoiseCodec) (write_timeout : Z) (wr : nat → WriteEvent) (i : nat) (out : bytes)
    (cs : list bytes) : NoiseCodec * bytes * Result unit :=
  match cs with
  | [] => (c, out, Ok tt)
  | chunk :: rest =>
      let '(t, r) := noise_write (nc_transport c) chunk in
      let c := with_transport c t in
      match r with
      | inl e => (c, out, Err (Internal ("noise encrypt: " +:+ e)))
      | inr ciphertext =>
          let framed := write_framed ciphertext in
          match wr i with
          | Written => send_chunks c write_timeout wr (S i) (out ++ framed) rest
          | WriteTimesOut k =>
              (c, out ++ take k framed,
               Err (peer_misbehavior WriteTimeout ("write timeout after " +:+ dec write_timeout +:+ "s")))
          | WriteFails k e =>
              (c, out ++ take k framed,
               Err (Internal ((if Nat.ltb k 4 then "write frame len: " else "write frame data: ") +:+ e)))
          end
      end
  end.

Definition send (c : NoiseCodec) (write_timeout : Z) (wr : nat → WriteEvent) (msg : WireMessage)
  : NoiseCodec * bytes * Result unit :=
  if MAX_MESSAGE_PAYLOAD <? zlen (wm_payload msg) then
    (c, [], Err (Invalid ("outgoing payload " +:+ dec (zlen (wm_payload msg)) +:+ " bytes exceeds MAX_MESSAGE_PAYLOAD "
                          +:+ dec MAX_MESSAGE_PAYLOAD)))
  else
    let plaintext := wire_to_bytes msg in
    if MAX_LOGICAL_MSG_BYTES <? zlen plaintext then
      (c, [], Err (Invalid ("outgoing message " +:+ dec (zlen plaintext) +:+ " bytes exceeds MAX_LOGICAL_MSG_BYTES "
                            +:+ dec MAX_LOGICAL_MSG_BYTES)))
    else send_chunks c write_timeout wr 0 [] (split_chunks CHUNK (le_bytes 4 (zlen plaintext) ++ plaintext)).

(** One frame has been read: [inl] to read the next one, [inr] when [recv] returns. *)
Definition on_frame (c : NoiseCodec) (ciphertext : bytes) : NoiseCodec + (NoiseCodec * Result WireMessage) :=
  let '(t, r) := noise_read (nc_transport c) ciphertext in
  let c := with_transport c t in
  match r with
  | inl e => inr (c, Err (Invalid ("noise decrypt: " +:+ e)))
  | inr plaintext =>
      let acc := nc_acc c ++ plaintext in
      let step (expected : option Z) : NoiseCodec + (NoiseCodec * Result WireMessage) :=
        match expected with
        | Some expected =>
            if expected <? zlen acc then
              inr (reset_reassembly c, Err (Malformed "transport reassembly overran the declared length"))
            else if zlen acc =? expected then
              inr (with_acc c [] None, wire_from_bytes (drop 4 acc) (nc_network_magic c))
            else inl (with_acc c acc (Some expected))
        | None => inl (with_acc c acc None)
        end in
      match nc_expected c with
      | Some e => step (Some e)
      | None =>
          if 4 <=? zlen acc then
            let total := le_val (take 4 acc) in
            if MAX_LOGICAL_MSG_BYTES <? total then
              inr (reset_reassembly c,
                   Err (Malformed ("logical message " +:+ dec total +:+ " bytes exceeds MAX_LOGICAL_MSG_BYTES "
                                   +:+ dec MAX_LOGICAL_MSG_BYTES)))
            else step (Some (4 + total))
          else step None
      end
  end.

(** Up to the next read of the socket *)
Definition turn (c : NoiseCodec) : NoiseCodec + (NoiseCodec * Result WireMessage) :=
  match settle (nc_read_state c) with
  | Wants st => inl (with_read_state c st)
  | TooLarge len => inr (with_read_state c Idle, Err (Malformed ("frame too large: " +:+ dec len)))
  | HasFrame ciphertext =>
      match on_frame (with_read_state c Idle) ciphertext with
      | inl c => inl (with_read_state c (ReadingLen (replicate 4 0) 0))
      | inr r => inr r
      end
  end.

Inductive Outcome : Type :=
| Returned (r : Result WireMessage)
| Cancelled
| Waiting.

(** [input] holds the bytes the socket has yet to deliver. *)
Fixpoint recv_with_idle_timeout (idle_timeout : Z) (evs : list ReadEvent) (c : NoiseCodec) (input : bytes)
  : Outcome * NoiseCodec * bytes * list ReadEvent :=
  match turn c with
  | inr (c, r) => (Returned r, c, input, evs)
  | inl c =>
      match evs with
      | [] => (Waiting, c, input, [])
      | Arrive n :: evs =>
          let k := Nat.min (Nat.max 1 n) (Z.to_nat (read_room (nc_read_state c))) in
          match input with
          | [] => recv_with_idle_timeout idle_timeout evs c input
          | _ => recv_with_idle_timeout idle_timeout evs
                   (with_read_state c (filled_with (nc_read_state c) (take k input))) (drop k input)
          end
      | ReadEof :: evs =>
          (Returned (Err (Internal (reading_what (nc_read_state c) +:+ "early eof"))), with_read_state c Idle, input, evs)
      | ReadFails e :: evs => (Returned (Err (Internal (reading_what (nc_read_state c) +:+ e))), c, input, evs)
      | IdleExpires :: evs =>
          (Returned (Err (PolicyRejected ("idle timeout after " +:+ dec idle_timeout +:+ "s"))), c, input, evs)
      | Dropped :: evs => (Cancelled, c, input, evs)
      end
  end.
Definition recv : list ReadEvent → NoiseCodec → bytes → Outcome * NoiseCodec * bytes * list ReadEvent :=
  recv_with_idle_timeout IDLE_TIMEOUT_SECS.
End codec.
