(* ===== verification/TransportLaws.v ===== *)
(** * Laws of the encrypted transport

    [Transport.v]: whatever way the socket splits the stream and whenever [select!] drops the read,
    the receiver returns exactly the messages that were sent, in order; and whatever a peer sends,
    the reassembly buffers stay bounded. *)

From Stdlib Require Import ZArith Lia.
From stdpp Require Import base list strings.
From S2P Require Import Prelude CoreError Core CryptoHash Wire WireLaws Transport.
Local Open Scope list_scope.
Local Open Scope Z_scope.

(** ** Partly filled buffers *)

Definition part (x : bytes) (j : nat) : bytes := take j x ++ replicate (length x - j) 0.

Lemma zlen_part x j : (j ≤ length x)%nat → zlen (part x j) = zlen x.
Proof. intros. unfold part, zlen. rewrite length_app, length_take, length_replicate. lia. Qed.
Lemma part_0 x : part x 0 = replicate (length x) 0.
Proof. unfold part. by rewrite take_0, Nat.sub_0_r. Qed.
Lemma part_full x : part x (length x) = x.
Proof. unfold part. by rewrite take_ge, Nat.sub_diag, app_nil_r by lia. Qed.

Lemma overwrite_part x j k :
  (j + k ≤ length x)%nat → overwrite (part x j) (Z.of_nat j) (take k (drop j x)) = part x (j + k).
Proof.
  intros H. assert (Hk : zlen (take k (drop j x)) = Z.of_nat k) by (unfold zlen; rewrite length_take, length_drop; lia).
  unfold overwrite. rewrite Hk, <- Nat2Z.inj_add, !Nat2Z.id. unfold part.
  rewrite take_app_le, take_take, Nat.min_id by (rewrite length_take; lia).
  rewrite drop_app_ge by (rewrite length_take; lia). rewrite length_take, drop_replicate, app_assoc.
  rewrite take_take_drop. do 2 f_equal. lia.
Qed.

(** ** One frame *)

(** [reads ct rem st]: in state [st] the bytes [rem] of the frame of [ct] are still to come. *)
Inductive reads (ct : bytes) : bytes → ReadState → Prop :=
| reads_idle : reads ct (write_framed ct) Idle
| reads_len j : (j < 4)%nat →
    reads ct (drop j (le_bytes 4 (zlen ct)) ++ ct) (ReadingLen (part (le_bytes 4 (zlen ct)) j) (Z.of_nat j))
| reads_data j : (j < length ct)%nat → reads ct (drop j ct) (ReadingData (part ct j) (Z.of_nat j)).

Definition frame_ok (ct : bytes) : Prop := ct ≠ [] ∧ zlen ct ≤ NOISE_MAX_MSG.

Lemma reads_settle ct rem st : reads ct rem st → ∃ st', settle st = Wants st' ∧ reads ct rem st' ∧ st' ≠ Idle.
Proof.
  intros Hr. destruct Hr as [|j Hj|j Hj]; cbn [settle].
  - eexists. split; [done|]. split; [|done]. apply (reads_len ct 0). lia.
  - unfold settle_len. destruct (Z.eqb_spec (Z.of_nat j) 4); [lia|]. eexists. split; [done|]. split; [by apply reads_len|done].
  - unfold settle_data. rewrite zlen_part by lia. unfold zlen. destruct (Z.eqb_spec (Z.of_nat j) (Z.of_nat (length ct))); [lia|].
    eexists. split; [done|]. split; [by apply reads_data|done].
Qed.

Lemma reads_nonempty ct rem st : reads ct rem st → frame_ok ct → rem ≠ [].
Proof.
  intros Hr [Hne _] Heq. apply (f_equal length) in Heq. destruct Hr; unfold write_framed in *;
    rewrite ?length_app, ?length_drop, ?length_le_bytes in Heq; cbn in Heq; destruct ct; cbn in *; done || lia.
Qed.

Lemma data_step ct j k rest :
  (j < length ct)%nat → (1 ≤ k)%nat → (j + k ≤ length ct)%nat →
  (settle_data (part ct (j + k)) (Z.of_nat (j + k)) = HasFrame ct ∧ drop k (drop j ct ++ rest) = rest)
  ∨ ∃ st' rem', settle_data (part ct (j + k)) (Z.of_nat (j + k)) = Wants st' ∧ reads ct rem' st' ∧ st' ≠ Idle
      ∧ drop k (drop j ct ++ rest) = rem' ++ rest.
Proof.
  intros Hj Hk Hle. unfold settle_data. rewrite zlen_part by lia. rewrite drop_app_le, drop_drop by (rewrite length_drop; lia).
  unfold zlen. destruct (Z.eqb_spec (Z.of_nat (j + k)) (Z.of_nat (length ct))) as [He|].
  - left. replace (j + k)%nat with (length ct) by lia. by rewrite part_full, drop_all.
  - right. eexists _, _. split; [done|]. split; [apply reads_data; lia|done].
Qed.

(** A read of [k] bytes moves on in the frame or ends it. *)
Lemma fill_step ct rem st rest k :
  reads ct rem st → st ≠ Idle → frame_ok ct → (1 ≤ k)%nat → Z.of_nat k ≤ read_room st →
  (settle (filled_with st (take k (rem ++ rest))) = HasFrame ct ∧ drop k (rem ++ rest) = rest)
  ∨ ∃ st' rem', settle (filled_with st (take k (rem ++ rest))) = Wants st' ∧ reads ct rem' st' ∧ st' ≠ Idle
      ∧ drop k (rem ++ rest) = rem' ++ rest.
Proof.
  intros Hr Hi [Hne Hmax] Hk Hroom. destruct Hr as [|j Hj|j Hj]; [done| |]; cbn [read_room] in Hroom; rewrite zlen_part in Hroom;
    rewrite ?length_le_bytes; try lia; unfold zlen in Hroom.
  - rewrite length_le_bytes in Hroom. set (l := le_bytes 4 (zlen ct)) in *.
    assert (Hl : length l = 4%nat) by apply length_le_bytes.
    rewrite <- (assoc_L (++)), take_app_le, drop_app_le by (rewrite length_drop; lia). cbn [filled_with].
    rewrite overwrite_part by lia. assert (Hz : zlen (take k (drop j l)) = Z.of_nat k) by (unfold zlen; rewrite length_take, length_drop; lia).
    rewrite Hz, <- Nat2Z.inj_add, drop_drop. cbn [settle]. unfold settle_len. destruct (Z.eqb_spec (Z.of_nat (j + k)) 4) as [He|].
    + replace (j + k)%nat with (length l) by lia. rewrite part_full, drop_all. unfold l.
      rewrite le_val_le_bytes_id by (pose proof (zlen_nonneg ct); unfold NOISE_MAX_MSG, in_width in *; change (2 ^ (8 * Z.of_nat 4)) with 4294967296; lia).
      destruct (Z.ltb_spec NOISE_MAX_MSG (zlen ct)); [lia|]. rewrite zlen_to_nat, <- part_0. right. unfold settle_data.
      rewrite zlen_part by lia. assert (0 < length ct)%nat by (destruct ct; cbn; done || lia). unfold zlen.
      destruct (Z.eqb_spec 0 (Z.of_nat (length ct))); [lia|]. eexists _, ct. split; [done|]. split; [by apply (reads_data ct 0)|done].
    + right. eexists _, _. split; [done|]. split; [apply reads_len; lia|]. by rewrite <- (assoc_L (++)).
  - rewrite take_app_le by (rewrite length_drop; lia). cbn [filled_with]. rewrite overwrite_part by lia.
    assert (Hz : zlen (take k (drop j ct)) = Z.of_nat k) by (unfold zlen; rewrite length_take, length_drop; lia).
    rewrite Hz, <- Nat2Z.inj_add. cbn [settle]. apply data_step; lia.
Qed.

(** ** A stream of frames in flight *)

Section transport_laws.
Context `{HB : Blake2b256} `{HN : NoiseTransport}.

(** The length-prefixed plaintext of a message *)
Definition framed (m : WireMessage) : bytes := le_bytes 4 (zlen (wire_to_bytes m)) ++ wire_to_bytes m.

Record flight : Type := { fl_ct : bytes; fl_plain : bytes; fl_msg : WireMessage; fl_last : bool }.

Definition delivered (fs : list flight) : list WireMessage := fl_msg <$> filter (λ f, fl_last f = true) fs.
Definition wire_stream (fs : list flight) : bytes := mjoin ((λ f, write_framed (fl_ct f)) <$> fs).
Definition sendable (magic : Z) (m : WireMessage) : Prop :=
  message_ok m ∧ wm_magic m = magic ∧ zlen (wire_to_bytes m) ≤ MAX_LOGICAL_MSG_BYTES.

(** The frames decrypt in order, and from [acc] on spell the framed messages. *)
Fixpoint inflight (t : transport) (magic : Z) (acc : bytes) (fs : list flight) : Prop :=
  match fs with
  | [] => acc = []
  | f :: fs' =>
      frame_ok (fl_ct f) ∧ sendable magic (fl_msg f)
      ∧ (∃ rest, framed (fl_msg f) = acc ++ fl_plain f ++ rest ∧ (fl_last f = true ↔ rest = []))
      ∧ ∃ t', noise_read t (fl_ct f) = (t', inr (fl_plain f))
         ∧ inflight t' magic (if fl_last f then [] else acc ++ fl_plain f) fs'
  end.

(** What [expected] holds for the bytes [acc] *)
Definition expected_of (acc : bytes) : option Z :=
  if 4 <=? zlen acc then Some (4 + le_val (take 4 acc)) else None.

Definition in_sync (c : NoiseCodec) (input : bytes) (fs : list flight) : Prop :=
  inflight (nc_transport c) (nc_network_magic c) (nc_acc c) fs ∧ nc_expected c = expected_of (nc_acc c)
  ∧ match fs with
    | [] => input = [] ∧ (nc_read_state c = Idle ∨ nc_read_state c = ReadingLen (replicate 4 0) 0)
    | f :: fs' => ∃ rem, reads (fl_ct f) rem (nc_read_state c) ∧ input = rem ++ wire_stream fs'
    end.

Lemma logical_u32 v : 0 ≤ v ≤ MAX_LOGICAL_MSG_BYTES → in_width (8 * Z.of_nat 4) v.
Proof. unfold in_width. change (2 ^ (8 * Z.of_nat 4)) with 4294967296. change MAX_LOGICAL_MSG_BYTES with 16842752. lia. Qed.

Lemma framed_prefix magic m acc rest :
  sendable magic m → framed m = acc ++ rest → 4 ≤ zlen acc → le_val (take 4 acc) = zlen (wire_to_bytes m) ∧ zlen (framed m) = 4 + zlen (wire_to_bytes m).
Proof.
  intros (_ & _ & Hl) Hf H4. pose proof (zlen_nonneg (wire_to_bytes m)). split; [|unfold framed; rewrite zlen_app, zlen_le_bytes; lia].
  assert (Ht : take 4 acc = take 4 (framed m)) by (rewrite Hf, take_app_le; [done|unfold zlen in H4; lia]).
  rewrite Ht. unfold framed. rewrite take_app_length' by (by rewrite length_le_bytes). apply le_val_le_bytes_id, logical_u32. lia.
Qed.

(** A frame of the stream completes its message or extends the buffer. *)
Lemma on_frame_inflight c f t' rest :
  nc_expected c = expected_of (nc_acc c) → sendable (nc_network_magic c) (fl_msg f) →
  framed (fl_msg f) = nc_acc c ++ fl_plain f ++ rest → (fl_last f = true ↔ rest = []) →
  noise_read (nc_transport c) (fl_ct f) = (t', inr (fl_plain f)) →
  on_frame c (fl_ct f) =
    if fl_last f then inr (with_acc (with_transport c t') [] None, Ok (fl_msg f))
    else inl (with_acc (with_transport c t') (nc_acc c ++ fl_plain f) (expected_of (nc_acc c ++ fl_plain f))).
Proof.
  intros Hexp Hs Hf Hlast Hread. unfold on_frame. rewrite Hread. cbn [nc_acc nc_expected with_transport nc_network_magic]. rewrite Hexp.
  rewrite (assoc_L (++)) in Hf. set (acc := nc_acc c ++ fl_plain f) in *.
  assert (Hz : zlen (framed (fl_msg f)) = zlen acc + zlen rest) by (rewrite Hf; apply zlen_app). pose proof (zlen_nonneg rest).
  assert (He : expected_of (nc_acc c) = None ∨ expected_of (nc_acc c) = expected_of acc ∧ 4 ≤ zlen acc).
  { unfold expected_of, acc. rewrite zlen_app. pose proof (zlen_nonneg (fl_plain f)). destruct (Z.leb_spec 4 (zlen (nc_acc c))); [right|by left].
    destruct (Z.leb_spec 4 (zlen (nc_acc c) + zlen (fl_plain f))); [|lia]. split; [|lia]. rewrite take_app_le; [done|unfold zlen in *; lia]. }
  assert (Hstep : 4 ≤ zlen acc → le_val (take 4 acc) = zlen (wire_to_bytes (fl_msg f)) ∧ zlen acc + zlen rest = 4 + zlen (wire_to_bytes (fl_msg f))).
  { intros H4. destruct (framed_prefix _ _ _ _ Hs Hf H4). by rewrite <- Hz. }
  assert (Hend : rest = [] ↔ zlen rest = 0) by (split; [by intros ->|apply zlen_0_nil]). destruct Hs as (Hm & <- & Hmax).
  assert (Hdec : rest = [] → wire_from_bytes (drop 4 acc) (wm_magic (fl_msg f)) = Ok (fl_msg f)).
  { intros ->. rewrite app_nil_r in Hf. rewrite <- Hf. unfold framed. rewrite drop_app_length' by (by rewrite length_le_bytes). by apply wire_roundtrip. }
  assert (Hsh : 4 ≤ zlen acc ∨ zlen acc < 4 ∧ fl_last f = false).
  { destruct (Z.leb_spec 4 (zlen acc)); [by left|right]. split; [done|]. apply not_true_is_false. intros Hl%Hlast%Hend.
    unfold framed in Hz. rewrite zlen_app, zlen_le_bytes in Hz. pose proof (zlen_nonneg (wire_to_bytes (fl_msg f))). lia. }
  destruct Hsh as [H4|[H4 Hl]].
  - destruct (Hstep H4) as [Hv Htot]. 
    assert (Hacc : expected_of acc = Some (4 + zlen (wire_to_bytes (fl_msg f)))) by (unfold expected_of; by rewrite (proj2 (Z.leb_le _ _) H4), Hv).
    rewrite Hacc in *. rewrite (proj2 (Z.leb_le _ _) H4), Hv.
    destruct He as [-> | [-> _]]; [destruct (Z.ltb_spec MAX_LOGICAL_MSG_BYTES (zlen (wire_to_bytes (fl_msg f)))); [lia|]|];
      (destruct (Z.ltb_spec (4 + zlen (wire_to_bytes (fl_msg f))) (zlen acc)); [lia|]);
      (destruct (Z.eqb_spec (zlen acc) (4 + zlen (wire_to_bytes (fl_msg f)))) as [Heq|Hneq];
        [rewrite (proj2 Hlast), Hdec by (apply Hend; lia); done
        |destruct (fl_last f) eqn:Hl; [exfalso; apply Hneq; assert (zlen rest = 0) by (by apply Hend, Hlast); lia|done]]).
  - destruct He as [-> | [_ ?]]; [|lia]. rewrite Hl. unfold expected_of. destruct (Z.leb_spec 4 (zlen acc)); [lia|done].
Qed.

(** ** Receiving *)

Definition settled (c : NoiseCodec) : Prop := nc_read_state c ≠ Idle.

(** What the turn of a codec that follows the stream does *)
Definition follows (c : NoiseCodec) (input : bytes) (fs : list flight) : Prop :=
  match turn c with
  | inl c1 => ∃ fs1, delivered fs = delivered fs1 ∧ settled c1 ∧ in_sync c1 input fs1
  | inr (c1, r) => ∃ m fs1, r = Ok m ∧ delivered fs = m :: delivered fs1 ∧ in_sync c1 input fs1
  end.

Lemma wire_stream_cons f fs : wire_stream (f :: fs) = write_framed (fl_ct f) ++ wire_stream fs.
Proof. done. Qed.

Lemma in_sync_turn c input fs : in_sync c input fs → ∃ c1, turn c = inl c1 ∧ settled c1 ∧ in_sync c1 input fs.
Proof.
  intros (Hfl & He & Hst). unfold turn. destruct fs as [|f fs].
  - destruct Hst as [-> Hst]. exists (with_read_state c (ReadingLen (replicate 4 0) 0)).
    split; [by destruct Hst as [-> | ->]|]. split; [done|]. split; [done|]. split; [done|]. split; [done|by right].
  - destruct Hst as (rem & Hr & ->). destruct (reads_settle _ _ _ Hr) as (st & -> & Hr' & Hi). eexists. split; [done|].
    split; [done|]. split; [done|]. split; [done|]. by exists rem.
Qed.

Lemma in_sync_follows c input fs : in_sync c input fs → follows c input fs.
Proof. intros H. destruct (in_sync_turn _ _ _ H) as (c1 & Ht & Hs & Hy). unfold follows. rewrite Ht. by exists fs. Qed.

(** At a frame boundary the next frame of the stream is still to come. *)
Lemma in_sync_boundary c fs st :
  inflight (nc_transport c) (nc_network_magic c) (nc_acc c) fs → nc_expected c = expected_of (nc_acc c) →
  st = Idle ∨ st = ReadingLen (replicate 4 0) 0 → in_sync (with_read_state c st) (wire_stream fs) fs.
Proof.
  intros Hfl He Hst. split; [done|]. split; [done|]. destruct fs as [|f fs]; [done|]. exists (write_framed (fl_ct f)).
  split; [|apply wire_stream_cons]. destruct Hst as [-> | ->]; [constructor|]. apply (reads_len (fl_ct f) 0). lia.
Qed.

Lemma frame_follows c f fs :
  settle (nc_read_state c) = HasFrame (fl_ct f) → inflight (nc_transport c) (nc_network_magic c) (nc_acc c) (f :: fs) →
  nc_expected c = expected_of (nc_acc c) → follows c (wire_stream fs) (f :: fs).
Proof.
  intros Hset (_ & Hs & (rest & Hf & Hl) & t' & Hr & Hfl) He. unfold follows, turn. rewrite Hset.
  rewrite (on_frame_inflight (with_read_state c Idle) f t' rest) by done. unfold delivered. rewrite filter_cons.
  destruct (fl_last f); case_decide; try done.
  - eexists _, fs. split; [done|]. split; [done|]. by apply (in_sync_boundary (with_acc (with_transport c t') [] None) fs Idle); [| |left].
  - exists fs. split; [done|]. split; [done|].
    by apply (in_sync_boundary (with_acc (with_transport c t') (nc_acc c ++ fl_plain f) (expected_of (nc_acc c ++ fl_plain f))) fs); [| |right].
Qed.

Lemma in_sync_input_nil c fs : in_sync c [] fs → fs = [].
Proof.
  intros (Hfl & _ & Hst). destruct fs as [|f fs]; [done|]. destruct Hst as (rem & Hr & Heq). destruct Hfl as [Hok _].
  apply reads_nonempty in Hr; [|done]. by destruct rem.
Qed.

Lemma room_pos ct rem st : reads ct rem st → st ≠ Idle → 1 ≤ read_room st.
Proof.
  intros Hr Hi. destruct Hr as [|j Hj|j Hj]; [done| |]; cbn [read_room]; rewrite zlen_part; rewrite ?length_le_bytes, ?zlen_le_bytes; unfold zlen; lia.
Qed.

(** Bytes read from the socket keep the codec on the stream. *)
Lemma fill_follows c x input fs n :
  in_sync c (x :: input) fs → settled c →
  let k := Nat.min (Nat.max 1 n) (Z.to_nat (read_room (nc_read_state c))) in
  (1 ≤ k)%nat ∧ follows (with_read_state c (filled_with (nc_read_state c) (take k (x :: input)))) (drop k (x :: input)) fs.
Proof.
  intros (Hfl & He & Hst) Hi k. destruct fs as [|f fs]; [by destruct Hst|]. destruct Hst as (rem & Hr & Hin).
  pose proof (room_pos _ _ _ Hr Hi). split; [lia|]. rewrite Hin.
  destruct (fill_step _ _ _ (wire_stream fs) k Hr Hi (proj1 Hfl)) as [[Hset ->]|(st & rem' & Hset & Hr' & Hi' & ->)]; [lia|lia| |].
  - by apply frame_follows.
  - unfold follows, turn. cbn [nc_read_state with_read_state]. rewrite Hset. exists (f :: fs). split; [done|]. split; [done|].
    split; [done|]. split; [done|]. by exists rem'.
Qed.

Definition clean (evs : list ReadEvent) : Prop := Forall (λ e, e = Dropped ∨ ∃ n, e = Arrive n) evs.
Definition arrivals (evs : list ReadEvent) : nat := length (filter (λ e, e ≠ Dropped) evs).

(** Errors that come from the connection, not from what the peer sent *)
Definition connection_error (e : DomError) : Prop :=
  match e with Internal _ | PolicyRejected _ => True | _ => False end.

(** What one call of [recv] on the stream [fs] leaves *)
Definition progressed (fs : list flight) (out : Outcome) (c : NoiseCodec) (input : bytes) : Prop :=
  match out with
  | Returned (Ok m) => ∃ fs', delivered fs = m :: delivered fs' ∧ in_sync c input fs'
  | Returned (Err e) => connection_error e
  | Returned Panic => False
  | Cancelled | Waiting => ∃ fs', delivered fs = delivered fs' ∧ in_sync c input fs'
  end.
(** With enough bytes on the way there is no error, and waiting means nothing is left. *)
Definition supplied (out : Outcome) (input : bytes) (evs : list ReadEvent) : Prop :=
  clean evs ∧ (length input ≤ arrivals evs)%nat
  ∧ match out with Returned (Err _) => False | Waiting => input = [] | _ => True end.

Lemma arrivals_cons e evs : arrivals (e :: evs) = ((if decide (e = Dropped) then 0 else 1) + arrivals evs)%nat.
Proof. unfold arrivals. rewrite filter_cons. by repeat case_decide. Qed.

Lemma recv_follows idle evs c input fs :
  follows c input fs →
  ∃ out c' input' evs', recv_with_idle_timeout idle evs c input = (out, c', input', evs')
    ∧ (length evs' ≤ length evs)%nat ∧ progressed fs out c' input'
    ∧ (clean evs → (length input ≤ arrivals evs)%nat → supplied out input' evs').
Proof.
  revert c input fs. induction evs as [|e evs IH]; intros c input fs Hfo; cbn [recv_with_idle_timeout]; unfold follows in Hfo;
    destruct (turn c) as [c1|[c1 r]]; try (by destruct Hfo as (m & fs1 & -> & Hd & Hy); eexists _, _, _, _; split; [done|]; split; [done|];
      split; [by exists fs1|]; intros; split).
  - destruct Hfo as (fs1 & Hd & Hs & Hy). eexists _, _, _, _. split; [done|]. split; [done|]. split; [by exists fs1|]. intros Hc Hn.
    split; [done|]. split; [done|]. by destruct input; cbn in Hn; [|lia].
  - destruct Hfo as (fs1 & Hd & Hs & Hy). setoid_rewrite arrivals_cons. setoid_rewrite Forall_cons.
    destruct e as [n| |err| |]; try (eexists _, _, _, _; split; [done|]; split; [cbn; lia|]; split; [done|]; intros [[? | [? ?]] _]; done).
    + assert (Hgo : ∃ c2 input2, follows c2 input2 fs1 ∧ (length input ≤ 1 + arrivals evs → length input2 ≤ arrivals evs)%nat
        ∧ recv_with_idle_timeout idle evs c2 input2 =
          match input with
          | [] => recv_with_idle_timeout idle evs c1 input
          | _ => recv_with_idle_timeout idle evs
                   (with_read_state c1 (filled_with (nc_read_state c1) (take (Nat.min (Nat.max 1 n) (Z.to_nat (read_room (nc_read_state c1)))) input)))
                   (drop (Nat.min (Nat.max 1 n) (Z.to_nat (read_room (nc_read_state c1)))) input)
          end).
      { destruct input as [|x input].
        - exists c1, []. split; [by apply in_sync_follows|]. split; [cbn; lia|done].
        - destruct (fill_follows c1 x input fs1 n Hy Hs) as [Hk Hf]. eexists _, _. split; [exact Hf|]. split; [|done].
          rewrite length_drop. cbn [length] in *. lia. }
      destruct Hgo as (c2 & input2 & Hf & Hl & <-). destruct (IH c2 input2 fs1 Hf) as (out & c' & input' & evs' & -> & Hle & Hp & Hsup).
      eexists _, _, _, _. split; [done|]. split; [cbn; lia|]. split; [|intros [_ Hc] Hn; apply Hsup; [done|apply Hl, Hn]].
      destruct out as [[| |]| |]; unfold progressed in *; by rewrite ?Hd.
    + eexists _, _, _, _. split; [done|]. split; [cbn; lia|]. split; [by exists fs1|]. by intros [_ Hc] Hn; split.
Qed.

(** A call on a codec between two turns uses up an event, unless it waits. *)
Lemma recv_consumes idle evs c input c1 out c' input' evs' :
  turn c = inl c1 → recv_with_idle_timeout idle evs c input = (out, c', input', evs') → out = Waiting ∨ (length evs' < length evs)%nat.
Proof.
  assert (Hlen : ∀ evs c input, (length (snd (recv_with_idle_timeout idle evs c input)) ≤ length evs)%nat).
  { clear. induction evs as [|e evs IH]; intros c input; cbn [recv_with_idle_timeout]; destruct (turn c) as [c1|[c1 r]]; try (cbn; lia).
    destruct e; try (cbn; lia). destruct input; (etransitivity; [apply IH|cbn; lia]). }
  intros Ht Hr. destruct evs as [|e evs]; cbn [recv_with_idle_timeout] in Hr; rewrite Ht in Hr; [left; congruence|right].
  destruct e; [|injection Hr as <- <- <- <-; cbn; lia..]. destruct input; apply (f_equal snd) in Hr; cbn [snd] in Hr; rewrite <- Hr;
    (eapply Nat.le_lt_trans; [apply Hlen|cbn; lia]).
Qed.

(** A receiver that calls [recv] again after a message and after a cancellation, and drops the
    connection on an error *)
Fixpoint recv_all (fuel : nat) (evs : list ReadEvent) (c : NoiseCodec) (input : bytes) : list (Result WireMessage) :=
  match fuel with
  | O => []
  | S fuel' =>
      match recv evs c input with
      | (Returned (Ok m), c, input, evs) => Ok m :: recv_all fuel' evs c input
      | (Returned r, _, _, _) => [r]
      | (Cancelled, c, input, evs) => recv_all fuel' evs c input
      | (Waiting, _, _, _) => []
      end
  end.

(** Messages arrive in order, and an error ends the run only for a reason of the connection. *)
Lemma recv_all_prefix fuel evs c input fs :
  in_sync c input fs →
  ∃ n, recv_all fuel evs c input = Ok <$> take n (delivered fs)
    ∨ ∃ e, connection_error e ∧ recv_all fuel evs c input = (Ok <$> take n (delivered fs)) ++ [Err e].
Proof.
  revert evs c input fs. induction fuel as [|fuel IH]; intros evs c input fs Hy; [by exists 0%nat; left|]. cbn [recv_all]. unfold recv.
  destruct (recv_follows IDLE_TIMEOUT_SECS evs c input fs (in_sync_follows _ _ _ Hy)) as (out & c' & input' & evs' & -> & _ & Hp & _).
  destruct out as [[m|e|]| |]; cbn [progressed] in Hp; [| |done| |].
  - destruct Hp as (fs' & -> & Hy'). destruct (IH evs' c' input' fs' Hy') as (n & [-> |(e & He & ->)]); exists (S n); [by left|right; by exists e].
  - exists 0%nat. right. by exists e.
  - destruct Hp as (fs' & -> & Hy'). by apply IH.
  - exists 0%nat. by left.
Qed.

(** With enough reads every message arrives. *)
Lemma recv_all_complete fuel evs c input fs :
  in_sync c input fs → clean evs → (length input ≤ arrivals evs)%nat → (length evs < fuel)%nat →
  recv_all fuel evs c input = Ok <$> delivered fs.
Proof.
  revert evs c input fs. induction fuel as [|fuel IH]; intros evs c input fs Hy Hc Hn Hf; [lia|]. cbn [recv_all]. unfold recv.
  destruct (recv_follows IDLE_TIMEOUT_SECS evs c input fs (in_sync_follows _ _ _ Hy)) as (out & c' & input' & evs' & Hr & _ & Hp & Hs).
  destruct (in_sync_turn _ _ _ Hy) as (c1 & Ht & _). destruct (recv_consumes _ _ _ _ _ _ _ _ _ Ht Hr) as [-> |Hlt]; rewrite Hr;
    destruct (Hs Hc Hn) as (Hc' & Hn' & Ho).
  - destruct Hp as (fs' & -> & Hy'). subst input'. apply in_sync_input_nil in Hy'. by subst.
  - destruct out as [[m|e|]| |]; cbn [progressed] in Hp; try done; destruct Hp as (fs' & -> & Hy').
    + rewrite fmap_cons, (IH evs' c' input' fs') by (done || lia). done.
    + apply IH; done || lia.
    + subst input'. apply in_sync_input_nil in Hy'. by subst.
Qed.

(** ** Sending *)

Lemma chunks_loop_spec fuel n data :
  (1 ≤ n)%nat → (length data ≤ fuel)%nat →
  mjoin (split_loop fuel n data) = data ∧ Forall (λ x, x ≠ [] ∧ (length x ≤ n)%nat) (split_loop fuel n data).
Proof.
  intros Hn. revert data. induction fuel as [|fuel IH]; intros data Hl; [by destruct data; cbn in *; [|lia]|].
  destruct data as [|x data]; [done|]. cbn [split_loop]. destruct n as [|n]; [lia|].
  destruct (IH (drop (S n) (x :: data))) as [Hj Hf]; [rewrite length_drop; cbn in *; lia|].
  split; [rewrite mjoin_cons, Hj; apply take_drop|]. constructor; [|done]. split; [done|]. rewrite length_take. lia.
Qed.

Lemma framed_ne m : framed m ≠ [].
Proof. unfold framed. intros H%(f_equal length). by rewrite length_app, length_le_bytes in H. Qed.

Lemma send_Ok c wt wr m c' out :
  send c wt wr m = (c', out, Ok tt) →
  zlen (wm_payload m) ≤ MAX_MESSAGE_PAYLOAD ∧ zlen (wire_to_bytes m) ≤ MAX_LOGICAL_MSG_BYTES
  ∧ send_chunks c wt wr 0 [] (split_chunks CHUNK (framed m)) = (c', out, Ok tt).
Proof.
  unfold send. destruct (Z.ltb_spec MAX_MESSAGE_PAYLOAD (zlen (wm_payload m))); [done|].
  destruct (Z.ltb_spec MAX_LOGICAL_MSG_BYTES (zlen (wire_to_bytes m))); [done|]. done.
Qed.

(** The two ends of a Noise session: a ciphertext adds the 16-byte tag, and the peer decrypts the
    ciphertexts in the order they were made. *)
Class NoisePair : Type := {
  paired : transport → transport → Prop;
  paired_step ts tr p ts' ct :
    paired ts tr → bytes_ok p → noise_write ts p = (ts', inr ct) →
    zlen ct = zlen p + 16 ∧ ∃ tr', noise_read tr ct = (tr', inr p) ∧ paired ts' tr';
}.
Context `{HP : NoisePair}.

Lemma wire_stream_app fs fs' : wire_stream (fs ++ fs') = wire_stream fs ++ wire_stream fs'.
Proof. unfold wire_stream. by rewrite fmap_app, join_app. Qed.

Lemma send_chunks_inflight magic m wt wr i c tr acc out cs c' out' :
  paired (nc_transport c) tr → sendable magic m → framed m = acc ++ mjoin cs → cs ≠ [] → bytes_ok (framed m) →
  Forall (λ x, x ≠ [] ∧ (length x ≤ Z.to_nat CHUNK)%nat) cs →
  send_chunks c wt wr i out cs = (c', out', Ok tt) →
  ∃ fs, out' = out ++ wire_stream fs ∧ delivered fs = [m]
    ∧ ∃ tr', paired (nc_transport c') tr' ∧ ∀ fs', inflight tr' magic [] fs' → inflight tr magic acc (fs ++ fs').
Proof.
  intros Hpair Hs Hf Hne Hb Hcs. revert i c tr acc out Hpair Hf. induction Hcs as [|x cs [Hx Hlen] Hcs IH]; intros i c tr acc out Hpair Hf Hsend; [done|].
  cbn [send_chunks] in Hsend. destruct (noise_write (nc_transport c) x) as [ts [e|ct]] eqn:Hw; [done|].
  destruct (wr i); [|done|done]. rewrite mjoin_cons in Hf.
  assert (Hbx : bytes_ok x) by (rewrite Hf, !bytes_ok_app in Hb; by destruct Hb as (_ & ? & _)).
  destruct (paired_step _ _ _ _ _ Hpair Hbx Hw) as (Hct & tr' & Hr & Hpair').
  assert (Hok : frame_ok ct).
  { split; [intros ->; rewrite zlen_nil in Hct; pose proof (zlen_nonneg x); lia|]. unfold CHUNK in Hlen. unfold zlen in *. unfold NOISE_MAX_MSG in *. lia. }
  destruct cs as [|y cs].
  - injection Hsend as <- <-. exists [{| fl_ct := ct; fl_plain := x; fl_msg := m; fl_last := true |}].
    split; [by rewrite wire_stream_cons, app_nil_r|]. split; [done|]. exists tr'. split; [done|]. intros fs' Hfs'. cbn. split; [done|]. split; [done|].
    split; [by exists []|]. by exists tr'.
  - destruct (IH ltac:(done) (S i) (with_transport c ts) tr' (acc ++ x) (out ++ write_framed ct) Hpair') as (fs & -> & Hd & tr1 & Hp1 & Hfs);
      [by rewrite <- (assoc_L (++))|done|].
    exists ({| fl_ct := ct; fl_plain := x; fl_msg := m; fl_last := false |} :: fs).
    split; [by rewrite wire_stream_cons, (assoc_L (++))|]. split; [done|]. exists tr1. split; [done|]. intros fs' Hfs'. cbn [app inflight fl_ct fl_msg fl_plain fl_last].
    split; [done|]. split; [done|]. split; [|exists tr'; split; [done|by apply Hfs]].
    exists (mjoin (y :: cs)). split; [done|]. split; [done|]. intros Hj. apply Forall_cons in Hcs as [[Hy _] _]. rewrite mjoin_cons in Hj.
    by destruct y.
Qed.

(** Messages sent one after the other on one connection *)
Fixpoint send_all (c : NoiseCodec) (wt : Z) (msgs : list ((nat → WriteEvent) * WireMessage)) : NoiseCodec * bytes * Result unit :=
  match msgs with
  | [] => (c, [], Ok tt)
  | (wr, m) :: rest =>
      match send c wt wr m with
      | (c, out, Ok _) => let '(c, out', r) := send_all c wt rest in (c, out ++ out', r)
      | r => r
      end
  end.

Lemma send_all_inflight magic c wt msgs c' out tr :
  paired (nc_transport c) tr → Forall (λ m, u32_ok (wm_magic m) ∧ bytes_ok (wm_payload m) ∧ wm_magic m = magic) msgs.*2 →
  send_all c wt msgs = (c', out, Ok tt) → ∃ fs, out = wire_stream fs ∧ delivered fs = msgs.*2 ∧ inflight tr magic [] fs.
Proof.
  revert c tr out. induction msgs as [|[wr m] msgs IH]; intros c tr out Hp Hm Hs; cbn [send_all] in Hs.
  { injection Hs as _ <-. by exists []. }
  destruct (send c wt wr m) as [[c1 out1] [[]| |]] eqn:Hsend; [|done|done]. destruct (send_all c1 wt msgs) as [[c2 out2] r] eqn:Hall.
  injection Hs as -> <- ->. cbn in Hm. apply Forall_cons in Hm as [(Hu & Hpb & Hmag) Hm].
  apply send_Ok in Hsend as (Hpl & Hlog & Hsend). assert (Hmok : message_ok m) by done.
  assert (Hbf : bytes_ok (framed m)) by (apply bytes_ok_app; split; [auto with dom|by apply wire_to_bytes_ok]).
  destruct (chunks_loop_spec (length (framed m)) (Z.to_nat CHUNK) (framed m)) as [Hj Hcs]; [unfold CHUNK, NOISE_MAX_MSG; lia|done|].
  change (split_loop _ _ (framed m)) with (split_chunks CHUNK (framed m)) in Hj, Hcs.
  assert (Hne : split_chunks CHUNK (framed m) ≠ []) by (intros H0; rewrite H0 in Hj; by apply (framed_ne m)).
  destruct (send_chunks_inflight magic m wt wr 0 c tr [] [] _ c1 out1 Hp ltac:(done) (eq_sym Hj) Hne Hbf Hcs Hsend) as (fs1 & -> & Hd1 & tr1 & Hp1 & Hfs1).
  destruct (IH c1 tr1 out2 Hp1 Hm Hall) as (fs2 & -> & Hd2 & Hfs2). exists (fs1 ++ fs2).
  split; [by rewrite wire_stream_app|]. split; [|by apply Hfs1]. unfold delivered in *. by rewrite filter_app, fmap_app, Hd1, Hd2.
Qed.

(** ** Bounds against any peer *)

Definition buffers_ok (c : NoiseCodec) : Prop :=
  match nc_read_state c with
  | Idle => True
  | ReadingLen buf filled => zlen buf = 4 ∧ 0 ≤ filled ≤ 4
  | ReadingData buf filled => zlen buf ≤ NOISE_MAX_MSG ∧ 0 ≤ filled ≤ zlen buf
  end
  ∧ match nc_expected c with
    | None => zlen (nc_acc c) < 4
    | Some e => zlen (nc_acc c) < e ≤ 4 + MAX_LOGICAL_MSG_BYTES
    end.

(** The codec with its read state replaced by one that satisfies the bounds *)
Lemma buffers_state c st : buffers_ok c → buffers_ok (with_read_state c st) ↔
  match st with
  | Idle => True
  | ReadingLen buf filled => zlen buf = 4 ∧ 0 ≤ filled ≤ 4
  | ReadingData buf filled => zlen buf ≤ NOISE_MAX_MSG ∧ 0 ≤ filled ≤ zlen buf
  end.
Proof. intros [_ H]. unfold buffers_ok. cbn. tauto. Qed.

Lemma settle_wants c st : buffers_ok c → settle (nc_read_state c) = Wants st → buffers_ok (with_read_state c st).
Proof.
  intros Hc. pose proof Hc as [Hst _]. rewrite buffers_state by done.
  assert (Hd : ∀ buf filled, zlen buf ≤ NOISE_MAX_MSG ∧ 0 ≤ filled ≤ zlen buf → settle_data buf filled = Wants st →
    match st with ReadingData buf filled => zlen buf ≤ NOISE_MAX_MSG ∧ 0 ≤ filled ≤ zlen buf | _ => False end).
  { intros buf filled Hb. unfold settle_data. destruct (_ =? _); [done|]. by intros [= <-]. }
  assert (Hl : ∀ buf filled, zlen buf = 4 ∧ 0 ≤ filled ≤ 4 → settle_len buf filled = Wants st →
    match st with
    | Idle => False
    | ReadingLen buf filled => zlen buf = 4 ∧ 0 ≤ filled ≤ 4
    | ReadingData buf filled => zlen buf ≤ NOISE_MAX_MSG ∧ 0 ≤ filled ≤ zlen buf
    end).
  { intros buf filled Hb. unfold settle_len. destruct (_ =? 4); [|by intros [= <-]]. destruct (Z.ltb_spec NOISE_MAX_MSG (le_val buf)); [done|].
    intros H0%Hd; [by destruct st|]. rewrite zlen_replicate. unfold NOISE_MAX_MSG in *. lia. }
  destruct (nc_read_state c) as [|buf filled|buf filled]; cbn [settle].
  - intros H0%Hl; [by destruct st|]. rewrite zlen_replicate. lia.
  - intros H0%Hl; [by destruct st|done].
  - intros H0%Hd; [by destruct st|done].
Qed.

Lemma on_frame_bounds c ct : buffers_ok c → nc_read_state c = Idle →
  match on_frame c ct with
  | inl c' => buffers_ok c' ∧ nc_read_state c' = Idle
  | inr (c', r) => buffers_ok c' ∧ r ≠ Panic
  end.
Proof.
  intros [_ He] Hi. unfold on_frame. destruct (noise_read (nc_transport c) ct) as [t [e|p]]; [by unfold buffers_ok; cbn; rewrite Hi|].
  cbn [nc_acc nc_expected with_transport nc_network_magic]. set (acc := nc_acc c ++ p).
  assert (Hreset : ∀ c0 e, buffers_ok (reset_reassembly c0) ∧ Err (A := WireMessage) (E := DomError) e ≠ Panic) by (by intros; unfold buffers_ok; cbn).
  assert (Hend : ∀ r : Result WireMessage, r ≠ Panic → buffers_ok (with_acc (with_transport c t) [] None) ∧ r ≠ Panic)
    by (intros; unfold buffers_ok; cbn; by rewrite Hi).
  assert (Hmore : ∀ e, zlen acc < e ≤ 4 + MAX_LOGICAL_MSG_BYTES →
    buffers_ok (with_acc (with_transport c t) acc (Some e)) ∧ nc_read_state (with_acc (with_transport c t) acc (Some e)) = Idle)
    by (intros; unfold buffers_ok; cbn; by rewrite Hi).
  destruct (nc_expected c) as [e|].
  - destruct (Z.ltb_spec e (zlen acc)); [apply Hreset|]. destruct (Z.eqb_spec (zlen acc) e); [apply Hend, wire_from_bytes_no_panic|apply Hmore; lia].
  - destruct (Z.leb_spec 4 (zlen acc)); [|unfold buffers_ok; cbn; by rewrite Hi].
    destruct (Z.ltb_spec MAX_LOGICAL_MSG_BYTES (le_val (take 4 acc))); [apply Hreset|].
    destruct (Z.ltb_spec (4 + le_val (take 4 acc)) (zlen acc)); [apply Hreset|].
    destruct (Z.eqb_spec (zlen acc) (4 + le_val (take 4 acc))); [apply Hend, wire_from_bytes_no_panic|apply Hmore; lia].
Qed.

Lemma turn_bounds c : buffers_ok c →
  match turn c with inl c' => buffers_ok c' | inr (c', r) => buffers_ok c' ∧ r ≠ Panic end.
Proof.
  intros Hc. unfold turn. destruct (settle (nc_read_state c)) as [st|ct|len] eqn:Hs.
  - by apply settle_wants.
  - assert (Hb : buffers_ok (with_read_state c Idle)) by (by rewrite buffers_state).
    pose proof (on_frame_bounds _ ct Hb eq_refl) as Ho. destruct (on_frame _ ct) as [c'|[c' r]]; [|done].
    rewrite buffers_state by apply Ho. rewrite zlen_replicate. lia.
  - split; [by rewrite buffers_state|done].
Qed.

Lemma fill_bounds c got : buffers_ok c → zlen got ≤ read_room (nc_read_state c) → buffers_ok (with_read_state c (filled_with (nc_read_state c) got)).
Proof.
  intros Hc Hr. pose proof Hc as [Hst _]. rewrite buffers_state by done. pose proof (zlen_nonneg got).
  assert (Hlen : ∀ buf filled, 0 ≤ filled → filled + zlen got ≤ zlen buf → zlen (overwrite buf filled got) = zlen buf).
  { intros buf filled H0 H1. unfold overwrite, zlen in *. rewrite !length_app, length_take, length_drop. lia. }
  destruct (nc_read_state c) as [|buf filled|buf filled]; cbn [filled_with read_room] in *; [done|rewrite Hlen; lia|rewrite Hlen; lia].
Qed.

Lemma recv_bounds idle evs c input out c' input' evs' :
  buffers_ok c → recv_with_idle_timeout idle evs c input = (out, c', input', evs') → buffers_ok c' ∧ out ≠ Returned Panic.
Proof.
  revert c input. induction evs as [|e evs IH]; intros c input Hc; cbn [recv_with_idle_timeout]; pose proof (turn_bounds c Hc) as Ht;
    destruct (turn c) as [c1|[c1 r]]; try (by intros [= <- <- <- <-]; naive_solver).
  destruct e as [n| |err| |]; try (by intros [= <- <- <- <-]; rewrite ?buffers_state).
  destruct input as [|x input]; [by apply IH|]. apply IH, fill_bounds; [done|]. unfold zlen at 1. rewrite length_take.
  destruct Ht as [Ht _]. destruct (nc_read_state c1); cbn [read_room] in *; lia.
Qed.

(** ** The connection *)

Definition session_message (magic : Z) (m : WireMessage) : Prop :=
  u32_ok (wm_magic m) ∧ bytes_ok (wm_payload m) ∧ wm_magic m = magic.

Lemma sent_in_sync ts tr magic wt msgs c' out :
  paired ts tr → Forall (session_message magic) msgs.*2 → send_all (codec_new ts magic) wt msgs = (c', out, Ok tt) →
  ∃ fs, in_sync (codec_new tr magic) out fs ∧ delivered fs = msgs.*2.
Proof.
  intros Hp Hm Hs. destruct (send_all_inflight magic (codec_new ts magic) wt msgs c' out tr Hp Hm Hs) as (fs & -> & Hd & Hfl).
  exists fs. split; [|done]. by apply (in_sync_boundary (codec_new tr magic) fs Idle); [| |left].
Qed.

(** C18: Two codecs on the ends of one Noise session: whatever sizes the socket reads the stream in
    and however often [select!] drops [recv] in the middle of a frame or of a message, a receiver
    that is given enough reads returns exactly the messages that were sent, in order, each once. *)
Theorem wire_delivery ts tr magic wt msgs c' out evs :
  paired ts tr → Forall (session_message magic) msgs.*2 → send_all (codec_new ts magic) wt msgs = (c', out, Ok tt) →
  clean evs → (length out ≤ arrivals evs)%nat →
  recv_all (S (length evs)) evs (codec_new tr magic) out = Ok <$> msgs.*2.
Proof.
  intros Hp Hm Hs Hc Hn. destruct (sent_in_sync ts tr magic wt msgs c' out Hp Hm Hs) as (fs & Hy & <-).
  apply recv_all_complete; done || lia.
Qed.

(** C26: An honest sender is never blamed: on any schedule of reads, read errors, end of stream, idle
    timeouts and cancellations, the receiver returns a prefix of the messages sent, and if it ends
    with an error that error is [Internal] or [PolicyRejected], never the [Malformed] or [Invalid]
    of a misbehaving peer. *)
Theorem honest_sender_errors ts tr magic wt msgs c' out evs fuel :
  paired ts tr → Forall (session_message magic) msgs.*2 → send_all (codec_new ts magic) wt msgs = (c', out, Ok tt) →
  ∃ n, recv_all fuel evs (codec_new tr magic) out = Ok <$> take n msgs.*2
    ∨ ∃ e, connection_error e ∧ recv_all fuel evs (codec_new tr magic) out = (Ok <$> take n msgs.*2) ++ [Err e].
Proof.
  intros Hp Hm Hs. destruct (sent_in_sync ts tr magic wt msgs c' out Hp Hm Hs) as (fs & Hy & <-). by apply recv_all_prefix.
Qed.

(** C25: Against any peer: after any sequence of reads of any bytes, the frame buffer holds at most
    65535 bytes and the reassembly buffer less than its declared length, which is at most
    [4 + MAX_LOGICAL_MSG_BYTES]; decrypting a frame adds at most 65535 bytes before that is checked,
    and no input makes [recv] panic. *)
Theorem reassembly_bounded idle evs c input out c' input' evs' :
  buffers_ok c → recv_with_idle_timeout idle evs c input = (out, c', input', evs') →
  buffers_ok c' ∧ out ≠ Returned Panic ∧ zlen (nc_acc c') < 4 + MAX_LOGICAL_MSG_BYTES
  ∧ ∀ ct t p, zlen ct ≤ NOISE_MAX_MSG → noise_read (nc_transport c') ct = (t, inr p) →
      zlen (nc_acc c' ++ p) < 4 + MAX_LOGICAL_MSG_BYTES + NOISE_MAX_MSG.
Proof.
  intros Hc Hr. destruct (recv_bounds _ _ _ _ _ _ _ _ Hc Hr) as [Hb Hp].
  assert (Ha : zlen (nc_acc c') < 4 + MAX_LOGICAL_MSG_BYTES).
  { destruct Hb as [_ Hb]. destruct (nc_expected c'); [lia|]. change MAX_LOGICAL_MSG_BYTES with 16842752. lia. }
  split; [done|]. split; [done|]. split; [done|]. intros ct t p Hl Hn%noise_read_len. rewrite zlen_app. lia.
Qed.
End transport_laws.

(** ** A concrete session *)

(** A counter as nonce and a tag made of it *)
Definition noise_tag (n : nat) : bytes := replicate 16 (Z.of_nat n mod 256).
Definition sample_read (n : nat) (ct : bytes) : nat * (string + bytes) :=
  if decide (drop (length ct - 16) ct = noise_tag n) then (S n, inr (take (length ct - 16) ct)) else (n, inl "decrypt error"%string).
Lemma sample_read_len t ct t' p : sample_read t ct = (t', inr p) → zlen p ≤ zlen ct.
Proof. unfold sample_read. case_decide; [|done]. intros [= _ <-]. unfold zlen. rewrite length_take. lia. Qed.
Definition sample_noise : NoiseTransport := {|
  transport := nat; noise_write := λ n p, (S n, inr (p ++ noise_tag n)); noise_read := sample_read;
  get_remote_static := λ _, None; noise_read_len := sample_read_len |}.
Lemma sample_paired (ts tr : nat) p ts' ct :
  ts = tr → bytes_ok p → noise_write (NoiseTransport := sample_noise) ts p = (ts', inr ct) →
  zlen ct = zlen p + 16 ∧ ∃ tr', sample_read tr ct = (tr', inr p) ∧ ts' = tr'.
Proof.
  intros -> _ [= <- <-]. split; [rewrite zlen_app; unfold noise_tag; rewrite zlen_replicate; lia|]. exists (S tr). split; [|done].
  assert (Hl : (length (p ++ noise_tag tr) - 16)%nat = length p) by (rewrite length_app; unfold noise_tag; rewrite length_replicate; lia).
  unfold sample_read. rewrite Hl, drop_app_length, take_app_length. by rewrite decide_True.
Qed.
Definition sample_pair : NoisePair (HN := sample_noise) := {| paired := λ ts tr : transport (NoiseTransport := sample_noise), ts = tr; paired_step := sample_paired |}.

(** Two messages, read in pieces of up to three bytes with a cancellation after every one *)
Definition sample_msgs : list ((nat → WriteEvent) * WireMessage) :=
  (λ m, (λ _, Written, m)) <$>
    [{| wm_magic := 7; wm_command := CmdPing; wm_payload := [1; 2; 3] |};
     {| wm_magic := 7; wm_command := CmdGetAddr; wm_payload := [] |}].
Definition sample_schedule : list ReadEvent := mjoin (replicate 100 [Arrive 3; Dropped]).
Definition sample_sent : bytes :=
  snd (fst (send_all (HB := sample_blake2b) (HN := sample_noise) (codec_new (HN := sample_noise) (0%nat : transport (NoiseTransport := sample_noise)) 7) WRITE_TIMEOUT_SECS sample_msgs)).

Lemma sample_msgs_ok : Forall (session_message 7) sample_msgs.*2.
Proof.
  apply Forall_cons_2; [|apply Forall_cons_2; [|apply Forall_nil_2]];
    (split; [unfold u32_ok, in_width; cbn; lia|]; split; [|done]; cbn; unfold bytes_ok, in_width; repeat apply Forall_cons_2; try apply Forall_nil_2; lia).
Qed.
Lemma sample_clean : clean sample_schedule.
Proof.
  unfold clean, sample_schedule. apply Forall_join, Forall_replicate. apply Forall_cons_2; [right; by eexists|]. apply Forall_cons_2; [by left|apply Forall_nil_2].
Qed.

Lemma sample_send_ok : ∃ c',
  send_all (HB := sample_blake2b) (HN := sample_noise) (codec_new (HN := sample_noise) (0%nat : transport (NoiseTransport := sample_noise)) 7)
    WRITE_TIMEOUT_SECS sample_msgs = (c', sample_sent, Ok tt).
Proof.
  assert (H : is_ok (snd (send_all (HB := sample_blake2b) (HN := sample_noise)
    (codec_new (HN := sample_noise) (0%nat : transport (NoiseTransport := sample_noise)) 7) WRITE_TIMEOUT_SECS sample_msgs)) = true)
    by (vm_compute; reflexivity).
  unfold sample_sent. destruct (send_all _ _ _) as [[c' out] [[]|e|]]; [by exists c'|done|done].
Qed.
Lemma sample_supply : (length sample_sent ≤ arrivals sample_schedule)%nat.
Proof. apply Nat.leb_le. vm_compute. reflexivity. Qed.

Lemma wire_delivery_witness :
  recv_all (HB := sample_blake2b) (HN := sample_noise) (S (length sample_schedule)) sample_schedule
    (codec_new (HN := sample_noise) (0%nat : transport (NoiseTransport := sample_noise)) 7) sample_sent = Ok <$> sample_msgs.*2.
Proof.
  destruct sample_send_ok as [c' Hs].
  exact (wire_delivery (HB := sample_blake2b) (HN := sample_noise) (HP := sample_pair) _ _ 7 WRITE_TIMEOUT_SECS sample_msgs c' sample_sent
    sample_schedule eq_refl sample_msgs_ok Hs sample_clean sample_supply).
Defined.

(** The same stream cut short by the end of the connection *)
Definition sample_cut : list ReadEvent := Arrive 60 :: Arrive 60 :: Dropped :: Arrive 1 :: [ReadEof].
Lemma honest_sender_errors_witness :
  ∃ n, recv_all (HB := sample_blake2b) (HN := sample_noise) 9 sample_cut
    (codec_new (HN := sample_noise) (0%nat : transport (NoiseTransport := sample_noise)) 7) sample_sent = Ok <$> take n sample_msgs.*2
    ∨ ∃ e, connection_error e ∧ recv_all (HB := sample_blake2b) (HN := sample_noise) 9 sample_cut
    (codec_new (HN := sample_noise) (0%nat : transport (NoiseTransport := sample_noise)) 7) sample_sent = (Ok <$> take n sample_msgs.*2) ++ [Err e].
Proof.
  destruct sample_send_ok as [c' Hs].
  exact (honest_sender_errors (HB := sample_blake2b) (HN := sample_noise) (HP := sample_pair) _ _ 7 WRITE_TIMEOUT_SECS sample_msgs c' sample_sent
    sample_cut 9 eq_refl sample_msgs_ok Hs).
Defined.

(** A frame that announces more than a Noise message can hold *)
Definition sample_hostile : bytes := [0; 0; 1; 0; 9; 9].
Definition sample_attack : Outcome * NoiseCodec (HN := sample_noise) * bytes * list ReadEvent :=
  recv (HB := sample_blake2b) (HN := sample_noise) [Arrive 3; Arrive 3]
    (codec_new (HN := sample_noise) (0%nat : transport (NoiseTransport := sample_noise)) 7) sample_hostile.
Lemma reassembly_bounded_witness : sample_attack.1.2 = [9; 9] ∧ buffers_ok (HN := sample_noise) sample_attack.1.1.2.
Proof.
  split; [vm_compute; reflexivity|].
  apply (reassembly_bounded (HB := sample_blake2b) (HN := sample_noise) IDLE_TIMEOUT_SECS [Arrive 3; Arrive 3]
    (codec_new (HN := sample_noise) (0%nat : transport (NoiseTransport := sample_noise)) 7) sample_hostile
    sample_attack.1.1.1 sample_attack.1.1.2 sample_attack.1.2 sample_attack.2).
  - split; [exact I|reflexivity].
  - change (recv_with_idle_timeout _ _ _ _) with sample_attack. destruct sample_attack as [[[? ?] ?] ?]. reflexivity.
Defined.
