(* ===== verification/Handshake.v ===== *)
(** * Handshake and version memory

    [dom-wire/src/handshake.rs]: the three messages of the Noise XX handshake, each side as a function
    of the bytes its peer sends.  [dom-node/src/prologue_prefs.rs] and the inbound and outbound
    handshakes of [dom-node/src/node.rs]: the memory of which prologue version to offer a peer.
    The handshake state of the [snow] crate enters as the class [NoiseHandshake]. *)

From Stdlib Require Import ZArith Lia.
From stdpp Require Import base list strings gmap.
From S2P Require Import Prelude CoreError Core CryptoHash Wire Transport.
Local Open Scope string_scope.
Local Open Scope list_scope.
Local Open Scope Z_scope.

Definition HANDSHAKE_TIMEOUT_SECS : Z := 10.

(** [snow::HandshakeState] *)
Class NoiseHandshake `{HN : NoiseTransport} : Type := {
  hstate : Type;
  hs_build : bool → bytes → bytes → string + hstate;
  hs_write : hstate → hstate * (string + bytes);
  hs_read : hstate → bytes → hstate * (string + unit);
  hs_transport : hstate → string + transport;
}.

(** [read_exact] on a stream that ends after [input] *)
Definition read_framed (input : bytes) : Result (bytes * bytes) :=
  if zlen input <? 4 then Err (Internal "read frame len: early eof")
  else
    let len := le_val (take 4 input) in
    let rest := drop 4 input in
    if NOISE_MAX_MSG <? len then Err (Malformed ("frame too large: " +:+ dec len))
    else if zlen rest <? len then Err (Internal "read frame data: early eof")
    else Ok (take (Z.to_nat len) rest, drop (Z.to_nat len) rest).

Section handshake.
Context `{HH : NoiseHandshake}.

Definition lift_noise {A} (f : string → DomError) (r : string + A) : Result A :=
  match r with inl e => Err (f e) | inr a => Ok a end.

Definition build_initiator_versioned (static_privkey : bytes) (version network_magic : Z) (chain_id : bytes) : Result hstate :=
  lift_noise (λ e, Internal ("noise initiator build: " +:+ e))
    (hs_build true static_privkey (build_prologue_versioned version network_magic chain_id)).
Definition build_responder_versioned (static_privkey : bytes) (version network_magic : Z) (chain_id : bytes) : Result hstate :=
  lift_noise (λ e, Internal ("noise responder build: " +:+ e))
    (hs_build false static_privkey (build_prologue_versioned version network_magic chain_id)).

(** [into_transport_mode] *)
Definition finish (hs : hstate) : Result transport := lift_noise (λ e, Internal ("noise transport mode: " +:+ e)) (hs_transport hs).

(** The bytes written, and the result; [wf i] is the error of the [i]-th write. *)
Definition perform_handshake_initiator_inner (wf : nat → option DomError) (static_privkey : bytes) (version network_magic : Z)
    (chain_id input : bytes) : bytes * Result transport :=
  match build_initiator_versioned static_privkey version network_magic chain_id with
  | Err e => ([], Err e)
  | Panic => ([], Panic)
  | Ok hs =>
      let '(hs, w1) := hs_write hs in
      match w1, wf 0%nat with
      | inl e, _ => ([], Err (Internal ("noise write msg1: " +:+ e)))
      | inr _, Some e => ([], Err e)
      | inr msg1, None =>
          let out := write_framed msg1 in
          match read_framed input with
          | Err e => (out, Err e)
          | Panic => (out, Panic)
          | Ok (msg2, _) =>
              let '(hs, r2) := hs_read hs msg2 in
              match r2 with
              | inl e => (out, Err (Invalid ("noise read msg2: " +:+ e)))
              | inr _ =>
                  let '(hs, w3) := hs_write hs in
                  match w3, wf 1%nat with
                  | inl e, _ => (out, Err (Internal ("noise write msg3: " +:+ e)))
                  | inr _, Some e => (out, Err e)
                  | inr msg3, None => (out ++ write_framed msg3, finish hs)
                  end
              end
          end
      end
  end.

Definition tag_abort (e : DomError) : DomError :=
  match e with
  | Internal io => Internal ("noise read msg3: " +:+ RESPONDER_ABORTED_AFTER_MSG2 +:+ ": " +:+ io)
  | other => other
  end.

Definition perform_handshake_responder_inner (wf : nat → option DomError) (static_privkey : bytes) (version network_magic : Z)
    (chain_id input : bytes) : bytes * Result transport :=
  match build_responder_versioned static_privkey version network_magic chain_id with
  | Err e => ([], Err e)
  | Panic => ([], Panic)
  | Ok hs =>
      match read_framed input with
      | Err e => ([], Err e)
      | Panic => ([], Panic)
      | Ok (msg1, input) =>
          let '(hs, r1) := hs_read hs msg1 in
          match r1 with
          | inl e => ([], Err (Invalid ("noise read msg1: " +:+ e)))
          | inr _ =>
              let '(hs, w2) := hs_write hs in
              match w2, wf 0%nat with
              | inl e, _ => ([], Err (Internal ("noise write msg2: " +:+ e)))
              | inr _, Some e => ([], Err e)
              | inr msg2, None =>
                  let out := write_framed msg2 in
                  match map_err tag_abort (read_framed input) with
                  | Err e => (out, Err e)
                  | Panic => (out, Panic)
                  | Ok (msg3, _) =>
                      let '(hs, r3) := hs_read hs msg3 in
                      match r3 with
                      | inl e => (out, Err (Invalid ("noise read msg3: " +:+ e)))
                      | inr _ => (out, finish hs)
                      end
                  end
              end
          end
      end
  end.

(** The timeout around either side; [elapsed] says whether it fires. *)
Definition with_timeout (timeout_secs : Z) (elapsed : bool) (r : Result transport) : Result transport :=
  if elapsed then Err (peer_misbehavior HandshakeTimeout ("handshake timeout after " +:+ dec timeout_secs +:+ "s")) else r.
End handshake.

(** ** Version memory *)

Definition MAX_TRACKED_PEERS : Z := 4096.
(** [by_ip], whose lock is never poisoned: no code panics while it holds it *)
Abbreviation ProloguePreferences := (gmap bytes Z).
Definition newest_version : Z := nth 0 SUPPORTED_PROLOGUE_VERSIONS 0.

Definition version_for (ip : bytes) (p : ProloguePreferences) : Z := default newest_version (p !! ip).

(** [iter().position(|v| *v == failed)] and the element after it *)
Fixpoint after_position (failed : Z) (vs : list Z) : option (option Z) :=
  match vs with
  | [] => None
  | v :: vs => if v =? failed then Some (head vs) else after_position failed vs
  end.
Definition remember (ip : bytes) (version : Z) (p : ProloguePreferences) : ProloguePreferences :=
  let p := if (MAX_TRACKED_PEERS <=? Z.of_nat (size p)) && bool_decide (p !! ip = None) then ∅ else p in
  <[ip := version]> p.

Definition demote_after_failure (ip : bytes) (failed : Z) (p : ProloguePreferences) : option Z * ProloguePreferences :=
  match after_position failed SUPPORTED_PROLOGUE_VERSIONS with
  | None => (None, p)
  | Some (Some next) => (Some next, remember ip next p)
  | Some None => (None, delete ip p)
  end.

Definition record_success (ip : bytes) (version : Z) (p : ProloguePreferences) : ProloguePreferences :=
  if version =? newest_version then delete ip p else remember ip version p.

(** ** The node *)

Section node.
Context {T : Type}.

(** The memory after an inbound handshake, and whether the failure counts as a violation *)
Definition after_inbound (ip : bytes) (prologue_version : Z) (r : Result T) (p : ProloguePreferences) : ProloguePreferences * bool :=
  match r with
  | Ok _ => (record_success ip prologue_version p, false)
  | Err e =>
      if is_prologue_mismatch e then
        match demote_after_failure ip prologue_version p with
        | (Some _, p) => (p, false)
        | (None, p) => (p, true)
        end
      else (p, true)
  | Panic => (p, false)
  end.

(** The surroundings of the dialer: [dial] opens a connection and names the peer's address if it is
    known, [shake] runs the handshake with a version on it. *)
Context {E : Type} (dial : E → E * option (option bytes)) (shake : Z → E → E * Result T).

Inductive OutboundOutcome : Type :=
| Connected (t : T) (version : Z)
| RetryableFailure
| OutOfFuel.

Definition fallback_version (peer_ip : option bytes) (version : Z) (e : DomError) (p : ProloguePreferences) : option Z * ProloguePreferences :=
  if is_prologue_mismatch e then
    match peer_ip with
    | Some ip => demote_after_failure ip version p
    | None => (mjoin (after_position version SUPPORTED_PROLOGUE_VERSIONS), p)
    end
  else (None, p).

(** The loop that dials, falls back to an older version and dials again *)
Fixpoint outbound_handshake (fuel : nat) (unkeyed_version : option Z) (p : ProloguePreferences) (env : E)
  : OutboundOutcome * ProloguePreferences * E :=
  match fuel with
  | O => (OutOfFuel, p, env)
  | S fuel' =>
      match dial env with
      | (env, None) => (RetryableFailure, p, env)
      | (env, Some peer_ip) =>
          let version := match peer_ip with Some ip => version_for ip p | None => default WIRE_PROTOCOL_VERSION unkeyed_version end in
          match shake version env with
          | (env, Ok t) => (Connected t version, match peer_ip with Some ip => record_success ip version p | None => p end, env)
          | (env, Err e) =>
              match fallback_version peer_ip version e p with
              | (Some next, p) => outbound_handshake fuel' (Some next) p env
              | (None, p) => (RetryableFailure, p, env)
              end
          | (env, Panic) => (RetryableFailure, p, env)
          end
      end
  end.
End node.
