(* ===== verification/HandshakeLaws.v ===== *)
(** * Laws of the handshake and of the version memory

    [Handshake.v]: two ends complete the handshake exactly when they agree on version, network and
    chain; a node finds the version of a peer that speaks one; and two nodes whose memories of each
    other differ stay apart. *)

From Stdlib Require Import ZArith Lia.
From stdpp Require Import base list strings gmap.
From S2P Require Import Prelude CoreError Core CryptoHash Wire Transport TransportLaws Handshake.
Local Open Scope string_scope.
Local Open Scope list_scope.
Local Open Scope Z_scope.

(** ** The prologue *)

Definition identity_ok (version magic : Z) (chain_id : bytes) : Prop := u32_ok version ∧ u32_ok magic ∧ zlen chain_id = 32.

Lemma prologue_len version magic chain_id : zlen chain_id = 32 → zlen (build_prologue_versioned version magic chain_id) = 43.
Proof. intros H. unfold build_prologue_versioned. rewrite !zlen_app, !zlen_le_bytes, H. reflexivity. Qed.

Lemma prologue_inj v m c v' m' c' :
  identity_ok v m c → identity_ok v' m' c' →
  build_prologue_versioned v m c = build_prologue_versioned v' m' c' → v = v' ∧ m = m' ∧ c = c'.
Proof.
  intros (Hv & Hm & Hc) (Hv' & Hm' & Hc') H. unfold build_prologue_versioned in H. apply app_inv_head in H.
  apply app_inj_1 in H as [H1 H]; [|by rewrite !length_le_bytes]. apply app_inj_1 in H as [H2 H]; [|by rewrite !length_le_bytes].
  split; [|split; [|done]].
  - by rewrite <- (le_val_le_bytes_id 4 v), <- (le_val_le_bytes_id 4 v'), H1.
  - by rewrite <- (le_val_le_bytes_id 4 m), <- (le_val_le_bytes_id 4 m'), H2.
Qed.

(** ** Frames *)

Definition short (m : bytes) : Prop := zlen m ≤ NOISE_MAX_MSG.
Lemma read_framed_written m rest : short m → read_framed (write_framed m ++ rest) = Ok (m, rest).
Proof.
  intros Hm. pose proof (zlen_nonneg m). pose proof (zlen_nonneg rest). unfold read_framed, write_framed. rewrite !zlen_app, zlen_le_bytes.
  destruct (Z.ltb_spec (Z.of_nat 4 + zlen m + zlen rest) 4); [lia|]. rewrite <- (assoc_L (++)).
  rewrite take_app_length' by (by rewrite length_le_bytes). rewrite drop_app_length' by (by rewrite length_le_bytes).
  rewrite le_val_le_bytes_id by (unfold short, NOISE_MAX_MSG, in_width in *; change (2 ^ (8 * Z.of_nat 4)) with 4294967296; lia).
  destruct (Z.ltb_spec NOISE_MAX_MSG (zlen m)); [unfold short in *; lia|]. rewrite zlen_app.
  destruct (Z.ltb_spec (zlen m + zlen rest) (zlen m)); [lia|]. by rewrite zlen_to_nat, take_app_length, drop_app_length.
Qed.
Lemma read_framed_end m : short m → read_framed (write_framed m) = Ok (m, []).
Proof. intros Hm. rewrite <- (app_nil_r (write_framed m)). by apply read_framed_written. Qed.

Section laws.
Context `{HH : NoiseHandshake} `{HP : !NoisePair}.

(** Noise XX: message 1 carries no tag; message 2 is the first that is checked against the transcript,
    which begins with the prologue; equal transcripts give the two ends of a session. *)
Class NoiseXX : Type := {
  xx_run ki kr pi pr : zlen pi = 43 → zlen pr = 43 →
    ∃ i0 r0 i1 r1 r2 m1 m2,
      hs_build true ki pi = inr i0 ∧ hs_build false kr pr = inr r0 ∧ hs_write i0 = (i1, inr m1) ∧ short m1
      ∧ hs_read r0 m1 = (r1, inr tt) ∧ hs_write r1 = (r2, inr m2) ∧ short m2
      ∧ (pi ≠ pr → ∃ i2, hs_read i1 m2 = (i2, inl "decrypt error"))
      ∧ (pi = pr → ∃ i2 i3 m3 r3 ti tr,
           hs_read i1 m2 = (i2, inr tt) ∧ hs_write i2 = (i3, inr m3) ∧ short m3 ∧ hs_read r2 m3 = (r3, inr tt)
           ∧ hs_transport i3 = inr ti ∧ hs_transport r3 = inr tr ∧ paired ti tr ∧ paired tr ti);
}.
Context `{HX : !NoiseXX}.

(** Both sides on one connection: each is fed what the other one writes, until it closes. *)
Record side : Type := { sd_key : bytes; sd_version : Z; sd_magic : Z; sd_chain : bytes }.
Definition initiator (s : side) : bytes → bytes * Result transport :=
  perform_handshake_initiator_inner (λ _, None) (sd_key s) (sd_version s) (sd_magic s) (sd_chain s).
Definition responder (s : side) : bytes → bytes * Result transport :=
  perform_handshake_responder_inner (λ _, None) (sd_key s) (sd_version s) (sd_magic s) (sd_chain s).
Definition run_session (i r : side) : Result transport * Result transport :=
  let from_responder := (responder r (initiator i []).1).1 in
  let from_initiator := (initiator i from_responder).1 in
  ((initiator i from_responder).2, (responder r from_initiator).2).

Definition side_ok (s : side) : Prop := identity_ok (sd_version s) (sd_magic s) (sd_chain s).
Definition same_network (i r : side) : Prop := sd_version i = sd_version r ∧ sd_magic i = sd_magic r ∧ sd_chain i = sd_chain r.

(** The states of the two ends, and what they do with any input *)
Lemma session_run i r : side_ok i → side_ok r →
  ∃ m1 m2, short m1 ∧ short m2 ∧ (initiator i []).1 = write_framed m1
    ∧ (∀ rest, (responder r (write_framed m1 ++ rest)).1 = write_framed m2)
    ∧ if decide (same_network i r) then
        ∃ m3 ti tr, initiator i (write_framed m2) = (write_framed m1 ++ write_framed m3, Ok ti)
          ∧ responder r (write_framed m1 ++ write_framed m3) = (write_framed m2, Ok tr) ∧ paired ti tr ∧ paired tr ti
      else
        initiator i (write_framed m2) = (write_framed m1, Err (Invalid "noise read msg2: decrypt error"))
        ∧ (responder r (write_framed m1)).2 = Err (Internal "noise read msg3: peer closed after msg2: read frame len: early eof").
Proof.
  intros Hi Hr. set (pi := build_prologue_versioned (sd_version i) (sd_magic i) (sd_chain i)).
  set (pr := build_prologue_versioned (sd_version r) (sd_magic r) (sd_chain r)).
  destruct (xx_run (sd_key i) (sd_key r) pi pr) as (i0 & r0 & i1 & r1 & r2 & m1 & m2 & Hb1 & Hb2 & Hw1 & Hs1 & Hr1 & Hw2 & Hs2 & Hbad & Hgood);
    [by apply prologue_len, Hi|by apply prologue_len, Hr|].
  unfold initiator, responder, perform_handshake_initiator_inner, perform_handshake_responder_inner, build_initiator_versioned, build_responder_versioned.
  fold pi pr. rewrite Hb1, Hb2. cbn [lift_noise]. rewrite Hw1. exists m1, m2. split; [done|]. split; [done|]. split; [done|]. split.
  - intros rest. rewrite read_framed_written by done. rewrite Hr1, Hw2. destruct (map_err tag_abort (read_framed rest)) as [[m3 x]|e|]; [|done|done].
    by destruct (hs_read r2 m3) as [r3 [e|[]]].
  - case_decide as Hsame.
    + assert (Hp : pi = pr) by (unfold pi, pr; destruct Hsame as (-> & -> & ->); done).
      destruct (Hgood Hp) as (i2 & i3 & m3 & r3 & ti & tr & Hr2 & Hw3 & Hs3 & Hr3 & Ht1 & Ht2 & Hpair & Hpair'). exists m3, ti, tr.
      rewrite read_framed_end, Hr2, Hw3 by done. unfold finish. rewrite Ht1. split; [done|].
      rewrite read_framed_written, Hr1, Hw2, read_framed_end by done. cbn [map_err]. rewrite Hr3. unfold finish. rewrite Ht2. done.
    + assert (Hp : pi ≠ pr) by (intros Hp; apply Hsame; by apply prologue_inj in Hp).
      destruct (Hbad Hp) as [i2 Hr2]. rewrite read_framed_end, Hr2 by done. split; [done|]. rewrite read_framed_end, Hr1, Hw2 by done. done.
Qed.

Lemma run_session_agrees i r : side_ok i → side_ok r → same_network i r →
  ∃ ti tr, run_session i r = (Ok ti, Ok tr) ∧ paired ti tr ∧ paired tr ti.
Proof.
  intros Hi Hr Hs. destruct (session_run i r Hi Hr) as (m1 & m2 & H1 & H2 & Ha & Hb & Hend). rewrite decide_True in Hend by done.
  destruct Hend as (m3 & ti & tr & Hti & Htr & Hp). exists ti, tr. split; [|done]. unfold run_session.
  rewrite Ha, <- (app_nil_r (write_framed m1)), Hb, Hti. cbn [fst snd]. by rewrite Htr.
Qed.
Lemma run_session_differs i r : side_ok i → side_ok r → ¬ same_network i r →
  ∃ ei er, run_session i r = (Err ei, Err er) ∧ is_prologue_mismatch ei = true ∧ is_prologue_mismatch er = true.
Proof.
  intros Hi Hr Hs. destruct (session_run i r Hi Hr) as (m1 & m2 & H1 & H2 & Ha & Hb & Hend). rewrite decide_False in Hend by done.
  destruct Hend as [Hti Htr]. unfold run_session. rewrite Ha, <- (app_nil_r (write_framed m1)), Hb, Hti. cbn [fst snd]. rewrite Htr.
  eexists _, _. split; [done|]. split; vm_compute; reflexivity.
Qed.

(** C20: The handshake binds the chain.  On one connection the two sides complete the handshake exactly when
    they have the same protocol version, network magic and chain identifier, and then hold the two ends
    of one session; otherwise both fail, and both failures count as a version mismatch. *)
Theorem handshake_binds_chain i r :
  side_ok i → side_ok r →
  (same_network i r ↔ ∃ ti tr, run_session i r = (Ok ti, Ok tr) ∧ paired ti tr ∧ paired tr ti)
  ∧ (¬ same_network i r ↔ ∃ ei er, run_session i r = (Err ei, Err er) ∧ is_prologue_mismatch ei = true ∧ is_prologue_mismatch er = true).
Proof.
  intros Hi Hr. split; split.
  - by apply run_session_agrees.
  - intros (ti & tr & Hrun & _). destruct (decide (same_network i r)) as [|Hn]; [done|].
    destruct (run_session_differs i r Hi Hr Hn) as (ei & er & Hrun' & _). by rewrite Hrun in Hrun'.
  - by apply run_session_differs.
  - intros (ei & er & Hrun & _) Hs. destruct (run_session_agrees i r Hi Hr Hs) as (ti & tr & Hrun' & _). by rewrite Hrun in Hrun'.
Qed.

(** ** Two nodes that remember each other *)

Definition known (v : Z) : Prop := v = 3 ∨ v = 2.

Lemma version_remember ip v p : version_for ip (remember ip v p) = v.
Proof. unfold version_for, remember. by rewrite lookup_insert_eq. Qed.
Lemma version_forgotten ip p : version_for ip (delete ip p) = 3.
Proof. unfold version_for. by rewrite lookup_delete_eq. Qed.

(** After a mismatch the memory holds the other of the two versions. *)
Lemma demote_flips ip v p : known v →
  demote_after_failure ip v p = (if v =? 3 then Some 2 else None, (demote_after_failure ip v p).2)
  ∧ version_for ip (demote_after_failure ip v p).2 = 5 - v.
Proof.
  intros [-> | ->]; unfold demote_after_failure; cbn [after_position SUPPORTED_PROLOGUE_VERSIONS Z.eqb Pos.eqb head snd].
  - split; [done|]. apply version_remember.
  - split; [done|]. apply version_forgotten.
Qed.
Lemma inbound_flips {T} ip v p e : known v → is_prologue_mismatch e = true →
  version_for ip (after_inbound (T := T) ip v (Err e) p).1 = 5 - v.
Proof. intros Hv He. unfold after_inbound. rewrite He. destruct (demote_flips ip v p Hv) as [H1 H2]. rewrite H1. by destruct (v =? 3). Qed.

(** The dial loop to one address ends, whatever the handshakes return. *)
Lemma outbound_ends {T E} (dial : E → E * option (option bytes)) (shake : Z → E → E * Result T) ip p env u :
  (∀ env, (dial env).2 = None ∨ (dial env).2 = Some (Some ip)) → known (version_for ip p) →
  (outbound_handshake dial shake 3 u p env).1.1 ≠ OutOfFuel.
Proof.
  intros Hd Hk.
  assert (Hstep : ∀ fuel u p env, known (version_for ip p) →
    (∀ u env p', version_for ip p = 3 → version_for ip p' = 2 → (outbound_handshake dial shake fuel u p' env).1.1 ≠ OutOfFuel) →
    (outbound_handshake dial shake (S fuel) u p env).1.1 ≠ OutOfFuel).
  { clear u p env Hk. intros fuel u p env Hk Hnext. cbn [outbound_handshake]. pose proof (Hd env) as Hde. destruct (dial env) as [env1 [peer|]]; [|done].
    destruct Hde as [|[= ->]]; [done|]. cbn [snd]. destruct (shake _ env1) as [env2 [t|e|]]; [done| |done]. unfold fallback_version.
    destruct (is_prologue_mismatch e); [|done]. destruct (demote_flips ip (version_for ip p) p Hk) as [Hf Hv]. rewrite Hf.
    destruct (Z.eqb_spec (version_for ip p) 3) as [H3|]; [|done]. apply Hnext; [done|]. rewrite Hv, H3. done. }
  apply Hstep; [done|]. intros u1 env1 p1 _ H2. apply Hstep; [right; exact H2|]. intros u2 env2 p2 H3. rewrite H2 in H3. done.
Qed.

Record node : Type := { nd_key : bytes; nd_ip : bytes }.
Context (magic : Z) (chain : bytes).
Definition at_version (n : node) (v : Z) : side := {| sd_key := nd_key n; sd_version := v; sd_magic := magic; sd_chain := chain |}.

(** [b] answers a dial of [a] with the version it remembers for [a]. *)
Definition dial_answered (a b : node) (v : Z) (memory : ProloguePreferences) : ProloguePreferences * Result transport :=
  let vr := version_for (nd_ip a) memory in
  let '(ri, rr) := run_session (at_version a v) (at_version b vr) in
  ((after_inbound (nd_ip a) vr rr memory).1, ri).
Definition dial_to (b : node) (memory : ProloguePreferences) : ProloguePreferences * option (option bytes) := (memory, Some (Some (nd_ip b))).
(** One outbound attempt of [a]; two versions need at most two connections. *)
Definition attempt_to (a b : node) (pa pb : ProloguePreferences) : OutboundOutcome * ProloguePreferences * ProloguePreferences :=
  outbound_handshake (dial_to b) (dial_answered a b) 3 None pa pb.

Hypothesis Hnet : u32_ok magic ∧ zlen chain = 32.

Lemma at_version_ok n v : known v → side_ok (at_version n v).
Proof. intros Hv. unfold side_ok, identity_ok. cbn. split; [|done]. destruct Hv as [-> | ->]; unfold u32_ok, in_width; lia. Qed.

Lemma answered_differs a b v memory : known v → known (version_for (nd_ip a) memory) → v ≠ version_for (nd_ip a) memory →
  ∃ memory' e, dial_answered a b v memory = (memory', Err e) ∧ is_prologue_mismatch e = true ∧ version_for (nd_ip a) memory' = v.
Proof.
  intros Hv Hr Hne. unfold dial_answered. set (vr := version_for (nd_ip a) memory) in *.
  destruct (run_session_differs (at_version a v) (at_version b vr)) as (ei & er & -> & Hei & Her); [by apply at_version_ok..|intros [? _]; done|].
  eexists _, _. split; [done|]. split; [done|]. rewrite inbound_flips by done. destruct Hv as [-> | ->], Hr as [-> | ->]; done || lia.
Qed.

Definition out_of_phase (a b : node) (pa pb : ProloguePreferences) : Prop :=
  known (version_for (nd_ip b) pa) ∧ known (version_for (nd_ip a) pb) ∧ version_for (nd_ip b) pa ≠ version_for (nd_ip a) pb.

Lemma attempt_out_of_phase a b pa pb : out_of_phase a b pa pb →
  ∃ pa' pb', attempt_to a b pa pb = (RetryableFailure, pa', pb') ∧ out_of_phase a b pa' pb'.
Proof.
  intros (Ha & Hb & Hne). unfold attempt_to. cbn [outbound_handshake dial_to]. set (v := version_for (nd_ip b) pa) in *.
  destruct (answered_differs a b v pb Ha Hb Hne) as (pb1 & e1 & -> & He1 & Hv1). unfold fallback_version at 1. rewrite He1.
  destruct (demote_flips (nd_ip b) v pa Ha) as [Hd Hf]. rewrite Hd. set (pa1 := (demote_after_failure (nd_ip b) v pa).2) in *.
  destruct (Z.eqb_spec v 3) as [Hv3|Hv3].
  2: { eexists _, _. split; [done|]. unfold out_of_phase. rewrite Hf, Hv1. destruct Ha as [|Ha]; [done|]. unfold known. rewrite Ha. lia. }
  rewrite Hf, Hv3 in *. change (5 - 3) with 2 in *.
  destruct (answered_differs a b 2 pb1) as (pb2 & e2 & -> & He2 & Hv2); [by right|rewrite Hv1; by left|by rewrite Hv1|].
  unfold fallback_version. rewrite He2. destruct (demote_flips (nd_ip b) 2 pa1 ltac:(by right)) as [Hd2 Hf2]. rewrite Hd2. cbn [Z.eqb Pos.eqb].
  eexists _, _. split; [done|]. unfold out_of_phase, known. rewrite Hf2, Hv2. lia.
Qed.

(** Attempts in either direction, one after the other *)
Fixpoint attempts_between (a b : node) (dirs : list bool) (pa pb : ProloguePreferences) : list OutboundOutcome :=
  match dirs with
  | [] => []
  | true :: dirs => let '(out, pa, pb) := attempt_to a b pa pb in out :: attempts_between a b dirs pa pb
  | false :: dirs => let '(out, pb, pa) := attempt_to b a pb pa in out :: attempts_between a b dirs pa pb
  end.

(** C30: Two nodes that both speak every supported version, with memories that name different versions
    for each other, never connect: every failed handshake moves both memories to the other version, so
    however often either of them dials the other, every attempt fails. *)
Theorem version_memories_never_meet a b dirs pa pb :
  out_of_phase a b pa pb → Forall (λ out, out = RetryableFailure) (attempts_between a b dirs pa pb).
Proof.
  revert pa pb. induction dirs as [|[] dirs IH]; intros pa pb Hp; cbn [attempts_between]; [constructor| |].
  - destruct (attempt_out_of_phase a b pa pb Hp) as (pa' & pb' & -> & Hp'). constructor; [done|by apply IH].
  - destruct (attempt_out_of_phase b a pb pa) as (pb' & pa' & -> & Hp'); [unfold out_of_phase in *; naive_solver|]. constructor; [done|].
    apply IH. unfold out_of_phase in *. naive_solver.
Qed.

(** A peer that speaks one version [w] is reached in one outbound attempt, and then remembered. *)
Definition answered_fixed (a b : node) (w v : Z) (u : unit) : unit * Result transport := (u, (run_session (at_version a v) (at_version b w)).1).
Lemma fixed_version_reached a b w pa : known w → known (version_for (nd_ip b) pa) →
  (w = 3 → version_for (nd_ip b) pa = 3) →
  ∃ t pa', outbound_handshake (λ u, (u, Some (Some (nd_ip b)))) (answered_fixed a b w) 3 None pa tt = (Connected t w, pa', tt)
    ∧ version_for (nd_ip b) pa' = w.
Proof.
  intros Hw Ha Hnew. cbn [outbound_handshake]. set (v := version_for (nd_ip b) pa) in *.
  assert (Hrec : ∀ p, version_for (nd_ip b) (record_success (nd_ip b) w p) = w).
  { intros p. unfold record_success. destruct Hw as [-> | ->]; cbn; [apply version_forgotten|apply version_remember]. }
  assert (Hsame : ∀ x, x = w → ∃ t, answered_fixed a b w x tt = (tt, Ok t)).
  { intros x ->. unfold answered_fixed. destruct (run_session_agrees (at_version a w) (at_version b w)) as (ti & tr & -> & _); [by apply at_version_ok..|done|]. by exists ti. }
  destruct (decide (v = w)) as [Heq|Hne]; [destruct (Hsame v Heq) as [t ->]; rewrite Heq; eexists _, _; split; [done|apply Hrec]|].
  assert (v = 3 ∧ w = 2) as [Hv Hw2] by (destruct Ha as [|], Hw as [|]; tauto || congruence || naive_solver congruence). rewrite Hv in *. subst w.
  unfold answered_fixed at 1. destruct (run_session_differs (at_version a 3) (at_version b 2)) as (ei & er & -> & He & _); [by apply at_version_ok..|intros [? _]; done|].
  unfold fallback_version. cbn [fst]. rewrite He. destruct (demote_flips (nd_ip b) 3 pa ltac:(by left)) as [Hd Hf]. rewrite Hd. cbn [Z.eqb Pos.eqb].
  rewrite Hf. destruct (Hsame (5 - 3) eq_refl) as [t ->]. eexists _, _. split; [done|apply Hrec].
Qed.
End laws.

(** ** A concrete handshake *)

(** Message 2 carries the responder's prologue, which the initiator compares with its own. *)
Definition sample_handshake : NoiseHandshake (HN := sample_noise) := {|
  hstate := bool * bytes;
  hs_build role _ p := inr (role, p);
  hs_write s := (s, inr (if s.1 then [1] else s.2));
  hs_read s m := (s, if s.1 && negb (bool_decide (m = s.2)) then inl "decrypt error" else inr tt);
  hs_transport _ := inr (0%nat : transport (NoiseTransport := sample_noise)) |}.
Lemma sample_xx : NoiseXX (HH := sample_handshake) (HP := sample_pair).
Proof.
  split. intros ki kr pi pr Hpi Hpr. eexists _, _, _, _, _, _, _. split; [reflexivity|]. split; [reflexivity|]. split; [reflexivity|].
  split; [vm_compute; discriminate|]. split; [reflexivity|]. split; [reflexivity|]. split; [unfold short, NOISE_MAX_MSG; cbn; lia|]. split.
  - intros Hne. eexists. cbn. by rewrite bool_decide_false by done.
  - intros ->. eexists _, _, _, _, _, _. split; [cbn; by rewrite bool_decide_true by done|]. split; [reflexivity|].
    split; [vm_compute; discriminate|]. by split_and!.
Qed.

Definition sample_side (v : Z) : side := {| sd_key := replicate 32 8; sd_version := v; sd_magic := 7; sd_chain := replicate 32 5 |}.
Lemma sample_side_ok v : known v → side_ok (sample_side v).
Proof. intros [-> | ->]; (split; [|split; [|reflexivity]]); unfold u32_ok, in_width; cbn; lia. Qed.

Lemma handshake_binds_chain_witness :
  ∃ ei er, run_session (HH := sample_handshake) (sample_side 3) (sample_side 2) = (Err ei, Err er) ∧ is_prologue_mismatch ei = true ∧ is_prologue_mismatch er = true.
Proof.
  destruct (handshake_binds_chain (HH := sample_handshake) (HP := sample_pair) (HX := sample_xx) (sample_side 3) (sample_side 2)
    (sample_side_ok 3 (or_introl eq_refl)) (sample_side_ok 2 (or_intror eq_refl))) as [_ [H _]].
  apply H. intros [Hv _]. discriminate Hv.
Defined.

(** A node that has met its peer at version 2, and the peer after an upgrade and a restart *)
Definition node_a : node := {| nd_key := replicate 32 8; nd_ip := [10; 0; 0; 1] |}.
Definition node_b : node := {| nd_key := replicate 32 16; nd_ip := [10; 0; 0; 2] |}.
Definition memory_a : ProloguePreferences := record_success (nd_ip node_b) 2 ∅.
Lemma version_memories_never_meet_witness :
  Forall (λ out, out = RetryableFailure)
    (attempts_between (HH := sample_handshake) 7 (replicate 32 5) node_a node_b (replicate 100 true ++ replicate 100 false) memory_a ∅).
Proof.
  apply (version_memories_never_meet (HH := sample_handshake) (HP := sample_pair) (HX := sample_xx) 7 (replicate 32 5)
    (conj (proj1 (proj2 (sample_side_ok 3 (or_introl eq_refl)))) eq_refl) node_a node_b (replicate 100 true ++ replicate 100 false) memory_a ∅).
  split; [right; vm_compute; reflexivity|]. split; [left; vm_compute; reflexivity|vm_compute; discriminate].
Defined.
