(* ===== verification/OrphanPool.v ===== *)
(** * Orphan blocks and missing parents

    [dom-node/src/orphan_pool.rs] and [dom-node/src/missing_block_tracker.rs]: blocks kept until
    their parent arrives, and the parents that are asked for again.  A [BTreeMap] that is iterated
    is a finite map read in the order of its keys. *)

From Stdlib Require Import ZArith Lia.
From stdpp Require Import base list gmap sorting.
From S2P Require Import Prelude ByteOrder.
Local Open Scope Z_scope.

Definition DEFAULT_MAX_ORPHAN_BLOCKS : Z := 1024.
Definition DEFAULT_MAX_ORPHANS_PER_PARENT : Z := 32.
Definition DEFAULT_MAX_ORPHAN_POOL_BYTES : Z := 256 * 1024 * 1024.

(** ** The pool *)

Record OrphanBlock : Type := {
  ob_block_hash : bytes; ob_parent_hash : bytes; ob_height : Z; ob_block_bytes : bytes;
}.

Inductive OrphanInsertOutcome : Type :=
| Inserted | Duplicate | EvictedOldest | RejectedParentLimit | RejectedTooLarge.

Record RuntimeOrphanPool : Type := {
  max_total : Z;
  max_per_parent : Z;
  max_total_bytes : Z;
  total_bytes : Z;
  by_hash : gmap bytes OrphanBlock;
  by_parent : gmap bytes (gset bytes);
  insertion_order : list bytes;
}.

Definition orphans_new_with_byte_limit (max_total max_per_parent max_total_bytes : Z) : RuntimeOrphanPool := {|
  max_total := Z.max max_total 1; max_per_parent := Z.max max_per_parent 1; max_total_bytes := Z.max max_total_bytes 1;
  total_bytes := 0; by_hash := ∅; by_parent := ∅; insertion_order := [] |}.
Definition orphans_new (max_total max_per_parent : Z) : RuntimeOrphanPool :=
  orphans_new_with_byte_limit max_total max_per_parent DEFAULT_MAX_ORPHAN_POOL_BYTES.

Definition orphans_len (p : RuntimeOrphanPool) : Z := Z.of_nat (size (by_hash p)).

Definition with_contents (p : RuntimeOrphanPool) (n : Z) (h : gmap bytes OrphanBlock) (q : gmap bytes (gset bytes)) (o : list bytes)
  : RuntimeOrphanPool := {|
  max_total := max_total p; max_per_parent := max_per_parent p; max_total_bytes := max_total_bytes p;
  total_bytes := n; by_hash := h; by_parent := q; insertion_order := o |}.

(** [children.remove(&hash)], and the entry with it when it was the last one *)
Definition remove_child (parent hash : bytes) (q : gmap bytes (gset bytes)) : gmap bytes (gset bytes) :=
  match q !! parent with
  | Some children =>
      let children := children ∖ {[hash]} in
      if decide (children = ∅) then delete parent q else <[parent := children]> q
  | None => q
  end.

Fixpoint evict_loop (p : RuntimeOrphanPool) (order : list bytes) : bool * RuntimeOrphanPool :=
  match order with
  | [] => (false, with_contents p (total_bytes p) (by_hash p) (by_parent p) [])
  | hash :: order' =>
      match by_hash p !! hash with
      | Some orphan =>
          (true, with_contents p (saturating_sub (total_bytes p) (zlen (ob_block_bytes orphan)))
                   (delete hash (by_hash p)) (remove_child (ob_parent_hash orphan) hash (by_parent p)) order')
      | None => evict_loop p order'
      end
  end.
Definition evict_oldest (p : RuntimeOrphanPool) : bool * RuntimeOrphanPool := evict_loop p (insertion_order p).

(** Every turn takes at least one hash off [insertion_order]. *)
Fixpoint evict_until (fuel : nat) (orphan_bytes : Z) (outcome : OrphanInsertOutcome) (p : RuntimeOrphanPool)
  : OrphanInsertOutcome * RuntimeOrphanPool :=
  if (max_total p <=? orphans_len p) || (max_total_bytes p <? total_bytes p + orphan_bytes) then
    match fuel with
    | O => (outcome, p)
    | S fuel' =>
        match evict_oldest p with
        | (false, p') => (outcome, p')
        | (true, p') => evict_until fuel' orphan_bytes EvictedOldest p'
        end
    end
  else (outcome, p).

Definition children_of (p : RuntimeOrphanPool) (parent : bytes) : gset bytes := default ∅ (by_parent p !! parent).

Definition orphans_insert (orphan : OrphanBlock) (p : RuntimeOrphanPool) : OrphanInsertOutcome * RuntimeOrphanPool :=
  match by_hash p !! ob_block_hash orphan with
  | Some _ => (Duplicate, p)
  | None =>
      let orphan_bytes := zlen (ob_block_bytes orphan) in
      if max_total_bytes p <? orphan_bytes then (RejectedTooLarge, p)
      else if max_per_parent p <=? Z.of_nat (size (children_of p (ob_parent_hash orphan))) then (RejectedParentLimit, p)
      else
        let '(outcome, p) := evict_until (S (length (insertion_order p))) orphan_bytes Inserted p in
        (outcome,
         with_contents p (total_bytes p + orphan_bytes) (<[ob_block_hash orphan := orphan]> (by_hash p))
           (<[ob_parent_hash orphan := {[ob_block_hash orphan]} ∪ children_of p (ob_parent_hash orphan)]> (by_parent p))
           (insertion_order p ++ [ob_block_hash orphan]))
  end.

(** The order of [(height, block_hash)] *)
Definition orphan_le (a b : OrphanBlock) : Prop :=
  ob_height a < ob_height b ∨ ob_height a = ob_height b ∧ bytes_le (ob_block_hash a) (ob_block_hash b).
#[export] Instance orphan_le_dec a b : Decision (orphan_le a b).
Proof. unfold orphan_le. apply _. Defined.

Definition take_child (acc : Z * gmap bytes OrphanBlock * list OrphanBlock) (hash : bytes) : Z * gmap bytes OrphanBlock * list OrphanBlock :=
  let '(n, m, out) := acc in
  match m !! hash with
  | Some orphan => (saturating_sub n (zlen (ob_block_bytes orphan)), delete hash m, out ++ [orphan])
  | None => acc
  end.

Definition take_children (parent_hash : bytes) (p : RuntimeOrphanPool) : list OrphanBlock * RuntimeOrphanPool :=
  match by_parent p !! parent_hash with
  | None => ([], p)
  | Some children =>
      let '(n, m, out) := foldl take_child (total_bytes p, by_hash p, []) (sort_by_key id (elements children)) in
      (merge_sort orphan_le out,
       with_contents p n m (delete parent_hash (by_parent p)) (filter (λ h, is_Some (m !! h)) (insertion_order p)))
  end.

(** ** Missing parents *)

Definition MAX_TRACKED_MISSING_PARENTS : Z := 4096.
Definition MAX_DEPENDENTS_PER_PARENT : Z := 256.
Definition BACKOFF_SHIFT_CAP : Z := 20.

Definition backoff_interval (base ceiling attempts : Z) : Z :=
  let shift := Z.min (saturating_sub attempts 1) BACKOFF_SHIFT_CAP in
  let interval := Z.min (base * Z.shiftl 1 shift) u64_max in
  Z.max (Z.min interval (Z.max ceiling 1)) 1.

Record MissingKey : Type := { height_rank : Z; mk_hash : bytes }.
#[export] Instance MissingKey_eq_dec : EqDecision MissingKey.
Proof. solve_decision. Defined.
#[export] Instance MissingKey_countable : Countable MissingKey.
Proof.
  apply (inj_countable' (λ k, (height_rank k, mk_hash k)) (λ x, {| height_rank := x.1; mk_hash := x.2 |})). by intros [].
Defined.
Definition missing_key_new (hash : bytes) (height : option Z) : MissingKey :=
  {| height_rank := default u64_max height; mk_hash := hash |}.
Definition missing_key_le (a b : MissingKey) : Prop :=
  height_rank a < height_rank b ∨ height_rank a = height_rank b ∧ bytes_le (mk_hash a) (mk_hash b).
#[export] Instance missing_key_le_dec a b : Decision (missing_key_le a b).
Proof. unfold missing_key_le. apply _. Defined.

Record RequestState : Type := { attempts : Z; last_requested_round : option Z }.
Inductive NoteOutcome : Type := NewlyMissing | AlreadyMissing.

Record MissingBlockTracker : Type := {
  missing : gmap MissingKey RequestState;
  key_by_hash : gmap bytes MissingKey;
  dependents : gmap bytes (gset bytes);
  base_backoff_rounds : Z;
  max_backoff_rounds : Z;
  max_batch : Z;
  mb_round : Z;
}.
Definition with_tracked (t : MissingBlockTracker) (m : gmap MissingKey RequestState) (k : gmap bytes MissingKey) (d : gmap bytes (gset bytes))
  : MissingBlockTracker := {|
  missing := m; key_by_hash := k; dependents := d; base_backoff_rounds := base_backoff_rounds t;
  max_backoff_rounds := max_backoff_rounds t; max_batch := max_batch t; mb_round := mb_round t |}.

Definition tracker_new (base_backoff_rounds max_backoff_rounds max_batch : Z) : MissingBlockTracker := {|
  missing := ∅; key_by_hash := ∅; dependents := ∅; base_backoff_rounds := Z.max base_backoff_rounds 1;
  max_backoff_rounds := Z.max max_backoff_rounds 1; max_batch := Z.max max_batch 1; mb_round := 0 |}.

Definition advance_round (t : MissingBlockTracker) : MissingBlockTracker := {|
  missing := missing t; key_by_hash := key_by_hash t; dependents := dependents t; base_backoff_rounds := base_backoff_rounds t;
  max_backoff_rounds := max_backoff_rounds t; max_batch := max_batch t; mb_round := saturating_add 64 (mb_round t) 1 |}.
Definition is_missing (t : MissingBlockTracker) (hash : bytes) : bool := bool_decide (is_Some (key_by_hash t !! hash)).

Definition note_orphan (orphan parent : bytes) (parent_height : option Z) (t : MissingBlockTracker) : NoteOutcome * MissingBlockTracker :=
  match key_by_hash t !! parent with
  | Some _ =>
      let waiting := default ∅ (dependents t !! parent) in
      let waiting := if Z.of_nat (size waiting) <? MAX_DEPENDENTS_PER_PARENT then {[orphan]} ∪ waiting else waiting in
      (AlreadyMissing, with_tracked t (missing t) (key_by_hash t) (<[parent := waiting]> (dependents t)))
  | None =>
      if MAX_TRACKED_MISSING_PARENTS <=? Z.of_nat (size (missing t)) then (AlreadyMissing, t)
      else
        let key := missing_key_new parent parent_height in
        (NewlyMissing,
         with_tracked t (<[key := {| attempts := 0; last_requested_round := None |}]> (missing t))
           (<[parent := key]> (key_by_hash t)) (<[parent := {[orphan]}]> (dependents t)))
  end.

Definition eligible (t : MissingBlockTracker) (round : Z) (s : RequestState) : bool :=
  match last_requested_round s with
  | None => true
  | Some last => backoff_interval (base_backoff_rounds t) (max_backoff_rounds t) (attempts s) <=? saturating_sub round last
  end.
Definition requested (round : Z) (s : RequestState) : RequestState :=
  {| attempts := saturating_add 32 (attempts s) 1; last_requested_round := Some round |}.

Fixpoint request_loop (t : MissingBlockTracker) (round : Z) (keys : list (MissingKey * RequestState)) (m : gmap MissingKey RequestState)
    (batch : list bytes) : gmap MissingKey RequestState * list bytes :=
  match keys with
  | [] => (m, batch)
  | (key, s) :: keys' =>
      if max_batch t <=? zlen batch then (m, batch)
      else if negb (eligible t round s) then request_loop t round keys' m batch
      else request_loop t round keys' (<[key := requested round s]> m) (batch ++ [mk_hash key])
  end.
Definition missing_in_order (t : MissingBlockTracker) : list (MissingKey * RequestState) :=
  merge_sort (λ a b, missing_key_le a.1 b.1) (map_to_list (missing t)).
Definition next_request_batch (round : Z) (t : MissingBlockTracker) : list bytes * MissingBlockTracker :=
  let '(m, batch) := request_loop t round (missing_in_order t) (missing t) [] in
  (batch, with_tracked t m (key_by_hash t) (dependents t)).

Definition resolve (hash : bytes) (t : MissingBlockTracker) : list bytes * MissingBlockTracker :=
  let m := match key_by_hash t !! hash with Some key => delete key (missing t) | None => missing t end in
  (sort_by_key id (elements (default ∅ (dependents t !! hash))),
   with_tracked t m (delete hash (key_by_hash t)) (delete hash (dependents t))).
