(* ===== verification/OrphanLaws.v ===== *)
(** * Laws of the orphan pool and of the missing-block tracker

    [OrphanPool.v]: the indexes of the pool agree and stay within their limits; a parent that is
    missing stays tracked until it arrives; when it is asked for again depends on how many come before it. *)

From Stdlib Require Import ZArith Lia.
From stdpp Require Import base list gmap sorting.
From S2P Require Import Prelude ByteOrder OrphanPool.
Local Open Scope Z_scope.

(** ** The pool *)

Definition bytes_in (m : gmap bytes OrphanBlock) : Z := map_fold (λ _ o acc, zlen (ob_block_bytes o) + acc) 0 m.

Lemma bytes_in_insert m h o : m !! h = None → bytes_in (<[h := o]> m) = zlen (ob_block_bytes o) + bytes_in m.
Proof. intros H. unfold bytes_in. rewrite map_fold_insert_L; [done| |done]. intros. lia. Qed.
Lemma bytes_in_delete m h o : m !! h = Some o → bytes_in m = zlen (ob_block_bytes o) + bytes_in (delete h m).
Proof. intros H. rewrite <- (insert_delete_id m h o H) at 1. apply bytes_in_insert, lookup_delete_eq. Qed.
Lemma bytes_in_nonneg m : 0 ≤ bytes_in m.
Proof.
  induction m as [|h o m Hh IH] using map_ind; [done|]. rewrite bytes_in_insert by done. pose proof (zlen_nonneg (ob_block_bytes o)). lia.
Qed.

(** The indexes agree with the blocks held. *)
Record indexed (p : RuntimeOrphanPool) : Prop := {
  ix_limits : 1 ≤ max_total p ∧ 1 ≤ max_per_parent p ∧ 1 ≤ max_total_bytes p;
  ix_hash : ∀ h o, by_hash p !! h = Some o → ob_block_hash o = h;
  ix_order : ∀ h, h ∈ insertion_order p ↔ is_Some (by_hash p !! h);
  ix_once : NoDup (insertion_order p);
  ix_parent : ∀ q h, h ∈ children_of p q ↔ ∃ o, by_hash p !! h = Some o ∧ ob_parent_hash o = q;
  ix_some : ∀ q s, by_parent p !! q = Some s → s ≠ ∅;
  ix_bytes : total_bytes p = bytes_in (by_hash p);
  ix_family : ∀ q, Z.of_nat (size (children_of p q)) ≤ max_per_parent p;
}.
Record orphans_ok (p : RuntimeOrphanPool) : Prop := {
  oo_indexed : indexed p;
  oo_count : orphans_len p ≤ max_total p;
  oo_bytes : total_bytes p ≤ max_total_bytes p;
}.

Lemma remove_child_lookup q h parent m :
  default ∅ (remove_child parent h m !! q) = if decide (q = parent) then default ∅ (m !! q) ∖ {[h]} else default (∅ : gset bytes) (m !! q).
Proof.
  unfold remove_child. destruct (m !! parent) as [s|] eqn:Hs.
  - case_decide as He; case_decide as Hq; subst; rewrite ?lookup_delete_eq, ?lookup_insert_eq, ?lookup_delete_ne, ?lookup_insert_ne by done;
      rewrite ?Hs; cbn; try done; by rewrite He.
  - case_decide; subst; [rewrite Hs; cbn; set_solver|done].
Qed.
Lemma remove_child_some q h parent m s : (∀ q s, m !! q = Some s → s ≠ ∅) → remove_child parent h m !! q = Some s → s ≠ (∅ : gset bytes).
Proof.
  intros Hm. unfold remove_child. destruct (m !! parent) as [s0|] eqn:Hs; [|apply Hm]. case_decide.
  - intros [_ Hq]%lookup_delete_Some. by eapply Hm.
  - intros [[_ <-]|[_ Hq]]%lookup_insert_Some; [done|by eapply Hm].
Qed.

Definition without_oldest (p : RuntimeOrphanPool) (h : bytes) (o : OrphanBlock) (order : list bytes) : RuntimeOrphanPool :=
  with_contents p (saturating_sub (total_bytes p) (zlen (ob_block_bytes o))) (delete h (by_hash p))
    (remove_child (ob_parent_hash o) h (by_parent p)) order.

Lemma indexed_without p h o order :
  indexed p → insertion_order p = h :: order → by_hash p !! h = Some o → indexed (without_oldest p h o order).
Proof.
  intros Hp Ho Hh. pose proof (ix_once p Hp) as Hnd. rewrite Ho in Hnd. apply NoDup_cons in Hnd as [Hnin Hnd].
  assert (Hc : ∀ q, children_of (without_oldest p h o order) q ⊆ children_of p q)
    by (intros q; unfold children_of; cbn; rewrite remove_child_lookup; case_decide; set_solver).
  split; cbn [without_oldest with_contents max_total max_per_parent max_total_bytes by_hash insertion_order total_bytes by_parent].
  - apply Hp.
  - intros h' o' [_ H]%lookup_delete_Some. by apply (ix_hash p Hp).
  - intros h'. pose proof (ix_order p Hp h') as Hor. rewrite Ho, elem_of_cons in Hor. destruct (decide (h' = h)) as [-> |Hne].
    + rewrite lookup_delete_eq. split; [done|by intros []].
    + rewrite lookup_delete_ne by done. rewrite <- Hor. naive_solver.
  - done.
  - intros q h'. unfold children_of. cbn. rewrite remove_child_lookup. pose proof (ix_parent p Hp q h') as Hq. unfold children_of in Hq.
    destruct (decide (h' = h)) as [-> |Hne].
    + rewrite lookup_delete_eq. split; [|naive_solver]. case_decide as Hqe; [set_solver|]. rewrite Hq. intros (o' & Ho' & <-). by simplify_eq.
    + rewrite lookup_delete_ne by done. case_decide; rewrite <- Hq; set_solver.
  - intros q s. apply remove_child_some, (ix_some p Hp).
  - rewrite (ix_bytes p Hp), (bytes_in_delete _ _ _ Hh). pose proof (bytes_in_nonneg (delete h (by_hash p))). unfold saturating_sub. lia.
  - intros q. pose proof (ix_family p Hp q). pose proof (subseteq_size _ _ (Hc q)). lia.
Qed.

Lemma evict_oldest_indexed p : indexed p →
  evict_oldest p = match insertion_order p with
                   | [] => (false, p)
                   | h :: order => match by_hash p !! h with Some o => (true, without_oldest p h o order) | None => (false, p) end
                   end
  ∧ ∀ h order, insertion_order p = h :: order → is_Some (by_hash p !! h).
Proof.
  intros Hp. assert (Hsome : ∀ h order, insertion_order p = h :: order → is_Some (by_hash p !! h))
    by (intros h order Ho; apply (ix_order p Hp); rewrite Ho; by left).
  split; [|done]. unfold evict_oldest. destruct (insertion_order p) as [|h order] eqn:Ho; cbn.
  - f_equal. destruct p; cbn in *. by subst.
  - destruct (Hsome h order eq_refl) as [o ->]. done.
Qed.

(** The loop ends with room for the block, having dropped the oldest blocks. *)
Lemma evict_until_spec fuel n outcome p outcome' p' :
  indexed p → 0 ≤ n ≤ max_total_bytes p → (length (insertion_order p) < fuel)%nat →
  evict_until fuel n outcome p = (outcome', p') →
  indexed p' ∧ max_total p' = max_total p ∧ max_total_bytes p' = max_total_bytes p ∧ max_per_parent p' = max_per_parent p
  ∧ orphans_len p' < max_total p ∧ total_bytes p' + n ≤ max_total_bytes p ∧ by_hash p' ⊆ by_hash p
  ∧ (∃ k, insertion_order p' = drop k (insertion_order p)) ∧ (∀ q, children_of p' q ⊆ children_of p q)
  ∧ (p' = p ∧ outcome' = outcome ∨ outcome' = EvictedOldest).
Proof.
  revert p outcome. induction fuel as [|fuel IH]; intros p outcome Hp Hn Hf; [lia|]. cbn [evict_until].
  destruct (Z.leb_spec (max_total p) (orphans_len p)) as [Hc|Hc], (Z.ltb_spec (max_total_bytes p) (total_bytes p + n)) as [Hb|Hb]; cbn [orb].
  4: { intros [= <- <-]. split_and!; try done; [by exists 0%nat|by left]. }
  all: destruct (evict_oldest_indexed p Hp) as [-> Hsome]; destruct (insertion_order p) as [|h order] eqn:Ho.
  1,3,5: exfalso; assert (He : by_hash p = ∅)
      by (apply map_eq; intros h; rewrite lookup_empty; apply eq_None_not_Some; rewrite <- (ix_order p Hp), Ho; apply not_elem_of_nil);
    pose proof (ix_limits p Hp); pose proof (ix_bytes p Hp) as Hbt; unfold orphans_len in *; rewrite He in *; rewrite ?map_size_empty in *;
    change (bytes_in ∅) with 0 in Hbt; lia.
  all: destruct (Hsome h order eq_refl) as [o Hh]; rewrite Hh; intros He;
    apply IH in He as (H1 & H2 & H3 & H4 & H5 & H6 & H7 & (k & H8) & H9 & H10);
    [|by apply indexed_without|done|cbn in *; lia]; cbn [without_oldest with_contents max_total max_per_parent max_total_bytes by_hash insertion_order] in *;
    (split_and!; try done;
      [etrans; [done|apply delete_subseteq]
      |by exists (S k)
      |intros q; etrans; [apply H9|]; unfold children_of; cbn; rewrite remove_child_lookup; case_decide; set_solver
      |right; by destruct H10 as [[_ ->]|]]).
Qed.

Definition kept_outcome (outcome : OrphanInsertOutcome) : bool :=
  match outcome with Inserted | EvictedOldest => true | _ => false end.

Lemma indexed_insert p o :
  indexed p → by_hash p !! ob_block_hash o = None → Z.of_nat (size (children_of p (ob_parent_hash o))) < max_per_parent p →
  indexed (with_contents p (total_bytes p + zlen (ob_block_bytes o)) (<[ob_block_hash o := o]> (by_hash p))
             (<[ob_parent_hash o := {[ob_block_hash o]} ∪ children_of p (ob_parent_hash o)]> (by_parent p))
             (insertion_order p ++ [ob_block_hash o])).
Proof.
  intros Hp Hnew Hfam. set (p' := with_contents _ _ _ _ _).
  assert (Hc : ∀ q, children_of p' q = if decide (q = ob_parent_hash o) then {[ob_block_hash o]} ∪ children_of p q else children_of p q)
    by (intros q; unfold children_of, p'; cbn; case_decide; subst; by rewrite ?lookup_insert_eq, ?lookup_insert_ne by done).
  split; [apply Hp| | | | | | |]; unfold p' in *; cbn [with_contents max_total max_per_parent max_total_bytes by_hash insertion_order total_bytes by_parent] in *.
  - intros h x [[<- <-]|[_ H]]%lookup_insert_Some; [done|by apply (ix_hash p Hp)].
  - intros h. rewrite elem_of_app, list_elem_of_singleton, (ix_order p Hp), lookup_insert_is_Some'. naive_solver.
  - apply NoDup_app. split; [apply Hp|]. split; [|apply NoDup_singleton]. intros h Hh ->%list_elem_of_singleton.
    apply (ix_order p Hp) in Hh. rewrite Hnew in Hh. by destruct Hh.
  - intros q h. rewrite Hc. pose proof (ix_parent p Hp q h) as Hq. destruct (decide (h = ob_block_hash o)) as [-> |Hne].
    + rewrite lookup_insert_eq. case_decide; [set_solver|]. rewrite Hq, Hnew. naive_solver.
    + rewrite lookup_insert_ne by done. case_decide; set_solver.
  - intros q s [[<- <-]|[_ H]]%lookup_insert_Some; [set_solver|by apply (ix_some p Hp q)].
  - rewrite bytes_in_insert, (ix_bytes p Hp) by done. lia.
  - intros q. rewrite Hc. pose proof (ix_family p Hp q). case_decide; [|lia]. subst.
    assert (ob_block_hash o ∉ children_of p (ob_parent_hash o)) by (rewrite (ix_parent p Hp), Hnew; naive_solver).
    rewrite size_union, size_singleton by set_solver. lia.
Qed.

(** What an insertion does to a consistent pool *)
Lemma orphans_insert_spec p o outcome p' :
  orphans_ok p → orphans_insert o p = (outcome, p') →
  orphans_ok p'
  ∧ (kept_outcome outcome = false → p' = p)
  ∧ (kept_outcome outcome = true →
      by_hash p' !! ob_block_hash o = Some o ∧ by_hash p !! ob_block_hash o = None
      ∧ delete (ob_block_hash o) (by_hash p') ⊆ by_hash p
      ∧ ∃ k, insertion_order p' = drop k (insertion_order p) ++ [ob_block_hash o])
  ∧ (outcome = Inserted → by_hash p' = <[ob_block_hash o := o]> (by_hash p)).
Proof.
  intros [Hp Hcount Hbytes]. unfold orphans_insert.
  destruct (by_hash p !! ob_block_hash o) as [x|] eqn:Hnew; [by intros [= <- <-]|].
  destruct (Z.ltb_spec (max_total_bytes p) (zlen (ob_block_bytes o))) as [|Hfit]; [by intros [= <- <-]|].
  destruct (Z.leb_spec (max_per_parent p) (Z.of_nat (size (children_of p (ob_parent_hash o))))) as [|Hfam]; [by intros [= <- <-]|].
  destruct (evict_until _ _ _ _) as [out1 p1] eqn:He. pose proof (zlen_nonneg (ob_block_bytes o)).
  apply evict_until_spec in He as (H1 & H2 & H3 & H4 & H5 & H6 & H7 & (k & H8) & H9 & H10); [|done|lia|lia].
  intros [= <- <-]. assert (Hnew1 : by_hash p1 !! ob_block_hash o = None) by (by eapply lookup_weaken_None).
  assert (Hfam1 : Z.of_nat (size (children_of p1 (ob_parent_hash o))) < max_per_parent p1)
    by (pose proof (subseteq_size _ _ (H9 (ob_parent_hash o))); lia).
  split; [split; [by apply indexed_insert| |]|split; [by destruct H10 as [[_ ->]| ->]|split]].
  - unfold orphans_len in *. cbn. rewrite map_size_insert_None by done. lia.
  - cbn. lia.
  - intros _. cbn. rewrite lookup_insert_eq. split; [done|]. split; [done|]. split; [by rewrite delete_insert_id|]. exists k. by rewrite H8.
  - intros ->. destruct H10 as [[-> _]|]; done.
Qed.

Lemma take_fold l m out :
  (∀ h o, m !! h = Some o → ob_block_hash o = h) →
  ∃ os m', foldl take_child (bytes_in m, m, out) l = (bytes_in m', m', out ++ os)
    ∧ (∀ h, m' !! h = if decide (h ∈ l) then None else m !! h)
    ∧ (∀ o, o ∈ os ↔ ob_block_hash o ∈ l ∧ m !! ob_block_hash o = Some o)
    ∧ NoDup (ob_block_hash <$> os) ∧ (size m' + length os = size m)%nat.
Proof.
  revert m out. induction l as [|h l IH]; intros m out Hm; cbn [foldl].
  { exists [], m. rewrite app_nil_r. split_and!; [done|done|set_solver|by apply NoDup_nil_2|cbn; lia]. }
  unfold take_child at 2. destruct (m !! h) as [o|] eqn:Hh.
  - pose proof (bytes_in_delete _ _ _ Hh) as Hb. pose proof (bytes_in_nonneg (delete h m)).
    replace (saturating_sub (bytes_in m) (zlen (ob_block_bytes o))) with (bytes_in (delete h m)) by (unfold saturating_sub; lia).
    assert (Ho : ob_block_hash o = h) by (by apply Hm).
    destruct (IH (delete h m) (out ++ [o])) as (os & m' & -> & Hl & Hos & Hnd & Hsz); [intros h' o' [_ ?]%lookup_delete_Some; by apply Hm|].
    exists (o :: os), m'. split; [by rewrite <- (assoc_L (++))|]. split; [|split; [|split]].
    + intros h'. rewrite Hl. destruct (decide (h' = h)) as [-> |Hne]; [rewrite lookup_delete_eq|rewrite lookup_delete_ne by done];
        repeat case_decide; set_solver.
    + intros x. rewrite elem_of_cons, Hos, elem_of_cons. destruct (decide (ob_block_hash x = h)) as [Hx|Hx].
      * rewrite Hx, lookup_delete_eq, Hh. naive_solver.
      * rewrite lookup_delete_ne by done. naive_solver.
    + cbn. apply NoDup_cons. split; [|done]. intros (x & Hx & [_ Hin]%Hos)%list_elem_of_fmap. by rewrite <- Hx, Ho, lookup_delete_eq in Hin.
    + cbn. rewrite map_size_delete_Some in Hsz by done. pose proof (map_size_ne_0_lookup_2 m h ltac:(by eexists)). lia.
  - destruct (IH m out Hm) as (os & m' & -> & Hl & Hos & Hnd & Hsz). exists os, m'. split; [done|]. split; [|split; [|done]].
    + intros h'. rewrite Hl. destruct (decide (h' = h)) as [-> |Hne]; repeat case_decide; set_solver.
    + intros x. rewrite Hos, elem_of_cons. naive_solver.
Qed.

#[export] Instance orphan_le_total : Total orphan_le.
Proof.
  intros a b. unfold orphan_le. destruct (Z.lt_trichotomy (ob_height a) (ob_height b)) as [|[|]]; [by left; left| |by right; left].
  destruct (total bytes_le (ob_block_hash a) (ob_block_hash b)); [left|right]; right; split; done || lia.
Qed.
#[export] Instance orphan_le_trans : Transitive orphan_le.
Proof. intros a b c. unfold orphan_le. intros [?|[? ?]] [?|[? ?]]; [left; lia..|]. right. split; [lia|]. by etrans. Qed.

(** What taking the children of a parent does to a consistent pool *)
Lemma take_children_spec p q cs p' :
  orphans_ok p → take_children q p = (cs, p') →
  orphans_ok p' ∧ StronglySorted orphan_le cs ∧ NoDup (ob_block_hash <$> cs)
  ∧ (∀ o, o ∈ cs ↔ by_hash p !! ob_block_hash o = Some o ∧ ob_parent_hash o = q)
  ∧ (∀ h o, by_hash p' !! h = Some o ↔ by_hash p !! h = Some o ∧ ob_parent_hash o ≠ q)
  ∧ (size (by_hash p') + length cs = size (by_hash p))%nat.
Proof.
  intros [Hp Hcount Hbytes]. unfold take_children. destruct (by_parent p !! q) as [s|] eqn:Hq.
  2: { intros [= <- <-]. assert (Hno : ∀ h o, by_hash p !! h = Some o → ob_parent_hash o ≠ q).
    { intros h o Ho Heq. assert (h ∈ children_of p q) as Hin by (apply (ix_parent p Hp); eauto). unfold children_of in Hin. rewrite Hq in Hin. set_solver. }
    split_and!; [done|constructor|by apply NoDup_nil_2|set_solver|naive_solver|cbn; lia]. }
  rewrite (ix_bytes p Hp). destruct (take_fold (sort_by_key id (elements s)) (by_hash p) [] (ix_hash p Hp)) as (os & m' & -> & Hl & Hos & Hnd & Hsz).
  intros [= <- <-]. assert (Hs : ∀ h, h ∈ sort_by_key id (elements s) ↔ ∃ o, by_hash p !! h = Some o ∧ ob_parent_hash o = q).
  { intros h. rewrite sort_by_key_elem, elem_of_elements, <- (ix_parent p Hp q h). unfold children_of. by rewrite Hq. }
  assert (Hm : ∀ h o, m' !! h = Some o ↔ by_hash p !! h = Some o ∧ ob_parent_hash o ≠ q).
  { intros h o. rewrite Hl. case_decide as Hd; rewrite Hs in Hd; naive_solver. }
  assert (Hperm : merge_sort orphan_le ([] ++ os) ≡ₚ os) by apply merge_sort_Permutation.
  split_and!; [|apply StronglySorted_merge_sort; apply _|by rewrite Hperm| |done|by rewrite Hperm].
  2: { intros o. rewrite Hperm, Hos, Hs. naive_solver. }
  assert (Hsub : m' ⊆ by_hash p) by (apply map_subseteq_spec; naive_solver).
  assert (Hch : ∀ q', default ∅ (delete q (by_parent p) !! q') = if decide (q' = q) then ∅ else children_of p q')
    by (intros q'; case_decide; subst; by rewrite ?lookup_delete_eq, ?lookup_delete_ne by done).
  split; [split|unfold orphans_len in *; cbn; lia|]; cbn [with_contents max_total max_per_parent max_total_bytes by_hash insertion_order total_bytes by_parent].
  - apply Hp.
  - intros h o [? _]%Hm. by apply (ix_hash p Hp).
  - intros h. rewrite list_elem_of_filter, (ix_order p Hp). split; [naive_solver|]. intros Hh. split; [done|]. destruct Hh as [o [? _]%Hm]. by eexists.
  - apply NoDup_filter, Hp.
  - intros q' h. unfold children_of. cbn. rewrite Hch. pose proof (ix_parent p Hp q' h). case_decide; [|setoid_rewrite Hm; naive_solver].
    split; [set_solver|]. setoid_rewrite Hm. naive_solver.
  - intros q' s' [_ ?]%lookup_delete_Some. by apply (ix_some p Hp q').
  - done.
  - intros q'. unfold children_of. cbn. rewrite Hch. case_decide; [rewrite size_empty; pose proof (ix_limits p Hp); lia|apply Hp].
  - cbn. pose proof (ix_bytes p Hp) as Hbt. assert (bytes_in m' ≤ bytes_in (by_hash p)); [|lia].
    clear -Hsub. revert Hsub. generalize (by_hash p). induction m' as [|h o m Hh IH] using map_ind; intros M Hsub; [apply bytes_in_nonneg|].
    assert (HM : M !! h = Some o) by (eapply lookup_weaken; [apply lookup_insert_eq|done]). rewrite bytes_in_insert, (bytes_in_delete M h o HM) by done.
    assert (bytes_in m ≤ bytes_in (delete h M)); [|lia]. apply IH. rewrite <- (delete_insert_id m h o Hh). by apply delete_mono.
Qed.

(** ** The tracker *)

Record tracker_ok (t : MissingBlockTracker) : Prop := {
  to_limits : 1 ≤ base_backoff_rounds t ∧ 1 ≤ max_backoff_rounds t ∧ 1 ≤ max_batch t;
  to_key : ∀ k, is_Some (missing t !! k) → key_by_hash t !! mk_hash k = Some k;
  to_hash : ∀ h k, key_by_hash t !! h = Some k → mk_hash k = h ∧ is_Some (missing t !! k);
  to_waiting : ∀ h, is_Some (dependents t !! h) ↔ is_Some (key_by_hash t !! h);
  to_count : Z.of_nat (size (missing t)) ≤ MAX_TRACKED_MISSING_PARENTS;
  to_family : ∀ h s, dependents t !! h = Some s → 1 ≤ Z.of_nat (size s) ≤ MAX_DEPENDENTS_PER_PARENT;
}.

#[export] Instance missing_key_le_total : Total missing_key_le.
Proof.
  intros a b. unfold missing_key_le. destruct (Z.lt_trichotomy (height_rank a) (height_rank b)) as [|[|]]; [by left; left| |by right; left].
  destruct (total bytes_le (mk_hash a) (mk_hash b)); [left|right]; right; split; done || lia.
Qed.
#[export] Instance missing_key_le_trans : Transitive missing_key_le.
Proof. intros a b c. unfold missing_key_le. intros [?|[? ?]] [?|[? ?]]; [left; lia..|]. right. split; [lia|]. by etrans. Qed.

(** The entries a call emits *)
Definition selection (t : MissingBlockTracker) (round : Z) (n : Z) (keys : list (MissingKey * RequestState)) : list (MissingKey * RequestState) :=
  take (Z.to_nat n) (filter (λ ks, eligible t round ks.2 = true) keys).

Lemma request_loop_spec t round keys m batch :
  NoDup keys.*1 →
  let sel := selection t round (max_batch t - zlen batch) keys in
  ∃ m', request_loop t round keys m batch = (m', batch ++ ((λ ks, mk_hash ks.1) <$> sel))
    ∧ (∀ k s, (k, s) ∈ sel → m' !! k = Some (requested round s)) ∧ (∀ k, k ∉ sel.*1 → m' !! k = m !! k).
Proof.
  revert m batch. induction keys as [|[k s] keys IH]; intros m batch Hnd; cbn [request_loop].
  { unfold selection. rewrite filter_nil, take_nil. exists m. rewrite app_nil_r. split_and!; [done|set_solver|done]. }
  cbn in Hnd. apply NoDup_cons in Hnd as [Hk Hnd]. destruct (Z.leb_spec (max_batch t) (zlen batch)).
  { unfold selection. replace (Z.to_nat (max_batch t - zlen batch)) with 0%nat by lia. rewrite take_0. exists m. rewrite app_nil_r.
    split_and!; [done|set_solver|done]. }
  unfold selection. rewrite filter_cons. cbn [snd]. destruct (eligible t round s) eqn:He; cbn [negb]; case_decide; try done.
  2: { apply IH; done. }
  destruct (IH (<[k := requested round s]> m) (batch ++ [mk_hash k]) Hnd) as (m' & -> & Hin & Hout). unfold selection in *.
  replace (Z.to_nat (max_batch t - zlen batch)) with (S (Z.to_nat (max_batch t - zlen (batch ++ [mk_hash k]))))
    by (rewrite zlen_app, zlen_cons, zlen_nil; lia). cbn [firstn].
  set (sel := take _ (filter _ keys)) in *.
  assert (Hks : k ∉ sel.*1).
  { intros ([k' s'] & -> & Hs)%list_elem_of_fmap. apply Hk, list_elem_of_fmap. exists (k', s'). split; [done|].
    apply elem_of_take in Hs as (i & Hs & _). apply list_elem_of_lookup_2, list_elem_of_filter in Hs. apply Hs. }
  exists m'. split; [cbn; by rewrite <- (assoc_L (++))|]. split.
  - intros k' s' [[= -> ->]|Hs]%elem_of_cons; [|by apply Hin]. rewrite Hout, lookup_insert_eq; done.
  - intros k' Hk'. cbn in Hk'. apply not_elem_of_cons in Hk' as [Hne Hk']. rewrite Hout, lookup_insert_ne; done.
Qed.

Lemma missing_in_order_perm t : missing_in_order t ≡ₚ map_to_list (missing t).
Proof. apply merge_sort_Permutation. Qed.
Lemma missing_in_order_elem t k s : (k, s) ∈ missing_in_order t ↔ missing t !! k = Some s.
Proof. by rewrite missing_in_order_perm, elem_of_map_to_list. Qed.
Lemma missing_in_order_NoDup t : NoDup (missing_in_order t).*1.
Proof. rewrite missing_in_order_perm. apply NoDup_fst_map_to_list. Qed.

Definition chosen (t : MissingBlockTracker) (round : Z) : list (MissingKey * RequestState) :=
  selection t round (max_batch t) (missing_in_order t).

Lemma chosen_elem t round k s : (k, s) ∈ chosen t round → missing t !! k = Some s ∧ eligible t round s = true.
Proof.
  intros (i & Hs & _)%elem_of_take. apply list_elem_of_lookup_2, list_elem_of_filter in Hs as [He Hs].
  by apply missing_in_order_elem in Hs.
Qed.

(** A call emits the first eligible parents in order, marks them, and forgets none. *)
Lemma next_request_batch_spec t round :
  ∃ m', next_request_batch round t = ((λ ks, mk_hash ks.1) <$> chosen t round, with_tracked t m' (key_by_hash t) (dependents t))
    ∧ (∀ k s, (k, s) ∈ chosen t round → m' !! k = Some (requested round s)) ∧ (∀ k, k ∉ (chosen t round).*1 → m' !! k = missing t !! k)
    ∧ ∀ k, is_Some (m' !! k) ↔ is_Some (missing t !! k).
Proof.
  unfold next_request_batch. destruct (request_loop_spec t round (missing_in_order t) (missing t) [] (missing_in_order_NoDup t)) as (m' & -> & Hin & Hout).
  rewrite zlen_nil, Z.sub_0_r in *. fold (chosen t round) in *. exists m'. split_and!; [done..|]. intros k.
  destruct (decide (k ∈ (chosen t round).*1)) as [Hk|Hk]; [|by rewrite Hout].
  apply list_elem_of_fmap in Hk as ([k' s] & -> & Hs). cbn [fst]. rewrite (Hin _ _ Hs). apply chosen_elem in Hs as [-> _]. split; intros _; by eexists.
Qed.

Lemma tracker_new_ok b c n : tracker_ok (tracker_new b c n).
Proof. split; cbn; try done; try lia; [intros k []%lookup_empty_is_Some|]. intros h. by rewrite !lookup_empty. Qed.
Lemma advance_round_ok t : tracker_ok t → tracker_ok (advance_round t).
Proof. by intros []. Qed.
Lemma next_request_batch_ok t round : tracker_ok t → tracker_ok (next_request_batch round t).2.
Proof.
  intros Ht. destruct (next_request_batch_spec t round) as (m' & -> & _ & _ & Hdom). split; cbn; try apply Ht.
  - intros k Hk. by apply (to_key t Ht), Hdom.
  - intros h k Hk. rewrite Hdom. by apply (to_hash t Ht).
  - assert (Hs : size m' = size (missing t)); [|rewrite Hs; apply Ht]. rewrite <- !(size_dom (D := gset MissingKey)). f_equal. apply set_eq. intros k. by rewrite !elem_of_dom.
Qed.

Lemma note_orphan_ok orphan parent ph t : tracker_ok t → tracker_ok (note_orphan orphan parent ph t).2.
Proof.
  intros Ht. unfold note_orphan. destruct (key_by_hash t !! parent) as [k|] eqn:Hk.
  - assert (Hd : is_Some (dependents t !! parent)) by (apply (to_waiting t Ht); by eexists). destruct Hd as [s Hs]. rewrite Hs. cbn.
    pose proof (to_family t Ht _ _ Hs). split; cbn; try apply Ht.
    + intros h. rewrite lookup_insert_is_Some'. rewrite (to_waiting t Ht h). split; [|by right]. intros [<-|]; [by eexists|done].
    + intros h s' [[<- <-]|[_ ?]]%lookup_insert_Some; [|by apply (to_family t Ht h)]. destruct (Z.ltb_spec (Z.of_nat (size s)) MAX_DEPENDENTS_PER_PARENT); [|done].
      pose proof (size_union_alt {[orphan]} s) as Hu. rewrite size_singleton in Hu. pose proof (subseteq_size (s ∖ {[orphan]}) s ltac:(set_solver)). lia.
  - destruct (Z.leb_spec MAX_TRACKED_MISSING_PARENTS (Z.of_nat (size (missing t)))); [done|]. cbn. set (key := missing_key_new parent ph).
    assert (Hnew : missing t !! key = None).
    { apply eq_None_not_Some. intros Hs. apply (to_key t Ht) in Hs. cbn in Hs. by rewrite Hk in Hs. }
    split; cbn; try apply Ht.
    + intros k [<- |Hs]%lookup_insert_is_Some'; [apply lookup_insert_eq|]. pose proof (to_key t Ht k Hs) as Hkk.
      rewrite lookup_insert_ne; [done|]. intros He. by rewrite <- He, Hk in Hkk.
    + intros h k [[<- <-]|[_ Hh]]%lookup_insert_Some; [split; [done|]; rewrite lookup_insert_eq; by eexists|].
      destruct (to_hash t Ht _ _ Hh). split; [done|]. rewrite lookup_insert_is_Some'. by right.
    + intros h. rewrite !lookup_insert_is_Some'. by rewrite (to_waiting t Ht h).
    + rewrite map_size_insert_None by done. lia.
    + intros h s [[_ <-]|[_ ?]]%lookup_insert_Some; [rewrite size_singleton; unfold MAX_DEPENDENTS_PER_PARENT; lia|by apply (to_family t Ht h)].
Qed.

Lemma resolve_ok hash t : tracker_ok t → tracker_ok (resolve hash t).2.
Proof.
  intros Ht. unfold resolve. cbn. set (m := match key_by_hash t !! hash with Some key => delete key (missing t) | None => missing t end).
  assert (Hm : ∀ k, is_Some (m !! k) ↔ is_Some (missing t !! k) ∧ mk_hash k ≠ hash).
  { intros k. unfold m. destruct (key_by_hash t !! hash) as [key|] eqn:Hk.
    - rewrite lookup_delete_is_Some. split.
      + intros [H1 H2]. split; [done|]. intros He. apply H1. pose proof (to_key t Ht _ H2) as Hkk. rewrite He, Hk in Hkk. by simplify_eq.
      + intros [H1 H2]. split; [|done]. intros <-. by apply H2, (to_hash t Ht).
    - split; [|by intros []]. intros Hs. split; [done|]. intros He. pose proof (to_key t Ht _ Hs) as Hkk. by rewrite He, Hk in Hkk. }
  split; cbn; try apply Ht.
  - intros k [Hs Hne]%Hm. rewrite lookup_delete_ne by done. by apply (to_key t Ht).
  - intros h k [Hne Hh]%lookup_delete_Some. destruct (to_hash t Ht _ _ Hh) as [<- ?]. split; [done|]. by apply Hm.
  - intros h. rewrite !lookup_delete_is_Some. by rewrite (to_waiting t Ht h).
  - assert (size m ≤ size (missing t))%nat; [|pose proof (to_count t Ht); lia]. unfold m. case_match; [|done]. by apply map_subseteq_size, delete_subseteq.
  - intros h s [_ ?]%lookup_delete_Some. by apply (to_family t Ht h).
Qed.

(** ** Requests over time *)

Definition tick (t : MissingBlockTracker) : list bytes * MissingBlockTracker :=
  let t := advance_round t in next_request_batch (mb_round t) t.
(** The batches of [n] ticks with nothing noted or resolved between them *)
Fixpoint ticks (n : nat) (t : MissingBlockTracker) : list (list bytes) :=
  match n with
  | O => []
  | S n' => let '(batch, t') := tick t in batch :: ticks n' t'
  end.
Definition ahead (t : MissingBlockTracker) (k : MissingKey) : list (MissingKey * RequestState) :=
  filter (λ ks, missing_key_le ks.1 k ∧ ks.1 ≠ k) (missing_in_order t).

(** No request is dated in the future. *)
Definition dated (t : MissingBlockTracker) : Prop :=
  0 ≤ mb_round t ≤ u64_max ∧ ∀ k s j, missing t !! k = Some s → last_requested_round s = Some j → 0 ≤ j ≤ mb_round t.

Lemma backoff_bounds base ceiling n : 1 ≤ ceiling → 1 ≤ backoff_interval base ceiling n ≤ ceiling.
Proof. unfold backoff_interval. lia. Qed.

#[export] Instance missing_key_le_anti : AntiSymm (=) missing_key_le.
Proof.
  intros [h1 k1] [h2 k2]. unfold missing_key_le. cbn. intros [?|[-> H1]] [?|[? H2]]; try lia. f_equal. by apply (anti_symm bytes_le).
Qed.

Lemma filter_all {A} (P : A → Prop) `{!∀ x, Decision (P x)} (l : list A) : (∀ x, x ∈ l → P x) → filter P l = l.
Proof. induction l as [|x l IH]; intros Hl; [done|]. rewrite filter_cons_True by (apply Hl; by left). f_equal. apply IH. intros y Hy. apply Hl. by right. Qed.
Lemma filter_none {A} (P : A → Prop) `{!∀ x, Decision (P x)} (l : list A) : (∀ x, x ∈ l → ¬ P x) → filter P l = [].
Proof. induction l as [|x l IH]; intros Hl; [done|]. rewrite filter_cons_False by (apply Hl; by left). apply IH. intros y Hy. apply Hl. by right. Qed.

(** The entries before [k] in the order of requests *)
Lemma in_order_split t k s :
  missing t !! k = Some s → ∃ l2, missing_in_order t = ahead t k ++ (k, s) :: l2.
Proof.
  intros Hk. apply missing_in_order_elem, list_elem_of_split in Hk as (l1 & l2 & Hl).
  pose proof (missing_in_order_NoDup t) as Hnd. assert (Hs : StronglySorted (λ a b, missing_key_le a.1 b.1) (missing_in_order t)).
  { assert (Htr : Transitive (λ a b : MissingKey * RequestState, missing_key_le a.1 b.1)) by (intros a b c; apply missing_key_le_trans).
    assert (Hto : Total (λ a b : MissingKey * RequestState, missing_key_le a.1 b.1)) by (intros a b; apply (total missing_key_le)).
    by apply (StronglySorted_merge_sort (λ a b : MissingKey * RequestState, missing_key_le a.1 b.1)). }
  exists l2. unfold ahead. rewrite Hl in *. f_equal. rewrite filter_app, filter_cons. cbn. case_decide as Hd; [by destruct Hd|].
  rewrite fmap_app, fmap_cons in Hnd. apply NoDup_app in Hnd as (_ & Hdis & Hnd). apply NoDup_cons in Hnd as [Hk2 _].
  apply StronglySorted_app in Hs as (Hs1 & _ & Hs2). apply StronglySorted_cons in Hs2 as [Hs2 _].
  replace (filter _ l2) with (@nil (MissingKey * RequestState)).
  - rewrite app_nil_r. symmetry. apply filter_all. intros x Hx. split.
    + apply (Hs1 x (k, s)); [done|by left].
    + intros He. apply (Hdis k); [apply list_elem_of_fmap; by exists x|by left].
  - symmetry. apply filter_none. intros x Hx [Hle Hne]. apply Hne. rewrite Forall_forall in Hs2. apply (anti_symm missing_key_le); [done|by apply Hs2].
Qed.

Lemma ahead_keys t k x : x ∈ (ahead t k).*1 ↔ is_Some (missing t !! x) ∧ missing_key_le x k ∧ x ≠ k.
Proof.
  unfold ahead. rewrite list_elem_of_fmap. split.
  - intros ([x' s] & -> & [Hx Hs]%list_elem_of_filter). apply missing_in_order_elem in Hs. cbn in *. split; [by eexists|done].
  - intros [[s Hs] Hx]. exists (x, s). split; [done|]. apply list_elem_of_filter. split; [done|by apply missing_in_order_elem].
Qed.
Lemma ahead_NoDup t k : NoDup (ahead t k).*1.
Proof.
  pose proof (missing_in_order_NoDup t) as H. unfold ahead. induction (missing_in_order t) as [|[x s] l IH]; [by apply NoDup_nil_2|].
  cbn in H. apply NoDup_cons in H as [Hx Hl]. rewrite filter_cons. case_decide; [|by apply IH]. cbn. apply NoDup_cons. split; [|by apply IH].
  intros (y & -> & [_ Hy]%list_elem_of_filter)%list_elem_of_fmap. apply Hx, list_elem_of_fmap. by exists y.
Qed.
Lemma ahead_length t t' k : (∀ x, is_Some (missing t' !! x) ↔ is_Some (missing t !! x)) → length (ahead t' k) = length (ahead t k).
Proof.
  intros Hd. rewrite <- (length_fmap fst (ahead t' k)), <- (length_fmap fst (ahead t k)). apply Permutation_length, NoDup_Permutation; try apply ahead_NoDup.
  intros x. rewrite !ahead_keys. by rewrite Hd.
Qed.

(** One tick, on a clock that does not saturate *)
Lemma tick_spec t :
  0 ≤ mb_round t < u64_max →
  let sel := selection t (mb_round t + 1) (max_batch t) (missing_in_order t) in
  ∃ t', tick t = ((λ ks, mk_hash ks.1) <$> sel, t')
    ∧ mb_round t' = mb_round t + 1 ∧ max_batch t' = max_batch t ∧ base_backoff_rounds t' = base_backoff_rounds t
    ∧ max_backoff_rounds t' = max_backoff_rounds t ∧ key_by_hash t' = key_by_hash t
    ∧ (∀ k s, (k, s) ∈ sel → missing t !! k = Some s ∧ missing t' !! k = Some (requested (mb_round t + 1) s))
    ∧ (∀ k, k ∉ sel.*1 → missing t' !! k = missing t !! k) ∧ (∀ k, is_Some (missing t' !! k) ↔ is_Some (missing t !! k)).
Proof.
  intros Hr sel. unfold tick. assert (Hround : mb_round (advance_round t) = mb_round t + 1) by (cbn; unfold saturating_add, u64_max in *; lia).
  rewrite Hround. destruct (next_request_batch_spec (advance_round t) (mb_round t + 1)) as (m' & -> & Hin & Hout & Hdom).
  change (chosen (advance_round t) (mb_round t + 1)) with sel in *. eexists. split; [done|]. cbn [with_tracked mb_round max_batch base_backoff_rounds
    max_backoff_rounds key_by_hash missing]. rewrite Hround. split_and!; try done. intros k s Hs. split; [|by apply Hin].
  by apply (chosen_elem (advance_round t) (mb_round t + 1)) in Hs as [? _].
Qed.

Lemma tick_ok t : tracker_ok t → tracker_ok (tick t).2.
Proof. intros Ht. by apply next_request_batch_ok, advance_round_ok. Qed.

Lemma tick_dated t : dated t → mb_round t < u64_max → dated (tick t).2.
Proof.
  intros [H0 Hd] Hr. destruct (tick_spec t) as (t' & -> & Hround & _ & _ & _ & _ & Hin & Hout & _); [lia|]. cbn. split; [lia|].
  intros k s j Hs Hj. rewrite Hround. destruct (decide (k ∈ (selection t (mb_round t + 1) (max_batch t) (missing_in_order t)).*1)) as [Hk|Hk].
  - apply list_elem_of_fmap in Hk as ([k' s'] & -> & Hk). cbn [fst] in *. destruct (Hin _ _ Hk) as [_ Hn]. rewrite Hn in Hs. injection Hs as <-. injection Hj as <-. lia.
  - rewrite (Hout k Hk) in Hs. specialize (Hd _ _ _ Hs Hj). lia.
Qed.

Lemma selected_hash t round k s : tracker_ok t → missing t !! k = Some s →
  mk_hash k ∈ (λ ks, mk_hash ks.1) <$> selection t round (max_batch t) (missing_in_order t) ↔
  k ∈ (selection t round (max_batch t) (missing_in_order t)).*1.
Proof.
  intros Ht Hk. rewrite !list_elem_of_fmap. split; [|naive_solver]. intros ([k' s'] & He & Hs). exists (k', s'). split; [|done].
  destruct (chosen_elem t round _ _ Hs) as [Hk' _]. pose proof (to_key t Ht k ltac:(by eexists)) as H1. pose proof (to_key t Ht k' ltac:(by eexists)) as H2.
  cbn in *. rewrite He, H2 in H1. by simplify_eq.
Qed.

(** An eligible parent with fewer than [max_batch] parents before it is in the batch. *)
Lemma selected_if_eligible t round k s :
  missing t !! k = Some s → eligible t round s = true → zlen (ahead t k) < max_batch t →
  k ∈ (selection t round (max_batch t) (missing_in_order t)).*1.
Proof.
  intros Hk He Ha. destruct (in_order_split t k s Hk) as [l2 Hl]. apply list_elem_of_fmap. exists (k, s). split; [done|]. unfold selection.
  rewrite Hl, filter_app, filter_cons_True by done. apply elem_of_take.
  exists (length (filter (λ ks, eligible t round ks.2 = true) (ahead t k))). split; [by rewrite lookup_app_r, Nat.sub_diag by lia|].
  pose proof (length_filter (λ ks : MissingKey * RequestState, eligible t round ks.2 = true) (ahead t k)). unfold zlen in Ha. lia.
Qed.

Lemma requested_by n t k s :
  tracker_ok t → dated t → missing t !! k = Some s → zlen (ahead t k) < max_batch t → mb_round t + Z.of_nat n ≤ u64_max →
  eligible t (mb_round t + Z.of_nat n) s = true → (1 ≤ n)%nat → Exists (λ batch, mk_hash k ∈ batch) (ticks n t).
Proof.
  revert t. induction n as [|n IH]; intros t Ht Hd Hk Ha Hr He Hn; [lia|]. cbn [ticks]. pose proof Hd as [H0 _].
  destruct (tick_spec t) as (t' & Htick & Hround & Hmb & Hbase & Hceil & _ & _ & Hout & Hdom); [lia|].
  pose proof (tick_ok t Ht) as Ht'. pose proof (tick_dated t Hd ltac:(lia)) as Hd'. rewrite Htick in *. cbn [snd] in *.
  destruct (decide (k ∈ (selection t (mb_round t + 1) (max_batch t) (missing_in_order t)).*1)) as [Hin|Hin].
  - left. by apply (selected_hash t _ k s).
  - right. destruct n as [|n].
    + exfalso. apply Hin. apply (selected_if_eligible t _ k s); done.
    + apply (IH t'); try done; [by rewrite Hout|by unfold zlen; rewrite (ahead_length t t' k), Hmb|lia| |lia].
      unfold eligible in *. rewrite Hround, Hbase, Hceil. replace (mb_round t + 1 + Z.of_nat (S n)) with (mb_round t + Z.of_nat (S (S n))) by lia. done.
Qed.

(** ** Crowding *)

Definition requested_at (t : MissingBlockTracker) (j : Z) : list (MissingKey * RequestState) :=
  filter (λ ks, last_requested_round ks.2 = Some j) (missing_in_order t).
(** After round [r0] at most one batch was asked for in each round. *)
Definition paced (r0 : Z) (t : MissingBlockTracker) : Prop := ∀ j, r0 < j → zlen (requested_at t j) ≤ max_batch t.

Lemma requested_at_keys t j k : k ∈ (requested_at t j).*1 ↔ ∃ s, missing t !! k = Some s ∧ last_requested_round s = Some j.
Proof.
  unfold requested_at. rewrite list_elem_of_fmap. split.
  - intros ([k' s] & -> & [Hj Hs]%list_elem_of_filter). apply missing_in_order_elem in Hs. by exists s.
  - intros (s & Hs & Hj). exists (k, s). split; [done|]. apply list_elem_of_filter. split; [done|by apply missing_in_order_elem].
Qed.
Lemma NoDup_fst_filter {A B} (P : A * B → Prop) `{!∀ x, Decision (P x)} (l : list (A * B)) : NoDup l.*1 → NoDup (filter P l).*1.
Proof.
  induction l as [|[a b] l IH]; intros Hl; [done|]. cbn in Hl. apply NoDup_cons in Hl as [Ha Hl]. rewrite filter_cons. case_decide; [|by apply IH].
  cbn. apply NoDup_cons. split; [|by apply IH]. intros (y & -> & [_ Hy]%list_elem_of_filter)%list_elem_of_fmap. apply Ha, list_elem_of_fmap. by exists y.
Qed.
Lemma keys_le {A B} (l l' : list (A * B)) : NoDup l.*1 → (∀ a, a ∈ l.*1 → a ∈ l'.*1) → zlen l ≤ zlen l'.
Proof.
  intros Hnd Hin. unfold zlen. rewrite <- (length_fmap fst l), <- (length_fmap fst l'). apply inj_le, submseteq_length, NoDup_submseteq; done.
Qed.

Lemma paced_start t : dated t → 1 ≤ max_batch t → paced (mb_round t) t.
Proof.
  intros [_ Hd] Hb j Hj. assert (requested_at t j = []) as ->; [|rewrite zlen_nil; lia]. apply filter_none. intros [k s] Hs%missing_in_order_elem He.
  specialize (Hd _ _ _ Hs He). lia.
Qed.
Lemma tick_paced r0 t : dated t → mb_round t < u64_max → 1 ≤ max_batch t → paced r0 t → paced r0 (tick t).2.
Proof.
  intros [H0 Hd] Hr Hb Hp j Hj. destruct (tick_spec t) as (t' & -> & _ & Hmb & _ & _ & _ & Hin & Hout & _); [lia|]. cbn [snd]. rewrite Hmb.
  set (sel := selection _ _ _ _) in *. assert (Hnd : NoDup (requested_at t' j).*1) by apply NoDup_fst_filter, missing_in_order_NoDup.
  assert (Hsel : zlen sel ≤ max_batch t) by (unfold zlen, sel, selection; rewrite length_take; lia).
  destruct (decide (j = mb_round t + 1)) as [-> |Hne].
  - etrans; [|exact Hsel]. apply keys_le; [done|]. intros k (s & Hs & Hl)%requested_at_keys. destruct (decide (k ∈ sel.*1)) as [|Hk]; [done|].
    rewrite (Hout k Hk) in Hs. specialize (Hd _ _ _ Hs Hl). lia.
  - etrans; [|apply (Hp j Hj)]. apply keys_le; [done|]. intros k (s & Hs & Hl)%requested_at_keys. apply requested_at_keys.
    destruct (decide (k ∈ sel.*1)) as [Hk|Hk]; [|rewrite <- (Hout k Hk); by exists s].
    apply list_elem_of_fmap in Hk as ([k' s'] & -> & Hk). cbn [fst] in *. destruct (Hin _ _ Hk) as [_ Hn]. rewrite Hn in Hs. injection Hs as <-. by injection Hl as <-.
Qed.

Lemma filter_filter_zlen {A} (P Q : A → Prop) `{!∀ x, Decision (P x)} `{!∀ x, Decision (Q x)} (l : list A) :
  zlen (filter P (filter Q l)) ≤ zlen (filter P l).
Proof. induction l as [|x l IH]; [done|]. rewrite !filter_cons. repeat (case_decide || rewrite filter_cons); rewrite ?zlen_cons; done || lia. Qed.
Lemma window_length (l : list (MissingKey * RequestState)) a b w :
  (∀ j, a ≤ j < a + Z.of_nat w → zlen (filter (λ ks, last_requested_round ks.2 = Some j) l) ≤ b) →
  (∀ ks, ks ∈ l → ∃ j, last_requested_round ks.2 = Some j ∧ a ≤ j < a + Z.of_nat w) → zlen l ≤ Z.of_nat w * b.
Proof.
  revert l. induction w as [|w IH]; intros l Hj Hl.
  - destruct l as [|x l]; [done|]. destruct (Hl x ltac:(by left)) as (j & _ & ?). lia.
  - set (P := λ ks : MissingKey * RequestState, last_requested_round ks.2 = Some (a + Z.of_nat w)).
    assert (Hsplit : zlen l = zlen (filter P l) + zlen (filter (λ ks, ¬ P ks) l)).
    { clear. induction l as [|x l IH]; [done|]. rewrite !filter_cons. repeat case_decide; rewrite ?zlen_cons; done || lia. }
    assert (zlen (filter P l) ≤ b) by (apply Hj; lia).
    assert (zlen (filter (λ ks, ¬ P ks) l) ≤ Z.of_nat w * b); [|lia]. apply IH.
    + intros j Hr. etrans; [|apply (Hj j); lia]. apply filter_filter_zlen.
    + intros ks [Hn Hks]%list_elem_of_filter. destruct (Hl ks Hks) as (j & He & ?). exists j. split; [done|]. assert (j ≠ a + Z.of_nat w) by (intros ->; done). lia.
Qed.

(** With [max_batch * max_backoff_rounds] parents before it, a parent is not in the batch. *)
Lemma not_selected_if_crowded r0 t k s :
  tracker_ok t → dated t → paced r0 t → missing t !! k = Some s → r0 + max_backoff_rounds t ≤ mb_round t + 1 →
  max_batch t * max_backoff_rounds t ≤ zlen (ahead t k) →
  k ∉ (selection t (mb_round t + 1) (max_batch t) (missing_in_order t)).*1.
Proof.
  intros Ht [H0 Hd] Hp Hk Hr Ha. destruct (to_limits t Ht) as (_ & Hc & Hb). destruct (in_order_split t k s Hk) as [l2 Hl].
  set (E := λ ks : MissingKey * RequestState, eligible t (mb_round t + 1) ks.2 = true).
  assert (Hin : ∀ x, x ∈ ahead t k → missing t !! x.1 = Some x.2) by (intros [x sx] [_ Hx]%list_elem_of_filter; by apply missing_in_order_elem).
  assert (Hsplit : zlen (ahead t k) = zlen (filter E (ahead t k)) + zlen (filter (λ ks, ¬ E ks) (ahead t k))).
  { clear. induction (ahead t k) as [|x l IH]; [done|]. rewrite !filter_cons. repeat case_decide; rewrite ?zlen_cons; done || lia. }
  assert (Hne : zlen (filter (λ ks, ¬ E ks) (ahead t k)) ≤ Z.of_nat (Z.to_nat (max_backoff_rounds t - 1)) * max_batch t).
  { apply (window_length _ (mb_round t + 2 - max_backoff_rounds t)).
    - intros j Hj. etrans; [apply filter_filter_zlen|]. unfold ahead. etrans; [apply filter_filter_zlen|]. apply Hp. lia.
    - intros [x sx] [Hnx Hx]%list_elem_of_filter. apply Hin in Hx. unfold E, eligible in Hnx. cbn in *.
      destruct (last_requested_round sx) as [j|] eqn:Hj; [|done]. exists j. split; [done|]. specialize (Hd _ _ _ Hx Hj).
      pose proof (backoff_bounds (base_backoff_rounds t) (max_backoff_rounds t) (attempts sx) Hc). apply not_true_is_false in Hnx.
      unfold saturating_sub in Hnx. apply Z.leb_gt in Hnx. lia. }
  assert (Hfull : max_batch t ≤ zlen (filter E (ahead t k))) by nia.
  intros (x & -> & Hx)%list_elem_of_fmap. unfold selection in Hx. rewrite Hl, filter_app, take_app_le in Hx by (unfold zlen, E in *; lia).
  apply elem_of_take in Hx as (i & Hx & _). apply list_elem_of_lookup_2, list_elem_of_filter in Hx as [_ Hx].
  assert (Hx1 : x.1 ∈ (ahead t x.1).*1) by (apply list_elem_of_fmap; by exists x). apply ahead_keys in Hx1. naive_solver.
Qed.

Lemma crowded_ticks r0 n t k s :
  tracker_ok t → dated t → paced r0 t → missing t !! k = Some s → r0 + max_backoff_rounds t ≤ mb_round t + 1 →
  max_batch t * max_backoff_rounds t ≤ zlen (ahead t k) → mb_round t + Z.of_nat n ≤ u64_max →
  Forall (λ batch, mk_hash k ∉ batch) (ticks n t).
Proof.
  revert t. induction n as [|n IH]; intros t Ht Hd Hp Hk Hr Ha Hn; [constructor|]. cbn [ticks]. pose proof Hd as [H0 _]. pose proof (to_limits t Ht).
  pose proof (not_selected_if_crowded r0 t k s Ht Hd Hp Hk Hr Ha) as Hns.
  destruct (tick_spec t) as (t' & Htick & Hround & Hmb & Hbase & Hceil & _ & _ & Hout & Hdom); [lia|].
  pose proof (tick_ok t Ht) as Ht'. pose proof (tick_dated t Hd ltac:(lia)) as Hd'. pose proof (tick_paced r0 t Hd ltac:(lia) ltac:(lia) Hp) as Hp'.
  rewrite Htick in *. cbn [snd] in *. constructor; [by rewrite (selected_hash t _ k s)|].
  apply (IH t'); try done; [by rewrite Hout|lia| |lia]. rewrite Hmb, Hceil. unfold zlen in *. by rewrite (ahead_length t t' k).
Qed.

Lemma ticks_length n t : length (ticks n t) = n.
Proof. revert t. induction n as [|n IH]; intros t; [done|]. cbn. destruct (tick t). cbn. by rewrite IH. Qed.
Lemma ticks_add n m t : ticks (n + m) t = ticks n t ++ ticks m (Nat.iter n (λ t, (tick t).2) t).
Proof.
  revert t. induction n as [|n IH]; intros t; [done|]. rewrite Nat.iter_succ_r. cbn [ticks Nat.add]. destruct (tick t) as [b t'] eqn:Ht. cbn [app]. f_equal.
  by rewrite IH.
Qed.

(** ** Trackers the node can reach *)

Inductive tracked : MissingBlockTracker → Prop :=
| tracked_new b c n : tracked (tracker_new b c n)
| tracked_note t orphan parent ph : tracked t → tracked (note_orphan orphan parent ph t).2
| tracked_advance t : tracked t → tracked (advance_round t)
| tracked_request t : tracked t → tracked (next_request_batch (mb_round t) t).2
| tracked_resolve t hash : tracked t → tracked (resolve hash t).2.

Lemma note_orphan_dated orphan parent ph t : dated t → dated (note_orphan orphan parent ph t).2.
Proof.
  intros [H0 Hd]. unfold note_orphan. destruct (key_by_hash t !! parent); [done|]. destruct (_ <=? _); [done|]. split; [done|]. cbn.
  intros k s j [[_ <-]|[_ Hs]]%lookup_insert_Some Hj; [done|by eapply Hd].
Qed.
Lemma next_request_batch_dated t : dated t → dated (next_request_batch (mb_round t) t).2.
Proof.
  intros [H0 Hd]. destruct (next_request_batch_spec t (mb_round t)) as (m' & -> & Hin & Hout & _). split; [done|]. cbn. intros k s j Hs Hj.
  destruct (decide (k ∈ (chosen t (mb_round t)).*1)) as [Hk|Hk]; [|rewrite (Hout k Hk) in Hs; by eapply Hd].
  apply list_elem_of_fmap in Hk as ([k' s'] & -> & Hk). cbn [fst] in *. rewrite (Hin _ _ Hk) in Hs. injection Hs as <-. injection Hj as <-. lia.
Qed.
Lemma tracked_ok t : tracked t → tracker_ok t ∧ dated t.
Proof.
  induction 1 as [b c n|t orphan parent ph _ [IH1 IH2]|t _ [IH1 IH2]|t _ [IH1 IH2]|t hash _ [IH1 IH2]].
  - split; [apply tracker_new_ok|]. split; [done|]. intros k s j Hs. cbn in Hs. by rewrite lookup_empty in Hs.
  - split; [by apply note_orphan_ok|by apply note_orphan_dated].
  - split; [by apply advance_round_ok|]. destruct IH2 as [H0 Hd]. unfold dated, advance_round, saturating_add, u64_max in *. cbn.
    split; [lia|]. intros k s j Hs Hj. specialize (Hd _ _ _ Hs Hj). lia.
  - split; [by apply next_request_batch_ok|by apply next_request_batch_dated].
  - split; [by apply resolve_ok|]. destruct IH2 as [H0 Hd]. split; [done|]. cbn. intros k s j Hs. apply (Hd k).
    destruct (key_by_hash t !! hash); [by apply lookup_delete_Some in Hs as [_ ?]|done].
Qed.

(** [n] ticks leave the parents tracked and the limits as they are. *)
Lemma quiet_ticks n t k r0 :
  tracker_ok t → dated t → paced r0 t → is_Some (missing t !! k) → mb_round t + Z.of_nat n ≤ u64_max →
  let t' := Nat.iter n (λ t, (tick t).2) t in
  tracker_ok t' ∧ dated t' ∧ paced r0 t' ∧ is_Some (missing t' !! k) ∧ mb_round t' = mb_round t + Z.of_nat n
  ∧ max_batch t' = max_batch t ∧ max_backoff_rounds t' = max_backoff_rounds t ∧ zlen (ahead t' k) = zlen (ahead t k).
Proof.
  intros Ht Hd Hp Hk. induction n as [|n IH]; intros Hn; [cbn; split_and!; done || lia|]. rewrite Nat.iter_succ.
  destruct (IH ltac:(lia)) as (Ht1 & Hd1 & Hp1 & Hk1 & Hr1 & Hmb1 & Hc1 & Ha1). set (t1 := Nat.iter n _ t) in *. pose proof (to_limits t1 Ht1).
  pose proof Hd1 as [H0 _]. destruct (tick_spec t1) as (t2 & Htick & Hround & Hmb & _ & Hceil & _ & _ & _ & Hdom); [lia|].
  pose proof (tick_ok t1 Ht1) as Ht2. pose proof (tick_dated t1 Hd1 ltac:(lia)) as Hd2. pose proof (tick_paced r0 t1 Hd1 ltac:(lia) ltac:(lia) Hp1) as Hp2.
  rewrite Htick in *. cbn [snd] in *. split_and!; try done; [by apply Hdom|lia|by rewrite Hmb|by rewrite Hceil|].
  unfold zlen in *. by rewrite (ahead_length t1 t2 k).
Qed.

(** C28: The pool of orphans, after any insertion and any removal of the children of a parent: its
    hash index, its parent index, its order of arrival and its byte count agree and stay within the
    limits; a block that is kept_outcome drops only the oldest ones, a block that is refused changes
    nothing, and a parent gets back exactly the blocks that wait for it, each once, in order. *)
Theorem orphan_pool_exact p :
  orphans_ok p →
  (∀ o outcome p', orphans_insert o p = (outcome, p') →
    orphans_ok p' ∧ (kept_outcome outcome = false → p' = p)
    ∧ (kept_outcome outcome = true →
        by_hash p' !! ob_block_hash o = Some o ∧ by_hash p !! ob_block_hash o = None ∧ delete (ob_block_hash o) (by_hash p') ⊆ by_hash p
        ∧ ∃ k, insertion_order p' = drop k (insertion_order p) ++ [ob_block_hash o])
    ∧ (outcome = Inserted → by_hash p' = <[ob_block_hash o := o]> (by_hash p)))
  ∧ (∀ q cs p', take_children q p = (cs, p') →
    orphans_ok p' ∧ StronglySorted orphan_le cs ∧ NoDup (ob_block_hash <$> cs)
    ∧ (∀ o, o ∈ cs ↔ by_hash p !! ob_block_hash o = Some o ∧ ob_parent_hash o = q)
    ∧ (∀ h o, by_hash p' !! h = Some o ↔ by_hash p !! h = Some o ∧ ob_parent_hash o ≠ q)).
Proof.
  intros Hp. split; [intros o outcome p' H; by apply orphans_insert_spec|]. intros q cs p' H. by destruct (take_children_spec p q cs p' Hp H) as (? & ? & ? & ? & ? & _).
Qed.

(** A parent that is tracked as missing, with fewer than a batch of parents before it, is asked
    for within [max_backoff_rounds] ticks, however often it was asked for before. *)
Lemma missing_parent_requested t k s :
  tracked t → missing t !! k = Some s → zlen (ahead t k) < max_batch t → mb_round t + max_backoff_rounds t ≤ u64_max →
  Exists (λ batch, mk_hash k ∈ batch) (ticks (Z.to_nat (max_backoff_rounds t)) t).
Proof.
  intros [Ht Hd]%tracked_ok Hk Ha Hr. destruct (to_limits t Ht) as (_ & Hc & _). eapply requested_by; try done; [lia| |lia].
  unfold eligible. destruct (last_requested_round s) as [j|] eqn:Hj; [|done]. apply Z.leb_le. pose proof (proj2 Hd _ _ _ Hk Hj).
  pose proof (backoff_bounds (base_backoff_rounds t) (max_backoff_rounds t) (attempts s) Hc). unfold saturating_sub. lia.
Qed.

(** Behind [max_batch * max_backoff_rounds] tracked parents a missing parent gets no place in a batch. *)
Lemma crowded_parent_starves t k n :
  tracked t → is_Some (missing t !! k) → max_batch t * max_backoff_rounds t ≤ zlen (ahead t k) →
  mb_round t + max_backoff_rounds t + Z.of_nat n ≤ u64_max →
  Forall (λ batch, mk_hash k ∉ batch) (drop (Z.to_nat (max_backoff_rounds t)) (ticks (Z.to_nat (max_backoff_rounds t) + n) t)).
Proof.
  intros [Ht Hd]%tracked_ok Hk Ha Hr. destruct (to_limits t Ht) as (_ & Hc & Hb). set (c := Z.to_nat (max_backoff_rounds t)) in *.
  destruct (quiet_ticks c t k (mb_round t) Ht Hd (paced_start t Hd Hb) Hk ltac:(lia)) as (Ht1 & Hd1 & Hp1 & [s Hk1] & Hr1 & Hmb1 & Hc1 & Ha1).
  rewrite ticks_add, drop_app_length' by (by rewrite ticks_length). eapply (crowded_ticks (mb_round t)); try done; lia.
Qed.

(** C29: When a missing parent is asked for again.  With fewer than [max_batch] tracked parents before it,
    it is in one of any [max_backoff_rounds] consecutive batches, however often it was asked for before.
    With [max_batch * max_backoff_rounds] parents before it, it is in no batch after the first
    [max_backoff_rounds], however many follow.  (In the node these are 16 hashes and 64 rounds, and up
    to 4096 parents are tracked.) *)
Theorem missing_parent_schedule t k :
  tracked t → is_Some (missing t !! k) →
  (zlen (ahead t k) < max_batch t → mb_round t + max_backoff_rounds t ≤ u64_max →
    Exists (λ batch, mk_hash k ∈ batch) (ticks (Z.to_nat (max_backoff_rounds t)) t))
  ∧ (∀ n, max_batch t * max_backoff_rounds t ≤ zlen (ahead t k) → mb_round t + max_backoff_rounds t + Z.of_nat n ≤ u64_max →
    Forall (λ batch, mk_hash k ∉ batch) (drop (Z.to_nat (max_backoff_rounds t)) (ticks (Z.to_nat (max_backoff_rounds t) + n) t))).
Proof.
  intros Ht Hk. split; [|intros n; by apply crowded_parent_starves]. destruct Hk as [s Hs]. by eapply missing_parent_requested.
Qed.

(** ** Examples *)

Definition orphan (h q : Z) (b : bytes) : OrphanBlock := {| ob_block_hash := [h]; ob_parent_hash := [q]; ob_height := h; ob_block_bytes := b |}.

(** A full pool of two blocks *)
Definition sample_orphans : RuntimeOrphanPool :=
  (orphans_insert (orphan 3 1 [7; 7]) (orphans_insert (orphan 2 1 [7]) (orphans_new_with_byte_limit 2 2 4)).2).2.

Lemma orphans_new_ok a b c : orphans_ok (orphans_new_with_byte_limit a b c).
Proof.
  split; [split|unfold orphans_len|]; unfold children_of; cbn; try lia.
  - intros h o H. by rewrite lookup_empty in H.
  - intros h. rewrite lookup_empty. split; [by intros ?%not_elem_of_nil|by intros []].
  - apply NoDup_nil_2.
  - intros q h. rewrite !lookup_empty. cbn. split; [set_solver|]. by intros (o & ? & _).
  - intros q s H. by rewrite lookup_empty in H.
  - done.
  - intros q. rewrite lookup_empty. cbn. rewrite size_empty. lia.
  - rewrite map_size_empty. lia.
Qed.
Lemma sample_orphans_ok : orphans_ok sample_orphans.
Proof.
  unfold sample_orphans. destruct (orphans_insert (orphan 2 1 [7]) _) as [o1 p1] eqn:H1. apply orphans_insert_spec in H1 as [H1 _]; [|apply orphans_new_ok].
  destruct (orphans_insert (orphan 3 1 [7; 7]) _) as [o2 p2] eqn:H2. by apply orphans_insert_spec in H2 as [H2 _].
Qed.
Lemma orphan_pool_exact_witness :
  (∃ p', orphans_insert (orphan 4 2 [1; 2; 3]) sample_orphans = (EvictedOldest, p') ∧ orphans_ok p' ∧ by_hash p' !! [4] = Some (orphan 4 2 [1; 2; 3]))
  ∧ ∃ p', take_children [1] sample_orphans = ([orphan 2 1 [7]; orphan 3 1 [7; 7]], p') ∧ orphans_ok p'.
Proof.
  destruct (orphan_pool_exact sample_orphans sample_orphans_ok) as [Hi Ht]. split.
  - eexists. split; [vm_compute; reflexivity|]. destruct (Hi (orphan 4 2 [1; 2; 3]) EvictedOldest _ eq_refl) as (Hok & _ & Hs & _).
    split; [exact Hok|exact (proj1 (Hs eq_refl))].
  - eexists. split; [vm_compute; reflexivity|]. exact (proj1 (Ht [1] _ _ eq_refl)).
Defined.

(** Three parents of ascending height, one hash per batch and a backoff of one round *)
Definition sample_tracker : MissingBlockTracker :=
  (note_orphan [103] [3] (Some 3) (note_orphan [102] [2] (Some 2) (note_orphan [101] [1] (Some 1) (tracker_new 1 1 1)).2).2).2.
Lemma sample_tracked : tracked sample_tracker.
Proof. repeat apply tracked_note. apply tracked_new. Qed.

Lemma missing_parent_schedule_witness :
  Exists (λ batch, [1] ∈ batch) (ticks 1 sample_tracker) ∧ Forall (λ batch, [3] ∉ batch) (drop 1 (ticks (1 + 1000) sample_tracker)).
Proof.
  split.
  - destruct (missing_parent_schedule sample_tracker (missing_key_new [1] (Some 1)) sample_tracked) as [H _]; [eexists; vm_compute; reflexivity|].
    apply H; [vm_compute; reflexivity|vm_compute; discriminate].
  - destruct (missing_parent_schedule sample_tracker (missing_key_new [3] (Some 3)) sample_tracked) as [_ H]; [eexists; vm_compute; reflexivity|].
    apply (H 1000%nat); vm_compute; discriminate.
Defined.
