(* ===== verification/Replay.v ===== *)
(** * Orphan replay

    [dom-node/src/node.rs]: what the node does when a block arrives whose children it holds.
    [reprocess_orphan_children] connects them and their descendants, and after each connected block
    [reconcile_mempool_after_connect] brings the mempool in line with the chain.  The state holds
    the components the node keeps behind locks; metrics and log lines are left out. *)

From Stdlib Require Import ZArith Lia.
From stdpp Require Import base list strings gmap.
From S2P Require Import Prelude ByteOrder CoreError Core Serialization CryptoHash Wire Pow Curve.
From S2P Require Import Keys Pedersen Schnorr RangeProof RangeProve Transaction BlockHeader Consensus.
From S2P Require Import Genesis Utxo Store StateM Reorg ChainUtxo ChainState ChainConnect Mempool OrphanPool.
Local Open Scope string_scope.
Local Open Scope list_scope.
Local Open Scope Z_scope.

Definition MEMPOOL_METADATA_KEY : bytes := str_bytes "dom/mempool_state/v1".

Inductive RelayBlockAction : Type := RelayBestChain | Suppress | PenalizePeer | Drop.

Definition relay_block_action (result : Result ConnectResult) : RelayBlockAction :=
  match result with
  | Ok BestChain | Ok (Reorg _) => RelayBestChain
  | Ok SideChain | Ok AlreadyHave | Err (TemporarilyInvalid _) | Err (Orphan _) => Suppress
  | Err (Invalid _) | Err (Malformed _) | Err (Misbehavior _ _) => PenalizePeer
  | _ => Drop
  end.

Definition collect_spent_commitments (transactions : list Transaction) : list bytes := transactions ≫= tx_inputs.

Record TxChainView : Type := {
  cv_current_height : Z; cv_chain_id : bytes; cv_coinbase_maturity : Z; cv_utxos : gmap bytes (option UtxoEntry);
}.
Record ReinjectableTx : Type := { rj_tx : Transaction; rj_tx_hash : bytes; rj_now_secs : Z; rj_chain_view : TxChainView }.

Section replay.
Context `{HB : Blake2b256} `{HM : HmacSha256} `{HC : Secp256k1} `{HZ : !ZkpBackend}.
Context `{HR : RandomXHash} `{HP : ZkpProver} `{HL : Lmdb} (env : option string).

Definition node_tx_hash (tx : Transaction) : Result bytes :=
  let? tx_bytes := to_bytes tx in Ok (hash_bytes (blake2b_256 tx_bytes)).

(** [or_insert] reads the store before it looks whether the entry exists. *)
Definition view_input (c : ChainState) (utxos : gmap bytes (option UtxoEntry)) (i : TransactionInput) : Result (gmap bytes (option UtxoEntry)) :=
  let? r := get_utxo (store c) (input_key i) in
  match utxos !! input_key i with Some _ => Ok utxos | None => Ok (<[input_key i := r]> utxos) end.
Definition snapshot_tx_chain_view (c : ChainState) (tx : Transaction) : Result TxChainView :=
  let? utxos := try_fold (view_input c) ∅ (inputs tx) in
  Ok {| cv_current_height := height_val (tip_height c);
        cv_chain_id := hash_bytes (derive_chain_id (network_magic c) (genesis_hash c));
        cv_coinbase_maturity := coinbase_maturity c; cv_utxos := utxos |}.

Definition is_coinbase_or_system (tx : Transaction) : bool :=
  existsb (λ k, negb (Z.land (features k) KERNEL_FEAT_COINBASE =? 0)) (kernels tx).
Definition input_is_live (c : ChainState) (i : TransactionInput) : bool :=
  match get_utxo (store c) (input_key i) with
  | Ok (Some entry) => negb (is_coinbase entry) || is_mature_for entry (height_val (tip_height c)) (coinbase_maturity c)
  | _ => false
  end.
Definition output_is_fresh (c : ChainState) (o : TransactionOutput) : bool :=
  match get_utxo (store c) (output_key o) with Ok None => true | _ => false end.
Definition kernel_is_fresh (c : ChainState) (k : TransactionKernel) : bool :=
  match get_kernel_block (store c) (commit_bytes (excess k)) with Ok None => true | _ => false end.
Definition reinjectable (c : ChainState) (tx : Transaction) : bool :=
  negb (is_coinbase_or_system tx) && forallb (input_is_live c) (inputs tx) && forallb (output_is_fresh c) (outputs tx)
  && forallb (kernel_is_fresh c) (kernels tx).

Definition reinjectable_entry (c : ChainState) (tx : Transaction) : Result ReinjectableTx :=
  let? h := node_tx_hash tx in
  let? view := snapshot_tx_chain_view c tx in
  Ok {| rj_tx := tx; rj_tx_hash := h; rj_now_secs := height_val (tip_height c); rj_chain_view := view |}.
Definition collect_reinjectable_reorg_txs (c : ChainState) (delta : ReorgDelta) : Result (list ReinjectableTx) :=
  let? reinject := try_map (reinjectable_entry c) (filter (λ tx, reinjectable c tx = true) (disconnected_txs delta)) in
  Ok (sort_by_key rj_tx_hash reinject).

Definition clear_persisted_mempool_snapshot (s : DomStore) : Result DomStore := delete_metadata s MEMPOOL_METADATA_KEY.

(** ** The node's state *)

Record Runtime : Type := {
  rt_chain : ChainState;
  rt_mempool : Mempool;
  rt_orphans : RuntimeOrphanPool;
  rt_missing : MissingBlockTracker;
  rt_relayed : list bytes;
  rt_clock_reads : nat;
}.
Definition set_chain (c : ChainState) (s : Runtime) : Runtime := {|
  rt_chain := c; rt_mempool := rt_mempool s; rt_orphans := rt_orphans s; rt_missing := rt_missing s;
  rt_relayed := rt_relayed s; rt_clock_reads := rt_clock_reads s |}.
Definition set_mempool (p : Mempool) (s : Runtime) : Runtime := {|
  rt_chain := rt_chain s; rt_mempool := p; rt_orphans := rt_orphans s; rt_missing := rt_missing s;
  rt_relayed := rt_relayed s; rt_clock_reads := rt_clock_reads s |}.
Definition set_waiting (o : RuntimeOrphanPool) (m : MissingBlockTracker) (s : Runtime) : Runtime := {|
  rt_chain := rt_chain s; rt_mempool := rt_mempool s; rt_orphans := o; rt_missing := m;
  rt_relayed := rt_relayed s; rt_clock_reads := rt_clock_reads s |}.
Definition relay (block_bytes : bytes) (s : Runtime) : Runtime := {|
  rt_chain := rt_chain s; rt_mempool := rt_mempool s; rt_orphans := rt_orphans s; rt_missing := rt_missing s;
  rt_relayed := rt_relayed s ++ [block_bytes]; rt_clock_reads := rt_clock_reads s |}.
Definition read_clock (s : Runtime) : Runtime := {|
  rt_chain := rt_chain s; rt_mempool := rt_mempool s; rt_orphans := rt_orphans s; rt_missing := rt_missing s;
  rt_relayed := rt_relayed s; rt_clock_reads := S (rt_clock_reads s) |}.

Definition reinject_one (p : Mempool) (t : ReinjectableTx) : Mempool :=
  let v := rj_chain_view t in
  (accept_tx_with_chain_view (λ c, Ok (mjoin (cv_utxos v !! c))) (rj_tx t) (rj_tx_hash t) (rj_now_secs t)
     (cv_current_height v) (cv_chain_id v) (cv_coinbase_maturity v) p).1.

Definition reconcile_mempool_after_connect (connect_result : ConnectResult) (connected_block_txs : list Transaction) : M Runtime unit := λ s,
  let plan : option (Result (list bytes * list ReinjectableTx)) :=
    match connect_result with
    | BestChain => Some (Ok (collect_spent_commitments connected_block_txs, []))
    | Reorg delta => Some (let? txs := collect_reinjectable_reorg_txs (rt_chain s) delta in
                           Ok (collect_spent_commitments (connected_txs delta), txs))
    | SideChain | AlreadyHave => None
    end in
  match plan with
  | None => (s, Ok tt)
  | Some (Err e) => (s, Err e)
  | Some Panic => (s, Panic)
  | Some (Ok (spent_commitments, reinjectable)) =>
      let p := match spent_commitments with [] => rt_mempool s | _ => remove_confirmed spent_commitments (rt_mempool s) end in
      let s := set_mempool (foldl reinject_one p reinjectable) s in
      st_update (λ s, let? st := clear_persisted_mempool_snapshot (store (rt_chain s)) in Ok (set_chain (with_store (rt_chain s) st) s)) s
  end.

Definition decode_deferred_block_bytes (block_bytes : bytes) : Result Block := from_bytes Block block_bytes.

(** ** Replay *)

(** The wall clock, read once per block *)
Context (clock : nat → Timestamp).

Definition wait_again (orphan : OrphanBlock) (child : Block) (s : Runtime) : Runtime :=
  let new_parent := hash_bytes (prev_hash (header child)) in
  let h := height_val (height (header child)) in
  set_waiting
    (orphans_insert {| ob_block_hash := ob_block_hash orphan; ob_parent_hash := new_parent; ob_height := h;
                       ob_block_bytes := ob_block_bytes orphan |} (rt_orphans s)).2
    (note_orphan (ob_block_hash orphan) new_parent (checked_sub h 1) (rt_missing s)).2 s.

(** One child; the result is the stack of parents that are available now. *)
Definition replay_child (ready : list bytes) (orphan : OrphanBlock) : M Runtime (list bytes) := λ s,
  match decode_deferred_block_bytes (ob_block_bytes orphan) with
  | Err _ => (s, Ok ready)
  | Panic => (s, Panic)
  | Ok child =>
      let now := clock (rt_clock_reads s) in
      let s := read_clock s in
      let '(c, result) := connect_block env child now (rt_chain s) in
      let s := set_chain c s in
      match relay_block_action result, result with
      | _, Panic => (s, Panic)
      | RelayBestChain, Ok connect_result =>
          (do! _ := reconcile_mempool_after_connect connect_result (transactions child) in
           λ s, (relay (ob_block_bytes orphan) s, Ok (ob_block_hash orphan :: ready))) s
      | Suppress, Ok _ => (s, Ok (ob_block_hash orphan :: ready))
      | Suppress, Err (Orphan _) => (wait_again orphan child s, Ok ready)
      | _, _ => (s, Ok ready)
      end
  end.

Fixpoint replay_children (ready : list bytes) (children : list OrphanBlock) : M Runtime (list bytes) :=
  match children with
  | [] => st_ret ready
  | orphan :: rest => do! ready := replay_child ready orphan in replay_children ready rest
  end.

(** The loop over the stack of available parents; [None] when the fuel runs out *)
Fixpoint replay_loop (fuel : nat) (ready : list bytes) (s : Runtime) : option (Runtime * Result unit) :=
  match ready with
  | [] => Some (s, Ok tt)
  | available_parent :: ready =>
      match fuel with
      | O => None
      | S fuel' =>
          let m := (resolve available_parent (rt_missing s)).2 in
          let '(children, o) := take_children available_parent (rt_orphans s) in
          match replay_children ready children (set_waiting o m s) with
          | (s, Ok ready) => replay_loop fuel' ready s
          | (s, Err e) => Some (s, Err e)
          | (s, Panic) => Some (s, Panic)
          end
      end
  end.

(** Every turn uses up an available parent, and every new one was a block of the pool. *)
Definition reprocess_orphan_children (parent_hash : bytes) (s : Runtime) : option (Runtime * Result unit) :=
  replay_loop (S (size (by_hash (rt_orphans s)))) [parent_hash] s.
End replay.
