(* ===== verification/ReplayLaws.v ===== *)
(** * Laws of orphan replay

    [Replay.v]: replaying the children of a block ends, relays no block twice, and keeps the chain
    state, the mempool, the orphan pool and the tracker consistent whatever fails on the way. *)

From Stdlib Require Import ZArith Lia.
From stdpp Require Import base list strings gmap.
From S2P Require Import Prelude ByteOrder CoreError Core Serialization CryptoHash Pow Curve.
From S2P Require Import Keys Pedersen Schnorr RangeProof RangeProve Transaction TransactionLaws BlockHeader.
From S2P Require Import Consensus ConsensusLaws Genesis Utxo Store StoreLaws StateM Reorg.
From S2P Require Import ChainUtxo ChainState ChainConnect Ledger ChainLaws ChainTyping Mempool MempoolLaws.
From S2P Require Import OrphanPool OrphanLaws Replay BlockExamples ChainExamples.
Local Open Scope list_scope.
Local Open Scope Z_scope.

Section replay_laws.
Context `{HB : Blake2b256} `{HM : HmacSha256} `{HC : Secp256k1} `{HZ : !ZkpBackend}.
Context `{HR : RandomXHash} `{HP : ZkpProver} `{HL : Lmdb} (env : option string).
Context (clock : nat → Timestamp).

Record runtime_ok (s : Runtime) : Prop := {
  rk_chain : chain_typed (rt_chain s);
  rk_mempool : pool_ok (rt_mempool s);
  rk_orphans : orphans_ok (rt_orphans s);
  rk_missing : tracker_ok (rt_missing s);
}.
(** The blocks in the pool, by hash and bytes *)
Definition holds (P : bytes → bytes → Prop) (s : Runtime) : Prop :=
  ∀ h o, by_hash (rt_orphans s) !! h = Some o → P h (ob_block_bytes o).
Definition held (s : Runtime) : nat := size (by_hash (rt_orphans s)).

Lemma clear_snapshot_typed s s' : store_typed s → clear_persisted_mempool_snapshot s = Ok s' → store_typed s'.
Proof.
  intros Hs H. unfold clear_persisted_mempool_snapshot, delete_metadata in H. res_inv. unfold del_if_present in Hm0.
  destruct (mdb_del DB_METADATA MEMPOOL_METADATA_KEY s) as [s2|e|] eqn:Hd; [|destruct e; by simplify_eq|done]. injection Hm0 as <-.
  unfold mdb_del, faulty in Hd. case_match; [done|]. cbn in Hd. case_match; [|done]. injection Hd as <-. destruct Hs. by split.
Qed.

Lemma reinject_ok p ts : pool_ok p → pool_ok (foldl reinject_one p ts).
Proof. revert p. induction ts as [|t ts IH]; intros p Hp; [done|]. apply IH. by apply accept_with_view_keeps. Qed.

Lemma reconcile_keeps cr txs s s' r :
  reconcile_mempool_after_connect cr txs s = (s', r) → runtime_ok s →
  runtime_ok s' ∧ rt_orphans s' = rt_orphans s ∧ rt_relayed s' = rt_relayed s ∧ rt_missing s' = rt_missing s.
Proof.
  intros H [Hc Hp Ho Hm]. unfold reconcile_mempool_after_connect in H.
  assert (Hdone : ∀ r0 : Result unit, (s, r0) = (s', r) → runtime_ok s' ∧ rt_orphans s' = rt_orphans s ∧ rt_relayed s' = rt_relayed s ∧ rt_missing s' = rt_missing s)
    by (intros r0 [= <- _]; done).
  destruct (match cr with BestChain => _ | Reorg _ => _ | SideChain => None | AlreadyHave => None end) as [[[spent txs']|e|]|]; [|by eapply Hdone..].
  assert (Hp' : pool_ok (foldl reinject_one match spent with [] => rt_mempool s | _ => remove_confirmed spent (rt_mempool s) end txs'))
    by (apply reinject_ok; destruct spent; [done|by apply remove_all_ok]).
  apply st_update_inv in H as [[H _]|[-> _]]; [|by split_and!].
  res_inv. pose proof (clear_snapshot_typed _ _ (ct_store _ Hc) Hm0) as Ht. destruct Hc. by split_and!.
Qed.

Lemma wait_again_spec P o child s :
  runtime_ok s → holds P s → P (ob_block_hash o) (ob_block_bytes o) →
  let s' := wait_again o child s in
  runtime_ok s' ∧ holds P s' ∧ rt_relayed s' = rt_relayed s ∧ (held s' ≤ S (held s))%nat.
Proof.
  intros [Hc Hp Ho Hm] Hh HPo s'. unfold s', wait_again. set (o' := {| ob_block_hash := _ |}).
  destruct (orphans_insert o' (rt_orphans s)) as [out p'] eqn:Hi. apply orphans_insert_spec in Hi as (Ho' & Hno & Hyes & _); [|done].
  assert (Hsub : ∀ h x, by_hash p' !! h = Some x → h = ob_block_hash o ∧ x = o' ∨ by_hash (rt_orphans s) !! h = Some x).
  { destruct (kept_outcome out); [|rewrite (Hno eq_refl); by right]. destruct (Hyes eq_refl) as (Hx & _ & Hsub & _). intros h x Hhx.
    destruct (decide (h = ob_block_hash o')) as [-> |Hne]; [left; by simplify_eq|right]. eapply lookup_weaken; [|done]. by rewrite lookup_delete_ne. }
  split; [split; cbn; try done; by apply note_orphan_ok|]. split; [|split; [done|]].
  - intros h x [[-> ->]|Hx]%Hsub; [done|by apply Hh].
  - unfold held. cbn. destruct (kept_outcome out); [|rewrite (Hno eq_refl); lia]. destruct (Hyes eq_refl) as (Hx & _ & Hs & _).
    apply map_subseteq_size in Hs. rewrite map_size_delete_Some in Hs by (by eexists). lia.
Qed.

(** What one child does to the state: the state stays consistent, and the child is used up. *)
Definition child_done (P : bytes → bytes → Prop) (n : nat) (s s' : Runtime) : Prop :=
  runtime_ok s' ∧ holds P s'
  ∧ ∃ l, rt_relayed s' = rt_relayed s ++ l ∧ Forall (λ b, ∃ h, P h b) l ∧ (held s' + length l ≤ held s + n)%nat.

Lemma child_done_trans P n m s1 s2 s3 : child_done P n s1 s2 → child_done P m s2 s3 → child_done P (n + m) s1 s3.
Proof.
  intros (_ & _ & l1 & H1 & F1 & L1) (Hk & Hh & l2 & H2 & F2 & L2). split; [done|]. split; [done|]. exists (l1 ++ l2).
  rewrite H2, H1, (assoc_L (++)), length_app. split; [done|]. split; [by apply Forall_app|lia].
Qed.
Lemma child_done_same P n s s' :
  runtime_ok s' → holds P s' → rt_relayed s' = rt_relayed s → (held s' ≤ held s + n)%nat → child_done P n s s'.
Proof. intros Hk Hh Hr Hn. split; [done|]. split; [done|]. exists []. rewrite app_nil_r. split; [done|]. split; [constructor|cbn; lia]. Qed.

Definition wire_bytes (b : bytes) : Prop := bytes_ok b ∧ zlen b < 2 ^ 63.

(** The state after one child, and what its result adds to the stack of parents *)
Definition used (P : bytes → bytes → Prop) (ready : list bytes) (s s' : Runtime) (r : Result (list bytes)) : Prop :=
  child_done P 1 s s' ∧ ∀ ready', r = Ok ready' → (held s' + length ready' ≤ held s + length ready + 1)%nat.

Lemma connected_used P o ready cr txs s s1 s' r :
  runtime_ok s1 → holds P s1 → P (ob_block_hash o) (ob_block_bytes o) → held s1 = held s → rt_relayed s1 = rt_relayed s →
  st_bind (reconcile_mempool_after_connect cr txs) (λ _ s, (relay (ob_block_bytes o) s, Ok (ob_block_hash o :: ready))) s1 = (s', r) →
  used P ready s s' r.
Proof.
  intros Hk Hh HPo Hn Hl [(? & s2 & Hr & [= <- <-])|(r2 & Hr & _ & Hr2)]%st_bind_inv;
    apply reconcile_keeps in Hr as (Hk2 & Ho2 & Hl2 & _); try done.
  - assert (Hn2 : held (relay (ob_block_bytes o) s2) = held s) by (unfold held; cbn; by rewrite Ho2). split.
    + split; [destruct Hk2; by split|]. split; [intros h1 o1; cbn; rewrite Ho2; apply Hh|]. exists [ob_block_bytes o]. cbn. rewrite Hl2, Hl.
      split; [done|]. split; [|lia]. constructor; [by eexists|constructor].
    + intros y [= <-]. cbn. lia.
  - split; [|by intros ? ->]. apply child_done_same; [done|intros h1 o1; rewrite Ho2; apply Hh|by rewrite Hl2|unfold held in *; rewrite Ho2; lia].
Qed.

Lemma replay_child_spec P ready o s s' r :
  (∀ h b, P h b → wire_bytes b) → runtime_ok s → holds P s → P (ob_block_hash o) (ob_block_bytes o) →
  replay_child env clock ready o s = (s', r) → used P ready s s' r.
Proof.
  intros Hw Hk Hh HPo H. unfold replay_child in H.
  assert (Hplain : ∀ s1 x, runtime_ok s1 → holds P s1 → held s1 = held s → rt_relayed s1 = rt_relayed s →
    (∀ y, x = Ok y → (length y ≤ length ready + 1)%nat) → (s1, x) = (s', r) → used P ready s s' r).
  { intros s1 x Hk1 Hh1 Hn1 Hl1 Hx [= <- <-]. split; [apply child_done_same; done || lia|]. intros y Hy. specialize (Hx y Hy). lia. }
  assert (Hready : ∀ x, Ok ready = Ok (E := DomError) x → (length x ≤ length ready + 1)%nat) by (intros x [= <-]; lia).
  assert (Hpush : ∀ x, Ok (ob_block_hash o :: ready) = Ok (E := DomError) x → (length x ≤ length ready + 1)%nat) by (intros x [= <-]; cbn; lia).
  destruct (decode_deferred_block_bytes (ob_block_bytes o)) as [child|e|] eqn:Hd; [|by apply (Hplain s (Ok ready))|by apply (Hplain s Panic)].
  destruct (Hw _ _ HPo) as [Hb Hl]. assert (Hwire : on_wire child) by (by exists (ob_block_bytes o)).
  destruct (connect_block env child (clock (rt_clock_reads s)) (rt_chain (read_clock s))) as [c result] eqn:Hc.
  pose proof (connect_typed env _ _ _ _ _ (rk_chain _ Hk) Hwire Hc) as Ht. set (s1 := set_chain c (read_clock s)) in *.
  assert (Hk1 : runtime_ok s1) by (destruct Hk; by split). assert (Hh1 : holds P s1) by done.
  destruct result as [[|delta| |]|[]|]; cbn [relay_block_action] in H; try (by eapply Hplain; [..|exact H]); try (by eapply (connected_used P o ready)).
  injection H as <- <-. destruct (wait_again_spec P o child s1 Hk1 Hh1 HPo) as (Hk2 & Hh2 & Hr2 & Hn2).
  assert (held s1 = held s) by done. split; [apply child_done_same; done || lia|]. intros x [= <-]. lia.
Qed.

Lemma replay_children_spec P ready cs s s' r :
  (∀ h b, P h b → wire_bytes b) → runtime_ok s → holds P s → Forall (λ o, P (ob_block_hash o) (ob_block_bytes o)) cs →
  replay_children env clock ready cs s = (s', r) →
  child_done P (length cs) s s' ∧ ∀ ready', r = Ok ready' → (held s' + length ready' ≤ held s + length ready + length cs)%nat.
Proof.
  intros Hw Hk Hh Hcs. revert ready s Hk Hh. induction Hcs as [|o cs Ho Hcs IH]; intros ready s Hk Hh; cbn [replay_children].
  { intros [= <- <-]. split; [apply child_done_same; done || lia|]. intros x [= <-]. cbn. lia. }
  intros [(ready1 & s1 & H1 & H2)|(r1 & H1 & _ & Hr)]%st_bind_inv; destruct (replay_child_spec P _ _ _ _ _ Hw Hk Hh Ho H1) as [Hd Hn].
  - destruct Hd as (Hk1 & Hh1 & Hd). destruct (IH ready1 s1 Hk1 Hh1 H2) as [Hd2 Hn2]. specialize (Hn ready1 eq_refl).
    split; [by apply (child_done_trans P 1 (length cs) s s1 s')|]. intros x Hx. specialize (Hn2 x Hx). cbn. lia.
  - split; [|by intros ? ->]. destruct Hd as (? & ? & l & ? & ? & ?). split; [done|]. split; [done|]. exists l. split; [done|]. split; [done|cbn; lia].
Qed.

Lemma replay_loop_spec P fuel ready s :
  (∀ h b, P h b → wire_bytes b) → runtime_ok s → holds P s → (length ready + held s ≤ fuel)%nat →
  ∃ s' r, replay_loop env clock fuel ready s = Some (s', r) ∧ child_done P 0 s s'.
Proof.
  intros Hw. revert ready s. induction fuel as [|fuel IH]; intros ready s Hk Hh Hf; destruct ready as [|q ready]; cbn [replay_loop].
  1,3: eexists _, _; split; [done|]; apply child_done_same; done || lia.
  { cbn in Hf. lia. }
  destruct (take_children q (rt_orphans s)) as [cs o] eqn:Ht. pose proof Hk as [Hc Hp Ho Hm].
  destruct (take_children_spec _ _ _ _ Ho Ht) as (Ho' & _ & _ & Hcs & Hrest & Hsize). set (s1 := set_waiting o _ s).
  assert (Hk1 : runtime_ok s1) by (split; cbn; try done; by apply resolve_ok).
  assert (Hh1 : holds P s1) by (intros h x [Hx _]%Hrest; by apply Hh).
  assert (Hf1 : Forall (λ o, P (ob_block_hash o) (ob_block_bytes o)) cs) by (apply Forall_forall; intros x [Hx _]%Hcs; by apply Hh).
  assert (Hn1 : (held s1 + length cs = held s)%nat) by done. destruct (replay_children env clock ready cs s1) as [s2 r2] eqn:Hr.
  destruct (replay_children_spec P _ _ _ _ _ Hw Hk1 Hh1 Hf1 Hr) as [Hd Hn].
  assert (Hd0 : child_done P 0 s s2).
  { destruct Hd as (Hk2 & Hh2 & l & Hl & Hfl & Hnl). split; [done|]. split; [done|]. exists l. split; [done|]. split; [done|]. lia. }
  destruct r2 as [ready2|e|]; [|by eexists _, _..]. specialize (Hn ready2 eq_refl). destruct Hd0 as (Hk2 & Hh2 & Hd0).
  destruct (IH ready2 s2 Hk2 Hh2) as (s' & r & -> & Hd'); [cbn in Hf; lia|]. eexists _, _. split; [done|].
  by apply (child_done_trans P 0 0 s s2 s').
Qed.

End replay_laws.

(** ** An orphan that connects *)

#[local] Existing Instances sample_blake2b sample_hmac sample_curve sample_h sample_zkp_backend.
#[local] Existing Instances sample_lmdb sample_randomx sample_prover.

Definition orphan1 : OrphanBlock :=
  {| ob_block_hash := hash1; ob_parent_hash := hash0; ob_height := 1; ob_block_bytes := body_of first1 |}.
Definition orphan_node : Runtime := {|
  rt_chain := cs0; rt_mempool := mempool_new;
  rt_orphans := (orphans_insert orphan1 (orphans_new DEFAULT_MAX_ORPHAN_BLOCKS DEFAULT_MAX_ORPHANS_PER_PARENT)).2;
  rt_missing := (note_orphan hash1 hash0 (Some 0) (tracker_new 2 64 16)).2; rt_relayed := []; rt_clock_reads := 0 |}.

Lemma cs0_typed : chain_typed cs0.
Proof.
  split; [exact store0_typed|split; [vm_compute; reflexivity|refine (bool_decide_unpack _ _); vm_compute; exact I]| |]; cbn; [|lia].
  unfold u64_ok, in_width. lia.
Qed.
Lemma orphan_node_held h o : by_hash (rt_orphans orphan_node) !! h = Some o → o = orphan1.
Proof.
  assert (Hh : by_hash (rt_orphans orphan_node) = {[hash1 := orphan1]}) by (vm_compute; reflexivity).
  rewrite Hh. by intros [_ <-]%lookup_singleton_Some.
Qed.
Lemma orphan_node_ok : runtime_ok orphan_node.
Proof.
  split; [exact cs0_typed|exact mempool_new_ok| |apply note_orphan_ok, tracker_new_ok].
  unfold orphan_node. cbn [rt_orphans]. destruct (orphans_insert orphan1 _) as [out p] eqn:Hi. by apply orphans_insert_spec in Hi as [H _]; [|apply orphans_new_ok].
Qed.

